(* ===== verification/_CoqProject ===== *)
-Q . S2P
Prelude.v
GoStrings.v
Errs.v
Bound.v
StandaloneTask.v
TaskRace.v
Chan.v
MemaMQ.v
Float64.v
Window.v
SRE.v
BBR.v
DataUtil.v
Redis.v
RedisTask.v
MemoryKV.v
SimMQ.v
RedisMQ.v
RedisReclaim.v
RedisLeader.v
RedisZ.v
RedisTimer.v
Mcontext.v
Zap.v
S3Cont.v
Inprocess.v
RotateLogs.v
Network.v
EtcdWatcher.v
EtcdConns.v
EtcdKV.v
Zk.v
Cpu.v
K8s.v
Rpc.v
Http.v
Remote.v
ReplaceNil.v
Mongo.v
Kafka.v
KafkaConf.v
WatchKey.v
Reconnect.v
Standalone.v
S3Part.v
Thumb.v
Stores.v
Encrypt.v
StringUtil.v
TimeUtil.v
StructFields.v
Mage.v
Conf.v
Logs.v
Minio.v
EtcdClient.v
