(* ===== verification/Prelude.v ===== *)
(** * A verification library for the Go module openimsdk/tools

    The module is a set of packages for a messaging service: queues of tasks and
    messages, discovery of services, limits and breakers on requests, uploads of objects,
    timers, log files, errors and the interceptors of remote calls.  Each part below has
    a file here; a file's definitions keep the names of the functions that they model and
    its header says what stands for what.  Paths are those under src/.

    ** Shared ground

    - This file: outcomes (a value or a panic), 64-bit integers, loops over slices, the
      class [MapRange] of the orders in which a map may be ranged over, folds that fill
      maps, runs of sequences of operations ([run_Some]), tactics and hints.
    - GoStrings: the functions of strings, strconv, path, net and unicode/utf8 that the
      module uses on byte strings, with their round trips.  Float64: the float operations of the windows.
      Chan: buffered channels.  Redis, RedisZ: the commands of Redis, as a class with the
      laws that its documentation gives, and an instance.

    ** Queues and messages

    - Bound (queue/bound): a bounded queue.  StandaloneTask (queue/task/standalonetask):
      the manager of waiting and processing queues on top of it; its invariants and the
      effect of every operation, the places filled by round robin or by the least load.
      TaskRace (the same): any number of deletions, which hold the lock for their lookup
      only, among each other and among the queue operations of the other methods.
      RedisTask (queue/task/redistask): the same contract kept in Redis lists, the
      commands of each operation in their order, each of which may fail.
    - MemaMQ (mq/memamq): the asynchronous queue with its workers, as a step relation over
      pushing calls, workers and one stop; nothing is lost, nothing panics, a stop drains.
      SimMQ (mq/simmq): the simulated queue and the send on a closed channel that it allows.
    - RedisMQ (mq/redismq): ids, acknowledgement, leases, terms and trimming of a Redis
      stream; RedisReclaim (the same consumer): what a new term takes over from the
      consumers before it; RedisLeader (the same): instances that compete for the lease,
      with the goroutines of their terms and Close, driving the terms of RedisMQ.
      Kafka (mq/kafka): the goroutines of a consumer group over one channel; KafkaConf
      (mq/kafka): its configuration and certificates.
      Mcontext (mcontext, mq/kafka/util.go, the fields of redismq): what of a context
      travels with a message.

    ** Discovery

    - MemoryKV (discovery/inprocess/memory_kv.go): keys with leases and watchers.
      Inprocess (the rest of discovery/inprocess): the registry of methods, its waiters,
      the connections of the manager.  Remote (remote_conn.go, local_conn.go): calls between
      instances, through an envelope of HTTP, and local ones.
    - Standalone (discovery/standalone): the registry of one process and its keys, with the
      slices of the callers in a store of arrays.
    - EtcdWatcher, EtcdConns, EtcdKV, WatchKey (discovery/etcd): the watcher of a service's
      endpoints over the history of committed changes; the pool that turns its addresses
      into connections, every connection held once; the registrar, whose requests may fail
      though they were applied or arrive late, and the keys with leases, over a class of
      etcd stores; the subscribers of a key and their shared goroutine.
      Reconnect (discovery/etcd/reconnecting_watcher.go): the watcher that is replaced.
      EtcdClient (discovery/etcd): the configuration of the client, the check of a cluster,
      the resolver that listens to a watcher of EtcdWatcher in the pool of EtcdConns.
    - Zk (discovery/zookeeper): the cache of connections and resolvers under its lock, with
      the events of the watch and the sessions.
    - K8s (discovery/kubernetes): the lists of connections to the pods of services.
    - Network (utils/network): addresses.

    ** Limits, timers, uploads, logs

    - Window, SRE, BBR (stability): rolling windows of buckets, the breaker and the limiter
      on them; the theorems relate what they decide to the history of calls.  Cpu
      (stability/internal/cpu): the parsers and the sampling of processor usage.
    - RedisTimer (timer/redistimer): registration, polling and handling of timers.
    - S3Cont (s3/cont): the uploads of objects by parts and their checks, over a class of
      stores; S3Part (s3/minio, oss, aws, cos, kodo): the part sizes of the stores; Stores
      (the same): objects, copies, parts, signed addresses and forms over the replies of
      the client libraries; Minio (s3/minio): the set-up of its client, its addresses and
      forms; Thumb (s3/minio): images, their thumbnails and their caches.
    - RotateLogs (log/file-rotatelogs): names of log files, rotation, purges.  Zap (log):
      levels, the temporary level and its timer, values in entries, the log of SQL.  Logs
      (mw/api, mw/grpc, discovery/etcd, log): what is logged of requests, calls and attempts,
      and the columns of a line.

    ** Errors, calls, helpers

    - Errs (errs): error values, wrapping, [errors.Is] on codes.  Rpc (mw, mw/grpc, checker):
      the interceptors of clients and servers, what a context and an error become on the
      other side.  Http (mw, a2r, apiresp, tokenverify): the chain of a request, the stages
      of a call from HTTP, responses and tokens.  ReplaceNil (mw/replace_nil.go): the
      filling of nil values by reflection, over a store of typed values.
    - DataUtil (utils/datautil), StringUtil (utils/stringutil, utils/splitter): helpers on
      slices, maps and strings; StructFields (utils/datautil): the replacement of the fields
      of structs by reflection.  TimeUtil (utils/timeutil): dates, zones and cycles, on the
      calendar.  Encrypt (utils/encrypt): chained AES.  Mongo (db/mongoutil,
      db/pagination): pages of queries, and the attempts to connect.
    - Conf (config, env, field, xtls, db/redisutil, db/cacheutil, utils/httputil and others):
      how settings are looked up, checked and turned into clients.  Mage (utils/mageutil):
      the tools of the build, over numbered calls of the machine.

    ** How the code is rendered

    A component with locks is a state and the sections that a lock, a channel operation or
    one command makes atomic; a sequence of operations is then any interleaving of the
    calls and goroutines.  A sequential component is its functions on a state.  An error is
    a value of the result, a panic an outcome of its own.  Code of other modules is a class
    or a variable with the laws that its documentation states, and an instance of each
    class evaluates the examples that come with the theorems.  Sets of Go maps are ranged
    over in the order of an arbitrary [MapRange], so the theorems hold for all orders.
    Integers of the code wrap at their width where it matters ([wrap64], [uint32]).

    Loops that the code bounds by its data have as fuel a measure of that data, with a
    lemma that it is enough: the length of the string for the splitting functions, the
    depth of an error for [Errs.Unwrap], one more than the number of taken names for the
    search of a log's name, one more than the width of a range for the processor lists,
    and the number of buckets for the passes over a window (where [None] is running out,
    which no reading does); two rounds for a value in a log entry, and for the filling of
    nil values three more than the depth of the response, where running out is a cycle;
    two rounds for the replacement of fields, whose elements hold no slices of pointers.
    Where a loop of the code may not end, a theorem says when.

    ** What the theorems show

    They are numbered C1 to C40, in the order of their importance.  Invariants and safety:
    nothing lost or duplicated by the queues, no panic, exclusive leases, connections held
    once, events delivered in order.  Functional behaviour of the operations, errors
    included.  Refinement: watchers present the history that they follow.  Round trips:
    contexts, errors, answers to other instances, encryption, dates.  Bounds, termination and progress.
    Types: filling a response keeps every value of its type.  Some theorems state that the
    code fails to do what it means to: entries that a new term leaves pending, an error
    that comes back as a success.  Further theorems without a number
    state the behaviour of single operations and more of these failures.

    ** What is not modelled

    The construction of most clients and the wrappers whose methods are one call of a
    driver or of the standard library (the calls of MongoDB and Redis clients, deletions and
    aborts at the object stores, JSON and base64 helpers, downloads of the build tools), a
    store that refuses everything, interfaces and constants of the build: they have no
    logic of their own.  The drawing of images, the signing of requests, YAML and git are of
    other libraries and are arguments here. *)

From stdpp Require Export base gmap sets list strings sorting relations.
From Stdlib Require Export ZArith Lia.

(** ** Notations of the development *)

Declare Scope go_scope.
Delimit Scope go_scope with go.

(** ** Outcomes: a Go call returns a value or panics

    Go functions that report failures return an ordinary [error] value, which
    the models keep as a component of the returned tuple.  A run-time panic
    (nil dereference, slice bounds, [make] with a negative size, send on a
    closed channel) is a separate outcome that aborts the caller. *)

Inductive outcome (A : Type) : Type :=
| Ret (a : A)
| Panic (why : string).

Arguments Ret {A} a.
Arguments Panic {A} why.

Definition obind {A B} (m : outcome A) (k : A → outcome B) : outcome B :=
  match m with
  | Ret a => k a
  | Panic why => Panic why
  end.

Notation "'let!' x := m 'in' k" := (obind m (λ x, k))
  (at level 10, x pattern, m at level 100, k at level 200) : go_scope.

Definition returns {A} (m : outcome A) : Prop := ∃ a, m = Ret a.

Definition of_nil_check {A} (o : option A) : outcome A :=
  match o with
  | Some a => Ret a
  | None => Panic "invalid memory address or nil pointer dereference"
  end.

(** ** Machine integers

    Go's [int] and [int64] are 64-bit two's complement: arithmetic wraps. *)

Definition two63 : Z := 9223372036854775808.
Definition two64 : Z := 18446744073709551616.

Definition wrap64 (z : Z) : Z := (z + two63) mod two64 - two63.
Definition wrapu64 (z : Z) : Z := z mod two64.

Definition in_int64 (z : Z) : Prop := (- two63 ≤ z < two63)%Z.

Notation "a +i b" := (wrap64 (a + b)) (at level 50, left associativity) : go_scope.
Notation "a -i b" := (wrap64 (a - b)) (at level 50, left associativity) : go_scope.
Notation "a *i b" := (wrap64 (a * b)) (at level 40, left associativity) : go_scope.

(** ** Loops over slices *)

(** [l[i]] with Go's bounds check. *)
Definition slice_get {A} (l : list A) (i : Z) : outcome A :=
  if (i <? 0)%Z then Panic "index out of range"
  else match l !! Z.to_nat i with
       | Some x => Ret x
       | None => Panic "index out of range"
       end.

(** [for i, x := range l { if f(x) { return i } }]: the first index at which
    the test succeeds. *)
Fixpoint first_index {A} (f : A → bool) (l : list A) : option nat :=
  match l with
  | [] => None
  | x :: l' => if f x then Some 0 else S <$> first_index f l'
  end.

(** [append(l[:i], l[i+1:]...)]: the value of the resulting slice. *)
Definition cut_at {A} (i : nat) (l : list A) : list A := take i l ++ drop (S i) l.

(** ** Iteration over a map

    Go leaves the order of [for k, v := range m] unspecified.  A client takes
    the enumeration as an instance of this class; its theorems hold for every
    enumeration that lists each entry of the map once. *)

Class MapRange := {
  range_map {K V} `{Countable K} : gmap K V → list (K * V);
  range_map_perm {K V} `{Countable K} (m : gmap K V) :
    range_map m ≡ₚ map_to_list m
}.

#[export] Instance map_range_stdpp : MapRange := {|
  range_map _ _ _ _ m := map_to_list m;
  range_map_perm _ _ _ _ m := reflexivity (map_to_list m)
|}.

(** ** Tactics *)

(** Case analysis on the tests of a translated handler. *)
Ltac case_tests :=
  repeat (case_match; simplify_eq/=).

(** Turns boolean comparisons on [Z] and [nat] in the context into
    propositions. *)
Ltac reflect_tests :=
  repeat match goal with
  | H : Z.leb _ _ = true |- _ => apply Z.leb_le in H
  | H : Z.leb _ _ = false |- _ => apply Z.leb_gt in H
  | H : Z.ltb _ _ = true |- _ => apply Z.ltb_lt in H
  | H : Z.ltb _ _ = false |- _ => apply Z.ltb_ge in H
  | H : Z.eqb _ _ = true |- _ => apply Z.eqb_eq in H
  | H : Z.eqb _ _ = false |- _ => apply Z.eqb_neq in H
  | H : Nat.leb _ _ = true |- _ => apply Nat.leb_le in H
  | H : Nat.leb _ _ = false |- _ => apply Nat.leb_gt in H
  | H : Nat.ltb _ _ = true |- _ => apply Nat.ltb_lt in H
  | H : Nat.ltb _ _ = false |- _ => apply Nat.ltb_ge in H
  | H : Nat.eqb _ _ = true |- _ => apply Nat.eqb_eq in H
  | H : Nat.eqb _ _ = false |- _ => apply Nat.eqb_neq in H
  | H : negb _ = true |- _ => apply negb_true_iff in H
  | H : negb _ = false |- _ => apply negb_false_iff in H
  | H : _ && _ = true |- _ => apply andb_true_iff in H as [? ?]
  | H : _ || _ = false |- _ => apply orb_false_iff in H as [? ?]
  end.

Create HintDb go_db discriminated.

(** ** Generic lemmas *)

Section outcome_lemmas.
Context {A B : Type}.

Lemma obind_ret (a : A) (k : A → outcome B) : obind (Ret a) k = k a.
Proof. reflexivity. Qed.

Lemma obind_inv (m : outcome A) (k : A → outcome B) b :
  obind m k = Ret b → ∃ a, m = Ret a ∧ k a = Ret b.
Proof. destruct m; simpl; [eauto | discriminate]. Qed.

Lemma returns_ret (a : A) : returns (Ret a).
Proof. by exists a. Qed.

Lemma returns_bind (m : outcome A) (k : A → outcome B) :
  returns m → (∀ a, m = Ret a → returns (k a)) → returns (obind m k).
Proof. intros [a ->] H. simpl. by apply H. Qed.
End outcome_lemmas.

#[export] Hint Resolve returns_ret : go_db.

Lemma wrap64_id z : in_int64 z → wrap64 z = z.
Proof.
  unfold in_int64, wrap64, two63, two64. intros H.
  rewrite Z.mod_small by lia. lia.
Qed.

Lemma wrap64_range z : in_int64 (wrap64 z).
Proof.
  unfold in_int64, wrap64, two63, two64.
  pose proof (Z.mod_pos_bound (z + 9223372036854775808) 18446744073709551616).
  lia.
Qed.

#[export] Hint Resolve wrap64_range : go_db.

Section first_index_lemmas.
Context {A : Type} (f : A → bool).
Implicit Types (l : list A) (i : nat).

Lemma first_index_Some l i :
  first_index f l = Some i ↔
  ∃ x, l !! i = Some x ∧ f x = true ∧ ∀ j y, j < i → l !! j = Some y → f y = false.
Proof.
  revert i. induction l as [|a l IH]; intros i; simpl.
  - split; [discriminate | intros (x & Hx & _); discriminate].
  - destruct (f a) eqn:Ha; split.
    + intros [= <-]. exists a. repeat split; [done.. | intros; lia].
    + intros (x & Hx & Hf & Hlt). destruct i as [|i]; [done |].
      specialize (Hlt 0 a ltac:(lia) eq_refl). congruence.
    + intros (i' & Hi & ->)%fmap_Some. apply IH in Hi as (x & Hx & Hf & Hlt).
      exists x. repeat split; [done.. |]. intros [|j] y Hj Hy; simplify_eq/=; [done |].
      eapply Hlt; [| done]. lia.
    + intros (x & Hx & Hf & Hlt). destruct i as [|i]; simplify_eq/=; [congruence |].
      assert (first_index f l = Some i) as ->; [| done].
      apply IH. exists x. repeat split; [done.. |].
      intros j y Hj Hy. apply (Hlt (S j)); [lia | done].
Qed.

Lemma first_index_None l :
  first_index f l = None ↔ ∀ x, x ∈ l → f x = false.
Proof.
  induction l as [|a l IH]; simpl.
  - split; [intros _ x Hx; by apply elem_of_nil in Hx | done].
  - destruct (f a) eqn:Ha; split.
    + discriminate.
    + intros H. rewrite (H a) in Ha; [discriminate | left].
    + intros H%fmap_None. rewrite IH in H. intros x [-> | Hx]%elem_of_cons; auto.
    + intros H. apply fmap_None, IH. intros x Hx. apply H. by right.
Qed.

Lemma first_index_lt l i : first_index f l = Some i → i < length l.
Proof. intros (x & Hx & _)%first_index_Some. by eapply lookup_lt_Some. Qed.
End first_index_lemmas.

Lemma slice_get_Ret {A} (l : list A) (i : Z) x :
  slice_get l i = Ret x ↔ (0 ≤ i)%Z ∧ l !! Z.to_nat i = Some x.
Proof.
  unfold slice_get. split.
  - intros H. repeat case_match; reflect_tests; simplify_eq. auto.
  - intros [Hi Hx]. destruct (Z.ltb_spec i 0); [lia |]. by rewrite Hx.
Qed.

Section cut_at_lemmas.
Context {A : Type}.
Implicit Types (l : list A) (i : nat).

Lemma cut_at_perm l i x : l !! i = Some x → l ≡ₚ x :: cut_at i l.
Proof.
  intros Hx. unfold cut_at. rewrite <- (take_drop_middle l i x Hx) at 1.
  symmetry. apply Permutation_middle.
Qed.

Lemma cut_at_length l i : i < length l → S (length (cut_at i l)) = length l.
Proof.
  intros [x Hx]%lookup_lt_is_Some_2.
  by rewrite (Permutation_length (cut_at_perm l i x Hx)).
Qed.

Lemma cut_at_sublist l i : sublist (cut_at i l) l.
Proof.
  unfold cut_at. rewrite <- (take_drop i l) at 3.
  apply sublist_app; [done |].
  replace (drop (S i) l) with (drop 1 (drop i l))
    by (rewrite drop_drop; f_equal; lia).
  apply sublist_drop.
Qed.

Lemma cut_at_NoDup l i : NoDup l → NoDup (cut_at i l).
Proof. intros H. eapply sublist_NoDup; [done | apply cut_at_sublist]. Qed.

Lemma cut_at_elem_of l i x : x ∈ cut_at i l → x ∈ l.
Proof.
  intros Hx. eapply elem_of_submseteq; [done |].
  apply sublist_submseteq, cut_at_sublist.
Qed.

Lemma cut_at_NoDup_elem l i x y :
  NoDup l → l !! i = Some x → y ∈ cut_at i l ↔ y ∈ l ∧ y ≠ x.
Proof.
  intros Hl Hx. pose proof (cut_at_perm l i x Hx) as Hp.
  rewrite Hp in Hl. apply NoDup_cons in Hl as [Hni _].
  pose proof (elem_of_cons (cut_at i l) y x) as He. rewrite <- Hp in He.
  rewrite He. split; [| naive_solver].
  intros Hy. split; [by right | by intros ->].
Qed.
End cut_at_lemmas.

Section map_list_lemmas.
Context {K V : Type} `{Countable K}.
Implicit Types (m : gmap K V) (k : K) (v : V).

(** Replacing the value of a present key changes one entry of the listing. *)
Lemma map_to_list_update m k v w :
  m !! k = Some v →
  ∃ rest, map_to_list m ≡ₚ (k, v) :: rest ∧
          map_to_list (<[k := w]> m) ≡ₚ (k, w) :: rest.
Proof.
  intros Hk. exists (map_to_list (delete k m)). split.
  - by rewrite <- (map_to_list_delete m k v Hk).
  - rewrite <- (insert_delete_eq m k w). apply map_to_list_insert, lookup_delete_eq.
Qed.

(** A map that owns lists: giving a key another list exchanges the two. *)
Lemma join_map_insert {A} (m : gmap K (list A)) k l :
  ∃ rest, mjoin (map_to_list m).*2 ≡ₚ default [] (m !! k) ++ rest ∧
          mjoin (map_to_list (<[k := l]> m)).*2 ≡ₚ l ++ rest.
Proof.
  exists (mjoin (map_to_list (delete k m)).*2). split.
  - destruct (m !! k) as [l'|] eqn:Hk; simpl.
    + by rewrite <- (map_to_list_delete m k l' Hk).
    + by rewrite delete_id.
  - rewrite <- insert_delete_eq, map_to_list_insert by apply lookup_delete_eq. done.
Qed.

(** Filling a map from a list with distinct keys. *)
Lemma fold_insert {A} (f : A → K) (g : A → V) (l : list A) m :
  NoDup (f <$> l) →
  fold_left (λ m x, <[f x := g x]> m) l m = list_to_map ((λ x, (f x, g x)) <$> l) ∪ m.
Proof.
  revert m. induction l as [|x l IH]; intros m; simpl; [by rewrite (left_id_L _ _) |].
  intros [Hx Hl]%NoDup_cons. rewrite IH by done.
  rewrite <- insert_union_l, insert_union_r; [done |]. apply not_elem_of_list_to_map_1.
  by rewrite <- list_fmap_compose.
Qed.
End map_list_lemmas.

(** Updating one thread of a pool changes the pool's measures by that thread. *)
Section pool_lemmas.
Context {A B : Type}.
Implicit Types (l : list A) (i : nat).

Lemma sum_list_with_insert (f : A → nat) l i x y :
  l !! i = Some x →
  sum_list_with f (<[i := y]> l) + f x = sum_list_with f l + f y.
Proof.
  revert i. induction l as [|a l IH]; intros [|i] Hi; simplify_eq/=; [lia |].
  specialize (IH i Hi). lia.
Qed.

Lemma sum_list_with_0 (f : A → nat) l :
  sum_list_with f l = 0 → ∀ x, x ∈ l → f x = 0.
Proof.
  induction l as [|a l IH]; simpl; intros Hs x Hx; [by apply elem_of_nil in Hx |].
  apply elem_of_cons in Hx as [-> | Hx]; [lia | apply IH; [lia | done]].
Qed.

Lemma sum_list_with_pos (f : A → nat) l :
  0 < sum_list_with f l → ∃ i x, l !! i = Some x ∧ 0 < f x.
Proof.
  induction l as [|a l IH]; simpl; [lia |]. intros Hs.
  destruct (decide (0 < f a)); [by exists 0, a |].
  destruct IH as (i & x & ? & ?); [lia |]. by exists (S i), x.
Qed.

Lemma sum_list_with_ge (f : A → nat) l i x :
  l !! i = Some x → f x ≤ sum_list_with f l.
Proof.
  revert i. induction l as [|a l IH]; intros [|i] Hi; simplify_eq/=; [lia |].
  specialize (IH i Hi). lia.
Qed.

Lemma bind_insert_perm (f : A → list B) l i x y :
  l !! i = Some x →
  ∃ rest, l ≫= f ≡ₚ f x ++ rest ∧ <[i := y]> l ≫= f ≡ₚ f y ++ rest.
Proof.
  revert i. induction l as [|a l IH]; intros [|i] Hi; simplify_eq/=.
  - by exists (l ≫= f).
  - destruct (IH i Hi) as (rest & H1 & H2). exists (f a ++ rest).
    rewrite H1, H2. split; solve_Permutation.
Qed.

Lemma Forall_insert_iff (P : A → Prop) l i y :
  Forall P l → P y → Forall P (<[i := y]> l).
Proof. intros Hl Hy. by apply Forall_insert. Qed.
End pool_lemmas.

(** A property that every step preserves holds after any run of them. *)
Lemma run_Some {S O} (exec : O → S → option S) (P : S → Prop) os s s' :
  (∀ o s s', exec o s = Some s' → P s → P s') →
  fold_left (λ s o, s ≫= exec o) os (Some s) = Some s' → P s → P s'.
Proof.
  intros Hstep. revert s. induction os as [|o os IH]; intros s; simpl; [by intros [= <-] |].
  destruct (exec o s) as [s1|] eqn:Ho.
  - intros Hr Hs. eapply IH; [done |]. by eapply Hstep.
  - intros Hr. exfalso. clear -Hr. induction os; simpl in *; [done | auto].
Qed.

#[export] Hint Resolve cut_at_NoDup first_index_lt : go_db.
