(* ===== verification/GoStrings.v ===== *)
(** * Functions of Go's strings, strconv, path, net, sort, encoding/hex and unicode/utf8 packages

    What several components use of the standard library, on strings of bytes. *)

From stdpp Require Import pretty.
From S2P Require Import Prelude.
From Stdlib Require Import Strings.Ascii.

Local Open Scope Z_scope.

(** ** Decimal numbers: [strconv.ParseInt(s, 10, 64)] and [strconv.Atoi] *)

Definition digit (c : ascii) : option Z :=
  let n := Z.of_N (N_of_ascii c) in
  if (48 <=? n) && (n <=? 57) then Some (n - 48) else None.

(** [ParseUint]: stops at the first character that is not a digit (a syntax error,
    [None]) or that takes the value past 64 bits (a range error, the largest value). *)
Fixpoint ParseUint64 (acc : Z) (s : string) : option (Z * bool) :=
  match s with
  | EmptyString => Some (acc, false)
  | String c s' =>
      match digit c with
      | None => None
      | Some d => if two64 <=? acc * 10 + d then Some (two64 - 1, true)
                  else ParseUint64 (acc * 10 + d) s'
      end
  end.

(** The value and whether there is no error: 0 on a syntax error, the nearest bound
    on a range error. *)
Definition ParseInt64 (s : string) : Z * bool :=
  let '(neg, body) :=
    match s with
    | EmptyString => (false, s)
    | String c s' => if ascii_dec c "-" then (true, s')
                     else if ascii_dec c "+" then (false, s') else (false, s)
    end in
  match body with
  | EmptyString => (0, false)
  | _ => match ParseUint64 0 body with
         | None => (0, false)
         | Some (un, range) =>
             if (neg : bool)
             then (if two63 <? un then (- two63, false) else (- un, negb range))
             else (if two63 <=? un then (two63 - 1, false) else (un, negb range))
         end
  end.

(** [strconv.Itoa]. *)
Definition Itoa (z : Z) : string := pretty z.

(** ** Splitting, joining, trimming *)

Definition is_byte (c a : ascii) : bool := if ascii_dec a c then true else false.

(** [strings.IndexByte] and [strings.LastIndexByte]. *)
Fixpoint IndexByte (c : ascii) (s : string) : option nat :=
  match s with
  | EmptyString => None
  | String a s' => if is_byte c a then Some 0%nat else S <$> IndexByte c s'
  end.

Fixpoint LastIndexByte (c : ascii) (s : string) : option nat :=
  match s with
  | EmptyString => None
  | String a s' => match LastIndexByte c s' with
                   | Some i => Some (S i)
                   | None => if is_byte c a then Some 0%nat else None
                   end
  end.

Fixpoint has_byte (c : ascii) (s : string) : bool :=
  match s with EmptyString => false | String a s' => is_byte c a || has_byte c s' end.

(** [s[:n]] and [s[n:]] for [n] within the string. *)
Fixpoint stake (n : nat) (s : string) : string :=
  match n, s with S n', String a s' => String a (stake n' s') | _, _ => EmptyString end.
Fixpoint sdrop (n : nat) (s : string) : string :=
  match n, s with S n', String a s' => sdrop n' s' | O, _ => s | _, EmptyString => EmptyString end.

(** [strings.SplitN(s, sep, n)] for a one-character separator; [strings.Split] is
    the same without a bound. *)
Fixpoint SplitN (sep : ascii) (s : string) (n : nat) : list string :=
  match s, n with
  | _, O => []
  | EmptyString, _ => [EmptyString]
  | _, 1%nat => [s]
  | String c s', S n' =>
      if ascii_dec c sep then EmptyString :: SplitN sep s' n'
      else match SplitN sep s' n with
           | x :: xs => String c x :: xs
           | [] => []
           end
  end.

Definition Split (sep : ascii) (s : string) : list string := SplitN sep s (S (String.length s)).

Fixpoint CutPrefix (prefix s : string) : option string :=
  match prefix, s with
  | EmptyString, _ => Some s
  | String a p, String b s' => if ascii_dec a b then CutPrefix p s' else None
  | String _ _, EmptyString => None
  end.

(** The white space of ASCII. *)
Definition is_space (c : ascii) : bool :=
  let n := N_of_ascii c in ((9 <=? n) && (n <=? 13) || (n =? 32))%N.

Fixpoint TrimLeft (s : string) : string :=
  match s with
  | EmptyString => EmptyString
  | String c s' => if is_space c then TrimLeft s' else s
  end.

Fixpoint TrimRight (s : string) : string :=
  match s with
  | EmptyString => EmptyString
  | String c s' =>
      match TrimRight s' with
      | EmptyString => if is_space c then EmptyString else String c EmptyString
      | r => String c r
      end
  end.

Definition TrimSpace (s : string) : string := TrimRight (TrimLeft s).

(** [strings.Join(v, sep)]. *)
Fixpoint Join (sep : string) (v : list string) : string :=
  match v with
  | [] => ""
  | [x] => x
  | x :: v' => x +:+ sep +:+ Join sep v'
  end.

(** ** Paths *)

(** The elements of a path, [..] removing the element before it; a rooted path has
    nothing above its root. *)
Fixpoint clean_elems (rooted : bool) (elems acc : list string) : list string :=
  match elems with
  | [] => rev acc
  | e :: elems' =>
      if bool_decide (e = "") || bool_decide (e = ".") then clean_elems rooted elems' acc
      else if bool_decide (e = "..") then
        match acc with
        | x :: acc' => if bool_decide (x = "..") then clean_elems rooted elems' (".." :: acc)
                       else clean_elems rooted elems' acc'
        | [] => clean_elems rooted elems' (if rooted then [] else [".."])
        end
      else clean_elems rooted elems' (e :: acc)
  end.

(** [path.Clean]. *)
Definition Clean (p : string) : string :=
  match p with
  | EmptyString => "."
  | String c _ =>
      let rooted : bool := if ascii_dec c "/" then true else false in
      let body := Join "/" (clean_elems rooted (Split "/" p) []) in
      if rooted then "/" +:+ body else if bool_decide (body = "") then "." else body
  end.

(** [path.Join]: empty elements are left out. *)
Definition path_Join (elems : list string) : string :=
  match filter (λ e, e ≠ "") elems with
  | [] => ""
  | es => Clean (Join "/" es)
  end.

(** ** Host and port *)

(** [net.JoinHostPort]. *)
Definition JoinHostPort (host port : string) : string :=
  if has_byte ":" host then "[" +:+ host +:+ "]:" +:+ port else host +:+ ":" +:+ port.

Definition bracketed (s : string) : bool :=
  match s with String a _ => is_byte "[" a | EmptyString => false end.

(** [net.SplitHostPort]; its errors are not told apart. *)
Definition SplitHostPort (s : string) : option (string * string) :=
  match LastIndexByte ":" s with
  | None => None
  | Some i =>
      let check (host : string) (j k : nat) :=
        if has_byte "[" (sdrop j s) || has_byte "]" (sdrop k s) then None
        else Some (host, sdrop (S i) s) in
      if bracketed s then
        match IndexByte "]" s with
        | None => None
        | Some e => if Nat.eqb (S e) i then check (stake (e - 1) (sdrop 1 s)) 1%nat (S e) else None
        end
      else if has_byte ":" (stake i s) then None else check (stake i s) 0%nat 0%nat
  end.

(** ** Hexadecimal *)

Definition is_hex (c : ascii) : bool :=
  let n := N_of_ascii c in
  ((48 <=? n) && (n <=? 57) || (97 <=? n) && (n <=? 102) || (65 <=? n) && (n <=? 70))%N.

Fixpoint all_hex (s : string) : bool :=
  match s with EmptyString => true | String c s' => is_hex c && all_hex s' end.

(** The number of bytes [hex.DecodeString] yields, or its error. *)
Definition hex_bytes (s : string) : option Z :=
  if all_hex s && Nat.even (String.length s) then Some (Z.of_nat (Nat.div2 (String.length s))) else None.

(** ** Lengths *)

(** ** Case, suffixes, substrings *)

Definition lower_ascii (c : ascii) : ascii :=
  let n := nat_of_ascii c in if Nat.leb 65 n && Nat.leb n 90 then ascii_of_nat (n + 32) else c.

Fixpoint ToLower (s : string) : string :=
  match s with EmptyString => EmptyString | String c s => String (lower_ascii c) (ToLower s) end.

Definition HasSuffix (s suffix : string) : bool :=
  bool_decide (String.substring (String.length s - String.length suffix) (String.length suffix) s = suffix)
  && Nat.leb (String.length suffix) (String.length s).

Fixpoint Contains (s sub : string) : bool :=
  match CutPrefix sub s with
  | Some _ => true
  | None => match s with EmptyString => false | String _ s' => Contains s' sub end
  end.

Lemma string_length_app a b : String.length (a +:+ b) = (String.length a + String.length b)%nat.
Proof. induction a as [|c a IH]; simpl; [done |]. by rewrite IH. Qed.

Lemma string_app_nil_r s : s +:+ "" = s.
Proof. induction s as [|a s IH]; [done |]. exact (f_equal (String a) IH). Qed.

Lemma string_app_neq a b : b ≠ "" → a +:+ b ≠ a.
Proof.
  intros Hb H. apply (f_equal String.length) in H. rewrite string_length_app in H.
  destruct b; [done | simpl in H; lia].
Qed.

Lemma substring_all b : String.substring 0 (String.length b) b = b.
Proof. induction b as [|c b IH]; simpl; [done |]. by rewrite IH. Qed.

Lemma substring_app a b : String.substring (String.length a) (String.length b) (a +:+ b) = b.
Proof. induction a as [|c a IH]; simpl; [apply substring_all |]. done. Qed.

Lemma HasSuffix_app a b : HasSuffix (a +:+ b) b = true.
Proof.
  unfold HasSuffix. rewrite string_length_app, Nat.add_sub, substring_app.
  rewrite bool_decide_true by done. simpl. apply Nat.leb_le. lia.
Qed.

(** ** Decimal round trip *)

Lemma digit_pretty x : (x < 10)%N → digit (pretty_N_char x) = Some (Z.of_N x).
Proof.
  intros Hx.
  assert (x = 0 ∨ x = 1 ∨ x = 2 ∨ x = 3 ∨ x = 4 ∨ x = 5 ∨ x = 6 ∨ x = 7 ∨ x = 8 ∨ x = 9)%N by lia.
  naive_solver.
Qed.

Lemma ParseUint64_go x s :
  (0 < x)%N → Z.of_N x < two63 → ParseUint64 0 (pretty_N_go x s) = ParseUint64 (Z.of_N x) s.
Proof.
  revert s. induction (N.lt_wf_0 x) as [x _ IH]; intros s Hx Hmax.
  rewrite pretty_N_go_step by done.
  assert (Hd : (x mod 10 < 10)%N) by by apply N.mod_lt.
  assert (Hstep : ∀ acc, acc * 10 + Z.of_N (x mod 10) = Z.of_N x →
    ParseUint64 acc (String (pretty_N_char (x mod 10)) s) = ParseUint64 (Z.of_N x) s).
  { intros acc Hacc. simpl. rewrite digit_pretty, Hacc by done.
    destruct (Z.leb_spec two64 (Z.of_N x)); [unfold two63, two64 in *; lia | done]. }
  pose proof (N.div_mod x 10 ltac:(done)) as Hdm.
  destruct (decide (x < 10)%N).
  - rewrite N.div_small by done. rewrite pretty_N_go_0. apply Hstep.
    rewrite N.mod_small by done. lia.
  - rewrite IH; [apply Hstep; lia | by apply N.div_lt | | ].
    + apply N.div_str_pos. lia.
    + pose proof (N.div_lt x 10). lia.
Qed.

(** [Atoi(Itoa(n))]. *)
Lemma ParseInt64_Itoa n : 0 ≤ n < two63 → ParseInt64 (Itoa n) = (n, true).
Proof.
  intros [Hn Hmax]. destruct n as [|x|x]; [done | | lia].
  assert (HU : ParseUint64 0 (Itoa (Z.pos x)) = Some (Z.pos x, false)).
  { change (Itoa (Z.pos x)) with (pretty_N_go (N.pos x) ""). by rewrite ParseUint64_go. }
  unfold ParseInt64. destruct (Itoa (Z.pos x)) as [|c s] eqn:Hs; [done |].
  assert (is_Some (digit c)) as [d Hd].
  { simpl in HU. destruct (digit c); [by eexists | done]. }
  destruct (ascii_dec c "-") as [-> | _]; [done |].
  destruct (ascii_dec c "+") as [-> | _]; [done |].
  rewrite HU. simpl. destruct (Z.leb_spec two63 (Z.pos x)); [lia | done].
Qed.

(** ** Host and port round trip *)

Lemma has_byte_app c a b : has_byte c (a +:+ b) = has_byte c a || has_byte c b.
Proof. induction a as [|x a IH]; simpl; [done |]. by rewrite IH, orb_assoc. Qed.

Lemma LastIndexByte_None c s : has_byte c s = false → LastIndexByte c s = None.
Proof.
  induction s as [|a s IH]; simpl; [done |]. intros [-> Hs]%orb_false_iff. by rewrite IH.
Qed.

Lemma LastIndexByte_app c a b : has_byte c b = false →
  LastIndexByte c (a +:+ String c b) = Some (String.length a).
Proof.
  intros Hb. induction a as [|x a IH]; simpl; [| by rewrite IH].
  rewrite LastIndexByte_None by done. unfold is_byte. by destruct (ascii_dec c c).
Qed.

Lemma IndexByte_app c a b : has_byte c a = false →
  IndexByte c (a +:+ String c b) = Some (String.length a).
Proof.
  induction a as [|x a IH]; simpl.
  - intros _. unfold is_byte. by destruct (ascii_dec c c).
  - intros [-> Ha]%orb_false_iff. by rewrite IH.
Qed.

Lemma CutPrefix_app a b : CutPrefix a (a +:+ b) = Some b.
Proof. induction a as [|x a IH]; [done |]. simpl. by destruct (ascii_dec x x). Qed.

Lemma SplitN_cons sep c s n :
  SplitN sep (String c s) (S (S n)) =
  if ascii_dec c sep then EmptyString :: SplitN sep s (S n)
  else match SplitN sep s (S (S n)) with x :: xs => String c x :: xs | [] => [] end.
Proof. reflexivity. Qed.

Lemma SplitN_plain sep s n :
  has_byte sep s = false → (0 < n)%nat → SplitN sep s n = [s].
Proof.
  revert n. induction s as [|c s IH]; intros [|[|n]] Hs Hn; try done; [lia.. |].
  simpl in Hs. apply orb_false_iff in Hs as [Hc Hs]. rewrite SplitN_cons.
  unfold is_byte in Hc. destruct (ascii_dec c sep); [done |]. by rewrite IH by (done || lia).
Qed.

Lemma SplitN_last sep a b n :
  has_byte sep b = false → (S (String.length a) < n)%nat →
  (1 < length (SplitN sep (a +:+ String sep b) n))%nat ∧ last (SplitN sep (a +:+ String sep b) n) = Some b.
Proof.
  intros Hb. revert n. induction a as [|c a IH]; intros [|[|n]] Hn; simpl in Hn; try lia.
  - change (EmptyString +:+ String sep b) with (String sep b). rewrite SplitN_cons.
    destruct (ascii_dec sep sep); [| done]. rewrite SplitN_plain by (done || lia).
    split; [simpl; lia | done].
  - change (String c a +:+ String sep b) with (String c (a +:+ String sep b)). rewrite SplitN_cons.
    destruct (ascii_dec c sep).
    + destruct (IH (S n)) as [Hlen Hlast]; [lia |]. split; [simpl; lia |].
      by rewrite last_cons, Hlast.
    + destruct (IH (S (S n))) as [Hlen Hlast]; [lia |].
      destruct (SplitN sep (a +:+ String sep b) (S (S n))) as [|x [|y ys]]; [simpl in *; lia.. |].
      split; [simpl; lia |]. by rewrite last_cons_cons in *.
Qed.

Lemma stake_app a b : stake (String.length a) (a +:+ b) = a.
Proof. induction a as [|x a IH]; simpl; [by destruct b | by rewrite IH]. Qed.

Lemma sdrop_app a b : sdrop (String.length a) (a +:+ b) = b.
Proof. induction a as [|x a IH]; simpl; [done | by rewrite IH]. Qed.

Lemma string_app_assoc a b c : a +:+ (b +:+ c) = (a +:+ b) +:+ c.
Proof. induction a as [|x a IH]; [done |]. exact (f_equal (String x) IH). Qed.

Lemma sdrop_add n m s : sdrop (n + m) s = sdrop m (sdrop n s).
Proof. revert s. induction n as [|n IH]; intros [|a s]; simpl; [done.. | by destruct m | done]. Qed.

Lemma SplitHostPort_Join host port :
  has_byte "[" host = false → has_byte "]" host = false →
  has_byte "[" port = false → has_byte "]" port = false → has_byte ":" port = false →
  SplitHostPort (JoinHostPort host port) = Some (host, port).
Proof.
  intros Hh1 Hh2 Hp1 Hp2 Hp3. unfold JoinHostPort.
  destruct (has_byte ":" host) eqn:Hc.
  - change ("[" +:+ host +:+ "]:" +:+ port) with (String "[" (host +:+ String "]" (String ":" port))).
    unfold SplitHostPort.
    assert (Hl : LastIndexByte ":" (String "[" (host +:+ String "]" (String ":" port)))
                 = Some (S (S (String.length host)))).
    { assert (Heq : host +:+ String "]" (String ":" port) = (host +:+ "]") +:+ String ":" port)
        by exact (string_app_assoc host "]" (String ":" port)).
      rewrite Heq.
      etrans; [exact (LastIndexByte_app ":" (String "[" (host +:+ "]")) port Hp3) |].
      simpl. rewrite string_length_app. simpl. by rewrite Nat.add_1_r. }
    rewrite Hl. change (bracketed _) with true. cbv iota beta zeta.
    assert (Hi : IndexByte "]" (String "[" (host +:+ String "]" (String ":" port)))
                 = Some (S (String.length host))).
    { exact (IndexByte_app "]" (String "[" host) (String ":" port) Hh2). }
    assert (H1 : sdrop (S (String.length host)) (host +:+ String "]" (String ":" port)) = String ":" port)
      by by rewrite <- Nat.add_1_r, sdrop_add, sdrop_app.
    assert (H2 : sdrop (S (S (String.length host))) (host +:+ String "]" (String ":" port)) = port).
    { replace (S (S (String.length host))) with (String.length host + 2)%nat by lia.
      by rewrite sdrop_add, sdrop_app. }
    rewrite Hi, Nat.eqb_refl.
    repeat change (sdrop (S ?n) (String ?a ?s)) with (sdrop n s).
    rewrite H1, H2. change (sdrop 0 ?s) with s.
    rewrite Nat.sub_succ, Nat.sub_0_r, stake_app, has_byte_app, Hh1.
    simpl. by rewrite Hp1, Hp2.
  - change (host +:+ ":" +:+ port) with (host +:+ String ":" port).
    unfold SplitHostPort. rewrite LastIndexByte_app by done.
    assert (bracketed (host +:+ String ":" port) = false) as ->.
    { destruct host as [|a host]; [done |]. simpl in *. by apply orb_false_iff in Hh1 as [-> _]. }
    assert (H1 : sdrop (S (String.length host)) (host +:+ String ":" port) = port)
      by by rewrite <- Nat.add_1_r, sdrop_add, sdrop_app.
    rewrite H1, stake_app, Hc. change (sdrop 0 ?s) with s.
    rewrite !has_byte_app, Hh1, Hh2. simpl. by rewrite Hp1, Hp2.
Qed.

(** ** Sorting: [sort.Strings] orders by bytes *)

Definition sort_strings (l : list string) : list string := merge_sort String.le l.

Lemma sort_strings_perm l : sort_strings l ≡ₚ l.
Proof. apply merge_sort_Permutation. Qed.

Lemma sort_strings_sorted l : StronglySorted String.le (sort_strings l).
Proof. apply StronglySorted_merge_sort; apply _. Qed.

Lemma elem_of_sort_strings x l : x ∈ sort_strings l ↔ x ∈ l.
Proof. by rewrite (sort_strings_perm l). Qed.

Lemma sublist_sorted {A} (R : relation A) l k : sublist l k → StronglySorted R k → StronglySorted R l.
Proof.
  induction 1 as [|x l k Hs IH | x l k Hs IH]; intros Hk; [constructor |..];
    apply StronglySorted_inv in Hk as [Hk Hx]; [| by apply IH].
  constructor; [by apply IH |].
  apply Forall_forall. intros y Hy. eapply Forall_forall in Hx; [done |].
  eapply elem_of_submseteq; [done | by apply sublist_submseteq].
Qed.

Lemma sublist_filter {A} (P : A → Prop) `{∀ x, Decision (P x)} l : sublist (filter P l) l.
Proof.
  induction l as [|x l IH]; [constructor |]. rewrite filter_cons. case_decide; by constructor.
Qed.

Definition string_gt (p q : string) : Prop := String.le p q ∧ q ≠ p.

(** The names that a prefix of a sorted list leaves out come after its own. *)
Lemma take_sorted_rank l c p :
  StronglySorted String.le l → NoDup l →
  p ∈ take (length l - c) l ↔ p ∈ l ∧ (c ≤ length (filter (λ q, string_gt p q) l))%nat.
Proof.
  intros Hs Hn. induction l as [|x l IH]; simpl; [set_solver |].
  apply StronglySorted_inv in Hs as [Hs Hx]. apply NoDup_cons in Hn as [Hni Hn].
  specialize (IH Hs Hn). rewrite Forall_forall in Hx. rewrite filter_cons.
  pose proof (length_filter (λ q, string_gt p q) l) as Hle.
  destruct (decide (p = x)) as [-> | Hp].
  - rewrite decide_False by (intros [_ ?]; done).
    assert (filter (λ q, string_gt x q) l = l) as ->.
    { clear - Hx Hni. induction l as [|y l IH]; [done |].
      rewrite filter_cons_True by (split; [apply Hx; left | intros ->; apply Hni; left]).
      f_equal. apply IH; [intros z Hz; apply Hx; by right | intros Hz; apply Hni; by right]. }
    destruct (decide (c ≤ length l)%nat).
    + replace (S (length l) - c)%nat with (S (length l - c)) by lia. simpl. set_solver.
    + replace (S (length l) - c)%nat with 0%nat by lia. simpl. split; [set_solver | lia].
  - rewrite elem_of_cons.
    destruct (decide (p ∈ l)) as [Hpl |].
    + rewrite decide_False.
      2: { intros [Hpx _]. apply Hp. apply (anti_symm String.le); [done | by apply Hx]. }
      destruct (decide (c ≤ length l)%nat).
      * replace (S (length l) - c)%nat with (S (length l - c)) by lia. simpl.
        rewrite elem_of_cons. set_solver.
      * replace (S (length l) - c)%nat with 0%nat by lia. simpl. split; [set_solver | lia].
    + split; [| intros [[? | ?] _]; done]. intros Hin.
      assert (p ∈ x :: l) as [? | ?]%elem_of_cons; [| done..].
      eapply elem_of_take in Hin as (i & Hi & _). by eapply list_elem_of_lookup_2.
Qed.

(** ** Trimming a character, and cases *)

(** [strings.Trim(s, sep)] at the end, and at the start, for one character. *)
Fixpoint TrimByteRight (c : ascii) (s : string) : string :=
  match s with
  | EmptyString => ""
  | String a s =>
      let t := TrimByteRight c s in
      if String.eqb t "" && is_byte c a then "" else String a t
  end.

Fixpoint TrimByteLeft (c : ascii) (s : string) : string :=
  match s with
  | EmptyString => ""
  | String a s' => if is_byte c a then TrimByteLeft c s' else s
  end.

Lemma TrimByteRight_none c s : has_byte c s = false → TrimByteRight c s = s.
Proof.
  induction s as [|x s IH]; [done |]. cbn [has_byte TrimByteRight]. intros [Hx Hs]%orb_false_iff.
  by rewrite IH, Hx, andb_false_r.
Qed.

(** [strings.ReplaceAll(s, c, "")] for one character. *)
Fixpoint strip_byte (c : ascii) (s : string) : string :=
  match s with
  | EmptyString => ""
  | String a s => if is_byte c a then strip_byte c s else String a (strip_byte c s)
  end.

Lemma strip_byte_none c s : has_byte c s = false → strip_byte c s = s.
Proof.
  induction s as [|x s IH]; [done |]. cbn [has_byte strip_byte]. intros [-> Hs]%orb_false_iff. by rewrite IH.
Qed.

(** ** Numbers as text, for examples *)

Fixpoint digits (p : positive) : string :=
  match p with xH => "" | xO p => "0" +:+ digits p | xI p => "1" +:+ digits p end.

Fixpoint number (s : string) : positive :=
  match s with EmptyString => 1 | String c s => if ascii_dec c "0" then xO (number s) else xI (number s) end.

Lemma number_digits p : number (digits p) = p.
Proof.
  induction p as [p IH | p IH |]; [| | done].
  - change (xI (number (digits p)) = xI p). by rewrite IH.
  - change (xO (number (digits p)) = xO p). by rewrite IH.
Qed.

(** ** Readers *)

(** A reader gives its bytes, and ends or fails after them. *)
Record body := MkBody { Bytes : string; fails : bool }.

(** [io.LimitReader]. *)
Fixpoint limited (n : Z) (s : string) : string :=
  match s with String a s' => if (n <=? 0)%Z then EmptyString else String a (limited (n - 1) s') | EmptyString => EmptyString end.

(** [io.ReadAll] of the first [n] bytes; [None] is an error, which is not met when the limit
    comes first. *)
Definition read_limited (n : Z) (b : body) : option string :=
  if (n <=? Z.of_nat (String.length (Bytes b)))%Z then Some (limited n (Bytes b))
  else if fails b then None else Some (Bytes b).

Lemma stake_all n s : (String.length s ≤ n)%nat → stake n s = s.
Proof.
  revert n. induction s as [|a s IH]; intros [|n] Hn; simpl in *; [done..|lia|]. rewrite IH; [done|lia].
Qed.

Lemma limited_stake n s : limited n s = stake (Z.to_nat n) s.
Proof.
  revert n. induction s as [|a s IH]; intros n; [by destruct (Z.to_nat n)|]. cbn [limited].
  destruct (Z.leb_spec n 0) as [Hn|Hn]; [by replace (Z.to_nat n) with 0%nat by lia|].
  rewrite IH. replace (Z.to_nat n) with (S (Z.to_nat (n - 1))) by lia. done.
Qed.

(** ** Package unicode/utf8 *)

Definition byte_within (lo hi : Z) (c : ascii) : bool :=
  (lo <=? Z.of_nat (Ascii.nat_of_ascii c)) && (Z.of_nat (Ascii.nat_of_ascii c) <=? hi).

(** [utf8.ValidString]: shortest encodings of code points up to 16#10ffff but surrogates. *)
Fixpoint ValidString (s : string) : bool :=
  match s with
  | EmptyString => true
  | String a s1 =>
      if byte_within 0 127 a then ValidString s1
      else
        match s1 with
        | EmptyString => false
        | String b s2 =>
            if byte_within 194 223 a then byte_within 128 191 b && ValidString s2
            else
              match s2 with
              | EmptyString => false
              | String c s3 =>
                  if byte_within 224 239 a then
                    byte_within (if byte_within 224 224 a then 160 else 128) (if byte_within 237 237 a then 159 else 191) b
                    && byte_within 128 191 c && ValidString s3
                  else
                    match s3 with
                    | EmptyString => false
                    | String d s4 =>
                        byte_within 240 244 a &&
                        byte_within (if byte_within 240 240 a then 144 else 128) (if byte_within 244 244 a then 143 else 191) b
                        && byte_within 128 191 c && byte_within 128 191 d && ValidString s4
                    end
              end
        end
  end.
