(* ===== verification/Errs.v ===== *)
(** * Errors with codes (errs, errs/stack)

    The error values of the package, [Unwrap], [errors.Is] over the [Is] methods, the
    relation between codes, and the construction of messages.  All errors are
    pointers, compared by their address; call stacks are left out.  Values printed
    with [%v] come as their strings. *)

From S2P Require Import Prelude GoStrings.

Local Open Scope Z_scope.

(** ** Error values *)

Record codeError := MkCodeError { code : Z; msg : string; detail : string }.

(** What an error of gRPC carries: a code, a message, and details, of which those of
    another type than [errinfo.ErrorInfo] are [None]. *)
Record ErrorInfo := MkErrorInfo { Warp : list string; Cause : string }.
Record Status := MkStatus { StatusCode : Z; Message : string; Details : list (option ErrorInfo) }.

(** An error of another package that does not unwrap; the three error types of this
    one; [errorWrapper] around nil and around an error; [stackError]; an error of gRPC. *)
Inductive goerr :=
| Other (addr : nat) (s : string)
| Code (addr : nat) (c : codeError)
| ErrString (addr : nat) (s : string)
| WrapperNil (addr : nat) (s : string)
| Wrapper (addr : nat) (e : goerr) (s : string)
| Stack (addr : nat) (e : goerr)
| Grpc (addr : nat) (s : Status).

Definition address (e : goerr) : nat :=
  match e with
  | Other a _ | Code a _ | ErrString a _ | WrapperNil a _ | Wrapper a _ _ | Stack a _ | Grpc a _ => a
  end.

(** [e == f] on interface values holding pointers. *)
Definition same (e f : goerr) : bool := bool_decide (address e = address f).

(** ** Messages *)

(** The loop of [toString]; [buf] is what is written so far. *)
Fixpoint toString_loop (buf : string) (kv : list string) : string :=
  match kv with
  | [] => buf
  | [k] => (if bool_decide (buf = "") then buf else buf +:+ ", ") +:+ k +:+ "=MISSING"
  | k :: v :: kv' =>
      toString_loop ((if bool_decide (buf = "") then buf else buf +:+ ", ") +:+ k +:+ "=" +:+ v) kv'
  end.

Definition toString (s : string) (kv : list string) : string :=
  match kv with [] => s | _ => toString_loop s kv end.

Definition NewCodeError (code : Z) (msg : string) : codeError := MkCodeError code msg "".

Definition WithDetail (d : string) (e : codeError) : codeError :=
  MkCodeError (code e) (msg e) (if bool_decide (detail e = "") then d else detail e +:+ ", " +:+ d).

Definition clone (e : codeError) : codeError := MkCodeError (code e) (msg e) (detail e).

(** The error inside the stack error that [codeError.WrapMsg] returns. *)
Definition WrapMsg_detail (m : string) (kv : list string) (e : codeError) : codeError :=
  let retErr := clone e in
  if negb (bool_decide (m = "")) || (0 <? Z.of_nat (length kv))
  then let d := toString m kv in
       MkCodeError (code retErr) (msg retErr)
         (if bool_decide (detail retErr = "") then d else detail retErr +:+ ", " +:+ d)
  else retErr.

(** ** The predefined errors *)

Definition ServerInternalError : Z := 500.
Definition ArgsError : Z := 1001.
Definition ErrArgs : codeError := NewCodeError ArgsError "ArgsError".
Definition ErrInternalServer : codeError := NewCodeError ServerInternalError "ServerInternalError".

Section errs.
(** [strconv.Itoa] *)
Context (Itoa : Z → string).

Definition codeError_Error (e : codeError) : string :=
  Join " " ([Itoa (code e); msg e] ++ (if bool_decide (detail e = "") then [] else [detail e])).

(** The messages of errors; what the call stack of a stack error prints, and the text
    of an error of gRPC, are parameters. *)
Fixpoint Error (trace : nat → option string) (status_text : Status → string) (e : goerr) : string :=
  match e with
  | Other _ s | ErrString _ s => s
  | Code _ c => codeError_Error c
  | WrapperNil _ s => "%!s(<nil>) " +:+ s
  | Wrapper _ i s => Error trace status_text i +:+ " " +:+ s
  | Stack a i =>
      let s := Error trace status_text i in
      match trace a with None => s | Some t => "Error: " +:+ s +:+ " |" +:+ t end
  | Grpc _ s => status_text s
  end.

(** ** Wrapping; [a], [b] are the addresses of the errors it allocates *)

Definition WrapCode (a : nat) (e : goerr) : goerr := Stack a e.

Definition codeError_WrapMsg (a b : nat) (m : string) (kv : list string) (e : codeError) : goerr :=
  Stack b (Code a (WrapMsg_detail m kv e)).

Definition Wrap (a : nat) (err : option goerr) : option goerr := Stack a <$> err.

Definition WrapMsg (a b : nat) (err : option goerr) (m : string) (kv : list string) : option goerr :=
  (λ e, Stack b (Wrapper a e (toString m kv))) <$> err.

Definition NewErrorWrapper (a : nat) (err : option goerr) (s : string) : goerr :=
  match err with Some e => Wrapper a e s | None => WrapperNil a s end.

Definition ErrPanicMsg (a b : nat) (r : option string) (c : Z) (m : string) : option goerr :=
  (λ r, Stack b (Code a (MkCodeError c m r))) <$> r.

(** ** [Unwrap] *)

(** The [Unwrap] methods: [None] when the type has none, [Some None] when it
    returns nil. *)
Definition unwrap_method (e : goerr) : option (option goerr) :=
  match e with
  | Wrapper _ i _ | Stack _ i => Some (Some i)
  | WrapperNil _ _ => Some None
  | _ => None
  end.

(** The loop, with a bound on its rounds; [None] when it is not over. *)
Fixpoint Unwrap_loop (fuel : nat) (err : goerr) : option goerr :=
  match fuel with
  | O => None
  | S fuel' => match unwrap_method err with
               | None => Some err
               | Some None => Some err
               | Some (Some i) => Unwrap_loop fuel' i
               end
  end.

Fixpoint depth (e : goerr) : nat :=
  match e with Wrapper _ i _ | Stack _ i => S (depth i) | _ => 1 end.

Definition Unwrap (err : option goerr) : option goerr :=
  match err with None => None | Some e => Unwrap_loop (depth e) e end.

(** ** The relation between codes *)

Definition codeRelation := gmap Z (gset Z).

(** One round of the loop of [Add]: [parent] followed by [rest]. *)
Definition add_parent (parent : Z) (rest : list Z) (r : codeRelation) : codeRelation :=
  <[parent := default ∅ (r !! parent) ∪ list_to_set rest]> r.

Fixpoint add_loop (codes : list Z) (r : codeRelation) : codeRelation :=
  match codes with
  | [] => r
  | parent :: codes' => match codes' with
                        | [] => r
                        | _ => add_loop codes' (add_parent parent codes' r)
                        end
  end.

Definition minimumCodesLength : nat := 2.

(** [false] is the error. *)
Definition Add (codes : list Z) (r : codeRelation) : codeRelation * bool :=
  if (length codes <? minimumCodesLength)%nat then (r, false) else (add_loop codes r, true).

Definition relation_Is (r : codeRelation) (parent child : Z) : bool :=
  if parent =? child then true
  else match r !! parent with
       | None => false
       | Some s => bool_decide (child ∈ s)
       end.

(** ** The [Is] methods *)

(** The registered conversions of foreign errors, and the registered relation. *)
Context (Handlers : list (option goerr → option codeError)) (DefaultCodeRelation : codeRelation).

Fixpoint first_handler (hs : list (option goerr → option codeError)) (err : option goerr)
    : option codeError :=
  match hs with
  | [] => None
  | h :: hs' => match h err with Some c => Some c | None => first_handler hs' err end
  end.

(** [codeError.Is]: [e] is the receiver, which may be a nil pointer. *)
Definition codeError_Is (e : option codeError) (err : option goerr) : bool :=
  let found (c : codeError) :=
    match e with
    | None => false
    | Some e => if code e =? code c then true else relation_Is DefaultCodeRelation (code e) (code c)
    end in
  match Unwrap err with
  | Some (Code _ c) => found c
  | _ =>
      if match err, e with None, None => true | _, _ => false end then true
      else match first_handler Handlers err with
           | None => false
           | Some c => found c
           end
  end.

(** [errors.As] for the pointer types of the package: the first such error of the chain. *)
Fixpoint as_errorString (e : goerr) : option string :=
  match e with
  | ErrString _ s => Some s
  | Wrapper _ i _ | Stack _ i => as_errorString i
  | _ => None
  end.

Fixpoint as_errorWrapper (e : goerr) : option string :=
  match e with
  | Wrapper _ _ s | WrapperNil _ s => Some s
  | Stack _ i => as_errorWrapper i
  | _ => None
  end.

(** [errors.As] for the interfaces: [CodeError], [Error], [ErrWrapper], and that of the
    errors of gRPC. *)
Fixpoint as_codeError (e : goerr) : option codeError :=
  match e with
  | Code _ c => Some c
  | Wrapper _ i _ | Stack _ i => as_codeError i
  | _ => None
  end.

Fixpoint as_Error (e : goerr) : option goerr :=
  match e with
  | Code _ _ | ErrString _ _ | Wrapper _ _ _ | WrapperNil _ _ => Some e
  | Stack _ i => as_Error i
  | _ => None
  end.

Fixpoint as_ErrWrapper (e : goerr) : option goerr :=
  match e with
  | Wrapper _ _ _ | WrapperNil _ _ => Some e
  | Stack _ i => as_ErrWrapper i
  | _ => None
  end.

Fixpoint as_grpcError (e : goerr) : option Status :=
  match e with
  | Grpc _ s => Some s
  | Wrapper _ i _ | Stack _ i => as_grpcError i
  | _ => None
  end.

(** [errors.Is] for a target that is not nil, with the [Is] method of each error of
    the chain; that of [stackError] calls [errors.Is] again. *)
Fixpoint Is (e : goerr) (target : goerr) : bool :=
  same e target ||
  match e with
  | Other _ _ | Grpc _ _ => false
  | Code _ c => codeError_Is (Some c) (Some target)
  | ErrString _ s => bool_decide (as_errorString target = Some s)
  | WrapperNil _ s => bool_decide (as_errorWrapper target = Some s)
  | Wrapper _ i s => bool_decide (as_errorWrapper target = Some s) || Is i target
  | Stack _ i => (same e target || same i target || Is i target) || Is i target
  end.

Definition errors_Is (err target : option goerr) : bool :=
  match err, target with
  | Some e, Some t => Is e t
  | None, None => true
  | _, _ => false
  end.

End errs.

(** ** Lemmas *)

Lemma Unwrap_loop_enough n e : (depth e ≤ n)%nat → Unwrap_loop n e = Unwrap_loop (depth e) e.
Proof.
  revert n. induction e; intros [|n] Hn; simpl in *; try lia; try done; rewrite IHe by lia; done.
Qed.

(** The error at the end of the chain. *)
Fixpoint root (e : goerr) : goerr :=
  match e with Wrapper _ i _ | Stack _ i => root i | _ => e end.

Lemma Unwrap_root e : Unwrap (Some e) = Some (root e).
Proof. unfold Unwrap. by induction e. Qed.

(** The errors of the chain. *)
Fixpoint chain (e : goerr) : list goerr :=
  e :: match e with Wrapper _ i _ | Stack _ i => chain i | _ => [] end.

Lemma add_parent_lookup p rest r k c :
  (∃ s, add_parent p rest r !! k = Some s ∧ c ∈ s) ↔
  (∃ s, r !! k = Some s ∧ c ∈ s) ∨ (k = p ∧ c ∈ rest).
Proof.
  unfold add_parent. destruct (decide (k = p)) as [-> | Hne].
  - setoid_rewrite lookup_insert_eq. split.
    + intros (s & [= <-] & [Hc | Hc]%elem_of_union).
      * left. destruct (r !! p); [by eexists | set_solver].
      * right. by apply elem_of_list_to_set in Hc.
    + intros Hor. eexists. split; [done |]. apply elem_of_union.
      destruct Hor as [(s & -> & Hc) | [_ Hc]]; [by left | right; by apply elem_of_list_to_set].
  - setoid_rewrite lookup_insert_ne; [| done]. naive_solver.
Qed.

(** [c] comes after [p] in the list. *)
Definition before (codes : list Z) (p c : Z) : Prop :=
  ∃ i j, (i < j)%nat ∧ codes !! i = Some p ∧ codes !! j = Some c.

Lemma before_cons x l p c : before (x :: l) p c ↔ (p = x ∧ c ∈ l) ∨ before l p c.
Proof.
  unfold before. split.
  - intros ([|i] & [|j] & Hij & Hi & Hj); simplify_eq/=; [lia | | lia |].
    + left. split; [done |]. by apply list_elem_of_lookup_2 with j.
    + right. exists i, j. split_and!; [lia | done | done].
  - intros [[-> [j Hj]%list_elem_of_lookup] | (i & j & Hij & Hi & Hj)].
    + exists 0%nat, (S j). split_and!; [lia | done | done].
    + exists (S i), (S j). split_and!; [lia | done | done].
Qed.

Lemma before_short codes p c : (length codes < 2)%nat → ¬ before codes p c.
Proof.
  intros Hl (i & j & Hij & _ & Hj). apply lookup_lt_Some in Hj. lia.
Qed.

Lemma add_loop_lookup codes r k c :
  (∃ s, add_loop codes r !! k = Some s ∧ c ∈ s) ↔ (∃ s, r !! k = Some s ∧ c ∈ s) ∨ before codes k c.
Proof.
  revert r. induction codes as [|p [|q rest] IH]; intros r; simpl.
  - pose proof (before_short [] k c ltac:(simpl; lia)). naive_solver.
  - pose proof (before_short [p] k c ltac:(simpl; lia)). naive_solver.
  - rewrite (before_cons p). simpl in IH. rewrite IH, add_parent_lookup. naive_solver.
Qed.

Lemma relation_Is_spec r p c :
  relation_Is r p c = true ↔ p = c ∨ ∃ s, r !! p = Some s ∧ c ∈ s.
Proof.
  unfold relation_Is. destruct (Z.eqb_spec p c); [naive_solver |].
  destruct (r !! p) as [s|]; [| naive_solver]. rewrite bool_decide_eq_true. naive_solver.
Qed.

Lemma Add_lookup codes r k c :
  (∃ s, (Add codes r).1 !! k = Some s ∧ c ∈ s) ↔ (∃ s, r !! k = Some s ∧ c ∈ s) ∨ before codes k c.
Proof.
  unfold Add, minimumCodesLength. destruct (Nat.ltb_spec (length codes) 2); [| apply add_loop_lookup].
  pose proof (before_short codes k c). naive_solver.
Qed.

Lemma Adds_lookup calls r k c :
  (∃ s, fold_left (λ r codes, (Add codes r).1) calls r !! k = Some s ∧ c ∈ s) ↔
  (∃ s, r !! k = Some s ∧ c ∈ s) ∨ ∃ codes, codes ∈ calls ∧ before codes k c.
Proof.
  revert r. induction calls as [|codes calls IH]; intros r; cbn [fold_left].
  - set_solver.
  - rewrite IH, Add_lookup. set_solver.
Qed.
(** ** Properties *)

(** [errors.Is] on codes: [Unwrap] terminates at the end of any chain of wrappers;
    a chain is a code error exactly when that very error is in the chain, or the
    error at its end has the code, or a code listed before it in one call of [Add] on
    the registered relation (the relation is not closed over several calls).  Neither
    wrapping, nor details, nor call stacks change the answer. *)
Theorem errors_Is_code (Handlers : list (option goerr → option codeError))
    (calls : list (list Z)) (e : goerr) (a : nat) (c : codeError) :
  let r := fold_left (λ r codes, (Add codes r).1) calls ∅ in
  Unwrap (Some e) = Some (root e) ∧
  (errors_Is Handlers r (Some e) (Some (Code a c)) = true ↔
   (∃ x, x ∈ chain e ∧ address x = a) ∨
   ∃ a' c', root e = Code a' c' ∧
     (code c' = code c ∨ ∃ codes, codes ∈ calls ∧ before codes (code c') (code c))).
Proof.
  intros r. split; [apply Unwrap_root |].
  assert (Hrel : ∀ p q, relation_Is r p q = true ↔ p = q ∨ ∃ codes, codes ∈ calls ∧ before codes p q).
  { intros p q. rewrite relation_Is_spec. unfold r. rewrite Adds_lookup.
    assert (¬ ∃ s, (∅ : codeRelation) !! p = Some s ∧ q ∈ s) by (intros (s & ? & _); done).
    split; [intros [? | [? |]]; [by left | done | by right] | intros [|]; [by left | right; by right]]. }
  setoid_rewrite <- Hrel. simpl. clear Hrel.
  assert (Hs : ∀ x, same x (Code a c) = true ↔ address x = a).
  { intros x. unfold same. by rewrite bool_decide_eq_true. }
  assert (Hc : ∀ c', codeError_Is Handlers r (Some c') (Some (Code a c)) = relation_Is r (code c') (code c)).
  { intros c'. unfold codeError_Is, relation_Is. simpl. by destruct (code c' =? code c). }
  assert (Hin : ∀ i, i ∈ chain i) by (intros []; simpl; left).
  induction e as [a' s|a' c'|a' s|a' s|a' i IH s|a' i IH|a' s]; cbn [Is chain root];
    rewrite orb_true_iff, Hs; rewrite ?orb_true_iff, ?Hs, ?Hc, ?IH; simpl;
    setoid_rewrite elem_of_cons; try setoid_rewrite elem_of_nil.
  - naive_solver.
  - split; [| naive_solver]. intros [? | ?]; [left; naive_solver | right; naive_solver].
  - naive_solver.
  - naive_solver.
  - naive_solver.
  - specialize (Hin i). naive_solver.
  - naive_solver.
Qed.
