(* ===== verification/Bound.v ===== *)
(** * Bounded queues (queue/bound/queue.go)

    The generic FIFO queue with a capacity that the task managers are built
    from.  Every method runs under the queue's own lock, so a method is one
    step on the record.  The backing array never escapes the queue: the list of
    items is its whole observable state. *)

From S2P Require Import Prelude.

Local Open Scope Z_scope.

(** ** State and errors *)

Inductive bound_err := ErrQueueFull | ErrQueueEmpty.

#[export] Instance bound_err_eq_dec : EqDecision bound_err.
Proof. solve_decision. Defined.

Record Queue (T : Type) := MkQueue { items : list T; capacity : Z }.
Arguments MkQueue {T} items capacity.
Arguments items {T} q.
Arguments capacity {T} q.

Section bound.
Context {T : Type}.
Implicit Types (q : Queue T) (item : T) (equalFunc : T → T → bool).

(** [make([]T, 0, capacity)] panics on a negative capacity. *)
Definition NewQueue (capacity : Z) : outcome (Queue T) :=
  if capacity <? 0 then Panic "makeslice: cap out of range"
  else Ret (MkQueue [] capacity).

Definition Len q : Z := Z.of_nat (length (items q)).

Definition Full q : bool := capacity q <=? Len q.

Definition Push item q : Queue T * option bound_err :=
  if capacity q <=? Z.of_nat (length (items q)) then (q, Some ErrQueueFull)
  else (MkQueue (items q ++ [item]) (capacity q), None).

Definition ForcePush item q : Queue T := MkQueue (items q ++ [item]) (capacity q).

(** On an empty queue Go returns the zero value of [T] with the error; no
    caller reads it, so the value is only present on success. *)
Definition Pop q : Queue T * (T + bound_err) :=
  match items q with
  | [] => (q, inr ErrQueueEmpty)
  | item :: rest => (MkQueue rest (capacity q), inl item)
  end.

Definition Contains item equalFunc q : bool :=
  match first_index (λ it, equalFunc it item) (items q) with
  | Some _ => true
  | None => false
  end.

Definition Remove item equalFunc q : Queue T * bool :=
  match first_index (λ it, equalFunc it item) (items q) with
  | Some i => (MkQueue (cut_at i (items q)) (capacity q), true)
  | None => (q, false)
  end.

Definition Peek item equalFunc q : Z :=
  match first_index (λ it, equalFunc it item) (items q) with
  | Some i => Z.of_nat i
  | None => -1
  end.

(** A queue whose items fit its capacity.  [ForcePush] is the only method that
    can leave it. *)
Definition fits q : Prop := Len q ≤ capacity q.

(** A client's sequence of pushes and pops, with the items it got accepted and
    the items it got back. *)
Inductive queue_op := QPush (item : T) | QForcePush (item : T) | QPop.

Definition exec_op o q : Queue T * list T * list T :=
  match o with
  | QPush x => match Push x q with
               | (q', None) => (q', [x], [])
               | (q', Some _) => (q', [], [])
               end
  | QForcePush x => (ForcePush x q, [x], [])
  | QPop => match Pop q with
            | (q', inl x) => (q', [], [x])
            | (q', inr _) => (q', [], [])
            end
  end.

Fixpoint exec_ops (os : list queue_op) q : Queue T * list T * list T :=
  match os with
  | [] => (q, [], [])
  | o :: os' =>
      let '(q1, a1, p1) := exec_op o q in
      let '(q2, a2, p2) := exec_ops os' q1 in
      (q2, a1 ++ a2, p1 ++ p2)
  end.

Definition forced (o : queue_op) : Z := match o with QForcePush _ => 1 | _ => 0 end.

(** ** Facts about the methods *)

Lemma Push_spec item q q' e :
  Push item q = (q', e) →
  (Full q = false ∧ e = None ∧ items q' = items q ++ [item] ∧ capacity q' = capacity q)
  ∨ (Full q = true ∧ e = Some ErrQueueFull ∧ q' = q).
Proof.
  unfold Push, Full, Len. intros H. case_match; simplify_eq; [right | left]; auto.
Qed.

Lemma Push_not_full item q :
  Full q = false → Push item q = (MkQueue (items q ++ [item]) (capacity q), None).
Proof. unfold Push, Full, Len. by intros ->. Qed.

Lemma Push_full item q : Full q = true → Push item q = (q, Some ErrQueueFull).
Proof. unfold Push, Full, Len. by intros ->. Qed.

Lemma Push_fits item q : fits q → fits (Push item q).1.
Proof.
  unfold fits, Push, Len. intros H. case_match; reflect_tests; simpl; [lia |].
  rewrite length_app. simpl. lia.
Qed.

Lemma Pop_fits q : fits q → fits (Pop q).1.
Proof. destruct q as [[|x l] c]; unfold fits, Pop, Len; simpl; lia. Qed.

Lemma Remove_spec item equalFunc q q' :
  Remove item equalFunc q = (q', true) →
  capacity q' = capacity q ∧
  ∃ x, equalFunc x item = true ∧ items q ≡ₚ x :: items q'.
Proof.
  unfold Remove. intros H. case_match; simplify_eq/=. split; [done |].
  apply first_index_Some in H0 as (x & Hx & Hf & _). exists x. split; [done |].
  by apply cut_at_perm.
Qed.

(** The item removed is the first that matches; the others keep their order. *)
Lemma Remove_split item equalFunc q q' :
  Remove item equalFunc q = (q', true) →
  ∃ l1 x l2, items q = l1 ++ x :: l2 ∧ equalFunc x item = true ∧
    (∀ y, y ∈ l1 → equalFunc y item = false) ∧ q' = MkQueue (l1 ++ l2) (capacity q).
Proof.
  unfold Remove. intros H. case_match eqn:Hi; simplify_eq.
  apply first_index_Some in Hi as (x & Hx & Hf & Hno).
  exists (take n (items q)), x, (drop (S n) (items q)).
  split_and!; [by rewrite take_drop_middle | done | | done].
  intros y (j & Hj)%list_elem_of_lookup. apply lookup_take_Some in Hj as [Hj Hlt].
  by eapply Hno.
Qed.

Lemma Remove_false item equalFunc q q' :
  Remove item equalFunc q = (q', false) → q' = q.
Proof. unfold Remove. intros H. by case_match; simplify_eq. Qed.

Lemma Remove_len item equalFunc q q' :
  Remove item equalFunc q = (q', true) → Len q = Len q' + 1.
Proof.
  intros (_ & x & _ & Hp)%Remove_spec. unfold Len. rewrite Hp. simpl. lia.
Qed.

Lemma Remove_fits item equalFunc q : fits q → fits (Remove item equalFunc q).1.
Proof.
  destruct (Remove item equalFunc q) as [q' [|]] eqn:E; simpl.
  - pose proof (Remove_len _ _ _ _ E). apply Remove_spec in E as [Hc _].
    unfold fits in *. rewrite Hc. lia.
  - by apply Remove_false in E as ->.
Qed.

Lemma exec_op_fifo o q q' acc out :
  exec_op o q = (q', acc, out) →
  items q ++ acc = out ++ items q' ∧ capacity q' = capacity q ∧
  Len q' ≤ Z.max (Len q) (capacity q) + forced o.
Proof.
  unfold exec_op, Push, Pop, ForcePush, Len. intros H.
  destruct o, q as [l c]; simpl in *.
  - destruct (c <=? _) eqn:E; reflect_tests; simplify_eq/=.
    + rewrite ?app_nil_r. split_and!; done || lia.
    + rewrite length_app. simpl. split_and!; [done.. | lia].
  - simplify_eq/=. rewrite length_app. simpl. split_and!; [done.. | lia].
  - destruct l; simplify_eq/=; rewrite ?app_nil_r; split_and!; done || lia.
Qed.

(** FIFO with a capacity: over any sequence of [Push], [ForcePush] and [Pop]
    calls, what was in the queue followed by what was accepted is what was
    popped, in order, followed by what is left (nothing lost, duplicated or
    reordered); and only [ForcePush] takes the length over the capacity, by one
    each. *)
Theorem queue_fifo os q :
  let '(q', acc, out) := exec_ops os q in
  items q ++ acc = out ++ items q' ∧ capacity q' = capacity q ∧
  Len q' ≤ Z.max (Len q) (capacity q) + foldr (λ o n, forced o + n) 0 os.
Proof.
  revert q. induction os as [|o os IH]; intros q; simpl.
  - rewrite app_nil_r. split_and!; done || lia.
  - destruct (exec_op o q) as [[q1 a1] p1] eqn:E1. specialize (IH q1).
    destruct (exec_ops os q1) as [[q2 a2] p2] eqn:E2.
    destruct (exec_op_fifo _ _ _ _ _ E1) as (H1 & C1 & L1), IH as (H2 & C2 & L2).
    split_and!; [| congruence |].
    + rewrite app_assoc, H1, <- app_assoc, H2. by rewrite app_assoc.
    + rewrite C1 in L2. assert (0 ≤ forced o) by (destruct o; simpl; lia). lia.
Qed.
End bound.

#[export] Hint Resolve Push_fits Pop_fits Remove_fits : go_db.
