(* ===== verification/StandaloneTask.v ===== *)
(** * The in-memory task-queue manager (queue/task/standalonetask)

    One record holds the manager's fields; the map of pointers to per-key queues
    becomes a map of queue values, since the pointers are never shared between
    keys and every method reaches a queue through its key.  Each public method
    is one function from a state to an outcome.  The manager's mutex makes a
    method one step, except that [Delete] releases it after the lookup and then
    takes only the locks of the single queues: [delete_step] gives the method
    at that grain, and [Delete_steps] says that without interference it is
    [Delete].  ([AutoTransformProcessingData] releases the mutex between its two
    halves, [assignKey] and [TransformProcessingData].) *)

From S2P Require Import Prelude Bound.

Local Open Scope Z_scope.
Local Open Scope go_scope.

(** ** Errors of queue/task/errors.go and of the bounded queues *)

Inductive task_err :=
| ErrGlobalQueueFull
| ErrWaitingQueueFull
| ErrProcessingQueueFull
| ErrDataNotFound
| ErrBound (e : bound_err).

#[export] Instance task_err_eq_dec : EqDecision task_err.
Proof. solve_decision. Defined.

(** [type strategy int]: [RoundRobin = 1], [Least = 2]. *)
Definition RoundRobin : Z := 1.
Definition Least : Z := 2.

(** The function value [getStrategy] returns, [nil] being [None]. *)
Inductive strategyFn := RoundRobinFn | LeastFn.

Definition getStrategy (s : Z) : option strategyFn :=
  if s =? RoundRobin then Some RoundRobinFn
  else if s =? Least then Some LeastFn
  else None.

Record TaskQueue (T : Type) := MkTaskQueue {
  processing : Queue T;
  waiting : Queue T
}.
Arguments MkTaskQueue {T} processing waiting.
Arguments processing {T} t.
Arguments waiting {T} t.

(** [calls] records, in order, the invocations of the functions in
    [afterProcessPushFunc], which are identified by numbers. *)
Record QueueManager (T K : Type) `{Countable K} := MkQueueManager {
  globalQueue : Queue T;
  taskQueues : gmap K (TaskQueue T);
  maxProcessing : Z;
  maxWaiting : Z;
  equalDataFunc : T → T → bool;
  afterProcessPushFunc : list nat;
  assignStrategy : option strategyFn;
  lastAssignedIndex : Z;
  orderedKeys : list K;
  calls : list (nat * K * T)
}.
Arguments MkQueueManager {T K _ _}.
Arguments globalQueue {T K _ _} q.
Arguments taskQueues {T K _ _} q.
Arguments maxProcessing {T K _ _} q.
Arguments maxWaiting {T K _ _} q.
Arguments equalDataFunc {T K _ _} q.
Arguments afterProcessPushFunc {T K _ _} q.
Arguments assignStrategy {T K _ _} q.
Arguments lastAssignedIndex {T K _ _} q.
Arguments orderedKeys {T K _ _} q.
Arguments calls {T K _ _} q.

Section manager.
Context {T K : Type} `{Countable K} `{MapRange}.
(** The zero value of the key type, returned with unassigned data. *)
Context (zeroK : K).
Abbreviation QM := (QueueManager T K).
Implicit Types (tm : QM) (k : K) (data : T) (q : TaskQueue T).

(** ** Field updates *)

Definition set_globalQueue (g : Queue T) tm : QM :=
  MkQueueManager g (taskQueues tm) (maxProcessing tm) (maxWaiting tm)
    (equalDataFunc tm) (afterProcessPushFunc tm) (assignStrategy tm)
    (lastAssignedIndex tm) (orderedKeys tm) (calls tm).
Definition set_taskQueues (m : gmap K (TaskQueue T)) tm : QM :=
  MkQueueManager (globalQueue tm) m (maxProcessing tm) (maxWaiting tm)
    (equalDataFunc tm) (afterProcessPushFunc tm) (assignStrategy tm)
    (lastAssignedIndex tm) (orderedKeys tm) (calls tm).
Definition set_lastAssignedIndex (i : Z) tm : QM :=
  MkQueueManager (globalQueue tm) (taskQueues tm) (maxProcessing tm) (maxWaiting tm)
    (equalDataFunc tm) (afterProcessPushFunc tm) (assignStrategy tm)
    i (orderedKeys tm) (calls tm).
Definition set_orderedKeys (ks : list K) tm : QM :=
  MkQueueManager (globalQueue tm) (taskQueues tm) (maxProcessing tm) (maxWaiting tm)
    (equalDataFunc tm) (afterProcessPushFunc tm) (assignStrategy tm)
    (lastAssignedIndex tm) ks (calls tm).
Definition add_calls (cs : list (nat * K * T)) tm : QM :=
  MkQueueManager (globalQueue tm) (taskQueues tm) (maxProcessing tm) (maxWaiting tm)
    (equalDataFunc tm) (afterProcessPushFunc tm) (assignStrategy tm)
    (lastAssignedIndex tm) (orderedKeys tm) (calls tm ++ cs).

(** [taskQueues[k]] holds a pointer: writing through it updates the entry. *)
Definition put_queue k q tm : QM := set_taskQueues (<[k := q]> (taskQueues tm)) tm.

(** ** Construction and options *)

Definition NewTaskQueue (maxProcessing maxWaiting : Z) : outcome (TaskQueue T) :=
  let! p := NewQueue maxProcessing in
  let! w := NewQueue maxWaiting in
  Ret (MkTaskQueue p w).

Definition WithStrategy (s : Z) tm : QM :=
  MkQueueManager (globalQueue tm) (taskQueues tm) (maxProcessing tm) (maxWaiting tm)
    (equalDataFunc tm) (afterProcessPushFunc tm) (getStrategy s)
    (lastAssignedIndex tm) (orderedKeys tm) (calls tm).

Definition WithAfterProcessPushFunc (fs : list nat) tm : QM :=
  MkQueueManager (globalQueue tm) (taskQueues tm) (maxProcessing tm) (maxWaiting tm)
    (equalDataFunc tm) fs (assignStrategy tm)
    (lastAssignedIndex tm) (orderedKeys tm) (calls tm).

Definition applyOpts (opts : list (QM → QM)) tm : QM :=
  fold_left (λ tm opt, opt tm) opts tm.

Definition NewQueueManager (maxGlobal maxProcessing maxWaiting : Z)
    (equalFunc : T → T → bool) (opts : list (QM → QM)) : outcome QM :=
  let! g := NewQueue maxGlobal in
  Ret (applyOpts opts
    (MkQueueManager g ∅ maxProcessing maxWaiting equalFunc []
       (getStrategy RoundRobin) (-1) [] [])).

(** ** Key assignment *)

(** The loop of [RoundRobinTask] over [i = 0 .. len(orderedKeys)-1]. *)
Fixpoint rr_loop tm (startIndex : Z) (idxs : list nat) : outcome (option (Z * K)) :=
  match idxs with
  | [] => Ret None
  | i :: idxs' =>
      let index := Z.rem (startIndex + Z.of_nat i + 1)
                         (Z.of_nat (length (orderedKeys tm))) in
      let! key := slice_get (orderedKeys tm) index in
      match taskQueues tm !! key with
      | Some queue =>
          if negb (Full (processing queue)) then Ret (Some (index, key))
          else rr_loop tm startIndex idxs'
      | None => rr_loop tm startIndex idxs'
      end
  end.

Definition RoundRobinTask tm : outcome (QM * option K) :=
  if decide (length (orderedKeys tm) = 0%nat) then Ret (tm, None)
  else
    let! r := rr_loop tm (lastAssignedIndex tm) (seq 0 (length (orderedKeys tm))) in
    match r with
    | Some (index, key) => Ret (set_lastAssignedIndex index tm, Some key)
    | None => Ret (tm, None)
    end.

(** The loop of [LeastTask] over the map, with its variables [minLen] and [k]. *)
Fixpoint least_loop (entries : list (K * TaskQueue T)) (minLen : Z) (k : K) : Z * K :=
  match entries with
  | [] => (minLen, k)
  | (id, q) :: rest =>
      let length := Len (processing q) in
      if (minLen =? -1) || (length <? minLen) then least_loop rest length id
      else least_loop rest minLen k
  end.

Definition LeastTask tm : outcome (QM * option K) :=
  let '(minLen, k) := least_loop (range_map (taskQueues tm)) (-1) zeroK in
  Ret (tm, if negb (minLen =? -1) then Some k else None).

(** Calling the stored function; a [nil] function value panics. *)
Definition assignKey tm : outcome (QM * option K) :=
  match assignStrategy tm with
  | Some RoundRobinFn => RoundRobinTask tm
  | Some LeastFn => LeastTask tm
  | None => Panic "invalid memory address or nil pointer dereference"
  end.

(** ** Methods *)

Definition getOrCreateTaskQueues k tm : outcome (QM * TaskQueue T) :=
  match taskQueues tm !! k with
  | Some q => Ret (tm, q)
  | None =>
      let! q := NewTaskQueue (maxProcessing tm) (maxWaiting tm) in
      Ret (set_orderedKeys (orderedKeys tm ++ [k]) (put_queue k q tm), q)
  end.

Definition AddKey k tm : outcome (QM * option task_err) :=
  let! (tm', _) := getOrCreateTaskQueues k tm in
  Ret (tm', None).

Definition push_global data tm : QM * option task_err :=
  let '(g, e) := Push data (globalQueue tm) in
  (set_globalQueue g tm, ErrBound <$> e).

Definition Insert data tm : outcome (QM * (K * option task_err)) :=
  let! (tm, assigned) := assignKey tm in
  match assigned with
  | None =>
      if negb (Full (globalQueue tm)) then
        let '(tm, e) := push_global data tm in Ret (tm, (zeroK, e))
      else Ret (tm, (zeroK, Some ErrGlobalQueueFull))
  | Some k =>
      let! q := of_nil_check (taskQueues tm !! k) in
      if negb (Full (processing q)) then
        let '(p, e) := Push data (processing q) in
        Ret (put_queue k (MkTaskQueue p (waiting q)) tm, (k, ErrBound <$> e))
      else if negb (Full (globalQueue tm)) then
        let '(tm, e) := push_global data tm in Ret (tm, (zeroK, e))
      else Ret (tm, (zeroK, Some ErrGlobalQueueFull))
  end.

Definition pushToProcess k data tm : outcome (QM * option task_err) :=
  let! q := of_nil_check (taskQueues tm !! k) in
  let '(p, err) := Push data (processing q) in
  match err with
  | Some e => Ret (tm, Some (ErrBound e))
  | None =>
      Ret (add_calls ((λ f, (f, k, data)) <$> afterProcessPushFunc tm)
             (put_queue k (MkTaskQueue p (waiting q)) tm), None)
  end.

Definition InsertByKey k data tm : outcome (QM * option task_err) :=
  let! (tm, q) := getOrCreateTaskQueues k tm in
  if negb (Full (processing q)) then pushToProcess k data tm
  else if negb (Full (waiting q)) then
    let '(w, e) := Push data (waiting q) in
    Ret (put_queue k (MkTaskQueue (processing q) w) tm, ErrBound <$> e)
  else Ret (tm, Some ErrWaitingQueueFull).

Definition Delete k data tm : outcome (QM * option task_err) :=
  match taskQueues tm !! k with
  | None => Ret (tm, Some ErrDataNotFound)
  | Some q =>
      let '(p, removed) := Remove data (equalDataFunc tm) (processing q) in
      if removed : bool then
        let '(w, next) := Pop (waiting q) in
        let tm := put_queue k (MkTaskQueue p w) tm in
        match next with
        | inl nextData =>
            (* the error of pushToProcess is discarded *)
            let! (tm, _) := pushToProcess k nextData tm in Ret (tm, None)
        | inr _ =>
            let '(g, globalData) := Pop (globalQueue tm) in
            let tm := set_globalQueue g tm in
            match globalData with
            | inl d => let! (tm, _) := pushToProcess k d tm in Ret (tm, None)
            | inr _ => Ret (tm, None)
            end
        end
      else
        let '(w, removed) := Remove data (equalDataFunc tm) (waiting q) in
        let tm := put_queue k (MkTaskQueue p w) tm in
        if removed : bool then Ret (tm, None) else Ret (tm, Some ErrDataNotFound)
  end.

Definition GetProcessingQueueLengths tm : gmap K Z :=
  fold_left (λ lengths '(id, q), <[id := Len (processing q)]> lengths)
    (range_map (taskQueues tm)) ∅.

Definition DeleteKey k tm : outcome (QM * option task_err) :=
  match taskQueues tm !! k with
  | None => Ret (tm, None)
  | Some _ =>
      let tm := set_taskQueues (delete k (taskQueues tm)) tm in
      match first_index (λ k', bool_decide (k' = k)) (orderedKeys tm) with
      | None => Ret (tm, None)
      | Some i =>
          let tm := set_orderedKeys (cut_at i (orderedKeys tm)) tm in
          let n := Z.of_nat (length (orderedKeys tm)) in
          if (n <=? lastAssignedIndex tm) && (0 <? n) then
            Ret (set_lastAssignedIndex (n - 1) tm, None)
          else Ret (tm, None)
      end
  end.

Definition TransformProcessingData fromKey toKey data tm : outcome (QM * option task_err) :=
  match taskQueues tm !! fromKey with
  | None => Ret (tm, Some ErrDataNotFound)
  | Some _ =>
      let! (tm, _) := getOrCreateTaskQueues toKey tm in
      let! fromQ := of_nil_check (taskQueues tm !! fromKey) in
      let '(p, ok) := Remove data (equalDataFunc tm) (processing fromQ) in
      if negb ok then Ret (tm, Some ErrDataNotFound)
      else
        let tm := put_queue fromKey (MkTaskQueue p (waiting fromQ)) tm in
        let! toQ := of_nil_check (taskQueues tm !! toKey) in
        Ret (put_queue toKey
               (MkTaskQueue (ForcePush data (processing toQ)) (waiting toQ)) tm, None)
  end.

Definition AutoTransformProcessingData fromKey data tm
    : outcome (QM * (K * option task_err)) :=
  let! (tm, assigned) := assignKey tm in
  match assigned with
  | None => Ret (tm, (zeroK, Some ErrDataNotFound))
  | Some toKey =>
      let! (tm, e) := TransformProcessingData fromKey toKey data tm in
      Ret (tm, (toKey, e))
  end.

Definition GetGlobalQueuePosition data tm : Z :=
  Peek data (equalDataFunc tm) (globalQueue tm).

(** ** [Delete] at the grain of its locks

    Where a goroutine in [Delete] is: before the lookup, before [Remove] on the
    processing queue, before [Pop] on the waiting queue, before [Pop] on the
    global queue, before [pushToProcess] of the popped task, before [Remove] on
    the waiting queue, returned.  A key deleted meanwhile leaves the goroutine
    with a detached queue, on which this step function is not defined. *)
Inductive delete_pc :=
| DLookup
| DRemove
| DPopWaiting
| DPopGlobal
| DPushNext (data : T)
| DRemoveWaiting
| DReturned (e : option task_err).

Definition delete_step k data (pc : delete_pc) tm : option (outcome (QM * delete_pc)) :=
  match pc, taskQueues tm !! k with
  | DLookup, None => Some (Ret (tm, DReturned (Some ErrDataNotFound)))
  | DLookup, Some _ => Some (Ret (tm, DRemove))
  | DRemove, Some q =>
      let '(p, removed) := Remove data (equalDataFunc tm) (processing q) in
      Some (Ret (put_queue k (MkTaskQueue p (waiting q)) tm,
                 if removed : bool then DPopWaiting else DRemoveWaiting))
  | DPopWaiting, Some q =>
      let '(w, next) := Pop (waiting q) in
      Some (Ret (put_queue k (MkTaskQueue (processing q) w) tm,
                 match next with inl d => DPushNext d | inr _ => DPopGlobal end))
  | DPopGlobal, _ =>
      let '(g, next) := Pop (globalQueue tm) in
      Some (Ret (set_globalQueue g tm,
                 match next with inl d => DPushNext d | inr _ => DReturned None end))
  | DPushNext d, Some _ =>
      Some (let! (tm, _) := pushToProcess k d tm in Ret (tm, DReturned None))
  | DRemoveWaiting, Some q =>
      let '(w, removed) := Remove data (equalDataFunc tm) (waiting q) in
      Some (Ret (put_queue k (MkTaskQueue (processing q) w) tm,
                 DReturned (if removed : bool then None else Some ErrDataNotFound)))
  | _, _ => None
  end.

(** The goroutine running alone, for at most [fuel] steps. *)
Fixpoint delete_alone (fuel : nat) k data (pc : delete_pc) tm : option (outcome (QM * delete_pc)) :=
  match pc, fuel with
  | DReturned _, _ => Some (Ret (tm, pc))
  | _, O => None
  | _, S fuel' =>
      match delete_step k data pc tm with
      | Some (Ret (tm', pc')) => delete_alone fuel' k data pc' tm'
      | r => r
      end
  end.

(** ** Runs of the manager *)

Inductive op :=
| OpAddKey (k : K)
| OpInsert (data : T)
| OpInsertByKey (k : K) (data : T)
| OpDelete (k : K) (data : T)
| OpDeleteKey (k : K)
| OpTransform (fromKey toKey : K) (data : T)
| OpAutoTransform (fromKey : K) (data : T).

(** The state after a method, its results dropped. *)
Definition exec (o : op) tm : outcome QM :=
  match o with
  | OpAddKey k => let! (tm, _) := AddKey k tm in Ret tm
  | OpInsert data => let! (tm, _) := Insert data tm in Ret tm
  | OpInsertByKey k data => let! (tm, _) := InsertByKey k data tm in Ret tm
  | OpDelete k data => let! (tm, _) := Delete k data tm in Ret tm
  | OpDeleteKey k => let! (tm, _) := DeleteKey k tm in Ret tm
  | OpTransform f t data => let! (tm, _) := TransformProcessingData f t data tm in Ret tm
  | OpAutoTransform f data =>
      let! (tm, _) := AutoTransformProcessingData f data tm in Ret tm
  end.

Definition step tm tm' : Prop := ∃ o, exec o tm = Ret tm'.

(** The state after a sequence of methods (the initial one if one panics). *)
Fixpoint run (os : list op) tm : QM :=
  match os with
  | [] => tm
  | o :: os' => match exec o tm with
                | Ret tm' => run os' tm'
                | Panic _ => tm
                end
  end.

(** ** Specification vocabulary *)

Definition queue_tasks q : list T := items (processing q) ++ items (waiting q).

(** Every task the manager holds. *)
Definition tasks tm : list T :=
  items (globalQueue tm) ++ (map_to_list (taskQueues tm) ≫= λ e, queue_tasks e.2).

(** The consistency of the round-robin bookkeeping with the map, and the
    capacity bounds that survive [ForcePush]. *)
Record wf tm : Prop := {
  wf_maxProcessing : 0 ≤ maxProcessing tm;
  wf_maxWaiting : 0 ≤ maxWaiting tm;
  wf_strategy : is_Some (assignStrategy tm);
  wf_NoDup : NoDup (orderedKeys tm);
  wf_keys k : k ∈ orderedKeys tm ↔ is_Some (taskQueues tm !! k);
  wf_last : -1 ≤ lastAssignedIndex tm
            < Z.max 1 (Z.of_nat (length (orderedKeys tm)));
  wf_global : fits (globalQueue tm);
  wf_capacity k q : taskQueues tm !! k = Some q →
    capacity (processing q) = maxProcessing tm ∧
    capacity (waiting q) = maxWaiting tm ∧ fits (waiting q)
}.

(** The key at distance [j] after the last assigned one, in round-robin order. *)
Definition rr_candidate tm (j : nat) : option K :=
  orderedKeys tm !! Z.to_nat
    ((lastAssignedIndex tm + Z.of_nat j + 1) mod Z.of_nat (length (orderedKeys tm))).

Definition key_full tm k : Prop :=
  ∀ q, taskQueues tm !! k = Some q → Full (processing q) = true.

(** [n] successive calls of [RoundRobinTask], with the keys they returned. *)
Fixpoint rr_iter (n : nat) tm : outcome (QM * list (option K)) :=
  match n with
  | O => Ret (tm, [])
  | S n' =>
      let! (tm, k) := RoundRobinTask tm in
      let! (tm, ks) := rr_iter n' tm in
      Ret (tm, k :: ks)
  end.

(** ** Well-formedness is preserved by the building blocks *)

Lemma wf_set_last i tm :
  wf tm → -1 ≤ i < Z.max 1 (Z.of_nat (length (orderedKeys tm))) →
  wf (set_lastAssignedIndex i tm).
Proof. intros [] Hi. constructor; done. Qed.

Lemma wf_set_global g tm : wf tm → fits g → wf (set_globalQueue g tm).
Proof. intros [] Hg. constructor; done. Qed.

Lemma wf_add_calls cs tm : wf tm → wf (add_calls cs tm).
Proof. intros []. constructor; done. Qed.

Lemma wf_put_queue k q q' tm :
  wf tm → taskQueues tm !! k = Some q →
  capacity (processing q') = capacity (processing q) →
  capacity (waiting q') = capacity (waiting q) → fits (waiting q') →
  wf (put_queue k q' tm).
Proof.
  intros [] Hk Hp Hw Hf. constructor; simpl; try done.
  - intros k'. rewrite wf_keys0. destruct (decide (k = k')) as [<- |].
    + rewrite lookup_insert_eq, Hk. split; eauto.
    + by rewrite lookup_insert_ne.
  - intros k' r. destruct (decide (k = k')) as [<- |].
    + rewrite lookup_insert_eq. intros [= <-].
      destruct (wf_capacity0 _ _ Hk) as (? & ? & ?). split_and!; congruence.
    + rewrite lookup_insert_ne by done. apply wf_capacity0.
Qed.

Lemma NewTaskQueue_nonneg p w :
  0 ≤ p → 0 ≤ w → NewTaskQueue p w = Ret (MkTaskQueue (MkQueue [] p) (MkQueue [] w)).
Proof.
  intros Hp Hw. unfold NewTaskQueue, NewQueue.
  destruct (Z.ltb_spec p 0); [lia |]. simpl.
  by destruct (Z.ltb_spec w 0); [lia |].
Qed.

Lemma wf_new_key k q tm :
  wf tm → taskQueues tm !! k = None →
  capacity (processing q) = maxProcessing tm →
  capacity (waiting q) = maxWaiting tm → fits (waiting q) →
  wf (set_orderedKeys (orderedKeys tm ++ [k]) (put_queue k q tm)).
Proof.
  intros [] Hk Hp Hw Hf. constructor; simpl; try done.
  - apply NoDup_app. split_and!; [done | | apply NoDup_singleton].
    intros x Hx ->%list_elem_of_singleton. apply wf_keys0 in Hx as [? ?]. congruence.
  - intros k'. rewrite elem_of_app, list_elem_of_singleton, wf_keys0.
    destruct (decide (k = k')) as [<- |].
    + rewrite lookup_insert_eq. split; eauto.
    + rewrite lookup_insert_ne by done. naive_solver.
  - rewrite length_app. simpl. lia.
  - intros k' r. destruct (decide (k = k')) as [<- |].
    + rewrite lookup_insert_eq. intros [= <-]. done.
    + rewrite lookup_insert_ne by done. apply wf_capacity0.
Qed.

Lemma getOrCreate_wf k tm :
  wf tm → ∃ tm' q, getOrCreateTaskQueues k tm = Ret (tm', q) ∧ wf tm' ∧
    taskQueues tm' !! k = Some q ∧
    (∀ k' q', taskQueues tm !! k' = Some q' → taskQueues tm' !! k' = Some q') ∧
    tasks tm' ≡ₚ tasks tm ∧ globalQueue tm' = globalQueue tm ∧
    assignStrategy tm' = assignStrategy tm ∧ equalDataFunc tm' = equalDataFunc tm.
Proof.
  intros Hwf. unfold getOrCreateTaskQueues. destruct (taskQueues tm !! k) as [q |] eqn:Hk.
  - exists tm, q. split_and!; try done.
  - pose proof Hwf as []. rewrite NewTaskQueue_nonneg by done. simpl.
    eexists _, _. split; [done |]. split_and!; try done.
    + apply wf_new_key; done.
    + simpl. apply lookup_insert_eq.
    + intros k' q' Hk'. simpl. rewrite lookup_insert_ne by congruence. done.
    + unfold tasks. simpl. f_equiv. rewrite (map_to_list_insert _ _ _ Hk). done.
Qed.

(** ** Round-robin assignment *)

Lemma rr_candidate_some tm j :
  wf tm → orderedKeys tm ≠ [] →
  ∃ k q, rr_candidate tm j = Some k ∧ taskQueues tm !! k = Some q ∧
    slice_get (orderedKeys tm)
      (Z.rem (lastAssignedIndex tm + Z.of_nat j + 1) (Z.of_nat (length (orderedKeys tm))))
    = Ret k.
Proof.
  intros [] Hne. unfold rr_candidate.
  set (n := Z.of_nat (length (orderedKeys tm))) in *.
  assert (0 < n) by (destruct (orderedKeys tm); simpl in *; [done | lia]).
  set (p := lastAssignedIndex tm + Z.of_nat j + 1).
  pose proof (Z.mod_pos_bound p n ltac:(lia)).
  destruct (lookup_lt_is_Some_2 (orderedKeys tm) (Z.to_nat (p mod n))) as [k Hk]; [lia |].
  destruct (proj1 (wf_keys0 k)) as [q Hq]; [by eapply list_elem_of_lookup_2 |].
  exists k, q. split_and!; [done.. |].
  rewrite Z.rem_mod_nonneg by lia. apply slice_get_Ret. split; [lia | done].
Qed.

Lemma key_full_lookup tm k q :
  taskQueues tm !! k = Some q → key_full tm k ↔ Full (processing q) = true.
Proof. intros Hk. unfold key_full. split; [auto | intros ? ? ?; congruence]. Qed.

Lemma rr_loop_spec tm a m :
  wf tm → orderedKeys tm ≠ [] →
  ∃ r, rr_loop tm (lastAssignedIndex tm) (seq a m) = Ret r ∧
  match r with
  | Some (index, k) => ∃ j, (a ≤ j < a + m)%nat ∧ rr_candidate tm j = Some k ∧
      ¬ key_full tm k ∧
      index = (lastAssignedIndex tm + Z.of_nat j + 1) mod Z.of_nat (length (orderedKeys tm)) ∧
      ∀ j' k', (a ≤ j' < j)%nat → rr_candidate tm j' = Some k' → key_full tm k'
  | None => ∀ j k, (a ≤ j < a + m)%nat → rr_candidate tm j = Some k → key_full tm k
  end.
Proof.
  intros Hwf Hne. revert a. induction m as [|m IH]; intros a; simpl.
  - exists None. split; [done |]. intros; lia.
  - destruct (rr_candidate_some tm a Hwf Hne) as (k & q & Hc & Hq & Hget).
    rewrite Hget. simpl. rewrite Hq. pose proof (key_full_lookup tm k q Hq) as Hfull.
    destruct (Full (processing q)); simpl.
    + destruct (IH (S a)) as (r & -> & Hr). exists r. split; [done |].
      destruct r as [[index k'] |].
      * destruct Hr as (j & ? & ? & ? & ? & Hlt). exists j. split_and!; try done; try lia.
        intros j' k0 Hj' Hk0. destruct (decide (j' = a)) as [-> |]; [|apply (Hlt j'); [lia | done]].
        assert (k0 = k) as -> by congruence. by apply Hfull.
      * intros j k0 Hj Hk0. destruct (decide (j = a)) as [-> |]; [|apply (Hr j); [lia | done]].
        assert (k0 = k) as -> by congruence. by apply Hfull.
    + eexists. split; [done |]. exists a. split_and!; try done; try lia.
      * rewrite Hfull. done.
      * destruct Hwf. rewrite Z.rem_mod_nonneg; [done | lia |].
        destruct (orderedKeys tm); simpl in *; [done | lia].
Qed.

(** Every key is a candidate within one turn. *)
Lemma rr_candidate_cover tm k :
  wf tm → k ∈ orderedKeys tm →
  ∃ j, (j < length (orderedKeys tm))%nat ∧ rr_candidate tm j = Some k.
Proof.
  intros [] [p Hp]%list_elem_of_lookup.
  pose proof (lookup_lt_Some _ _ _ Hp) as Hlt.
  set (n := Z.of_nat (length (orderedKeys tm))) in *.
  pose proof (Z.mod_pos_bound (Z.of_nat p - lastAssignedIndex tm - 1) n ltac:(lia)).
  exists (Z.to_nat ((Z.of_nat p - lastAssignedIndex tm - 1) mod n)). split; [lia |].
  unfold rr_candidate. fold n. rewrite Z2Nat.id by lia.
  rewrite <- Z.add_assoc, (Z.add_comm _ 1), Z.add_assoc, Zplus_mod_idemp_r.
  replace (lastAssignedIndex tm + 1 + (Z.of_nat p - lastAssignedIndex tm - 1))
    with (Z.of_nat p) by lia.
  rewrite Z.mod_small by lia. by rewrite Nat2Z.id.
Qed.

Lemma RoundRobinTask_cases tm :
  wf tm →
  (∃ k j, RoundRobinTask tm =
      Ret (set_lastAssignedIndex
             ((lastAssignedIndex tm + Z.of_nat j + 1)
                mod Z.of_nat (length (orderedKeys tm))) tm, Some k) ∧
    (j < length (orderedKeys tm))%nat ∧ rr_candidate tm j = Some k ∧ ¬ key_full tm k ∧
    ∀ j' k', (j' < j)%nat → rr_candidate tm j' = Some k' → key_full tm k')
  ∨ (RoundRobinTask tm = Ret (tm, None) ∧ ∀ k, k ∈ orderedKeys tm → key_full tm k).
Proof.
  intros Hwf. unfold RoundRobinTask. case_decide as Hlen.
  - right. split; [done |]. intros k Hk. apply nil_length_inv in Hlen.
    rewrite Hlen in Hk. by apply elem_of_nil in Hk.
  - assert (orderedKeys tm ≠ []) as Hne by (intros E; by rewrite E in Hlen).
    destruct (rr_loop_spec tm 0 (length (orderedKeys tm)) Hwf Hne) as (r & -> & Hr).
    simpl. destruct r as [[index k] |].
    + left. destruct Hr as (j & ? & ? & ? & -> & Hlt). exists k, j.
      split_and!; try done; [lia |]. intros j' k' ?. apply Hlt. lia.
    + right. split; [done |]. intros k Hk.
      destruct (rr_candidate_cover tm k Hwf Hk) as (j & ? & ?). apply (Hr j); [lia | done].
Qed.

(** ** Fairness of round-robin *)

Lemma set_last_candidate tm i j :
  wf tm → orderedKeys tm ≠ [] →
  i = (lastAssignedIndex tm + 1) mod Z.of_nat (length (orderedKeys tm)) →
  rr_candidate (set_lastAssignedIndex i tm) j = rr_candidate tm (S j).
Proof.
  intros [] Hne ->. unfold rr_candidate. simpl. do 2 f_equal.
  rewrite <- Z.add_assoc, Zplus_mod_idemp_l. f_equal. lia.
Qed.

Lemma RoundRobin_next tm :
  wf tm → orderedKeys tm ≠ [] → (∀ k, k ∈ orderedKeys tm → ¬ key_full tm k) →
  ∃ k, rr_candidate tm 0 = Some k ∧
    RoundRobinTask tm =
      Ret (set_lastAssignedIndex
             ((lastAssignedIndex tm + 1) mod Z.of_nat (length (orderedKeys tm))) tm, Some k).
Proof.
  intros Hwf Hne Hfree.
  destruct (rr_candidate_some tm 0 Hwf Hne) as (k & q & Hc & Hq & _).
  destruct (RoundRobinTask_cases tm Hwf) as [(k' & j & Hrun & Hj & Hc' & Hnf & Hlt) | [_ Hall]].
  - destruct j as [|j].
    + exists k'. split; [done |]. rewrite Hrun. do 3 f_equal. f_equal. lia.
    + specialize (Hlt 0%nat k ltac:(lia) Hc). exfalso. eapply Hfree; [| done].
      apply wf_keys; eauto.
  - exfalso. eapply Hfree; [| apply Hall]; apply wf_keys; eauto.
Qed.

Lemma rr_iter_candidates m tm :
  wf tm → orderedKeys tm ≠ [] → (∀ k, k ∈ orderedKeys tm → ¬ key_full tm k) →
  ∃ tm', rr_iter m tm = Ret (tm', rr_candidate tm <$> seq 0 m).
Proof.
  revert tm. induction m as [|m IH]; intros tm Hwf Hne Hfree; simpl; [eauto |].
  destruct (RoundRobin_next tm Hwf Hne Hfree) as (k & Hc & ->). simpl.
  set (i := (lastAssignedIndex tm + 1) mod Z.of_nat (length (orderedKeys tm))).
  assert (0 < Z.of_nat (length (orderedKeys tm)))
    by (destruct (orderedKeys tm); simpl in *; [done | lia]).
  pose proof (Z.mod_pos_bound (lastAssignedIndex tm + 1) _ H1).
  destruct (IH (set_lastAssignedIndex i tm)) as (tm' & ->); [apply wf_set_last; subst i; [done | lia] | done | done |].
  simpl. exists tm'. do 2 f_equal. rewrite Hc. f_equal.
  rewrite <- fmap_S_seq, <- list_fmap_compose. apply list_fmap_ext. intros j x _. simpl.
  by apply set_last_candidate.
Qed.

Lemma rr_candidates_perm tm :
  wf tm →
  rr_candidate tm <$> seq 0 (length (orderedKeys tm)) ≡ₚ Some <$> orderedKeys tm.
Proof.
  intros Hwf. symmetry. apply submseteq_length_Permutation.
  - apply NoDup_submseteq.
    + apply NoDup_fmap_2; [apply _ | apply Hwf].
    + intros ? (k & -> & Hk)%list_elem_of_fmap.
      destruct (rr_candidate_cover tm k Hwf Hk) as (j & Hj & Hc).
      apply list_elem_of_fmap. exists j. split; [done |]. apply elem_of_seq. lia.
  - by rewrite !length_fmap, length_seq.
Qed.

(** ** Conservation of tasks by queue updates *)

Lemma tasks_put_queue k q q' tm :
  taskQueues tm !! k = Some q →
  ∃ rest, tasks tm ≡ₚ queue_tasks q ++ rest ∧
          tasks (put_queue k q' tm) ≡ₚ queue_tasks q' ++ rest.
Proof.
  intros (l & Hl & Hl')%(map_to_list_update _ _ _ q').
  exists (items (globalQueue tm) ++ (l ≫= λ e, queue_tasks e.2)).
  unfold tasks. simpl. rewrite Hl, Hl'. simpl. split; solve_Permutation.
Qed.

Lemma tasks_set_global g tm :
  ∃ rest, tasks tm ≡ₚ items (globalQueue tm) ++ rest ∧
          tasks (set_globalQueue g tm) ≡ₚ items g ++ rest.
Proof. unfold tasks. simpl. eexists. split; reflexivity. Qed.

(** ** Every method returns, and preserves well-formedness *)

Definition keeps_wf {R} (m : outcome (QM * R)) : Prop :=
  ∃ tm r, m = Ret (tm, r) ∧ wf tm.

Lemma keeps_wf_ret {R} tm (r : R) : wf tm → keeps_wf (Ret (tm, r)).
Proof. intros. by exists tm, r. Qed.

Lemma keeps_wf_bind {R R'} (m : outcome (QM * R)) (f : QM → R → outcome (QM * R')) :
  keeps_wf m → (∀ tm r, wf tm → m = Ret (tm, r) → keeps_wf (f tm r)) →
  keeps_wf (let! (tm, r) := m in f tm r).
Proof. intros (tm & r & -> & Hwf) Hf. simpl. by apply Hf. Qed.

Lemma LeastTask_keeps_wf tm : wf tm → keeps_wf (LeastTask tm).
Proof. intros Hwf. unfold LeastTask. case_match. by apply keeps_wf_ret. Qed.

Lemma RoundRobinTask_keeps_wf tm : wf tm → keeps_wf (RoundRobinTask tm).
Proof.
  intros Hwf. destruct (RoundRobinTask_cases tm Hwf) as [(k & j & -> & Hj & _) | [-> _]].
  - apply keeps_wf_ret, wf_set_last; [done |].
    pose proof (Z.mod_pos_bound (lastAssignedIndex tm + Z.of_nat j + 1)
                  (Z.of_nat (length (orderedKeys tm))) ltac:(lia)). lia.
  - by apply keeps_wf_ret.
Qed.

Lemma assignKey_keeps_wf tm : wf tm → keeps_wf (assignKey tm).
Proof.
  intros Hwf. unfold assignKey. destruct (wf_strategy tm Hwf) as [[] ->];
    auto using LeastTask_keeps_wf, RoundRobinTask_keeps_wf.
Qed.

Lemma Len_nonneg (p : Queue T) : 0 ≤ Len p.
Proof. unfold Len. lia. Qed.

Lemma least_loop_spec entries minLen k n k' :
  least_loop entries minLen k = (n, k') → minLen = -1 ∨ 0 ≤ minLen →
  ((n = minLen ∧ k' = k) ∨ ∃ q, (k', q) ∈ entries ∧ n = Len (processing q)) ∧
  (∀ id q, (id, q) ∈ entries → 0 ≤ n ≤ Len (processing q)) ∧
  (minLen ≠ -1 → 0 ≤ n ≤ minLen).
Proof.
  revert minLen k. induction entries as [|[id q] l IH]; intros minLen k; simpl.
  - intros [= <- <-] ?. split_and!; [by left | set_solver | lia].
  - pose proof (Len_nonneg (processing q)) as Hq.
    destruct ((minLen =? -1) || (Len (processing q) <? minLen)) eqn:E; intros Hrun Hmin.
    + apply IH in Hrun as (Hk & Hall & Hle); [| lia].
      specialize (Hle ltac:(lia)). apply orb_true_iff in E. rewrite Z.eqb_eq, Z.ltb_lt in E.
      split_and!; [| | lia].
      * right. destruct Hk as [[-> ->] | (q' & ? & ->)]; [exists q; by split; [left |] |].
        exists q'. by split; [right |].
      * intros id' q' [[= -> ->] | Hin]%elem_of_cons; [lia | by eapply Hall].
    + apply IH in Hrun as (Hk & Hall & Hle); [| done].
      reflect_tests. specialize (Hle ltac:(done)). split_and!; [| | lia].
      * destruct Hk as [? | (q' & ? & ->)]; [by left | right; exists q'; by split; [right |]].
      * intros id' q' [[= -> ->] | Hin]%elem_of_cons; [lia | by eapply Hall].
Qed.

Lemma range_map_elem (m : gmap K (TaskQueue T)) k q :
  (k, q) ∈ range_map m ↔ m !! k = Some q.
Proof. rewrite range_map_perm. apply elem_of_map_to_list. Qed.

Lemma LeastTask_cases tm :
  (∃ k q, LeastTask tm = Ret (tm, Some k) ∧ taskQueues tm !! k = Some q ∧
     ∀ k' q', taskQueues tm !! k' = Some q' → Len (processing q) ≤ Len (processing q'))
  ∨ (LeastTask tm = Ret (tm, None) ∧ taskQueues tm = ∅).
Proof.
  unfold LeastTask. destruct (least_loop _ _ _) as [n k] eqn:Hrun.
  apply least_loop_spec in Hrun as (Hk & Hall & _); [| by left].
  setoid_rewrite range_map_elem in Hk. setoid_rewrite range_map_elem in Hall.
  destruct Hk as [[-> ->] | (q & Hq & ->)].
  - right. split; [done |]. apply map_empty. intros k. apply eq_None_not_Some.
    intros [q Hq]. specialize (Hall _ _ Hq). lia.
  - left. exists k, q. pose proof (Len_nonneg (processing q)).
    destruct (Z.eqb_spec (Len (processing q)) (-1)); [lia |]. simpl.
    split_and!; [done.. |]. intros k' q' Hq'. specialize (Hall _ _ Hq'). lia.
Qed.

(** An assigned key owns a queue, and assignment only moves the index. *)
Lemma assignKey_cases tm :
  wf tm → ∃ tm' r, assignKey tm = Ret (tm', r) ∧ wf tm' ∧
    (tm' = tm ∨ ∃ i, tm' = set_lastAssignedIndex i tm) ∧
    match r with
    | Some k => is_Some (taskQueues tm !! k)
    | None => ∀ k, k ∈ orderedKeys tm → key_full tm k
    end.
Proof.
  intros Hwf. destruct (assignKey_keeps_wf tm Hwf) as (tm' & r & Hrun & Hwf').
  exists tm', r. split_and!; [done.. | |]; unfold assignKey in Hrun;
    destruct (wf_strategy tm Hwf) as [[] Hs]; rewrite Hs in Hrun.
  - destruct (RoundRobinTask_cases tm Hwf) as [(? & ? & E & _) | [E _]];
      rewrite E in Hrun; simplify_eq; eauto.
  - destruct (LeastTask_cases tm) as [(? & ? & E & _) | [E _]];
      rewrite E in Hrun; simplify_eq; eauto.
  - destruct (RoundRobinTask_cases tm Hwf) as [(k & j & E & Hj & Hc & _) | [E Hall]];
      rewrite E in Hrun; simplify_eq; [| done].
    unfold rr_candidate in Hc. apply wf_keys; [done |]. by eapply list_elem_of_lookup_2.
  - destruct (LeastTask_cases tm) as [(? & ? & E & Hq & _) | [E He]];
      rewrite E in Hrun; simplify_eq; [by eauto |].
    intros k _ q. rewrite He, lookup_empty. discriminate.
Qed.

Lemma pushToProcess_keeps_wf k data tm :
  wf tm → is_Some (taskQueues tm !! k) → keeps_wf (pushToProcess k data tm).
Proof.
  intros Hwf [q Hq]. unfold pushToProcess. rewrite Hq. simpl.
  destruct (Push data (processing q)) as [p e] eqn:E.
  destruct (wf_capacity tm Hwf _ _ Hq) as (? & ? & ?).
  apply Push_spec in E as [(? & -> & ? & ?) | (? & -> & ->)]; apply keeps_wf_ret; [| done].
  apply wf_add_calls. by eapply wf_put_queue.
Qed.

Lemma push_global_keeps_wf data tm tm' e :
  wf tm → push_global data tm = (tm', e) → wf tm'.
Proof.
  unfold push_global. intros Hwf H1. destruct (Push data (globalQueue tm)) eqn:E.
  simplify_eq. apply wf_set_global; [done |].
  pose proof (Push_fits data (globalQueue tm) (wf_global _ Hwf)) as Hf. by rewrite E in Hf.
Qed.

Lemma put_process_keeps_wf k q p tm :
  wf tm → taskQueues tm !! k = Some q → capacity p = capacity (processing q) →
  wf (put_queue k (MkTaskQueue p (waiting q)) tm).
Proof.
  intros Hwf Hq Hp. destruct (wf_capacity tm Hwf _ _ Hq) as (? & ? & ?).
  by eapply wf_put_queue.
Qed.

Lemma Insert_keeps_wf data tm : wf tm → keeps_wf (Insert data tm).
Proof.
  intros Hwf. destruct (assignKey_cases tm Hwf) as (tm1 & r & Hrun & Hwf1 & Htm & Hr).
  unfold Insert. rewrite Hrun. simpl.
  assert (taskQueues tm1 = taskQueues tm) as Hq by (by destruct Htm as [-> | [? ->]]).
  destruct r as [k |].
  - destruct Hr as [q Hk]. rewrite Hq, Hk. simpl. rewrite <- Hq in Hk.
    destruct (negb (Full (processing q))).
    + destruct (Push data (processing q)) as [p e] eqn:E. apply keeps_wf_ret.
      eapply put_process_keeps_wf; [done.. |].
      apply Push_spec in E as [(? & ? & ? & ?) | (? & ? & ->)]; done.
    + case_match; [| by apply keeps_wf_ret].
      destruct (push_global data tm1) eqn:E. apply keeps_wf_ret.
      by eapply push_global_keeps_wf.
  - case_match; [| by apply keeps_wf_ret].
    destruct (push_global data tm1) eqn:E. apply keeps_wf_ret.
    by eapply push_global_keeps_wf.
Qed.

Lemma AddKey_keeps_wf k tm : wf tm → keeps_wf (AddKey k tm).
Proof.
  intros Hwf. destruct (getOrCreate_wf k tm Hwf) as (tm' & q & E & ? & _).
  unfold AddKey. rewrite E. by apply keeps_wf_ret.
Qed.

Lemma InsertByKey_keeps_wf k data tm : wf tm → keeps_wf (InsertByKey k data tm).
Proof.
  intros Hwf. destruct (getOrCreate_wf k tm Hwf) as (tm' & q & E & Hwf' & Hq & _).
  unfold InsertByKey. rewrite E. simpl.
  destruct (negb (Full (processing q))); [apply pushToProcess_keeps_wf; eauto |].
  destruct (negb (Full (waiting q))); [| by apply keeps_wf_ret].
  destruct (wf_capacity tm' Hwf' _ _ Hq) as (? & ? & Hfit).
  pose proof (Push_fits data (waiting q) Hfit) as Hf.
  destruct (Push data (waiting q)) as [w e] eqn:Ew. apply keeps_wf_ret.
  eapply wf_put_queue; try done. simpl.
  apply Push_spec in Ew as [(? & ? & ? & ?) | (? & ? & ->)]; done.
Qed.

Lemma DeleteKey_keeps_wf k tm : wf tm → keeps_wf (DeleteKey k tm).
Proof.
  intros Hwf. unfold DeleteKey. destruct (taskQueues tm !! k) as [q|] eqn:Hk;
    [| by apply keeps_wf_ret].
  destruct (first_index _ _) as [i|] eqn:Hi; simpl.
  - pose proof (first_index_lt _ _ _ Hi) as Hlt.
    apply first_index_Some in Hi as (k' & Hk' & ->%bool_decide_eq_true & _).
    pose proof (cut_at_length (orderedKeys tm) i Hlt) as Hlen.
    destruct Hwf as []. case_match; apply keeps_wf_ret; constructor; simpl;
      try done; reflect_tests; eauto using cut_at_NoDup; try lia.
    all: try (intros k'; rewrite (cut_at_NoDup_elem _ _ k k') by done;
              rewrite wf_keys0, lookup_delete_is_Some; naive_solver).
    all: try (intros k' q' [_ ?]%lookup_delete_Some; by eapply wf_capacity0).
  - exfalso. rewrite first_index_None in Hi.
    assert (k ∈ orderedKeys tm) as Hin by (apply (wf_keys tm Hwf); eauto).
    specialize (Hi k Hin).
    by apply bool_decide_eq_false in Hi.
Qed.

Lemma pushToProcess_cases k data q tm :
  taskQueues tm !! k = Some q →
  (Full (processing q) = true ∧
   pushToProcess k data tm = Ret (tm, Some (ErrBound ErrQueueFull)))
  ∨ (Full (processing q) = false ∧ ∃ tm', pushToProcess k data tm = Ret (tm', None) ∧
     tasks tm' ≡ₚ data :: tasks tm ∧
     calls tm' = calls tm ++ ((λ f, (f, k, data)) <$> afterProcessPushFunc tm) ∧
     taskQueues tm' !! k = Some (MkTaskQueue (Push data (processing q)).1 (waiting q))).
Proof.
  intros Hq. unfold pushToProcess. rewrite Hq. simpl.
  destruct (Full (processing q)) eqn:Hf.
  - left. by rewrite Push_full.
  - right. split; [done |]. rewrite Push_not_full by done. eexists. split_and!; [done | | done |].
    destruct (tasks_put_queue k q
      (MkTaskQueue (MkQueue (items (processing q) ++ [data]) (capacity (processing q)))
         (waiting q)) tm Hq) as (rest & Ht & Ht').
    { etrans; [apply Ht' |]. rewrite Ht. unfold queue_tasks. simpl. solve_Permutation. }
    simpl. apply lookup_insert_eq.
Qed.

(** The effect of [Delete] on a task found in the processing queue: the tasks
    held before are those held after, the removed one, and whatever the
    discarded error of the backfill lost. *)
Lemma Delete_processing k data q p tm :
  wf tm → taskQueues tm !! k = Some q →
  Remove data (equalDataFunc tm) (processing q) = (p, true) →
  ∃ tm' x lost, Delete k data tm = Ret (tm', None) ∧ wf tm' ∧
    equalDataFunc tm x data = true ∧
    tasks tm ≡ₚ x :: lost ++ tasks tm' ∧
    (Full p = false → lost = []) ∧
    (Full p = true → lost = match items (waiting q), items (globalQueue tm) with
                            | w :: _, _ => [w]
                            | [], g :: _ => [g]
                            | [], [] => []
                            end).
Proof.
  intros Hwf Hq Hrm. unfold Delete. rewrite Hq, Hrm.
  apply Remove_spec in Hrm as (Hcap & x & Hx & Hperm).
  destruct (wf_capacity tm Hwf _ _ Hq) as (? & ? & Hfit).
  set (q' w := MkTaskQueue p w).
  assert (∀ w, capacity w = capacity (waiting q) → fits w → wf (put_queue k (q' w) tm))
    as Hput by (intros; by eapply wf_put_queue).
  assert (∀ w t, taskQueues (set_globalQueue t (put_queue k (q' w) tm)) !! k = Some (q' w))
    as Hlook by (intros; simpl; apply lookup_insert_eq).
  pose proof (Pop_fits (waiting q) Hfit) as Hpf.
  pose proof (Pop_fits (globalQueue tm) (wf_global tm Hwf)) as Hgf.
  unfold Pop in *. destruct (items (waiting q)) as [|w ws] eqn:Hw; simpl.
  - specialize (Hput (waiting q) eq_refl Hfit).
    destruct (tasks_put_queue k q (q' (waiting q)) tm Hq) as (rest & Ht & Ht').
    unfold queue_tasks in Ht, Ht'. simpl in Ht'. rewrite Hw, app_nil_r in Ht, Ht'.
    destruct (items (globalQueue tm)) as [|g gs] eqn:Hg; simpl in *.
    + eexists _, x, []. split_and!; [done | | done | | done | done].
      * apply wf_set_global; [done | apply Hwf].
      * rewrite Ht, Hperm. simpl. f_equiv. symmetry. apply Ht'.
    + set (g' := MkQueue gs (capacity (globalQueue tm))).
      set (tm1 := set_globalQueue g' (put_queue k (q' (waiting q)) tm)).
      assert (wf tm1) as Hwf1 by (by apply wf_set_global).
      assert (tasks (put_queue k (q' (waiting q)) tm) ≡ₚ g :: tasks tm1) as Hg1
        by (unfold tasks, tm1; simpl; by rewrite Hg).
      destruct (pushToProcess_keeps_wf k g tm1 Hwf1 (mk_is_Some _ _ (Hlook _ g')))
        as (tm2 & r2 & Hpush & Hwf2).
      rewrite Hpush. simpl.
      destruct (pushToProcess_cases k g (q' (waiting q)) tm1 (Hlook _ g'))
        as [[Hf E] | (Hf & tm' & E & Htm' & _)]; rewrite E in Hpush; injection Hpush as <- <-.
      * exists tm1, x, [g]. split_and!; try done; [| simpl in Hf; congruence].
        rewrite Ht, Hperm. simpl. rewrite <- Ht', Hg1. done.
      * exists tm', x, []. split_and!; try done; [| simpl in Hf; congruence].
        rewrite Ht, Hperm. simpl. rewrite <- Ht', Hg1, Htm'. done.
  - set (tm1 := put_queue k (q' (MkQueue ws (capacity (waiting q)))) tm).
    assert (wf tm1) as Hwf1 by (by apply Hput).
    assert (taskQueues tm1 !! k = Some (q' (MkQueue ws (capacity (waiting q))))) as Hl1
      by apply lookup_insert_eq.
    destruct (tasks_put_queue k q (q' (MkQueue ws (capacity (waiting q)))) tm Hq)
      as (rest & Ht & Ht').
    unfold queue_tasks in Ht, Ht'. simpl in Ht'. rewrite Hw in Ht.
    destruct (pushToProcess_keeps_wf k w tm1 Hwf1 (mk_is_Some _ _ Hl1))
      as (tm2 & r2 & Hpush & Hwf2).
    fold tm1. rewrite Hpush. simpl.
    destruct (pushToProcess_cases k w _ tm1 Hl1)
      as [[Hf E] | (Hf & tm' & E & Htm' & _)]; rewrite E in Hpush; injection Hpush as <- <-.
    + exists tm1, x, [w]. split_and!; try done; [| simpl in Hf; congruence].
      rewrite Ht, Hperm. fold tm1 in Ht'. rewrite Ht'. simpl. solve_Permutation.
    + exists tm', x, []. split_and!; try done; [| simpl in Hf; congruence].
      rewrite Ht, Hperm. fold tm1 in Ht'. rewrite Htm', Ht'. simpl. solve_Permutation.
Qed.

Lemma Delete_keeps_wf k data tm : wf tm → keeps_wf (Delete k data tm).
Proof.
  intros Hwf. destruct (taskQueues tm !! k) as [q|] eqn:Hq.
  - destruct (Remove data (equalDataFunc tm) (processing q)) as [p [|]] eqn:Hrm.
    + destruct (Delete_processing _ _ _ _ _ Hwf Hq Hrm) as (tm' & _ & _ & -> & ? & _).
      by apply keeps_wf_ret.
    + unfold Delete. rewrite Hq, Hrm. apply Remove_false in Hrm as ->.
      destruct (wf_capacity tm Hwf _ _ Hq) as (? & ? & Hfit).
      pose proof (Remove_fits data (equalDataFunc tm) (waiting q) Hfit) as Hf.
      destruct (Remove data (equalDataFunc tm) (waiting q)) as [w r] eqn:Hw.
      assert (capacity w = capacity (waiting q)) as Hc.
      { destruct r; [by apply Remove_spec in Hw as [-> _] | by apply Remove_false in Hw as ->]. }
      assert (wf (put_queue k (MkTaskQueue (processing q) w) tm)) by (by eapply wf_put_queue).
      destruct r; by apply keeps_wf_ret.
  - unfold Delete. rewrite Hq. by apply keeps_wf_ret.
Qed.

(** The effect of [TransformProcessingData] when it succeeds: the matched task
    is replaced by [data], and nothing else changes. *)
Lemma Transform_cases fromKey toKey data tm :
  wf tm → ∃ tm' e, TransformProcessingData fromKey toKey data tm = Ret (tm', e) ∧ wf tm' ∧
    ((e = Some ErrDataNotFound ∧ tasks tm' ≡ₚ tasks tm) ∨
     (e = None ∧ ∃ x rest, equalDataFunc tm x data = true ∧
        tasks tm ≡ₚ x :: rest ∧ tasks tm' ≡ₚ data :: rest)).
Proof.
  intros Hwf. unfold TransformProcessingData.
  destruct (taskQueues tm !! fromKey) as [fromQ|] eqn:Hfrom; [| by eexists _, _; eauto].
  destruct (getOrCreate_wf toKey tm Hwf)
    as (tm1 & toQ & -> & Hwf1 & Hto & Hkeep & Htasks & _ & _ & Heq). simpl.
  apply Hkeep in Hfrom. rewrite Hfrom. simpl. rewrite Heq.
  destruct (Remove data (equalDataFunc tm) (processing fromQ)) as [p ok] eqn:Hrm.
  destruct ok; simpl; [| by eexists _, _; eauto].
  apply Remove_spec in Hrm as (Hcap & x & Hx & Hperm).
  set (tm2 := put_queue fromKey (MkTaskQueue p (waiting fromQ)) tm1).
  assert (wf tm2) as Hwf2 by (by eapply put_process_keeps_wf).
  assert (is_Some (taskQueues tm2 !! toKey)) as [q2 Hq2].
  { simpl. destruct (decide (fromKey = toKey)) as [<- |];
      [by rewrite lookup_insert_eq | by rewrite lookup_insert_ne]. }
  change (∃ tm' e, (let! toQ := of_nil_check (taskQueues tm2 !! toKey) in
      Ret (put_queue toKey (MkTaskQueue (ForcePush data (processing toQ)) (waiting toQ)) tm2,
           None)) = Ret (tm', e) ∧ wf tm' ∧
    ((e = Some ErrDataNotFound ∧ tasks tm' ≡ₚ tasks tm) ∨
     (e = None ∧ ∃ x rest, equalDataFunc tm x data = true ∧
        tasks tm ≡ₚ x :: rest ∧ tasks tm' ≡ₚ data :: rest))).
  rewrite Hq2. simpl. eexists _, _. split_and!; [done | by eapply put_process_keeps_wf |].
  right. split; [done |].
  destruct (tasks_put_queue _ _ (MkTaskQueue p (waiting fromQ)) tm1 Hfrom) as (r1 & Ht1 & Ht2).
  destruct (tasks_put_queue _ _
    (MkTaskQueue (ForcePush data (processing q2)) (waiting q2)) tm2 Hq2) as (r2 & Ht3 & Ht4).
  exists x, (tasks tm2). split_and!; [done | |].
  - rewrite <- Htasks, Ht1. fold tm2 in Ht2. rewrite Ht2. unfold queue_tasks. simpl.
    rewrite Hperm. done.
  - rewrite Ht4, Ht3. unfold queue_tasks, ForcePush. simpl. solve_Permutation.
Qed.

Lemma Transform_keeps_wf f t data tm : wf tm → keeps_wf (TransformProcessingData f t data tm).
Proof.
  intros Hwf. destruct (Transform_cases f t data tm Hwf) as (tm' & e & -> & ? & _).
  by apply keeps_wf_ret.
Qed.

Lemma AutoTransform_keeps_wf f data tm :
  wf tm → keeps_wf (AutoTransformProcessingData f data tm).
Proof.
  intros Hwf. unfold AutoTransformProcessingData.
  apply keeps_wf_bind; [by apply assignKey_keeps_wf |].
  intros tm' [toKey|] Hwf' _; [| by apply keeps_wf_ret].
  apply keeps_wf_bind; [by apply Transform_keeps_wf |].
  intros. by apply keeps_wf_ret.
Qed.

Lemma exec_keeps_wf o tm : wf tm → ∃ tm', exec o tm = Ret tm' ∧ wf tm'.
Proof.
  intros Hwf.
  assert (∀ R (m : outcome (QM * R)), keeps_wf m →
    ∃ tm', (let! (tm, _) := m in Ret tm) = Ret tm' ∧ wf tm') as Hdrop
    by (intros R m (tm' & r & -> & ?); by exists tm').
  destruct o; apply Hdrop;
    auto using AddKey_keeps_wf, Insert_keeps_wf, InsertByKey_keeps_wf, Delete_keeps_wf,
      DeleteKey_keeps_wf, Transform_keeps_wf, AutoTransform_keeps_wf.
Qed.

Lemma NewQueueManager_wf maxGlobal maxProcessing maxWaiting equalFunc s fs tm :
  0 ≤ maxProcessing → 0 ≤ maxWaiting → is_Some (getStrategy s) →
  NewQueueManager maxGlobal maxProcessing maxWaiting equalFunc
    [WithStrategy s; WithAfterProcessPushFunc fs] = Ret tm → wf tm.
Proof.
  intros ? ? ? Hnew. unfold NewQueueManager, NewQueue in Hnew.
  destruct (Z.ltb_spec maxGlobal 0); simpl in Hnew; simplify_eq.
  constructor; simpl; try done; try lia.
  - constructor.
  - intros k. rewrite lookup_empty, elem_of_nil. by split; [| intros [? ?]].
Qed.

(** The two strategies agree on when no room is left: an assigned key that is
    full means that every key is full. *)
Lemma assignKey_full tm tm' k q :
  wf tm → assignKey tm = Ret (tm', Some k) → taskQueues tm !! k = Some q →
  Full (processing q) = true → ∀ k', k' ∈ orderedKeys tm → key_full tm k'.
Proof.
  intros Hwf Hrun Hq Hf k' _ q' Hq'. unfold assignKey in Hrun.
  destruct (wf_strategy tm Hwf) as [[] Hs]; rewrite Hs in Hrun.
  - destruct (RoundRobinTask_cases tm Hwf) as [(k0 & j & E & _ & _ & Hnf & _) | [E _]];
      rewrite E in Hrun; simplify_eq.
    exfalso. apply Hnf. by apply (key_full_lookup _ _ _ Hq).
  - destruct (LeastTask_cases tm) as [(k0 & q0 & E & Hq0 & Hmin) | [E _]];
      rewrite E in Hrun; [injection Hrun as <- <- | discriminate].
    assert (q0 = q) as -> by congruence.
    assert (Len (processing q) ≤ Len (processing q')) by (by eapply Hmin).
    destruct (wf_capacity tm Hwf _ _ Hq) as (Hc & _).
    destruct (wf_capacity tm Hwf _ _ Hq') as (Hc' & _).
    unfold Full in *. rewrite Z.leb_le in *. lia.
Qed.

Lemma push_global_cases data tm :
  Full (globalQueue tm) = false →
  push_global data tm =
    (set_globalQueue (MkQueue (items (globalQueue tm) ++ [data])
                        (capacity (globalQueue tm))) tm, None).
Proof. intros Hf. unfold push_global. by rewrite Push_not_full. Qed.

Lemma run_wf os tm : wf tm → wf (run os tm).
Proof.
  revert tm. induction os as [|o os IH]; intros tm Hwf; simpl; [done |].
  destruct (exec_keeps_wf o tm Hwf) as (tm' & -> & ?). by apply IH.
Qed.

Lemma run_steps os tm : wf tm → rtc step tm (run os tm).
Proof.
  revert tm. induction os as [|o os IH]; intros tm Hwf; simpl; [done |].
  destruct (exec_keeps_wf o tm Hwf) as (tm' & E & Hwf'). rewrite E.
  eapply rtc_l; [by exists o | by apply IH].
Qed.

(** ** Properties *)

(** Safety of the manager: in every state reached from [NewQueueManager]
    (with non-negative limits and a known strategy) by any sequence of method
    calls, the round-robin list holds exactly the keys of the map without
    repetition, the round-robin index stays in range, the waiting and global
    queues respect their limits, and no method panics. *)
Theorem reachable_safe maxGlobal maxProcessing maxWaiting equalFunc s fs tm0 tm :
  0 ≤ maxProcessing → 0 ≤ maxWaiting → is_Some (getStrategy s) →
  NewQueueManager maxGlobal maxProcessing maxWaiting equalFunc
    [WithStrategy s; WithAfterProcessPushFunc fs] = Ret tm0 →
  rtc step tm0 tm →
  wf tm ∧ ∀ o, returns (exec o tm).
Proof.
  intros Hp Hw Hs Hnew Hrun.
  assert (wf tm) as Hwf.
  { apply NewQueueManager_wf in Hnew; [| done..].
    induction Hrun as [| tm1 tm2 tm3 [o Ho] _ IH]; [done |]. apply IH.
    destruct (exec_keeps_wf o tm1 Hnew) as (tm' & E & ?). congruence. }
  split; [done |]. intros o. destruct (exec_keeps_wf o tm Hwf) as (tm' & -> & _).
  apply returns_ret.
Qed.

(** Round-robin assignment: the key chosen is the first one after the last
    assigned position, cyclically, whose processing queue has room, and the
    position moves to it; assignment fails exactly when every queue is full,
    leaving the manager unchanged. *)
Theorem RoundRobinTask_spec tm :
  wf tm →
  (∃ k j, RoundRobinTask tm =
      Ret (set_lastAssignedIndex
             ((lastAssignedIndex tm + Z.of_nat j + 1)
                mod Z.of_nat (length (orderedKeys tm))) tm, Some k) ∧
    (j < length (orderedKeys tm))%nat ∧ rr_candidate tm j = Some k ∧ ¬ key_full tm k ∧
    ∀ j' k', (j' < j)%nat → rr_candidate tm j' = Some k' → key_full tm k')
  ∨ (RoundRobinTask tm = Ret (tm, None) ∧ ∀ k, k ∈ orderedKeys tm → key_full tm k).
Proof. apply RoundRobinTask_cases. Qed.

(** Fairness of round-robin: while no processing queue is full, as many
    successive assignments as there are keys assign every key exactly once. *)
Theorem round_robin_fair tm :
  wf tm → orderedKeys tm ≠ [] → (∀ k, k ∈ orderedKeys tm → ¬ key_full tm k) →
  ∃ tm' ks, rr_iter (length (orderedKeys tm)) tm = Ret (tm', ks) ∧
    ks ≡ₚ Some <$> orderedKeys tm.
Proof.
  intros Hwf Hne Hfree.
  destruct (rr_iter_candidates (length (orderedKeys tm)) tm Hwf Hne Hfree) as (tm' & ->).
  eexists _, _. split; [done |]. by apply rr_candidates_perm.
Qed.

(** [LeastTask] returns a key whose processing queue is a shortest one,
    whatever order the map is iterated in, and fails exactly when there is no
    key; the manager is unchanged. *)
Theorem LeastTask_minimal tm :
  (∃ k q, LeastTask tm = Ret (tm, Some k) ∧ taskQueues tm !! k = Some q ∧
     ∀ k' q', taskQueues tm !! k' = Some q' → Len (processing q) ≤ Len (processing q'))
  ∨ (LeastTask tm = Ret (tm, None) ∧ taskQueues tm = ∅).
Proof. apply LeastTask_cases. Qed.

(** [Insert], under either strategy: the task goes to the end of a processing
    queue with room when there is one; only when every processing queue is full
    does it go to the end of the global queue, with the zero key; and it is
    rejected with [ErrGlobalQueueFull] only when the global queue is full too.
    In no case is an [afterProcessPushFunc] callback run. *)
Theorem Insert_spec data tm :
  wf tm → ∃ tm' k e, Insert data tm = Ret (tm', (k, e)) ∧ calls tm' = calls tm ∧
  ((∃ q, taskQueues tm !! k = Some q ∧ Full (processing q) = false ∧ e = None ∧
      globalQueue tm' = globalQueue tm ∧
      taskQueues tm' = <[k := MkTaskQueue
        (MkQueue (items (processing q) ++ [data]) (capacity (processing q)))
        (waiting q)]> (taskQueues tm))
   ∨ ((∀ k', k' ∈ orderedKeys tm → key_full tm k') ∧ k = zeroK ∧
      taskQueues tm' = taskQueues tm ∧
      ((Full (globalQueue tm) = false ∧ e = None ∧
          items (globalQueue tm') = items (globalQueue tm) ++ [data])
       ∨ (Full (globalQueue tm) = true ∧ e = Some ErrGlobalQueueFull ∧
          globalQueue tm' = globalQueue tm)))).
Proof.
  intros Hwf. destruct (assignKey_cases tm Hwf) as (tm1 & r & Hrun & Hwf1 & Htm & Hr).
  unfold Insert. rewrite Hrun. simpl.
  assert (taskQueues tm1 = taskQueues tm ∧ globalQueue tm1 = globalQueue tm ∧
          calls tm1 = calls tm) as (Hq & Hg & Hc) by (by destruct Htm as [-> | [? ->]]).
  destruct r as [k|].
  - destruct Hr as [q Hk]. rewrite Hq, Hk. simpl.
    destruct (Full (processing q)) eqn:Hf; simpl.
    + pose proof (assignKey_full tm tm1 k q Hwf Hrun Hk Hf) as Hall.
      destruct (Full (globalQueue tm1)) eqn:Hgf; simpl.
      * eexists _, _, _. split_and!; [done.. |]. right. rewrite Hg in Hgf. naive_solver.
      * rewrite push_global_cases by done. eexists _, _, _. split_and!; [done.. |].
        right. simpl. rewrite Hg in *. naive_solver.
    + rewrite Push_not_full by done. eexists _, _, _. split_and!; [done.. |]. left.
      exists q. simpl. rewrite Hq. done.
  - destruct (Full (globalQueue tm1)) eqn:Hgf; simpl.
    + eexists _, _, _. split_and!; [done.. |]. right. rewrite Hg in Hgf. naive_solver.
    + rewrite push_global_cases by done. eexists _, _, _. split_and!; [done.. |].
      right. simpl. rewrite Hg in *. naive_solver.
Qed.

(** [Delete] loses a waiting task when the processing queue is over its limit
    (which [TransformProcessingData] causes by [ForcePush]): the task popped
    from the waiting queue cannot be pushed, the push's error is discarded, and
    the task is gone although [Delete] reports success. *)
Theorem Delete_overfull_drops k data q p w ws tm :
  wf tm → taskQueues tm !! k = Some q →
  Remove data (equalDataFunc tm) (processing q) = (p, true) →
  Full p = true → items (waiting q) = w :: ws →
  ∃ tm' x, Delete k data tm = Ret (tm', None) ∧ tasks tm ≡ₚ x :: w :: tasks tm'.
Proof.
  intros Hwf Hq Hrm Hfull Hw.
  destruct (Delete_processing _ _ _ _ _ Hwf Hq Hrm)
    as (tm' & x & lost & Hrun & _ & _ & Hperm & _ & Hlost).
  exists tm', x. split; [done |]. by rewrite (Hlost Hfull), Hw in Hperm.
Qed.

Lemma put_queue_twice k q q' tm : put_queue k q' (put_queue k q tm) = put_queue k q' tm.
Proof. unfold put_queue, set_taskQueues. simpl. by rewrite insert_insert_eq. Qed.

Lemma put_queue_lookup k q tm : taskQueues (put_queue k q tm) !! k = Some q.
Proof. apply lookup_insert_eq. Qed.

(** One step of a goroutine in [Delete] running alone. *)
Lemma delete_alone_S n k data pc tm tm' pc' :
  delete_step k data pc tm = Some (Ret (tm', pc')) →
  delete_alone (S n) k data pc tm = delete_alone n k data pc' tm'.
Proof.
  intros E. destruct pc; cbn [delete_alone]; rewrite ?E; try done.
Qed.

Lemma pushToProcess_step k data q d tm :
  taskQueues tm !! k = Some q →
  delete_step k data (DPushNext d) tm
  = Some (let! (tm', _) := pushToProcess k d tm in Ret (tm', DReturned None)).
Proof. intros Hq. unfold delete_step. by rewrite Hq. Qed.

Lemma delete_alone_push n k data q d tm tm' e :
  taskQueues tm !! k = Some q →
  (let! (tm', _) := pushToProcess k d tm in Ret (tm', None)) = Ret (tm', e) →
  delete_alone (S n) k data (DPushNext d) tm = Some (Ret (tm', DReturned e)).
Proof.
  intros Hq E. simpl. rewrite Hq.
  destruct (pushToProcess k d tm) as [[tm1 r]|]; simplify_eq/=. by destruct n.
Qed.

(** [Delete] run alone, lock by lock, is the one-step [Delete]: it returns
    within five steps, with the same error and the same final state. *)
Theorem Delete_steps k data tm tm' e :
  Delete k data tm = Ret (tm', e) →
  delete_alone 5 k data DLookup tm = Some (Ret (tm', DReturned e)).
Proof.
  unfold Delete. intros Hd. destruct (taskQueues tm !! k) as [q|] eqn:Hq;
    [| injection Hd as <- <-; by rewrite (delete_alone_S 4 _ _ _ _ tm
      (DReturned (Some ErrDataNotFound))) by (unfold delete_step; by rewrite Hq)].
  rewrite (delete_alone_S 4 _ _ _ _ tm DRemove) by (unfold delete_step; by rewrite Hq).
  destruct (Remove data (equalDataFunc tm) (processing q)) as [p [|]] eqn:Hrm.
  - set (tm1 := put_queue k (MkTaskQueue p (waiting q)) tm).
    rewrite (delete_alone_S 3 _ _ _ _ tm1 DPopWaiting) by (unfold delete_step; by rewrite Hq, Hrm).
    assert (taskQueues tm1 !! k = Some (MkTaskQueue p (waiting q))) as Hq1
      by apply put_queue_lookup.
    destruct (Pop (waiting q)) as [w [d|err]] eqn:Hpop; simpl in Hd.
    + rewrite (delete_alone_S 2 _ _ _ _ (put_queue k (MkTaskQueue p w) tm) (DPushNext d))
        by (unfold delete_step; rewrite Hq1; simpl; rewrite Hpop;
            unfold tm1; by rewrite put_queue_twice).
      eapply delete_alone_push; [apply put_queue_lookup | exact Hd].
    + assert (w = waiting q) as -> by (unfold Pop in Hpop; by destruct (items _); simplify_eq).
      rewrite (delete_alone_S 2 _ _ _ _ tm1 DPopGlobal)
        by (unfold delete_step; rewrite Hq1; simpl; rewrite Hpop;
            unfold tm1; by rewrite put_queue_twice).
      change (globalQueue tm) with (globalQueue tm1) in Hd. fold tm1 in Hd.
      destruct (Pop (globalQueue tm1)) as [g next] eqn:Hg.
      rewrite (delete_alone_S 1 _ _ _ _ (set_globalQueue g tm1)
        (match next with inl d => DPushNext d | inr _ => DReturned None end))
        by (unfold delete_step; rewrite ?Hq1, Hg; done).
      destruct next as [d|[]]; [| by injection Hd as <- <-..].
      by eapply delete_alone_push.
  - set (tm1 := put_queue k (MkTaskQueue p (waiting q)) tm).
    rewrite (delete_alone_S 3 _ _ _ _ tm1 DRemoveWaiting)
      by (unfold delete_step; by rewrite Hq, Hrm).
    assert (taskQueues tm1 !! k = Some (MkTaskQueue p (waiting q))) as Hq1
      by apply put_queue_lookup.
    change (equalDataFunc tm) with (equalDataFunc tm1) in Hd.
    destruct (Remove data (equalDataFunc tm1) (waiting q)) as [w r] eqn:Hw.
    rewrite (delete_alone_S 2 _ _ _ _ (put_queue k (MkTaskQueue p w) tm)
      (DReturned (if r : bool then None else Some ErrDataNotFound)))
      by (unfold delete_step; rewrite Hq1; simpl waiting; rewrite Hw;
          unfold tm1; by rewrite put_queue_twice).
    by destruct r; injection Hd as <- <-.
Qed.

(** What a manager holds, apart from one queue and the global queue. *)
Lemma tasks_update k q tm :
  taskQueues tm !! k = Some q →
  ∃ rest, tasks tm ≡ₚ queue_tasks q ++ items (globalQueue tm) ++ rest ∧
    ∀ q' tm', taskQueues tm' = <[k := q']> (taskQueues tm) →
      tasks tm' ≡ₚ queue_tasks q' ++ items (globalQueue tm') ++ rest.
Proof.
  intros Hq. exists (map_to_list (delete k (taskQueues tm)) ≫= λ e, queue_tasks e.2).
  unfold tasks. split.
  - rewrite <- (map_to_list_delete _ k q Hq). simpl. solve_Permutation.
  - intros q' tm' ->. rewrite <- insert_delete_eq, map_to_list_insert by apply lookup_delete_eq.
    simpl. solve_Permutation.
Qed.

(** [Delete] of a task found in the processing queue, when the place it leaves
    can be filled: the state it ends in, field by field. *)
Lemma Delete_fills k data q p tm :
  taskQueues tm !! k = Some q →
  Remove data (equalDataFunc tm) (processing q) = (p, true) → Full p = false →
  let now l := MkQueue (items p ++ l) (capacity p) in
  let called d := (λ f, (f, k, d)) <$> afterProcessPushFunc tm in
  ∃ tm', Delete k data tm = Ret (tm', None) ∧
    orderedKeys tm' = orderedKeys tm ∧ lastAssignedIndex tm' = lastAssignedIndex tm ∧
    match items (waiting q), items (globalQueue tm) with
    | w :: ws, gs =>
        taskQueues tm' = <[k := MkTaskQueue (now [w]) (MkQueue ws (capacity (waiting q)))]>
          (taskQueues tm) ∧
        items (globalQueue tm') = gs ∧ calls tm' = calls tm ++ called w
    | [], g :: gs =>
        taskQueues tm' = <[k := MkTaskQueue (now [g]) (waiting q)]> (taskQueues tm) ∧
        items (globalQueue tm') = gs ∧ calls tm' = calls tm ++ called g
    | [], [] =>
        taskQueues tm' = <[k := MkTaskQueue (now []) (waiting q)]> (taskQueues tm) ∧
        items (globalQueue tm') = [] ∧ calls tm' = calls tm
    end.
Proof.
  intros Hq Hrm Hroom. unfold Delete, pushToProcess, Pop. rewrite Hq, Hrm.
  destruct q as [pr [wl wc]]; simpl.
  assert (∀ w, Push w p = (MkQueue (items p ++ [w]) (capacity p), None)) as Hpush
    by (intros; by apply Push_not_full).
  destruct wl as [|w ws]; [destruct (items (globalQueue tm)) as [|g gs] eqn:Hg |]; simpl;
    rewrite ?lookup_insert_eq; simpl; rewrite ?Hpush; eexists; split_and!; try done; simpl;
    rewrite ?insert_insert_eq, ?app_nil_r; try done. by destruct p.
Qed.

(** C4. [Delete], by a goroutine whose steps nobody interrupts, of a task found
    in the processing queue of the key while that queue is within its limit.
    It returns no error, having removed the first task there that the equality
    function identifies with the argument and filled the freed place: with the
    first waiting task of the key, else with the first global task, which is
    then last in the processing queue and about which every registered function
    was called, in order; else with nothing.  The other keys and the order of
    assignment are unchanged, and no other task is lost. *)
Theorem Delete_conserves k data q p tm :
  taskQueues tm !! k = Some q → fits (processing q) →
  Remove data (equalDataFunc tm) (processing q) = (p, true) →
  ∃ tm' l1 x l2,
    delete_alone 5 k data DLookup tm = Some (Ret (tm', DReturned None)) ∧
    items (processing q) = l1 ++ x :: l2 ∧
    equalDataFunc tm x data = true ∧ (∀ y, y ∈ l1 → equalDataFunc tm y data = false) ∧
    let now l := MkQueue (l1 ++ l2 ++ l) (capacity (processing q)) in
    let called d := (λ f, (f, k, d)) <$> afterProcessPushFunc tm in
    match items (waiting q), items (globalQueue tm) with
    | w :: ws, gs =>
        taskQueues tm' = <[k := MkTaskQueue (now [w]) (MkQueue ws (capacity (waiting q)))]>
          (taskQueues tm) ∧
        items (globalQueue tm') = gs ∧ calls tm' = calls tm ++ called w
    | [], g :: gs =>
        taskQueues tm' = <[k := MkTaskQueue (now [g]) (waiting q)]> (taskQueues tm) ∧
        items (globalQueue tm') = gs ∧ calls tm' = calls tm ++ called g
    | [], [] =>
        taskQueues tm' = <[k := MkTaskQueue (now []) (waiting q)]> (taskQueues tm) ∧
        items (globalQueue tm') = [] ∧ calls tm' = calls tm
    end ∧
    orderedKeys tm' = orderedKeys tm ∧ lastAssignedIndex tm' = lastAssignedIndex tm ∧
    tasks tm ≡ₚ x :: tasks tm'.
Proof.
  intros Hq Hfit Hrm.
  destruct (Remove_split _ _ _ _ Hrm) as (l1 & x & l2 & Hl & Hx & Hno & ->).
  pose proof (Remove_len _ _ _ _ Hrm) as Hlen.
  destruct (Delete_fills k data q _ tm Hq Hrm) as (tm' & Hrun & ? & ? & Hmid);
    [unfold fits, Full in *; apply Z.leb_gt; simpl; lia |].
  exists tm', l1, x, l2. do 4 (split; [done || by apply Delete_steps |]).
  cbv zeta. split_and!; [| done | done |].
  { destruct (items (waiting q)), (items (globalQueue tm)); rewrite app_assoc; exact Hmid. }
  destruct (tasks_update k q tm Hq) as (rest & -> & Hrest).
  destruct (items (waiting q)) as [|w ws] eqn:Hw;
    [destruct (items (globalQueue tm)) as [|g gs] eqn:Hg |];
    destruct Hmid as (Hm & Hg' & _); rewrite (Hrest _ _ Hm), Hg'; unfold queue_tasks;
    simpl; rewrite Hl, ?Hw; solve_Permutation.
Qed.

(** A concurrent insertion makes [Delete] lose a task: between its [Pop] of
    the waiting queue and [pushToProcess] the manager's mutex is free, so
    another goroutine's [InsertByKey] may take the freed place.  [Delete] still
    reports success, and the popped task is in no queue although nobody
    deleted it. *)
Theorem Delete_race_drops k data y q p w ws tm :
  taskQueues tm !! k = Some q →
  Remove data (equalDataFunc tm) (processing q) = (p, true) →
  Len p + 1 = capacity (processing q) → items (waiting q) = w :: ws →
  ∃ tm1 tm2 tm3 tm4 x,
    delete_step k data DLookup tm = Some (Ret (tm, DRemove)) ∧
    delete_step k data DRemove tm = Some (Ret (tm1, DPopWaiting)) ∧
    delete_step k data DPopWaiting tm1 = Some (Ret (tm2, DPushNext w)) ∧
    InsertByKey k y tm2 = Ret (tm3, None) ∧
    delete_step k data (DPushNext w) tm3 = Some (Ret (tm4, DReturned None)) ∧
    tasks tm ++ [y] ≡ₚ x :: w :: tasks tm4.
Proof.
  intros Hq Hrm Hlen Hw.
  set (tm1 := put_queue k (MkTaskQueue p (waiting q)) tm).
  set (w' := MkQueue ws (capacity (waiting q))).
  set (tm2 := put_queue k (MkTaskQueue p w') tm).
  assert (taskQueues tm1 !! k = Some (MkTaskQueue p (waiting q))) as Hq1
    by apply put_queue_lookup.
  assert (taskQueues tm2 !! k = Some (MkTaskQueue p w')) as Hq2 by apply put_queue_lookup.
  destruct (Remove_spec _ _ _ _ Hrm) as (Hcap & x & _ & Hperm).
  assert (Full p = false) as Hp by (unfold Full; rewrite Hcap; apply Z.leb_gt; lia).
  destruct (pushToProcess_cases k y _ tm2 Hq2)
    as [[Hf _] | (_ & tm3 & Hpush & Htm3 & _ & Hq3)]; [simpl in Hf; congruence |].
  assert (Full (Push y p).1 = true) as Hfull.
  { rewrite Push_not_full by done. unfold Full, Len in *. simpl. apply Z.leb_le.
    rewrite length_app. simpl. lia. }
  exists tm1, tm2, tm3, tm3, x. split_and!.
  - unfold delete_step. by rewrite Hq.
  - unfold delete_step. by rewrite Hq, Hrm.
  - unfold delete_step. rewrite Hq1. simpl waiting. unfold Pop. rewrite Hw.
    unfold tm1. by rewrite put_queue_twice.
  - unfold InsertByKey, getOrCreateTaskQueues. rewrite Hq2. simpl. by rewrite Hp.
  - rewrite (pushToProcess_step _ _ _ _ _ Hq3).
    destruct (pushToProcess_cases k w _ tm3 Hq3) as [[_ ->] | [Hf _]]; [done |].
    simpl in Hf. congruence.
  - destruct (tasks_put_queue k q (MkTaskQueue p w') tm Hq) as (rest & Ht & Ht').
    fold tm2 in Ht'. rewrite Htm3, Ht, Ht'. unfold queue_tasks. simpl.
    rewrite Hw, Hperm. solve_Permutation.
Qed.
End manager.

(** ** Witnesses: a manager with two keys and one place in every queue *)

Definition demo0 : QueueManager nat nat :=
  applyOpts [WithStrategy RoundRobin; WithAfterProcessPushFunc [7%nat]]
    (MkQueueManager (MkQueue [] 1) ∅ 1 1 Nat.eqb [] (getStrategy RoundRobin) (-1) [] []).

Definition demo_ops : list (op (T := nat) (K := nat)) := [OpAddKey 1%nat; OpAddKey 2%nat].

Definition over_ops : list (op (T := nat) (K := nat)) :=
  [OpInsertByKey 1%nat 10%nat; OpInsertByKey 1%nat 11%nat; OpInsertByKey 2%nat 20%nat;
   OpTransform 2%nat 1%nat 20%nat].

Definition demo := run 0%nat demo_ops demo0.
Definition over := run 0%nat over_ops demo0.

Lemma demo0_new :
  NewQueueManager 1 1 1 Nat.eqb [WithStrategy RoundRobin; WithAfterProcessPushFunc [7%nat]]
  = Ret demo0.
Proof. reflexivity. Qed.

Lemma demo0_wf : wf demo0.
Proof. by eapply (NewQueueManager_wf 1 1 1 Nat.eqb RoundRobin [7%nat]). Qed.

Lemma reachable_safe_witness : wf over ∧ ∀ o, returns (exec 0%nat o over).
Proof.
  apply (reachable_safe 0%nat 1 1 1 Nat.eqb RoundRobin [7%nat] demo0 over);
    [done | done | by eexists | reflexivity |].
  apply run_steps, demo0_wf.
Defined.

Lemma demo_wf : wf demo.
Proof. apply run_wf, demo0_wf. Qed.

Lemma over_wf : wf over.
Proof. apply run_wf, demo0_wf. Qed.

Lemma demo_free k : k ∈ orderedKeys demo → ¬ key_full demo k.
Proof.
  intros Hk Hf. assert (k = 1%nat ∨ k = 2%nat) as [-> | ->]
    by (vm_compute in Hk; set_solver).
  - by specialize (Hf (MkTaskQueue (MkQueue [] 1) (MkQueue [] 1)) eq_refl).
  - by specialize (Hf (MkTaskQueue (MkQueue [] 1) (MkQueue [] 1)) eq_refl).
Qed.

Lemma RoundRobinTask_spec_witness :
  ∃ tm' k, RoundRobinTask demo = Ret (tm', Some k) ∧ ¬ key_full demo k.
Proof.
  destruct (RoundRobinTask_spec demo demo_wf) as [(k & j & E & _ & _ & Hk & _) | [E _]].
  - by exists (set_lastAssignedIndex ((lastAssignedIndex demo + Z.of_nat j + 1)
                mod Z.of_nat (length (orderedKeys demo))) demo), k.
  - vm_compute in E. discriminate.
Defined.

Lemma round_robin_fair_witness :
  ∃ tm' ks, rr_iter 2 demo = Ret (tm', ks) ∧ ks ≡ₚ [Some 1%nat; Some 2%nat].
Proof. apply (round_robin_fair demo); [exact demo_wf | discriminate | exact demo_free]. Defined.

Lemma Insert_spec_witness :
  ∃ tm' k e, Insert 0%nat 5%nat demo = Ret (tm', (k, e)) ∧ calls tm' = [].
Proof.
  destruct (Insert_spec 0%nat 5%nat demo demo_wf) as (tm' & k & e & E & Hc & _).
  by exists tm', k, e.
Defined.

Lemma Delete_overfull_drops_witness :
  ∃ tm' x, Delete 1%nat 10%nat over = Ret (tm', None) ∧ tasks over ≡ₚ x :: 11%nat :: tasks tm'.
Proof.
  apply (Delete_overfull_drops 1%nat 10%nat
    (MkTaskQueue (MkQueue [10%nat; 20%nat] 1) (MkQueue [11%nat] 1)) (MkQueue [20%nat] 1)
    11%nat [] over); [apply over_wf | reflexivity..].
Defined.

Lemma Delete_steps_witness :
  delete_alone 5 1%nat 10%nat DLookup over
  = Some (Ret (run 0%nat [OpDelete 1%nat 10%nat] over, DReturned None)).
Proof. apply (Delete_steps 1%nat 10%nat over). reflexivity. Defined.

(** Keys 1 and 2, the tasks 10 (processed) and 11 (waiting) under key 1. *)
Definition race := run 0%nat [OpInsertByKey 1%nat 10%nat; OpInsertByKey 1%nat 11%nat] demo0.

Lemma Delete_conserves_witness :
  ∃ tm' : QueueManager nat nat, tasks race ≡ₚ 10%nat :: tasks tm' ∧
    taskQueues tm' !! 1%nat = Some (MkTaskQueue (MkQueue [11%nat] 1) (MkQueue [] 1)).
Proof.
  destruct (Delete_conserves 1%nat 10%nat
    (MkTaskQueue (MkQueue [10%nat] 1) (MkQueue [11%nat] 1)) (MkQueue [] 1) race)
    as (tm' & l1 & x & l2 & _ & Hl & _ & _ & [Hm _] & _ & _ & Ht);
    [reflexivity | by unfold fits | reflexivity |].
  destruct l1 as [|? []]; try done. simpl in Hl. injection Hl as <- <-.
  exists tm'. split; [exact Ht |]. rewrite Hm. apply lookup_insert_eq.
Defined.

Lemma Delete_race_drops_witness :
  ∃ (tm4 : QueueManager nat nat) x, [10%nat; 11%nat; 12%nat] ≡ₚ x :: 11%nat :: tasks tm4.
Proof.
  destruct (Delete_race_drops 1%nat 10%nat 12%nat
    (MkTaskQueue (MkQueue [10%nat] 1) (MkQueue [11%nat] 1)) (MkQueue [] 1)
    11%nat [] race) as (_ & _ & _ & tm4 & x & _ & _ & _ & _ & _ & Hp); [reflexivity.. |].
  by exists tm4, x.
Defined.
