(* ===== verification/TaskRace.v ===== *)
(** * [Delete] among the other methods (queue/task/standalonetask)

    [Delete] holds the manager's mutex for its lookup only, so it runs among the
    other methods, and several [Delete]s run among each other, at the grain of
    the locks of the single queues.  Here any number of goroutines are in
    [Delete], each at its own place with the queue it looked up -- that of its
    key, or, when [DeleteKey] took the key meanwhile, a queue that is no longer
    the manager's -- and between their steps the methods that hold the mutex do
    one queue operation at a time.  [exec_actions] says that each of those
    methods is a sequence of these operations. *)

From S2P Require Import Prelude Bound StandaloneTask.

Local Open Scope Z_scope.
Local Open Scope go_scope.

Section race.
Context {T K : Type} `{Countable K} `{MapRange}.
Context (zeroK : K).
Abbreviation QM := (QueueManager T K).
Implicit Types (tm : QM) (k : K) (data x : T) (q : TaskQueue T).

(** ** Goroutines and the world *)

(** A goroutine in [Delete]; [g_gone] is the number of its queue among those of
    deleted keys. *)
Record goroutine := MkGo {
  g_key : K;
  g_data : T;
  g_gone : option nat;
  g_pc : delete_pc (T := T)
}.

Record world := MkWorld {
  mgr : QM;
  gone : list (TaskQueue T);
  gos : list goroutine
}.

Implicit Types (g : goroutine) (w : world).

(** What one step does to the tasks: one enters a queue, one is taken by the
    first half of [TransformProcessingData], one is removed by the [Delete] of
    goroutine [i], one that goroutine [i] popped finds the processing queue
    full, one is promoted by goroutine [i]. *)
Inductive event :=
| EIn (data : T)
| ETaken (x : T)
| ERemoved (i : nat) (x : T)
| EDropped (i : nat) (x : T)
| EPromoted (i : nat) (x : T).

Definition has_looked (pc : delete_pc (T := T)) : bool :=
  match pc with DLookup | DReturned _ => false | _ => true end.

(** [delete] of the map entry: the goroutines that hold the queue keep it. *)
Definition detach k (n : nat) g : goroutine :=
  if bool_decide (g_key g = k) && has_looked (g_pc g) && bool_decide (g_gone g = None)
  then MkGo (g_key g) (g_data g) (Some n) (g_pc g) else g.

(** The events of a step of [Delete] at [pc], by the queue [q] it is about. *)
Definition delete_events (i : nat) tm data (pc : delete_pc (T := T)) q : list event :=
  let found l := match first_index (λ it, equalDataFunc tm it data) l with
                 | Some n => match l !! n with Some x => [ERemoved i x] | None => [] end
                 | None => []
                 end in
  match pc with
  | DRemove => found (items (processing q))
  | DRemoveWaiting => found (items (waiting q))
  | DPushNext x => if Full (processing q) then [EDropped i x] else [EPromoted i x]
  | _ => []
  end.

(** One step of goroutine [i]: on the queue of its key, or, when that was taken
    from the map, the same step with its own queue in the entry's place. *)
Definition go_step (i : nat) g w : world * list event :=
  match g_gone g with
  | None =>
      match delete_step (g_key g) (g_data g) (g_pc g) (mgr w) with
      | Some (Ret (tm, pc)) =>
          (MkWorld tm (gone w) (<[i := MkGo (g_key g) (g_data g) None pc]> (gos w)),
           match taskQueues (mgr w) !! g_key g with
           | Some q => delete_events i (mgr w) (g_data g) (g_pc g) q
           | None => []
           end)
      | _ => (w, [])
      end
  | Some n =>
      match gone w !! n with
      | Some q =>
          match delete_step (g_key g) (g_data g) (g_pc g) (put_queue (g_key g) q (mgr w)) with
          | Some (Ret (tm, pc)) =>
              (MkWorld (set_taskQueues (taskQueues (mgr w)) tm)
                 match taskQueues tm !! g_key g with
                 | Some q' => <[n := q']> (gone w)
                 | None => gone w
                 end
                 (<[i := MkGo (g_key g) (g_data g) (Some n) pc]> (gos w)),
               delete_events i (mgr w) (g_data g) (g_pc g) q)
          | _ => (w, [])
          end
      | None => (w, [])
      end
  end.

(** ** Actions *)

(** A call of [Delete], a step of a goroutine in it, and the single operations of
    the methods that hold the mutex: creation of a queue, choice of a key,
    pushes, the two halves of [TransformProcessingData], deletion of a key. *)
Inductive action :=
| ADelete k data
| AStep (i : nat)
| ACreate k
| AAssign
| APushGlobal data
| APushProcessing k data
| APushToProcess k data
| APushWaiting k data
| ATake k data
| AForcePush k data
| ADeleteKey k.

(** A push on one of the queues of a key, [put] telling which. *)
Definition push_on k data (get : TaskQueue T → Queue T)
    (put : TaskQueue T → Queue T → TaskQueue T) tm : QM * list event :=
  match taskQueues tm !! k with
  | Some q => match Push data (get q) with
              | (p, None) => (put_queue k (put q p) tm, [EIn data])
              | (_, Some _) => (tm, [])
              end
  | None => (tm, [])
  end.

Definition set_processing q (p : Queue T) : TaskQueue T := MkTaskQueue p (waiting q).
Definition set_waiting q (p : Queue T) : TaskQueue T := MkTaskQueue (processing q) p.

(** What an operation does to the manager. *)
Definition mgr_step (a : action) tm : QM * list event :=
  match a with
  | ACreate k => match getOrCreateTaskQueues k tm with
                 | Ret (tm', _) => (tm', [])
                 | Panic _ => (tm, [])
                 end
  | AAssign => match assignKey zeroK tm with
               | Ret (tm', _) => (tm', [])
               | Panic _ => (tm, [])
               end
  | APushGlobal data => match Push data (globalQueue tm) with
                        | (g, None) => (set_globalQueue g tm, [EIn data])
                        | (_, Some _) => (tm, [])
                        end
  | APushProcessing k data => push_on k data processing set_processing tm
  | APushToProcess k data =>
      match push_on k data processing set_processing tm with
      | (tm', []) => (tm', [])
      | (tm', evs) => (add_calls ((λ f, (f, k, data)) <$> afterProcessPushFunc tm) tm', evs)
      end
  | APushWaiting k data => push_on k data waiting set_waiting tm
  | ATake k data =>
      match taskQueues tm !! k with
      | Some q =>
          match first_index (λ it, equalDataFunc tm it data) (items (processing q)) with
          | Some n =>
              (put_queue k (set_processing q (Remove data (equalDataFunc tm) (processing q)).1) tm,
               match items (processing q) !! n with Some x => [ETaken x] | None => [] end)
          | None => (tm, [])
          end
      | None => (tm, [])
      end
  | AForcePush k data =>
      match taskQueues tm !! k with
      | Some q => (put_queue k (set_processing q (ForcePush data (processing q))) tm, [EIn data])
      | None => (tm, [])
      end
  | _ => (tm, [])
  end.

Definition world_step (a : action) w : world * list event :=
  match a with
  | ADelete k data => (MkWorld (mgr w) (gone w) (gos w ++ [MkGo k data None DLookup]), [])
  | AStep i => match gos w !! i with
               | Some g => go_step i g w
               | None => (w, [])
               end
  | ADeleteKey k =>
      match taskQueues (mgr w) !! k with
      | Some q =>
          (MkWorld match DeleteKey k (mgr w) with Ret (tm, _) => tm | Panic _ => mgr w end
             (gone w ++ [q]) (detach k (length (gone w)) <$> gos w), [])
      | None => (w, [])
      end
  | _ => let '(tm, evs) := mgr_step a (mgr w) in (MkWorld tm (gone w) (gos w), evs)
  end.

Fixpoint world_run (l : list action) w : world * list event :=
  match l with
  | [] => (w, [])
  | a :: l' =>
      let '(w1, e1) := world_step a w in
      let '(w2, e2) := world_run l' w1 in
      (w2, e1 ++ e2)
  end.

(** ** What is held *)

(** The task a goroutine popped and has not pushed yet. *)
Definition hand (pc : delete_pc (T := T)) : list T :=
  match pc with DPushNext x => [x] | _ => [] end.

(** The tasks in the queues of the manager, in those of deleted keys, and in
    the hands of goroutines. *)
Definition held w : list T :=
  tasks (mgr w) ++ (gone w ≫= queue_tasks) ++ (gos w ≫= λ g, hand (g_pc g)).

Definition entered (evs : list event) : list T :=
  evs ≫= λ e, match e with EIn x => [x] | _ => [] end.
Definition departed (evs : list event) : list T :=
  evs ≫= λ e, match e with ETaken x | ERemoved _ x | EDropped _ x => [x] | _ => [] end.

(** What goroutine [i] removed, what it promoted, and what it lost. *)
Definition removed_by (i : nat) (evs : list event) : list T :=
  evs ≫= λ e, match e with ERemoved j x => if decide (j = i) then [x] else [] | _ => [] end.
Definition popped_by (i : nat) (evs : list event) : list T :=
  evs ≫= λ e, match e with
              | EDropped j x | EPromoted j x => if decide (j = i) then [x] else []
              | _ => []
              end.

(** The queue a goroutine works on. *)
Definition queue_of w g : option (TaskQueue T) :=
  match g_gone g with
  | None => taskQueues (mgr w) !! g_key g
  | Some n => gone w !! n
  end.

(** What a goroutine has done when it is at [pc]: [eq] is the equality function. *)
Definition done_at (eq : T → T → bool) (i : nat) data (evs : list event)
    (pc : delete_pc (T := T)) : Prop :=
  match pc with
  | DLookup | DRemove | DRemoveWaiting => removed_by i evs = [] ∧ popped_by i evs = []
  | DPopWaiting | DPopGlobal | DPushNext _ =>
      (∃ x, removed_by i evs = [x] ∧ eq x data = true) ∧ popped_by i evs = []
  | DReturned None =>
      (∃ x, removed_by i evs = [x] ∧ eq x data = true) ∧ (length (popped_by i evs) ≤ 1)%nat
  | DReturned (Some e) =>
      e = ErrDataNotFound ∧ removed_by i evs = [] ∧ popped_by i evs = []
  end.

(** The number of steps a goroutine has left, at most. *)
Definition rank (pc : delete_pc (T := T)) : nat :=
  match pc with
  | DLookup => 5
  | DRemove => 4
  | DPopWaiting => 3
  | DPopGlobal => 2
  | DPushNext _ | DRemoveWaiting => 1
  | DReturned _ => 0
  end.

(** ** One step of [Delete] *)

Lemma bind_insert {A B} (f : A → list B) (l : list A) i a :
  l !! i = Some a →
  ∃ rest, l ≫= f ≡ₚ f a ++ rest ∧ ∀ b, <[i := b]> l ≫= f ≡ₚ f b ++ rest.
Proof.
  intros Hi. exists ((take i l ≫= f) ++ (drop (S i) l ≫= f)). split.
  - rewrite <- (take_drop_middle l i a Hi) at 1. rewrite bind_app. simpl. solve_Permutation.
  - intros b. rewrite insert_take_drop by (by eapply lookup_lt_Some).
    rewrite bind_app. simpl. solve_Permutation.
Qed.

Lemma Remove_first data eq (p : Queue T) :
  Remove data eq p = match first_index (λ it, eq it data) (items p) with
                     | Some n => (MkQueue (cut_at n (items p)) (capacity p), true)
                     | None => (p, false)
                     end.
Proof. done. Qed.

(** What is found is removed, and counted. *)
Lemma Remove_found i data eq (p p' : Queue T) r :
  Remove data eq p = (p', r) →
  let found := match first_index (λ it, eq it data) (items p) with
               | Some n => match items p !! n with Some x => [ERemoved i x] | None => [] end
               | None => []
               end in
  if r : bool then ∃ x, found = [ERemoved i x] ∧ eq x data = true ∧ items p ≡ₚ x :: items p'
  else found = [] ∧ p' = p.
Proof.
  rewrite Remove_first. cbv zeta.
  destruct (first_index _ (items p)) as [n|] eqn:Hn; intros [= <- <-]; [| done].
  apply first_index_Some in Hn as (x & Hx & Hf & _). rewrite Hx. exists x.
  split_and!; [done.. |]. by apply cut_at_perm.
Qed.

Ltac solve_events :=
  unfold done_at, removed_by, popped_by in *; intros; rewrite ?bind_app; simpl;
  repeat case_decide; simplify_eq; destruct_and?; rewrite ?app_nil_r;
  repeat match goal with E : _ = _ |- _ => rewrite E end; simpl; naive_solver lia.

(** The queues a step may change are that of its key and the global one; what
    they lose is in the goroutine's hand or counted. *)
Lemma delete_step_effect i k data pc q tm tm' pc' :
  taskQueues tm !! k = Some q →
  delete_step k data pc tm = Some (Ret (tm', pc')) →
  let evs := delete_events i tm data pc q in
  ∃ q', taskQueues tm' = <[k := q']> (taskQueues tm) ∧
    equalDataFunc tm' = equalDataFunc tm ∧ entered evs = [] ∧ (rank pc' < rank pc)%nat ∧
    queue_tasks q ++ items (globalQueue tm) ++ hand pc
    ≡ₚ departed evs ++ queue_tasks q' ++ items (globalQueue tm') ++ hand pc' ∧
    (∀ j, j ≠ i → removed_by j evs = [] ∧ popped_by j evs = []) ∧
    (∀ evs0, done_at (equalDataFunc tm) i data evs0 pc →
       done_at (equalDataFunc tm) i data (evs0 ++ evs) pc').
Proof.
  intros Hq. unfold delete_step. rewrite Hq.
  destruct pc as [| | | |x | |e]; intros Hs; try done; simplify_eq.
  all: cbv zeta; simpl rank.
  - exists q. rewrite insert_id by done. split_and!; try done; [lia |].
    intros evs0. by rewrite app_nil_r.
  - destruct (Remove _ _ _) as [p r] eqn:Hr. simplify_eq.
    pose proof (Remove_found i _ _ _ _ _ Hr) as Hf. cbv zeta in Hf. simpl.
    exists (MkTaskQueue p (waiting q)).
    destruct r; [destruct Hf as (x & -> & Hx & Hp) | destruct Hf as [-> ->]].
    all: split_and!; try done; try (simpl; lia); try solve_events.
    all: unfold queue_tasks; simpl; rewrite ?Hp; solve_Permutation.
  - unfold Pop in Hs. destruct (items (waiting q)) as [|w ws] eqn:Hw; simplify_eq.
    all: eexists; split_and!; try done; try (simpl; lia); try solve_events.
    all: unfold queue_tasks; simpl; rewrite Hw; solve_Permutation.
  - unfold Pop in Hs. destruct (items (globalQueue tm)) as [|w ws] eqn:Hw; simplify_eq.
    all: exists q; simpl; rewrite insert_id by done; split_and!; try done; try (simpl; lia);
      try solve_events.
    all: rewrite ?Hw; simpl; rewrite ?Hw; solve_Permutation.
  - unfold pushToProcess in Hs. rewrite Hq in Hs. simpl in Hs. simpl delete_events.
    destruct (Full (processing q)) eqn:Hf;
      [rewrite Push_full in Hs by done | rewrite Push_not_full in Hs by done]; simplify_eq/=.
    + exists q. rewrite insert_id by done. split_and!; try done; try lia; try solve_events.
      solve_Permutation.
    + eexists. split_and!; try done; try lia; try solve_events.
      unfold queue_tasks. simpl. solve_Permutation.
  - destruct (Remove _ _ _) as [p r] eqn:Hr. simplify_eq.
    pose proof (Remove_found i _ _ _ _ _ Hr) as Hf. cbv zeta in Hf. simpl.
    exists (MkTaskQueue (processing q) p).
    destruct r; [destruct Hf as (x & -> & Hx & Hp) | destruct Hf as [-> ->]].
    all: split_and!; try done; try (simpl; lia); try solve_events.
    all: unfold queue_tasks; simpl; rewrite ?Hp; solve_Permutation.
Qed.

(** ** One operation of a method that holds the mutex *)

Lemma assignKey_index tm tm' r :
  assignKey zeroK tm = Ret (tm', r) → ∃ i, tm' = set_lastAssignedIndex i tm.
Proof.
  assert (tm = set_lastAssignedIndex (lastAssignedIndex tm) tm) as Hid by (by destruct tm).
  unfold assignKey, RoundRobinTask, LeastTask. intros E.
  destruct (assignStrategy tm) as [[]|]; try done.
  - case_decide; simplify_eq; [eauto |].
    destruct (rr_loop _ _ _) as [[[]|]|]; simplify_eq/=; eauto.
  - destruct (least_loop _ _ _). simplify_eq. eauto.
Qed.

Definition quiet (evs : list event) : Prop :=
  ∀ j, removed_by j evs = [] ∧ popped_by j evs = [].

(** What the operation does: [tm'] and [evs] account for the tasks of [tm]. *)
Definition accounts tm tm' (evs : list event) : Prop :=
  equalDataFunc tm' = equalDataFunc tm ∧ quiet evs ∧
  tasks tm ++ entered evs ≡ₚ departed evs ++ tasks tm' ∧
  ∀ k, is_Some (taskQueues tm !! k) → is_Some (taskQueues tm' !! k).

Lemma accounts_none tm : accounts tm tm [].
Proof. split_and!; try done. simpl. by rewrite app_nil_r. Qed.

Lemma accounts_put k q q' evs tm :
  taskQueues tm !! k = Some q → quiet evs →
  queue_tasks q ++ entered evs ≡ₚ departed evs ++ queue_tasks q' →
  accounts tm (put_queue k q' tm) evs.
Proof.
  intros Hq Hev Hp. split_and!; [done.. | |].
  - destruct (tasks_put_queue k q q' tm Hq) as (rest & -> & ->).
    transitivity ((queue_tasks q ++ entered evs) ++ rest); [solve_Permutation |].
    rewrite Hp. solve_Permutation.
  - intros k' ?. simpl. rewrite lookup_insert_is_Some. destruct (decide (k = k')); auto.
Qed.

Lemma push_on_accounts k data get put tm tm' evs :
  (∀ q p, items p = items (get q) ++ [data] → queue_tasks q ++ [data] ≡ₚ queue_tasks (put q p)) →
  push_on k data get put tm = (tm', evs) → accounts tm tm' evs.
Proof.
  intros Hput. unfold push_on. destruct (taskQueues tm !! k) as [q|] eqn:Hq;
    [| intros [= <- <-]; apply accounts_none].
  destruct (Push data (get q)) as [p [e|]] eqn:Hp; intros [= <- <-]; [apply accounts_none |].
  destruct (Push_spec _ _ _ _ Hp) as [(_ & _ & Hi & _) | (_ & [=] & _)].
  apply (accounts_put _ q); [done | done |]. simpl. by apply Hput.
Qed.

Lemma push_processing_tasks data q p :
  items p = items (processing q) ++ [data] →
  queue_tasks q ++ [data] ≡ₚ queue_tasks (set_processing q p).
Proof. intros E. unfold queue_tasks. simpl. rewrite E. solve_Permutation. Qed.

Lemma push_waiting_tasks data q p :
  items p = items (waiting q) ++ [data] →
  queue_tasks q ++ [data] ≡ₚ queue_tasks (set_waiting q p).
Proof. intros E. unfold queue_tasks. simpl. rewrite E. solve_Permutation. Qed.

Lemma create_accounts k tm tm' q :
  getOrCreateTaskQueues k tm = Ret (tm', q) → accounts tm tm' [].
Proof.
  unfold getOrCreateTaskQueues. destruct (taskQueues tm !! k) as [q0|] eqn:Hk;
    [intros [= <- <-]; apply accounts_none |].
  unfold NewTaskQueue, NewQueue. intros E. repeat (case_match; simplify_eq/=).
  split_and!; [done.. | |].
  - unfold tasks. simpl. rewrite map_to_list_insert by done. simpl. by rewrite app_nil_r.
  - intros k' ?. simpl. rewrite lookup_insert_is_Some. destruct (decide (k = k')); auto.
Qed.

Lemma take_accounts k data tm : let '(tm', evs) := mgr_step (ATake k data) tm in
  accounts tm tm' evs.
Proof.
  simpl. destruct (taskQueues tm !! k) as [q|] eqn:Hq; [| apply accounts_none].
  rewrite Remove_first.
  destruct (first_index _ _) as [n|] eqn:Hn; [| apply accounts_none].
  apply first_index_Some in Hn as (x & Hx & _). rewrite Hx.
  apply (accounts_put _ q); [done | done |]. unfold queue_tasks. simpl. rewrite app_nil_r.
  change (x :: cut_at n (items (processing q)) ++ items (waiting q))
    with ((x :: cut_at n (items (processing q))) ++ items (waiting q)).
  f_equiv. by apply cut_at_perm.
Qed.

Lemma mgr_step_accounts a tm tm' evs : mgr_step a tm = (tm', evs) → accounts tm tm' evs.
Proof.
  destruct a as [| |k| |data|k data|k data|k data|k data|k data|]; intros E.
  9: { pose proof (take_accounts k data tm) as Ht. by rewrite E in Ht. }
  all: simpl in E; simplify_eq; try apply accounts_none.
  - destruct (getOrCreateTaskQueues k tm) as [[]|] eqn:Hc; simplify_eq;
      [by eapply create_accounts | apply accounts_none].
  - destruct (assignKey zeroK tm) as [[]|] eqn:Ha; simplify_eq; [| apply accounts_none].
    apply assignKey_index in Ha as [n ->]. destruct (accounts_none tm) as (? & ? & ? & ?). split_and!; done.
  - destruct (Push data (globalQueue tm)) as [p [e|]] eqn:Hp; simplify_eq;
      [apply accounts_none |].
    destruct (Push_spec _ _ _ _ Hp) as [(_ & _ & Hi & _) | (_ & [=] & _)].
    split_and!; try done. unfold tasks. simpl. rewrite Hi. solve_Permutation.
  - by eapply push_on_accounts, E; apply push_processing_tasks.
  - destruct (push_on _ _ _ _ _) as [tm1 evs1] eqn:Hp.
    assert (accounts tm tm1 evs1) as Ha
      by (eapply push_on_accounts, Hp; apply push_processing_tasks).
    by destruct evs1; simplify_eq.
  - by eapply push_on_accounts, E; apply push_waiting_tasks.
  - destruct (taskQueues tm !! k) as [q|] eqn:Hq; simplify_eq; [| apply accounts_none].
    apply (accounts_put _ q); [done | done |]. simpl. by apply push_processing_tasks.
Qed.

(** ** One step of a goroutine in the world *)

(** Where a goroutine may be: it has the queue it works on, and a queue of its
    own only once it looked its key up. *)
Definition go_ok w g : Prop :=
  (has_looked (g_pc g) = true → is_Some (queue_of w g)) ∧ (g_pc g = DLookup → g_gone g = None).

Definition moved (i : nat) g w w' (e : list event) : Prop :=
  ∃ pc', gos w' = <[i := MkGo (g_key g) (g_data g) (g_gone g) pc']> (gos w) ∧
    (rank pc' < rank (g_pc g))%nat ∧
    held w ++ entered e ≡ₚ departed e ++ held w' ∧
    (∀ j, j ≠ i → removed_by j e = [] ∧ popped_by j e = []) ∧
    (∀ evs, done_at (equalDataFunc (mgr w)) i (g_data g) evs (g_pc g) →
       done_at (equalDataFunc (mgr w)) i (g_data g) (evs ++ e) pc') ∧
    equalDataFunc (mgr w') = equalDataFunc (mgr w) ∧ length (gone w') = length (gone w) ∧
    (∀ k, is_Some (taskQueues (mgr w) !! k) → is_Some (taskQueues (mgr w') !! k)).

(** A goroutine that has not returned can always take its step. *)
Lemma delete_step_some k data pc q tm :
  taskQueues tm !! k = Some q → (∀ e, pc ≠ DReturned e) →
  ∃ tm' pc', delete_step k data pc tm = Some (Ret (tm', pc')).
Proof.
  intros Hq Hpc. unfold delete_step, pushToProcess. rewrite Hq.
  destruct pc as [| | | |x | |e]; simpl; repeat case_match; eauto; naive_solver.
Qed.

Lemma go_step_lookup_none i g w :
  gos w !! i = Some g → g_pc g = DLookup → g_gone g = None →
  taskQueues (mgr w) !! g_key g = None →
  moved i g w (go_step i g w).1 (go_step i g w).2.
Proof.
  intros Hi Hpc Hg Hk. unfold go_step, delete_step. rewrite Hg, Hpc, Hk. simpl.
  exists (DReturned (Some ErrDataNotFound)). rewrite Hg, Hpc. simpl.
  destruct (bind_insert (λ g, hand (g_pc g)) _ _ _ Hi) as (rest & Hr & Hr').
  split_and!; try done; try lia.
  - unfold held. simpl. rewrite Hr, Hr', Hpc. simpl. by rewrite app_nil_r.
  - intros evs. by rewrite app_nil_r.
Qed.

Lemma go_step_live i g w q :
  gos w !! i = Some g → (∀ e, g_pc g ≠ DReturned e) → g_gone g = None →
  taskQueues (mgr w) !! g_key g = Some q →
  moved i g w (go_step i g w).1 (go_step i g w).2.
Proof.
  intros Hi Hpc Hg Hk. unfold go_step. rewrite Hg.
  destruct (delete_step_some _ (g_data g) _ _ _ Hk Hpc) as (tm' & pc' & E). rewrite E, Hk.
  destruct (delete_step_effect i _ _ _ _ _ _ _ Hk E)
    as (q' & Hm & Heq & Hen & Hrank & Hp & Hoth & Hdone).
  exists pc'. simpl. rewrite Hg. split_and!; try done.
  - destruct (bind_insert (λ g, hand (g_pc g)) _ _ _ Hi) as (rest & Hr & Hr').
    destruct (tasks_update _ _ _ Hk) as (rest2 & Ht & Ht').
    unfold held. simpl. rewrite Hr, Hr', Ht, (Ht' _ _ Hm), Hen. simpl.
    transitivity ((queue_tasks q ++ items (globalQueue (mgr w)) ++ hand (g_pc g))
      ++ rest2 ++ (gone w ≫= queue_tasks) ++ rest); [solve_Permutation |].
    rewrite Hp. solve_Permutation.
  - intros k ?. rewrite Hm, lookup_insert_is_Some. destruct (decide (g_key g = k)); auto.
Qed.

Lemma go_step_gone i g w n q :
  gos w !! i = Some g → (∀ e, g_pc g ≠ DReturned e) → g_gone g = Some n →
  gone w !! n = Some q →
  moved i g w (go_step i g w).1 (go_step i g w).2.
Proof.
  intros Hi Hpc Hg Hk. unfold go_step. rewrite Hg, Hk.
  set (tm := put_queue (g_key g) q (mgr w)).
  assert (taskQueues tm !! g_key g = Some q) as Hq by apply put_queue_lookup.
  destruct (delete_step_some _ (g_data g) _ _ _ Hq Hpc) as (tm' & pc' & E). rewrite E.
  destruct (delete_step_effect i _ _ _ _ _ _ _ Hq E)
    as (q' & Hm & Heq & Hen & Hrank & Hp & Hoth & Hdone).
  rewrite Hm, lookup_insert_eq. exists pc'. simpl. rewrite Hg.
  split_and!; try done; [| by rewrite length_insert].
  destruct (bind_insert (λ g, hand (g_pc g)) _ _ _ Hi) as (rest & Hr & Hr').
  destruct (bind_insert queue_tasks _ _ _ Hk) as (rest2 & Ht & Ht').
  unfold held. simpl. rewrite Hr, Hr', Ht, Ht'.
  change (delete_events i (mgr w)) with (delete_events i tm). rewrite Hen. unfold tasks. simpl.
  set (m := map_to_list (taskQueues (mgr w)) ≫= λ e, queue_tasks e.2).
  transitivity ((queue_tasks q ++ items (globalQueue tm) ++ hand (g_pc g))
    ++ m ++ rest2 ++ rest); [simpl; solve_Permutation |].
  rewrite Hp. solve_Permutation.
Qed.

Lemma go_step_moved i g w :
  gos w !! i = Some g → go_ok w g → (∀ e, g_pc g ≠ DReturned e) →
  moved i g w (go_step i g w).1 (go_step i g w).2.
Proof.
  intros Hi [Hq Hl] Hpc. destruct (g_gone g) as [n|] eqn:Hg.
  - unfold queue_of in Hq. rewrite Hg in Hq.
    destruct Hq as [q Hq]; [destruct (g_pc g); naive_solver |]. by eapply go_step_gone.
  - destruct (taskQueues (mgr w) !! g_key g) as [q|] eqn:Hk; [by eapply go_step_live |].
    unfold queue_of in Hq. rewrite Hg, Hk in Hq.
    apply go_step_lookup_none; try done. destruct (g_pc g); try done;
      destruct (Hq eq_refl) as [? [=]] || naive_solver.
Qed.

Lemma go_step_returned i g w e : g_pc g = DReturned e → go_step i g w = (w, []).
Proof. intros E. unfold go_step. rewrite E. repeat case_match; try done; by simplify_eq. Qed.

(** ** The world over a run *)

Record inv (eq : T → T → bool) w (evs : list event) : Prop := {
  inv_eq : equalDataFunc (mgr w) = eq;
  inv_go i g : gos w !! i = Some g → go_ok w g ∧ done_at eq i (g_data g) evs (g_pc g);
  inv_new j : (length (gos w) ≤ j)%nat → removed_by j evs = [] ∧ popped_by j evs = []
}.

Lemma by_app i evs e :
  removed_by i (evs ++ e) = removed_by i evs ++ removed_by i e ∧
  popped_by i (evs ++ e) = popped_by i evs ++ popped_by i e.
Proof. unfold removed_by, popped_by. by rewrite !bind_app. Qed.

Lemma done_at_quiet eq i data evs e pc :
  removed_by i e = [] → popped_by i e = [] → done_at eq i data evs pc →
  done_at eq i data (evs ++ e) pc.
Proof.
  intros Hr Hp. unfold done_at. destruct (by_app i evs e) as [-> ->].
  by rewrite Hr, Hp, !app_nil_r.
Qed.

(** A goroutine keeps its queue when the maps and the deleted queues stay. *)
Lemma go_ok_mono w w' g :
  (∀ k, is_Some (taskQueues (mgr w) !! k) → is_Some (taskQueues (mgr w') !! k)) →
  length (gone w') = length (gone w) → go_ok w g → go_ok w' g.
Proof.
  intros Hm Hg [Hq Hl]. split; [| done]. intros Hh. specialize (Hq Hh). unfold queue_of in *.
  destruct (g_gone g); [| by apply Hm].
  apply lookup_lt_is_Some. rewrite Hg. by apply lookup_lt_is_Some in Hq.
Qed.

(** Having looked its key up, a goroutine goes on with the queue it found. *)
Lemma go_ok_next w w' g pc' :
  (∀ k, is_Some (taskQueues (mgr w) !! k) → is_Some (taskQueues (mgr w') !! k)) →
  length (gone w') = length (gone w) →
  (has_looked pc' = true → is_Some (queue_of w g)) → pc' ≠ DLookup →
  go_ok w' (MkGo (g_key g) (g_data g) (g_gone g) pc').
Proof.
  intros Hm Hg Hq Hpc. eapply (go_ok_mono w); [done.. |]. split; [exact Hq | naive_solver].
Qed.

Lemma step_looked i g w :
  gos w !! i = Some g → go_ok w g →
  ∀ g', gos (go_step i g w).1 !! i = Some g' → has_looked (g_pc g') = true →
  is_Some (queue_of w g).
Proof.
  intros Hi [Hq Hl] g' Hg' Hh. destruct (has_looked (g_pc g)) eqn:Hp; [by apply Hq |].
  destruct (g_pc g) as [| | | | | |e] eqn:E; try done.
  - unfold queue_of. rewrite (Hl eq_refl). destruct (taskQueues (mgr w) !! g_key g) eqn:Hk; [eauto |].
    unfold go_step, delete_step in Hg'. rewrite (Hl eq_refl), E, Hk in Hg'. simpl in Hg'.
    rewrite list_lookup_insert_eq in Hg' by (by eapply lookup_lt_Some). by simplify_eq.
  - rewrite (go_step_returned _ _ _ e E) in Hg'. simpl in Hg'. simplify_eq. by rewrite E in Hh.
Qed.

Lemma DeleteKey_effect k q tm :
  taskQueues tm !! k = Some q →
  ∃ tm' e, DeleteKey k tm = Ret (tm', e) ∧ taskQueues tm' = delete k (taskQueues tm) ∧
    equalDataFunc tm' = equalDataFunc tm ∧ tasks tm ≡ₚ queue_tasks q ++ tasks tm'.
Proof.
  intros Hk. assert (∀ tm', taskQueues tm' = delete k (taskQueues tm) →
      globalQueue tm' = globalQueue tm → tasks tm ≡ₚ queue_tasks q ++ tasks tm') as Ht.
  { intros tm' Hm Hg. unfold tasks. rewrite Hm, Hg, <- (map_to_list_delete _ k q Hk). simpl.
    solve_Permutation. }
  unfold DeleteKey. rewrite Hk. repeat case_match; eexists _, _; split_and!; try done; by apply Ht.
Qed.

Lemma detach_go k n g :
  g_key (detach k n g) = g_key g ∧ g_data (detach k n g) = g_data g ∧
  g_pc (detach k n g) = g_pc g.
Proof. unfold detach. by case_match. Qed.

Lemma detach_ok k q w tm g :
  taskQueues (mgr w) !! k = Some q → taskQueues tm = delete k (taskQueues (mgr w)) →
  go_ok w g →
  go_ok (MkWorld tm (gone w ++ [q]) (detach k (length (gone w)) <$> gos w))
    (detach k (length (gone w)) g).
Proof.
  intros Hk Hm [Hq Hl]. destruct (detach_go k (length (gone w)) g) as (E1 & E2 & E3).
  unfold go_ok. rewrite E3. split.
  - intros Hh. specialize (Hq Hh). unfold queue_of in *. rewrite E1. simpl. rewrite Hm.
    unfold detach. rewrite Hh, andb_true_r.
    destruct (g_gone g) as [n|] eqn:Hg.
    + rewrite (bool_decide_eq_false_2 (Some n = None)), andb_false_r by done.
      rewrite Hg. apply lookup_lt_is_Some in Hq. apply lookup_lt_is_Some.
      rewrite length_app. simpl. lia.
    + rewrite (bool_decide_eq_true_2 (None = None)), andb_true_r by done.
      case_bool_decide as Hkey; simpl.
      * rewrite lookup_app_r, Nat.sub_diag by done. by eexists.
      * rewrite Hg, lookup_delete_ne by done. done.
  - intros Hpc. unfold detach. rewrite Hpc. simpl. rewrite andb_false_r. by apply Hl.
Qed.

Definition ledger w (r : world * list event) : Prop :=
  held w ++ entered r.2 ≡ₚ departed r.2 ++ held r.1.

Lemma quiet_world_inv eq w w' evs e :
  inv eq w evs → quiet e → equalDataFunc (mgr w') = equalDataFunc (mgr w) →
  length (gos w') = length (gos w) →
  (∀ i g', gos w' !! i = Some g' → ∃ g, gos w !! i = Some g ∧ g_data g' = g_data g ∧
     g_pc g' = g_pc g ∧ (go_ok w g → go_ok w' g')) →
  inv eq w' (evs ++ e).
Proof.
  intros [Heq Hgo Hnew] He Hf Hlen Hg. split; [by rewrite Hf | |].
  - intros i g' Hi. destruct (Hg i g' Hi) as (g & Hg0 & -> & -> & Hok).
    destruct (Hgo i g Hg0) as [? Hd], (He i) as [??]. split; [by apply Hok |].
    by apply done_at_quiet.
  - intros j Hj. rewrite Hlen in Hj. destruct (Hnew j Hj) as [Hr Hp], (He j) as [Hr' Hp'].
    destruct (by_app j evs e) as [-> ->]. by rewrite Hr, Hp, Hr', Hp'.
Qed.

Lemma mgr_action_inv eq a w evs :
  inv eq w evs →
  let '(tm, e) := mgr_step a (mgr w) in
  inv eq (MkWorld tm (gone w) (gos w)) (evs ++ e) ∧
  ledger w (MkWorld tm (gone w) (gos w), e).
Proof.
  intros Hinv. destruct (mgr_step a (mgr w)) as [tm e] eqn:E.
  destruct (mgr_step_accounts _ _ _ _ E) as (Heq & Hq & Hp & Hk). split.
  - eapply quiet_world_inv; [done.. |]. intros i g' Hi. exists g'. split_and!; try done.
    by apply go_ok_mono.
  - unfold ledger, held. simpl. set (rest := (gone w ≫= queue_tasks) ++ _).
    transitivity ((tasks (mgr w) ++ entered e) ++ rest); [solve_Permutation |].
    rewrite Hp. solve_Permutation.
Qed.

Lemma spawn_inv eq k data w evs :
  inv eq w evs →
  inv eq (MkWorld (mgr w) (gone w) (gos w ++ [MkGo k data None DLookup])) evs.
Proof.
  intros [Heq Hgo Hnew]. split; [done | |].
  - intros i g [Hi | [Hlt Hi]]%lookup_app_Some; simpl in *; [by apply Hgo |].
    apply list_lookup_singleton_Some in Hi as [Hi <-].
    destruct (Hnew i Hlt). done.
  - simpl. intros j. rewrite length_app. simpl. intros. apply Hnew. lia.
Qed.

Lemma step_moved_inv eq i g w evs :
  inv eq w evs → gos w !! i = Some g →
  inv eq (go_step i g w).1 (evs ++ (go_step i g w).2) ∧ ledger w (go_step i g w).
Proof.
  intros Hinv Hi. destruct (inv_go _ _ _ Hinv i g Hi) as [Hok Hdone].
  assert ((∃ e, g_pc g = DReturned e) ∨ ∀ e, g_pc g ≠ DReturned e) as [[e He] | Hpc]
    by (destruct (g_pc g); eauto; by right).
  1: { rewrite (go_step_returned i g w e He). simpl. rewrite app_nil_r. split; [done |].
       unfold ledger. simpl. by rewrite app_nil_r. }
  destruct (go_step_moved i g w Hi Hok) as (pc' & Hgos & Hrank & Hp & Hoth & Hd & Heq & Hlen & Hk);
    [done |].
  split; [| exact Hp]. pose proof (lookup_lt_Some _ _ _ Hi) as Hlt.
  split; [rewrite Heq; apply Hinv | |].
  - intros j g' Hj. rewrite Hgos in Hj. destruct (decide (j = i)) as [-> | Hne].
    + rewrite list_lookup_insert_eq in Hj by done. injection Hj as <-. simpl. split.
      * apply (go_ok_next w); [done.. | | intros ->; destruct (g_pc g); simpl in Hrank; lia].
        intros Hh. refine (step_looked i g w Hi Hok
          (MkGo (g_key g) (g_data g) (g_gone g) pc') _ Hh).
        rewrite Hgos. by apply list_lookup_insert_eq.
      * rewrite <- (inv_eq _ _ _ Hinv) in Hdone |- *. by apply Hd.
    + rewrite list_lookup_insert_ne in Hj by done.
      destruct (inv_go _ _ _ Hinv j g' Hj) as [Hok' Hd'], (Hoth j Hne) as [??].
      split; [by apply (go_ok_mono w) | by apply done_at_quiet].
  - intros j Hj. rewrite Hgos, length_insert in Hj.
    destruct (inv_new _ _ _ Hinv j Hj) as [Hr Hp0], (Hoth j ltac:(lia)) as [Hr' Hp'].
    destruct (by_app j evs (go_step i g w).2) as [-> ->]. by rewrite Hr, Hp0, Hr', Hp'.
Qed.

Lemma detach_hands k n (l : list goroutine) :
  (detach k n <$> l) ≫= (λ g, hand (g_pc g)) = l ≫= (λ g, hand (g_pc g)).
Proof.
  induction l as [|g l IH]; [done |]. csimpl. rewrite IH.
  by destruct (detach_go k n g) as (_ & _ & ->).
Qed.

Lemma delete_key_inv eq k q w evs :
  inv eq w evs → taskQueues (mgr w) !! k = Some q →
  inv eq (world_step (ADeleteKey k) w).1 evs ∧ ledger w (world_step (ADeleteKey k) w).
Proof.
  intros Hinv Hk. simpl. rewrite Hk.
  destruct (DeleteKey_effect k q _ Hk) as (tm & e & -> & Hm & Heq & Ht). simpl. split.
  - rewrite <- (app_nil_r evs). eapply quiet_world_inv; [done.. | simpl; by rewrite length_fmap |].
    intros i g' Hg'. simpl in Hg'. apply list_lookup_fmap_Some in Hg' as (g & -> & Hg).
    destruct (detach_go k (length (gone w)) g) as (_ & ? & ?).
    exists g. split_and!; try done. by apply detach_ok.
  - unfold ledger, held. simpl. rewrite app_nil_r, bind_app, Ht. simpl.
    rewrite detach_hands. solve_Permutation.
Qed.

Lemma ledger_same w : ledger w (w, []).
Proof. unfold ledger. simpl. by rewrite app_nil_r. Qed.

Lemma world_step_inv eq a w evs :
  inv eq w evs →
  inv eq (world_step a w).1 (evs ++ (world_step a w).2) ∧ ledger w (world_step a w).
Proof.
  intros Hinv.
  destruct a as [k data|i|k| |data|k data|k data|k data|k data|k data|k] eqn:Ha.
  1: { simpl. rewrite app_nil_r. split; [by apply spawn_inv |].
       unfold ledger, held. simpl. rewrite bind_app. simpl. by rewrite !app_nil_r. }
  1: { simpl. destruct (gos w !! i) as [g|] eqn:Hi; [by apply step_moved_inv |].
       simpl. rewrite app_nil_r. split; [done | apply ledger_same]. }
  9: { destruct (taskQueues (mgr w) !! k) as [q|] eqn:Hk.
       - destruct (delete_key_inv eq k q w evs Hinv Hk) as [??]. split; [| done].
         simpl. rewrite Hk. simpl. rewrite app_nil_r. simpl in *. by rewrite Hk in *.
       - simpl. rewrite Hk. simpl. rewrite app_nil_r. split; [done | apply ledger_same]. }
  all: pose proof (mgr_action_inv eq a w evs Hinv) as Hm; rewrite Ha in Hm.
  all: cbn [world_step]; destruct (mgr_step _ (mgr w)); exact Hm.
Qed.

Lemma world_run_inv eq l w evs :
  inv eq w evs →
  inv eq (world_run l w).1 (evs ++ (world_run l w).2) ∧ ledger w (world_run l w).
Proof.
  revert w evs. induction l as [|a l IH]; intros w evs Hinv; simpl.
  - rewrite app_nil_r. split; [done | apply ledger_same].
  - destruct (world_step_inv eq a w evs Hinv) as [Hi1 Hl1].
    destruct (world_step a w) as [w1 e1]. simpl in *.
    destruct (IH w1 _ Hi1) as [Hi2 Hl2]. destruct (world_run l w1) as [w2 e2]. simpl in *.
    split; [by rewrite app_assoc |]. unfold ledger, entered, departed in *. simpl in *.
    rewrite !bind_app, (app_assoc (held w)), Hl1, <- !(app_assoc (e1 ≫= _)).
    by rewrite Hl2.
Qed.

Lemma world_inv_init tm : inv (equalDataFunc tm) (MkWorld tm [] []) [].
Proof. by split. Qed.

(** ** Where a task is lost *)

Lemma dropped_popped i x evs : EDropped i x ∈ evs → popped_by i evs ≠ [].
Proof.
  unfold popped_by. induction evs as [|e evs IH]; [by intros ?%elem_of_nil |].
  intros [<- | Hin]%elem_of_cons; simpl; [by rewrite decide_True |].
  intros [_ E]%app_nil. by apply IH.
Qed.

Lemma delete_events_dropped i j x tm data pc q :
  EDropped i x ∈ delete_events j tm data pc q →
  i = j ∧ pc = DPushNext x ∧ Full (processing q) = true.
Proof.
  unfold delete_events. destruct pc; repeat case_match; set_solver.
Qed.

Lemma go_step_dropped i j x g w :
  EDropped i x ∈ (go_step j g w).2 →
  i = j ∧ g_pc g = DPushNext x ∧
  ∃ q, queue_of w g = Some q ∧ Full (processing q) = true.
Proof.
  unfold go_step, queue_of.
  destruct (g_gone g) as [n|]; [destruct (gone w !! n) as [q|] eqn:Hq |];
    repeat case_match; simpl; intros Hin; try (by apply elem_of_nil in Hin);
    apply delete_events_dropped in Hin as (-> & ? & ?); eauto.
Qed.

Lemma world_step_dropped i x a w :
  EDropped i x ∈ (world_step a w).2 →
  a = AStep i ∧ ∃ g q, gos w !! i = Some g ∧ g_pc g = DPushNext x ∧
    queue_of w g = Some q ∧ Full (processing q) = true.
Proof.
  assert (∀ tm evs, mgr_step a (mgr w) = (tm, evs) → EDropped i x ∉ evs) as Hq.
  { intros tm evs E Hin%dropped_popped. apply mgr_step_accounts in E as (_ & Hq & _).
    by destruct (Hq i). }
  destruct a as [k data|j|k| |data|k data|k data|k data|k data|k data|k].
  2: { simpl. destruct (gos w !! j) as [g|] eqn:Hg; [| by intros ?%elem_of_nil].
       intros (-> & ? & q & ? & ?)%go_step_dropped. naive_solver. }
  1: by intros ?%elem_of_nil.
  9: { simpl. case_match; by intros ?%elem_of_nil. }
  all: cbn [world_step]; destruct (mgr_step _ (mgr w)) eqn:E; intros Hin;
    by destruct (Hq _ _ eq_refl).
Qed.

(** One step of goroutine [i], whoever moved before. *)
Lemma AStep_rank i g w :
  gos w !! i = Some g → go_ok w g → (∀ e, g_pc g ≠ DReturned e) →
  ∃ g', gos (world_step (AStep i) w).1 !! i = Some g' ∧ (rank (g_pc g') < rank (g_pc g))%nat.
Proof.
  intros Hi Hok Hpc. destruct (go_step_moved i g w Hi Hok Hpc) as (pc' & Hg & Hr & _).
  simpl. rewrite Hi, Hg. exists (MkGo (g_key g) (g_data g) (g_gone g) pc'). split; [| exact Hr].
  apply list_lookup_insert_eq. by eapply lookup_lt_Some.
Qed.

(** ** The methods are sequences of the operations *)

Definition mgr_run (l : list action) tm : QM := fold_left (λ tm a, (mgr_step a tm).1) l tm.

Lemma getOrCreate_run k tm tm' q :
  getOrCreateTaskQueues k tm = Ret (tm', q) →
  mgr_run [ACreate k] tm = tm' ∧ taskQueues tm' !! k = Some q.
Proof.
  intros E. unfold mgr_run. simpl. rewrite E. split; [done |].
  unfold getOrCreateTaskQueues in E. destruct (taskQueues tm !! k) as [q0|] eqn:Hk;
    [by injection E as <- <- |].
  destruct (NewTaskQueue _ _) as [q1|]; simplify_eq/=. by rewrite lookup_insert_eq.
Qed.

Lemma Transform_run f k data tm tm' e :
  TransformProcessingData f k data tm = Ret (tm', e) →
  ∃ l, mgr_run l tm = tm' ∧ l ⊆ [ACreate k; ATake f data; AForcePush k data].
Proof.
  unfold TransformProcessingData. destruct (taskQueues tm !! f) as [q0|] eqn:Hf;
    [| intros [= <- <-]; exists []; split; [done | set_solver]].
  destruct (getOrCreateTaskQueues k tm) as [[tm1 q1]|] eqn:Hc; [| done]. simpl.
  destruct (getOrCreate_run _ _ _ _ Hc) as [Hrun _].
  destruct (taskQueues tm1 !! f) as [q|] eqn:Hq; [| done]. simpl.
  destruct (Remove _ _ _) as [p [|]] eqn:Hr; simpl;
    [| intros [= <- <-]; exists [ACreate k]; split; [done | set_solver]].
  set (tm2 := put_queue f (MkTaskQueue p (waiting q)) tm1).
  change (<[f := MkTaskQueue p (waiting q)]> (taskQueues tm1)) with (taskQueues tm2).
  destruct (taskQueues tm2 !! k) as [q2|] eqn:Hq2; [| done]. simpl. intros [= <- <-].
  exists [ACreate k; ATake f data; AForcePush k data]. split; [| done].
  unfold mgr_run in *. simpl in *. rewrite Hrun, Hq.
  pose proof Hr as Hr'. rewrite Remove_first in Hr'.
  destruct (first_index _ _) as [n|]; [| done]. cbn [fst snd]. rewrite Hr.
  change (taskQueues tm2 !! k = Some q2) in Hq2.
  change (put_queue f (set_processing q (p, true).1) tm1) with tm2. by rewrite Hq2.
Qed.

(** A push of a method that found room is the operation. *)
Lemma push_on_room k data get put q tm :
  taskQueues tm !! k = Some q → Full (get q) = false →
  push_on k data get put tm = (put_queue k (put q (Push data (get q)).1) tm, [EIn data]).
Proof. intros Hq Hf. unfold push_on. rewrite Hq. by rewrite Push_not_full. Qed.

Lemma Insert_run data tm tm' r :
  Insert zeroK data tm = Ret (tm', r) → ∃ l, mgr_run l tm = tm'.
Proof.
  unfold Insert, push_global.
  destruct (assignKey zeroK tm) as [[tm1 a]|] eqn:Ha; [| done]. simpl.
  assert (mgr_run [AAssign] tm = tm1) as Hrun by (unfold mgr_run; simpl; by rewrite Ha).
  assert (Full (globalQueue tm1) = false →
    mgr_run [AAssign; APushGlobal data] tm
    = set_globalQueue (Push data (globalQueue tm1)).1 tm1) as Hglob.
  { intros Hf. unfold mgr_run in *. simpl in *. rewrite Hrun. by rewrite Push_not_full. }
  destruct a as [k|]; [destruct (taskQueues tm1 !! k) as [q|] eqn:Hq; [| done]; simpl;
    destruct (Full (processing q)) eqn:Hf; simpl |].
  2: { rewrite Push_not_full by done. intros [= <- <-].
       exists [AAssign; APushProcessing k data]. unfold mgr_run in *. simpl in *. rewrite Hrun.
       rewrite (push_on_room _ _ _ _ q) by done. by rewrite Push_not_full. }
  all: destruct (Full (globalQueue tm1)) eqn:Hg; simpl; [intros [= <- <-]; eauto |].
  all: specialize (Hglob eq_refl); rewrite Push_not_full in * by done; intros [= <- <-]; eauto.
Qed.

(** Each method other than [Delete] and [DeleteKey], which are actions of their
    own, does to the manager what a sequence of the operations does. *)
Lemma exec_actions o tm tm' :
  exec zeroK o tm = Ret tm' →
  match o with
  | OpDelete _ _ => True
  | OpDeleteKey k => ∀ gn gs, mgr (world_step (ADeleteKey k) (MkWorld tm gn gs)).1 = tm'
  | _ => ∃ l, mgr_run l tm = tm'
  end.
Proof.
  destruct o as [k|data|k data|k data|k|f k data|f data]; simpl; [| | |done| | |].
  - unfold AddKey. destruct (getOrCreateTaskQueues k tm) as [[tm1 q]|] eqn:E; [| done].
    intros [= <-]. exists [ACreate k]. by eapply getOrCreate_run.
  - intros E. destruct (Insert zeroK data tm) as [[tm1 r]|] eqn:Hi; simplify_eq/=.
    by eapply Insert_run.
  - unfold InsertByKey. destruct (getOrCreateTaskQueues k tm) as [[tm1 q]|] eqn:E; [| done].
    destruct (getOrCreate_run _ _ _ _ E) as [Hrun Hq]. simpl.
    destruct (Full (processing q)) eqn:Hf; simpl; [destruct (Full (waiting q)) eqn:Hw; simpl |].
    + intros [= <-]. eauto.
    + rewrite Push_not_full by done. intros [= <-]. exists [ACreate k; APushWaiting k data].
      unfold mgr_run in *. simpl in *. rewrite Hrun, (push_on_room _ _ _ _ q) by done.
      by rewrite Push_not_full.
    + unfold pushToProcess. rewrite Hq. simpl. rewrite Push_not_full by done. intros [= <-].
      exists [ACreate k; APushToProcess k data]. unfold mgr_run in *. simpl in *.
      rewrite Hrun, (push_on_room _ _ _ _ q) by done. by rewrite Push_not_full.
  - unfold world_step. simpl. destruct (taskQueues tm !! k) as [q|] eqn:Hk.
    + intros E gn gs. destruct (DeleteKey k tm) as [[tm1 e]|]; by simplify_eq/=.
    + unfold DeleteKey. rewrite Hk. by intros [= <-].
  - intros E. destruct (TransformProcessingData f k data tm) as [[tm1 e]|] eqn:Ht; simplify_eq/=.
    destruct (Transform_run _ _ _ _ _ _ Ht) as (l & ? & _). eauto.
  - unfold AutoTransformProcessingData.
    destruct (assignKey zeroK tm) as [[tm1 a]|] eqn:Ha; [| done]. simpl.
    assert (mgr_run [AAssign] tm = tm1) as Hrun by (unfold mgr_run; simpl; by rewrite Ha).
    destruct a as [k|]; simpl; [| intros [= <-]; eauto].
    destruct (TransformProcessingData f k data tm1) as [[tm2 e]|] eqn:Ht; [| done].
    intros [= <-]. destruct (Transform_run _ _ _ _ _ _ Ht) as (l & <- & _).
    exists (AAssign :: l). unfold mgr_run in *. simpl in *. by rewrite Hrun.
Qed.

Lemma world_run_dropped i x l w :
  EDropped i x ∈ (world_run l w).2 →
  ∃ l1 l2 g q, l = l1 ++ AStep i :: l2 ∧
    gos (world_run l1 w).1 !! i = Some g ∧ g_pc g = DPushNext x ∧
    queue_of (world_run l1 w).1 g = Some q ∧ Full (processing q) = true.
Proof.
  revert w. induction l as [|a l IH]; intros w; simpl; [by intros ?%elem_of_nil |].
  destruct (world_step a w) as [w1 e1] eqn:E1. destruct (world_run l w1) as [w2 e2] eqn:E2.
  simpl. intros [Hin | Hin]%elem_of_app.
  - destruct (world_step_dropped i x a w) as (-> & g & q & ?); [by rewrite E1 |].
    by exists [], l, g, q.
  - destruct (IH w1) as (l1 & l2 & g & q & -> & ? & ? & ? & ?); [by rewrite E2 |].
    exists (a :: l1), l2, g, q. split; [done |]. simpl. rewrite E1.
    by destruct (world_run l1 w1).
Qed.

(** C34. Any number of [Delete]s among each other and among the other methods, in
    every interleaving of their steps at the queues, from any manager.  Every
    task that was there or entered later is in a queue, of the manager or of a
    deleted key, in the hand of one goroutine between its pop and its push, or
    was taken, removed or lost; each is counted once.  A [Delete] that returned no
    error removed exactly one task, which the equality function identifies with
    its argument, and popped at most one to promote; one that returned an error
    returned [ErrDataNotFound] and removed and popped none; one that has not
    returned can take its next step, of five at most, even when its key is
    deleted.  A task leaves without a removal only when the goroutine that
    popped it finds the processing queue it pushes to full. *)
Theorem delete_ledger l tm :
  let w0 := MkWorld tm [] [] in
  let w := (world_run l w0).1 in
  let evs := (world_run l w0).2 in
  tasks tm ++ entered evs ≡ₚ departed evs ++ held w ∧
  (∀ i g, gos w !! i = Some g →
     done_at (equalDataFunc tm) i (g_data g) evs (g_pc g) ∧
     ((∃ e, g_pc g = DReturned e) ∨
      ∃ g', gos (world_step (AStep i) w).1 !! i = Some g' ∧
            (rank (g_pc g') < rank (g_pc g))%nat)) ∧
  (∀ i x, EDropped i x ∈ evs → ∃ l1 l2 g q, l = l1 ++ AStep i :: l2 ∧
     let w1 := (world_run l1 w0).1 in
     gos w1 !! i = Some g ∧ g_pc g = DPushNext x ∧
     queue_of w1 g = Some q ∧ Full (processing q) = true).
Proof.
  intros w0 w evs.
  destruct (world_run_inv _ l w0 [] (world_inv_init tm)) as [Hinv Hled]. split_and!.
  - unfold ledger, held, w0 in Hled. simpl in Hled. by rewrite app_nil_r in Hled.
  - intros i g Hi. destruct (inv_go _ _ _ Hinv i g Hi) as [Hok Hd]. split; [exact Hd |].
    assert ((∃ e, g_pc g = DReturned e) ∨ ∀ e, g_pc g ≠ DReturned e) as [? | Hpc]
      by (destruct (g_pc g); eauto; by right); [by left | right].
    by apply AStep_rank.
  - intros i x Hin. by apply world_run_dropped in Hin.
Qed.
End race.

(** ** A run: two [Delete]s and an insertion that takes the freed place *)

Definition race_run : list (action (T := nat) (K := nat)) :=
  [ADelete 1%nat 10%nat; ADelete 1%nat 11%nat; AStep 0; AStep 0; AStep 1; AStep 0;
   APushToProcess 1%nat 12%nat; AStep 1; AStep 0; AStep 1].

(** Goroutine 1 finds 11 in neither queue: goroutine 0 has it in hand; the place
    is taken meanwhile, so 11 is lost although nobody deleted it. *)
Lemma race_run_events :
  (world_run 0%nat race_run (MkWorld race [] [])).2
  = [ERemoved 0 10%nat; EIn 12%nat; EDropped 0 11%nat] ∧
  g_pc <$> gos (world_run 0%nat race_run (MkWorld race [] [])).1
  = [DReturned None; DReturned (Some ErrDataNotFound)].
Proof. vm_compute. done. Qed.

(** The key of a goroutine is deleted, with the task that it then promotes. *)
Lemma detached_run_events :
  let r := world_run 0%nat [ADelete 1%nat 10%nat; AStep 0; ADeleteKey 1%nat; AStep 0; AStep 0;
                            AStep 0] (MkWorld race [] []) in
  r.2 = [ERemoved 0 10%nat; EPromoted 0 11%nat] ∧ tasks (mgr r.1) = [] ∧
  held r.1 = [11%nat].
Proof. vm_compute. done. Qed.
