(* ===== verification/Chan.v ===== *)
(** * Go channels

    The language's buffered channels, which the in-memory message queues are
    built on.  A communication that cannot proceed blocks; the operations below
    say what happens when it is chosen: [None] means that it is not enabled in
    that state.  A send to, or a second close of, a closed channel panics. *)

From S2P Require Import Prelude.

Record chan (A : Type) := MkChan { buf : list A; csize : nat; cclosed : bool }.
Arguments MkChan {A} buf csize cclosed.
Arguments buf {A} c.
Arguments csize {A} c.
Arguments cclosed {A} c.

Section chan.
Context {A : Type}.
Implicit Types (c : chan A) (x : A).

Definition make_chan (size : nat) : chan A := MkChan [] size false.

(** [c <- x]. *)
Definition chan_send x c : option (outcome (chan A)) :=
  if cclosed c then Some (Panic "send on closed channel")
  else if decide (length (buf c) < csize c)
       then Some (Ret (MkChan (buf c ++ [x]) (csize c) false))
       else None.

(** [x, ok := <-c]: a closed channel yields its remaining elements, then
    [None]. *)
Definition chan_recv c : option (option A * chan A) :=
  match buf c with
  | x :: rest => Some (Some x, MkChan rest (csize c) (cclosed c))
  | [] => if cclosed c then Some (None, c) else None
  end.

Definition chan_close c : outcome (chan A) :=
  if cclosed c then Panic "close of closed channel"
  else Ret (MkChan (buf c) (csize c) true).

Lemma chan_send_open x c r :
  cclosed c = false → chan_send x c = Some r →
  ∃ c', r = Ret c' ∧ buf c' = buf c ++ [x] ∧ csize c' = csize c ∧ cclosed c' = false ∧
    length (buf c) < csize c.
Proof.
  unfold chan_send. intros ->. case_decide; [| discriminate]. intros [= <-].
  by eexists.
Qed.

Lemma chan_recv_cases c r c' :
  chan_recv c = Some (r, c') →
  csize c' = csize c ∧ cclosed c' = cclosed c ∧
  match r with
  | Some x => buf c = x :: buf c'
  | None => buf c = [] ∧ cclosed c = true ∧ c' = c
  end.
Proof.
  unfold chan_recv. intros H. destruct (buf c) eqn:E; [| by simplify_eq].
  destruct (cclosed c) eqn:E'; simplify_eq. rewrite E'. done.
Qed.
End chan.
