(* ===== verification/MemaMQ.v ===== *)
(** * The in-memory asynchronous queue (mq/memamq/queue.go)

    Pushing goroutines, the goroutines that call [Stop] and the workers run
    concurrently over a channel, an atomic counter, an atomic flag and a wait
    group.  Each atomic access is one step of its thread; the system interleaves
    the steps of all threads in any order.  Timers and contexts may fire at any
    moment, and a [Stop] that polls the counter re-reads it at each tick.  The
    64-bit counter is an unbounded integer here: it counts live goroutines. *)

From S2P Require Import Prelude Chan.

Local Open Scope Z_scope.

(** ** Shared state *)

Record MemoryQueue (task : Type) := MkMemoryQueue {
  taskChan : chan task;
  wg : Z;
  isStopped : bool;
  count : Z
}.
Arguments MkMemoryQueue {task} taskChan wg isStopped count.
Arguments taskChan {task} m.
Arguments wg {task} m.
Arguments isStopped {task} m.
Arguments count {task} m.

Inductive push_err := ErrStop | ErrFull | CtxCause.

Section memamq.
Context {task : Type}.
Implicit Types (mq : MemoryQueue task) (t : task).

(** ** Pushing calls *)

Inductive call :=
| Push (t : task)
| PushCtx (t : task)
| BatchPushCtx (ts : list task)
| NotWaitPush (t : task).

Definition call_tasks (c : call) : list task :=
  match c with
  | Push t | PushCtx t | NotWaitPush t => [t]
  | BatchPushCtx ts => ts
  end.

(** Where a pushing goroutine is: before [count.Add(1)], before
    [isStopped.Load()], at the [select] for task [i], before the deferred
    [count.Add(-1)], returned.  A result is the number of tasks accepted and the
    error. *)
Inductive push_pc :=
| PEnter
| PCheck
| PSelect (i : nat)
| PExit (r : nat * option push_err)
| PReturned (r : nat * option push_err).

(** Which ready case the [select] takes. *)
Inductive branch := BrSend | BrOther.

(** The error of the branch other than the send: the 3 s timer of [Push], the
    context of the [Ctx] calls, the [default] of [NotWaitPush], which is only
    taken when the send is not ready. *)
Definition other_branch (c : call) mq : option push_err :=
  match c with
  | Push _ => Some ErrFull
  | PushCtx _ | BatchPushCtx _ => Some CtxCause
  | NotWaitPush t => match chan_send t (taskChan mq) with
                     | Some _ => None
                     | None => Some ErrFull
                     end
  end.

Definition set_chan (c : chan task) mq : MemoryQueue task :=
  MkMemoryQueue c (wg mq) (isStopped mq) (count mq).
Definition add_count (d : Z) mq : MemoryQueue task :=
  MkMemoryQueue (taskChan mq) (wg mq) (isStopped mq) (count mq + d).
Definition set_stopped mq : MemoryQueue task :=
  MkMemoryQueue (taskChan mq) (wg mq) true (count mq).
Definition wg_done mq : MemoryQueue task :=
  MkMemoryQueue (taskChan mq) (wg mq - 1) (isStopped mq) (count mq).

Definition push_step (b : branch) (c : call) (pc : push_pc) mq
    : option (outcome (MemoryQueue task * push_pc)) :=
  match pc with
  | PEnter => Some (Ret (add_count 1 mq, PCheck))
  | PCheck =>
      Some (Ret (mq, if isStopped mq then PExit (0%nat, Some ErrStop) else PSelect 0))
  | PSelect i =>
      match call_tasks c !! i with
      | None => Some (Ret (mq, PExit (length (call_tasks c), None)))
      | Some t =>
          match b with
          | BrSend =>
              match chan_send t (taskChan mq) with
              | None => None
              | Some r => Some (obind r (λ ch, Ret (set_chan ch mq, PSelect (S i))))
              end
          | BrOther =>
              match other_branch c mq with
              | None => None
              | Some e => Some (Ret (mq, PExit (i, Some e)))
              end
          end
      end
  | PExit r => Some (Ret (add_count (-1) mq, PReturned r))
  | PReturned _ => None
  end.

(** ** [Stop] and [waitSafeClose] *)

Inductive stop_pc := SEnter | SWait | SClose | SJoin | SReturned (stopped : bool).

Definition stop_step (pc : stop_pc) mq : option (outcome (MemoryQueue task * stop_pc)) :=
  match pc with
  | SEnter => (* isStopped.CompareAndSwap(false, true) *)
      if isStopped mq then Some (Ret (mq, SReturned false))
      else Some (Ret (set_stopped mq, SWait))
  | SWait => (* count.Load() == 0, else wait for the next tick *)
      Some (Ret (mq, if count mq =? 0 then SClose else SWait))
  | SClose => Some (obind (chan_close (taskChan mq)) (λ ch, Ret (set_chan ch mq, SJoin)))
  | SJoin => if wg mq =? 0 then Some (Ret (mq, SReturned true)) else None
  | SReturned _ => None
  end.

(** ** Workers: [for task := range taskChan { task() }] *)

Inductive work_pc := WRange | WRun (t : task) | WExited.

(** A worker's step may start a task and may finish one. *)
Definition work_step (pc : work_pc) mq
    : option (MemoryQueue task * work_pc * option task) :=
  match pc with
  | WRange =>
      match chan_recv (taskChan mq) with
      | None => None
      | Some (Some t, ch) => Some (set_chan ch mq, WRun t, None)
      | Some (None, ch) => Some (wg_done (set_chan ch mq), WExited, None)
      end
  | WRun t => Some (mq, WRange, Some t)
  | WExited => None
  end.

(** ** The system *)

Record sys := MkSys {
  queue : MemoryQueue task;
  pushers : list (call * push_pc);
  stoppers : list stop_pc;
  workers : list work_pc;
  executed : list task
}.

Definition initialize (workerCount bufferSize : nat) : MemoryQueue task :=
  MkMemoryQueue (make_chan bufferSize) (Z.of_nat workerCount) false 0.

Definition NewMemoryQueue (workerCount bufferSize : Z) : outcome (MemoryQueue task) :=
  if (workerCount <? 1) || (bufferSize <? 1)
  then Panic "workerCount and bufferSize must be greater than 0"
  else Ret (initialize (Z.to_nat workerCount) (Z.to_nat bufferSize)).

(** Any number of calls, and any number of [Stop]s, ready to start. *)
Definition init_sys mq (workerCount : nat) (calls : list call) (nstop : nat) : sys :=
  MkSys mq ((λ c, (c, PEnter)) <$> calls) (replicate nstop SEnter)
    (replicate workerCount WRange) [].

Inductive sys_step (s : sys) : outcome sys → Prop :=
| step_push i b c pc mq' pc' :
    pushers s !! i = Some (c, pc) →
    push_step b c pc (queue s) = Some (Ret (mq', pc')) →
    sys_step s (Ret (MkSys mq' (<[i := (c, pc')]> (pushers s)) (stoppers s)
                       (workers s) (executed s)))
| step_push_panic i b c pc why :
    pushers s !! i = Some (c, pc) →
    push_step b c pc (queue s) = Some (Panic why) →
    sys_step s (Panic why)
| step_stop i pc mq' pc' :
    stoppers s !! i = Some pc →
    stop_step pc (queue s) = Some (Ret (mq', pc')) →
    sys_step s (Ret (MkSys mq' (pushers s) (<[i := pc']> (stoppers s))
                       (workers s) (executed s)))
| step_stop_panic i pc why :
    stoppers s !! i = Some pc →
    stop_step pc (queue s) = Some (Panic why) →
    sys_step s (Panic why)
| step_work i pc mq' pc' fin :
    workers s !! i = Some pc →
    work_step pc (queue s) = Some (mq', pc', fin) →
    sys_step s (Ret (MkSys mq' (pushers s) (stoppers s) (<[i := pc']> (workers s))
                       (executed s ++ option_list fin))).

Definition reaches (s s' : sys) : Prop := rtc (λ a b, sys_step a (Ret b)) s s'.

(** ** Measures of the thread pools *)

(** A pushing goroutine counted by [count]. *)
Definition counted (p : call * push_pc) : nat :=
  match p.2 with PCheck | PSelect _ | PExit _ => 1 | _ => 0 end.

Definition selecting (p : call * push_pc) : bool :=
  match p.2 with PSelect _ => true | _ => false end.

(** The tasks of a call accepted so far. *)
Definition accepted_by (p : call * push_pc) : list task :=
  match p.2 with
  | PEnter | PCheck => []
  | PSelect i => take i (call_tasks p.1)
  | PExit r | PReturned r => take r.1 (call_tasks p.1)
  end.

Definition accepted (s : sys) : list task := pushers s ≫= accepted_by.

Definition running (pc : work_pc) : list task :=
  match pc with WRun t => [t] | _ => [] end.

Definition alive (pc : work_pc) : nat := match pc with WExited => 0 | _ => 1 end.

(** The [Stop] that won the compare-and-swap, before and after its [close]. *)
Definition before_close (pc : stop_pc) : nat :=
  match pc with SWait | SClose => 1 | _ => 0 end.
Definition past_close (pc : stop_pc) : nat :=
  match pc with SJoin | SReturned true => 1 | _ => 0 end.
(** It has seen the counter at zero. *)
Definition sealed (pc : stop_pc) : bool :=
  match pc with SClose | SJoin | SReturned true => true | _ => false end.

(** A call that reports success has had all its tasks accepted. *)
Definition honest (p : call * push_pc) : Prop :=
  match p.2 with
  | PExit (n, None) | PReturned (n, None) => n = length (call_tasks p.1)
  | _ => True
  end.

Record inv (s : sys) : Prop := {
  inv_count : count (queue s) = Z.of_nat (sum_list_with counted (pushers s));
  inv_wg : wg (queue s) = Z.of_nat (sum_list_with alive (workers s));
  inv_winner : (sum_list_with before_close (stoppers s)
                + sum_list_with past_close (stoppers s)
                = if isStopped (queue s) then 1 else 0)%nat;
  inv_closed : sum_list_with past_close (stoppers s)
               = if cclosed (taskChan (queue s)) then 1%nat else 0%nat;
  inv_sealed pc : pc ∈ stoppers s → sealed pc = true →
             Forall (λ p, selecting p = false) (pushers s);
  inv_exited : WExited ∈ workers s →
             cclosed (taskChan (queue s)) = true ∧ buf (taskChan (queue s)) = [];
  inv_joined : SReturned true ∈ stoppers s → wg (queue s) = 0;
  inv_honest : Forall honest (pushers s);
  inv_bound : (length (buf (taskChan (queue s))) ≤ csize (taskChan (queue s)))%nat;
  inv_tasks : accepted s ≡ₚ
              buf (taskChan (queue s)) ++ (workers s ≫= running) ++ executed s
}.

(** ** The invariant *)

Lemma inv_init w b calls n : inv (init_sys (initialize w b) w calls n).
Proof.
  assert (Hz : ∀ f : stop_pc → nat, f SEnter = 0%nat →
    sum_list_with f (replicate n SEnter) = 0%nat).
  { intros f Hf. induction n; simpl; lia. }
  split; simpl; try done.
  - replace (sum_list_with _ _) with 0%nat; [done |]. by induction calls.
  - replace (sum_list_with _ _) with w; [done |]. induction w; simpl; congruence.
  - by rewrite !Hz.
  - by rewrite Hz.
  - intros pc [-> _]%elem_of_replicate. done.
  - by intros [? _]%elem_of_replicate.
  - by intros [? _]%elem_of_replicate.
  - apply Forall_fmap, Forall_true. done.
  - lia.
  - unfold accepted. simpl.
    assert (replicate w (@WRange) ≫= running = []) as -> by (induction w; done).
    by induction calls.
Qed.

(** The one thread that has passed the compare-and-swap is sealed once the
    channel is closed. *)
Lemma closed_sealed s :
  inv s → cclosed (taskChan (queue s)) = true →
  isStopped (queue s) = true ∧ Forall (λ p, selecting p = false) (pushers s).
Proof.
  intros Hi Hc. pose proof (inv_closed s Hi) as H1. pose proof (inv_winner s Hi) as H2.
  rewrite Hc in H1. split; [destruct (isStopped (queue s)); [done | lia] |].
  destruct (decide (Exists (λ pc, sealed pc = true) (stoppers s))) as [He | He].
  - apply Exists_exists in He as (pc & Hin & Hpc). by eapply inv_sealed.
  - exfalso. assert (sum_list_with past_close (stoppers s) = 0%nat); [| lia].
    clear -He. induction (stoppers s) as [|pc l IH]; [done |]. simpl.
    rewrite IH by (intros H; apply He; by right).
    destruct pc as [| | | |[]]; try done; destruct He; by left.
Qed.

(** No pushing goroutine is between its check and its return when the counter
    reads zero. *)
Lemma count_zero_unselecting s :
  inv s → count (queue s) = 0 → Forall (λ p, selecting p = false) (pushers s).
Proof.
  intros Hi H0. rewrite (inv_count s Hi) in H0.
  apply Forall_forall. intros p Hp.
  assert (counted p = 0%nat) as Hz by (eapply sum_list_with_0; [| done]; lia).
  unfold counted, selecting in *. by destruct (p.2).
Qed.

Lemma sealed_stopped s pc :
  inv s → pc ∈ stoppers s → sealed pc = true → isStopped (queue s) = true.
Proof.
  intros Hi [i Hl]%list_elem_of_lookup Hs. pose proof (inv_winner s Hi) as H.
  pose proof (sum_list_with_ge before_close _ _ _ Hl).
  pose proof (sum_list_with_ge past_close _ _ _ Hl).
  destruct pc as [| | | |[]], (isStopped (queue s)); simpl in *; done || lia.
Qed.

(** Replacing pushing goroutine [i] keeps the invariant if its counter
    contribution, its accepted tasks and the channel move together. *)
Lemma inv_push s i c pc pc' mq' sent :
  inv s → pushers s !! i = Some (c, pc) →
  count mq' = count (queue s) - Z.of_nat (counted (c, pc)) + Z.of_nat (counted (c, pc')) →
  wg mq' = wg (queue s) → isStopped mq' = isStopped (queue s) →
  cclosed (taskChan mq') = cclosed (taskChan (queue s)) →
  csize (taskChan mq') = csize (taskChan (queue s)) →
  buf (taskChan mq') = buf (taskChan (queue s)) ++ sent →
  (length (buf (taskChan mq')) ≤ csize (taskChan mq'))%nat →
  (sent ≠ [] → cclosed (taskChan mq') = false) →
  accepted_by (c, pc') = accepted_by (c, pc) ++ sent →
  honest (c, pc') →
  (selecting (c, pc') = true → selecting (c, pc) = true ∨ isStopped (queue s) = false) →
  inv (MkSys mq' (<[i := (c, pc')]> (pushers s)) (stoppers s) (workers s) (executed s)).
Proof.
  intros Hi Hl Hcount Hwg Hst Hcl Hcs Hbuf Hlen Hopen Hacc Hhon Hsel.
  split; simpl; rewrite ?Hwg, ?Hst, ?Hcl; try by apply Hi.
  - pose proof (sum_list_with_insert counted _ _ _ (c, pc') Hl).
    rewrite Hcount, (inv_count s Hi). lia.
  - intros q Hq Hs. pose proof (inv_sealed s Hi q Hq Hs) as Hf.
    apply Forall_insert; [done |]. destruct (selecting (c, pc')) eqn:E; [| done].
    destruct (Hsel eq_refl) as [E' | E'].
    + pose proof (Forall_lookup_1 _ _ _ _ Hf Hl). simpl in *. congruence.
    + rewrite (sealed_stopped s q Hi Hq Hs) in E'. done.
  - intros Hx. destruct (inv_exited s Hi Hx) as [Hc Hb]. split; [done |].
    rewrite Hbuf, Hb. destruct sent; [done |]. rewrite Hcl, Hc in Hopen.
    by discriminate Hopen.
  - apply Forall_insert; [apply Hi | done].
  - done.
  - destruct (bind_insert_perm accepted_by _ _ _ (c, pc') Hl) as (rest & H1 & H2).
    unfold accepted. cbn [pushers]. rewrite H2, Hacc, Hbuf.
    pose proof (inv_tasks s Hi) as Ht. unfold accepted in Ht. rewrite H1 in Ht.
    transitivity (sent ++ accepted_by (c, pc) ++ rest); [solve_Permutation |].
    rewrite Ht. solve_Permutation.
Qed.

Lemma push_inv s i b c pc r :
  inv s → pushers s !! i = Some (c, pc) → push_step b c pc (queue s) = Some r →
  ∃ mq' pc', r = Ret (mq', pc') ∧
    inv (MkSys mq' (<[i := (c, pc')]> (pushers s)) (stoppers s) (workers s) (executed s)).
Proof.
  intros Hi Hl Hs.
  destruct pc as [| |k|[n e]|]; simpl in Hs; [| | | |discriminate].
  - injection Hs as <-. do 2 eexists. split; [done |].
    eapply (inv_push s i c _ _ _ []); eauto; unfold counted; simpl; try done; try lia;
      rewrite ?app_nil_r; auto; apply Hi.
  - injection Hs as <-. do 2 eexists. split; [done |].
    destruct (isStopped (queue s)) eqn:E;
    (eapply (inv_push s i c _ _ _ []); eauto; unfold counted; simpl; try done; try lia;
      rewrite ?app_nil_r; auto; apply Hi).
  - destruct (call_tasks c !! k) as [t|] eqn:Hk; [destruct b |].
    + destruct (chan_send t (taskChan (queue s))) as [r'|] eqn:Hsend; [| discriminate].
      injection Hs as <-.
      assert (Hopen : cclosed (taskChan (queue s)) = false).
      { destruct (cclosed _) eqn:E; [| done].
        destruct (closed_sealed s Hi E) as [_ Hf].
        by pose proof (Forall_lookup_1 _ _ _ _ Hf Hl). }
      destruct (chan_send_open _ _ _ Hopen Hsend) as (ch & -> & Hb & Hcs & Hc & Hlen).
      do 2 eexists. split; [done |].
      eapply (inv_push s i c _ _ _ [t]); eauto; unfold counted; simpl; try done; try lia; try congruence.
      * rewrite Hb, length_app. simpl. lia.
      * unfold accepted_by. cbn [fst snd]. by rewrite (take_S_r _ _ _ Hk).
    + destruct (other_branch c (queue s)) as [e|]; [| discriminate].
      injection Hs as <-. do 2 eexists. split; [done |].
      eapply (inv_push s i c _ _ _ []); eauto; unfold counted; simpl; try done; try lia;
        rewrite ?app_nil_r; auto; apply Hi.
    + injection Hs as <-. do 2 eexists. split; [done |].
      apply lookup_ge_None in Hk.
      eapply (inv_push s i c _ _ _ []); eauto; unfold counted; simpl; try done; try lia;
        rewrite ?app_nil_r; auto; try apply Hi.
      unfold accepted_by. simpl. by rewrite !take_ge by lia.
  - injection Hs as <-. do 2 eexists. split; [done |].
    eapply (inv_push s i c _ _ _ []); eauto; unfold counted; simpl; try done; try lia;
      rewrite ?app_nil_r; auto; try apply Hi.
    by pose proof (Forall_lookup_1 _ _ _ _ (inv_honest s Hi) Hl).
Qed.

Lemma stop_inv s i pc r :
  inv s → stoppers s !! i = Some pc → stop_step pc (queue s) = Some r →
  ∃ mq' pc', r = Ret (mq', pc') ∧
    inv (MkSys mq' (pushers s) (<[i := pc']> (stoppers s)) (workers s) (executed s)).
Proof.
  intros Hi Hl Hs.
  pose proof (λ q, sum_list_with_insert before_close _ _ _ q Hl) as Hb.
  pose proof (λ q, sum_list_with_insert past_close _ _ _ q Hl) as Hp.
  pose proof (inv_winner s Hi) as Hw. pose proof (inv_closed s Hi) as Hc.
  pose proof (inv_sealed s Hi) as Hsl.
  assert (Hin : pc ∈ stoppers s) by (by eapply list_elem_of_lookup_2).
  assert (Hm : ∀ q q', q' ∈ <[i := q]> (stoppers s) → q' = q ∨ q' ∈ stoppers s).
  { intros q q' (j & Hj)%list_elem_of_lookup.
    apply list_lookup_insert_Some in Hj as [(_ & -> & _) | (_ & Hj)]; [by left | right].
    by eapply list_elem_of_lookup_2. }
  destruct pc as [| | | |]; simpl in Hs; [| | | | discriminate].
  - destruct (isStopped (queue s)) eqn:E; injection Hs as <-;
      (do 2 eexists; split; [done |]);
      [specialize (Hb (SReturned false)); specialize (Hp (SReturned false))
      |specialize (Hb SWait); specialize (Hp SWait)];
      (split; simpl; try by apply Hi);
      try (rewrite ?E; simpl in *; lia);
      try (intros q [-> | Hq]%Hm Hq'; [done | eauto]);
      try (intros [Hq | Hq]%Hm; [done | by apply Hi]).
  - destruct (Z.eqb_spec (count (queue s)) 0) as [E | E]; injection Hs as <-;
      (do 2 eexists; split; [done |]);
      [specialize (Hb SClose); specialize (Hp SClose)
      |specialize (Hb SWait); specialize (Hp SWait)];
      (split; simpl; try by apply Hi);
      try (simpl in *; lia);
      try (intros [Hq | Hq]%Hm; [done | by apply Hi]);
      (intros q [-> | Hq]%Hm Hq'; [| eauto]); [| done].
    by apply count_zero_unselecting.
  - assert (Hopen : cclosed (taskChan (queue s)) = false).
    { pose proof (sum_list_with_ge before_close _ _ _ Hl). simpl in *.
      destruct (cclosed _), (isStopped (queue s)); [lia..| done | done]. }
    unfold chan_close in Hs. rewrite Hopen in Hs, Hc. injection Hs as <-.
    do 2 eexists. split; [done |]. specialize (Hb SJoin). specialize (Hp SJoin).
    (split; simpl; try by apply Hi); try (simpl in *; lia).
    + intros q [-> | Hq]%Hm Hq'; [| eauto]. by apply (Hsl SClose).
    + intros Hx. by destruct (inv_exited s Hi Hx).
    + intros [Hq | Hq]%Hm; [done | by apply Hi].
  - destruct (Z.eqb_spec (wg (queue s)) 0) as [E | E]; [| discriminate].
    injection Hs as <-. do 2 eexists. split; [done |].
    specialize (Hb (SReturned true)). specialize (Hp (SReturned true)).
    (split; simpl; try by apply Hi); try (simpl in *; lia).
    intros q [-> | Hq]%Hm Hq'; [| eauto]. by apply (Hsl SJoin).
Qed.

Lemma work_inv s i pc mq' pc' fin :
  inv s → workers s !! i = Some pc → work_step pc (queue s) = Some (mq', pc', fin) →
  inv (MkSys mq' (pushers s) (stoppers s) (<[i := pc']> (workers s))
         (executed s ++ option_list fin)).
Proof.
  intros Hi Hl Hs.
  pose proof (sum_list_with_insert alive _ _ _ pc' Hl) as Ha.
  destruct (bind_insert_perm running _ _ _ pc' Hl) as (rest & H1 & H2).
  pose proof (inv_tasks s Hi) as Ht. pose proof (inv_bound s Hi) as Hlen.
  pose proof (inv_wg s Hi) as Hwg. rewrite H1 in Ht.
  assert (Hin : pc ∈ workers s) by (by eapply list_elem_of_lookup_2).
  assert (Hm : ∀ q', q' ∈ <[i := pc']> (workers s) → q' = pc' ∨ q' ∈ workers s).
  { intros q' (j & Hj)%list_elem_of_lookup.
    apply list_lookup_insert_Some in Hj as [(_ & -> & _) | (_ & Hj)]; [by left | right].
    by eapply list_elem_of_lookup_2. }
  destruct pc as [|t|]; simpl in Hs; [| | discriminate].
  - destruct (chan_recv (taskChan (queue s))) as [[[t|] ch]|] eqn:Hr; [| |discriminate];
      destruct (chan_recv_cases _ _ _ Hr) as (Hcs & Hcl & Hb);
      injection Hs as <- <- <-; simpl; rewrite ?app_nil_r.
    + split; simpl; rewrite ?Hcl; try by apply Hi.
      * rewrite Hwg. simpl in *. lia.
      * intros [? | Hq]%Hm; [done |]. destruct (inv_exited s Hi Hq). congruence.
      * rewrite Hcs. rewrite Hb in Hlen. simpl in Hlen. lia.
      * unfold accepted in *; cbn [pushers]. rewrite Ht, H2, Hb. solve_Permutation.
    + destruct Hb as (Hb & Hc & ->).
      split; simpl; try by apply Hi.
      * rewrite Hwg. simpl in *. lia.
      * done.
      * intros Hj. pose proof (inv_joined s Hi Hj). simpl in *. lia.
      * unfold accepted in *; cbn [pushers]. rewrite Ht, H2. solve_Permutation.
  - injection Hs as <- <- <-. split; simpl; try by apply Hi.
    + rewrite Hwg. simpl in *. lia.
    + intros [? | Hq]%Hm; [done |]. by apply (inv_exited s Hi).
    + unfold accepted in *; cbn [pushers]. rewrite Ht, H2. solve_Permutation.
Qed.

Lemma inv_step s r : inv s → sys_step s r → ∃ s', r = Ret s' ∧ inv s'.
Proof.
  intros Hi [i b c pc mq' pc' Hl Hs | i b c pc why Hl Hs | i pc mq' pc' Hl Hs
            | i pc why Hl Hs | i pc mq' pc' fin Hl Hs].
  - destruct (push_inv _ _ _ _ _ _ Hi Hl Hs) as (? & ? & [= <- <-] & ?). eauto.
  - by destruct (push_inv _ _ _ _ _ _ Hi Hl Hs) as (? & ? & ? & ?).
  - destruct (stop_inv _ _ _ _ Hi Hl Hs) as (? & ? & [= <- <-] & ?). eauto.
  - by destruct (stop_inv _ _ _ _ Hi Hl Hs) as (? & ? & ? & ?).
  - eexists. split; [done |]. by eapply work_inv.
Qed.

Lemma inv_reaches s s' : inv s → reaches s s' → inv s'.
Proof.
  intros Hi Hr. induction Hr as [|s1 s2 s3 Hs _ IH]; [done |].
  destruct (inv_step _ _ Hi Hs) as (? & [= <-] & ?). by apply IH.
Qed.

(** The number of workers never changes. *)
Lemma reaches_workers s s' : reaches s s' → length (workers s') = length (workers s).
Proof.
  intros Hr. induction Hr as [|s1 s2 s3 Hs _ IH]; [done |]. rewrite IH.
  inversion Hs; subst; simpl; by rewrite ?length_insert.
Qed.

Lemma NewMemoryQueue_inv w b mq calls n :
  NewMemoryQueue w b = Ret mq →
  (0 < Z.to_nat w)%nat ∧ inv (init_sys mq (Z.to_nat w) calls n).
Proof.
  unfold NewMemoryQueue. intros H. case_match; [done |]. reflect_tests.
  injection H as <-. split; [lia | apply inv_init].
Qed.

(** A worker that has not left, on a closed channel, can always take a step; a
    counted pushing goroutine can always take a step. *)
Lemma work_step_closed pc mq :
  pc ≠ WExited → cclosed (taskChan mq) = true → is_Some (work_step pc mq).
Proof.
  intros Hpc Hc. destruct pc; simpl; [| by eexists | done].
  unfold chan_recv. rewrite Hc. destruct (buf (taskChan mq)); by eexists.
Qed.

Lemma push_step_enabled c pc mq :
  counted (c, pc) = 1%nat → ∃ b, is_Some (push_step b c pc mq).
Proof.
  destruct pc as [| |k|r|r]; unfold counted; simpl; try done;
    intros _; try (by exists BrSend; eexists).
  destruct (call_tasks c !! k) as [t|] eqn:Hk; [| by exists BrSend; eexists].
  destruct (chan_send t (taskChan mq)) as [r|] eqn:E.
  - exists BrSend. simpl. rewrite ?E. by eexists.
  - exists BrOther. destruct c; simpl in *; try (by eexists).
    destruct k; simplify_eq/=. rewrite ?E. by eexists.
Qed.

(** ** Properties *)

(** C23. However pushes, stops and workers interleave, no goroutine ever sends on
    the closed task channel or closes it twice: no step of the queue panics. *)
Theorem memamq_never_panics w b calls n mq s why :
  NewMemoryQueue w b = Ret mq →
  reaches (init_sys mq (Z.to_nat w) calls n) s →
  ¬ sys_step s (Panic why).
Proof.
  intros Hnew Hr Hs. destruct (NewMemoryQueue_inv _ _ _ calls n Hnew) as [_ Hi].
  by destruct (inv_step _ _ (inv_reaches _ _ Hi Hr) Hs) as (? & ? & _).
Qed.

(** Nothing is lost or run twice: in every reachable state the tasks that
    the pushing calls had accepted are those waiting in the buffer, those a
    worker is running and those executed, a call reports success only once all
    its tasks were accepted, and the buffer never exceeds its capacity. *)
Theorem memamq_conserves w b calls n mq s :
  NewMemoryQueue w b = Ret mq →
  reaches (init_sys mq (Z.to_nat w) calls n) s →
  accepted s ≡ₚ buf (taskChan (queue s)) ++ (workers s ≫= running) ++ executed s ∧
  Forall honest (pushers s) ∧
  (length (buf (taskChan (queue s))) ≤ csize (taskChan (queue s)))%nat.
Proof.
  intros Hnew Hr. destruct (NewMemoryQueue_inv _ _ _ calls n Hnew) as [_ Hi].
  pose proof (inv_reaches _ _ Hi Hr) as Hi'. split_and!; apply Hi'.
Qed.

(** C1. [Stop] drains: once the effective [Stop] has returned, every task whose
    push was accepted has been executed exactly once, every worker has exited,
    and no pushing goroutine can send any more. *)
Theorem Stop_drains w b calls n mq s :
  NewMemoryQueue w b = Ret mq →
  reaches (init_sys mq (Z.to_nat w) calls n) s →
  SReturned true ∈ stoppers s →
  executed s ≡ₚ accepted s ∧ Forall (λ pc, pc = WExited) (workers s) ∧
  Forall (λ p, selecting p = false) (pushers s) ∧ isStopped (queue s) = true.
Proof.
  intros Hnew Hr Hst. destruct (NewMemoryQueue_inv _ _ _ calls n Hnew) as [Hw Hi].
  pose proof (inv_reaches _ _ Hi Hr) as Hi'.
  assert (Hall : Forall (λ pc, pc = WExited) (workers s)).
  { apply Forall_forall. intros pc Hpc. pose proof (inv_joined s Hi' Hst) as H0.
    rewrite (inv_wg s Hi') in H0.
    assert (alive pc = 0%nat); [| by destruct pc].
    eapply sum_list_with_0; [| done]. lia. }
  assert (WExited ∈ workers s) as Hx.
  { pose proof (reaches_workers _ _ Hr) as Hl. simpl in Hl. rewrite length_replicate in Hl.
    destruct (workers s) as [|pc l]; [simpl in Hl; lia |].
    apply Forall_cons in Hall as [-> _]. left. }
  destruct (inv_exited s Hi' Hx) as [Hc Hb].
  destruct (closed_sealed s Hi' Hc) as [Hs Hsel]. split_and!; [| done..].
  rewrite (inv_tasks s Hi'), Hb. simpl.
  assert (workers s ≫= running = []) as ->; [| done].
  clear -Hall. induction Hall as [|pc l -> _ IH]; [done | exact IH].
Qed.

(** [Stop] is never stuck for good: while it polls a non-zero counter some
    counted pushing goroutine can take a step, and while it waits for the
    workers some worker can. *)
Theorem Stop_progress w b calls n mq s :
  NewMemoryQueue w b = Ret mq →
  reaches (init_sys mq (Z.to_nat w) calls n) s →
  (count (queue s) ≠ 0 →
   ∃ i c pc br, pushers s !! i = Some (c, pc) ∧ is_Some (push_step br c pc (queue s))) ∧
  (SJoin ∈ stoppers s → wg (queue s) ≠ 0 →
   ∃ i pc, workers s !! i = Some pc ∧ is_Some (work_step pc (queue s))).
Proof.
  intros Hnew Hr. destruct (NewMemoryQueue_inv _ _ _ calls n Hnew) as [_ Hi].
  pose proof (inv_reaches _ _ Hi Hr) as Hi'. split.
  - rewrite (inv_count s Hi'). intros H0.
    destruct (sum_list_with_pos counted (pushers s)) as (i & [c pc] & Hl & Hp); [lia |].
    destruct (push_step_enabled c pc (queue s)) as [br Hbr].
    { unfold counted in *. simpl in *. destruct pc; lia. }
    by exists i, c, pc, br.
  - rewrite (inv_wg s Hi'). intros Hj H0.
    destruct (sum_list_with_pos alive (workers s)) as (i & pc & Hl & Hp); [lia |].
    exists i, pc. split; [done |]. apply work_step_closed; [intros ->; simpl in Hp; lia |].
    pose proof (inv_closed s Hi') as Hc. apply list_elem_of_lookup in Hj as [j Hj].
    pose proof (sum_list_with_ge past_close _ _ _ Hj). simpl in *.
    destruct (cclosed _); [done | lia].
Qed.
End memamq.

(** ** A concrete run: one worker, one slot, two pushes and a [Stop] *)

Definition demo_queue : MemoryQueue nat := initialize 1 1.
Definition demo_calls : list (@call nat) := [Push 7%nat; NotWaitPush 8%nat].

Definition demo_end : @sys nat :=
  MkSys (MkMemoryQueue (MkChan [] 1 true) 0 true 0)
    [(Push 7%nat, PReturned (1%nat, None)); (NotWaitPush 8%nat, PReturned (0%nat, Some ErrStop))]
    [SReturned true] [WExited] [7%nat].

Ltac run_push i b := eapply rtc_l; [eapply (step_push _ i b); reflexivity |]; simpl.
Ltac run_stop := eapply rtc_l; [eapply (step_stop _ 0); reflexivity |]; simpl.
Ltac run_work := eapply rtc_l; [eapply (step_work _ 0); reflexivity |]; simpl.

Lemma demo_reaches : reaches (init_sys demo_queue 1 demo_calls 1) demo_end.
Proof.
  unfold reaches, init_sys, demo_queue, initialize, demo_calls. simpl.
  run_push 0%nat BrSend. run_push 0%nat BrSend. run_push 0%nat BrSend. run_stop.
  run_push 1%nat BrSend. run_push 1%nat BrSend. run_push 1%nat BrSend.
  run_push 0%nat BrSend. run_push 0%nat BrSend.
  run_stop. run_stop. run_work. run_work. run_work. run_stop. apply rtc_refl.
Qed.

Lemma memamq_never_panics_witness : ¬ sys_step demo_end (Panic "close of closed channel").
Proof.
  eapply (memamq_never_panics 1 1 demo_calls 1); [reflexivity | exact demo_reaches].
Defined.

Lemma memamq_conserves_witness : accepted demo_end ≡ₚ [7%nat].
Proof.
  apply (memamq_conserves 1 1 demo_calls 1 demo_queue demo_end);
    [reflexivity | exact demo_reaches].
Defined.

Lemma Stop_drains_witness : executed demo_end ≡ₚ accepted demo_end.
Proof.
  apply (Stop_drains 1 1 demo_calls 1 demo_queue demo_end);
    [reflexivity | exact demo_reaches | by left].
Defined.

Definition demo_entered : @sys nat :=
  MkSys (MkMemoryQueue (MkChan [] 1 false) 1 false 1)
    [(Push 7%nat, PCheck); (NotWaitPush 8%nat, PEnter)] [SEnter] [WRange] [].

Lemma Stop_progress_witness :
  ∃ i c pc br, pushers demo_entered !! i = Some (c, pc) ∧
     is_Some (push_step br c pc (queue demo_entered)).
Proof.
  apply (Stop_progress 1 1 demo_calls 1 demo_queue demo_entered); [reflexivity | | done].
  unfold reaches, init_sys, demo_queue, initialize, demo_calls. simpl.
  run_push 0%nat BrSend. apply rtc_refl.
Defined.
