(* ===== verification/Float64.v ===== *)
(** * Go's [float64]

    IEEE 754 binary64 arithmetic through the Standard Library's executable
    specification (precision 53, exponent bound 1024), and the conversions
    between [int64] and [float64].  The group of lemmas at the end says that
    integers below 2^53 are represented, added and converted back exactly,
    which is what the rolling counters rely on. *)

From S2P Require Import Prelude.
From Stdlib Require Import Floats.SpecFloat.

Local Open Scope Z_scope.

Notation float64 := spec_float.

Definition f64_zero : float64 := S754_zero false.
Definition f64_add : float64 → float64 → float64 := SFadd 53 1024.
Definition f64_sub : float64 → float64 → float64 := SFsub 53 1024.
Definition f64_mul : float64 → float64 → float64 := SFmul 53 1024.
Definition f64_div : float64 → float64 → float64 := SFdiv 53 1024.
Definition f64_ltb : float64 → float64 → bool := SFltb.

(** [float64(i)]: round to nearest even. *)
Definition float64_of_int (i : Z) : float64 := binary_normalize 53 1024 i 0 false.

(** [m * 2^e] rounded toward minus infinity. *)
Definition scale_floor (m e : Z) : Z :=
  if 0 <=? e then m * 2 ^ e else m / 2 ^ (- e).

(** [int64(x)]: truncation toward zero.  Outside the range of [int64] Go leaves
    the value to the implementation; this is the amd64 one. *)
Definition int64_of_float (x : float64) : Z :=
  match x with
  | S754_finite s m e =>
      let z := scale_floor (Zpos m) e in
      let z := if s : bool then - z else z in
      if (- two63 <=? z) && (z <? two63) then z else - two63
  | S754_zero _ => 0
  | _ => - two63
  end.

Definition is_nan (x : float64) : bool :=
  match x with S754_nan => true | _ => false end.
Definition is_inf (sign : bool) (x : float64) : bool :=
  match x with S754_infinity s => Bool.eqb s sign | _ => false end.

(** [math.Max] and [math.Min] with their special cases. *)
Definition math_Max (x y : float64) : float64 :=
  if is_inf false x || is_inf false y then S754_infinity false
  else if is_nan x || is_nan y then S754_nan
  else match x, y with
       | S754_zero s, S754_zero _ => if s then y else x
       | _, _ => if f64_ltb y x then x else y
       end.

Definition math_Min (x y : float64) : float64 :=
  if is_inf true x || is_inf true y then S754_infinity true
  else if is_nan x || is_nan y then S754_nan
  else match x, y with
       | S754_zero s, S754_zero _ => if s then x else y
       | _, _ => if f64_ltb x y then x else y
       end.

(** [math.Floor] and [math.Ceil]. *)
Definition math_Floor (x : float64) : float64 :=
  match x with
  | S754_finite s m e =>
      binary_normalize 53 1024 (scale_floor (if s then Zneg m else Zpos m) e) 0 s
  | _ => x
  end.

Definition math_Ceil (x : float64) : float64 := SFopp (math_Floor (SFopp x)).

(** [math.MaxFloat64]. *)
Definition math_MaxFloat64 : float64 := S754_finite false 9007199254740991 971.

(** ** Integers below 2^53 are exact *)

(** The float that represents [z] when [|z| < 2^53]: a 53-bit mantissa. *)
Definition mantissa (p : positive) : positive :=
  Pos.shiftl p (Z.to_N (53 - Zpos (digits2_pos p))).

Definition exact (z : Z) : float64 :=
  match z with
  | Z0 => S754_zero false
  | Zpos p => S754_finite false (mantissa p) (Zpos (digits2_pos p) - 53)
  | Zneg p => S754_finite true (mantissa p) (Zpos (digits2_pos p) - 53)
  end.

Lemma digits2_log2 p : Zpos (digits2_pos p) = Z.log2 (Zpos p) + 1.
Proof.
  assert (∀ q, digits2_pos q = Pos.size q) as -> by (induction q; simpl; congruence).
  destruct p; simpl; lia.
Qed.

Lemma shiftl_pow2 p n : Zpos (Pos.shiftl p n) = Zpos p * 2 ^ Z.of_N n.
Proof.
  replace (Zpos (Pos.shiftl p n)) with (Z.of_N (N.shiftl (Npos p) n)) by (by destruct n).
  rewrite N.shiftl_mul_pow2, N2Z.inj_mul, N2Z.inj_pow. done.
Qed.

Lemma iter_xO p d : Zpos (Pos.iter xO p d) = Zpos p * 2 ^ Zpos d.
Proof.
  change (Pos.iter xO p d) with (Pos.shiftl p (Npos d)). by rewrite shiftl_pow2.
Qed.

Lemma digits2_mul_pow2 p q k :
  0 ≤ k → Zpos q = Zpos p * 2 ^ k → Zpos (digits2_pos q) = Zpos (digits2_pos p) + k.
Proof.
  intros Hk Hq. rewrite !digits2_log2, Hq, Z.log2_mul_pow2 by lia. lia.
Qed.

Lemma iter_pos_iter {A} (f : A → A) n x :
  SpecFloat.iter_pos f n x = Nat.iter (Pos.to_nat n) f x.
Proof.
  revert x. induction n as [n IH|n IH|]; intros x; cbn [SpecFloat.iter_pos]; [| | done].
  - rewrite !IH, <- Nat.iter_add, Pos2Nat.inj_xI, Nat.iter_succ_r. f_equal. lia.
  - rewrite !IH, Pos2Nat.inj_xO. rewrite <- Nat.iter_add. f_equal. lia.
Qed.

Definition clean (m : Z) : shr_record := Build_shr_record m false false.

Lemma shr_exact p n :
  Nat.iter n shr_1 (clean (Zpos p * 2 ^ Z.of_nat n)) = clean (Zpos p).
Proof.
  induction n as [|n IH]; [simpl; f_equal; lia |].
  rewrite Nat.iter_succ_r.
  replace (Zpos p * 2 ^ Z.of_nat (S n)) with (2 * (Zpos p * 2 ^ Z.of_nat n))
    by (rewrite Nat2Z.inj_succ, Z.pow_succ_r by lia; lia).
  assert (∃ q, Zpos p * 2 ^ Z.of_nat n = Zpos q) as [q Hq].
  { exists (Z.to_pos (Zpos p * 2 ^ Z.of_nat n)). rewrite Z2Pos.id; [done |]. nia. }
  rewrite <- IH. rewrite Hq. done.
Qed.

(** Rounding a mantissa that needs no rounding. *)
Lemma round_aux_exact s p m e n :
  Zpos (digits2_pos p) = 53 → 0 ≤ n → Zpos m = Zpos p * 2 ^ n → -1074 ≤ e + n ≤ 971 →
  binary_round_aux 53 1024 s (Zpos m) e loc_Exact = S754_finite s p (e + n).
Proof.
  intros Hp Hn Hm He. unfold binary_round_aux.
  assert (shr_fexp 53 1024 (Zpos m) e loc_Exact = (clean (Zpos p), e + n)) as ->.
  { unfold shr_fexp. simpl Zdigits2. rewrite (digits2_mul_pow2 p m n Hn Hm), Hp.
    unfold fexp, emin.
    replace (Z.max (53 + n + e - 53) (3 - 1024 - 53) - e) with n by lia.
    unfold shr. simpl shr_record_of_loc. fold (clean (Zpos m)). rewrite Hm.
    destruct n as [|n|n]; [| |lia].
    - rewrite Z.mul_1_r, Z.add_0_r. done.
    - rewrite iter_pos_iter, <- (shr_exact p (Pos.to_nat n)).
      by rewrite positive_nat_Z. }
  simpl round_nearest_even.
  assert (shr_fexp 53 1024 (Zpos p) (e + n) loc_Exact = (clean (Zpos p), e + n)) as ->.
  { unfold shr_fexp. simpl Zdigits2. rewrite Hp. unfold fexp, emin.
    by replace (Z.max (53 + (e + n) - 53) (3 - 1024 - 53) - (e + n)) with 0 by lia. }
  simpl. destruct (Z.leb_spec (e + n) (1024 - 53)); [done | lia].
Qed.

Lemma digits_le_53 p : Zpos p < 2 ^ 53 → 1 ≤ Zpos (digits2_pos p) ≤ 53.
Proof.
  intros Hp. rewrite digits2_log2. pose proof (Z.log2_nonneg (Zpos p)).
  assert (Z.log2 (Zpos p) < 53) by (apply Z.log2_lt_pow2; lia). lia.
Qed.

Lemma mantissa_val p :
  Zpos p < 2 ^ 53 → Zpos (mantissa p) = Zpos p * 2 ^ (53 - Zpos (digits2_pos p)).
Proof.
  intros Hp%digits_le_53. unfold mantissa. rewrite shiftl_pow2.
  rewrite Z2N.id by lia. done.
Qed.

Lemma mantissa_digits p : Zpos p < 2 ^ 53 → Zpos (digits2_pos (mantissa p)) = 53.
Proof.
  intros Hp. pose proof (digits_le_53 p Hp).
  rewrite (digits2_mul_pow2 p _ (53 - Zpos (digits2_pos p))); [lia.. | by apply mantissa_val].
Qed.

Lemma binary_round_exact s p m k :
  Zpos p < 2 ^ 53 → 0 ≤ k ≤ 1000 → Zpos m = Zpos p * 2 ^ k →
  binary_round 53 1024 s m (- k)
  = S754_finite s (mantissa p) (Zpos (digits2_pos p) - 53).
Proof.
  intros Hp Hk Hm. pose proof (digits_le_53 p Hp) as Hd.
  pose proof (mantissa_val p Hp) as Hv. pose proof (mantissa_digits p Hp) as Hmd.
  unfold binary_round. rewrite (digits2_mul_pow2 p m k) by lia.
  set (d := Zpos (digits2_pos p)) in *. unfold fexp, emin.
  replace (Z.max (d + k + - k - 53) (3 - 1024 - 53)) with (d - 53) by lia.
  unfold shl_align.
  destruct (d - 53 - - k) as [|q|q] eqn:E.
  - rewrite (round_aux_exact s (mantissa p) m (- k) 0); [f_equal; lia | done | lia | | lia].
    rewrite Hm, Hv, Z.mul_1_r. do 2 f_equal. lia.
  - rewrite (round_aux_exact s (mantissa p) m (- k) (Zpos q)); [f_equal; lia | done | lia | | lia].
    rewrite Hm, Hv, <- Z.mul_assoc, <- Z.pow_add_r by lia. do 2 f_equal. lia.
  - rewrite (round_aux_exact s (mantissa p) (Pos.iter xO m q) (d - 53) 0);
      [f_equal; lia | done | lia | | lia].
    rewrite iter_xO, Hm, Hv, Z.mul_1_r, <- Z.mul_assoc, <- Z.pow_add_r by lia.
    do 2 f_equal. lia.
Qed.

Lemma normalize_exact z k :
  Z.abs z < 2 ^ 53 → 0 ≤ k ≤ 1000 →
  binary_normalize 53 1024 (z * 2 ^ k) (- k) false = exact z.
Proof.
  intros Hz Hk. assert (∀ p, ∃ m, Zpos p * 2 ^ k = Zpos m) as Hpos.
  { intros p. exists (Z.to_pos (Zpos p * 2 ^ k)). rewrite Z2Pos.id; [done | nia]. }
  destruct z as [|p|p]; [done | |].
  - destruct (Hpos p) as [m Hm]. rewrite Hm. simpl.
    by apply binary_round_exact; [lia.. | rewrite Hm].
  - destruct (Hpos p) as [m Hm].
    replace (Zneg p * 2 ^ k) with (Zneg m) by lia. simpl.
    by apply binary_round_exact; [lia.. | rewrite Hm].
Qed.

(** The conversion of an integer below 2^53 is exact. *)
Lemma float64_of_int_exact z : Z.abs z < 2 ^ 53 → float64_of_int z = exact z.
Proof.
  intros Hz. unfold float64_of_int. rewrite <- (normalize_exact z 0 Hz) by lia.
  f_equal; lia.
Qed.

(** Truncation recovers it. *)
Lemma int64_of_exact z : Z.abs z < 2 ^ 53 → int64_of_float (exact z) = z.
Proof.
  assert (∀ p, Zpos p < 2 ^ 53 →
    scale_floor (Zpos (mantissa p)) (Zpos (digits2_pos p) - 53) = Zpos p) as Hs.
  { intros p Hp. pose proof (digits_le_53 p Hp) as Hd. pose proof (mantissa_val p Hp) as Hv.
    unfold scale_floor. destruct (Z.leb_spec 0 (Zpos (digits2_pos p) - 53)).
    - rewrite Hv. replace (Zpos (digits2_pos p)) with 53 by lia. simpl (2 ^ _). lia.
    - rewrite Hv. replace (- (Zpos (digits2_pos p) - 53)) with (53 - Zpos (digits2_pos p)) by lia.
      apply Z.div_mul. lia. }
  unfold int64_of_float, two63. intros Hz. destruct z as [|p|p]; simpl exact; [done | |];
    cbv iota; rewrite Hs by lia; case_match; reflect_tests; try lia;
    match goal with H : _ = false |- _ => apply andb_false_iff in H as [H | H] end;
    reflect_tests; lia.
Qed.

Definition signed (s : bool) (p : positive) : Z := if s then Zneg p else Zpos p.

Lemma exact_signed s p :
  exact (signed s p) = S754_finite s (mantissa p) (Zpos (digits2_pos p) - 53).
Proof. by destruct s. Qed.

Lemma shl_align_val p e :
  Zpos p < 2 ^ 53 → e ≤ Zpos (digits2_pos p) - 53 →
  Zpos (shl_align (mantissa p) (Zpos (digits2_pos p) - 53) e).1 = Zpos p * 2 ^ (- e).
Proof.
  intros Hp He. pose proof (digits_le_53 p Hp) as Hd. unfold shl_align.
  destruct (e - (Zpos (digits2_pos p) - 53)) as [|q|q] eqn:E; simpl; [| lia |].
  - rewrite (mantissa_val p Hp). do 2 f_equal. lia.
  - rewrite iter_xO, (mantissa_val p Hp), <- Z.mul_assoc, <- Z.pow_add_r by lia.
    do 2 f_equal. lia.
Qed.

(** Addition of exact integers is exact while the sum stays below 2^53. *)
Lemma f64_add_exact a b :
  Z.abs a < 2 ^ 53 → Z.abs b < 2 ^ 53 → Z.abs (a + b) < 2 ^ 53 →
  f64_add (exact a) (exact b) = exact (a + b).
Proof.
  intros Ha Hb Hab.
  assert (∀ z, z = 0 ∨ ∃ s p, z = signed s p) as Hcase.
  { intros [|p|p]; [by left | right; by exists false, p | right; by exists true, p]. }
  destruct (Hcase a) as [-> | (sa & pa & ->)]; [by destruct b |].
  destruct (Hcase b) as [-> | (sb & pb & ->)].
  { rewrite Z.add_0_r. by destruct sa. }
  assert (Zpos pa < 2 ^ 53) as Hpa by (by destruct sa).
  assert (Zpos pb < 2 ^ 53) as Hpb by (by destruct sb).
  pose proof (digits_le_53 pa Hpa). pose proof (digits_le_53 pb Hpb).
  rewrite !exact_signed. unfold f64_add, SFadd.
  set (e := Z.min (Zpos (digits2_pos pa) - 53) (Zpos (digits2_pos pb) - 53)).
  assert (∀ s p, e ≤ Zpos (digits2_pos p) - 53 → Zpos p < 2 ^ 53 →
    cond_Zopp s (Zpos (shl_align (mantissa p) (Zpos (digits2_pos p) - 53) e).1)
    = signed s p * 2 ^ (- e)) as Hsh.
  { intros s p He Hp. rewrite (shl_align_val p e Hp He). destruct s; simpl; lia. }
  rewrite !Hsh by lia. rewrite <- Z.mul_add_distr_r.
  rewrite <- (normalize_exact (signed sa pa + signed sb pb) (- e)) by lia.
  f_equal. lia.
Qed.

Lemma digits_lt p q : Zpos (digits2_pos p) < Zpos (digits2_pos q) → Zpos p < Zpos q.
Proof.
  rewrite !digits2_log2. intros H. destruct (Z.lt_ge_cases (Zpos p) (Zpos q)) as [|Hge]; [done |].
  pose proof (Z.log2_le_mono (Zpos q) (Zpos p) Hge). lia.
Qed.

(** Comparing two positive canonical floats compares the integers. *)
Lemma compare_exact_pos p q :
  Zpos p < 2 ^ 53 → Zpos q < 2 ^ 53 →
  match Zpos (digits2_pos p) - 53 ?= Zpos (digits2_pos q) - 53 with
  | Lt => Lt | Gt => Gt | Eq => Pos.compare_cont Eq (mantissa p) (mantissa q)
  end = (Zpos p ?= Zpos q).
Proof.
  intros Hp Hq. destruct (Z.compare_spec (Zpos (digits2_pos p) - 53) (Zpos (digits2_pos q) - 53)).
  - change (Pos.compare_cont Eq (mantissa p) (mantissa q))
      with (Zpos (mantissa p) ?= Zpos (mantissa q)).
    rewrite !mantissa_val by done.
    replace (Zpos (digits2_pos q)) with (Zpos (digits2_pos p)) by lia.
    pose proof (digits_le_53 p Hp). symmetry. apply Zmult_compare_compat_r. lia.
  - symmetry. apply Z.compare_lt_iff, digits_lt. lia.
  - symmetry. apply Z.compare_gt_iff, digits_lt. lia.
Qed.

Lemma f64_ltb_exact a b :
  Z.abs a < 2 ^ 53 → Z.abs b < 2 ^ 53 → f64_ltb (exact a) (exact b) = (a <? b).
Proof.
  intros Ha Hb. unfold f64_ltb, SFltb, SFcompare.
  destruct a as [|p|p], b as [|q|q]; simpl exact; cbv iota; try done.
  - rewrite (compare_exact_pos p q) by lia. unfold Z.ltb. by destruct (_ ?= _).
  - pose proof (compare_exact_pos p q ltac:(lia) ltac:(lia)) as Hc. unfold Z.ltb.
    change (Zneg p ?= Zneg q) with (CompOpp (Zpos p ?= Zpos q)).
    rewrite <- Hc.
    destruct (Zpos (digits2_pos p) - 53 ?= Zpos (digits2_pos q) - 53);
      [by destruct (Pos.compare_cont _ _ _) | done | done].
Qed.

Lemma div_eucl_exact a b : 0 < b → Z.div_eucl (a * b) b = (a, 0).
Proof.
  intros Hb. pose proof (Z.div_mul a b ltac:(lia)) as Hq. pose proof (Z.mod_mul a b ltac:(lia)) as Hr.
  unfold Z.div in Hq. unfold Z.modulo in Hr. destruct (Z.div_eucl (a * b) b). by subst.
Qed.

(** An integer quotient without remainder is exact. *)
Lemma f64_div_exact q b :
  0 < b → Z.abs (q * b) < 2 ^ 53 → f64_div (exact (q * b)) (exact b) = exact q.
Proof.
  intros Hb Hab. destruct b as [|b|b]; [lia | | lia].
  assert (q = 0 ∨ ∃ s p, q = signed s p) as [-> | (s & p & ->)]; [| done |].
  { destruct q as [|p|p]; [by left | right; by exists false, p | right; by exists true, p]. }
  assert (signed s p * Zpos b = signed s (p * b)) as -> by (by destruct s).
  assert (Zpos (p * b) < 2 ^ 53) as Hpb by (destruct s; simpl in *; lia).
  assert (Zpos b < 2 ^ 53) as Hbb by nia. assert (Zpos p < 2 ^ 53) as Hpp by nia.
  pose proof (digits_le_53 _ Hpb). pose proof (digits_le_53 _ Hbb). pose proof (digits_le_53 _ Hpp).
  assert (Zpos (digits2_pos (p * b)) ≤ Zpos (digits2_pos p) + Zpos (digits2_pos b)) as Hd.
  { rewrite !digits2_log2. pose proof (Z.log2_mul_above (Zpos p) (Zpos b) ltac:(lia) ltac:(lia)). simpl in *. lia. }
  rewrite !exact_signed. assert (exact (Zpos b) = S754_finite false (mantissa b) (Zpos (digits2_pos b) - 53)) as -> by done.
  unfold f64_div, SFdiv, SFdiv_core_binary. simpl Zdigits2. rewrite !mantissa_digits by done.
  set (da := Zpos (digits2_pos (p * b))) in *. set (db := Zpos (digits2_pos b)) in *. set (dp := Zpos (digits2_pos p)) in *.
  unfold fexp, emin.
  replace (Z.min (Z.max (53 + (da - 53) - (53 + (db - 53)) - 53) (3 - 1024 - 53)) (da - 53 - (db - 53))) with (da - db - 53) by lia.
  replace (da - 53 - (db - 53) - (da - db - 53)) with 53 by lia. cbv iota.
  rewrite Z.shiftl_mul_pow2, mantissa_val by (done || lia). fold da.
  replace (Zpos (p * b) * 2 ^ (53 - da) * 2 ^ 53) with (Zpos p * 2 ^ (53 + db - da) * Zpos (mantissa b)).
  2: { rewrite mantissa_val by done. fold db.
       assert (2 ^ (53 + db - da) * 2 ^ (53 - db) = 2 ^ (53 - da) * 2 ^ 53) as He.
       { rewrite <- !Z.pow_add_r by lia. f_equal. lia. }
       transitivity (Zpos (p * b) * (2 ^ (53 + db - da) * 2 ^ (53 - db))); [rewrite Pos2Z.inj_mul; ring |].
       rewrite He. ring. }
  rewrite div_eucl_exact by lia. rewrite xorb_false_r.
  assert (new_location (Zpos (mantissa b)) 0 = loc_Exact) as ->.
  { unfold new_location, new_location_even, new_location_odd. by destruct (Z.even _). }
  assert (∃ m, Zpos p * 2 ^ (53 + db - da) = Zpos m) as [m Hm].
  { exists (Z.to_pos (Zpos p * 2 ^ (53 + db - da))). rewrite Z2Pos.id; [done | nia]. }
  rewrite Hm, (round_aux_exact s (mantissa p) m (da - db - 53) (dp + db - da)).
  - fold dp. f_equal. lia.
  - by apply mantissa_digits.
  - lia.
  - rewrite <- Hm, mantissa_val by done. fold dp. rewrite <- Z.mul_assoc, <- Z.pow_add_r by lia. do 2 f_equal. lia.
  - lia.
Qed.
