(* ===== verification/Window.v ===== *)
(** * Rolling windows (stability/internal/window)

    A ring of buckets of [float64] points, rolled by the clock.  The bucket
    pointers [next] and [cur] are indices into the ring's backing array; the
    clock is an argument in nanoseconds.  [RollingWindow.Add] takes the write
    lock and [Reduce] the read lock, so that each is one step; [Reduce] still
    writes [lastUpdateTime] (see [timespan]).  Loops over an iterator carry
    fuel: [None] means that they ran out of it. *)

From S2P Require Import Prelude Float64.

Local Open Scope Z_scope.
Local Open Scope go_scope.

(** ** Buckets (bucket.go) *)

Record Bucket := MkBucket {
  Points : list float64;
  BucketCount : Z;
  next : nat
}.

Definition NewBucket : Bucket := MkBucket [] 0 0.

Definition Bucket_Append (val : float64) (b : Bucket) : Bucket :=
  MkBucket (Points b ++ [val]) (BucketCount b + 1) (next b).

Definition Bucket_Add (offset : Z) (val : float64) (b : Bucket) : outcome Bucket :=
  let! p := slice_get (Points b) offset in
  Ret (MkBucket (<[Z.to_nat offset := f64_add p val]> (Points b)) (BucketCount b + 1) (next b)).

Definition Bucket_Reset (b : Bucket) : Bucket := MkBucket [] 0 (next b).

(** ** Windows (windows.go) *)

Record Window := MkWindow { buckets : list Bucket; size : Z }.

Definition NewWindow (size : Z) : outcome Window :=
  if size <? 0 then Panic "makeslice: len out of range"
  else Ret (MkWindow
    ((λ offset, MkBucket [] 0
        (if Z.of_nat (offset + 1) =? size then 0%nat else (offset + 1)%nat))
     <$> seq 0 (Z.to_nat size)) size).

(** [&w.buckets[offset%w.size]]. *)
Definition bucket_index (w : Window) (offset : Z) : outcome nat :=
  if size w =? 0 then Panic "integer divide by zero"
  else let i := Z.rem offset (size w) in
       let! _ := slice_get (buckets w) i in Ret (Z.to_nat i).

Definition update_bucket (f : Bucket → Bucket) (offset : Z) (w : Window) : outcome Window :=
  let! i := bucket_index w offset in Ret (MkWindow (alter f i (buckets w)) (size w)).

Definition ResetBucket : Z → Window → outcome Window := update_bucket Bucket_Reset.

(** [for i := range count { w.ResetBucket(offset + i) }]. *)
Fixpoint reset_from (n : nat) (offset : Z) (w : Window) : outcome Window :=
  match n with
  | O => Ret w
  | S n' => let! w := ResetBucket offset w in reset_from n' (offset + 1) w
  end.

Definition ResetBuckets (offset count : Z) (w : Window) : outcome Window :=
  reset_from (Z.to_nat count) offset w.

Definition ResetWindow (w : Window) : outcome Window :=
  reset_from (length (buckets w)) 0 w.

Definition Append (offset : Z) (val : float64) : Window → outcome Window :=
  update_bucket (Bucket_Append val) offset.

Definition Window_Bucket (w : Window) (offset : Z) : outcome Bucket :=
  let! i := bucket_index w offset in of_nil_check (buckets w !! i).

Definition Window_Add (offset : Z) (val : float64) (w : Window) : outcome Window :=
  let! b := Window_Bucket w offset in
  if BucketCount b =? 0 then update_bucket (Bucket_Append val) offset w
  else let! b' := Bucket_Add 0 val b in update_bucket (λ _, b') offset w.

(** ** Iterators (iterator.go) *)

Record Iterator := MkIterator {
  count : Z;
  iteratedCount : Z;
  cur : nat;
  source : list Bucket
}.

Definition Window_Iterator (w : Window) (offset count : Z) : outcome Iterator :=
  let! i := bucket_index w offset in Ret (MkIterator count 0 i (buckets w)).

Definition Next (it : Iterator) : bool := negb (count it =? iteratedCount it).

Definition Iterator_Bucket (it : Iterator) : outcome (Bucket * Iterator) :=
  if negb (Next it) then Panic "window: iteration out of range"
  else let! b := of_nil_check (source it !! cur it) in
       Ret (b, MkIterator (count it) (iteratedCount it + 1) (next b) (source it)).

(** [for iterator.Next() && go { bucket := iterator.Bucket(); body }]. *)
Fixpoint each_bucket {R} (fuel : nat) (go : R → bool) (body : R → Bucket → R)
    (it : Iterator) (s : R) : option (outcome R) :=
  if Next it && go s then
    match fuel with
    | O => None
    | S fuel' =>
        match Iterator_Bucket it with
        | Panic why => Some (Panic why)
        | Ret (b, it') => each_bucket fuel' go body it' (body s b)
        end
    end
  else Some (Ret s).

Definition all_buckets {R} (body : R → Bucket → R) (it : Iterator) (s : R)
    : option (outcome R) :=
  each_bucket (Z.to_nat (count it)) (λ _, true) body it s.

(** ** Aggregations (aggregations.go) *)

Definition then_ret {R T} (f : R → T) (m : option (outcome R)) : option (outcome T) :=
  (λ o, let! s := o in Ret (f s)) <$> m.

Definition Sum (it : Iterator) : option (outcome float64) :=
  all_buckets (λ sum b, fold_left f64_add (Points b) sum) it f64_zero.

Definition Avg (it : Iterator) : option (outcome float64) :=
  then_ret (λ '(sum, n), if n =? 0 then f64_zero else f64_div sum (float64_of_int n))
    (all_buckets (λ st b,
       fold_left (λ '(sum, n) p, (f64_add sum p, n + 1)) (Points b) st)
       it (f64_zero, 0)).

Definition max_step '(max, initialized) (p : float64) : float64 * bool :=
  if negb initialized then (p, true)
  else if f64_ltb max p then (p, initialized) else (max, initialized).

Definition Max (it : Iterator) : option (outcome float64) :=
  then_ret fst (all_buckets (λ st b, fold_left max_step (Points b) st) it (f64_zero, false)).

Definition min_step '(min, initialized) (p : float64) : float64 * bool :=
  if negb initialized then (p, true)
  else if f64_ltb p min then (p, initialized) else (min, initialized).

Definition Min (it : Iterator) : option (outcome float64) :=
  then_ret fst (all_buckets (λ st b, fold_left min_step (Points b) st) it (f64_zero, false)).

Definition Count (it : Iterator) : option (outcome float64) :=
  then_ret float64_of_int (all_buckets (λ n b, n + BucketCount b) it 0).

(** ** Rolling windows (policy.go) *)

Record RollingWindow := MkRollingWindow {
  window : Window;
  offset : Z;
  bucketDuration : Z;
  lastUpdateTime : Z
}.

Definition NewRollingWindow (sz bucketDuration now : Z) : outcome RollingWindow :=
  let! w := NewWindow sz in Ret (MkRollingWindow w 0 bucketDuration now).

(** [t.Sub(u)] saturates at the bounds of [time.Duration]. *)
Definition time_sub (t u : Z) : Z := Z.max (- two63) (Z.min (two63 - 1) (t - u)).

Definition timespan (now : Z) (r : RollingWindow) : outcome (RollingWindow * Z) :=
  let duration := time_sub now (lastUpdateTime r) in
  if bucketDuration r =? 0 then Panic "integer divide by zero"
  else
    let span := wrap64 (Z.quot duration (bucketDuration r)) in
    if 0 <? span then
      Ret (MkRollingWindow (window r) (offset r) (bucketDuration r)
             (lastUpdateTime r + (span *i bucketDuration r)), span)
    else Ret (r, span).

Definition roll (span : Z) (r : RollingWindow) : outcome RollingWindow :=
  if 0 <? span then
    if size (window r) <=? span then
      let! w := ResetWindow (window r) in
      Ret (MkRollingWindow w 0 (bucketDuration r) (lastUpdateTime r))
    else
      let! w := ResetBuckets (offset r + 1) span (window r) in
      Ret (MkRollingWindow w (Z.rem (offset r + span) (size w)) (bucketDuration r)
             (lastUpdateTime r))
  else Ret r.

Definition RollingWindow_Add (now : Z) (val : float64) (r : RollingWindow)
    : outcome RollingWindow :=
  let! (r, span) := timespan now r in
  let! r := roll span r in
  let! w := Append (offset r) val (window r) in
  Ret (MkRollingWindow w (offset r) (bucketDuration r) (lastUpdateTime r)).

(** [Reduce] with a callback that computes an [R]; [expired] is the result when
    the callback is not run. *)
Definition Reduce {R} (now : Z) (expired : R) (f : Iterator → option (outcome R))
    (r : RollingWindow) : option (outcome (RollingWindow * R)) :=
  match timespan now r with
  | Panic why => Some (Panic why)
  | Ret (r, span) =>
      let sz := size (window r) in
      if (0 <? span) && (sz <=? span) then Some (Ret (r, expired))
      else
        let validCount := if sz <=? span then 0 else sz - span in
        if sz =? 0 then Some (Panic "integer divide by zero")
        else match Window_Iterator (window r) (Z.rem (offset r + span + 1) sz) validCount with
             | Panic why => Some (Panic why)
             | Ret it => then_ret (λ s, (r, s)) (f it)
             end
  end.

(** ** Rolling counters and gauges (metrics.go) *)

Definition Counter_Add (now val : Z) (r : RollingWindow) : outcome RollingWindow :=
  RollingWindow_Add now (float64_of_int val) r.

Definition Reduce_float (now : Z) (f : Iterator → option (outcome float64)) (r : RollingWindow)
    : option (outcome (RollingWindow * float64)) := Reduce now f64_zero f r.

Definition Counter_Min now r := Reduce_float now Min r.
Definition Counter_Max now r := Reduce_float now Max r.
Definition Counter_Avg now r := Reduce_float now Avg r.
Definition Counter_Sum now r := Reduce_float now Sum r.

Definition Counter_Value (now : Z) (r : RollingWindow) : option (outcome (RollingWindow * Z)) :=
  then_ret (λ '(r, x), (r, int64_of_float x)) (Counter_Sum now r).

(** The gauge has the same operations over a window of its own, and the latest value. *)
Definition Gauge_Add (now val : Z) (r : RollingWindow) : outcome RollingWindow :=
  RollingWindow_Add now (float64_of_int val) r.

Definition Gauge_Min now r := Reduce_float now Min r.
Definition Gauge_Max now r := Reduce_float now Max r.
Definition Gauge_Avg now r := Reduce_float now Avg r.
Definition Gauge_Sum now r := Reduce_float now Sum r.

Definition Gauge_Value (now : Z) (r : RollingWindow) : option (outcome (RollingWindow * Z)) :=
  then_ret (λ '(r, x), (r, int64_of_float x)) (Gauge_Sum now r).

Definition Gauge_Latest (r : RollingWindow) : outcome float64 :=
  if size (window r) =? 0 then Ret f64_zero
  else let! b := Window_Bucket (window r) (offset r) in
       if BucketCount b =? 0 then Ret f64_zero
       else slice_get (Points b) (Z.of_nat (length (Points b)) - 1).

(** ** Specification: the window as a list of slots, oldest first *)

(** The ring read from index [i], [n] buckets long. *)
Definition along (bs : list Bucket) (i n : nat) : list Bucket :=
  (λ j, default NewBucket (bs !! ((i + j) `mod` length bs)%nat)) <$> seq 0 n.

Record wf (r : RollingWindow) : Prop := {
  wf_size : 0 < size (window r);
  wf_len : Z.of_nat (length (buckets (window r))) = size (window r);
  wf_offset : 0 ≤ offset r < size (window r);
  wf_bucket i b : buckets (window r) !! i = Some b →
    next b = (S i `mod` length (buckets (window r)))%nat ∧
    BucketCount b = Z.of_nat (length (Points b));
  wf_duration : 0 < bucketDuration r < two63
}.

(** Slot 0 is the oldest, the last one is where [Add] appends. *)
Definition view (r : RollingWindow) : list (list float64) :=
  Points <$> along (buckets (window r)) (S (Z.to_nat (offset r))) (length (buckets (window r))).

(** Time passes: [n] slots leave on the left and come in empty on the right. *)
Definition shift (n : nat) (v : list (list float64)) : list (list float64) :=
  drop n v ++ replicate (n `min` length v) [].

(** The specification of [Add]. *)
Definition push (val : float64) (v : list (list float64)) : list (list float64) :=
  alter (λ ps, ps ++ [val]) (length v - 1)%nat v.

(** ** The ring *)

Lemma along_length bs i n : length (along bs i n) = n.
Proof. unfold along. by rewrite length_fmap, length_seq. Qed.

Lemma along_lookup bs i n j b :
  (j < n)%nat → bs !! ((i + j) `mod` length bs)%nat = Some b → along bs i n !! j = Some b.
Proof.
  intros Hj Hb. unfold along. rewrite list_lookup_fmap, lookup_seq_lt by done. simpl.
  by rewrite Hb.
Qed.

Lemma along_S bs i n b :
  bs !! (i `mod` length bs)%nat = Some b → along bs i (S n) = b :: along bs (S i) n.
Proof.
  intros Hb. unfold along. simpl. rewrite Nat.add_0_r, Hb. f_equal.
  rewrite <- fmap_S_seq, <- list_fmap_compose. apply list_fmap_ext. intros _ j _. simpl.
  by rewrite Nat.add_succ_r.
Qed.

Lemma ring_lookup (bs : list Bucket) i :
  bs ≠ [] → ∃ b, bs !! (i `mod` length bs)%nat = Some b.
Proof.
  intros Hbs. apply lookup_lt_is_Some_2, Nat.mod_upper_bound. by destruct bs.
Qed.

Lemma mod_window a b n :
  (a ≤ b < a + n)%nat → (a `mod` n = b `mod` n)%nat ↔ a = b.
Proof.
  intros Hab. split; [| by intros ->]. intros E.
  assert (n ≠ 0)%nat by lia.
  pose proof (Nat.div_mod_eq a n). pose proof (Nat.div_mod_eq b n).
  destruct (Nat.lt_trichotomy (a / n) (b / n)) as [Hlt | [Heq | Hlt]]; [| congruence |].
  - pose proof (Nat.mul_le_mono_l (S (a / n)) (b / n) n Hlt). lia.
  - pose proof (Nat.mul_le_mono_l (S (b / n)) (a / n) n Hlt). lia.
Qed.

Definition ring (bs : list Bucket) : Prop :=
  ∀ i b, bs !! i = Some b → next b = (S i `mod` length bs)%nat.

Lemma S_mod i n : (S (i `mod` n) `mod` n = S i `mod` n)%nat.
Proof. exact (Nat.Div0.add_mod_idemp_r 1 i n). Qed.

(** An iterator reads the ring from its current bucket. *)
Lemma each_bucket_spec {R} (go : R → bool) body n it s i :
  ring (source it) → source it ≠ [] → cur it = (i `mod` length (source it))%nat →
  count it = iteratedCount it + Z.of_nat n →
  ∃ k, (k ≤ n)%nat ∧
    each_bucket n go body it s
    = Some (Ret (fold_left body (along (source it) i k) s)) ∧
    (k = n ∨ go (fold_left body (along (source it) i k) s) = false) ∧
    ∀ j, (j < k)%nat → go (fold_left body (along (source it) i j) s) = true.
Proof.
  intros Hring Hne. revert it s i Hring Hne.
  induction n as [|n IH]; intros it s i Hring Hne Hcur Hcount.
  - exists 0%nat. split; [done |]. split; [| split; [by left | lia]]. simpl.
    unfold Next. rewrite Hcount, Z.add_0_r, Z.eqb_refl. done.
  - assert (Next it = true) as Hnext.
    { unfold Next. apply negb_true_iff, Z.eqb_neq. lia. }
    destruct (go s) eqn:Hgo.
    + destruct (ring_lookup (source it) i Hne) as [b Hb]. simpl. rewrite Hnext, Hgo. simpl.
      unfold Iterator_Bucket. rewrite Hnext. simpl. rewrite Hcur, Hb. simpl.
      destruct (IH (MkIterator (count it) (iteratedCount it + 1) (next b) (source it))
        (body s b) (S i)) as (k & Hk & E & Hend & Hgos); simpl; try done; [| lia |].
      { rewrite (Hring _ _ Hb). apply S_mod. }
      exists (S k). split; [lia |]. rewrite (along_S _ _ _ _ Hb). simpl.
      split; [exact E |]. split; [destruct Hend; [left; lia | by right] |].
      intros [|j] Hj; [exact Hgo |]. rewrite (along_S _ _ _ _ Hb). apply Hgos. lia.
    + exists 0%nat. split; [lia |]. simpl. rewrite Hgo, andb_false_r.
      split; [done |]. split; [by right | lia].
Qed.

Lemma all_buckets_spec {R} (body : R → Bucket → R) it s i :
  ring (source it) → source it ≠ [] → cur it = (i `mod` length (source it))%nat →
  iteratedCount it = 0 → 0 ≤ count it →
  all_buckets body it s
  = Some (Ret (fold_left body (along (source it) i (Z.to_nat (count it))) s)).
Proof.
  intros Hring Hne Hcur Hit Hc. unfold all_buckets.
  destruct (each_bucket_spec (λ _, true) body (Z.to_nat (count it)) it s i)
    as (k & _ & E & [-> | ?] & _); try done; lia.
Qed.

Lemma fold_left_points {R} (f : R → float64 → R) (bs : list Bucket) s :
  fold_left (λ s b, fold_left f (Points b) s) bs s = fold_left f (concat (Points <$> bs)) s.
Proof.
  revert s. induction bs as [|b bs IH]; intros s; simpl; [done |].
  by rewrite IH, fold_left_app.
Qed.

(** ** The effect of the window operations on the ring *)

Definition sized (w : Window) : Prop :=
  buckets w ≠ [] ∧ size w = Z.of_nat (length (buckets w)).

Lemma bucket_index_ok w o :
  sized w → bucket_index w (Z.of_nat o) = Ret (o `mod` length (buckets w))%nat.
Proof.
  intros [Hne Hsz]. unfold bucket_index.
  assert (length (buckets w) ≠ 0)%nat by (by destruct (buckets w)).
  destruct (Z.eqb_spec (size w) 0); [lia |].
  rewrite Hsz, Z.rem_mod_nonneg, <- Nat2Z.inj_mod by lia.
  destruct (ring_lookup (buckets w) o Hne) as [b Hb].
  assert (slice_get (buckets w) (Z.of_nat (o `mod` length (buckets w))) = Ret b) as ->.
  { apply slice_get_Ret. rewrite Nat2Z.id. split; [lia | done]. }
  simpl. by rewrite Nat2Z.id.
Qed.

Lemma update_bucket_ok f o w :
  sized w →
  update_bucket f (Z.of_nat o) w
  = Ret (MkWindow (alter f (o `mod` length (buckets w))%nat (buckets w)) (size w)).
Proof. intros Hw. unfold update_bucket. by rewrite bucket_index_ok. Qed.

Lemma sized_update f i w : sized w → sized (MkWindow (alter f i (buckets w)) (size w)).
Proof.
  intros [Hne Hsz]. split; simpl; [| by rewrite length_alter].
  intros E. apply (f_equal length) in E. rewrite length_alter in E. by destruct (buckets w).
Qed.

(** Which indices the loop of [ResetBuckets] reaches. *)
Fixpoint hits (n o N i : nat) : bool :=
  match n with
  | O => false
  | S n' => (o `mod` N =? i)%nat || hits n' (S o) N i
  end.

Lemma hits_true n o N i :
  hits n o N i = true ↔ ∃ t, (t < n)%nat ∧ ((o + t) `mod` N = i)%nat.
Proof.
  revert o. induction n as [|n IH]; intros o; simpl.
  - split; [done | intros (t & ? & _); lia].
  - rewrite orb_true_iff, Nat.eqb_eq, IH. split.
    + intros [E | (t & Ht & E)].
      * exists 0%nat. rewrite Nat.add_0_r. split; [lia | done].
      * exists (S t). rewrite Nat.add_succ_r. split; [lia | done].
    + intros ([|t] & Ht & E); [left; by rewrite Nat.add_0_r in E | right].
      exists t. rewrite Nat.add_succ_r in E. split; [lia | done].
Qed.

Lemma reset_from_ok n o w :
  sized w →
  ∃ w', reset_from n (Z.of_nat o) w = Ret w' ∧ sized w' ∧ size w' = size w ∧
    length (buckets w') = length (buckets w) ∧
    ∀ i b, buckets w !! i = Some b →
      buckets w' !! i
      = Some (if hits n o (length (buckets w)) i then Bucket_Reset b else b).
Proof.
  revert o w. induction n as [|n IH]; intros o w Hw; cbn [reset_from hits].
  - exists w. by split_and!.
  - unfold ResetBucket. rewrite update_bucket_ok by done. cbn [obind].
    replace (Z.of_nat o + 1) with (Z.of_nat (S o)) by lia.
    destruct (IH (S o) _ (sized_update Bucket_Reset (o `mod` length (buckets w))%nat w Hw))
      as (w' & -> & Hw' & Hsz & Hlen & Hl).
    exists w'. simpl in *. rewrite length_alter in *. split_and!; [done.. |].
    intros i b Hb. destruct (Nat.eqb_spec (o `mod` length (buckets w)) i) as [<- | Hi]; simpl.
    + rewrite (Hl _ (Bucket_Reset b)) by (by rewrite list_lookup_alter_eq, Hb).
      by case_match.
    + apply Hl. by rewrite list_lookup_alter_ne.
Qed.

(** ** [Add] and [Reduce] against the view *)

Lemma wf_sized r : wf r → sized (window r).
Proof.
  intros Hr. pose proof (wf_size r Hr). pose proof (wf_len r Hr).
  split; [| lia]. intros E. rewrite E in *. simpl in *. lia.
Qed.

Lemma wf_ring r : wf r → ring (buckets (window r)).
Proof. intros Hr i b Hb. by apply (wf_bucket r Hr). Qed.

Lemma view_length r : length (view r) = length (buckets (window r)).
Proof. unfold view. by rewrite length_fmap, along_length. Qed.

Lemma view_lookup r j b :
  (j < length (buckets (window r)))%nat →
  buckets (window r)
    !! ((S (Z.to_nat (offset r)) + j) `mod` length (buckets (window r)))%nat = Some b →
  view r !! j = Some (Points b).
Proof.
  intros Hj Hb. unfold view. by rewrite list_lookup_fmap, (along_lookup _ _ _ _ b).
Qed.

Lemma shift_length n v : length (shift n v) = length v.
Proof. unfold shift. rewrite length_app, length_drop, length_replicate. lia. Qed.

Lemma shift_0 v : shift 0 v = v.
Proof. unfold shift. simpl. apply app_nil_r. Qed.

Lemma shift_all n v : (length v ≤ n)%nat → shift n v = replicate (length v) [].
Proof. intros H. unfold shift. rewrite drop_ge by done. by rewrite Nat.min_r. Qed.

Lemma shift_lookup n v j :
  (j < length v)%nat →
  shift n v !! j = if decide (n + j < length v)%nat then v !! (n + j)%nat else Some [].
Proof.
  intros Hj. unfold shift. case_decide.
  - rewrite lookup_app_l by (rewrite length_drop; lia). by rewrite lookup_drop.
  - rewrite lookup_app_r by (rewrite length_drop; lia).
    rewrite length_drop. apply lookup_replicate_2. lia.
Qed.

(** The ring after some of its buckets were reset and the offset moved by [n]. *)
Lemma view_shift r r' n hit :
  wf r → length (buckets (window r')) = length (buckets (window r)) →
  (∀ i b, buckets (window r) !! i = Some b →
     buckets (window r') !! i = Some (if hit i : bool then Bucket_Reset b else b)) →
  (∀ j, (j < length (buckets (window r)))%nat →
     let N := length (buckets (window r)) in
     let i := ((S (Z.to_nat (offset r')) + j) `mod` N)%nat in
     if decide (n + j < N)%nat
     then hit i = false ∧ i = ((S (Z.to_nat (offset r)) + (n + j)) `mod` N)%nat
     else hit i = true) →
  view r' = shift n (view r).
Proof.
  intros Hr Hlen Hb Hhit. apply list_eq. intros j.
  destruct (decide (j < length (buckets (window r)))%nat) as [Hj | Hj].
  2:{ rewrite !lookup_ge_None_2; [done | |]; rewrite ?shift_length, view_length; lia. }
  rewrite shift_lookup by (by rewrite view_length). rewrite view_length.
  specialize (Hhit j Hj). cbv zeta in Hhit.
  destruct (wf_sized r Hr) as [Hne _].
  destruct (ring_lookup (buckets (window r)) (S (Z.to_nat (offset r')) + j) Hne) as [b Hi].
  pose proof (Hb _ _ Hi) as Hi'.
  rewrite (view_lookup r' j) with
    (b := if hit ((S (Z.to_nat (offset r')) + j) `mod` length (buckets (window r)))%nat
          then Bucket_Reset b else b) by (rewrite ?Hlen; done).
  case_decide as Hd.
  - destruct Hhit as [-> E]. symmetry. apply view_lookup; [done |]. rewrite <- E. exact Hi.
  - by rewrite Hhit.
Qed.

Lemma reset_wf r w off :
  wf r → sized w → size w = size (window r) →
  length (buckets w) = length (buckets (window r)) →
  (∀ i b, buckets (window r) !! i = Some b →
     ∃ h : bool, buckets w !! i = Some (if h then Bucket_Reset b else b)) →
  0 ≤ off < size w →
  wf (MkRollingWindow w off (bucketDuration r) (lastUpdateTime r)).
Proof.
  intros Hr Hs Hsz Hlen Hb Hoff. split; simpl; [| | done | | apply Hr].
  - rewrite Hsz. apply Hr.
  - rewrite Hlen, Hsz. apply Hr.
  - intros i b Hi. assert (is_Some (buckets (window r) !! i)) as [b0 Hb0].
    { apply lookup_lt_is_Some. rewrite <- Hlen. by eapply lookup_lt_Some. }
    destruct (Hb i b0 Hb0) as [h Hh]. destruct (wf_bucket r Hr i b0 Hb0) as [Hn Hc].
    rewrite Hi in Hh. injection Hh as ->. rewrite Hlen. by destruct h.
Qed.

Lemma roll_view r span :
  wf r →
  ∃ r', roll span r = Ret r' ∧ wf r' ∧ size (window r') = size (window r) ∧
    bucketDuration r' = bucketDuration r ∧ lastUpdateTime r' = lastUpdateTime r ∧
    view r' = shift (Z.to_nat span) (view r).
Proof.
  intros Hr. pose proof (wf_sized r Hr) as Hs. pose proof (wf_size r Hr) as Hpos.
  pose proof (wf_len r Hr) as Hlen. pose proof (wf_offset r Hr) as Hoff.
  unfold roll. destruct (Z.ltb_spec 0 span).
  2:{ exists r. replace (Z.to_nat span) with 0%nat by lia. rewrite shift_0. by split_and!. }
  set (N := length (buckets (window r))) in *.
  assert (N ≠ 0)%nat as HN by lia.
  destruct (Z.leb_spec (size (window r)) span).
  - unfold ResetWindow. fold N. destruct (reset_from_ok N 0 (window r) Hs)
      as (w & E & Hs' & Hsz' & Hl & Hb). change (Z.of_nat 0) with 0 in E. rewrite E. simpl.
    eexists. split; [done |].
    split; [apply reset_wf; eauto; lia |]. split_and!; [done.. |].
    apply (view_shift _ _ _ (hits N 0 N)); [done.. |].
    intros j Hj. fold N. simpl. rewrite decide_False by lia. apply hits_true.
    exists (S j `mod` N)%nat. split; [by apply Nat.mod_upper_bound |]. simpl.
    by apply Nat.Div0.mod_mod.
  - unfold ResetBuckets.
    destruct (reset_from_ok (Z.to_nat span) (S (Z.to_nat (offset r))) (window r) Hs)
      as (w & E & Hs' & Hsz' & Hl & Hb).
    replace (offset r + 1) with (Z.of_nat (S (Z.to_nat (offset r)))) by lia.
    rewrite E. simpl. eexists. split; [done |].
    rewrite Z.rem_mod_nonneg by lia.
    split; [apply reset_wf; eauto; rewrite ?Hsz'; try apply Z.mod_pos_bound; lia |].
    split_and!; [done.. |].
    apply (view_shift _ _ _ (hits (Z.to_nat span) (S (Z.to_nat (offset r))) N)); [done.. |].
    intros j Hj. fold N. fold N in Hj. cbn [offset].
    replace (Z.to_nat ((offset r + span) mod size w))
      with ((Z.to_nat (offset r) + Z.to_nat span) `mod` N)%nat
      by (rewrite Hsz', <- Hlen; rewrite Z2Nat.inj_mod, Z2Nat.inj_add, Nat2Z.id by lia; done).
    set (o := Z.to_nat (offset r)) in *. set (s := Z.to_nat span) in *.
    replace ((S ((o + s) `mod` N) + j) `mod` N)%nat with ((S o + (s + j)) `mod` N)%nat.
    2:{ rewrite <- (Nat.Div0.add_mod_idemp_l (S ((o + s) `mod` N))), S_mod.
        rewrite Nat.Div0.add_mod_idemp_l. f_equal. lia. }
    case_decide as Hd.
    + split; [| done]. apply not_true_iff_false. intros (t & Ht & Et)%hits_true.
      apply mod_window in Et; lia.
    + apply hits_true. exists (s + j - N)%nat. split; [lia |].
      replace (S o + (s + j))%nat with (S o + (s + j - N) + 1 * N)%nat by lia.
      symmetry. apply Nat.Div0.mod_add.
Qed.

Lemma append_view r val :
  wf r →
  ∃ w, Append (offset r) val (window r) = Ret w ∧ size w = size (window r) ∧
    let r' := MkRollingWindow w (offset r) (bucketDuration r) (lastUpdateTime r) in
    wf r' ∧ view r' = push val (view r).
Proof.
  intros Hr. pose proof (wf_sized r Hr) as Hs. pose proof (wf_len r Hr) as Hlen.
  pose proof (wf_offset r Hr) as Hoff. set (N := length (buckets (window r))) in *.
  set (o := Z.to_nat (offset r)).
  assert (o < N)%nat as Ho by lia.
  assert (Append (offset r) val (window r)
    = Ret (MkWindow (alter (Bucket_Append val) o (buckets (window r))) (size (window r)))) as E.
  { unfold Append. replace (offset r) with (Z.of_nat o) by lia.
    rewrite update_bucket_ok by done. fold N. by rewrite Nat.mod_small. }
  rewrite E. clear E. eexists. split; [done |]. split; [done |].
  assert (wf (MkRollingWindow (MkWindow (alter (Bucket_Append val) o (buckets (window r)))
    (size (window r))) (offset r) (bucketDuration r) (lastUpdateTime r))) as Hwf.
  { split; simpl; [apply Hr | by rewrite length_alter | done | | apply Hr].
    intros i b Hi. rewrite length_alter.
    destruct (decide (o = i)) as [<- | Hi'];
      [| rewrite list_lookup_alter_ne in Hi by done; by apply (wf_bucket r Hr)].
    rewrite list_lookup_alter_eq in Hi. apply fmap_Some in Hi as (b0 & Hb0 & ->).
    destruct (wf_bucket r Hr _ _ Hb0) as [Hn Hc]. split; [exact Hn |]. simpl.
    rewrite length_app, Hc. simpl. lia. }
  split; [exact Hwf |]. apply list_eq. intros j.
  unfold push. rewrite view_length. fold N.
  destruct (decide (j < N)%nat) as [Hj | Hj].
  2:{ rewrite !lookup_ge_None_2; rewrite ?length_alter, ?view_length; simpl;
        rewrite ?length_alter; fold N; done || lia. }
  destruct (ring_lookup (buckets (window r)) (S o + j) (proj1 Hs)) as [b Hb].
  pose proof (view_lookup r j b Hj Hb) as Hv.
  destruct (decide (j = N - 1)%nat) as [-> | Hne].
  - rewrite list_lookup_alter_eq, Hv. simpl.
    assert (((S o + (N - 1)) `mod` N = o)%nat) as E.
    { replace (S o + (N - 1))%nat with (o + 1 * N)%nat by lia.
      rewrite Nat.Div0.mod_add. by apply Nat.mod_small. }
    fold N in Hb. rewrite E in Hb.
    rewrite (view_lookup _ _ (Bucket_Append val b)); [done | |]; simpl;
      rewrite length_alter; fold N; [lia |].
    fold o. change (S (o + (N - 1))) with (S o + (N - 1))%nat.
    by rewrite E, list_lookup_alter_eq, Hb.
  - rewrite list_lookup_alter_ne by done. rewrite Hv.
    apply view_lookup; simpl; rewrite length_alter; [done |]. fold N.
    change (S (Z.to_nat (offset r) + j)) with (S o + j)%nat.
    rewrite list_lookup_alter_ne; [done |]. intros E.
    assert (o `mod` N = o)%nat as E' by (by apply Nat.mod_small).
    rewrite <- E' in E. apply mod_window in E; lia.
Qed.

(** The state after the clock is read, when it reads [now]. *)
Definition spanned (now : Z) (r : RollingWindow) : Z :=
  (now - lastUpdateTime r) / bucketDuration r.

Definition ticked (now : Z) (r : RollingWindow) : RollingWindow :=
  MkRollingWindow (window r) (offset r) (bucketDuration r)
    (lastUpdateTime r + spanned now r * bucketDuration r).

Definition clock_ok (now : Z) (r : RollingWindow) : Prop :=
  lastUpdateTime r ≤ now < lastUpdateTime r + two63.

Lemma spanned_bounds now r :
  wf r → clock_ok now r →
  0 ≤ spanned now r < two63 ∧ spanned now r * bucketDuration r ≤ now - lastUpdateTime r.
Proof.
  intros Hr [H1 H2]. destruct (wf_duration r Hr) as [Hd _]. unfold spanned.
  pose proof (Z.mul_div_le (now - lastUpdateTime r) (bucketDuration r) Hd).
  pose proof (Z.div_pos (now - lastUpdateTime r) (bucketDuration r)).
  split; [split; [lia |] |lia].
  apply Z.div_lt_upper_bound; [lia |]. unfold two63 in *. nia.
Qed.

Lemma timespan_ok now r :
  wf r → clock_ok now r → timespan now r = Ret (ticked now r, spanned now r).
Proof.
  intros Hr Hc. pose proof (spanned_bounds now r Hr Hc) as [Hs Hm].
  destruct (wf_duration r Hr) as [Hd _]. destruct Hc as [H1 H2].
  unfold timespan.
  assert (time_sub now (lastUpdateTime r) = now - lastUpdateTime r) as ->
    by (unfold time_sub, two63 in *; lia).
  destruct (Z.eqb_spec (bucketDuration r) 0); [lia |].
  rewrite Z.quot_div_nonneg by lia. fold (spanned now r).
  rewrite (wrap64_id (spanned now r)) by (unfold in_int64, two63 in *; lia).
  unfold ticked. destruct (Z.ltb_spec 0 (spanned now r)).
  - rewrite wrap64_id; [done |]. unfold in_int64, two63 in *. nia.
  - replace (spanned now r) with 0 by lia. rewrite Z.mul_0_l, Z.add_0_r. by destruct r.
Qed.

Lemma ticked_wf now r : wf r → wf (ticked now r).
Proof. intros Hr. destruct Hr. by split. Qed.

(** [Add] shifts the view by the elapsed slots and appends to the last one. *)
Lemma Add_view now val r :
  wf r → clock_ok now r →
  ∃ r', RollingWindow_Add now val r = Ret r' ∧ wf r' ∧
    size (window r') = size (window r) ∧ bucketDuration r' = bucketDuration r ∧
    lastUpdateTime r' = lastUpdateTime r + spanned now r * bucketDuration r ∧
    view r' = push val (shift (Z.to_nat (spanned now r)) (view r)).
Proof.
  intros Hr Hc. unfold RollingWindow_Add. rewrite timespan_ok by done. simpl.
  destruct (roll_view (ticked now r) (spanned now r) (ticked_wf now r Hr))
    as (r1 & -> & Hr1 & Hsz1 & Hd1 & Hl1 & Hv1). simpl.
  destruct (append_view r1 val Hr1) as (w & -> & Hsz2 & Hr2 & Hv2). simpl.
  simpl in Hsz1, Hd1, Hl1. eexists. split; [done |].
  split_and!; simpl; [done | congruence | congruence | congruence |].
  rewrite Hv2, Hv1. done.
Qed.

(** ** Aggregations over the points of an iterator *)

Definition iter_ok (it : Iterator) (i : nat) : Prop :=
  ring (source it) ∧ source it ≠ [] ∧ cur it = (i `mod` length (source it))%nat ∧
  iteratedCount it = 0 ∧ 0 ≤ count it ∧
  ∀ b, b ∈ source it → BucketCount b = Z.of_nat (length (Points b)).

Definition iter_buckets (it : Iterator) (i : nat) : list Bucket :=
  along (source it) i (Z.to_nat (count it)).

(** [f] computes [g] of the points it iterates over, and 0 of none. *)
Definition aggregates (f : Iterator → option (outcome float64)) (g : list float64 → float64)
    : Prop :=
  g [] = f64_zero ∧
  ∀ it i, iter_ok it i → f it = Some (Ret (g (concat (Points <$> iter_buckets it i)))).

Definition sum_of (ps : list float64) : float64 := fold_left f64_add ps f64_zero.
Definition avg_of (ps : list float64) : float64 :=
  if decide (ps = []) then f64_zero
  else f64_div (sum_of ps) (float64_of_int (Z.of_nat (length ps))).
Definition max_of (ps : list float64) : float64 :=
  match ps with
  | [] => f64_zero
  | p :: ps => fold_left (λ m q, if f64_ltb m q then q else m) ps p
  end.
Definition min_of (ps : list float64) : float64 :=
  match ps with
  | [] => f64_zero
  | p :: ps => fold_left (λ m q, if f64_ltb q m then q else m) ps p
  end.
Definition count_of (ps : list float64) : float64 := float64_of_int (Z.of_nat (length ps)).

Lemma all_buckets_points {R} (f : R → float64 → R) it i s :
  iter_ok it i →
  all_buckets (λ s b, fold_left f (Points b) s) it s
  = Some (Ret (fold_left f (concat (Points <$> iter_buckets it i)) s)).
Proof.
  intros (H1 & H2 & H3 & H4 & H5 & _).
  by rewrite (all_buckets_spec _ it s i), fold_left_points.
Qed.

Lemma Sum_aggregates : aggregates Sum sum_of.
Proof. split; [done |]. intros it i Hit. by apply all_buckets_points. Qed.

Lemma avg_fold ps s n :
  fold_left (λ '(sum, n) p, (f64_add sum p, n + 1)) ps (s, n)
  = (fold_left f64_add ps s, n + Z.of_nat (length ps)).
Proof.
  revert s n. induction ps as [|p ps IH]; intros s n; simpl; [f_equal; lia |].
  rewrite IH. f_equal. lia.
Qed.

Lemma Avg_aggregates : aggregates Avg avg_of.
Proof.
  split; [done |]. intros it i Hit. unfold Avg.
  rewrite (all_buckets_points (λ '(sum, n) p, (f64_add sum p, n + 1)) it i _ Hit).
  rewrite avg_fold. simpl. unfold avg_of.
  destruct (concat _); [done |]. rewrite decide_False by done.
  by destruct (Z.eqb_spec (Z.of_nat (length (s :: l))) 0).
Qed.

Lemma max_fold ps m :
  fold_left max_step ps (m, true) = (fold_left (λ m q, if f64_ltb m q then q else m) ps m, true).
Proof.
  revert m. induction ps as [|p ps IH]; intros m; simpl; [done |].
  rewrite <- IH. by case_match.
Qed.

Lemma min_fold ps m :
  fold_left min_step ps (m, true) = (fold_left (λ m q, if f64_ltb q m then q else m) ps m, true).
Proof.
  revert m. induction ps as [|p ps IH]; intros m; simpl; [done |].
  rewrite <- IH. by case_match.
Qed.

Lemma Max_aggregates : aggregates Max max_of.
Proof.
  split; [done |]. intros it i Hit. unfold Max.
  rewrite (all_buckets_points _ it i _ Hit).
  destruct (concat _) as [|p ps]; [done |]. simpl. by rewrite max_fold.
Qed.

Lemma Min_aggregates : aggregates Min min_of.
Proof.
  split; [done |]. intros it i Hit. unfold Min.
  rewrite (all_buckets_points _ it i _ Hit).
  destruct (concat _) as [|p ps]; [done |]. simpl. by rewrite min_fold.
Qed.

Lemma along_in bs i n b : bs ≠ [] → b ∈ along bs i n → b ∈ bs.
Proof.
  intros Hbs (j & -> & _)%list_elem_of_fmap.
  destruct (ring_lookup bs (i + j) Hbs) as [b Hb]. rewrite Hb. simpl.
  by eapply list_elem_of_lookup_2.
Qed.

Lemma count_fold bs n :
  (∀ b, b ∈ bs → BucketCount b = Z.of_nat (length (Points b))) →
  fold_left (λ n b, n + BucketCount b) bs n
  = n + Z.of_nat (length (concat (Points <$> bs))).
Proof.
  revert n. induction bs as [|b bs IH]; intros n Hb; [simpl; lia |].
  rewrite fmap_cons. cbn [fold_left concat]. rewrite IH by (intros b' Hb'; apply Hb; by right).
  rewrite (Hb b) by left. rewrite length_app. lia.
Qed.

Lemma Count_aggregates : aggregates Count count_of.
Proof.
  split; [done |]. intros it i (H1 & H2 & H3 & H4 & H5 & H6). unfold Count.
  rewrite (all_buckets_spec _ it 0 i) by done. simpl.
  rewrite count_fold; [done |]. intros b Hb. by apply H6, (along_in _ _ _ _ H2 Hb).
Qed.

(** ** [Reduce] *)

Lemma along_drop bs i s n :
  (s ≤ n)%nat → along bs (i + s) (n - s) = drop s (along bs i n).
Proof.
  intros Hs. unfold along. rewrite <- fmap_drop, drop_seq.
  apply list_eq. intros j. rewrite !list_lookup_fmap.
  destruct (decide (j < n - s)%nat).
  - rewrite !lookup_seq_lt by lia. simpl. by rewrite Nat.add_assoc.
  - rewrite !lookup_seq_ge by lia. done.
Qed.

(** The iterator that [Reduce] builds. *)
Lemma Reduce_iterator now r :
  wf r → clock_ok now r → spanned now r < size (window r) →
  ∃ it i, iter_ok it i ∧
    iter_buckets it i
    = drop (Z.to_nat (spanned now r))
        (along (buckets (window r)) (S (Z.to_nat (offset r))) (length (buckets (window r)))) ∧
    ∀ R (expired : R) f, Reduce now expired f r = then_ret (λ s, (ticked now r, s)) (f it).
Proof.
  intros Hr Hc Hlt. pose proof (spanned_bounds now r Hr Hc) as [Hs _].
  pose proof (wf_sized r Hr) as Hsz. pose proof (wf_len r Hr) as Hlen.
  pose proof (wf_offset r Hr) as Hoff. set (N := length (buckets (window r))) in *.
  set (s := Z.to_nat (spanned now r)). set (o := Z.to_nat (offset r)).
  assert (N ≠ 0)%nat by lia.
  exists (MkIterator (size (window r) - spanned now r) 0 ((S o + s) `mod` N)%nat
            (buckets (window r))), (S o + s)%nat.
  split_and!.
  - split_and!; simpl; try done; [by apply wf_ring | apply Hsz | lia |].
    intros b (j & Hj)%list_elem_of_lookup. by apply (wf_bucket r Hr j).
  - unfold iter_buckets. simpl source. simpl count. rewrite <- along_drop by (unfold s; lia).
    f_equal. unfold s. lia.
  - intros R expired f. unfold Reduce. rewrite timespan_ok by done. simpl window.
    destruct (Z.leb_spec (size (window r)) (spanned now r)); [lia |].
    rewrite andb_false_r. destruct (Z.eqb_spec (size (window r)) 0); [lia |].
    unfold Window_Iterator. simpl offset.
    replace (offset r + spanned now r + 1) with (Z.of_nat (S o + s)) by (unfold o, s; lia).
    rewrite Z.rem_mod_nonneg by lia. rewrite <- Hlen, <- Nat2Z.inj_mod.
    rewrite bucket_index_ok by done. fold N. rewrite Nat.Div0.mod_mod. simpl.
    by rewrite Hlen.
Qed.

Lemma Reduce_expired {R} now (expired : R) f r :
  wf r → clock_ok now r → size (window r) ≤ spanned now r →
  Reduce now expired f r = Some (Ret (ticked now r, expired)).
Proof.
  intros Hr Hc Hge. unfold Reduce. rewrite timespan_ok by done. simpl window.
  pose proof (wf_size r Hr).
  destruct (Z.ltb_spec 0 (spanned now r)); [| lia].
  destruct (Z.leb_spec (size (window r)) (spanned now r)); [done | lia].
Qed.

(** A reading with a callback that terminates on the iterators of the window. *)
Lemma Reduce_total {R} now (expired : R) f r :
  wf r → clock_ok now r → (∀ it i, iter_ok it i → ∃ s, f it = Some (Ret s)) →
  ∃ s, Reduce now expired f r = Some (Ret (ticked now r, s)).
Proof.
  intros Hr Hc Hf. destruct (Z.lt_ge_cases (spanned now r) (size (window r))).
  - destruct (Reduce_iterator now r Hr Hc) as (it & i & Hit & _ & E); [done |].
    destruct (Hf it i Hit) as [s Hs]. exists s. by rewrite E, Hs.
  - exists expired. by apply Reduce_expired.
Qed.

(** A reading sees the slots that have not expired, oldest first. *)
Lemma Reduce_view f g now r :
  aggregates f g → wf r → clock_ok now r →
  Reduce_float now f r
  = Some (Ret (ticked now r, g (concat (drop (Z.to_nat (spanned now r)) (view r))))).
Proof.
  intros [H0 Hf] Hr Hc. unfold Reduce_float.
  destruct (Z.lt_ge_cases (spanned now r) (size (window r))) as [Hlt | Hge].
  - destruct (Reduce_iterator now r Hr Hc Hlt) as (it & i & Hit & Hb & E).
    rewrite E, (Hf it i Hit), Hb. simpl. unfold view. by rewrite fmap_drop.
  - rewrite Reduce_expired by done. pose proof (wf_len r Hr).
    rewrite drop_ge by (rewrite view_length; lia). simpl. by rewrite H0.
Qed.

(** ** Histories of additions *)

Fixpoint adds (evs : list (Z * float64)) (r : RollingWindow) : outcome RollingWindow :=
  match evs with
  | [] => Ret r
  | (t, v) :: evs' => let! r := RollingWindow_Add t v r in adds evs' r
  end.

(** The values added in the slots after slot [k], oldest first; slot [i] is the
    time from [t0 + i * d] to [t0 + (i + 1) * d]. *)
Definition values_after (t0 d k : Z) (evs : list (Z * float64)) : list float64 :=
  snd <$> filter (λ e, k < (e.1 - t0) / d) evs.

Record history (t0 d : Z) (n : nat) (evs : list (Z * float64)) (r : RollingWindow) : Prop := {
  hist_wf : wf r;
  hist_size : size (window r) = Z.of_nat n;
  hist_d : bucketDuration r = d;
  hist_last : ∃ k, lastUpdateTime r = t0 + k * d ∧ 0 ≤ k ∧
    (∀ e, e ∈ evs → (e.1 - t0) / d ≤ k) ∧
    ∀ m, (m ≤ n)%nat →
      concat (drop m (view r)) = values_after t0 d (k - Z.of_nat n + Z.of_nat m) evs
}.

Lemma values_after_none t0 d k evs :
  (∀ e, e ∈ evs → (e.1 - t0) / d ≤ k) → ∀ k', k ≤ k' → values_after t0 d k' evs = [].
Proof.
  intros He k' Hk. unfold values_after.
  assert (filter (λ e : Z * float64, k' < (e.1 - t0) / d) evs = []) as ->; [| done].
  clear -He Hk. induction evs as [|e evs IH]; [done |].
  rewrite filter_cons_False.
  - apply IH. intros e' He'. apply He. by right.
  - pose proof (He e ltac:(left)). lia.
Qed.

Lemma drop_shift_concat m s v :
  (m ≤ length v)%nat → concat (drop m (shift s v)) = concat (drop (s + m) v).
Proof.
  intros Hm. unfold shift.
  assert (∀ j k, concat (drop j (replicate k (@nil float64))) = []) as Hnil.
  { intros j k. rewrite drop_replicate. induction (k - j)%nat; done. }
  destruct (decide (s + m ≤ length v)%nat).
  - rewrite drop_app_le by (rewrite length_drop; lia).
    rewrite concat_app, drop_drop.
    rewrite <- (drop_0 (replicate _ _)), Hnil, app_nil_r. done.
  - rewrite drop_app_ge by (rewrite length_drop; lia). rewrite Hnil.
    by rewrite drop_ge by lia.
Qed.

Lemma push_concat m x v :
  (m < length v)%nat → concat (drop m (push x v)) = concat (drop m v) ++ [x].
Proof.
  intros Hm. unfold push. destruct (length v) as [|n] eqn:Hn; [lia |].
  replace (S n - 1)%nat with n by lia.
  assert (∃ l ps, v = l ++ [ps] ∧ length l = n) as (l & ps & -> & Hl).
  { destruct v as [|ps l _] using rev_ind; [done |]. exists l, ps. split; [done |].
    rewrite length_app in Hn. simpl in Hn. lia. }
  replace (alter (λ ps, ps ++ [x]) n (l ++ [ps])) with (l ++ [ps ++ [x]]).
  2:{ rewrite <- Hl, <- (Nat.add_0_r (length l)), alter_app_r. done. }
  rewrite !drop_app_le by lia. rewrite !concat_app. simpl.
  rewrite !app_nil_r, app_assoc. done.
Qed.

Lemma history_add t0 d n evs r t v r' :
  history t0 d n evs r → clock_ok t r → RollingWindow_Add t v r = Ret r' →
  history t0 d n (evs ++ [(t, v)]) r' ∧ t0 + (t - t0) / d * d = lastUpdateTime r'.
Proof.
  intros [Hr Hsz Hd (k & Hk & Hk0 & Hev & Hv)] Hc Hadd.
  destruct (Add_view t v r Hr Hc) as (r1 & E & Hr1 & Hsz1 & Hd1 & Hl1 & Hv1).
  rewrite E in Hadd. injection Hadd as ->.
  destruct (spanned_bounds t r Hr Hc) as [[Hs0 _] _].
  destruct (wf_duration r Hr) as [Hdpos _].
  assert ((t - t0) / d = k + spanned t r) as Hslot.
  { unfold spanned. rewrite Hk, Hd in *.
    replace (t - t0) with (k * d + (t - (t0 + k * d))) by lia.
    rewrite Z.add_comm, Z.div_add by lia. lia. }
  rewrite Hd in Hl1. split; [split |]; [done | congruence | congruence | | rewrite Hl1, Hk, Hslot; lia].
  exists (k + spanned t r). split; [rewrite Hl1, Hk; lia |]. split; [lia |].
  assert (Hev' : ∀ e, e ∈ evs ++ [(t, v)] → (e.1 - t0) / d ≤ k + spanned t r).
  { intros e [He | ->%list_elem_of_singleton]%elem_of_app; [| simpl; lia].
    pose proof (Hev e He). lia. }
  split; [done |]. intros m Hm.
  assert (length (view r) = n) as Hlen.
  { rewrite view_length. pose proof (wf_len r Hr). lia. }
  destruct (decide (m = n)) as [-> | Hmn].
  - rewrite drop_ge by (rewrite Hv1; unfold push; rewrite length_alter, shift_length; lia).
    rewrite (values_after_none t0 d _ _ Hev'); [done | lia].
  - rewrite Hv1, push_concat by (rewrite shift_length; lia).
    rewrite drop_shift_concat by lia.
    unfold values_after. rewrite filter_app, fmap_app. f_equal.
    + destruct (decide (Z.to_nat (spanned t r) + m ≤ n)%nat) as [Hle | Hgt].
      * rewrite Hv by done. unfold values_after.
        replace (k - Z.of_nat n + Z.of_nat (Z.to_nat (spanned t r) + m))
          with (k + spanned t r - Z.of_nat n + Z.of_nat m) by lia. done.
      * rewrite drop_ge by lia. symmetry.
        apply (values_after_none t0 d _ _ Hev). lia.
    + rewrite filter_cons_True by (simpl; lia). done.
Qed.

(** A reading moves the clock of the window and leaves its buckets: what was added before
    then counts as added that many slots later. *)
Definition later (s : Z) (evs : list (Z * float64)) : list (Z * float64) := (λ e, (e.1 + s, e.2)) <$> evs.

Lemma values_after_later t0 d s k evs :
  0 < d → values_after t0 d (k + s) (later (s * d) evs) = values_after t0 d k evs.
Proof.
  intros Hd. unfold values_after, later. induction evs as [|[t v] evs IH]; [done |].
  rewrite fmap_cons, !filter_cons. simpl.
  assert ((t + s * d - t0) / d = (t - t0) / d + s) as ->
    by (replace (t + s * d - t0) with (t - t0 + s * d) by lia; rewrite Z.div_add; lia).
  destruct (decide (k < (t - t0) / d)), (decide (k + s < (t - t0) / d + s)); try lia; [|exact IH].
  rewrite !fmap_cons. by f_equal.
Qed.

Lemma history_tick t0 d n evs r now :
  history t0 d n evs r → clock_ok now r →
  history t0 d n (later (spanned now r * d) evs) (ticked now r).
Proof.
  intros [Hr Hsz Hd (k & Hk & Hk0 & Hev & Hv)] Hc.
  destruct (spanned_bounds now r Hr Hc) as [[Hs0 _] _].
  destruct (wf_duration r Hr) as [Hdpos _]. rewrite Hd in Hdpos.
  split; [by apply ticked_wf | done | done |]. exists (k + spanned now r).
  split; [simpl; rewrite Hk, Hd; lia |]. split; [lia |]. split.
  - intros e (e0 & -> & He0)%list_elem_of_fmap. specialize (Hev e0 He0). simpl.
    replace (e0.1 + spanned now r * d - t0) with (e0.1 - t0 + spanned now r * d) by lia.
    rewrite Z.div_add by lia. lia.
  - intros m Hm. change (view (ticked now r)) with (view r). rewrite Hv by done.
    rewrite <- (values_after_later t0 d (spanned now r)) by done. f_equal; lia.
Qed.

Lemma history_new t0 d n r :
  (0 < n)%nat → 0 < d < two63 → NewRollingWindow (Z.of_nat n) d t0 = Ret r →
  history t0 d n [] r ∧ lastUpdateTime r = t0.
Proof.
  unfold NewRollingWindow, NewWindow. intros Hn Hd.
  destruct (Z.ltb_spec (Z.of_nat n) 0); [lia |]. rewrite Nat2Z.id. intros [= <-].
  set (w := MkWindow _ _). assert (length (buckets w) = n) as Hlen
    by (simpl; by rewrite length_fmap, length_seq).
  assert (∀ i b, buckets w !! i = Some b → next b = (S i `mod` n)%nat ∧ BucketCount b = 0 ∧
            Points b = []) as Hb.
  { intros i b Hi. simpl in Hi. rewrite list_lookup_fmap in Hi.
    apply fmap_Some in Hi as (j & Hj & ->). apply lookup_seq in Hj as [-> Hj]. simpl.
    split; [| done]. destruct (Z.eqb_spec (Z.of_nat (i + 1)) (Z.of_nat n)) as [E | E].
    - assert (S i = n) as -> by lia. by rewrite Nat.Div0.mod_same.
    - rewrite Nat.mod_small by lia. lia. }
  assert (wf (MkRollingWindow w 0 d t0)) as Hwf.
  { split; cbn [window offset bucketDuration]; [simpl; lia | simpl size; lia | simpl; lia | | done].
    intros i b Hi. rewrite Hlen. by destruct (Hb i b Hi) as (-> & -> & ->). }
  split; [| done]. split; [done.. |]. exists 0. simpl lastUpdateTime.
  split_and!; [lia | done | by intros ? ?%elem_of_nil |].
  intros m Hm. apply concat_nil_Forall, Forall_forall. intros ps Hps.
  assert (ps ∈ view (MkRollingWindow w 0 d t0)) as Hin.
  { eapply elem_of_submseteq; [exact Hps |]. apply sublist_submseteq, sublist_drop. }
  unfold view in Hin. apply list_elem_of_fmap in Hin as (b & -> & Hbin).
  apply along_in in Hbin; [| intros E; simpl window in E; rewrite E in Hlen; simpl in Hlen; lia].
  apply list_elem_of_lookup in Hbin as [i Hi]. by apply (Hb i b Hi).
Qed.

Lemma history_clock t0 d n evs r t :
  history t0 d n evs r → lastUpdateTime r ≤ t < t0 + two63 → clock_ok t r.
Proof.
  intros [Hr _ Hd (k & Hk & Hk0 & _)] Ht. destruct (wf_duration r Hr) as [Hpos _].
  rewrite Hd in Hpos. pose proof (Z.mul_nonneg_nonneg k d Hk0). unfold clock_ok. lia.
Qed.

Lemma history_adds t0 d n now evs : ∀ pre r t,
  now < t0 + two63 → history t0 d n pre r → lastUpdateTime r ≤ t →
  Sorted Z.le (t :: evs.*1) → t ≤ now → Forall (λ e, e.1 ≤ now) evs →
  ∃ r', adds evs r = Ret r' ∧ history t0 d n (pre ++ evs) r' ∧ lastUpdateTime r' ≤ now.
Proof.
  induction evs as [|[t1 v] evs IH]; intros pre r t Hnow Hh Hlast Hsort Ht Hall; simpl.
  - exists r. rewrite app_nil_r. split_and!; [done | done | lia].
  - apply Sorted_inv in Hsort as [Hsort Hhd]. apply HdRel_inv in Hhd.
    simpl in Hhd, Hsort.
    apply Forall_cons in Hall as [Ht1 Hall]. simpl in Ht1.
    assert (clock_ok t1 r) as Hc.
    { eapply history_clock; [done | lia]. }
    destruct (Add_view t1 v r (hist_wf _ _ _ _ _ Hh) Hc) as (r1 & E & _). rewrite E. simpl.
    destruct (history_add _ _ _ _ _ _ _ _ Hh Hc E) as [Hh1 Hl1].
    destruct (IH (pre ++ [(t1, v)]) r1 t1 Hnow Hh1) as (r' & E' & Hh' & Hl'); [|done..|].
    + rewrite <- Hl1. destruct (wf_duration r1 (hist_wf _ _ _ _ _ Hh1)) as [Hd _].
      rewrite (hist_d _ _ _ _ _ Hh1) in Hd.
      pose proof (Z.mul_div_le (t1 - t0) d Hd). lia.
    + exists r'. rewrite <- app_assoc in Hh'. done.
Qed.

Lemma history_live t0 d n evs r now :
  history t0 d n evs r → clock_ok now r →
  concat (drop (Z.to_nat (spanned now r)) (view r))
  = values_after t0 d ((now - t0) / d - Z.of_nat n) evs.
Proof.
  intros [Hr Hsz Hd (k & Hk & Hk0 & Hev & Hv)] Hc.
  destruct (wf_duration r Hr) as [Hdpos _].
  destruct (spanned_bounds now r Hr Hc) as [[Hs0 _] _].
  assert ((now - t0) / d = k + spanned now r) as Hslot.
  { unfold spanned. rewrite Hk, Hd in *.
    replace (now - t0) with (k * d + (now - (t0 + k * d))) by lia.
    rewrite Z.add_comm, Z.div_add by lia. lia. }
  rewrite Hslot. destruct (decide (Z.to_nat (spanned now r) ≤ n)%nat) as [Hle | Hgt].
  - rewrite Hv by done. unfold values_after.
    by replace (k - Z.of_nat n + Z.of_nat (Z.to_nat (spanned now r)))
      with (k + spanned now r - Z.of_nat n) by lia.
  - pose proof (wf_len r Hr). rewrite drop_ge by (rewrite view_length; lia).
    symmetry. apply (values_after_none t0 d _ _ Hev). lia.
Qed.

Lemma history_reduce t0 d n evs r f g now :
  aggregates f g → history t0 d n evs r → clock_ok now r →
  ∃ r', Reduce_float now f r
    = Some (Ret (r', g (values_after t0 d ((now - t0) / d - Z.of_nat n) evs))).
Proof.
  intros Hfg Hh Hc. rewrite (Reduce_view f g now r Hfg (hist_wf _ _ _ _ _ Hh) Hc).
  rewrite (history_live _ _ _ _ _ _ Hh Hc). by eexists.
Qed.

(** ** Sums of integers *)

Definition sum_abs (vs : list Z) : Z := foldr (λ v s, Z.abs v + s) 0 vs.
Definition sum_Z (vs : list Z) : Z := foldr Z.add 0 vs.

Lemma sum_abs_nonneg vs : 0 ≤ sum_abs vs.
Proof. induction vs as [|v vs IH]; simpl; lia. Qed.

Lemma sum_exact vs s :
  Z.abs s + sum_abs vs < 2 ^ 53 →
  fold_left f64_add (float64_of_int <$> vs) (exact s) = exact (s + sum_Z vs) ∧
  Z.abs (s + sum_Z vs) < 2 ^ 53.
Proof.
  revert s. induction vs as [|v vs IH]; intros s Hb; simpl in *.
  - rewrite Z.add_0_r. split; [done | lia].
  - pose proof (sum_abs_nonneg vs). rewrite float64_of_int_exact by lia.
    rewrite f64_add_exact by lia. rewrite Z.add_assoc. apply IH. lia.
Qed.

(** Repeated readings, one bucket duration apart. *)
Fixpoint polls (n : nat) (r : RollingWindow) : option (outcome (RollingWindow * float64)) :=
  match Reduce_float (lastUpdateTime r + bucketDuration r) Sum r, n with
  | Some (Ret (r', _)), S n' => polls n' r'
  | res, _ => res
  end.

(** ** Properties *)

(** C5. A rolling window that is only added to is exact: after any additions at
    non-decreasing times, each aggregation computes its function of the values
    added during the last [n] slots (the current one included), in the order of
    their addition, and 0 when there are none. *)
Theorem rolling_window_spec t0 d n evs now r0 :
  (0 < n)%nat → 0 < d < two63 → NewRollingWindow (Z.of_nat n) d t0 = Ret r0 →
  Sorted Z.le (t0 :: evs.*1) → Forall (λ e, e.1 ≤ now) evs → t0 ≤ now < t0 + two63 →
  let live := values_after t0 d ((now - t0) / d - Z.of_nat n) evs in
  ∃ r, adds evs r0 = Ret r ∧
    (∃ r', Counter_Sum now r = Some (Ret (r', sum_of live))) ∧
    (∃ r', Counter_Avg now r = Some (Ret (r', avg_of live))) ∧
    (∃ r', Counter_Max now r = Some (Ret (r', max_of live))) ∧
    (∃ r', Counter_Min now r = Some (Ret (r', min_of live))) ∧
    (∃ r', Reduce_float now Count r = Some (Ret (r', count_of live))).
Proof.
  intros Hn Hd Hnew Hsort Hall Hnow live.
  destruct (history_new _ _ _ _ Hn Hd Hnew) as [Hh Hl].
  destruct (history_adds t0 d n now evs [] r0 t0) as (r & E & Hh' & Hl'); try done; try lia.
  assert (clock_ok now r) as Hc.
  { eapply history_clock; [done | lia]. }
  exists r. split; [exact E |].
  split_and!; eapply history_reduce; eauto using Sum_aggregates, Avg_aggregates,
    Max_aggregates, Min_aggregates, Count_aggregates.
Qed.

(** The integer value of a rolling counter is exact: as long as the added
    integers' magnitudes sum below 2^53, [Value] is the integer sum of those of
    the last [n] slots, with no rounding. *)
Theorem Counter_Value_exact t0 d n evs now r0 :
  (0 < n)%nat → 0 < d < two63 → NewRollingWindow (Z.of_nat n) d t0 = Ret r0 →
  Sorted Z.le (t0 :: evs.*1) → Forall (λ e, e.1 ≤ now) evs → t0 ≤ now < t0 + two63 →
  let live := snd <$> filter (λ e, (now - t0) / d - Z.of_nat n < (e.1 - t0) / d) evs in
  sum_abs live < 2 ^ 53 →
  ∃ r r', foldl (λ r e, let! r := r in Counter_Add e.1 e.2 r) (Ret r0) evs = Ret r ∧
    Counter_Value now r = Some (Ret (r', sum_Z live)).
Proof.
  intros Hn Hd Hnew Hsort Hall Hnow live Hlive.
  set (fevs := (λ e : Z * Z, (e.1, float64_of_int e.2)) <$> evs).
  assert (fevs.*1 = evs.*1) as Hfst by (unfold fevs; by rewrite <- list_fmap_compose).
  assert (Hadds : ∀ r, foldl (λ r e, let! r := r in Counter_Add e.1 e.2 r) (Ret r) evs
    = adds fevs r).
  { clear. unfold fevs. induction evs as [|e evs IH]; intros r; simpl; [done |].
    unfold Counter_Add at 2. destruct (RollingWindow_Add _ _ r) as [r1|w]; simpl; [apply IH |].
    clear. induction evs; done. }
  destruct (history_new _ _ _ _ Hn Hd Hnew) as [Hh Hl].
  destruct (history_adds t0 d n now fevs [] r0 t0) as (r & E & Hh' & Hl'); try done; try lia.
  { by rewrite Hfst. }
  { apply Forall_fmap. eapply Forall_impl; [exact Hall | done]. }
  assert (clock_ok now r) as Hc.
  { eapply history_clock; [done | lia]. }
  destruct (history_reduce t0 d n fevs r Sum sum_of now Sum_aggregates Hh' Hc) as (r' & Hsum).
  exists r, r'. rewrite Hadds. split; [exact E |].
  unfold Counter_Value, Counter_Sum. rewrite Hsum. simpl. do 3 f_equal.
  replace (values_after t0 d ((now - t0) / d - Z.of_nat n) fevs) with (float64_of_int <$> live).
  - unfold sum_of. destruct (sum_exact live 0) as [E1 E2]; [simpl; lia |].
    change f64_zero with (exact 0). rewrite E1. by apply int64_of_exact.
  - unfold live, values_after, fevs. clear. induction evs as [|e evs IH]; [done |].
    rewrite fmap_cons, !filter_cons. simpl. case_decide; simpl; [f_equal |]; exact IH.
Qed.

(** Readings keep expired data alive: [Reduce] advances [lastUpdateTime]
    without rolling the ring, so a window of at least two buckets that is read
    once per bucket duration, and not added to, reports the same sum for ever,
    although after [size] such readings every point has left the window. *)
Theorem polling_keeps_expired n r :
  wf r → 1 < size (window r) →
  ∃ r', polls n r = Some (Ret (r', sum_of (concat (drop 1 (view r))))) ∧
    lastUpdateTime r' = lastUpdateTime r + Z.of_nat (S n) * bucketDuration r.
Proof.
  revert r. induction n as [|n IH]; intros r Hr Hsz;
    destruct (wf_duration r Hr) as [Hd1 Hd2];
    set (now := lastUpdateTime r + bucketDuration r);
    (assert (clock_ok now r) as Hc by (unfold clock_ok, now; lia));
    (assert (spanned now r = 1) as Hs
      by (unfold spanned, now; rewrite Z.add_simpl_l; apply Z.div_same; lia));
    pose proof (Reduce_view Sum sum_of now r Sum_aggregates Hr Hc) as E;
    rewrite Hs in E; change (Z.to_nat 1) with 1%nat in E; simpl polls; fold now; rewrite E.
  - eexists. split; [done |]. simpl. rewrite Hs. lia.
  - destruct (IH (ticked now r) (ticked_wf now r Hr) Hsz) as (r' & E' & Hl').
    exists r'. split; [exact E' |]. rewrite Hl'. simpl. rewrite Hs. lia.
Qed.

(** ** Witnesses: two buckets of 10 ns *)

Definition demo_window : RollingWindow :=
  MkRollingWindow (MkWindow [MkBucket [] 0 1; MkBucket [] 0 0] 2) 0 10 0.

Definition demo_events : list (Z * Z) := [(1, 5); (12, 7); (13, 8)].

Lemma demo_sorted : Sorted Z.le [0; 1; 12; 13].
Proof. repeat constructor; simpl; lia. Qed.

Lemma rolling_window_spec_witness :
  ∃ r, adds ((λ e : Z * Z, (e.1, float64_of_int e.2)) <$> demo_events) demo_window = Ret r ∧
    (∃ r', Counter_Sum 25 r = Some (Ret (r', float64_of_int 15))) ∧
    (∃ r', Counter_Max 25 r = Some (Ret (r', float64_of_int 8))).
Proof.
  destruct (rolling_window_spec 0 10 2
    ((λ e : Z * Z, (e.1, float64_of_int e.2)) <$> demo_events) 25 demo_window)
    as (r & Hr & Hsum & _ & Hmax & _);
    [lia | unfold two63; lia | reflexivity | exact demo_sorted
    | repeat constructor; simpl; lia | unfold two63; lia |].
  by exists r.
Defined.

Lemma Counter_Value_exact_witness :
  ∃ r r', foldl (λ r e, let! r := r in Counter_Add e.1 e.2 r) (Ret demo_window) demo_events
          = Ret r ∧ Counter_Value 25 r = Some (Ret (r', 15)).
Proof.
  apply (Counter_Value_exact 0 10 2 demo_events 25 demo_window);
    [lia | unfold two63; lia | reflexivity | exact demo_sorted
    | repeat constructor; simpl; lia | unfold two63; lia | reflexivity].
Defined.

(** One point, added at time 0. *)
Definition polled_window : RollingWindow :=
  MkRollingWindow (MkWindow [MkBucket [float64_of_int 1] 1 1; MkBucket [] 0 0] 2) 0 10 0.

Lemma polled_window_wf : wf polled_window.
Proof.
  split; simpl; [lia | lia | lia | | unfold two63; lia].
  intros [|[|i]] b Hb; simpl in Hb; simplify_eq; done.
Qed.

Lemma polling_keeps_expired_witness :
  ∃ r', polls 9 polled_window = Some (Ret (r', float64_of_int 1)) ∧ lastUpdateTime r' = 100.
Proof. apply (polling_keeps_expired 9 polled_window); [exact polled_window_wf | done]. Defined.

(** ** The latest value of a gauge *)

Lemma Latest_view r :
  wf r → Gauge_Latest r = Ret (default f64_zero (last (default [] (last (view r))))).
Proof.
  intros Hr. pose proof (wf_size r Hr) as Hs. pose proof (wf_len r Hr) as Hlen. pose proof (wf_offset r Hr) as Ho.
  set (N := length (buckets (window r))) in *. set (o := Z.to_nat (offset r)).
  assert (∃ b, buckets (window r) !! o = Some b) as [b Hb] by (apply lookup_lt_is_Some; lia).
  assert (last (view r) = Some (Points b)) as Hlast.
  { rewrite last_lookup, view_length. apply view_lookup; [lia|]. rewrite <- Hb. f_equal. fold o. fold N.
    replace (S o + pred N)%nat with (o + 1 * N)%nat by lia. rewrite Nat.Div0.mod_add, Nat.mod_small; lia. }
  unfold Gauge_Latest. destruct (Z.eqb_spec (size (window r)) 0); [lia|].
  unfold Window_Bucket. rewrite <- (Z2Nat.id (offset r)) by lia. rewrite bucket_index_ok by by apply wf_sized.
  fold o. fold N. rewrite Nat.mod_small by lia. simpl. rewrite Hb. simpl. rewrite Hlast. simpl.
  destruct (wf_bucket r Hr o b Hb) as [_ ->]. destruct (Points b) as [|p ps] using rev_ind; [done|].
  rewrite last_snoc, length_app. simpl. destruct (Z.eqb_spec (Z.of_nat (length ps + 1)) 0); [lia|].
  apply slice_get_Ret. replace (Z.to_nat (Z.of_nat (length ps + 1) - 1)) with (length ps) by lia.
  split; [lia|]. by rewrite lookup_app_r, Nat.sub_diag.
Qed.

(** What was added last is the latest value, whatever left the window with it. *)
Theorem gauge_latest now val r :
  wf r → clock_ok now r →
  ∃ r', Gauge_Add now val r = Ret r' ∧ wf r' ∧ Gauge_Latest r' = Ret (float64_of_int val).
Proof.
  intros Hr Hc. destruct (Add_view now (float64_of_int val) r Hr Hc) as (r' & Ha & Hr' & _ & _ & _ & Hv).
  exists r'. split; [done|]. split; [done|]. rewrite Latest_view, Hv by done. unfold push.
  set (v := shift _ _). assert (v ≠ []) as Hne.
  { intros Hz. pose proof (shift_length (Z.to_nat (spanned now r)) (view r)) as Hl. fold v in Hl. rewrite Hz, view_length in Hl.
    destruct (wf_sized r Hr) as [Hb _]. by destruct (buckets (window r)). }
  clearbody v. destruct v as [|x v] using rev_ind; [done|]. rewrite length_app. simpl.
  replace (length v + 1 - 1)%nat with (length v + 0)%nat by lia.
  rewrite alter_app_r. simpl. rewrite last_snoc. simpl. by rewrite last_snoc.
Qed.
