(* ===== verification/SRE.v ===== *)
(** * The SRE circuit breaker (stability/circuitbreaker/sre)

    The breaker counts its requests and successes in a rolling counter and
    rejects with a probability computed in [float64].  The clock and the random
    number drawn by [trueOnProb] are arguments. *)

From S2P Require Import Prelude Float64 Window.
From Stdlib Require Import Floats.SpecFloat.

Local Open Scope Z_scope.
Local Open Scope go_scope.

Definition StateClosed : Z := 0.
Definition StateOpen : Z := 1.

Inductive breaker_err := ErrNotAllowed.

Record options := MkOptions {
  opt_success : float64;
  opt_request : Z;
  opt_bucket : Z;
  opt_window : Z
}.

Definition WithSuccess (success : float64) (o : options) : options :=
  MkOptions success (opt_request o) (opt_bucket o) (opt_window o).
Definition WithRequest (request : Z) (o : options) : options :=
  MkOptions (opt_success o) request (opt_bucket o) (opt_window o).
Definition WithBucket (bucket : Z) (o : options) : options :=
  MkOptions (opt_success o) (opt_request o) bucket (opt_window o).
Definition WithWindow (window : Z) (o : options) : options :=
  MkOptions (opt_success o) (opt_request o) (opt_bucket o) window.

Record sreBreaker := MkBreaker {
  stat : RollingWindow;
  k : float64;
  request : Z;
  state : Z
}.

Definition set_stat (w : RollingWindow) (b : sreBreaker) : sreBreaker :=
  MkBreaker w (k b) (request b) (state b).
Definition set_state (s : Z) (b : sreBreaker) : sreBreaker :=
  MkBreaker (stat b) (k b) (request b) s.

(** The constant 0.6, rounded to [float64], and three seconds. *)
Definition default_options : options :=
  MkOptions (f64_div (float64_of_int 6) (float64_of_int 10)) 100 10 3000000000.

Definition NewSREBraker (opts : list (options → options)) (now : Z) : outcome sreBreaker :=
  let opt := fold_left (λ o f, f o) opts default_options in
  if opt_bucket opt =? 0 then Panic "integer divide by zero"
  else
    let! stat := NewRollingWindow (opt_bucket opt)
                   (wrap64 (Z.quot (opt_window opt) (opt_bucket opt))) now in
    Ret (MkBreaker stat (f64_div (float64_of_int 1) (opt_success opt))
           (opt_request opt) StateClosed).

(** The callback of [getStat] on one bucket: the captured [success] and
    [total] are threaded. *)
Definition stat_bucket '((success, total) : Z * Z) (b : Bucket) : Z * Z :=
  (fold_left (λ s p, s +i int64_of_float p) (Points b) success, total +i BucketCount b).

Definition getStat (now : Z) (b : sreBreaker) : option (outcome (sreBreaker * (Z * Z))) :=
  then_ret (λ '(w, st), (set_stat w b, st))
    (Reduce now (0, 0) (λ it, all_buckets stat_bucket it (0, 0)) (stat b)).

(** [rnd] is the number in [0, 1) that [b.r.Float64()] returns. *)
Definition trueOnProb (rnd prob : float64) : bool := f64_ltb rnd prob.

Definition dropProb (requests : float64) (total : Z) : float64 :=
  math_Max f64_zero
    (f64_div (f64_sub (float64_of_int total) requests) (float64_of_int (total +i 1))).

(** [Allow] after [getStat]. *)
Definition decide_allow (rnd : float64) (b : sreBreaker) (success total : Z)
    : sreBreaker * option breaker_err :=
  let requests := f64_mul (k b) (float64_of_int success) in
  if (total <? request b) || f64_ltb (float64_of_int total) requests then
    (if state b =? StateOpen then set_state StateClosed b else b, None)
  else
    let b := if state b =? StateClosed then set_state StateOpen b else b in
    if trueOnProb rnd (dropProb requests total) then (b, Some ErrNotAllowed) else (b, None).

Definition Allow (now : Z) (rnd : float64) (b : sreBreaker)
    : option (outcome (sreBreaker * option breaker_err)) :=
  then_ret (λ '(b, (success, total)), decide_allow rnd b success total) (getStat now b).

Definition MarkSuccess (now : Z) (b : sreBreaker) : outcome sreBreaker :=
  let! w := Counter_Add now 1 (stat b) in Ret (set_stat w b).

Definition MarkFailed (now : Z) (b : sreBreaker) : outcome sreBreaker :=
  let! w := Counter_Add now 0 (stat b) in Ret (set_stat w b).

(** ** Runs: calls at given times *)

Definition mark (now : Z) (ok : bool) (b : sreBreaker) : outcome sreBreaker :=
  if ok then MarkSuccess now b else MarkFailed now b.

Inductive call := CMark (ok : bool) | CAllow (rnd : float64).

Definition call_step (now : Z) (c : call) (b : sreBreaker) : option (outcome sreBreaker) :=
  match c with
  | CMark ok => Some (mark now ok b)
  | CAllow rnd => then_ret fst (Allow now rnd b)
  end.

Fixpoint run_calls (cs : list (Z * call)) (b : sreBreaker) : option (outcome sreBreaker) :=
  match cs with
  | [] => Some (Ret b)
  | (t, c) :: cs' => match call_step t c b with
                     | Some (Ret b) => run_calls cs' b
                     | r => r
                     end
  end.

(** The marks made, and the times at which the breaker counts them as made: the slots that
    pass between an [Allow] and the call before it do not age what was marked before.
    [last] is where the slot of the last call begins. *)
Definition made (cs : list (Z * call)) : list (Z * bool) :=
  cs ≫= λ c, match c.2 with CMark ok => [(c.1, ok)] | CAllow _ => [] end.

Definition counted_step (d : Z) (acc : Z * list (Z * bool)) (c : Z * call) : Z * list (Z * bool) :=
  let '(last, ms) := acc in
  let s := (c.1 - last) / d * d in
  (last + s, match c.2 with
             | CMark ok => ms ++ [(c.1, ok)]
             | CAllow _ => (λ m : Z * bool, (m.1 + s, m.2)) <$> ms
             end).

Definition counted (t0 d : Z) (cs : list (Z * call)) : list (Z * bool) :=
  (fold_left (counted_step d) cs (t0, [])).2.

(** The slots that passed right before the [Allow]s. *)
Fixpoint stalled (d last : Z) (cs : list (Z * call)) : Z :=
  match cs with
  | [] => 0
  | (t, c) :: cs' =>
      let s := (t - last) / d in
      match c with CMark _ => 0 | CAllow _ => s end + stalled d (last + s * d) cs'
  end.

(** Successive [Allow]s, one bucket duration apart, with the draws [rnds]. *)
Fixpoint allows (rnds : list float64) (b : sreBreaker)
    : option (outcome (sreBreaker * list (option breaker_err))) :=
  match rnds with
  | [] => Some (Ret (b, []))
  | rnd :: rnds' =>
      match Allow (lastUpdateTime (stat b) + bucketDuration (stat b)) rnd b with
      | Some (Ret (b, e)) => then_ret (λ '(b, es), (b, e :: es)) (allows rnds' b)
      | Some (Panic why) => Some (Panic why)
      | None => None
      end
  end.

(** ** Statistics of a list of points *)

Definition stats (ps : list float64) : Z * Z :=
  (fold_left (λ s p, s +i int64_of_float p) ps 0, wrap64 (Z.of_nat (length ps))).

Lemma wrap64_add_l a b : (wrap64 a +i b) = wrap64 (a + b).
Proof.
  unfold wrap64. f_equal.
  replace ((a + two63) mod two64 - two63 + b + two63)
    with ((a + two63) mod two64 + b) by lia.
  rewrite Z.add_mod_idemp_l by done. f_equal. lia.
Qed.

Lemma stat_fold bs s n :
  (∀ b, b ∈ bs → BucketCount b = Z.of_nat (length (Points b))) →
  fold_left stat_bucket bs (s, wrap64 n)
  = (fold_left (λ s p, s +i int64_of_float p) (concat (Points <$> bs)) s,
     wrap64 (n + Z.of_nat (length (concat (Points <$> bs))))).
Proof.
  revert s n. induction bs as [|b bs IH]; intros s n Hb.
  - simpl. by rewrite Z.add_0_r.
  - rewrite fmap_cons. cbn [fold_left concat stat_bucket].
    rewrite wrap64_add_l, IH by (intros b' Hb'; apply Hb; by right).
    rewrite (Hb b) by left. rewrite fold_left_app, length_app. do 2 f_equal. lia.
Qed.

(** The statistics are those of the points that have not expired. *)
Lemma getStat_view now b :
  wf (stat b) → clock_ok now (stat b) →
  getStat now b
  = Some (Ret (set_stat (ticked now (stat b)) b,
       stats (concat (drop (Z.to_nat (spanned now (stat b))) (view (stat b)))))).
Proof.
  intros Hr Hc. unfold getStat.
  destruct (Z.lt_ge_cases (spanned now (stat b)) (size (window (stat b)))) as [Hlt | Hge].
  - destruct (Reduce_iterator now (stat b) Hr Hc Hlt)
      as (it & i & (H1 & H2 & H3 & H4 & H5 & H6) & Hb & E).
    rewrite E, (all_buckets_spec stat_bucket it (0, 0) i) by done. simpl.
    fold (iter_buckets it i). change (0, 0) with (0, wrap64 0).
    rewrite stat_fold by (intros b' Hb'; by apply H6, (along_in _ _ _ _ H2 Hb')).
    rewrite Hb. unfold view. by rewrite fmap_drop.
  - rewrite Reduce_expired by done. simpl. pose proof (wf_len (stat b) Hr).
    rewrite drop_ge by (rewrite view_length; lia). done.
Qed.

(** ** Marks are additions *)

Definition mark_event (m : Z * bool) : Z * float64 :=
  (m.1, float64_of_int (if m.2 then 1 else 0)).

Definition successes (ms : list (Z * bool)) : nat := length (filter (λ m, m.2 = true) ms).

Lemma stats_marks ms :
  stats (snd <$> (mark_event <$> ms))
  = (wrap64 (Z.of_nat (successes ms)), wrap64 (Z.of_nat (length ms))).
Proof.
  unfold stats. rewrite !length_fmap. f_equal.
  assert (∀ s, fold_left (λ s p, s +i int64_of_float p) (snd <$> (mark_event <$> ms)) (wrap64 s)
    = wrap64 (s + Z.of_nat (successes ms))) as Hf; [| by apply (Hf 0)].
  induction ms as [|[t ok] ms IH]; intros s; [simpl; by rewrite Z.add_0_r |].
  rewrite !fmap_cons. cbn [fold_left]. rewrite wrap64_add_l.
  rewrite IH. f_equal. unfold successes. destruct ok.
  - rewrite filter_cons_True by done. cbn [length].
    change (int64_of_float (mark_event (t, true)).2) with 1. lia.
  - rewrite filter_cons_False by done.
    change (int64_of_float (mark_event (t, false)).2) with 0. lia.
Qed.

Lemma values_after_marks t0 d k ms :
  values_after t0 d k (mark_event <$> ms)
  = snd <$> (mark_event <$> filter (λ m : Z * bool, k < (m.1 - t0) / d) ms).
Proof.
  unfold values_after. induction ms as [|m ms IH]; [done |].
  rewrite fmap_cons, !filter_cons. simpl. case_decide; [| exact IH].
  rewrite !fmap_cons. by f_equal.
Qed.

Lemma decide_allow_err rnd b b' s t :
  k b' = k b → request b' = request b →
  (decide_allow rnd b' s t).2 = (decide_allow rnd b s t).2.
Proof.
  intros Hk Hr. unfold decide_allow. rewrite Hk, Hr. by repeat case_match.
Qed.

Lemma decide_allow_stat rnd b s t :
  stat (decide_allow rnd b s t).1 = stat b ∧ k (decide_allow rnd b s t).1 = k b ∧
  request (decide_allow rnd b s t).1 = request b.
Proof. unfold decide_allow. by repeat case_match. Qed.

(** ** Properties *)

Lemma mark_add now ok b :
  mark now ok b = let! w := RollingWindow_Add now (float64_of_int (if ok then 1 else 0)) (stat b) in
                  Ret (set_stat w b).
Proof. by destruct ok. Qed.

(** The window of the breaker holds the counted marks. *)
Record counting (t0 d : Z) (n : nat) (b0 b : sreBreaker) (last : Z) (ms : list (Z * bool)) : Prop := {
  ct_history : history t0 d n (mark_event <$> ms) (stat b);
  ct_last : lastUpdateTime (stat b) = last;
  ct_same : k b = k b0 ∧ request b = request b0;
  ct_state : state b = StateClosed ∨ state b = StateOpen
}.

Lemma decide_allow_state rnd b s t :
  state b = StateClosed ∨ state b = StateOpen →
  state (decide_allow rnd b s t).1 =
    if (t <? request b) || f64_ltb (float64_of_int t) (f64_mul (k b) (float64_of_int s))
    then StateClosed else StateOpen.
Proof.
  intros Hs. unfold decide_allow, trueOnProb.
  destruct ((t <? request b) || f64_ltb _ _), Hs as [E | E]; rewrite E; simpl;
    repeat case_match; simpl; congruence.
Qed.

(** One [Allow] on the counted marks. *)
Lemma counting_allow t0 d n b0 b last ms now rnd :
  counting t0 d n b0 b last ms → clock_ok now (stat b) → Z.of_nat (length ms) < two63 →
  let live := filter (λ m : Z * bool, (now - t0) / d - Z.of_nat n < (m.1 - t0) / d) ms in
  let r := decide_allow rnd b (Z.of_nat (successes live)) (Z.of_nat (length live)) in
  Allow now rnd b = Some (Ret (set_stat (ticked now (stat b)) r.1, r.2)).
Proof.
  intros [Hh Hl Hk Hst] Hc Hlen live r. unfold Allow.
  rewrite (getStat_view now b) by (try apply Hh; done).
  rewrite (history_live _ _ _ _ _ _ Hh Hc), values_after_marks, stats_marks. fold live.
  assert (Z.of_nat (length live) < two63 ∧ Z.of_nat (successes live) ≤ Z.of_nat (length live)) as [? ?].
  { split; [eapply Z.le_lt_trans, Hlen; apply inj_le, length_filter |].
    unfold successes. apply inj_le, length_filter. }
  rewrite !wrap64_id by (unfold in_int64, two63 in *; lia). simpl. unfold r, decide_allow. simpl.
  by repeat case_match.
Qed.

Lemma later_marks s ms :
  mark_event <$> ((λ m : Z * bool, (m.1 + s, m.2)) <$> ms) = later s (mark_event <$> ms).
Proof. unfold later. rewrite <- !list_fmap_compose. done. Qed.

Lemma counting_step t0 d n b0 b last ms t c :
  counting t0 d n b0 b last ms → last ≤ t < t0 + two63 → Z.of_nat (length ms) < two63 →
  ∃ b', call_step t c b = Some (Ret b') ∧
    counting t0 d n b0 b' (counted_step d (last, ms) (t, c)).1 (counted_step d (last, ms) (t, c)).2 ∧
    (counted_step d (last, ms) (t, c)).1 ≤ t.
Proof.
  intros Hct Ht Hlen. pose proof Hct as [Hh Hl Hk Hst].
  assert (clock_ok t (stat b)) as Hc by (eapply history_clock; [done | lia]).
  destruct (wf_duration _ (hist_wf _ _ _ _ _ Hh)) as [Hd _]. rewrite (hist_d _ _ _ _ _ Hh) in Hd.
  assert (spanned t (stat b) = (t - last) / d) as Hs by (unfold spanned; by rewrite Hl, (hist_d _ _ _ _ _ Hh)).
  assert (last + (t - last) / d * d ≤ t) as Hle by (pose proof (Z.mul_div_le (t - last) d Hd); lia).
  destruct c as [ok | rnd]; simpl.
  - rewrite mark_add.
    destruct (Add_view t (float64_of_int (if ok then 1 else 0)) _ (hist_wf _ _ _ _ _ Hh) Hc)
      as (r' & E & _ & _ & _ & Hl' & _).
    destruct (history_add _ _ _ _ _ _ _ _ Hh Hc E) as [Hh' _]. rewrite E. simpl.
    eexists. split; [done |]. split; [|done]. split; simpl; [| | done | done].
    + by rewrite fmap_app.
    + by rewrite Hl', Hs, Hl, (hist_d _ _ _ _ _ Hh).
  - rewrite (counting_allow t0 d n b0 b last ms t rnd) by done. simpl.
    eexists. split; [done |]. split; [|done]. split; simpl.
    + rewrite later_marks, <- Hs. by apply history_tick.
    + by rewrite Hs, Hl, (hist_d _ _ _ _ _ Hh).
    + destruct (decide_allow_stat rnd b (Z.of_nat (successes (filter (λ m : Z * bool, (t - t0) / d - Z.of_nat n < (m.1 - t0) / d) ms)))
        (Z.of_nat (length (filter (λ m : Z * bool, (t - t0) / d - Z.of_nat n < (m.1 - t0) / d) ms)))) as (_ & -> & ->). done.
    + rewrite decide_allow_state by done. case_match; auto.
Qed.

Lemma counted_length d acc cs :
  (length (fold_left (counted_step d) cs acc).2 ≤ length acc.2 + length cs)%nat.
Proof.
  revert acc. induction cs as [|[t [ok | rnd]] cs IH]; intros [last ms]; simpl; [lia | |];
    (etrans; [apply IH |]); simpl; rewrite ?length_app, ?length_fmap; simpl; lia.
Qed.

Lemma counting_run t0 d n b0 now cs b last ms u :
  counting t0 d n b0 b last ms → last ≤ u ≤ now → now < t0 + two63 →
  Sorted Z.le (u :: cs.*1) → Forall (λ c, c.1 ≤ now) cs → Z.of_nat (length ms + length cs) < two63 →
  let acc := fold_left (counted_step d) cs (last, ms) in
  ∃ b', run_calls cs b = Some (Ret b') ∧ counting t0 d n b0 b' acc.1 acc.2 ∧ acc.1 ≤ now.
Proof.
  revert b last ms u. induction cs as [|[t c] cs IH]; intros b last ms u Hct Hu Hnow Hsort Hall Hlen.
  - exists b. split_and!; [done | done | simpl; lia].
  - apply Sorted_inv in Hsort as [Hsort Hhd]. apply HdRel_inv in Hhd. simpl in Hhd, Hsort, Hlen.
    apply Forall_cons in Hall as [Ht Hall]. simpl in Ht.
    destruct (counting_step t0 d n b0 b last ms t c Hct) as (b1 & E & Hct1 & Hle); [lia | lia |].
    destruct (counted_step d (last, ms) (t, c)) as [last1 ms1] eqn:Hacc. simpl in Hct1, Hle.
    assert (length ms1 ≤ S (length ms))%nat as Hms1.
    { unfold counted_step in Hacc. destruct c; simplify_eq/=; rewrite ?length_app, ?length_fmap; simpl; lia. }
    destruct (IH b1 last1 ms1 t Hct1) as (b' & E' & Hct' & Hle'); [lia | lia | done | done | lia |].
    exists b'. cbn [run_calls fold_left]. rewrite E, Hacc. done.
Qed.

(** A mark is counted as made at its time or later, by no more than the slots that passed
    right before [Allow]s. *)
Lemma counted_bounds d cs : 0 < d → ∀ last ms0 ms,
  Forall2 (λ m m' : Z * bool, m'.2 = m.2 ∧ m.1 ≤ m'.1) ms0 ms →
  ∀ u, last ≤ u → Sorted Z.le (u :: cs.*1) →
  0 ≤ stalled d last cs ∧
  Forall2 (λ m m' : Z * bool, m'.2 = m.2 ∧ m.1 ≤ m'.1) (ms0 ++ made cs) (fold_left (counted_step d) cs (last, ms)).2 ∧
  ∀ B, Forall2 (λ m m' : Z * bool, m'.1 ≤ m.1 + B) ms0 ms → 0 ≤ B →
    Forall2 (λ m m' : Z * bool, m'.1 ≤ m.1 + (B + d * stalled d last cs)) (ms0 ++ made cs)
      (fold_left (counted_step d) cs (last, ms)).2.
Proof.
  intros Hd. induction cs as [|[t c] cs IH]; intros last ms0 ms Hms u Hu Hsort.
  - simpl. unfold made. simpl. rewrite !app_nil_r. split_and!; [lia | done |].
    intros B HB _. eapply Forall2_impl; [exact HB |]. simpl. intros. lia.
  - apply Sorted_inv in Hsort as [Hsort Hhd]. apply HdRel_inv in Hhd. simpl in Hhd, Hsort.
    set (s := (t - last) / d). assert (0 ≤ s) as Hs by (apply Z.div_pos; lia).
    assert (last + s * d ≤ t) as Hle by (pose proof (Z.mul_div_le (t - last) d Hd); unfold s; lia).
    destruct c as [ok | rnd].
    + destruct (IH (last + s * d) (ms0 ++ [(t, ok)]) (ms ++ [(t, ok)])) with (u := t) as (H1 & H2 & H3); [| done | done |].
      { apply Forall2_app; [done |]. by repeat constructor. }
      change (made ((t, CMark ok) :: cs)) with ([(t, ok)] ++ made cs). rewrite app_assoc.
      cbn [fold_left counted_step stalled fst snd]. fold s. rewrite Z.add_0_l. split_and!; [done | done |].
      intros B HB HB0. apply H3; [|done]. apply Forall2_app; [done |]. repeat constructor. simpl. lia.
    + assert (∀ P Q : Z * bool → Z * bool → Prop, (∀ m m', P m m' → Q m (m'.1 + s * d, m'.2)) →
        Forall2 P ms0 ms → Forall2 Q ms0 ((λ m : Z * bool, (m.1 + s * d, m.2)) <$> ms)) as Hmap.
      { intros P Q HPQ HP. apply Forall2_fmap_r. eapply Forall2_impl; [exact HP | done]. }
      destruct (IH (last + s * d) ms0 ((λ m : Z * bool, (m.1 + s * d, m.2)) <$> ms)) with (u := t) as (H1 & H2 & H3); [| done | done |].
      { eapply Hmap, Hms. simpl. intros m m' [? ?]. split; [done | nia]. }
      change (made ((t, CAllow rnd) :: cs)) with (made cs).
      cbn [fold_left counted_step stalled fst snd]. fold s. split_and!; [lia | done |].
      intros B HB HB0.
      replace (B + d * (s + stalled d (last + s * d) cs)) with (B + s * d + d * stalled d (last + s * d) cs) by lia.
      apply H3; [|nia]. eapply Hmap, HB. simpl. intros. lia.
Qed.

(** C31. The breaker decides on the counts of its window, whatever marks and [Allow]s came
    before, at non-decreasing times.  [Allow] sees the number [total] of marks that count
    as made in the last [n] slots and the number [success] of successful ones among them.
    Below the request threshold, or when [total < k * success], the call is allowed and
    the breaker is closed; otherwise it is open and the call is rejected exactly when the
    draw is below the drop probability.  A mark counts as made at its time, or later: the
    slots between an earlier [Allow] and the call before that do not age what was marked
    before.  So the marks of the last [n] slots are always counted, older ones by no more
    than those slots, and none when every earlier [Allow] was in the slot of the call
    before it. *)
Theorem Allow_history t0 d n cs now rnd r0 kk req :
  (0 < n)%nat → 0 < d < two63 → NewRollingWindow (Z.of_nat n) d t0 = Ret r0 →
  Sorted Z.le (t0 :: cs.*1) → Forall (λ c, c.1 ≤ now) cs → t0 ≤ now < t0 + two63 →
  Z.of_nat (length cs) < two63 →
  let live := filter (λ m : Z * bool, (now - t0) / d - Z.of_nat n < (m.1 - t0) / d) (counted t0 d cs) in
  let total := Z.of_nat (length live) in
  let requests := f64_mul kk (float64_of_int (Z.of_nat (successes live))) in
  (∃ b b' e, run_calls cs (MkBreaker r0 kk req StateClosed) = Some (Ret b) ∧
    Allow now rnd b = Some (Ret (b', e)) ∧
    if (total <? req) || f64_ltb (float64_of_int total) requests
    then e = None ∧ state b' = StateClosed
    else state b' = StateOpen ∧
         e = if f64_ltb rnd (dropProb requests total) then Some ErrNotAllowed else None) ∧
  Forall2 (λ m m' : Z * bool, m'.2 = m.2 ∧ m.1 ≤ m'.1 ≤ m.1 + d * stalled d t0 cs) (made cs) (counted t0 d cs).
Proof.
  intros Hn Hd Hnew Hsort Hall Hnow Hlen live total requests.
  destruct (history_new _ _ _ _ Hn Hd Hnew) as [Hh Hl]. set (b0 := MkBreaker r0 kk req StateClosed).
  split.
  - destruct (counting_run t0 d n b0 now cs b0 t0 [] t0) as (b & E & Hct & Hle); try done; try lia.
    { split; simpl; auto. }
    fold (counted t0 d cs) in Hct. pose proof Hct as [Hh' Hl' [Hk Hr] Hst].
    exists b, (set_stat (ticked now (stat b)) (decide_allow rnd b (Z.of_nat (successes live)) total).1), 
      (decide_allow rnd b (Z.of_nat (successes live)) total).2.
    assert (Z.of_nat (length (counted t0 d cs)) < two63) as Hc.
    { unfold counted. pose proof (counted_length d (t0, []) cs). simpl in *. lia. }
    split; [done |]. split.
    { apply (counting_allow t0 d n b0 b _ _ now rnd Hct); [|done]. eapply history_clock; [done | lia]. }
    simpl. rewrite decide_allow_state by done. unfold decide_allow, trueOnProb. rewrite Hk, Hr. simpl k. simpl request.
    fold requests. destruct ((total <? req) || f64_ltb (float64_of_int total) requests); [done |].
    split; [done |]. by case_match.
  - destruct (counted_bounds d cs ltac:(lia) t0 [] [] ltac:(constructor) t0 ltac:(lia) Hsort) as (_ & H1 & H2).
    specialize (H2 0 ltac:(constructor) ltac:(lia)). simpl in H1, H2. unfold counted.
    rewrite Forall2_lookup in *. intros i. specialize (H1 i). specialize (H2 i).
    inversion H1 as [m m' [? ?] E1 E2 |]; [|constructor]. rewrite <- E1, <- E2 in H2.
    inversion H2; subst. constructor. split; [done | lia].
Qed.

(** A breaker polled once per bucket duration never recovers: because the
    readings advance the window's clock without rolling it, successive [Allow]s
    keep deciding on the same success and request counts, whatever time has
    passed, so that old failures are never forgotten. *)
Theorem Allow_polled_forever rnds b :
  wf (stat b) → 1 < size (window (stat b)) →
  let '(success, total) := stats (concat (drop 1 (view (stat b)))) in
  ∃ b', allows rnds b
        = Some (Ret (b', (λ rnd, (decide_allow rnd b success total).2) <$> rnds)) ∧
    lastUpdateTime (stat b')
    = lastUpdateTime (stat b) + Z.of_nat (length rnds) * bucketDuration (stat b).
Proof.
  destruct (stats (concat (drop 1 (view (stat b))))) as [success total] eqn:Est.
  revert b Est. induction rnds as [|rnd rnds IH]; intros b Est Hr Hsz; simpl.
  - exists b. split; [done | lia].
  - destruct (wf_duration _ Hr) as [Hd1 Hd2].
    set (now := lastUpdateTime (stat b) + bucketDuration (stat b)).
    assert (clock_ok now (stat b)) as Hc by (unfold clock_ok, now; lia).
    assert (spanned now (stat b) = 1) as Hs
      by (unfold spanned, now; rewrite Z.add_simpl_l; apply Z.div_same; lia).
    unfold Allow. rewrite getStat_view by done. rewrite Hs.
    change (Z.to_nat 1) with 1%nat. rewrite Est. simpl.
    pose proof (decide_allow_stat rnd (set_stat (ticked now (stat b)) b) success total)
      as (Hst & Hk & Hrq).
    destruct (decide_allow rnd (set_stat (ticked now (stat b)) b) success total)
      as [b1 e] eqn:E1. simpl in Hst, Hk, Hrq.
    destruct (IH b1) as (b' & E' & Hl').
    + rewrite Hst. exact Est.
    + rewrite Hst. by apply ticked_wf.
    + by rewrite Hst.
    + exists b'. rewrite E'. simpl. split.
      * do 3 f_equal. f_equal.
        -- change e with (b1, e).2. rewrite <- E1. by apply decide_allow_err.
        -- apply list_fmap_ext. intros _ r' _. by apply decide_allow_err.
      * rewrite Hl', Hst. simpl. rewrite Hs. lia.
Qed.

(** ** Witnesses: two buckets of 10 ns, a threshold of one request, [k = 2] *)

(** An [Allow] one slot after a mark: the mark counts as made at 11 instead of 1. *)
Definition demo_calls : list (Z * call) := [(1, CMark true); (11, CAllow f64_zero); (12, CMark true); (23, CMark false)].

Lemma Allow_history_witness :
  counted 0 10 demo_calls = [(11, true); (12, true); (23, false)] ∧
  ∃ b b', run_calls demo_calls (MkBreaker demo_window (float64_of_int 2) 1 StateClosed) = Some (Ret b) ∧
    Allow 25 (f64_div (float64_of_int 1) (float64_of_int 8)) b = Some (Ret (b', None)) ∧
    state b' = StateClosed.
Proof.
  split; [by vm_compute |].
  destruct (Allow_history 0 10 2 demo_calls 25
    (f64_div (float64_of_int 1) (float64_of_int 8)) demo_window (float64_of_int 2) 1)
    as [(b & b' & e & H1 & H2 & H3) _];
    [lia | unfold two63; lia | reflexivity | repeat constructor; simpl; lia
    | repeat constructor; simpl; lia | unfold two63; lia | reflexivity |].
  destruct H3 as [-> H3]. by exists b, b'.
Defined.

(** One failure at time 0: the breaker still counts it after ten buckets. *)
Definition failed_breaker : sreBreaker :=
  MkBreaker (MkRollingWindow (MkWindow [MkBucket [float64_of_int 0] 1 1; MkBucket [] 0 0] 2)
    0 10 0) (float64_of_int 2) 1 StateClosed.

Lemma Allow_polled_forever_witness :
  ∃ b', allows (replicate 10 f64_zero) failed_breaker
        = Some (Ret (b', replicate 10 (Some ErrNotAllowed))) ∧
    lastUpdateTime (stat b') = 100.
Proof.
  apply (Allow_polled_forever (replicate 10 f64_zero) failed_breaker); [| done].
  split; simpl; [lia | lia | lia | | unfold two63; lia].
  intros [|[|i]] b Hb; simpl in Hb; simplify_eq; done.
Defined.
