(* ===== verification/BBR.v ===== *)
(** * The BBR rate limiter (stability/ratelimit/bbr)

    The limiter keeps two rolling counters (passes and response times), the
    number of requests in flight and two cached estimates.  The clock and the
    smoothed CPU load [gCPU] are arguments; the readings of the clock within one
    call are taken at one instant.  The closure that [Allow] returns is its
    start time, given back to [done].  [None] means that a loop ran out of
    fuel, which no method does (see [shouldDrop_total]). *)

From S2P Require Import Prelude Float64 Window.
From Stdlib Require Import Floats.SpecFloat.

Local Open Scope Z_scope.
Local Open Scope go_scope.

Definition Second : Z := 1000000000.
Definition Millisecond : Z := 1000000.

(** ** The CPU load, smoothed by [cpuProc] *)

Definition decay : float64 := f64_div (float64_of_int 95) (float64_of_int 100).

Definition cpuProc_tick (usage prevCPU : Z) : Z :=
  int64_of_float
    (f64_add (f64_mul (float64_of_int prevCPU) decay)
       (f64_mul (float64_of_int (Z.min usage 1000)) (f64_sub (float64_of_int 1) decay))).

(** ** State *)

Record counterCache := MkCache { val : Z; cache_time : Z }.

Record options := MkOptions {
  opt_Window : Z;
  Bucket : Z;
  CPUThreshold : Z;
  CPUQuota : float64
}.

Definition WithWindow (d : Z) (o : options) : options :=
  MkOptions d (Bucket o) (CPUThreshold o) (CPUQuota o).
Definition WithBucket (bucket : Z) (o : options) : options :=
  MkOptions (opt_Window o) bucket (CPUThreshold o) (CPUQuota o).
Definition WithCPUThreshold (threshold : Z) (o : options) : options :=
  MkOptions (opt_Window o) (Bucket o) threshold (CPUQuota o).
Definition WithCPUQuota (quota : float64) (o : options) : options :=
  MkOptions (opt_Window o) (Bucket o) (CPUThreshold o) quota.

(** [prevDropTime] is 0 as long as nothing was stored. *)
Record BBR := MkBBR {
  passStat : RollingWindow;
  rtStat : RollingWindow;
  inFlight : Z;
  bucketPerSecond : Z;
  bucketDuration : Z;
  prevDropTime : Z;
  maxPASSCache : option counterCache;
  minRtCache : option counterCache;
  opts : options
}.

Definition set_passStat w l := MkBBR w (rtStat l) (inFlight l) (bucketPerSecond l)
  (bucketDuration l) (prevDropTime l) (maxPASSCache l) (minRtCache l) (opts l).
Definition set_rtStat w l := MkBBR (passStat l) w (inFlight l) (bucketPerSecond l)
  (bucketDuration l) (prevDropTime l) (maxPASSCache l) (minRtCache l) (opts l).
Definition add_inFlight d l := MkBBR (passStat l) (rtStat l) (inFlight l +i d)
  (bucketPerSecond l) (bucketDuration l) (prevDropTime l) (maxPASSCache l)
  (minRtCache l) (opts l).
Definition set_prevDropTime t l := MkBBR (passStat l) (rtStat l) (inFlight l)
  (bucketPerSecond l) (bucketDuration l) t (maxPASSCache l) (minRtCache l) (opts l).
Definition set_maxPASSCache c l := MkBBR (passStat l) (rtStat l) (inFlight l)
  (bucketPerSecond l) (bucketDuration l) (prevDropTime l) (Some c) (minRtCache l) (opts l).
Definition set_minRtCache c l := MkBBR (passStat l) (rtStat l) (inFlight l)
  (bucketPerSecond l) (bucketDuration l) (prevDropTime l) (maxPASSCache l) (Some c) (opts l).

Definition default_options : options := MkOptions (Second * 10) 100 800 f64_zero.

Definition NewBBRLimiter (fs : list (options → options)) (now : Z) : outcome BBR :=
  let opt := fold_left (λ o f, f o) fs default_options in
  if Bucket opt =? 0 then Panic "integer divide by zero"
  else
    let bucketDuration := wrap64 (Z.quot (opt_Window opt) (Bucket opt)) in
    let! passStat := NewRollingWindow (Bucket opt) bucketDuration now in
    let! rtStat := NewRollingWindow (Bucket opt) bucketDuration now in
    if bucketDuration =? 0 then Panic "integer divide by zero"
    else Ret (MkBBR passStat rtStat 0 (Z.quot Second bucketDuration) bucketDuration 0
                None None opt).

(** [l.cpu()]. *)
Definition cpu (gCPU : Z) (l : BBR) : Z :=
  if SFeqb (CPUQuota (opts l)) f64_zero then gCPU
  else int64_of_float (f64_mul (float64_of_int gCPU) (CPUQuota (opts l))).

Definition timespan (now lastTime : Z) (l : BBR) : Z :=
  let v := Z.quot (time_sub now lastTime) (bucketDuration l) in
  if -1 <? v then v else Bucket (opts l).

Definition cached (now : Z) (c : option counterCache) (l : BBR) : option Z :=
  match c with
  | Some c => if timespan now (cache_time c) l <? 1 then Some (val c) else None
  | None => None
  end.

(** ** Estimates *)

Definition obind' {A B} (m : option (outcome A)) (f : A → option (outcome B))
    : option (outcome B) :=
  match m with
  | Some (Ret a) => f a
  | Some (Panic why) => Some (Panic why)
  | None => None
  end.

Definition pass_bucket '((i, result) : Z * float64) (b : Window.Bucket) : Z * float64 :=
  (i + 1, math_Max result (fold_left f64_add (Points b) f64_zero)).

Definition max_pass_loop (bucket : Z) (it : Iterator) : option (outcome float64) :=
  then_ret snd
    (each_bucket (Z.to_nat (count it)) (λ st, st.1 <? bucket) pass_bucket it
       (1, float64_of_int 1)).

Definition maxPass (now : Z) (l : BBR) : option (outcome (BBR * Z)) :=
  match cached now (maxPASSCache l) l with
  | Some v => Some (Ret (l, v))
  | None =>
      then_ret (λ '(w, x), let raw := int64_of_float x in
                  (set_maxPASSCache (MkCache raw now) (set_passStat w l), raw))
        (Reduce_float now (max_pass_loop (Bucket (opts l))) (passStat l))
  end.

Definition rt_bucket '((i, result) : Z * float64) (b : Window.Bucket) : Z * float64 :=
  (i + 1,
   match Points b with
   | [] => result
   | _ => math_Min result
            (f64_div (fold_left f64_add (Points b) f64_zero) (float64_of_int (BucketCount b)))
   end).

Definition min_rt_loop (bucket : Z) (it : Iterator) : option (outcome float64) :=
  then_ret snd
    (each_bucket (Z.to_nat (count it)) (λ st, st.1 <? bucket) rt_bucket it
       (1, math_MaxFloat64)).

Definition minRt (now : Z) (l : BBR) : option (outcome (BBR * Z)) :=
  match cached now (minRtCache l) l with
  | Some v => Some (Ret (l, v))
  | None =>
      (* rawMinRt := l.rtStat.Min(), whose value is not used further *)
      obind' (Counter_Min now (rtStat l)) (λ '(w, _),
      then_ret (λ '(w, x),
                  let raw := int64_of_float (math_Ceil x) in
                  let raw := if raw <=? 0 then 1 else raw in
                  (set_minRtCache (MkCache raw now) (set_rtStat w l), raw))
        (Reduce_float now (min_rt_loop (Bucket (opts l))) w))
  end.

Definition half : float64 := f64_div (float64_of_int 1) (float64_of_int 2).

Definition maxInFlight (now : Z) (l : BBR) : option (outcome (BBR * Z)) :=
  obind' (maxPass now l) (λ '(l, mp),
  then_ret (λ '(l, mr),
      (l, int64_of_float (f64_add
            (math_Floor (f64_div (float64_of_int ((mp *i mr) *i bucketPerSecond l))
                           (float64_of_int 1000))) half)))
    (minRt now l)).

(** ** Decisions *)

Definition shouldDrop (now gCPU : Z) (l : BBR) : option (outcome (BBR * bool)) :=
  if cpu gCPU l <? CPUThreshold (opts l) then
    if prevDropTime l =? 0 then Some (Ret (l, false))
    else if now -i prevDropTime l <=? Second then
      if 1 <? inFlight l
      then then_ret (λ '(l, mp), (l, mp <? inFlight l)) (maxPass now l)
      else Some (Ret (l, false))
    else Some (Ret (set_prevDropTime 0 l, false))
  else
    let inflight := inFlight l in
    then_ret (λ '(l, mi),
        let drop := (1 <? inflight) && (mi <? inflight) in
        if drop : bool then
          if negb (prevDropTime l =? 0) then (l, drop) else (set_prevDropTime now l, drop)
        else (l, drop))
      (maxInFlight now l).

Inductive limit_err := ErrLimitExceeded.

(** A granted request is its start time. *)
Definition Allow (now gCPU : Z) (l : BBR) : option (outcome (BBR * (Z + limit_err))) :=
  then_ret (λ '(l, drop),
      if drop : bool then (l, inr ErrLimitExceeded) else (add_inFlight 1 l, inl now))
    (shouldDrop now gCPU l).

Definition done (now start : Z) (l : BBR) : outcome BBR :=
  let elapsed := time_sub now start in
  let rt := Z.quot ((elapsed +i Millisecond) -i 1) Millisecond in
  let! l := (if 0 <? rt then let! w := Counter_Add now rt (rtStat l) in Ret (set_rtStat w l)
             else Ret l) in
  let l := add_inFlight (-1) l in
  let! w := Counter_Add now 1 (passStat l) in Ret (set_passStat w l).

Record Stat := MkStat {
  stat_CPU : Z; InFlight : Z; MaxInFlight : Z; MinRt : Z; MaxPass : Z
}.

Definition BBR_Stat (now gCPU : Z) (l : BBR) : option (outcome (BBR * Stat)) :=
  let c := cpu gCPU l in
  obind' (minRt now l) (λ '(l, mr),
  obind' (maxPass now l) (λ '(l, mp),
  then_ret (λ '(l, mi), (l, MkStat c (inFlight l) mi mr mp)) (maxInFlight now l))).

(** ** Runs: requests granted or rejected, and finished *)

Inductive event := EAllow (gCPU : Z) | EDone (i : nat).

(** The second component lists the start times of the requests in flight. *)
Fixpoint run (evs : list (Z * event)) (l : BBR) (toks : list Z)
    : option (outcome (BBR * list Z)) :=
  match evs with
  | [] => Some (Ret (l, toks))
  | (t, EAllow gCPU) :: evs' =>
      obind' (Allow t gCPU l) (λ '(l, r),
        run evs' l (match r with inl start => toks ++ [start] | inr _ => toks end))
  | (t, EDone i) :: evs' =>
      match toks !! i with
      | None => run evs' l toks
      | Some start => match done t start l with
                      | Ret l => run evs' l (cut_at i toks)
                      | Panic why => Some (Panic why)
                      end
      end
  end.

(** ** Specification of the estimates, on slots of points *)

Definition max_pass_of (slots : list (list float64)) : float64 :=
  fold_left (λ res ps, math_Max res (sum_of ps)) slots (float64_of_int 1).

Definition min_rt_of (slots : list (list float64)) : float64 :=
  fold_left (λ res ps, match ps with
                       | [] => res
                       | _ => math_Min res (f64_div (sum_of ps) (count_of ps))
                       end) slots math_MaxFloat64.

(** The limiter at time [now], created at [t0] or later. *)
Record limiter_ok (t0 now : Z) (l : BBR) : Prop := {
  ok_pass : wf (passStat l);
  ok_rt : wf (rtStat l);
  ok_pass_time : t0 ≤ lastUpdateTime (passStat l) ≤ now;
  ok_rt_time : t0 ≤ lastUpdateTime (rtStat l) ≤ now;
  ok_pass_size : size (window (passStat l)) = Bucket (opts l);
  ok_rt_size : size (window (rtStat l)) = Bucket (opts l);
  ok_now : now < t0 + two63
}.

(** What the estimates leave alone. *)
Definition same_control (l l' : BBR) : Prop :=
  inFlight l' = inFlight l ∧ prevDropTime l' = prevDropTime l ∧ opts l' = opts l ∧
  bucketPerSecond l' = bucketPerSecond l ∧ bucketDuration l' = bucketDuration l.

#[export] Instance same_control_refl : Reflexive same_control.
Proof. intros l. unfold same_control. by split_and!. Qed.

#[export] Instance same_control_trans : Transitive same_control.
Proof. intros l1 l2 l3 H1 H2. unfold same_control in *. intuition congruence. Qed.

Lemma limiter_later t0 now now' l :
  limiter_ok t0 now l → now ≤ now' < t0 + two63 → limiter_ok t0 now' l.
Proof. intros []?. split; done || lia. Qed.

Lemma ok_clocks t0 now l :
  limiter_ok t0 now l → clock_ok now (passStat l) ∧ clock_ok now (rtStat l).
Proof. intros []. unfold clock_ok. lia. Qed.

Lemma ticked_time now r :
  wf r → clock_ok now r → lastUpdateTime r ≤ lastUpdateTime (ticked now r) ≤ now.
Proof.
  intros Hr Hc. pose proof (spanned_bounds now r Hr Hc). destruct (wf_duration r Hr).
  simpl. nia.
Qed.

Lemma limiter_set_pass t0 now l w :
  limiter_ok t0 now l → wf w → t0 ≤ lastUpdateTime w ≤ now →
  size (window w) = size (window (passStat l)) →
  limiter_ok t0 now (set_passStat w l).
Proof. intros [] ? ? Hs. split; simpl; rewrite ?Hs; done. Qed.

Lemma limiter_set_rt t0 now l w :
  limiter_ok t0 now l → wf w → t0 ≤ lastUpdateTime w ≤ now →
  size (window w) = size (window (rtStat l)) →
  limiter_ok t0 now (set_rtStat w l).
Proof. intros [] ? ? Hs. split; simpl; rewrite ?Hs; done. Qed.

(** ** The loops of the estimates *)

Lemma loop_fold {R} (f : R → list float64 → R) (g : Z * R → Window.Bucket → Z * R) bs i x :
  (∀ i x b, b ∈ bs → g (i, x) b = (i + 1, f x (Points b))) →
  fold_left g bs (i, x) = (i + Z.of_nat (length bs), fold_left f (Points <$> bs) x).
Proof.
  revert i x. induction bs as [|b bs IH]; intros i x Hg; [simpl; by rewrite Z.add_0_r |].
  rewrite fmap_cons. cbn [fold_left]. rewrite Hg by left.
  rewrite IH by (intros; apply Hg; by right). f_equal. simpl length. lia.
Qed.

Lemma along_take bs i k n : (k ≤ n)%nat → along bs i k = take k (along bs i n).
Proof.
  intros Hk. unfold along. rewrite <- fmap_take. f_equal.
  apply list_eq. intros j. destruct (decide (j < k)%nat).
  - rewrite lookup_take_lt, !lookup_seq_lt by lia. done.
  - rewrite lookup_take_ge by lia. apply lookup_seq_ge. lia.
Qed.

(** A loop that counts from 1 and stops at [bucket] reads [bucket - 1] buckets. *)
Lemma counted_loop {R} (f : R → list float64 → R) g bucket it i x :
  1 ≤ bucket → iter_ok it i →
  (∀ i x b, b ∈ source it → g (i, x) b = (i + 1, f x (Points b))) →
  ∃ n, each_bucket (Z.to_nat (count it)) (λ st, st.1 <? bucket) g it (1, x)
    = Some (Ret (n, fold_left f (Points <$> take (Z.to_nat (bucket - 1)) (iter_buckets it i)) x)).
Proof.
  intros Hb (H1 & H2 & H3 & H4 & H5 & H6) Hg.
  assert (∀ j, fold_left g (along (source it) i j) (1, x)
    = (1 + Z.of_nat j, fold_left f (Points <$> along (source it) i j) x)) as Hfold.
  { intros j. rewrite (loop_fold f g); [by rewrite along_length |].
    intros i' x' b Hin. apply Hg. by apply along_in in Hin. }
  destruct (each_bucket_spec (λ st : Z * R, st.1 <? bucket) g (Z.to_nat (count it)) it (1, x) i)
    as (k & Hk & E & Hend & Hgo); [done..| lia |].
  rewrite E, Hfold. eexists. do 3 f_equal.
  unfold iter_buckets. assert (k = Z.to_nat (bucket - 1) `min` Z.to_nat (count it))%nat as ->.
  { rewrite Hfold in Hend. simpl in Hend.
    assert (k ≤ Z.to_nat (bucket - 1))%nat.
    { destruct k as [|k]; [lia |]. specialize (Hgo k ltac:(lia)). rewrite Hfold in Hgo.
      simpl in Hgo. reflect_tests. lia. }
    destruct Hend as [-> | Hend]; reflect_tests; lia. }
  rewrite (along_take _ _ _ (Z.to_nat (count it))) by lia. f_equal. f_equal.
  destruct (decide (Z.to_nat (bucket - 1) ≤ Z.to_nat (count it))%nat).
  - by rewrite Nat.min_l.
  - rewrite Nat.min_r by lia. rewrite !take_ge; rewrite ?along_length; done || lia.
Qed.

Lemma max_pass_loop_spec bucket it i :
  1 ≤ bucket → iter_ok it i →
  max_pass_loop bucket it
  = Some (Ret (max_pass_of (Points <$> take (Z.to_nat (bucket - 1)) (iter_buckets it i)))).
Proof.
  intros Hb Hit. unfold max_pass_loop.
  destruct (counted_loop (λ res ps, math_Max res (sum_of ps)) pass_bucket bucket it i
    (float64_of_int 1) Hb Hit) as [n ->]; [done |]. done.
Qed.

Lemma min_rt_loop_spec bucket it i :
  1 ≤ bucket → iter_ok it i →
  min_rt_loop bucket it
  = Some (Ret (min_rt_of (Points <$> take (Z.to_nat (bucket - 1)) (iter_buckets it i)))).
Proof.
  intros Hb Hit. unfold min_rt_loop.
  destruct (counted_loop (λ res ps, match ps with
                       | [] => res
                       | _ => math_Min res (f64_div (sum_of ps) (count_of ps))
                       end) rt_bucket bucket it i
    math_MaxFloat64 Hb Hit) as [n ->]; [| done].
  intros j x b Hbin. unfold rt_bucket. destruct Hit as (_ & _ & _ & _ & _ & Hc).
  rewrite (Hc b Hbin). by destruct (Points b).
Qed.

Lemma max_pass_loop_total bucket it i :
  1 ≤ bucket → iter_ok it i → ∃ x, max_pass_loop bucket it = Some (Ret x).
Proof. intros. rewrite (max_pass_loop_spec bucket it i) by done. eauto. Qed.

Lemma min_rt_loop_total bucket it i :
  1 ≤ bucket → iter_ok it i → ∃ x, min_rt_loop bucket it = Some (Ret x).
Proof. intros. rewrite (min_rt_loop_spec bucket it i) by done. eauto. Qed.

(** ** Every estimate returns *)

Definition estimate_ok (t0 now : Z) (l : BBR) (m : option (outcome (BBR * Z))) : Prop :=
  ∃ l' v, m = Some (Ret (l', v)) ∧ limiter_ok t0 now l' ∧ same_control l l'.

Lemma ok_bucket t0 now l : limiter_ok t0 now l → 1 ≤ Bucket (opts l).
Proof. intros Hl. rewrite <- (ok_pass_size _ _ _ Hl). pose proof (wf_size _ (ok_pass _ _ _ Hl)). lia. Qed.

Lemma tick_pass t0 now l c :
  limiter_ok t0 now l →
  limiter_ok t0 now (set_maxPASSCache c (set_passStat (ticked now (passStat l)) l)).
Proof.
  intros Hl. pose proof (ok_clocks _ _ _ Hl) as [Hc _].
  pose proof (ticked_time now _ (ok_pass _ _ _ Hl) Hc). pose proof (ok_pass_time _ _ _ Hl).
  assert (limiter_ok t0 now (set_passStat (ticked now (passStat l)) l)) as H1.
  { apply limiter_set_pass; [done | apply ticked_wf, Hl | lia | done]. }
  by destruct H1; split.
Qed.

Lemma tick_rt t0 now l :
  limiter_ok t0 now l → limiter_ok t0 now (set_rtStat (ticked now (rtStat l)) l).
Proof.
  intros Hl. pose proof (ok_clocks _ _ _ Hl) as [_ Hc].
  pose proof (ticked_time now _ (ok_rt _ _ _ Hl) Hc). pose proof (ok_rt_time _ _ _ Hl).
  apply limiter_set_rt; [done | apply ticked_wf, Hl | lia | done].
Qed.

Lemma maxPass_total t0 now l : limiter_ok t0 now l → estimate_ok t0 now l (maxPass now l).
Proof.
  intros Hl. unfold maxPass. destruct (cached _ _ _); [by eexists _, _ |].
  destruct (Reduce_total now f64_zero (max_pass_loop (Bucket (opts l))) (passStat l))
    as [x E]; [apply Hl | by apply (ok_clocks t0) | |].
  { intros it i Hit. eapply max_pass_loop_total; [by eapply ok_bucket | done]. }
  unfold Reduce_float. rewrite E. simpl. eexists _, _. split; [done |].
  split; [by apply tick_pass | by split_and!].
Qed.

Lemma minRt_total t0 now l : limiter_ok t0 now l → estimate_ok t0 now l (minRt now l).
Proof.
  intros Hl. unfold minRt. destruct (cached _ _ _); [by eexists _, _ |].
  unfold Counter_Min. rewrite (Reduce_view Min min_of now (rtStat l) Min_aggregates)
    by (apply Hl || by apply (ok_clocks t0)).
  simpl. pose proof (tick_rt _ _ _ Hl) as Hl1. set (l1 := set_rtStat _ l) in Hl1.
  destruct (Reduce_total now f64_zero (min_rt_loop (Bucket (opts l))) (rtStat l1))
    as [x E]; [apply Hl1 | by apply (ok_clocks t0) | |].
  { intros it i Hit. eapply min_rt_loop_total; [by eapply ok_bucket | done]. }
  change (ticked now (rtStat l)) with (rtStat l1). unfold Reduce_float. rewrite E. simpl.
  eexists _, _. split; [done |]. pose proof (tick_rt _ _ _ Hl1) as [].
  split; [by split | by split_and!].
Qed.

Lemma maxInFlight_total t0 now l : limiter_ok t0 now l → estimate_ok t0 now l (maxInFlight now l).
Proof.
  intros Hl. unfold maxInFlight.
  destruct (maxPass_total _ _ _ Hl) as (l1 & mp & -> & Hl1 & Hs1). simpl.
  destruct (minRt_total _ _ _ Hl1) as (l2 & mr & -> & Hl2 & Hs2). simpl.
  eexists _, _. split; [done |]. split; [done | by transitivity l1].
Qed.

(** ** Requests *)

Definition drop_verdict (now gCPU : Z) (l : BBR) (drop : bool) : Prop :=
  (drop = true → 1 < inFlight l) ∧
  (cpu gCPU l < CPUThreshold (opts l) → drop = true →
     prevDropTime l ≠ 0 ∧ (now -i prevDropTime l) ≤ Second).

Definition next_prevDrop (now gCPU : Z) (l : BBR) (drop : bool) : Z :=
  if cpu gCPU l <? CPUThreshold (opts l) then
    if prevDropTime l =? 0 then 0
    else if now -i prevDropTime l <=? Second then prevDropTime l else 0
  else if drop && (prevDropTime l =? 0) then now else prevDropTime l.

Lemma limiter_set_prev t0 now l t :
  limiter_ok t0 now l → limiter_ok t0 now (set_prevDropTime t l).
Proof. by intros []; split. Qed.

Lemma shouldDrop_total t0 now gCPU l :
  limiter_ok t0 now l →
  ∃ l' drop, shouldDrop now gCPU l = Some (Ret (l', drop)) ∧ limiter_ok t0 now l' ∧
    inFlight l' = inFlight l ∧ opts l' = opts l ∧ drop_verdict now gCPU l drop ∧
    prevDropTime l' = next_prevDrop now gCPU l drop.
Proof.
  intros Hl. unfold shouldDrop, drop_verdict, next_prevDrop.
  destruct (Z.ltb_spec (cpu gCPU l) (CPUThreshold (opts l))) as [Hcpu | Hcpu].
  - destruct (Z.eqb_spec (prevDropTime l) 0) as [E | E].
    { exists l, false. by split_and!. }
    destruct (Z.leb_spec (now -i prevDropTime l) Second).
    + destruct (Z.ltb_spec 1 (inFlight l)).
      * destruct (maxPass_total _ _ _ Hl) as (l' & mp & -> & Hl' & (H1 & H2 & H3 & _)). simpl.
        exists l', (mp <? inFlight l). rewrite H1. by split_and!.
      * exists l, false. by split_and!.
    + eexists _, false. split; [done |]. split_and!; try done. by apply limiter_set_prev.
  - destruct (maxInFlight_total _ _ _ Hl) as (l' & mi & -> & Hl' & (H1 & H2 & H3 & _)). simpl.
    destruct (Z.ltb_spec 1 (inFlight l)); simpl.
    + destruct (mi <? inFlight l); simpl.
      * rewrite H2. destruct (Z.eqb_spec (prevDropTime l) 0); simpl; eexists _, _;
          (split; [done |]); split_and!; try done; try lia. by apply limiter_set_prev.
      * eexists _, _. split; [done |]. split_and!; try done; lia.
    + eexists _, _. split; [done |]. split_and!; try done; lia.
Qed.

Lemma Counter_Add_ok t0 now v r :
  wf r → t0 ≤ lastUpdateTime r ≤ now → now < t0 + two63 →
  ∃ r', Counter_Add now v r = Ret r' ∧ wf r' ∧ t0 ≤ lastUpdateTime r' ≤ now ∧
    size (window r') = size (window r).
Proof.
  intros Hr Ht Hnow. assert (clock_ok now r) as Hc by (unfold clock_ok; lia).
  destruct (Add_view now (float64_of_int v) r Hr Hc) as (r' & E & Hr' & Hsz & _ & Hl & _).
  exists r'. split_and!; try done; pose proof (ticked_time now r Hr Hc); simpl in *; lia.
Qed.

Lemma done_total t0 now start l :
  limiter_ok t0 now l →
  ∃ l', done now start l = Ret l' ∧ limiter_ok t0 now l' ∧ inFlight l' = (inFlight l +i -1).
Proof.
  intros Hl. unfold done. set (rt := Z.quot _ _).
  assert (∃ l1, (if 0 <? rt then let! w := Counter_Add now rt (rtStat l) in Ret (set_rtStat w l)
             else Ret l) = Ret l1 ∧ limiter_ok t0 now l1 ∧ inFlight l1 = inFlight l)
    as (l1 & -> & Hl1 & Hi1).
  { destruct (0 <? rt); [| by exists l].
    destruct (Counter_Add_ok t0 now rt (rtStat l)) as (w & -> & Hw & Ht & Hs);
      [apply Hl.. |]. simpl. eexists. split; [done |]. split; [| done].
    by apply limiter_set_rt. }
  simpl. destruct (Counter_Add_ok t0 now 1 (passStat l1)) as (w & -> & Hw & Ht & Hs);
    [apply Hl1.. |]. simpl. eexists. split; [done |]. simpl. rewrite Hi1. split; [| done].
  assert (limiter_ok t0 now (add_inFlight (-1) l1)) as Hl2 by (by destruct Hl1; split).
  by apply limiter_set_pass.
Qed.

Lemma run_total t0 now evs : ∀ t l toks,
  limiter_ok t0 t l → now < t0 + two63 →
  Sorted Z.le (t :: evs.*1) → Forall (λ e, e.1 ≤ now) evs →
  inFlight l = Z.of_nat (length toks) → Z.of_nat (length toks + length evs) < two63 →
  ∃ l' toks', run evs l toks = Some (Ret (l', toks')) ∧
    inFlight l' = Z.of_nat (length toks').
Proof.
  induction evs as [|[t1 ev] evs IH]; intros t l toks Hl Hnow Hsort Hall Hin Hlen; simpl.
  - by exists l, toks.
  - apply Sorted_inv in Hsort as [Hsort Hhd]. apply HdRel_inv in Hhd. simpl in Hsort, Hhd.
    apply Forall_cons in Hall as [Ht1 Hall]. simpl in Ht1, Hlen.
    apply (limiter_later t0 t t1) in Hl; [| lia]. destruct ev as [gCPU|i].
    + destruct (shouldDrop_total t0 t1 gCPU l Hl) as (l1 & drop & E & Hl1 & Hi1 & _).
      unfold Allow. rewrite E. simpl. destruct drop; simpl.
      * apply (IH t1); try done; [congruence | lia].
      * apply (IH t1); try done; [by destruct Hl1; split | |rewrite length_app; simpl; lia].
        simpl. rewrite Hi1, Hin, length_app. simpl.
        rewrite wrap64_id; [lia | unfold in_int64, two63 in *; lia].
    + destruct (toks !! i) as [start|] eqn:Hi; [| apply (IH t1); try done; lia].
      destruct (done_total t0 t1 start l Hl) as (l1 & -> & Hl1 & Hi1).
      pose proof (lookup_lt_Some _ _ _ Hi) as Hlt. pose proof (cut_at_length toks i Hlt).
      apply (IH t1); try done; [| lia].
      rewrite Hi1, Hin, wrap64_id; [lia | unfold in_int64, two63 in *; lia].
Qed.

Lemma NewBBRLimiter_ok fs t0 l :
  NewBBRLimiter fs t0 = Ret l → 0 < Bucket (opts l) → 0 < bucketDuration l →
  limiter_ok t0 t0 l ∧ inFlight l = 0.
Proof.
  unfold NewBBRLimiter. intros H Hb Hd. set (opt := fold_left _ _ _) in H.
  destruct (Z.eqb_spec (Bucket opt) 0); [done |].
  set (d := wrap64 _) in H. apply obind_inv in H as (w & Hw & H).
  apply obind_inv in H as (w' & Hw' & H). rewrite Hw in Hw'. injection Hw' as <-.
  destruct (Z.eqb_spec d 0); [done |]. injection H as <-. simpl in Hb, Hd.
  split; [| done]. rewrite <- (Z2Nat.id (Bucket opt)) in Hw by lia.
  assert (0 < d < two63) as Hdr
    by (pose proof (wrap64_range (Z.quot (opt_Window opt) (Bucket opt))) as []; unfold d in *; lia).
  destruct (history_new t0 d (Z.to_nat (Bucket opt)) w ltac:(lia) Hdr Hw) as [Hh Hl].
  pose proof (hist_size _ _ _ _ _ Hh) as Hs. rewrite Z2Nat.id in Hs by lia.
  split; simpl; try apply Hh; try lia; unfold two63; lia.
Qed.

(** ** Properties *)

(** The in-flight counter is exact: through any sequence of [Allow]s and
    completions at non-decreasing times, no method panics or hangs, and the
    counter is the number of granted requests that have not finished. *)
Theorem in_flight_exact fs t0 now l evs :
  NewBBRLimiter fs t0 = Ret l → 0 < Bucket (opts l) → 0 < bucketDuration l →
  Sorted Z.le (t0 :: evs.*1) → Forall (λ e, e.1 ≤ now) evs → now < t0 + two63 →
  Z.of_nat (length evs) < two63 →
  ∃ l' toks, run evs l [] = Some (Ret (l', toks)) ∧ inFlight l' = Z.of_nat (length toks).
Proof.
  intros Hnew Hb Hd Hsort Hall Hnow Hlen.
  destruct (NewBBRLimiter_ok fs t0 l Hnew Hb Hd) as [Hl Hi].
  by apply (run_total t0 now evs t0).
Qed.

(** The pass estimate reads the slots that have not expired, all but the
    current one: without a fresh cached value it is the largest number of passes
    in such a slot, at least 1, and 0 when the whole window has expired. *)
Theorem maxPass_spec t0 now l :
  limiter_ok t0 now l → cached now (maxPASSCache l) l = None →
  let s := spanned now (passStat l) in
  ∃ l', maxPass now l = Some (Ret (l', int64_of_float
    (if Bucket (opts l) <=? s then f64_zero
     else max_pass_of (take (Z.to_nat (Bucket (opts l) - 1))
            (drop (Z.to_nat s) (view (passStat l))))))).
Proof.
  intros Hl Hc s. unfold maxPass. rewrite Hc. unfold Reduce_float.
  pose proof (ok_pass _ _ _ Hl) as Hr. destruct (ok_clocks _ _ _ Hl) as [Hck _].
  pose proof (ok_pass_size _ _ _ Hl) as Hsz.
  destruct (Z.leb_spec (Bucket (opts l)) s) as [Hge | Hlt].
  - rewrite Reduce_expired by (fold s; done || lia). by eexists.
  - destruct (Reduce_iterator now (passStat l) Hr Hck ltac:(fold s; lia))
      as (it & i & Hit & Hb & E).
    rewrite E, (max_pass_loop_spec _ it i), Hb by (try eapply ok_bucket; done).
    simpl. eexists. do 4 f_equal. unfold view. by rewrite fmap_take, fmap_drop.
Qed.

(** The response-time estimate counts expired slots: its first reading
    ([rtStat.Min()]) moves the window's clock without rolling the ring, so the
    second one takes every slot for fresh.  However much time has passed, the
    estimate is computed from all the slots of the ring but the last. *)
Theorem minRt_counts_expired t0 now l :
  limiter_ok t0 now l → cached now (minRtCache l) l = None →
  let raw := int64_of_float (math_Ceil
    (min_rt_of (take (Z.to_nat (Bucket (opts l) - 1)) (view (rtStat l))))) in
  ∃ l', minRt now l = Some (Ret (l', if raw <=? 0 then 1 else raw)).
Proof.
  intros Hl Hc raw. unfold minRt. rewrite Hc. unfold Counter_Min.
  rewrite (Reduce_view Min min_of now (rtStat l) Min_aggregates)
    by (apply Hl || by apply (ok_clocks t0)).
  simpl. pose proof (tick_rt _ _ _ Hl) as Hl1. destruct (ok_clocks _ _ _ Hl1) as [_ Hck].
  pose proof (ok_rt_size _ _ _ Hl1) as Hsz. pose proof (ok_rt _ _ _ Hl1) as Hr.
  simpl in Hck, Hsz, Hr. set (r := ticked now (rtStat l)) in *.
  assert (spanned now r = 0) as Hs.
  { destruct (wf_duration _ (ok_rt _ _ _ Hl)) as [Hd _].
    unfold r, spanned. simpl. unfold spanned. apply Z.div_small.
    pose proof (Z.mul_div_le (now - lastUpdateTime (rtStat l)) (Window.bucketDuration (rtStat l)) Hd).
    pose proof (Z.mul_succ_div_gt (now - lastUpdateTime (rtStat l)) (Window.bucketDuration (rtStat l)) Hd).
    lia. }
  destruct (Reduce_iterator now r Hr Hck) as (it & i & Hit & Hb & E).
  { rewrite Hs. apply wf_size, Hr. }
  unfold Reduce_float. rewrite E, (min_rt_loop_spec _ it i), Hb, Hs
    by (try eapply ok_bucket; done).
  simpl. eexists. rewrite fmap_take. done.
Qed.

(** ** What is dropped *)

(** The estimates of an instant: the cached ones while they are fresh, else those of the
    windows, as [maxPass_spec] and [minRt_counts_expired] describe them. *)
Definition pass_of (now : Z) (l : BBR) : Z :=
  match cached now (maxPASSCache l) l with
  | Some v => v
  | None => let s := spanned now (passStat l) in
      int64_of_float
        (if Bucket (opts l) <=? s then f64_zero
         else max_pass_of (take (Z.to_nat (Bucket (opts l) - 1)) (drop (Z.to_nat s) (view (passStat l)))))
  end.

Definition rt_of (now : Z) (l : BBR) : Z :=
  match cached now (minRtCache l) l with
  | Some v => v
  | None => let raw := int64_of_float (math_Ceil
              (min_rt_of (take (Z.to_nat (Bucket (opts l) - 1)) (view (rtStat l))))) in
            if raw <=? 0 then 1 else raw
  end.

(** The product of passes per second and seconds per request, rounded. *)
Definition limit_of (now : Z) (l : BBR) : Z :=
  int64_of_float (f64_add
    (math_Floor (f64_div (float64_of_int ((pass_of now l *i rt_of now l) *i bucketPerSecond l))
                   (float64_of_int 1000))) half).

Lemma maxPass_value t0 now l :
  limiter_ok t0 now l → ∃ l', maxPass now l = Some (Ret (l', pass_of now l)) ∧ limiter_ok t0 now l' ∧
    rtStat l' = rtStat l ∧ minRtCache l' = minRtCache l ∧ bucketPerSecond l' = bucketPerSecond l ∧
    bucketDuration l' = bucketDuration l ∧ opts l' = opts l.
Proof.
  intros Hl. destruct (maxPass_total t0 now l Hl) as (l' & v & E & Hl' & _).
  assert (v = pass_of now l) as ->.
  { unfold pass_of. destruct (cached now (maxPASSCache l) l) as [w|] eqn:Hc.
    - unfold maxPass in E. rewrite Hc in E. congruence.
    - destruct (maxPass_spec t0 now l Hl Hc) as [l1 E1]. congruence. }
  exists l'. split; [done |]. split; [done |]. unfold maxPass in E.
  destruct (cached now (maxPASSCache l) l); [by simplify_eq |].
  destruct (Reduce_float _ _ _) as [[[]|]|]; by simplify_eq/=.
Qed.

Lemma minRt_value t0 now l :
  limiter_ok t0 now l → ∃ l', minRt now l = Some (Ret (l', rt_of now l)) ∧ bucketPerSecond l' = bucketPerSecond l.
Proof.
  intros Hl. destruct (minRt_total t0 now l Hl) as (l' & v & E & Hl' & Hs).
  assert (v = rt_of now l) as ->.
  { unfold rt_of. destruct (cached now (minRtCache l) l) as [w|] eqn:Hc.
    - unfold minRt in E. rewrite Hc in E. congruence.
    - destruct (minRt_counts_expired t0 now l Hl Hc) as [l1 E1]. congruence. }
  exists l'. split; [done |]. unfold minRt in E.
  destruct (cached now (minRtCache l) l); [by simplify_eq |]. unfold Counter_Min in E.
  destruct (Reduce_float now Min _) as [[[]|]|]; simplify_eq/=.
  destruct (Reduce_float _ _ _) as [[[]|]|]; by simplify_eq/=.
Qed.

Lemma maxInFlight_value t0 now l :
  limiter_ok t0 now l → ∃ l', maxInFlight now l = Some (Ret (l', limit_of now l)).
Proof.
  intros Hl. unfold maxInFlight.
  destruct (maxPass_value t0 now l Hl) as (l1 & -> & Hl1 & Hrt & Hc & Hb & Hd & Ho). simpl.
  assert (rt_of now l1 = rt_of now l) as Hr.
  { unfold rt_of, cached, timespan. by rewrite Hc, Hrt, Hd, Ho. }
  destruct (minRt_value t0 now l1 Hl1) as (l2 & -> & Hb2). simpl. unfold limit_of.
  rewrite Hr, Hb2, Hb. by eexists.
Qed.

(** C32. [shouldDrop] always returns, and drops a request exactly when more than one is in
    flight and more than an estimate.  While the CPU is below the threshold it does so only
    within one second of the recorded drop, if one is recorded, and the estimate is that of
    the passes; at or above the threshold the estimate is the limit, the product of passes
    and response time.  It moves the recorded drop time as its state machine says: set by
    the first drop under load, kept by later ones, cleared by the first call below the
    threshold after the cool-down. *)
Theorem shouldDrop_spec t0 now gCPU l :
  limiter_ok t0 now l →
  let drop :=
    (1 <? inFlight l) &&
    (if cpu gCPU l <? CPUThreshold (opts l)
     then negb (prevDropTime l =? 0) && (now -i prevDropTime l <=? Second) && (pass_of now l <? inFlight l)
     else limit_of now l <? inFlight l) in
  ∃ l', shouldDrop now gCPU l = Some (Ret (l', drop)) ∧ limiter_ok t0 now l' ∧
    inFlight l' = inFlight l ∧
    prevDropTime l' =
      (if cpu gCPU l <? CPUThreshold (opts l) then
         if prevDropTime l =? 0 then 0
         else if now -i prevDropTime l <=? Second then prevDropTime l else 0
       else if drop && (prevDropTime l =? 0) then now else prevDropTime l).
Proof.
  intros Hl drop. destruct (shouldDrop_total t0 now gCPU l Hl) as (l' & b & E & Hl' & Hi & _ & _ & Hp).
  assert (b = drop) as ->; [|exists l'; split_and!; [exact E | exact Hl' | exact Hi | exact Hp]].
  unfold drop, shouldDrop in *.
  destruct (cpu gCPU l <? CPUThreshold (opts l)).
  - destruct (prevDropTime l =? 0); simpl; [rewrite andb_false_r; by simplify_eq |].
    destruct (now -i prevDropTime l <=? Second); simpl; [| rewrite andb_false_r; by simplify_eq].
    destruct (1 <? inFlight l); simpl in *; [|by simplify_eq].
    destruct (maxPass_value t0 now l Hl) as (l1 & E1 & _). rewrite E1 in E. simpl in E. congruence.
  - destruct (maxInFlight_value t0 now l Hl) as (l1 & E1). rewrite E1 in E. simpl in E.
    destruct ((1 <? inFlight l) && _); [destruct (negb _) |]; congruence.
Qed.

(** ** Witnesses: a limiter of two buckets of half a second *)

Definition demo_opts : list (options → options) :=
  [WithWindow Second; WithBucket 2; WithCPUThreshold 500].

Definition demo_limiter : BBR :=
  match NewBBRLimiter demo_opts 0 with
  | Ret l => l
  | Panic _ => MkBBR demo_window demo_window 0 0 0 0 None None default_options
  end.

Definition demo_run : list (Z * event) :=
  [(1, EAllow 900); (2, EAllow 900); (3, EAllow 900); (4, EAllow 900); (5000000, EDone 0)].

Lemma in_flight_exact_witness :
  ∃ l' toks, run demo_run demo_limiter [] = Some (Ret (l', toks)) ∧
    inFlight l' = Z.of_nat (length toks).
Proof.
  apply (in_flight_exact demo_opts 0 5000000 demo_limiter demo_run);
    [reflexivity | done | done | repeat constructor; simpl; lia
    | repeat constructor; simpl; lia | unfold two63; lia | unfold two63; simpl; lia].
Defined.

Lemma demo_limiter_ok : limiter_ok 0 0 demo_limiter.
Proof. by apply (NewBBRLimiter_ok demo_opts 0 demo_limiter). Qed.

(** Two requests in flight, at most one passed per slot: above the threshold the limiter
    drops, below it only within a second of that drop. *)
Definition busy_limiter : BBR := add_inFlight 1 (add_inFlight 1 demo_limiter).

Lemma busy_limiter_ok : limiter_ok 0 5 busy_limiter.
Proof. destruct demo_limiter_ok. split; try done; simpl; unfold two63; lia. Qed.

Lemma shouldDrop_spec_witness :
  ∃ l' l'', shouldDrop 5 900 busy_limiter = Some (Ret (l', true)) ∧ prevDropTime l' = 5 ∧
    shouldDrop 5 100 busy_limiter = Some (Ret (l'', false)).
Proof.
  destruct (shouldDrop_spec 0 5 900 busy_limiter busy_limiter_ok) as (l' & E & _ & _ & Hp).
  destruct (shouldDrop_spec 0 5 100 busy_limiter busy_limiter_ok) as (l'' & E' & _).
  exists l', l''. split; [rewrite E; by vm_compute |]. split; [rewrite Hp; by vm_compute |].
  rewrite E'. by vm_compute.
Defined.

Lemma maxPass_spec_witness : ∃ l', maxPass 0 demo_limiter = Some (Ret (l', 1)).
Proof. apply (maxPass_spec 0 0 demo_limiter demo_limiter_ok). reflexivity. Defined.

(** Its only response time, 7 ms, was measured in the slot of time 0; it is read
    half an hour later. *)
Definition slow_limiter : BBR :=
  set_rtStat (MkRollingWindow (MkWindow
    [MkBucket [float64_of_int 7] 1 1; MkBucket [] 0 0] 2) 1 (Second / 2) 0) demo_limiter.

Lemma slow_limiter_ok : limiter_ok 0 (1800 * Second) slow_limiter.
Proof.
  destruct demo_limiter_ok as [H1 H2 H3 H4 H5 H6 H7].
  split; simpl; try done; try (unfold two63, Second; lia).
  split; simpl; try lia; [| split; reflexivity].
  intros [|[|i]] b Hb; simpl in Hb; simplify_eq; done.
Qed.

Lemma minRt_counts_expired_witness : ∃ l', minRt (1800 * Second) slow_limiter = Some (Ret (l', 7)).
Proof.
  apply (minRt_counts_expired 0 (1800 * Second) slow_limiter slow_limiter_ok). reflexivity.
Defined.
