(* ===== verification/DataUtil.v ===== *)
(** * Slice and map helpers (utils/datautil/datautil.go)

    A slice is the list of its elements; a Go map is a [gmap], a set a [gset].
    [Delete] and [DeleteElems] may write into the caller's backing array, so
    they also return what the caller's own slice then holds.  The order of a
    [range] over a map is that of the [MapRange] instance, and sorting is the
    [GoSort] instance, of which only the documented behaviour is used. *)

From S2P Require Import Prelude.

Local Open Scope Z_scope.
Local Open Scope go_scope.

(** ** [sort.Sort] *)

Class GoSort := {
  go_sort {A} : (A → A → bool) → list A → list A;
  go_sort_perm {A} (less : A → A → bool) l : go_sort less l ≡ₚ l;
  go_sort_sorted {A} (less : A → A → bool) l :
    (∀ x y, less x y = true → less y x = false) →
    (∀ x y z, less y x = false → less z y = false → less z x = false) →
    StronglySorted (λ x y, less y x = false) (go_sort less l)
}.

Section slices.
Context {T V : Type} {E : Type} `{Countable E}.
Implicit Types (a : list T) (b : list V) (k t : gset E).

(** ** Differences and intersections *)

(** [k := make(map[E]struct{}); for i := range b { k[fnb(b[i])] = struct{}{} }]. *)
Definition key_set (fnb : V → E) b : gset E :=
  fold_left (λ k v, {[fnb v]} ∪ k) b ∅.

Fixpoint sub_loop (fna : T → E) k t a : list T :=
  match a with
  | [] => []
  | x :: a' =>
      let e := fna x in
      if bool_decide (e ∈ t) then sub_loop fna k t a'
      else if bool_decide (e ∈ k) then sub_loop fna k t a'
      else x :: sub_loop fna k ({[e]} ∪ t) a'
  end.

Definition SliceSubFuncs a b (fna : T → E) (fnb : V → E) : list T :=
  match b with
  | [] => a
  | _ => sub_loop fna (key_set fnb b) ∅ a
  end.

(** The test [t[e] == struct{}{}] reads the zero value of an absent key, which is
    the only value of its type: it holds whatever [t] is. *)
Definition zero_lookup (t : gmap E unit) (e : E) : unit := default tt (t !! e).

Fixpoint intersect_loop (fna : T → E) k (t : gmap E unit) a : list T :=
  match a with
  | [] => []
  | x :: a' =>
      let e := fna x in
      if bool_decide (e ∈ k) && bool_decide (zero_lookup t e = tt)
      then x :: intersect_loop fna k (<[e := tt]> t) a'
      else intersect_loop fna k t a'
  end.

(** The result is [nil] when [b] is empty. *)
Definition SliceIntersectFuncs a b (fna : T → E) (fnb : V → E) : list T :=
  match b with
  | [] => []
  | _ => intersect_loop fna (key_set fnb b) ∅ a
  end.

(** ** Duplicates *)

Fixpoint distinct_loop {R} (fn : T → E) (out : T → E → R) (seen : gset E) (es : list T)
    : list R :=
  match es with
  | [] => []
  | x :: es' =>
      let e := fn x in
      if bool_decide (e ∈ seen) then distinct_loop fn out seen es'
      else out x e :: distinct_loop fn out ({[e]} ∪ seen) es'
  end.

Definition DistinctAny (es : list T) (fn : T → E) : list T :=
  distinct_loop fn (λ x _, x) ∅ es.

Definition DistinctAnyGetComparable (es : list T) (fn : T → E) : list E :=
  distinct_loop fn (λ _ e, e) ∅ es.

Fixpoint duplicate_loop (fn : T → E) (seen : gset E) (es : list T) : bool :=
  match es with
  | [] => false
  | x :: es' =>
      let e := fn x in
      if bool_decide (e ∈ seen) then true else duplicate_loop fn ({[e]} ∪ seen) es'
  end.

Definition DuplicateAny (es : list T) (fn : T → E) : bool := duplicate_loop fn ∅ es.

(** ** Maps from slices *)

Definition SliceToMapOkAny (es : list T) (fn : T → option (E * V)) : gmap E V :=
  fold_left (λ kv x, match fn x with Some (k, v) => <[k := v]> kv | None => kv end) es ∅.

Definition SliceToMapAny (es : list T) (fn : T → E * V) : gmap E V :=
  SliceToMapOkAny es (λ x, Some (fn x)).

Definition Filter (es : list T) (fn : T → option V) : list V := omap fn es.

Definition Slice (es : list T) (fn : T → V) : list V := fn <$> es.

Definition Reduce (values : list T) (initial : V) (fn : V → T → V) : V :=
  fold_left fn values initial.

(** [Batch] of a nil slice is nil: both are the empty list here. *)
Definition Batch (fn : T → V) (ts : list T) : list V := fold_left (λ res x, res ++ [fn x]) ts [].

Definition HasKey (m : option (gmap E V)) (k : E) : bool :=
  match m with
  | None => false
  | Some m => bool_decide (is_Some (m !! k))
  end.

Definition IndexAny (e : T) (es : list T) (fn : T → E) : Z :=
  match first_index (λ x, bool_decide (fn x = fn e)) es with
  | Some i => Z.of_nat i
  | None => -1
  end.
End slices.

Section same_type.
Context {T E : Type} `{Countable E}.

Definition SliceSubFunc {A} (a b : list A) (fn : A → E) : list A := SliceSubFuncs a b fn fn.
Definition SliceSub (a b : list E) : list E := SliceSubFunc a b id.
Definition SliceSubAny (a : list E) (b : list T) (fn : T → E) : list E := SliceSub a (Slice b fn).
Definition SliceSubConvertPre (a : list T) (b : list E) (fn : T → E) : list T :=
  SliceSubFuncs a b fn id.

(** [SliceAnySub]: differences without deduplication. *)
Definition SliceAnySub (a b : list T) (fn : T → E) : list T :=
  let m := fold_left (λ (m : gmap E T) v, <[fn v := v]> m) b ∅ in
  fold_left (λ es v, if bool_decide (is_Some (m !! fn v)) then es else es ++ [v]) a [].

Definition Distinct (ts : list E) : list E :=
  match ts with
  | [] | [_] => ts
  | [x; y] => if bool_decide (x = y) then [x] else ts
  | _ => DistinctAny ts id
  end.

Definition SliceToMap (es : list T) (fn : T → E) : gmap E T :=
  SliceToMapOkAny es (λ x, Some (fn x, x)).

Definition SliceSetAny (es : list T) (fn : T → E) : gmap E unit :=
  SliceToMapAny es (λ x, (fn x, tt)).
Definition SliceSet (es : list E) : gmap E unit := SliceToMapAny es (λ x, (x, tt)).

Definition IndexOf (e : E) (es : list E) : Z := IndexAny e es id.
Definition Contain (e : E) (es : list E) : bool := 0 <=? IndexOf e es.
Definition Duplicate (es : list E) : bool := DuplicateAny es id.

Definition Contains (e es : list E) : bool :=
  let mp := SliceToMapOkAny e (λ i, Some (i, i)) in
  existsb (λ e2, bool_decide (is_Some (mp !! e2))) es.

Fixpoint Equal (a b : list E) : bool :=
  match a, b with
  | [], [] => true
  | x :: a', y :: b' => bool_decide (x = y) && Equal a' b'
  | _, _ => false
  end.

(** ** Deletions: the result, and the caller's slice afterwards *)

(** [append(es[:i], es[i+1:]...)]. *)
Definition append_cut {A} (es : list A) (i : Z) : outcome (list A * list A) :=
  if (i <? 0) || (Z.of_nat (length es) <? i + 1) then Panic "slice bounds out of range"
  else
    let i := Z.to_nat i in
    Ret (cut_at i es, cut_at i es ++ drop (length es - 1) es).

Definition Delete {A} (es : list A) (index : list Z) : outcome (list A * list A) :=
  match index with
  | [] => Ret (es, es)
  | [i] =>
      let i := if i <? 0 then Z.of_nat (length es) + i else i in
      if Z.of_nat (length es) <=? i then Ret (es, es) else append_cut es i
  | _ =>
      let tmp : gset Z :=
        fold_left (λ tmp i, {[if i <? 0 then Z.of_nat (length es) + i else i]} ∪ tmp) index ∅ in
      Ret (snd <$> filter (λ p : nat * A, Z.of_nat p.1 ∉ tmp) (imap pair es), es)
  end.

(** [*es] becomes the result. *)
Definition DeleteAt {A} (es : list A) (index : list Z) : outcome (list A) :=
  let! r := Delete es index in Ret (r.1).

Fixpoint delete_elems_loop (elMap : gmap E Z) (es : list E) : list E :=
  match es with
  | [] => []
  | x :: es' =>
      match elMap !! x with
      | Some n =>
          let elMap := <[x := n - 1]> elMap in
          let elMap := if n - 1 =? 0 then delete x elMap else elMap in
          delete_elems_loop elMap es'
      | None => x :: delete_elems_loop elMap es'
      end
  end.

Definition count_map (es : list E) : gmap E Z :=
  fold_left (λ (m : gmap E Z) e, <[e := default 0 (m !! e) + 1]> m) es ∅.

Definition DeleteElems (es delEs : list E) : outcome (list E * list E) :=
  match delEs with
  | [] => Ret (es, es)
  | [d] =>
      match first_index (λ x, bool_decide (x = d)) es with
      | Some i => append_cut es (Z.of_nat i)
      | None => Ret (es, es)
      end
  | _ => Ret (delete_elems_loop (count_map delEs) es, es)
  end.
End same_type.

(** ** Pagination *)

Definition Paginate {A} (es : list A) (pageNumber showNumber : Z) : outcome (list A) :=
  if pageNumber <=? 0 then Ret []
  else if showNumber <=? 0 then Ret []
  else
    let start := (pageNumber -i 1) *i showNumber in
    let end_ := start +i showNumber in
    let n := Z.of_nat (length es) in
    if n <=? start then Ret []
    else
      let end_ := if n <? end_ then n else end_ in
      if (start <? 0) || (end_ <? start) then Panic "slice bounds out of range"
      else Ret (take (Z.to_nat (end_ - start)) (drop (Z.to_nat start) es)).

(** [int(p.GetPageNumber())] of [int32] values. *)
Definition SlicePaginate {A} (es : list A) (pagination : Z * Z) : outcome (list A) :=
  Paginate es pagination.1 pagination.2.

(** ** Functions that range over maps *)

Section ranges.
Context `{MR : !MapRange}.
Context {T E : Type} `{Countable E}.

Definition Keys {V} (kv : gmap E V) : list E :=
  fold_left (λ ks '(k, _), ks ++ [k]) (range_map kv) [].
Definition Values {V} (kv : gmap E V) : list V :=
  fold_left (λ vs '(_, v), vs ++ [v]) (range_map kv) [].

(** The map of one slice, and the index of the smallest map so far: [ei] is
    filled from the left, the later entries being nil maps. *)
Fixpoint both_maps (fn : T → E) (es : list (list T)) (i idx : nat) (ei : list (gmap E T))
    : option (list (gmap E T) * nat) :=
  match es with
  | [] => Some (ei, idx)
  | e :: es' =>
      match e with
      | [] => None
      | _ =>
          let kv := fold_left (λ (kv : gmap E T) x, <[fn x := x]> kv) e ∅ in
          let ei := ei ++ [kv] in
          let idx := if decide (size kv < size (default ∅ (ei !! idx)))%nat then i else idx in
          both_maps fn es' (S i) idx ei
      end
  end.

(** [[]E{}] when a slice is empty. *)
Definition BothExistAny (es : list (list T)) (fn : T → E) : list T :=
  match es with
  | [] => []
  | _ =>
      match both_maps fn es 0 0 [] with
      | None => []
      | Some (ei, idx) =>
          fold_left (λ v '(k, x),
              if forallb (λ '(i, m), bool_decide (i = idx) || bool_decide (is_Some (m !! k)))
                   (imap pair ei)
              then v ++ [x] else v)
            (range_map (default ∅ (ei !! idx))) []
      end
  end.

Definition Single (a b : list E) : list E :=
  let count kn e := <[e := (default 0 (kn !! e) + 1) mod 256]> kn in
  let kn : gmap E Z := fold_left count (Distinct b) (fold_left count (Distinct a) ∅) in
  fold_left (λ v '(k, n), if n =? 1 then v ++ [k] else v) (range_map kn) [].

Definition Complete (a b : list E) : bool := (length (Single a b) =? 0)%nat.

Definition Order (es : list E) (ts : list T) (fn : T → E) : list T :=
  match es, ts with
  | [], _ | _, [] => ts
  | _, _ =>
      let kv : gmap E (list T) :=
        fold_left (λ (kv : gmap E (list T)) t, <[fn t := default [] (kv !! fn t) ++ [t]]> kv) ts ∅ in
      let '(kv, rs) :=
        fold_left (λ '(kv, rs) e, (delete e kv, rs ++ default [] (kv !! e))) es (kv, []) in
      fold_left (λ rs '(k, _), rs ++ default [] (kv !! k)) (range_map kv) rs
  end.

(** What is returned, and the slice that the pointer has afterwards. *)
Definition OrderPtr (es : list E) (ts : list T) (fn : T → E) : list T * list T :=
  let ts := Order es ts fn in (ts, ts).
End ranges.

Definition BothExist `{MR : !MapRange} {E} `{Countable E} (es : list (list E)) : list E :=
  BothExistAny es id.

(** ** Ordered values *)

Section ordered.
Context {E : Type} (ltb : E → E → bool).

Definition Min (es : list E) : outcome E :=
  match es with
  | [] => Panic "index out of range"
  | v :: es' => Ret (fold_left (λ v t, if ltb t v then t else v) es' v)
  end.

Definition Max (es : list E) : outcome E :=
  match es with
  | [] => Panic "index out of range"
  | v :: es' => Ret (fold_left (λ v t, if ltb v t then t else v) es' v)
  end.

Context (leb : E → E → bool).

Definition Between (data left right : E) : bool := ltb left data && ltb data right.
Definition BetweenEq (data left right : E) : bool := leb left data && leb data right.
Definition BetweenLEq (data left right : E) : bool := leb left data && ltb data right.
Definition BetweenREq (data left right : E) : bool := ltb left data && leb data right.

Definition SortAny `{!GoSort} {A} (es : list A) (fn : A → A → bool) : list A := go_sort fn es.

Definition Sort `{!GoSort} (es : list E) (asc : bool) : list E :=
  SortAny es (λ a b, if asc then ltb a b else ltb b a).
End ordered.

(** ** Small helpers *)

Definition If {A} (isa : bool) (a b : A) : A := if isa then a else b.
Definition NotNilReplace {A} (old : A) (new_ : option A) : A := default old new_.
Definition IfNil {A} (ptr : option A) (fallback : A) : A := default fallback ptr.

Definition GetSwitchFromOptions (Options : option (gmap string bool)) (key : string) : bool :=
  match Options with
  | None => true
  | Some m => match m !! key with
              | None => true
              | Some flag => flag
              end
  end.

(** The caller's map afterwards: a nil map stays nil, since only the callee's
    parameter is made to point to the new map. *)
Definition SetSwitchFromOptions (options : option (gmap string bool)) (key : string)
    (value : bool) : option (gmap string bool) :=
  match options with
  | None => None
  | Some m => Some (<[key := value]> m)
  end.

Definition GetElemByIndex (array : list Z) (index : Z) : Z + string :=
  if (index <? 0) || (Z.of_nat (length array) <=? index) then inr "index out of range"%string
  else inl (default 0 (array !! Z.to_nat index)).

Definition Flatten {A} (slices : list (list A)) : list A :=
  fold_left (λ result slice, result ++ slice) slices [].

Definition CopySlice {A} (a : list A) : list A := a.

(** The swaps are those that [rand.Shuffle] asks for. *)
Definition swap {A} (ij : nat * nat) (l : list A) : list A :=
  match l !! ij.1, l !! ij.2 with
  | Some x, Some y => <[ij.2 := x]> (<[ij.1 := y]> l)
  | _, _ => l
  end.

Definition ShuffleSlice {A} (swaps : list (nat * nat)) (a : list A) : list A :=
  fold_left (λ shuffled ij, swap ij shuffled) swaps (CopySlice a).

(** A pointer that is nil, or what it points to, where a slice or a map may be nil. *)
Definition InitSlice {A} (val : option (option (list A))) : option (option (list A)) :=
  (λ v, Some (default [] v)) <$> val.
Definition InitMap {K V} `{Countable K} (val : option (option (gmap K V))) : option (option (gmap K V)) :=
  (λ v, Some (default ∅ v)) <$> val.

(** A nil map panics when there is something to set. *)
Definition SetIfNotNil {V} (values : option (gmap string V)) (key : string) (value : option V) :
    outcome (option (gmap string V) * bool) :=
  match value with
  | None => Ret (values, false)
  | Some v => match values with
              | None => Panic "assignment to entry in nil map"
              | Some m => Ret (Some (<[key := v]> m), true)
              end
  end.

(** The calls of [Foreach] and [ForEachMap], in their order. *)
Definition Foreach {A} (array : list A) : list A := array.
Definition ForEachMap `{MR : !MapRange} {K V} `{Countable K} (m : gmap K V) : list (K * V) := range_map m.

(** ** Lemmas on the loops *)

Section loop_lemmas.
Context {T V E : Type} `{Countable E}.
Implicit Types (a : list T) (b : list V) (k t : gset E).

Lemma key_set_elem (fnb : V → E) b e : e ∈ key_set fnb b ↔ e ∈ fnb <$> b.
Proof.
  unfold key_set. assert (∀ s : gset E,
    e ∈ fold_left (λ k v, {[fnb v]} ∪ k) b s ↔ e ∈ fnb <$> b ∨ e ∈ s) as Hg.
  { induction b as [|v b IH]; intros s; simpl; [set_solver |]. rewrite IH. set_solver. }
  rewrite Hg. set_solver.
Qed.

Lemma sub_loop_spec (fna : T → E) k t a :
  let r := sub_loop fna k t a in
  sublist r a ∧ NoDup (fna <$> r) ∧
  ∀ e, e ∈ fna <$> r ↔ e ∈ fna <$> a ∧ e ∉ t ∧ e ∉ k.
Proof.
  revert t. induction a as [|x a IH]; intros t; simpl.
  - split_and!; [done | constructor | set_solver].
  - destruct (bool_decide_reflect (fna x ∈ t)) as [Ht | Ht];
      [| destruct (bool_decide_reflect (fna x ∈ k)) as [Hk | Hk]].
    + destruct (IH t) as (H1 & H2 & H3). split_and!; [by constructor | done |].
      intros e. rewrite H3. set_solver.
    + destruct (IH t) as (H1 & H2 & H3). split_and!; [by constructor | done |].
      intros e. rewrite H3. set_solver.
    + destruct (IH ({[fna x]} ∪ t)) as (H1 & H2 & H3). split_and!; [by constructor | |].
      * rewrite fmap_cons. constructor; [rewrite H3; set_solver | done].
      * intros e. rewrite !fmap_cons, !elem_of_cons, H3.
        destruct (decide (e = fna x)); set_solver.
Qed.

Lemma intersect_loop_filter (fna : T → E) k (added : gmap E unit) a :
  intersect_loop fna k added a = filter (λ x, fna x ∈ k) a.
Proof.
  revert added. induction a as [|x a IH]; intros added; simpl; [done |].
  rewrite (bool_decide_true (zero_lookup added (fna x) = tt)) by (by destruct (zero_lookup _ _)).
  rewrite andb_true_r, filter_cons.
  destruct (bool_decide_reflect (fna x ∈ k)); case_decide; try done; by rewrite IH.
Qed.

Lemma distinct_sub (fn : T → E) t es :
  distinct_loop fn (λ x _, x) t es = sub_loop fn ∅ t es.
Proof.
  revert t. induction es as [|x es IH]; intros t; simpl; [done |].
  rewrite (bool_decide_false (fn x ∈ ∅)) by set_solver. by rewrite !IH.
Qed.

Lemma distinct_keys (fn : T → E) t es :
  distinct_loop fn (λ _ e, e) t es = fn <$> distinct_loop fn (λ x _, x) t es.
Proof.
  revert t. induction es as [|x es IH]; intros t; simpl; [done |].
  case_match; [apply IH |]. rewrite fmap_cons. by rewrite IH.
Qed.

Lemma duplicate_loop_spec (fn : T → E) t es :
  duplicate_loop fn t es = false ↔ NoDup (fn <$> es) ∧ ∀ e, e ∈ fn <$> es → e ∉ t.
Proof.
  revert t. induction es as [|x es IH]; intros t; simpl.
  - split; [split; [constructor | set_solver] | done].
  - rewrite NoDup_cons. destruct (bool_decide_reflect (fn x ∈ t)).
    + split; [done |]. intros [_ Hn]. exfalso. by apply (Hn (fn x)); [left |].
    + rewrite IH. split.
      * intros [Hnd Hn]. split_and!; [intros Hx; apply Hn in Hx; set_solver | done |].
        intros e [-> | He]%elem_of_cons; [done |]. apply Hn in He. set_solver.
      * intros [[Hx Hnd] Hn]. split; [done |]. intros e He [->%elem_of_singleton | Het]%elem_of_union;
          [done |]. apply (Hn e); [by right | done].
Qed.
End loop_lemmas.

Section delete_lemmas.
Context {E : Type} `{Countable E}.
Implicit Types (es : list E) (m : gmap E Z).

Definition occ (e : E) (es : list E) : nat := length (filter (e =.) es).

Lemma occ_cons e x es : occ e (x :: es) = ((if decide (e = x) then 1 else 0) + occ e es)%nat.
Proof. unfold occ. rewrite filter_cons. by destruct (decide (e = x)). Qed.

Lemma occ_perm e es1 es2 : es1 ≡ₚ es2 → occ e es1 = occ e es2.
Proof. intros Hp. unfold occ. by rewrite Hp. Qed.

Lemma count_map_lookup es e :
  count_map es !! e = if decide (occ e es = 0%nat) then None else Some (Z.of_nat (occ e es)).
Proof.
  unfold count_map.
  assert (∀ m, (∀ x n, m !! x = Some n → 0 < n) →
    fold_left (λ (m : gmap E Z) e, <[e := default 0 (m !! e) + 1]> m) es m !! e
    = if decide (occ e es = 0%nat) then m !! e
      else Some (default 0 (m !! e) + Z.of_nat (occ e es))) as Hg.
  { induction es as [|x es IH]; intros m Hm; [done |]. cbn [fold_left].
    rewrite IH, occ_cons.
    - destruct (decide (e = x)) as [-> | Hne].
      + rewrite lookup_insert_eq. simpl default.
        rewrite (decide_False (P := (1 + occ x es = 0)%nat)) by lia.
        case_decide as Ho; [rewrite Ho; simpl; done |]. f_equal. lia.
      + rewrite lookup_insert_ne by done. done.
    - intros y n [[-> <-] | [_ Hy]]%lookup_insert_Some; [| by eapply Hm].
      destruct (m !! y) eqn:E'; simpl; [pose proof (Hm _ _ E') |]; lia. }
  rewrite Hg by set_solver. rewrite lookup_empty. done.
Qed.

(** The loop removes, from the front, as many occurrences as the map counts. *)
Lemma delete_elems_loop_spec m es :
  (∀ x n, m !! x = Some n → 0 < n) →
  sublist (delete_elems_loop m es) es ∧
  ∀ e, occ e (delete_elems_loop m es) = (occ e es - Z.to_nat (default 0%Z (m !! e)))%nat.
Proof.
  revert m. induction es as [|x es IH]; intros m Hm; simpl; [split; [done | by intros] |].
  destruct (m !! x) as [n|] eqn:Hx.
  - set (m' := if n - 1 =? 0 then _ else _).
    assert (∀ y, m' !! y = if decide (y = x) then (if n - 1 =? 0 then None else Some (n - 1))
                           else m !! y) as Hm'.
    { intros y. unfold m'. destruct (Z.eqb_spec (n - 1) 0); case_decide as Hd; subst.
      - by rewrite lookup_delete_eq.
      - by rewrite lookup_delete_ne, lookup_insert_ne by done.
      - by rewrite lookup_insert_eq.
      - by rewrite lookup_insert_ne by done. }
    pose proof (Hm _ _ Hx). destruct (IH m') as [H1 H2].
    { intros y k. rewrite Hm'. case_decide; [| apply Hm].
      destruct (Z.eqb_spec (n - 1) 0); [done |]. intros [= <-]. lia. }
    split; [by constructor |]. intros e. rewrite H2, occ_cons, Hm'.
    case_decide as Hd; [subst; rewrite Hx; simpl | lia].
    destruct (Z.eqb_spec (n - 1) 0); simpl; lia.
  - destruct (IH m Hm) as [H1 H2]. split; [by constructor |]. intros e.
    rewrite !occ_cons, H2. case_decide; [subst; rewrite Hx; simpl; lia | lia].
Qed.
End delete_lemmas.

Section order_lemmas.
Context `{MR : !MapRange} {T E : Type} `{Countable E}.
Implicit Types (kv : gmap E (list T)) (ts : list T) (es : list E).

Definition group_step (fn : T → E) kv (t : T) : gmap E (list T) :=
  <[fn t := default [] (kv !! fn t) ++ [t]]> kv.

Definition take_step '((kv, rs) : gmap E (list T) * list T) (e : E) :=
  (delete e kv, rs ++ default [] (kv !! e)).

(** All the elements held by the groups. *)
Definition held kv : list T := concat (snd <$> map_to_list kv).

Lemma held_insert kv k l :
  held (<[k := l]> kv) ≡ₚ l ++ held (delete k kv).
Proof.
  unfold held. rewrite <- insert_delete_eq.
  rewrite map_to_list_insert by apply lookup_delete_eq. done.
Qed.

Lemma held_delete kv k : held kv ≡ₚ default [] (kv !! k) ++ held (delete k kv).
Proof.
  destruct (kv !! k) as [l|] eqn:Hk; simpl.
  - rewrite <- (held_insert kv k l). by rewrite insert_id.
  - by rewrite delete_id.
Qed.

Lemma group_held fn kv ts : held (fold_left (group_step fn) ts kv) ≡ₚ held kv ++ ts.
Proof.
  revert kv. induction ts as [|t ts IH]; intros kv; simpl; [by rewrite app_nil_r |].
  rewrite IH. unfold group_step. rewrite held_insert, (held_delete kv (fn t)).
  solve_Permutation.
Qed.

Lemma group_lookup fn kv ts e :
  default [] (fold_left (group_step fn) ts kv !! e)
  = default [] (kv !! e) ++ filter (λ t, fn t = e) ts.
Proof.
  revert kv. induction ts as [|t ts IH]; intros kv; simpl; [by rewrite app_nil_r |].
  rewrite IH. unfold group_step. rewrite filter_cons. case_decide as Hd.
  - subst. rewrite lookup_insert_eq. simpl. by rewrite <- app_assoc.
  - by rewrite lookup_insert_ne.
Qed.

Lemma take_loop kv rs es seen :
  (∀ e, e ∈ seen → kv !! e = None) →
  let '(kv', rs') := fold_left take_step es (kv, rs) in
  rs' = rs ++ concat ((λ e, default [] (kv !! e)) <$> sub_loop id ∅ seen es) ∧
  (∀ e l, kv' !! e = Some l → e ∉ es ∧ kv !! e = Some l) ∧
  held kv' ++ rs' ≡ₚ held kv ++ rs.
Proof.
  revert kv rs seen. induction es as [|e es IH]; intros kv rs seen Hseen; cbn [fold_left].
  - simpl. rewrite app_nil_r. split_and!; [done | | done]. intros e l Hl.
    split; [set_solver | done].
  - specialize (IH (delete e kv) (rs ++ default [] (kv !! e)) ({[e]} ∪ seen)).
    cbn [take_step]. destruct (fold_left take_step es _) as [kv' rs'].
    destruct IH as (H1 & H2 & H3).
    { intros x [->%elem_of_singleton | Hx]%elem_of_union; [apply lookup_delete_eq |].
      apply lookup_delete_None. auto. }
    split_and!.
    + rewrite H1. simpl sub_loop. rewrite (bool_decide_false (id e ∈ ∅)) by set_solver.
      assert (∀ s, (∀ x, x ∈ sub_loop id ∅ s es → x ∉ s)) as Hns.
      { intros s x Hx. destruct (sub_loop_spec id ∅ s es) as (_ & _ & Hk).
        apply (Hk x). rewrite list_fmap_id. done. }
      assert ((λ x, default [] (delete e kv !! x)) <$> sub_loop id ∅ ({[e]} ∪ seen) es
        = (λ x, default [] (kv !! x)) <$> sub_loop id ∅ ({[e]} ∪ seen) es) as ->.
      { apply list_fmap_ext. intros i x Hx%list_elem_of_lookup_2.
        apply Hns in Hx. rewrite lookup_delete_ne; [done | set_solver]. }
      case_bool_decide as He.
      * simpl in He. rewrite (Hseen e He). simpl. rewrite app_nil_r.
        replace ({[e]} ∪ seen) with seen by set_solver. done.
      * rewrite fmap_cons. simpl. by rewrite <- app_assoc.
    + intros x l Hl. apply H2 in Hl as [Hx Hl]. apply lookup_delete_Some in Hl as [Hne Hl].
      split; [set_solver | done].
    + rewrite H3, (held_delete kv e). solve_Permutation.
Qed.

Lemma range_held kv rs :
  ∃ rest, fold_left (λ rs '(k, _), rs ++ default [] (kv !! k)) (range_map kv) rs = rs ++ rest ∧
    rest ≡ₚ held kv ∧ ∀ t, t ∈ rest → ∃ k l, kv !! k = Some l ∧ t ∈ l.
Proof.
  assert (∀ l : list (E * list T), (∀ k v, (k, v) ∈ l → kv !! k = Some v) → ∀ rs,
    fold_left (λ rs '(k, _), rs ++ default [] (kv !! k)) l rs = rs ++ concat (snd <$> l)) as Hf.
  { induction l as [|[k v] l IH]; intros Hl rs'; simpl; [by rewrite app_nil_r |].
    rewrite IH by (intros; apply Hl; by right). rewrite (Hl k v) by left. simpl.
    by rewrite <- app_assoc. }
  assert (∀ k v, (k, v) ∈ range_map kv → kv !! k = Some v) as Hr.
  { intros k v. rewrite range_map_perm. apply elem_of_map_to_list. }
  exists (concat (snd <$> range_map kv)). rewrite (Hf _ Hr). split_and!; [done | |].
  - unfold held. by rewrite range_map_perm.
  - intros t Ht. apply list_elem_of_In, in_concat in Ht as (l & Hl & Ht).
    apply list_elem_of_In, list_elem_of_fmap in Hl as ([k v] & -> & Hl).
    exists k, v. split; [by apply Hr | by apply list_elem_of_In].
Qed.
End order_lemmas.

Lemma paginate_range {A} (es : list A) p s :
  1 ≤ p → 1 ≤ s → p * s < two63 →
  Paginate es p s
  = Ret (take (Z.to_nat s) (drop (Z.to_nat ((p - 1) * s)) es)).
Proof.
  intros Hp Hs Hr. unfold Paginate.
  assert (0 ≤ (p - 1) * s) as H0 by nia.
  assert ((p - 1) * s + s < two63) as H1 by nia.
  assert (p < two63) as H2 by (unfold two63 in *; nia).
  destruct (Z.leb_spec p 0); [lia |]. destruct (Z.leb_spec s 0); [lia |].
  rewrite (wrap64_id (p - 1)) by (unfold in_int64, two63 in *; lia).
  rewrite (wrap64_id ((p - 1) * s)) by (unfold in_int64, two63 in *; lia).
  rewrite (wrap64_id ((p - 1) * s + s)) by (unfold in_int64, two63 in *; lia).
  set (start := (p - 1) * s) in *.
  destruct (Z.leb_spec (Z.of_nat (length es)) start).
  - by rewrite drop_ge, take_nil by lia.
  - destruct (Z.ltb_spec (Z.of_nat (length es)) (start + s)).
    + destruct (Z.ltb_spec start 0); [lia |].
      destruct (Z.ltb_spec (Z.of_nat (length es)) start); [lia |]. simpl.
      rewrite !take_ge; [done | |]; rewrite length_drop; lia.
    + destruct (Z.ltb_spec start 0); [lia |].
      destruct (Z.ltb_spec (start + s) start); [lia |]. simpl. do 2 f_equal. lia.
Qed.

Lemma pages_cover {A} (es : list A) s n :
  concat ((λ p, take s (drop (p * s) es)) <$> seq 0 n) = take (n * s) es.
Proof.
  induction n as [|n IH]; [done |].
  rewrite seq_S, fmap_app, concat_app, IH. simpl. rewrite app_nil_r.
  replace (s + n * s)%nat with (n * s + s)%nat by lia. by rewrite take_take_drop.
Qed.

(** ** Properties *)

(** Slice difference: for a non-empty [b] the result is a subsequence of [a]
    with pairwise different keys, whose keys are exactly those of [a] that no
    element of [b] has; for an empty [b] it is [a] itself, duplicates
    included. *)
Theorem SliceSubFuncs_spec {T V E : Type} `{Countable E} (a : list T) (b : list V)
    (fna : T → E) (fnb : V → E) :
  SliceSubFuncs a [] fna fnb = a ∧
  (b ≠ [] →
   let r := SliceSubFuncs a b fna fnb in
   sublist r a ∧ NoDup (fna <$> r) ∧
   ∀ e, e ∈ fna <$> r ↔ e ∈ fna <$> a ∧ e ∉ fnb <$> b).
Proof.
  split; [done |]. intros Hb r.
  destruct (sub_loop_spec fna (key_set fnb b) ∅ a) as (H1 & H2 & H3).
  assert (r = sub_loop fna (key_set fnb b) ∅ a) as -> by (unfold r; by destruct b).
  split_and!; [done | done |]. intros e. rewrite H3, key_set_elem. set_solver.
Qed.

(** Slice intersection keeps duplicates: the result is [a] filtered by the
    keys of [b], since the deduplication test compares the zero value of an
    absent key with the only value there is. *)
Theorem SliceIntersectFuncs_filter {T V E : Type} `{Countable E} (a : list T) (b : list V)
    (fna : T → E) (fnb : V → E) :
  SliceIntersectFuncs a b fna fnb = filter (λ x, fna x ∈ fnb <$> b) a.
Proof.
  destruct b as [|v b].
  - simpl. induction a as [|x a IH]; [done |].
    rewrite filter_cons_False by set_solver. done.
  - unfold SliceIntersectFuncs. rewrite intersect_loop_filter.
    apply list_filter_iff. intros x. apply key_set_elem.
Qed.

(** Deduplication: [DistinctAny] keeps a subsequence with the same keys, each
    once; the shortcuts of [Distinct] compute the same; and [DuplicateAny] finds
    a duplicate exactly when some key occurs twice. *)
Theorem Distinct_spec {T E : Type} `{Countable E} (es : list T) (fn : T → E) (ts : list E) :
  let r := DistinctAny es fn in
  sublist r es ∧ NoDup (fn <$> r) ∧ (∀ e, e ∈ fn <$> r ↔ e ∈ fn <$> es) ∧
  DistinctAnyGetComparable es fn = fn <$> r ∧
  Distinct ts = DistinctAny ts id ∧
  (DuplicateAny es fn = true ↔ ¬ NoDup (fn <$> es)).
Proof.
  intros r. destruct (sub_loop_spec fn ∅ ∅ es) as (H1 & H2 & H3).
  assert (r = sub_loop fn ∅ ∅ es) as -> by apply distinct_sub.
  split_and!; [done | done | intros e; rewrite H3; set_solver | | |].
  - unfold DistinctAnyGetComparable. by rewrite distinct_keys, distinct_sub.
  - destruct ts as [|x [|y [|z ts]]]; [done | | | done].
    + unfold DistinctAny. simpl. by rewrite (bool_decide_false (x ∈ ∅)) by set_solver.
    + unfold DistinctAny. simpl. rewrite (bool_decide_false (x ∈ ∅)) by set_solver.
      destruct (decide (x = y)) as [-> | Hne].
      * by rewrite !bool_decide_true by (done || set_solver).
      * by rewrite !bool_decide_false by set_solver.
  - pose proof (duplicate_loop_spec fn ∅ es) as Hd. unfold DuplicateAny.
    destruct (duplicate_loop fn ∅ es).
    + split; [| done]. intros _ Hnd. destruct Hd as [_ Hd].
      assert (true = false); [| done]. apply Hd. split; [done | set_solver].
    + split; [done |]. intros Hn. destruct Hd as [Hd _]. by destruct (Hd eq_refl).
Qed.

(** [DeleteElems] is the multiset difference, in order: it never panics, the
    result is a subsequence of [es] in which each value has lost as many
    occurrences as [delEs] has of it; with a single value to delete that occurs,
    the caller's own slice is overwritten: it then holds the result followed by
    its former last element. *)
Theorem DeleteElems_spec {E : Type} `{Countable E} (es delEs : list E) :
  ∃ r es', DeleteElems es delEs = Ret (r, es') ∧ sublist r es ∧
    (∀ e, occ e r = (occ e es - occ e delEs)%nat) ∧
    match delEs with
    | [d] => if decide (d ∈ es) then es' = r ++ drop (length es - 1) es else es' = es
    | _ => es' = es
    end.
Proof.
  assert (∀ e, Z.to_nat (default 0 (count_map delEs !! e)) = occ e delEs) as Hc.
  { intros e. rewrite count_map_lookup. case_decide; simpl; lia. }
  destruct delEs as [|d [|d' dels]].
  - exists es, es. split_and!; [done | done | | done]. intros e. change (occ e []) with 0%nat. lia.
  - unfold DeleteElems. destruct (first_index _ es) as [i|] eqn:Hi.
    + pose proof (first_index_lt _ _ _ Hi) as Hlt.
      apply first_index_Some in Hi as (x & Hx & Hd & _). apply bool_decide_eq_true in Hd as ->.
      unfold append_cut. destruct (Z.ltb_spec (Z.of_nat i) 0); [lia |].
      destruct (Z.ltb_spec (Z.of_nat (length es)) (Z.of_nat i + 1)); [lia |]. simpl.
      rewrite Nat2Z.id. eexists _, _. split_and!; [done | apply cut_at_sublist | |].
      * intros e. rewrite (occ_perm e _ _ (cut_at_perm es i d Hx)), !occ_cons.
        change (occ e []) with 0%nat. case_decide; lia.
      * rewrite decide_True by (by eapply list_elem_of_lookup_2). done.
    + rewrite first_index_None in Hi. exists es, es.
      assert (d ∉ es) as Hn by (intros Hd; apply Hi in Hd; by rewrite bool_decide_true in Hd).
      split_and!; [done | done | | by rewrite decide_False].
      intros e. rewrite occ_cons. change (occ e []) with 0%nat. case_decide; [subst | lia].
      assert (occ d es = 0%nat) as ->; [| lia]. unfold occ.
      rewrite (proj2 (length_zero_iff_nil _)); [done |].
      clear -Hn. induction es as [|y es IH]; [done |]. rewrite filter_cons_False by set_solver.
      apply IH. set_solver.
  - destruct (delete_elems_loop_spec (count_map (d :: d' :: dels)) es) as [H1 H2].
    { intros x n. rewrite count_map_lookup. case_decide; [done |]. intros [= <-]. lia. }
    eexists _, es. split_and!; [done | done | | done]. intros e. by rewrite H2, Hc.
Qed.

(** Pagination: as long as [pageNumber * showNumber] does not overflow, page
    [p] is the [p]-th block of [showNumber] elements, and the pages in sequence
    are the slice; when the product overflows to a negative number the function
    panics instead of returning an empty page. *)
Theorem Paginate_spec {A : Type} (es : list A) (x : A) (s n : nat) :
  (1 ≤ s)%nat → (length es ≤ n * s)%nat → Z.of_nat (n * s) < two63 →
  (∀ p, (p < n)%nat →
     Paginate es (Z.of_nat (S p)) (Z.of_nat s) = Ret (take s (drop (p * s) es))) ∧
  concat ((λ p, take s (drop (p * s) es)) <$> seq 0 n) = es ∧
  Paginate [x] (2 ^ 62 + 1) 2 = Panic "slice bounds out of range".
Proof.
  intros Hs Hn Hr. split_and!; [| | reflexivity].
  - intros p Hp. rewrite paginate_range by nia. do 3 f_equal; [lia |].
    replace (Z.of_nat (S p) - 1) with (Z.of_nat p) by lia. lia.
  - rewrite pages_cover. by apply take_ge.
Qed.

(** [Order] rearranges: the result is a permutation of [ts]; it starts with
    the elements whose key is in [es], grouped in the order of the keys' first
    occurrences in [es] and, within a key, in the order of [ts]; the elements
    with other keys follow, in the order in which the map is ranged over. *)
Theorem Order_spec `{MR : !MapRange} {T E : Type} `{Countable E} (es : list E) (ts : list T)
    (fn : T → E) :
  Order es ts fn ≡ₚ ts ∧
  ∃ rest, Order es ts fn
    = concat ((λ e, filter (λ t, fn t = e) ts) <$> DistinctAny es id) ++ rest ∧
    ∀ t, t ∈ rest → fn t ∉ es.
Proof.
  destruct es as [|e0 es'] eqn:Ees; [split; [by destruct ts | exists ts; split; [by destruct ts | set_solver]] |].
  rewrite <- Ees. destruct ts as [|t0 ts'] eqn:Ets.
  { split; [by destruct es | exists []; split; [| set_solver]].
    replace (Order es [] fn) with (@nil T) by (by destruct es).
    induction (DistinctAny es id); done. }
  rewrite <- Ets.
  assert (Order es ts fn = let '(kv, rs) := fold_left take_step es
      (fold_left (group_step fn) ts ∅, []) in
    fold_left (λ rs '(k, _), rs ++ default [] (kv !! k)) (range_map kv) rs) as ->
    by (subst; done).
  set (kv0 := fold_left (group_step fn) ts ∅).
  pose proof (take_loop kv0 [] es ∅ ltac:(set_solver)) as Hloop.
  destruct (fold_left take_step es (kv0, [])) as [kv rs]. destruct Hloop as (Hrs & Hkv & Hheld).
  destruct (range_held kv rs) as (rest & -> & Hrest & Helem).
  assert (∀ e, default [] (kv0 !! e) = filter (λ t, fn t = e) ts) as Hlook.
  { intros e. unfold kv0. rewrite group_lookup, lookup_empty. done. }
  split.
  - rewrite Hrest, (comm (++)), Hheld, app_nil_r. unfold kv0. rewrite group_held.
    unfold held. rewrite map_to_list_empty. done.
  - exists rest. split.
    + rewrite Hrs. simpl. f_equal. unfold DistinctAny. rewrite distinct_sub. f_equal.
      apply list_fmap_ext. intros i e _. apply Hlook.
    + intros t Ht. apply Helem in Ht as (k & l & Hkl & Ht).
      apply Hkv in Hkl as [Hk Hkl]. specialize (Hlook k). rewrite Hkl in Hlook. simpl in Hlook.
      rewrite Hlook in Ht. by apply list_elem_of_filter in Ht as [-> _].
Qed.

(** ** Witness *)

Lemma Paginate_spec_witness :
  concat ((λ p, take 2 (drop (p * 2) [1; 2; 3; 4; 5])) <$> seq 0 3) = [1; 2; 3; 4; 5] ∧
  Paginate [0] (2 ^ 62 + 1) 2 = Panic "slice bounds out of range".
Proof.
  destruct (Paginate_spec [1; 2; 3; 4; 5] 0 2 3) as (_ & H1 & H2);
    [lia | simpl; lia | unfold two63; lia |].
  by split; [exact H1 |].
Defined.

(** [Keys] lists the keys in an order of its own. *)
Lemma Keys_perm `{MR : !MapRange} `{Countable E} {V} (kv : gmap E V) : Keys kv ≡ₚ (map_to_list kv).*1.
Proof.
  unfold Keys. rewrite <- range_map_perm. generalize (range_map kv). intros l.
  assert (Hacc : ∀ acc, fold_left (λ ks '(k, _), ks ++ [k]) l acc = acc ++ l.*1); [| by rewrite Hacc].
  induction l as [|[k v] l IH]; intros acc; simpl; [by rewrite app_nil_r |].
  by rewrite IH, <- app_assoc.
Qed.

Lemma elem_of_Keys `{MR : !MapRange} `{Countable E} {V} (kv : gmap E V) k : k ∈ Keys kv ↔ is_Some (kv !! k).
Proof.
  rewrite (Keys_perm kv), list_elem_of_fmap. split.
  - intros ([? v] & -> & Hk%elem_of_map_to_list). by exists v.
  - intros [v Hv]. exists (k, v). split; [done |]. by apply elem_of_map_to_list.
Qed.

(** ** Shuffles *)

Lemma swap_perm {A} ij (l : list A) : swap ij l ≡ₚ l.
Proof.
  destruct ij as [i j]. unfold swap. simpl. destruct (l !! i) as [x|] eqn:Hi; [|done]. destruct (l !! j) as [y|] eqn:Hj; [|done].
  by apply Permutation_insert_swap.
Qed.

(** A shuffled slice has the elements of the slice that was given, each as often, whatever
    is swapped. *)
Theorem shuffle_perm {A} swaps (a : list A) : ShuffleSlice swaps a ≡ₚ a.
Proof.
  unfold ShuffleSlice, CopySlice. revert a. induction swaps as [|ij swaps IH]; intros a; [done|]. simpl.
  by rewrite IH, swap_perm.
Qed.
