(* ===== verification/Redis.v ===== *)
(** * The Redis server

    Redis is not part of the repository: its commands are a class, of which the
    clients use the documented behaviour [RedisLaws] of a server that answers
    (a list that becomes empty does not exist any more, [LPUSH] adds at the
    head, [RPOP] takes from the tail).  [redis_store] is a concrete instance. *)

From S2P Require Import Prelude.

Local Open Scope Z_scope.

(** An error reply, or the absence of a value ([redis.Nil]). *)
Inductive redis_err := RedisErr | RedisNil.

Class Redis := {
  redis : Type;
  LRange : string → redis → redis * (list string + redis_err);
  LLen : string → redis → redis * (Z + redis_err);
  LPush : string → string → redis → redis * (Z + redis_err);
  RPush : string → string → redis → redis * (Z + redis_err);
  RPop : string → redis → redis * (string + redis_err);
  LRem : string → nat → string → redis → redis * (Z + redis_err);
  LIndex : string → Z → redis → redis * (option string + redis_err);
  LSet : string → Z → string → redis → redis * (unit + redis_err);
  Exists : string → redis → redis * (bool + redis_err);
  Del : list string → redis → redis * (Z + redis_err);
  Get : string → redis → redis * (option string + redis_err);
  Set_ : string → string → redis → redis * (unit + redis_err)
}.

(** The list without its first [n] occurrences of [v] from the head; without any
    of them for [n = 0]. *)
Fixpoint remove_n (n : nat) (v : string) (l : list string) : list string :=
  match l with
  | [] => []
  | x :: l' =>
      if decide (x = v) then match n with O => l' | S n' => remove_n n' v l' end
      else x :: remove_n n v l'
  end.

Definition lrem (count : nat) (v : string) (l : list string) : list string :=
  match count with
  | O => filter (λ x, x ≠ v) l
  | S n => remove_n n v l
  end.

Definition upd {A} (k : string) (x : A) (f : string → A) : string → A :=
  λ k', if decide (k' = k) then x else f k'.

(** A server that answers every command, seen through the lists and the strings
    it holds. *)
Class RedisLaws `(R : Redis) := {
  lists : redis → string → list string;
  strs : redis → string → option string;
  LRange_law k r : LRange k r = (r, inl (lists r k));
  LLen_law k r : LLen k r = (r, inl (Z.of_nat (length (lists r k))));
  LIndex_law k i r : 0 ≤ i → LIndex k i r = (r, inl (lists r k !! Z.to_nat i));
  Exists_law k r :
    Exists k r = (r, inl (bool_decide (lists r k ≠ []) || bool_decide (is_Some (strs r k))));
  Get_law k r : Get k r = (r, inl (strs r k));
  LPush_law k v r : ∃ r' n, LPush k v r = (r', inl n) ∧ strs r' = strs r ∧
    ∀ k', lists r' k' = upd k (v :: lists r k) (lists r) k';
  RPush_law k v r : ∃ r' n, RPush k v r = (r', inl n) ∧ strs r' = strs r ∧
    ∀ k', lists r' k' = upd k (lists r k ++ [v]) (lists r) k';
  RPop_nil_law k r : lists r k = [] → RPop k r = (r, inr RedisNil);
  RPop_law k r l v : lists r k = l ++ [v] → ∃ r', RPop k r = (r', inl v) ∧ strs r' = strs r ∧
    ∀ k', lists r' k' = upd k l (lists r) k';
  LRem_law k n v r : ∃ r' c, LRem k n v r = (r', inl c) ∧ strs r' = strs r ∧
    ∀ k', lists r' k' = upd k (lrem n v (lists r k)) (lists r) k';
  LSet_law k i v r : 0 ≤ i < Z.of_nat (length (lists r k)) →
    ∃ r', LSet k i v r = (r', inl tt) ∧ strs r' = strs r ∧
    ∀ k', lists r' k' = upd k (<[Z.to_nat i := v]> (lists r k)) (lists r) k';
  Del_law ks r : ∃ r' c, Del ks r = (r', inl c) ∧
    (∀ k', lists r' k' = if decide (k' ∈ ks) then [] else lists r k') ∧
    (∀ k', strs r' k' = if decide (k' ∈ ks) then None else strs r k');
  Set_law k v r : ∃ r', Set_ k v r = (r', inl tt) ∧ lists r' = lists r ∧
    ∀ k', strs r' k' = upd k (Some v) (strs r) k'
}.

(** ** A concrete server *)

Record store := MkStore { st_lists : gmap string (list string); st_strs : gmap string string }.

Definition st_list (s : store) (k : string) : list string := default [] (st_lists s !! k).
Definition set_list (k : string) (l : list string) (s : store) : store :=
  MkStore (<[k := l]> (st_lists s)) (st_strs s).

#[export] Instance redis_store : Redis := {|
  redis := store;
  LRange k s := (s, inl (st_list s k));
  LLen k s := (s, inl (Z.of_nat (length (st_list s k))));
  LPush k v s := (set_list k (v :: st_list s k) s, inl (Z.of_nat (S (length (st_list s k)))));
  RPush k v s := (set_list k (st_list s k ++ [v]) s, inl (Z.of_nat (S (length (st_list s k)))));
  RPop k s := match last (st_list s k) with
              | None => (s, inr RedisNil)
              | Some v => (set_list k (take (length (st_list s k) - 1) (st_list s k)) s, inl v)
              end;
  LRem k n v s := (set_list k (lrem n v (st_list s k)) s,
                   inl (Z.of_nat (length (st_list s k) - length (lrem n v (st_list s k)))));
  LIndex k i s := (s, inl (st_list s k !! Z.to_nat i));
  LSet k i v s := if (0 <=? i) && (i <? Z.of_nat (length (st_list s k)))
                  then (set_list k (<[Z.to_nat i := v]> (st_list s k)) s, inl tt)
                  else (s, inr RedisErr);
  Exists k s := (s, inl (bool_decide (st_list s k ≠ [])
                         || bool_decide (is_Some (st_strs s !! k))));
  Del ks s := (MkStore (fold_right delete (st_lists s) ks) (fold_right delete (st_strs s) ks),
               inl (Z.of_nat (length ks)));
  Get k s := (s, inl (st_strs s !! k));
  Set_ k v s := (MkStore (st_lists s) (<[k := v]> (st_strs s)), inl tt)
|}.

Lemma set_list_lookup k l s k' : st_list (set_list k l s) k' = upd k l (st_list s) k'.
Proof.
  unfold st_list, set_list, upd. simpl. case_decide; subst.
  - by rewrite lookup_insert_eq.
  - by rewrite lookup_insert_ne.
Qed.

Lemma fold_delete_lookup {A} (ks : list string) (m : gmap string A) k :
  fold_right delete m ks !! k = if decide (k ∈ ks) then None else m !! k.
Proof.
  induction ks as [|x ks IH]; simpl; [done |].
  destruct (decide (k = x)) as [-> | Hne].
  - rewrite lookup_delete_eq. by rewrite decide_True by left.
  - rewrite lookup_delete_ne, IH by done.
    destruct (decide (k ∈ ks)); [rewrite decide_True by (by right) | rewrite decide_False]; try done.
    by intros [-> | ?]%elem_of_cons.
Qed.

#[export] Instance redis_store_laws : RedisLaws redis_store.
Proof.
  refine (@Build_RedisLaws redis_store st_list (λ s k, st_strs s !! k)
            _ _ _ _ _ _ _ _ _ _ _ _ _); try done.
  - intros k v r. eexists _, _. split; [reflexivity |]. split; [done | apply set_list_lookup].
  - intros k v r. eexists _, _. split; [reflexivity |]. split; [done | apply set_list_lookup].
  - intros k r Hk. simpl. by rewrite Hk.
  - intros k r l v Hk. simpl. rewrite Hk, last_snoc. eexists. split; [reflexivity |].
    split; [done |]. intros k'. rewrite set_list_lookup. unfold upd. case_decide; [| done].
    rewrite length_app, Nat.add_sub. by rewrite take_app_length.
  - intros k n v r. eexists _, _. split; [reflexivity |]. split; [done | apply set_list_lookup].
  - intros k i v r Hi. simpl. destruct (Z.leb_spec 0 i); [| lia].
    destruct (Z.ltb_spec i (Z.of_nat (length (st_list r k)))); [| lia].
    eexists. split; [reflexivity |]. split; [done | apply set_list_lookup].
  - intros ks r. eexists _, _. split; [reflexivity |]. simpl. unfold st_list. simpl.
    split; intros k'; rewrite fold_delete_lookup; by case_decide.
  - intros k v r. eexists. split; [reflexivity |]. split; [done |]. intros k'. simpl.
    unfold upd. case_decide; subst; [by rewrite lookup_insert_eq | by rewrite lookup_insert_ne].
Defined.
