(* ===== verification/RedisTask.v ===== *)
(** * The Redis task-queue manager (queue/task/redistask)

    The manager keeps its queues in Redis lists, filled by [LPUSH] and emptied by
    [RPOP].  Methods thread the server's state and the log of the calls made to
    the [afterProcessPushFunc] functions; each command may fail.  A Lua script is
    the sequence of its commands, which the server runs without interruption.
    Keys are printed with [%v] and read back with [Sscanf]; tasks are marshalled
    with the manager's functions: both pairs are parameters. *)

From S2P Require Import Prelude Redis StandaloneTask.

Local Open Scope Z_scope.

Inductive err :=
| ECommand (e : redis_err)
| EMarshal
| ETask (e : task_err)
| EPanic.

Section manager.
Context `{R : Redis} {T K : Type} `{Countable K}.

(** ** State: the server and the calls made to the push functions *)

Record world := MkWorld { server : redis; calls : list (nat * K * T) }.

Definition M (A : Type) : Type := world → world * (A + err).

#[export] Instance M_ret : MRet M := λ A x w, (w, inl x).
#[export] Instance M_bind : MBind M := λ A B f m w,
  let '(w, r) := m w in match r with inl x => f x w | inr e => (w, inr e) end.

Definition fail {A} (e : err) : M A := λ w, (w, inr e).

(** A call whose error is looked at by the caller. *)
Definition try {A} (m : M A) : M (A + err) := λ w, let '(w, r) := m w in (w, inl r).

Definition command {A} (c : redis → redis * (A + redis_err)) : M A := λ w,
  let '(s, r) := c (server w) in
  (MkWorld s (calls w), match r with inl x => inl x | inr e => inr (ECommand e) end).

Record QueueManager := MkQueueManager {
  namespace : string;
  maxProcessing : Z;
  maxWaiting : Z;
  maxGlobal : Z;
  equalDataFunc : T → T → bool;
  afterProcessPushFunc : list nat;
  assignStrategy : option strategyFn;
  marshalFunc : T → option string;
  unmarshalFunc : string → option T
}.

(** [fmt.Sprintf("%v", key)] and [fmt.Sscanf(s, "%v", &key)]. *)
Context (showK : K → string) (scanK : string → option K) (zeroK : K).
Implicit Types (m : QueueManager) (key : K) (data : T).

(** [json.Marshal] and [json.Unmarshal]. *)
Context (jsonMarshal : T → option string) (jsonUnmarshal : string → option T).

Definition NewQueueManager (maxGlobal maxProcessing maxWaiting : Z) (equalFunc : T → T → bool)
    (opts : list (QueueManager → QueueManager)) : QueueManager :=
  fold_left (λ m opt, opt m) opts
    (MkQueueManager "default" maxProcessing maxWaiting maxGlobal equalFunc [] 
       (getStrategy RoundRobin) jsonMarshal jsonUnmarshal).

Definition WithNamespace (ns : string) m : QueueManager :=
  MkQueueManager ns (maxProcessing m) (maxWaiting m) (maxGlobal m) (equalDataFunc m)
    (afterProcessPushFunc m) (assignStrategy m) (marshalFunc m) (unmarshalFunc m).
Definition WithEqualDataFunc (fn : T → T → bool) m : QueueManager :=
  MkQueueManager (namespace m) (maxProcessing m) (maxWaiting m) (maxGlobal m) fn
    (afterProcessPushFunc m) (assignStrategy m) (marshalFunc m) (unmarshalFunc m).
Definition WithAfterProcessPushFunc (fn : nat) m : QueueManager :=
  MkQueueManager (namespace m) (maxProcessing m) (maxWaiting m) (maxGlobal m) (equalDataFunc m)
    (afterProcessPushFunc m ++ [fn]) (assignStrategy m) (marshalFunc m) (unmarshalFunc m).
Definition WithStrategy (s : Z) m : QueueManager :=
  MkQueueManager (namespace m) (maxProcessing m) (maxWaiting m) (maxGlobal m) (equalDataFunc m)
    (afterProcessPushFunc m) (getStrategy s) (marshalFunc m) (unmarshalFunc m).
Definition WithMarshalFunc (fn : T → option string) m : QueueManager :=
  MkQueueManager (namespace m) (maxProcessing m) (maxWaiting m) (maxGlobal m) (equalDataFunc m)
    (afterProcessPushFunc m) (assignStrategy m) fn (unmarshalFunc m).
Definition WithUnmarshalFunc (fn : string → option T) m : QueueManager :=
  MkQueueManager (namespace m) (maxProcessing m) (maxWaiting m) (maxGlobal m) (equalDataFunc m)
    (afterProcessPushFunc m) (assignStrategy m) (marshalFunc m) fn.

(** ** Keys of the lists *)

Definition prefix m : string := "taskqueue:" +:+ namespace m.
Definition getGlobalQueueKey m : string := prefix m +:+ ":global".
Definition getKeysListKey m : string := prefix m +:+ ":keys".
Definition getLastIndexKey m : string := prefix m +:+ ":lastindex".
Definition getProcessingQueueKey m key : string := prefix m +:+ ":processing:" +:+ showK key.
Definition getWaitingQueueKey m key : string := prefix m +:+ ":waiting:" +:+ showK key.

(** [for _, fn := range m.afterProcessPushFunc { fn(key, data) }]. *)
Definition run_after m key data : M unit := λ w,
  (MkWorld (server w) (calls w ++ ((λ f, (f, key, data)) <$> afterProcessPushFunc m)), inl tt).

Definition marshal m data : M string :=
  match marshalFunc m data with Some s => mret s | None => fail EMarshal end.

(** ** Strategies *)

(** The index stored by the script, as Redis prints and Lua reads it. *)
Context (showZ : Z → string) (scanZ : string → Z).

Fixpoint rr_try m (keys : list string) (n : nat) (last_index : Z) (idxs : list nat)
    : M (option string) :=
  match idxs with
  | [] => mret None
  | i :: idxs' =>
      let index := (last_index + Z.of_nat i) mod Z.of_nat n in
      let key := default "" (keys !! Z.to_nat index) in
      queue_length ← command (LLen (prefix m +:+ ":processing:" +:+ key));
      if queue_length <? maxProcessing m then
        command (Set_ (getLastIndexKey m) (showZ index));; mret (Some key)
      else rr_try m keys n last_index idxs'
  end.

Definition RoundRobinTask m : M (option K) :=
  r ← try (
    keys ← command (LRange (getKeysListKey m));
    match keys with
    | [] => mret None
    | _ =>
        last_index ← command (Get (getLastIndexKey m));
        rr_try m keys (length keys) (match last_index with None => -1 | Some s => scanZ s end)
          (seq 1 (length keys))
    end);
  mret (match r with
        | inl (Some keyStr) => scanK keyStr
        | _ => None
        end).

Fixpoint least_try m (keyStrs : list string) (minKey : option K) (minTasks : Z) : M (option K) :=
  match keyStrs with
  | [] => mret minKey
  | keyStr :: keyStrs' =>
      match scanK keyStr with
      | None => least_try m keyStrs' minKey minTasks
      | Some key =>
          length ← try (command (LLen (getProcessingQueueKey m key)));
          match length with
          | inl length =>
              if (length <? maxProcessing m) && (length <? minTasks)
              then least_try m keyStrs' (Some key) length
              else least_try m keyStrs' minKey minTasks
          | inr _ => least_try m keyStrs' minKey minTasks
          end
      end
  end.

Definition LeastTask m : M (option K) :=
  keyStrs ← try (command (LRange (getKeysListKey m)));
  match keyStrs with
  | inl (k :: ks) => least_try m (k :: ks) None (maxProcessing m + 1)
  | _ => mret None
  end.

(** A nil strategy function panics when it is called, which no caller of
    [assign] recovers from. *)
Definition assign m : M (option K) :=
  match assignStrategy m with
  | Some LeastFn => LeastTask m
  | Some RoundRobinFn => RoundRobinTask m
  | None => fail EPanic
  end.

(** ** Queues *)

Definition push_list (queueKey : string) (limit : Z) (full : task_err) m data : M unit :=
  length ← command (LLen queueKey);
  if limit <=? length then fail (ETask full)
  else
    dataBytes ← marshal m data;
    command (LPush queueKey dataBytes);; mret tt.

Definition pushToProcessingQueue m key data : M unit :=
  push_list (getProcessingQueueKey m key) (maxProcessing m) ErrProcessingQueueFull m data;;
  run_after m key data.

Definition forcePushToProcessingQueue m key data : M unit :=
  dataBytes ← marshal m data;
  command (LPush (getProcessingQueueKey m key) dataBytes);; run_after m key data.

Definition pushToWaitingQueue m key data : M unit :=
  push_list (getWaitingQueueKey m key) (maxWaiting m) ErrWaitingQueueFull m data.

Definition pushToGlobalQueue m data : M unit :=
  push_list (getGlobalQueueKey m) (maxGlobal m) ErrGlobalQueueFull m data.

Definition TOMBSTONE : string := "__REDIS_QUEUE_TOMBSTONE__".

Definition remove_script (key : string) (index : Z) : M Z :=
  value ← command (LIndex key index);
  match value with
  | Some _ =>
      command (LSet key index TOMBSTONE);;
      command (LRem key 1 TOMBSTONE);; mret 1
  | None => mret 0
  end.

Definition removeFromQueue m (queueKey : string) data : M bool :=
  items ← command (LRange queueKey);
  targetStr ← marshal m data;
  match first_index (λ item, bool_decide (item = targetStr)) items with
  | Some i => removed ← remove_script queueKey (Z.of_nat i); mret (removed =? 1)
  | None => mret false
  end.

(** The push functions run on the decoded task, when it can be decoded. *)
Definition after_decoded m key (dataStr : string) : M unit :=
  match unmarshalFunc m dataStr with
  | Some data => run_after m key data
  | None => mret tt
  end.

Definition push_back (queueKey dataStr : string) (e : err) : M unit :=
  try (command (RPush queueKey dataStr));; fail e.

Definition backfillProcessingQueue m key : M unit :=
  let processingKey := getProcessingQueueKey m key in
  length ← command (LLen processingKey);
  if maxProcessing m <=? length then mret tt
  else
    let waitingKey := getWaitingQueueKey m key in
    waiting ← try (command (RPop waitingKey));
    match waiting with
    | inl dataStr =>
        pushed ← try (command (LPush processingKey dataStr));
        match pushed with
        | inr e => push_back waitingKey dataStr e
        | inl _ => after_decoded m key dataStr
        end
    | inr _ =>
        let globalKey := getGlobalQueueKey m in
        global ← try (command (RPop globalKey));
        match global with
        | inl dataStr =>
            pushed ← try (command (LPush processingKey dataStr));
            match pushed with
            | inr e => push_back globalKey dataStr e
            | inl _ => after_decoded m key dataStr
            end
        | inr _ => mret tt
        end
    end.

(** ** Methods *)

Definition AddKey m key : M unit :=
  exists_ ← command (Exists (getProcessingQueueKey m key));
  if exists_ : bool then mret tt
  else command (RPush (getKeysListKey m) (showK key));; mret tt.

Definition Insert m data : M (K * option err) :=
  key ← assign m;
  let to_global :=
    r ← try (pushToGlobalQueue m data);
    mret (zeroK, match r with inl _ => None | inr e => Some e end) in
  match key with
  | None => to_global
  | Some key =>
      r ← try (pushToProcessingQueue m key data);
      match r with
      | inl _ => mret (key, None)
      | inr _ => to_global
      end
  end.

Definition InsertByKey m key data : M unit :=
  AddKey m key;;
  r ← try (pushToProcessingQueue m key data);
  match r with
  | inl _ => mret tt
  | inr _ =>
      r ← try (pushToWaitingQueue m key data);
      match r with
      | inl _ => mret tt
      | inr _ => fail (ETask ErrWaitingQueueFull)
      end
  end.


Definition DeleteKey m key : M unit :=
  command (LRem (getKeysListKey m) 0 (showK key));;
  command (Del [getProcessingQueueKey m key; getWaitingQueueKey m key]);; mret tt.

Fixpoint lengths_loop m (keyStrs : list string) (lengths : gmap K Z) : M (gmap K Z) :=
  match keyStrs with
  | [] => mret lengths
  | keyStr :: keyStrs' =>
      match scanK keyStr with
      | None => lengths_loop m keyStrs' lengths
      | Some key =>
          length ← command (LLen (getProcessingQueueKey m key));
          lengths_loop m keyStrs' (<[key := length]> lengths)
      end
  end.

Definition GetProcessingQueueLengths m : M (gmap K Z) :=
  keyStrs ← command (LRange (getKeysListKey m));
  lengths_loop m keyStrs ∅.

Definition TransformProcessingData m fromKey toKey data : M unit :=
  removed ← removeFromQueue m (getProcessingQueueKey m fromKey) data;
  if negb removed then fail (ETask ErrDataNotFound)
  else
    r ← try (forcePushToProcessingQueue m toKey data);
    match r with
    | inr e => try (forcePushToProcessingQueue m fromKey data);; fail e
    | inl _ => backfillProcessingQueue m fromKey
    end.

Definition AutoTransformProcessingData m fromKey data : M (K * option err) :=
  key ← assign m;
  match key with
  | None => mret (zeroK, Some (ETask ErrDataNotFound))
  | Some key =>
      r ← try (TransformProcessingData m fromKey key data);
      mret (key, match r with inl _ => None | inr e => Some e end)
  end.

Definition GetGlobalQueuePosition m data : M Z :=
  items ← command (LRange (getGlobalQueueKey m));
  dataStr ← marshal m data;
  mret (match first_index (λ item, bool_decide (item = dataStr)) (rev items) with
        | Some i => Z.of_nat i
        | None => -1
        end).

(** ** What the server holds *)

Context `{L : !RedisLaws R}.
Context (scan_show : ∀ k, scanK (showK k) = Some k).

Notation list_at w k := (lists (server w) k).
Definition proc m w key : list string := list_at w (getProcessingQueueKey m key).
Definition glob m w : list string := list_at w (getGlobalQueueKey m).
Definition keys_of m w : list string := list_at w (getKeysListKey m).

(** The world after a command that changes list [k] to [l]. *)
Definition writes (w w' : world) (k : string) (l : list string) : Prop :=
  strs (server w') = strs (server w) ∧ calls w' = calls w ∧
  ∀ k', list_at w' k' = upd k l (lists (server w)) k'.

Lemma writes_same w w' k l : writes w w' k l → list_at w' k = l.
Proof. intros (_ & _ & Hl). rewrite Hl. unfold upd. by rewrite decide_True. Qed.

Lemma writes_other w w' k l k' : writes w w' k l → k' ≠ k → list_at w' k' = list_at w k'.
Proof. intros (_ & _ & Hl) Hk. rewrite Hl. unfold upd. by rewrite decide_False. Qed.

(** *** The commands *)

Lemma LRange_run k w : command (LRange k) w = (w, inl (list_at w k)).
Proof. unfold command. rewrite LRange_law. by destruct w. Qed.

Lemma LLen_run k w : command (LLen k) w = (w, inl (Z.of_nat (length (list_at w k)))).
Proof. unfold command. rewrite LLen_law. by destruct w. Qed.

Lemma LPush_run k v w :
  ∃ w' n, command (LPush k v) w = (w', inl n) ∧ writes w w' k (v :: list_at w k).
Proof.
  unfold command. destruct (LPush_law k v (server w)) as (r & n & -> & Hs & Hl).
  eexists _, _. split; [done | by split_and!].
Qed.

Lemma RPush_run k v w :
  ∃ w' n, command (RPush k v) w = (w', inl n) ∧ writes w w' k (list_at w k ++ [v]).
Proof.
  unfold command. destruct (RPush_law k v (server w)) as (r & n & -> & Hs & Hl).
  eexists _, _. split; [done | by split_and!].
Qed.


(** *** The keys of the lists are pairwise different *)

Lemma prefix_inj m a b : prefix m +:+ a = prefix m +:+ b → a = b.
Proof. apply (inj (String.append (prefix m))). Qed.

Lemma showK_inj k k' : showK k = showK k' → k = k'.
Proof.
  intros E. pose proof (scan_show k) as H1. rewrite E, scan_show in H1. congruence.
Qed.

Lemma proc_inj m k k' : getProcessingQueueKey m k = getProcessingQueueKey m k' → k = k'.
Proof.
  unfold getProcessingQueueKey. intros E%prefix_inj. apply showK_inj.
  by apply (inj (String.append ":processing:")).
Qed.

Lemma keys_proc m k : getKeysListKey m ≠ getProcessingQueueKey m k.
Proof. by intros E%prefix_inj. Qed.

(** *** Removal from a list *)

Lemma writes_trans w w1 w2 k l1 l2 :
  writes w w1 k l1 → writes w1 w2 k l2 → writes w w2 k l2.
Proof.
  intros (S1 & C1 & L1) (S2 & C2 & L2). split_and!; [congruence.. |].
  intros k'. rewrite L2. unfold upd. case_decide; [done |].
  rewrite L1. unfold upd. by rewrite decide_False.
Qed.

Lemma writes_eq w w' k l l' : writes w w' k l → l = l' → writes w w' k l'.
Proof. by intros ? ->. Qed.




(** *** The backfill *)




Definition room m key w : Prop := Z.of_nat (length (proc m w key)) < maxProcessing m.



(** *** Key assignment *)

Definition keys_ok m w : Prop := Forall (λ s, ∃ k, s = showK k) (keys_of m w).

(** Only strings of the server may differ. *)
Definition same_lists (w w' : world) : Prop :=
  calls w' = calls w ∧ ∀ k', list_at w' k' = list_at w k'.

Lemma rr_try_run m keys li idxs w :
  keys ≠ [] →
  ∃ w' r, rr_try m keys (length keys) li idxs w = (w', inl r) ∧ same_lists w w' ∧
    ∀ s, r = Some s → s ∈ keys ∧
      Z.of_nat (length (list_at w (prefix m +:+ ":processing:" +:+ s))) < maxProcessing m.
Proof.
  intros Hk. induction idxs as [|i idxs IH].
  - exists w, None. split_and!; done.
  - simpl rr_try. unfold mbind, M_bind. rewrite LLen_run.
    set (index := (li + Z.of_nat i) mod Z.of_nat (length keys)).
    assert (length keys ≠ 0)%nat by (by destruct keys).
    assert (is_Some (keys !! Z.to_nat index)) as [s Hs].
    { apply lookup_lt_is_Some_2. pose proof (Z.mod_pos_bound (li + Z.of_nat i)
        (Z.of_nat (length keys))). unfold index. lia. }
    rewrite Hs. change (default "" (Some s)) with s.
    destruct (Z.ltb_spec (Z.of_nat (length (list_at w (prefix m +:+ ":processing:" +:+ s))))
      (maxProcessing m)) as [Hlt | Hge]; [| exact IH].
    unfold command. destruct (Set_law (getLastIndexKey m) (showZ index) (server w))
      as (r & -> & Hr & _). eexists _, _. split; [done |]. split.
    + split; [done |]. intros k'. simpl. by rewrite Hr.
    + intros s' [= <-]. split; [by eapply list_elem_of_lookup_2 | done].
Qed.

Lemma RoundRobinTask_run m w :
  keys_ok m w →
  ∃ w' r, RoundRobinTask m w = (w', inl r) ∧ same_lists w w' ∧
    ∀ k, r = Some k → room m k w.
Proof.
  intros Hok. unfold RoundRobinTask, mbind, M_bind, try. rewrite LRange_run.
  unfold keys_ok in Hok. fold (keys_of m w). destruct (keys_of m w) as [|s0 ks] eqn:Hks.
  - exists w, None. by split_and!.
  - unfold command at 1. rewrite Get_law.
    set (li := match strs _ _ with None => -1 | Some s => scanZ s end).
    destruct (rr_try_run m (s0 :: ks) li (seq 1 (length (s0 :: ks))) w ltac:(done))
      as (w' & r & E & Hsame & Hr).
    replace (MkWorld (server w) (calls w)) with w by (by destruct w). rewrite E.
    eexists w', _. split; [done |]. split; [done |]. intros k Hrk.
    destruct r as [s|]; [| done]. destruct (Hr s eq_refl) as [Hin Hlt].
    rewrite Forall_forall in Hok. destruct (Hok s Hin) as [k' ->].
    rewrite scan_show in Hrk. injection Hrk as ->. exact Hlt.
Qed.

Lemma least_try_run m keyStrs minKey minTasks w :
  (∀ k, minKey = Some k → room m k w) →
  ∃ r, least_try m keyStrs minKey minTasks w = (w, inl r) ∧ ∀ k, r = Some k → room m k w.
Proof.
  revert minKey minTasks. induction keyStrs as [|s ks IH]; intros minKey minTasks Hm; simpl.
  - by exists minKey.
  - destruct (scanK s) as [key|]; [| by apply IH].
    unfold mbind, M_bind, try. rewrite LLen_run.
    destruct (_ && _) eqn:E; [| by apply IH]. apply IH. intros k [= <-].
    apply andb_true_iff in E as [E _]. by apply Z.ltb_lt in E.
Qed.

Lemma assign_run m w :
  is_Some (assignStrategy m) → keys_ok m w →
  ∃ w' r, assign m w = (w', inl r) ∧ same_lists w w' ∧ ∀ k, r = Some k → room m k w.
Proof.
  intros [f Hf] Hok. unfold assign. rewrite Hf. destruct f; [by apply RoundRobinTask_run |].
  unfold LeastTask, mbind, M_bind, try. rewrite LRange_run. fold (keys_of m w).
  destruct (keys_of m w) as [|s ks]; [by exists w, None |].
  destruct (least_try_run m (s :: ks) None (maxProcessing m + 1) w) as (r & E & Hr); [done |].
  by exists w, r.
Qed.

(** *** Pushes *)

Lemma push_list_run queueKey limit full m data d w :
  marshalFunc m data = Some d →
  (limit ≤ Z.of_nat (length (list_at w queueKey)) ∧
   push_list queueKey limit full m data w = (w, inr (ETask full))) ∨
  (Z.of_nat (length (list_at w queueKey)) < limit ∧
   ∃ w', push_list queueKey limit full m data w = (w', inl tt) ∧
     writes w w' queueKey (d :: list_at w queueKey)).
Proof.
  intros Hd. unfold push_list, mbind, M_bind. rewrite LLen_run.
  destruct (Z.leb_spec limit (Z.of_nat (length (list_at w queueKey)))); [by left | right].
  split; [done |]. unfold marshal. rewrite Hd. simpl.
  destruct (LPush_run queueKey d w) as (w' & n & -> & Hw). by exists w'.
Qed.

Lemma push_processing_run m key data d w :
  marshalFunc m data = Some d → room m key w →
  ∃ w', pushToProcessingQueue m key data w = (w', inl tt) ∧
    calls w' = calls w ++ ((λ f, (f, key, data)) <$> afterProcessPushFunc m) ∧
    ∀ k', list_at w' k' = upd (getProcessingQueueKey m key) (d :: proc m w key)
                            (lists (server w)) k'.
Proof.
  intros Hd Hroom. unfold pushToProcessingQueue, mbind, M_bind.
  destruct (push_list_run (getProcessingQueueKey m key) (maxProcessing m)
    ErrProcessingQueueFull m data d w Hd) as [[Hge _] | (_ & w1 & -> & Hw1)].
  { unfold room, proc in Hroom. lia. }
  unfold run_after. eexists. split; [done |]. destruct Hw1 as (_ & Hc & Hl). simpl.
  split; [by rewrite Hc | exact Hl].
Qed.


(** *** Properties *)


(** [Insert], under either strategy, always answers: the task goes to the head
    of the processing list of a key that had room, or to the head of the global
    list, which had room, or is rejected with [ErrGlobalQueueFull] and no list
    changes; no list ever exceeds its capacity this way. *)
Theorem Redis_Insert_spec m data d w :
  is_Some (assignStrategy m) → keys_ok m w → marshalFunc m data = Some d →
  ∃ w' k e, Insert m data w = (w', inl (k, e)) ∧
    ((e = None ∧ room m k w ∧
      ∀ k', list_at w' k' = upd (getProcessingQueueKey m k) (d :: proc m w k)
                              (lists (server w)) k') ∨
     (e = None ∧ k = zeroK ∧ Z.of_nat (length (glob m w)) < maxGlobal m ∧
      ∀ k', list_at w' k' = upd (getGlobalQueueKey m) (d :: glob m w) (lists (server w)) k') ∨
     (e = Some (ETask ErrGlobalQueueFull) ∧ k = zeroK ∧
      maxGlobal m ≤ Z.of_nat (length (glob m w)) ∧ ∀ k', list_at w' k' = list_at w k')).
Proof.
  intros Hs Hok Hd. unfold Insert, mbind, M_bind.
  destruct (assign_run m w Hs Hok) as (w1 & r & -> & [_ Hl] & Hr).
  destruct r as [k|].
  - assert (room m k w1) as Hroom by (unfold room, proc; rewrite Hl; by apply Hr).
    destruct (push_processing_run m k data d w1 Hd Hroom) as (w2 & E & _ & Hw2).
    unfold try at 1. rewrite E. exists w2, k, None. split; [done |]. left.
    split_and!; [done | by apply Hr |]. intros k'. rewrite Hw2. unfold upd, proc.
    by rewrite !Hl.
  - unfold try. unfold pushToGlobalQueue.
    destruct (push_list_run (getGlobalQueueKey m) (maxGlobal m) ErrGlobalQueueFull m data d w1 Hd)
      as [[Hge ->] | (Hlt & w2 & -> & _ & _ & Hw2)].
    + eexists _, _, _. split; [done |]. right. right.
      split_and!; [done | done | unfold glob; by rewrite <- Hl | exact Hl].
    + eexists _, _, _. split; [done |]. right. left.
      split_and!; [done | done | unfold glob; by rewrite <- Hl |].
      intros k'. rewrite Hw2. unfold upd, glob. by rewrite !Hl.
Qed.

(** [n] calls in a row. *)
Fixpoint AddKeys (n : nat) m key : M unit :=
  match n with
  | O => mret tt
  | S n' => AddKey m key;; AddKeys n' m key
  end.

(** [AddKey] does not recognise a key it has added: it tests whether the key's
    processing list exists, which a Redis list does not as long as it is empty,
    so each of [n] calls on a key without tasks appends it to the list of keys
    once more. *)
Theorem AddKey_duplicates n m key w :
  proc m w key = [] → strs (server w) (getProcessingQueueKey m key) = None →
  ∃ w', AddKeys n m key w = (w', inl tt) ∧
    keys_of m w' = keys_of m w ++ replicate n (showK key).
Proof.
  revert w. induction n as [|n IH]; intros w Hp Hs; simpl.
  - exists w. by rewrite app_nil_r.
  - unfold mbind, M_bind at 1, AddKey, mbind, M_bind.
    assert (command (Exists (getProcessingQueueKey m key)) w = (w, inl false)) as ->.
    { unfold command. rewrite Exists_law. unfold proc in Hp. rewrite Hp, Hs. by destruct w. }
    destruct (RPush_run (getKeysListKey m) (showK key) w) as (w1 & c & -> & Hw1).
    destruct (IH w1) as (w' & E & Hk).
    { unfold proc. rewrite (writes_other _ _ _ _ _ Hw1); [done |].
      intros Eq. symmetry in Eq. by apply keys_proc in Eq. }
    { destruct Hw1 as (-> & _ & _). done. }
    exists w'. split; [exact E |]. rewrite Hk. unfold keys_of at 1.
    rewrite (writes_same _ _ _ _ Hw1). by rewrite <- app_assoc.
Qed.
End manager.

(** ** Witnesses: string keys and tasks, on the concrete server *)

Definition demo_manager : QueueManager (T := string) :=
  WithNamespace "q" (NewQueueManager Some Some 2 1 1 String.eqb []).

Definition demo_world : world (R := redis_store) (T := string) (K := string) :=
  MkWorld (MkStore
    {["taskqueue:q:keys" := ["a"]; "taskqueue:q:processing:a" := ["t1"];
      "taskqueue:q:waiting:a" := ["t2"]]} ∅) [].


Lemma Redis_Insert_spec_witness :
  ∃ w' k e, Insert id Some "" (λ _, "0") (λ _, 0) demo_manager "t3" demo_world
            = (w', inl (k, e)) ∧ e ≠ Some EMarshal.
Proof.
  destruct (Redis_Insert_spec (R := redis_store) id Some "" (λ _, "0") (λ _, 0)
    (λ _, eq_refl) demo_manager "t3" "t3" demo_world) as (w' & k & e & E & H);
    [by eexists | | reflexivity |].
  - change (Forall (λ s : string, ∃ k : string, s = id k) ["a"]). repeat constructor. by exists "a".
  - exists w', k, e. split; [exact E |]. destruct H as [[-> _] | [[-> _] | [-> _]]]; done.
Defined.

Lemma AddKey_duplicates_witness :
  ∃ w', AddKeys id 3 demo_manager "b" demo_world = (w', inl tt) ∧
    keys_of demo_manager w' = ["a"; "b"; "b"; "b"].
Proof.
  destruct (AddKey_duplicates (R := redis_store) id 3 demo_manager "b" demo_world)
    as (w' & E & Hk); [reflexivity | reflexivity |].
  exists w'. split; [exact E |]. rewrite Hk. vm_compute. reflexivity.
Defined.
