(* ===== verification/MemoryKV.v ===== *)
(** * The in-process key-value store (discovery/inprocess/memory_kv.go)

    A map of values with optional leases, and watchers of key prefixes.  What
    runs under [mu] is one step; leases and subscribers, which the code compares
    by pointer, are numbered in the order of their creation.  The goroutines
    [expireAfter] and the events already taken by the loops of [WatchKey] are
    part of the state. *)

From S2P Require Import Prelude GoStrings.
From Stdlib Require Import Strings.Byte.

Definition bytes := list byte.

Inductive WatchType := WatchTypePut | WatchTypeDelete.

Record WatchEvent := MkEvent { ev_key : string; ev_value : option bytes; ev_type : WatchType }.

Inductive kv_err := ErrContext | ErrNilContext | ErrNilHandler | ErrInvalidTTL.

Record memoryEntry := MkEntry { value : option bytes; lease : option nat }.

(** [queue] holds the events not yet taken, [taken] those the watcher's loop has
    taken, in order; [cancelled] is the state of [watchCtx]. *)
Record watchSubscriber := MkSubscriber {
  prefix : string;
  queue : list WatchEvent;
  taken : list WatchEvent;
  cancelled : bool
}.

(** [objects] are the subscribers ever created, [subscribers] the registered
    ones; [timers] are the running [expireAfter] goroutines with their lease
    and key, [cancelledLeases] the leases whose context is cancelled. *)
Record memoryKV := MkKV {
  items : gmap string memoryEntry;
  subscribers : gset nat;
  objects : gmap nat watchSubscriber;
  nextSubscriberID : nat;
  timers : list (nat * string);
  cancelledLeases : gset nat;
  nextLease : nat
}.

Definition set_items m s := MkKV m (subscribers s) (objects s) (nextSubscriberID s)
  (timers s) (cancelledLeases s) (nextLease s).
Definition set_subscribers g s := MkKV (items s) g (objects s) (nextSubscriberID s)
  (timers s) (cancelledLeases s) (nextLease s).
Definition set_objects o s := MkKV (items s) (subscribers s) o (nextSubscriberID s)
  (timers s) (cancelledLeases s) (nextLease s).
Definition set_timers t s := MkKV (items s) (subscribers s) (objects s) (nextSubscriberID s)
  t (cancelledLeases s) (nextLease s).
Definition cancel_lease (l : option nat) s :=
  match l with
  | None => s
  | Some l => MkKV (items s) (subscribers s) (objects s) (nextSubscriberID s)
                (timers s) ({[l]} ∪ cancelledLeases s) (nextLease s)
  end.

(** A context: nil, done with its error, or live. *)
Inductive context := NilCtx | DoneCtx | LiveCtx.

Definition checkContext (ctx : context) : option kv_err :=
  match ctx with
  | NilCtx => Some ErrNilContext
  | DoneCtx => Some ErrContext
  | LiveCtx => None
  end.

(** ** Watch queues *)

Definition enqueue (event : WatchEvent) (w : watchSubscriber) : watchSubscriber :=
  MkSubscriber (prefix w) (queue w ++ [event]) (taken w) (cancelled w).

Definition take_events (w : watchSubscriber) : watchSubscriber :=
  MkSubscriber (prefix w) [] (taken w ++ queue w) (cancelled w).

Definition cancel_watch (w : watchSubscriber) : watchSubscriber :=
  MkSubscriber (prefix w) (queue w) (taken w) true.

Definition HasPrefix (key prefix : string) : bool := String.prefix prefix key.

(** The loop over the registered subscribers reaches each of them once. *)
Definition publishWatchEventLocked (key : string) (value : option bytes) (typ : WatchType) s :=
  set_objects
    (map_imap (λ id w,
        Some (if bool_decide (id ∈ subscribers s) && HasPrefix key (prefix w)
              then enqueue (MkEvent key value typ) w else w)) (objects s)) s.

(** ** Operations *)

Definition setValue (ctx : context) (key : string) (value : option bytes) (leased : bool) s
    : memoryKV * option kv_err :=
  match checkContext ctx with
  | Some e => (s, Some e)
  | None =>
      let l := if leased then Some (nextLease s) else None in
      let s := MkKV (items s) (subscribers s) (objects s) (nextSubscriberID s) (timers s)
                 (cancelledLeases s) (if leased then S (nextLease s) else nextLease s) in
      let oldLease := items s !! key ≫= lease in
      let s := set_items (<[key := MkEntry value l]> (items s)) s in
      let s := publishWatchEventLocked key value WatchTypePut s in
      let s := cancel_lease oldLease s in
      (match l with Some l => set_timers ((l, key) :: timers s) s | None => s end, None)
  end.

Definition SetKey (ctx : context) (key : string) (value : option bytes) s :=
  setValue ctx key value false s.

Definition SetWithLease (ctx : context) (key : string) (value : option bytes) (ttl : Z) s :=
  if (ttl <=? 0)%Z then (s, Some ErrInvalidTTL)
  else
    (* time.Duration(ttl) * time.Second may wrap to a non-positive duration *)
    setValue ctx key value (0 <? wrap64 (ttl * 1000000000))%Z s.

Definition GetKey (ctx : context) (key : string) s : option bytes * option kv_err :=
  match checkContext ctx with
  | Some e => (None, Some e)
  | None => (items s !! key ≫= value, None)
  end.

Definition GetKeyWithPrefix `{MR : !MapRange} (ctx : context) (pre : string) s
    : list (option bytes) * option kv_err :=
  match checkContext ctx with
  | Some e => ([], Some e)
  | None =>
      let keys := fold_left (λ keys '(key, _), if HasPrefix key pre then keys ++ [key] else keys)
                    (range_map (items s)) [] in
      ((λ key, items s !! key ≫= value) <$> sort_strings keys, None)
  end.

Definition deleteKey (key : string) (notify : bool) s : memoryKV :=
  match items s !! key with
  | None => s
  | Some entry =>
      let s := set_items (delete key (items s)) s in
      let s := if notify then publishWatchEventLocked key None WatchTypeDelete s else s in
      cancel_lease (lease entry) s
  end.

Definition DelData (ctx : context) (key : string) s : memoryKV * option kv_err :=
  match checkContext ctx with
  | Some e => (s, Some e)
  | None => (deleteKey key true s, None)
  end.

Definition deleteIfLeaseMatches (key : string) (l : nat) s : memoryKV :=
  match items s !! key with
  | Some entry =>
      if bool_decide (lease entry = Some l)
      then publishWatchEventLocked key None WatchTypeDelete (set_items (delete key (items s)) s)
      else s
  | None => s
  end.

(** Where [expireAfter] leaves its [select]: the timer or the cancelled context.
    [i] is its place among the running ones. *)
Definition expireAfter (i : nat) (fired : bool) s : option memoryKV :=
  match timers s !! i with
  | None => None
  | Some (l, key) =>
      let s' := set_timers (cut_at i (timers s)) s in
      if fired then Some (deleteIfLeaseMatches key l s')
      else if bool_decide (l ∈ cancelledLeases s) then Some s' else None
  end.

Definition addSubscriber (pre : string) s : memoryKV * nat :=
  let id := S (nextSubscriberID s) in
  (MkKV (items s) ({[id]} ∪ subscribers s) (<[id := MkSubscriber pre [] [] false]> (objects s)) id
     (timers s) (cancelledLeases s) (nextLease s), id).

Definition removeSubscriber (id : nat) s : memoryKV :=
  set_subscribers (subscribers s ∖ {[id]}) (set_objects (alter cancel_watch id (objects s)) s).

(** The loop of [WatchKey] takes the queued events. *)
Definition watch_take (id : nat) s : memoryKV := set_objects (alter take_events id (objects s)) s.

Definition close s : memoryKV :=
  let leases := (λ kv, lease kv.2) <$> map_to_list (items s) in
  let objs := map_imap (λ id w, Some (if bool_decide (id ∈ subscribers s)
                                      then cancel_watch w else w)) (objects s) in
  fold_left (λ s l, cancel_lease l s) leases
    (set_subscribers ∅ (set_items ∅ (set_objects objs s))).

Definition empty_kv : memoryKV := MkKV ∅ ∅ ∅ 0 [] ∅ 0.

(** ** Runs *)

Inductive kv_op :=
| OSet (ctx : context) (key : string) (v : option bytes)
| OSetLease (ctx : context) (key : string) (v : option bytes) (ttl : Z)
| ODel (ctx : context) (key : string)
| OExpire (i : nat) (fired : bool)
| OWatch (pre : string)
| OUnwatch (id : nat)
| OTake (id : nat)
| OClose.

Definition kv_exec (o : kv_op) s : memoryKV :=
  match o with
  | OSet ctx k v => (SetKey ctx k v s).1
  | OSetLease ctx k v ttl => (SetWithLease ctx k v ttl s).1
  | ODel ctx k => (DelData ctx k s).1
  | OExpire i f => default s (expireAfter i f s)
  | OWatch pre => (addSubscriber pre s).1
  | OUnwatch id => removeSubscriber id s
  | OTake id => watch_take id s
  | OClose => close s
  end.

Definition kv_run (os : list kv_op) s : memoryKV := fold_left (λ s o, kv_exec o s) os s.

(** ** Specification *)

(** The values under a prefix. *)
Definition view (pre : string) s : gmap string (option bytes) :=
  value <$> filter (λ kv, HasPrefix kv.1 pre = true) (items s).

(** What a watcher knows who applies its events to a map. *)
Definition apply_event (m : gmap string (option bytes)) (e : WatchEvent) :=
  match ev_type e with
  | WatchTypePut => <[ev_key e := ev_value e]> m
  | WatchTypeDelete => delete (ev_key e) m
  end.

Definition events_of (w : watchSubscriber) : list WatchEvent := taken w ++ queue w.

(** The operations that leave subscriber [id] registered. *)
Definition keeps (id : nat) (o : kv_op) : Prop :=
  match o with OUnwatch id' => id' ≠ id | OClose => False | _ => True end.

(** Leases are fresh; an entry with a lease has a running timer whose context is
    live; a running timer is that of a present entry, or its context is
    cancelled. *)
Record lease_ok (its : gmap string memoryEntry) (ts : list (nat * string)) (cs : gset nat)
    (n : nat) : Prop := {
  ok_lease key e l : its !! key = Some e → lease e = Some l → (l, key) ∈ ts ∧ l ∉ cs;
  ok_live l key : (l, key) ∈ ts →
    (∃ e, its !! key = Some e ∧ lease e = Some l) ∨ l ∈ cs;
  ok_fresh l key : (l, key) ∈ ts → l < n;
  ok_cancelled l : l ∈ cs → l < n;
  ok_key l k1 k2 : (l, k1) ∈ ts → (l, k2) ∈ ts → k1 = k2;
  ok_nodup : NoDup ts
}.

Definition kv_ok s : Prop := lease_ok (items s) (timers s) (cancelledLeases s) (nextLease s).

(** ** The view of a watcher *)

Lemma kv_view_lookup pre s k :
  view pre s !! k = if HasPrefix k pre then value <$> items s !! k else None.
Proof.
  unfold view. rewrite lookup_fmap, map_lookup_filter.
  destruct (items s !! k) as [e|]; simpl; [| by case_match].
  destruct (HasPrefix k pre) eqn:E.
  - by rewrite option_guard_True.
  - by rewrite option_guard_False by congruence.
Qed.

Lemma publish_lookup key v typ s id w :
  objects s !! id = Some w →
  objects (publishWatchEventLocked key v typ s) !! id
  = Some (if bool_decide (id ∈ subscribers s) && HasPrefix key (prefix w)
          then enqueue (MkEvent key v typ) w else w).
Proof.
  intros Hw. unfold publishWatchEventLocked. simpl.
  rewrite map_lookup_imap, Hw. done.
Qed.

Lemma publish_dom key v typ s id :
  is_Some (objects (publishWatchEventLocked key v typ s) !! id) ↔ is_Some (objects s !! id).
Proof.
  unfold publishWatchEventLocked. simpl. rewrite map_lookup_imap.
  destruct (objects s !! id) eqn:E; simpl; split; try done; by intros [].
Qed.

(** The watcher's events so far, applied to [base], give its view. *)
Definition synced (id : nat) (pre : string) (base : gmap string (option bytes)) s : Prop :=
  id ∈ subscribers s ∧ id ≤ nextSubscriberID s ∧
  ∃ w, objects s !! id = Some w ∧ prefix w = pre ∧
    fold_left apply_event (events_of w) base = view pre s.

Lemma synced_change id pre base s s' key v typ :
  synced id pre base s →
  subscribers s' = subscribers s → nextSubscriberID s' = nextSubscriberID s →
  objects s' = objects (publishWatchEventLocked key v typ s) →
  (∀ k, value <$> items s' !! k
        = if decide (k = key) then match typ with WatchTypePut => Some v | WatchTypeDelete => None end
          else value <$> items s !! k) →
  synced id pre base s'.
Proof.
  intros (Hin & Hid & w & Hw & Hpre & Hfold) Hsub Hnext Hobj Hitems.
  split; [by rewrite Hsub |]. split; [by rewrite Hnext |].
  eexists. rewrite Hobj, (publish_lookup _ _ _ _ _ _ Hw). split; [done |].
  rewrite (bool_decide_true (id ∈ subscribers s)) by done. simpl. subst pre.
  destruct (HasPrefix key (prefix w)) eqn:Hk.
  - split; [done |]. unfold events_of, enqueue. simpl.
    rewrite app_assoc, fold_left_app. fold (events_of w). rewrite Hfold. simpl.
    apply map_eq. intros k. rewrite kv_view_lookup. unfold apply_event. simpl.
    specialize (Hitems k). destruct (decide (k = key)) as [-> | Hne].
    + rewrite Hk, Hitems. destruct typ; [by rewrite lookup_insert_eq | by rewrite lookup_delete_eq].
    + destruct typ; [rewrite lookup_insert_ne by done | rewrite lookup_delete_ne by done];
        rewrite kv_view_lookup, Hitems; done.
  - split; [done |]. rewrite Hfold. apply map_eq. intros k. rewrite !kv_view_lookup.
    destruct (HasPrefix k (prefix w)) eqn:Hkp; [| done].
    rewrite Hitems. rewrite decide_False; [done | congruence].
Qed.

(** Operations that publish nothing. *)
Lemma synced_same id pre base s s' :
  synced id pre base s → id ∈ subscribers s' → nextSubscriberID s ≤ nextSubscriberID s' →
  items s' = items s →
  (∀ w, objects s !! id = Some w → ∃ w', objects s' !! id = Some w' ∧ prefix w' = prefix w ∧
     events_of w' = events_of w) →
  synced id pre base s'.
Proof.
  intros (Hin & Hid & w & Hw & Hpre & Hfold) Hin' Hnext Hit Hobj.
  destruct (Hobj w Hw) as (w' & Hw' & Hp & He).
  split; [done |]. split; [lia |]. exists w'. split_and!; [done | congruence |].
  rewrite He, Hfold. apply map_eq. intros k. by rewrite !kv_view_lookup, Hit.
Qed.

Lemma cancel_lease_fields l s :
  items (cancel_lease l s) = items s ∧ subscribers (cancel_lease l s) = subscribers s ∧
  objects (cancel_lease l s) = objects s ∧
  nextSubscriberID (cancel_lease l s) = nextSubscriberID s ∧
  timers (cancel_lease l s) = timers s ∧ nextLease (cancel_lease l s) = nextLease s.
Proof. by destruct l. Qed.

Lemma setValue_synced id pre base ctx key v leased s :
  synced id pre base s → synced id pre base (setValue ctx key v leased s).1.
Proof.
  intros Hs. unfold setValue. destruct (checkContext ctx); [done |].
  destruct leased; cbv zeta; simpl fst;
  match goal with |- context [cancel_lease ?l ?x] =>
    destruct (cancel_lease_fields l x) as (H1 & H2 & H3 & H4 & H5 & H6) end;
  apply (synced_change id pre base s _ key v WatchTypePut); try done;
    cbn [set_timers items subscribers objects nextSubscriberID];
    rewrite ?H1, ?H2, ?H3, ?H4; try done; intros k; cbn;
    (case_decide; [subst k; by rewrite lookup_insert_eq | by rewrite lookup_insert_ne]).
Qed.

Lemma delete_synced id pre base key s :
  synced id pre base s → is_Some (items s !! key) →
  synced id pre base
    (publishWatchEventLocked key None WatchTypeDelete (set_items (delete key (items s)) s)).
Proof.
  intros Hs _. apply (synced_change id pre base s _ key None WatchTypeDelete); try done.
  intros k. simpl. case_decide; [subst; by rewrite lookup_delete_eq | by rewrite lookup_delete_ne].
Qed.

Lemma deleteIfLeaseMatches_synced id pre base key l s :
  synced id pre base s → synced id pre base (deleteIfLeaseMatches key l s).
Proof.
  intros Hs. unfold deleteIfLeaseMatches. destruct (items s !! key) eqn:E; [| done].
  case_bool_decide; [| done]. by apply delete_synced.
Qed.

Lemma synced_exec id pre base o s :
  synced id pre base s → keeps id o → synced id pre base (kv_exec o s).
Proof.
  intros Hs Hk. destruct o as [ctx k v|ctx k v ttl|ctx k|i f|p|id'|id'|]; simpl in *.
  - by apply setValue_synced.
  - unfold SetWithLease. case_match; [done | by apply setValue_synced].
  - unfold DelData. destruct (checkContext ctx); [done |]. simpl. unfold deleteKey.
    destruct (items s !! k) as [e|] eqn:E; [| done].
    pose proof (delete_synced id pre base k s Hs ltac:(by eexists)) as Hd.
    destruct (cancel_lease_fields (lease e) (publishWatchEventLocked k None WatchTypeDelete
      (set_items (delete k (items s)) s))) as (H1 & H2 & H3 & H4 & _).
    apply (synced_same _ _ _ _ _ Hd); rewrite ?H1, ?H2, ?H3, ?H4; [apply Hd | done | done |].
    intros w Hw. by exists w.
  - destruct (expireAfter i f s) as [s'|] eqn:E; [| done]. simpl. unfold expireAfter in E.
    destruct (timers s !! i) as [[l key]|]; [| done].
    assert (synced id pre base (set_timers (cut_at i (timers s)) s)) as Hs'.
    { apply (synced_same _ _ _ _ _ Hs); [apply Hs | done | done |]. intros w Hw. by exists w. }
    destruct f; [injection E as <-; by apply deleteIfLeaseMatches_synced |].
    case_bool_decide; [by injection E as <- | done].
  - destruct Hs as (Hin & Hid & Hw). apply (synced_same id pre base s); simpl;
      [by split | set_solver | lia | done |].
    intros w Hw'. exists w. rewrite lookup_insert_ne by lia. done.
  - apply (synced_same id pre base s); simpl; [done | | done | done |].
    + destruct Hs as (Hin & _). set_solver.
    + intros w Hw. exists w. by rewrite lookup_alter_ne.
  - apply (synced_same id pre base s); simpl; [done | apply Hs | done | done |].
    intros w Hw. destruct (decide (id' = id)) as [-> | Hne].
    + exists (take_events w). rewrite lookup_alter_eq, Hw. split; [done |].
      unfold events_of, take_events. simpl. by rewrite app_nil_r.
    + exists w. by rewrite lookup_alter_ne.
  - done.
Qed.

(** ** Leases *)

Definition cancel_set (l : option nat) (cs : gset nat) : gset nat :=
  match l with Some l => {[l]} ∪ cs | None => cs end.

Lemma cancel_lease_set l s : cancelledLeases (cancel_lease l s) = cancel_set l (cancelledLeases s).
Proof. by destruct l. Qed.

Lemma elem_of_cancel_set l o cs : l ∈ cancel_set o cs ↔ o = Some l ∨ l ∈ cs.
Proof. destruct o; simpl; set_solver. Qed.

(** Dropping an entry, with its lease cancelled. *)
Lemma lease_ok_drop its ts cs n key :
  lease_ok its ts cs n →
  lease_ok (delete key its) ts (cancel_set (its !! key ≫= lease) cs) n.
Proof.
  intros [H1 H2 H3 H4 H5 H6]. split; try done.
  - intros key' e' l [Hne He']%lookup_delete_Some Hl. destruct (H1 _ _ _ He' Hl) as [Hin Hc].
    split; [done |]. intros [Ho | ?]%elem_of_cancel_set; [| done].
    destruct (its !! key) as [e|] eqn:He; [| done]. simpl in Ho.
    destruct (H1 _ _ _ He Ho) as [Hin' _]. by apply Hne, (H5 l).
  - intros l key' Hin. rewrite elem_of_cancel_set.
    destruct (H2 _ _ Hin) as [(e & He & Hl) | ?]; [| by right; right].
    destruct (decide (key' = key)) as [-> | Hne].
    + right. left. by rewrite He.
    + left. exists e. by rewrite lookup_delete_ne.
  - intros l [Ho | ?]%elem_of_cancel_set; [| by apply H4].
    destruct (its !! key) as [e|] eqn:He; [| done]. destruct (H1 _ _ _ He Ho) as [Hin _].
    by eapply H3.
Qed.

Lemma lease_ok_insert its ts cs n key v :
  its !! key = None → lease_ok its ts cs n →
  lease_ok (<[key := MkEntry v None]> its) ts cs n ∧
  lease_ok (<[key := MkEntry v (Some n)]> its) ((n, key) :: ts) cs (S n).
Proof.
  intros Hk [H1 H2 H3 H4 H5 H6].
  assert (∀ k' e e', its !! k' = Some e → <[key := e']> its !! k' = Some e) as Hkeep.
  { intros k' e e' He. rewrite lookup_insert_ne; [done | congruence]. }
  assert (∀ k', (n, k') ∉ ts) as Hfr by (intros k' Hin; apply H3 in Hin; lia).
  split; split; try done.
  - intros k' e l [[-> <-] | [_ He]]%lookup_insert_Some Hl; [done | by eapply H1].
  - intros l k' Hin. destruct (H2 _ _ Hin) as [(e & He & Hl) | ?]; [left | by right].
    exists e. eauto.
  - intros k' e l [[-> <-] | [_ He]]%lookup_insert_Some Hl.
    + injection Hl as <-. split; [left |]. intros Hc%H4. lia.
    + destruct (H1 _ _ _ He Hl). split; [by right | done].
  - intros l k' [[= -> ->] | Hin]%elem_of_cons.
    + left. eexists. by rewrite lookup_insert_eq.
    + destruct (H2 _ _ Hin) as [(e & He & Hl) | ?]; [left | by right]. exists e. eauto.
  - intros l k' [[= -> ->] | Hin%H3]%elem_of_cons; lia.
  - intros l Hc%H4. lia.
  - intros l k1 k2 [[= -> ->] | Hin1]%elem_of_cons [[= -> ] | Hin2]%elem_of_cons; subst;
      try done; [by destruct (Hfr k2) | by destruct (Hfr k1) | by eapply H5].
  - by constructor.
Qed.

(** A timer that leaves without its entry, or with it. *)
Lemma lease_ok_cut its ts cs n i l key :
  lease_ok its ts cs n → ts !! i = Some (l, key) →
  lease_ok (if decide (its !! key ≫= lease = Some l) then delete key its else its)
    (cut_at i ts) cs n.
Proof.
  intros [H1 H2 H3 H4 H5 H6] Hi.
  assert (∀ x, x ∈ cut_at i ts ↔ x ∈ ts ∧ x ≠ (l, key)) as Hcut
    by (intros x; by apply cut_at_NoDup_elem).
  split; try done.
  - intros k' e l' He Hl.
    assert (its !! k' = Some e ∧ (l', k') ≠ (l, key)) as [He' Hne].
    { case_decide as Hd.
      - apply lookup_delete_Some in He as [Hne He]. split; [done | congruence].
      - split; [done |]. intros [= -> ->]. apply Hd. rewrite He. exact Hl. }
    destruct (H1 _ _ _ He' Hl). split; [by apply Hcut | done].
  - intros l' k' [Hin Hne]%Hcut. destruct (H2 _ _ Hin) as [(e & He & Hl) | ?]; [left | by right].
    exists e. split; [| done]. case_decide as Hd; [| done].
    apply lookup_delete_Some. split; [| done]. intros <-.
    rewrite He in Hd. simpl in Hd. congruence.
  - intros l' k' [Hin _]%Hcut. by eapply H3.
  - intros l' k1 k2 [? _]%Hcut [? _]%Hcut. by eapply H5.
  - by apply cut_at_NoDup.
Qed.

Lemma deleteIfLeaseMatches_items key l s :
  items (deleteIfLeaseMatches key l s)
  = if decide (items s !! key ≫= lease = Some l) then delete key (items s) else items s.
Proof.
  unfold deleteIfLeaseMatches. destruct (items s !! key) as [e|]; simpl.
  - destruct (bool_decide_reflect (lease e = Some l)).
    + by rewrite decide_True.
    + by rewrite decide_False.
  - done.
Qed.

Lemma deleteIfLeaseMatches_rest key l s :
  timers (deleteIfLeaseMatches key l s) = timers s ∧
  cancelledLeases (deleteIfLeaseMatches key l s) = cancelledLeases s ∧
  nextLease (deleteIfLeaseMatches key l s) = nextLease s.
Proof. unfold deleteIfLeaseMatches. by repeat case_match. Qed.

Lemma setValue_ok ctx key v leased s : kv_ok s → kv_ok (setValue ctx key v leased s).1.
Proof.
  intros Hs. unfold setValue. destruct (checkContext ctx); [done |].
  apply (lease_ok_drop _ _ _ _ key) in Hs.
  destruct (lease_ok_insert (delete key (items s)) (timers s)
    (cancel_set (items s !! key ≫= lease) (cancelledLeases s)) (nextLease s) key v)
    as [Hn Hl]; [apply lookup_delete_eq | done |].
  rewrite !insert_delete_eq in Hn, Hl. unfold kv_ok.
  destruct leased, (items s !! key ≫= lease) as [l|] eqn:E; cbn; rewrite E; cbn; done.
Qed.

Lemma deleteKey_ok key s : kv_ok s → kv_ok (deleteKey key true s).
Proof.
  intros Hs. apply (lease_ok_drop _ _ _ _ key) in Hs. unfold deleteKey, kv_ok.
  destruct (items s !! key) as [e|] eqn:E; [| by rewrite delete_id in Hs].
  simpl in Hs. destruct (lease e) as [l|]; exact Hs.
Qed.

Lemma expireAfter_ok i f s s' : kv_ok s → expireAfter i f s = Some s' → kv_ok s'.
Proof.
  intros Hs. unfold expireAfter. destruct (timers s !! i) as [[l key]|] eqn:Hi; [| done].
  pose proof (lease_ok_cut _ _ _ _ _ _ _ Hs Hi) as Hc. destruct f.
  - intros [= <-]. unfold kv_ok. rewrite deleteIfLeaseMatches_items.
    destruct (deleteIfLeaseMatches_rest key l (set_timers (cut_at i (timers s)) s))
      as (-> & -> & ->). exact Hc.
  - case_bool_decide as Hl; [| done]. intros [= <-]. unfold kv_ok. simpl.
    rewrite decide_False in Hc; [done |]. intros Ho.
    destruct (items s !! key) as [e|] eqn:E; [| done].
    by destruct (ok_lease _ _ _ _ Hs _ _ _ E Ho).
Qed.

Lemma cancel_all_fields ls s :
  let s' := fold_left (λ s l, cancel_lease l s) ls s in
  items s' = items s ∧ timers s' = timers s ∧ nextLease s' = nextLease s ∧
  ∀ l, l ∈ cancelledLeases s' ↔ Some l ∈ ls ∨ l ∈ cancelledLeases s.
Proof.
  revert s. induction ls as [|o ls IH]; intros s; simpl; [set_solver |].
  destruct (IH (cancel_lease o s)) as (-> & -> & -> & Hl).
  destruct (cancel_lease_fields o s) as (-> & _ & _ & _ & -> & ->).
  split_and!; [done.. |]. intros l. rewrite Hl, cancel_lease_set, elem_of_cancel_set.
  set_solver.
Qed.

Lemma close_ok s : kv_ok s → kv_ok (close s).
Proof.
  intros [H1 H2 H3 H4 H5 H6]. unfold close, kv_ok.
  match goal with |- lease_ok (items (fold_left _ ?ls ?s0)) _ _ _ =>
    destruct (cancel_all_fields ls s0) as (Hi & Ht & Hn & Hc) end.
  rewrite Hi, Ht, Hn. simpl in *. split; try done.
  - intros l key Hin. right. apply Hc.
    destruct (H2 _ _ Hin) as [(e & He & Hl) | ?]; [left | by right].
    apply list_elem_of_fmap. exists (key, e). split; [done |]. by apply elem_of_map_to_list.
  - intros l [Hin | ?]%Hc; [| by apply H4].
    apply list_elem_of_fmap in Hin as ([key e] & Hl & He). apply elem_of_map_to_list in He.
    simpl in Hl. destruct (H1 _ _ _ He (eq_sym Hl)). by eapply H3.
Qed.

Lemma exec_ok o s : kv_ok s → kv_ok (kv_exec o s).
Proof.
  intros Hs. destruct o as [ctx k v|ctx k v ttl|ctx k|i f|p|id|id|]; simpl; try done.
  - by apply setValue_ok.
  - unfold SetWithLease. case_match; [done | by apply setValue_ok].
  - unfold DelData. destruct (checkContext ctx); [done | by apply deleteKey_ok].
  - destruct (expireAfter i f s) as [s'|] eqn:E; [| done]. by eapply expireAfter_ok.
  - by apply close_ok.
Qed.

(** ** Properties *)

(** C6. A watcher sees the mutations of its prefix, all of them and in order:
    whatever operations follow a subscription (except closing the store or
    removing the subscriber), applying the watcher's events, taken or still
    queued, to what the prefix held when it subscribed gives what the prefix
    holds now; expiries included. *)
Theorem kv_watch_replay os pre s :
  let '(s0, id) := addSubscriber pre s in
  Forall (keeps id) os →
  ∃ w, objects (kv_run os s0) !! id = Some w ∧
    fold_left apply_event (events_of w) (view pre s) = view pre (kv_run os s0).
Proof.
  simpl. intros Hk. set (s0 := MkKV _ _ _ _ _ _ _). set (id := S (nextSubscriberID s)) in *.
  assert (synced id pre (view pre s) s0) as Hs.
  { split; [simpl; set_solver |]. split; [done |]. eexists. simpl.
    rewrite lookup_insert_eq. split; [done |]. by split. }
  clearbody s0. revert s0 Hs. induction os as [|o os IH]; intros s0 Hs.
  - destruct Hs as (_ & _ & w & Hw & Hp & Hf). by exists w.
  - apply Forall_cons in Hk as [Ho Hk]. apply (IH Hk). by apply synced_exec.
Qed.

(** Leases: in every state reached from an empty store, an entry with a lease
    has its own running timer, whose context is live; every other running timer
    is one whose context is cancelled, so no goroutine is left behind; and a
    timer that fires removes its key only if the entry still carries its lease,
    never a value that was set later. *)
Theorem kv_leases os :
  let s := kv_run os empty_kv in
  (∀ key e l, items s !! key = Some e → lease e = Some l →
     (l, key) ∈ timers s ∧ l ∉ cancelledLeases s) ∧
  (∀ l key, (l, key) ∈ timers s →
     (∃ e, items s !! key = Some e ∧ lease e = Some l) ∨ l ∈ cancelledLeases s) ∧
  (∀ i l key, timers s !! i = Some (l, key) →
     ∃ s', expireAfter i true s = Some s' ∧
       items s' = if decide (items s !! key ≫= lease = Some l)
                  then delete key (items s) else items s).
Proof.
  intros s. assert (kv_ok s) as Hs.
  { unfold s, kv_run. assert (kv_ok empty_kv) as H0.
    { split; simpl; try done; [set_solver.. | constructor]. }
    revert H0. generalize empty_kv. induction os as [|o os IH]; intros s0 H0; simpl; [done |].
    by apply IH, exec_ok. }
  split_and!; [apply Hs | apply Hs |].
  intros i l key Hi. unfold expireAfter. rewrite Hi. eexists. split; [done |].
  by rewrite deleteIfLeaseMatches_items.
Qed.

(** ** Witness *)

Lemma kv_watch_replay_witness :
  ∃ w, objects (kv_run [OSet LiveCtx "a/1" None; OSetLease LiveCtx "a/2" None 5; OSet LiveCtx "b" None;
                        OTake 1; OExpire 0 true] (addSubscriber "a/" empty_kv).1) !! 1 = Some w ∧
    fold_left apply_event (events_of w) (view "a/" empty_kv) = {["a/1" := None]}.
Proof.
  destruct (kv_watch_replay [OSet LiveCtx "a/1" None; OSetLease LiveCtx "a/2" None 5;
    OSet LiveCtx "b" None; OTake 1; OExpire 0 true] "a/" empty_kv) as (w & Hw & Hf).
  - repeat constructor.
  - exists w. split; [exact Hw |]. rewrite Hf. vm_compute. reflexivity.
Defined.
