(* ===== verification/SimMQ.v ===== *)
(** * The simulated message queue (mq/simmq)

    One [memory] per topic: a buffered channel, a [done] channel, a flag and a
    read-write lock.  Senders, closers and subscribers interleave; each atomic
    access, lock operation or channel operation is one step of its goroutine. *)

From S2P Require Import Prelude Chan.

(** ** State *)

Record message (V : Type) := MkMessage { key : string; value : V }.
Arguments MkMessage {V} key value.

Record memory (V : Type) := MkMemory {
  readers : nat;
  writer : bool;
  closed : bool;
  ch : chan (message V);
  done_closed : bool
}.
Arguments MkMemory {V} readers writer closed ch done_closed.
Arguments readers {V} m.
Arguments writer {V} m.
Arguments closed {V} m.
Arguments ch {V} m.
Arguments done_closed {V} m.

Inductive mq_err := errClosed | CtxErr | HandlerErr.

Section simmq.
Context {V : Type}.
Implicit Types (x : memory V) (msg : message V).

Definition newMemory (size : nat) : memory V := MkMemory 0 false false (make_chan size) false.

Definition set_lock (r : nat) (w : bool) x : memory V := MkMemory r w (closed x) (ch x) (done_closed x).
Definition set_ch c x : memory V := MkMemory (readers x) (writer x) (closed x) c (done_closed x).

(** ** [SendMessage] *)

Inductive send_pc :=
| SendCheck          (* before closed.Load() *)
| SendRLock          (* before lock.RLock() *)
| SendSelect         (* at the select, holding the read lock *)
| SendUnlock (r : option mq_err)
| SendReturned (r : option mq_err).

(** The case the select takes, among those that can proceed. *)
Inductive send_case := CaseCtx | CaseDone | CaseSend.

Definition send_step (c : send_case) msg (pc : send_pc) x
    : option (outcome (memory V * send_pc)) :=
  match pc with
  | SendCheck => Some (Ret (x, if closed x then SendReturned (Some errClosed) else SendRLock))
  | SendRLock => if writer x then None else Some (Ret (set_lock (S (readers x)) false x, SendSelect))
  | SendSelect =>
      match c with
      | CaseCtx => Some (Ret (x, SendUnlock (Some CtxErr)))
      | CaseDone => if done_closed x then Some (Ret (x, SendUnlock (Some errClosed))) else None
      | CaseSend =>
          match chan_send msg (ch x) with
          | None => None
          | Some r => Some (obind r (λ c, Ret (set_ch c x, SendUnlock None)))
          end
      end
  | SendUnlock r => Some (Ret (set_lock (readers x - 1) (writer x) x, SendReturned r))
  | SendReturned _ => None
  end.

(** ** [Close]; the topic's callback [fn] runs between the two channels *)

Inductive close_pc := CloseEnter | CloseDone | CloseFn | CloseLock | CloseCh | CloseReturned.

Definition close_step (pc : close_pc) x : option (outcome (memory V * close_pc)) :=
  match pc with
  | CloseEnter =>
      if closed x then Some (Ret (x, CloseReturned))
      else Some (Ret (MkMemory (readers x) (writer x) true (ch x) (done_closed x), CloseDone))
  | CloseDone =>
      if done_closed x then Some (Panic "close of closed channel")
      else Some (Ret (MkMemory (readers x) (writer x) (closed x) (ch x) true, CloseFn))
  | CloseFn => Some (Ret (x, CloseLock))
  | CloseLock =>
      if writer x || negb (readers x =? 0) then None
      else Some (Ret (set_lock (readers x) true x, CloseCh))
  | CloseCh =>
      Some (obind (chan_close (ch x)) (λ c, Ret (set_lock (readers x) false (set_ch c x), CloseReturned)))
  | CloseReturned => None
  end.

(** ** [Subscribe]: one message per call *)

Inductive recv_result := RecvMsg msg | RecvErr (e : mq_err).

Definition recv_step (by_ctx : bool) x : option (memory V * recv_result) :=
  if by_ctx then Some (x, RecvErr CtxErr)
  else match chan_recv (ch x) with
       | None => None
       | Some (Some msg, c) => Some (set_ch c x, RecvMsg msg)
       | Some (None, c) => Some (set_ch c x, RecvErr errClosed)
       end.

(** ** The system; [sent] and [received] list the messages that went in and out *)

Record sys := MkSys {
  mem : memory V;
  senders : list (message V * send_pc);
  closers : list close_pc;
  sent : list (message V);
  received : list (message V)
}.

Definition init_sys (size : nat) (msgs : list (message V)) (ncloses : nat) : sys :=
  MkSys (newMemory size) ((λ m, (m, SendCheck)) <$> msgs) (replicate ncloses CloseEnter) [] [].

(** A sender that leaves its select by the send has had its message accepted. *)
Definition accepts (pc pc' : send_pc) msg : list (message V) :=
  match pc, pc' with SendSelect, SendUnlock None => [msg] | _, _ => [] end.

Definition delivered (r : recv_result) : list (message V) :=
  match r with RecvMsg m => [m] | RecvErr _ => [] end.

Inductive sys_step (s : sys) : outcome sys → Prop :=
| step_send i c msg pc x' pc' :
    senders s !! i = Some (msg, pc) → send_step c msg pc (mem s) = Some (Ret (x', pc')) →
    sys_step s (Ret (MkSys x' (<[i := (msg, pc')]> (senders s)) (closers s)
                       (sent s ++ accepts pc pc' msg) (received s)))
| step_send_panic i c msg pc why :
    senders s !! i = Some (msg, pc) → send_step c msg pc (mem s) = Some (Panic why) →
    sys_step s (Panic why)
| step_close i pc x' pc' :
    closers s !! i = Some pc → close_step pc (mem s) = Some (Ret (x', pc')) →
    sys_step s (Ret (MkSys x' (senders s) (<[i := pc']> (closers s)) (sent s) (received s)))
| step_close_panic i pc why :
    closers s !! i = Some pc → close_step pc (mem s) = Some (Panic why) →
    sys_step s (Panic why)
| step_recv by_ctx x' r :
    recv_step by_ctx (mem s) = Some (x', r) →
    sys_step s (Ret (MkSys x' (senders s) (closers s) (sent s) (received s ++ delivered r))).

Definition reaches (s s' : sys) : Prop := rtc (λ a b, sys_step a (Ret b)) s s'.

(** ** Invariant *)

Definition holds_read (p : message V * send_pc) : nat :=
  match p.2 with SendSelect | SendUnlock _ => 1 | _ => 0 end.
Definition won (pc : close_pc) : nat :=
  match pc with CloseDone | CloseFn | CloseLock | CloseCh => 1 | _ => 0 end.
Definition before_done (pc : close_pc) : nat := match pc with CloseDone => 1 | _ => 0 end.
Definition holds_write (pc : close_pc) : nat := match pc with CloseCh => 1 | _ => 0 end.

Record inv (s : sys) : Prop := {
  inv_fifo : sent s = received s ++ buf (ch (mem s));
  inv_bound : length (buf (ch (mem s))) ≤ csize (ch (mem s));
  inv_readers : readers (mem s) = sum_list_with holds_read (senders s);
  inv_writer : sum_list_with holds_write (closers s) = if writer (mem s) then 1 else 0;
  inv_won : sum_list_with won (closers s)
            + (if cclosed (ch (mem s)) then 1 else 0) = if closed (mem s) then 1 else 0;
  inv_done : sum_list_with before_done (closers s) + (if done_closed (mem s) then 1 else 0)
             = if closed (mem s) then 1 else 0;
  inv_excl : writer (mem s) = true → readers (mem s) = 0
}.

Lemma simmq_inv_init size msgs n : inv (init_sys size msgs n).
Proof.
  assert (Hz : ∀ f : close_pc → nat, f CloseEnter = 0 →
    sum_list_with f (replicate n CloseEnter) = 0).
  { intros f Hf. induction n; simpl; lia. }
  split; simpl; rewrite ?Hz; try done; [lia |]. induction msgs; simpl; auto.
Qed.

Lemma send_inv s i c msg pc x' pc' :
  inv s → senders s !! i = Some (msg, pc) → send_step c msg pc (mem s) = Some (Ret (x', pc')) →
  inv (MkSys x' (<[i := (msg, pc')]> (senders s)) (closers s) (sent s ++ accepts pc pc' msg)
         (received s)).
Proof.
  intros [H1 H2 H3 H4 H5 H6 H7] Hl Hs.
  pose proof (sum_list_with_insert holds_read _ _ _ (msg, pc') Hl) as Hr.
  destruct pc as [| | |r|r]; simpl in Hs.
  - injection Hs as <- <-. unfold accepts. rewrite app_nil_r.
    split; simpl; try done. rewrite H3. unfold holds_read in *. destruct (closed _); simpl in *; lia.
  - destruct (writer (mem s)) eqn:Hw; [done |]. injection Hs as <- <-.
    unfold accepts. rewrite app_nil_r. split; simpl; try done.
    rewrite H3. unfold holds_read in *. simpl in *. lia.
  - destruct c.
    + injection Hs as <- <-. unfold accepts. rewrite app_nil_r. split; simpl; try done.
      rewrite H3. unfold holds_read in *. simpl in *. lia.
    + destruct (done_closed (mem s)) eqn:Hd; [| done]. injection Hs as <- <-.
      unfold accepts. rewrite app_nil_r. split; simpl; rewrite ?Hd; try done.
      rewrite H3. unfold holds_read in *. simpl in *. lia.
    + destruct (chan_send msg (ch (mem s))) as [r|] eqn:E; [| done].
      destruct (cclosed (ch (mem s))) eqn:Hcl.
      { unfold chan_send in E. rewrite Hcl in E. injection E as <-. done. }
      destruct (chan_send_open _ _ _ Hcl E) as (ch' & -> & Hb & Hcs & Hc' & Hlt).
      injection Hs as <- <-. simpl. split; simpl; rewrite ?Hc'; try done.
      * by rewrite H1, Hb, app_assoc.
      * rewrite Hb, Hcs, length_app. simpl. lia.
      * rewrite H3. unfold holds_read in *. simpl in *. lia.
  - injection Hs as <- <-. unfold accepts. rewrite app_nil_r. split; simpl; try done.
    + rewrite H3. unfold holds_read in *. simpl in *. lia.
    + intros Hw. rewrite (H7 Hw). done.
  - done.
Qed.

Lemma close_inv s i pc r :
  inv s → closers s !! i = Some pc → close_step pc (mem s) = Some r →
  ∃ x' pc', r = Ret (x', pc') ∧
    inv (MkSys x' (senders s) (<[i := pc']> (closers s)) (sent s) (received s)).
Proof.
  intros [H1 H2 H3 H4 H5 H6 H7] Hl Hs.
  pose proof (λ q, sum_list_with_insert won _ _ _ q Hl) as Hw.
  pose proof (λ q, sum_list_with_insert before_done _ _ _ q Hl) as Hd.
  pose proof (λ q, sum_list_with_insert holds_write _ _ _ q Hl) as Hh.
  pose proof (sum_list_with_ge won _ _ _ Hl) as Gw.
  pose proof (sum_list_with_ge before_done _ _ _ Hl) as Gd.
  pose proof (sum_list_with_ge holds_write _ _ _ Hl) as Gh.
  destruct pc; simpl in Hs; [| | | | |done].
  - destruct (closed (mem s)) eqn:Hc; injection Hs as <-; (do 2 eexists; split; [done |]).
    + specialize (Hw CloseReturned). specialize (Hd CloseReturned). specialize (Hh CloseReturned).
      split; simpl in *; rewrite ?Hc; try done; lia.
    + specialize (Hw CloseDone). specialize (Hd CloseDone). specialize (Hh CloseDone).
      split; simpl in *; try done; lia.
  - destruct (done_closed (mem s)) eqn:Hdc.
    { simpl in *. destruct (closed (mem s)); lia. }
    injection Hs as <-. do 2 eexists. split; [done |].
    specialize (Hw CloseFn). specialize (Hd CloseFn). specialize (Hh CloseFn).
    split; simpl in *; try done; lia.
  - injection Hs as <-. do 2 eexists. split; [done |].
    specialize (Hw CloseLock). specialize (Hd CloseLock). specialize (Hh CloseLock).
    split; simpl in *; try done; lia.
  - destruct (writer (mem s)) eqn:Hwr; [done |]. simpl in Hs.
    destruct (Nat.eqb_spec (readers (mem s)) 0) as [Hr0 |]; [| done].
    injection Hs as <-. do 2 eexists. split; [done |].
    specialize (Hw CloseCh). specialize (Hd CloseCh). specialize (Hh CloseCh).
    split; simpl in *; try done; lia.
  - unfold chan_close in Hs. destruct (cclosed (ch (mem s))) eqn:Hcl.
    { simpl in *. destruct (closed (mem s)); lia. }
    injection Hs as <-. do 2 eexists. split; [done |].
    specialize (Hw CloseReturned). specialize (Hd CloseReturned). specialize (Hh CloseReturned).
    split; simpl in *; try done; try lia. destruct (writer (mem s)); lia.
Qed.

Lemma recv_inv s by_ctx x' r :
  inv s → recv_step by_ctx (mem s) = Some (x', r) →
  inv (MkSys x' (senders s) (closers s) (sent s) (received s ++ delivered r)).
Proof.
  intros [H1 H2 H3 H4 H5 H6 H7]. unfold recv_step. destruct by_ctx.
  - intros [= <- <-]. simpl. rewrite app_nil_r. by split.
  - destruct (chan_recv (ch (mem s))) as [[[m|] c]|] eqn:E; [| |done];
      destruct (chan_recv_cases _ _ _ E) as (Hcs & Hcl & Hb); intros [= <- <-]; simpl.
    + split; simpl; rewrite ?Hcl, ?Hcs; try done.
      * by rewrite H1, Hb, <- app_assoc.
      * rewrite Hb in H2. simpl in H2. lia.
    + destruct Hb as (Hb & _ & ->). rewrite app_nil_r. by split.
Qed.

Lemma simmq_inv_reaches s s' : inv s → reaches s s' → inv s'.
Proof.
  intros Hi Hr. induction Hr as [|s1 s2 s3 Hs _ IH]; [done |]. apply IH. clear IH.
  remember (Ret s2) as o eqn:Ho. destruct Hs; simplify_eq.
  - by eapply send_inv.
  - by destruct (close_inv _ _ _ _ Hi H H0) as (? & ? & [= <- <-] & ?).
  - by eapply recv_inv.
Qed.

(** ** Properties *)

(** The queue is FIFO and bounded: in every reachable state the messages
    accepted so far, in the order of their acceptance, are the received ones
    followed by the buffered ones, and [Close] never closes a channel twice. *)
Theorem simmq_fifo size msgs n s :
  reaches (init_sys size msgs n) s →
  sent s = received s ++ buf (ch (mem s)) ∧ length (buf (ch (mem s))) ≤ csize (ch (mem s)) ∧
  ∀ i pc why, closers s !! i = Some pc → close_step pc (mem s) ≠ Some (Panic why).
Proof.
  intros Hr. pose proof (simmq_inv_reaches _ _ (simmq_inv_init size msgs n) Hr) as Hi.
  split_and!; [apply Hi | apply Hi |].
  intros i pc why Hl Hs. by destruct (close_inv _ _ _ _ Hi Hl Hs) as (? & ? & ? & _).
Qed.

(** A message sent during [Close] can crash the program: from any size and
    any message, an interleaving of one [SendMessage] and one [Close] leads to a
    send on the closed channel, since the sender may pass the [closed] test
    before [Close] starts and reach its select after [Close] has finished, where
    both the [done] case and the send can proceed. *)
Theorem simmq_send_close_panics size msg :
  ∃ s, reaches (init_sys size [msg] 1) s ∧ sys_step s (Panic "send on closed channel").
Proof.
  exists (MkSys (MkMemory 1 false true (MkChan [] size true) true)
            [(msg, SendSelect)] [CloseReturned] [] []).
  split.
  - unfold reaches, init_sys. simpl.
    eapply rtc_l; [eapply (step_send _ 0 CaseSend); reflexivity |]; simpl.
    do 5 (eapply rtc_l; [eapply (step_close _ 0); reflexivity |]; simpl).
    eapply rtc_l; [eapply (step_send _ 0 CaseSend); reflexivity |]; simpl.
    apply rtc_refl.
  - eapply (step_send_panic _ 0 CaseSend); reflexivity.
Qed.
End simmq.

(** ** Topics (mq/simmq/global.go): memories are numbered as they are made *)

Definition defaultMqSize : nat := 1024 * 16.

Record topics := MkTopics { topicMq : gmap string nat; made : nat }.

Definition getTopicMemory (topic : string) (t : topics) : topics * nat :=
  match topicMq t !! topic with
  | Some val => (t, val)
  | None => (MkTopics (<[topic := made t]> (topicMq t)) (S (made t)), made t)
  end.

(** The callback that [Close] of the topic's memory runs. *)
Definition forget_topic (topic : string) (t : topics) : topics :=
  MkTopics (delete topic (topicMq t)) (made t).

(** ** Witness: one message sent and received *)

Lemma simmq_fifo_witness :
  ∃ s : @sys nat, reaches (init_sys 1 [MkMessage "k" 7] 1) s ∧ received s = [MkMessage "k" 7] ∧
    sent s = received s ++ buf (ch (mem s)).
Proof.
  exists (MkSys (MkMemory 1 false false (MkChan [] 1 false) false)
            [(MkMessage "k" 7, SendUnlock None)] [CloseEnter] [MkMessage "k" 7] [MkMessage "k" 7]).
  assert (reaches (init_sys 1 [MkMessage "k" 7] 1)
    (MkSys (MkMemory 1 false false (MkChan [] 1 false) false)
            [(MkMessage "k" 7, SendUnlock None)] [CloseEnter] [MkMessage "k" 7] [MkMessage "k" 7]))
    as Hr.
  { unfold reaches, init_sys. simpl.
    do 3 (eapply rtc_l; [eapply (step_send _ 0 CaseSend); reflexivity |]; simpl).
    eapply rtc_l; [eapply (step_recv _ false); reflexivity |]; simpl. apply rtc_refl. }
  split; [exact Hr |]. split; [reflexivity |]. by apply (simmq_fifo 1 [MkMessage "k" 7] 1).
Defined.
