(* ===== verification/RedisMQ.v ===== *)
(** * The Redis Streams message queue (mq/redismq)

    Stream ids and their order, the watermark acknowledgement of [acker], the
    leader lease, delivery terms with [Subscribe], reclaiming, trimming and
    pruning, and the configuration.  The commands of Redis Streams are not part
    of the repository: what a command answers is an argument of the definition
    that issues it, what it is asked to do is part of the result. *)

From S2P Require Import Prelude GoStrings.
From Stdlib Require Import Strings.Ascii.

Local Open Scope Z_scope.

(** ** Stream ids (message.go) *)

(** [strings.IndexByte(id, '-')], as the split at the first dash. *)
Fixpoint split_dash (s : string) : option (string * string) :=
  match s with
  | EmptyString => None
  | String c s' =>
      if ascii_dec c "-" then Some (EmptyString, s')
      else match split_dash s' with
           | Some (a, b) => Some (String c a, b)
           | None => None
           end
  end.

Definition parseID (id : string) : Z * Z :=
  match id with
  | EmptyString => (-1, -1)
  | _ => match split_dash id with
         | None => ((ParseInt64 id).1, 0)
         | Some (ms, seq) => ((ParseInt64 ms).1, (ParseInt64 seq).1)
         end
  end.

Definition compareID (a b : string) : Z :=
  let '(am, as_) := parseID a in
  let '(bm, bs) := parseID b in
  if negb (am =? bm) then (if am <? bm then -1 else 1)
  else if negb (as_ =? bs) then (if as_ <? bs then -1 else 1)
  else 0.

(** ** Watermark acknowledgement (acker.go) *)

Record acker := MkAcker { pending : list string; watermark : string }.

Definition onDeliver (id : string) (a : acker) : acker := MkAcker (pending a ++ [id]) (watermark a).

Definition mark (id : string) (a : acker) : acker :=
  if 0 <? compareID id (watermark a) then MkAcker (pending a) id else a.

(** [for n < len(a.pending) && compareID(a.pending[n], a.watermark) <= 0]. *)
Fixpoint ack_count (ids : list string) (w : string) : nat :=
  match ids with
  | id :: ids' => if compareID id w <=? 0 then S (ack_count ids' w) else O
  | [] => O
  end.

(** [flush] up to the unlock: the ids for [XACK]; [None] when there are none. *)
Definition flush_take (a : acker) : option (acker * list string) :=
  if bool_decide (watermark a = "") || bool_decide (pending a = []) then None
  else match ack_count (pending a) (watermark a) with
       | O => None
       | n => Some (MkAcker (drop n (pending a)) (watermark a), take n (pending a))
       end.

(** [flush] after a failed [XACK]. *)
Definition flush_requeue (ackIDs : list string) (a : acker) : acker :=
  MkAcker (ackIDs ++ pending a) (watermark a).

(** The steps of one term: the reader sends an entry on the channel and then
    records it, handlers process and mark, any number of flushes overlap.  [sent]
    are the ids sent, [recorded] those given to [onDeliver], [processed] those whose
    handling is over; [inflight] are the batches between the two halves of [flush];
    [acked] are those of the batches whose [XACK] succeeded, and [served] those that the
    server has acknowledged, also when its reply was lost. *)
Record ack_state := MkAckState {
  ack : acker;
  sent : list string;
  recorded : list string;
  processed : list string;
  inflight : list (list string);
  acked : list string;
  served : list string
}.

Inductive ack_op :=
| OSend (id : string)
| ODeliver (id : string)
| OProcess (id : string)
| OMark (id : string)
| OFlush
| OAckDone (i : nat) (ok ran : bool).

Definition ack_exec (s : ack_state) (o : ack_op) : ack_state :=
  let 'MkAckState a snt rcd prc infl akd srv := s in
  match o with
  | OSend id => MkAckState a (snt ++ [id]) rcd prc infl akd srv
  | ODeliver id => MkAckState (onDeliver id a) snt (rcd ++ [id]) prc infl akd srv
  | OProcess id => MkAckState a snt rcd (prc ++ [id]) infl akd srv
  | OMark id => MkAckState (mark id a) snt rcd prc infl akd srv
  | OFlush => match flush_take a with
              | None => s
              | Some (a', ids) => MkAckState a' snt rcd prc (infl ++ [ids]) akd srv
              end
  | OAckDone i ok ran =>
      match infl !! i with
      | None => s
      | Some ids =>
          if ok then MkAckState a snt rcd prc (cut_at i infl) (akd ++ ids) (srv ++ ids)
          else MkAckState (flush_requeue ids a) snt rcd prc (cut_at i infl) akd
                 (if ran then srv ++ ids else srv)
      end
  end.

(** The contract of the reader (ids, never empty, in ascending order, each recorded after it is
    sent, and before the next one is) and of the handlers (an id is marked when
    every sent id up to it is processed). *)
Definition ack_enabled (s : ack_state) (o : ack_op) : Prop :=
  match o with
  | OSend id => id ≠ "" ∧ recorded s = sent s ∧ Forall (λ j, compareID j id = -1) (sent s)
  | ODeliver id => sent s = recorded s ++ [id]
  | OProcess id => id ∈ sent s
  | OMark id => id ∈ sent s ∧ Forall (λ j, compareID j id ≤ 0 → j ∈ processed s) (sent s)
  | OFlush => True
  | OAckDone i _ _ => (i < length (inflight s))%nat
  end.

#[export] Instance ack_enabled_dec s o : Decision (ack_enabled s o).
Proof. destruct o; unfold ack_enabled; apply _. Defined.

Definition ack_init : ack_state := MkAckState (MkAcker [] "") [] [] [] [] [] [].

Inductive ack_reach : ack_state → Prop :=
| ack_reach_init : ack_reach ack_init
| ack_reach_step s o : ack_reach s → ack_enabled s o → ack_reach (ack_exec s o).

(** The contract holds along a sequence of steps. *)
Fixpoint ack_allowed (s : ack_state) (os : list ack_op) : Prop :=
  match os with
  | [] => True
  | o :: os' => ack_enabled s o ∧ ack_allowed (ack_exec s o) os'
  end.

(** ** Configuration (redismq.go) *)

Definition Second : Z := 1000000000.
Definition Millisecond : Z := 1000000.

Record Config := MkConfig {
  StreamPrefix : string;
  MaxLen : Z;
  ReadCount : Z;
  BlockTimeout : Z;
  Buffer : Z;
  AutoCommit : Z;
  ClaimMinIdle : Z;
  ReclaimRetry : Z;
  LeaseTTL : Z;
  RenewInterval : Z;
  MaintenanceInterval : Z;
  ConsumerIdleTimeout : Z
}.

Definition or_default (v d : Z) : Z := if v <=? 0 then d else v.

Definition fillDefault (c : Config) : Config :=
  let lease := or_default (LeaseTTL c) (15 * Second) in
  MkConfig (StreamPrefix c) (MaxLen c)
    (or_default (ReadCount c) 64)
    (or_default (BlockTimeout c) (2 * Second))
    (or_default (Buffer c) 256)
    (or_default (AutoCommit c) Second)
    (or_default (ClaimMinIdle c) lease)
    (or_default (ReclaimRetry c) (500 * Millisecond))
    lease
    (or_default (RenewInterval c) (Z.quot lease 3))
    (or_default (MaintenanceInterval c) (30 * Second))
    (or_default (ConsumerIdleTimeout c) (1800 * Second)).

Inductive check_err := ErrNilClient | ErrTopicNotFound | ErrNoVersion | ErrBadVersion | ErrTooOld.

Definition streamName (c : Config) (topic : string) : string := StreamPrefix c +:+ topic.

(** [check], the version error being that of the once-only check. *)
Definition check (has_client : bool) (topicGroupID : gmap string string) (topic : string)
    (versionErr : option check_err) : option check_err :=
  if negb has_client then Some ErrNilClient
  else match topicGroupID !! topic with
       | None => Some ErrTopicNotFound
       | Some _ => versionErr
       end.

Definition minRedisMajor : Z := 6.
Definition minRedisMinor : Z := 2.

(** The loop over the lines: the first version line, or the empty string. *)
Fixpoint find_version (lines : list string) : string :=
  match lines with
  | [] => ""
  | line :: lines' => match CutPrefix "redis_version:" (TrimSpace line) with
                      | Some v => v
                      | None => find_version lines'
                      end
  end.

Definition checkVersionInfo (info : string) : option check_err :=
  match SplitN "." (find_version (Split "010" info)) 3 with
  | p0 :: p1 :: _ =>
      let '(major, ok1) := ParseInt64 p0 in
      let '(minor, ok2) := ParseInt64 p1 in
      if negb ok1 || negb ok2 then Some ErrBadVersion
      else if (major <? minRedisMajor) || ((major =? minRedisMajor) && (minor <? minRedisMinor))
      then Some ErrTooOld else None
  | _ => Some ErrNoVersion
  end.

(** ** The leader lease (consumer.go)

    The lease key holds its owner's name and expires; [now] is the server's
    clock. *)

Definition lease := option (string * Z).

Definition live_owner (now : Z) (l : lease) : option string :=
  match l with
  | Some (name, expiry) => if now <? expiry then Some name else None
  | None => None
  end.

(** [leaseScript]. *)
Definition leaseScript (now ttl : Z) (name : string) (l : lease) : lease * Z :=
  match live_owner now l with
  | None => (Some (name, now + ttl), 1)
  | Some v => if decide (v = name) then (Some (name, now + ttl), 1) else (l, 0)
  end.

(** [releaseScript]. *)
Definition releaseScript (now : Z) (name : string) (l : lease) : lease * Z :=
  match live_owner now l with
  | Some v => if decide (v = name) then (None, 1) else (l, 0)
  | None => (l, 0)
  end.

(** [tryLease]: [(held, errored)]; a failed call may or may not have run the
    script. *)
Definition tryLease (now ttl : Z) (name : string) (failed ran : bool) (l : lease)
    : lease * (bool * bool) :=
  if failed then ((if ran then (leaseScript now ttl name l).1 else l), (false, true))
  else let '(l, res) := leaseScript now ttl name l in (l, (res =? 1, false)).

(** One tick of [runLeader]: [None] steps down, [Some] is the new [lastRenew]. *)
Definition runLeader_tick (now ttl lastRenew : Z) (held errored : bool) : option Z :=
  if held then Some now
  else if errored then (if ttl <=? now - lastRenew then None else Some lastRenew)
  else None.

(** ** Delivery terms and [Subscribe] *)

(** Terms are numbered in the order they begin; [chans] holds the buffered ids of
    each, [wake] counts the wake channels that were closed and replaced. *)
Record consumer := MkConsumer {
  term : option nat;
  next_term : nat;
  wake : nat;
  chans : gmap nat (list string)
}.

Definition signalLocked (c : consumer) : consumer :=
  MkConsumer (term c) (next_term c) (S (wake c)) (chans c).

Definition beginTerm (c : consumer) : consumer * nat :=
  (signalLocked (MkConsumer (Some (next_term c)) (S (next_term c)) (wake c)
                   (<[next_term c := []]> (chans c))), next_term c).

Definition endTerm (t : nat) (c : consumer) : consumer :=
  if bool_decide (term c = Some t)
  then signalLocked (MkConsumer None (next_term c) (wake c) (chans c)) else c.

Definition currentTerm (c : consumer) : option nat * nat := (term c, wake c).

Definition isCurrentTerm (t : nat) (c : consumer) : bool := bool_decide (term c = Some t).

(** The send of [deliver]: possible when the term's channel has room. *)
Definition deliver (buffer : nat) (t : nat) (id : string) (c : consumer) : option consumer :=
  match chans c !! t with
  | Some q =>
      if decide (length q < buffer)%nat
      then Some (MkConsumer (term c) (next_term c) (wake c) (<[t := q ++ [id]]> (chans c)))
      else None
  | None => None
  end.

Inductive sub_err := CtxDone | ErrConsumerClosed.

(** Where a [Subscribe] call is: at the top of the loop, at the first or the second
    select, holding a received message, in the handler, or returned. *)
Inductive sub_pc :=
| SubLoop
| SubWait (w : nat)
| SubSelect (t w : nat)
| SubGot (t : nat) (id : string)
| SubHandler (t : nat) (id : string)
| SubReturned (e : option sub_err).

(** The case a select takes. *)
Inductive sub_case := CaseDone | CaseClosed | CaseWake | CaseMsg.

Definition subscribe_step (cs : sub_case) (pc : sub_pc) (c : consumer) : option (consumer * sub_pc) :=
  match pc with
  | SubLoop => match currentTerm c with
               | (None, w) => Some (c, SubWait w)
               | (Some t, w) => Some (c, SubSelect t w)
               end
  | SubWait w =>
      match cs with
      | CaseDone => Some (c, SubReturned (Some CtxDone))
      | CaseClosed => Some (c, SubReturned (Some ErrConsumerClosed))
      | CaseWake => if bool_decide (w = wake c) then None else Some (c, SubLoop)
      | CaseMsg => None
      end
  | SubSelect t w =>
      match cs with
      | CaseDone => Some (c, SubReturned (Some CtxDone))
      | CaseClosed => Some (c, SubReturned (Some ErrConsumerClosed))
      | CaseWake => if bool_decide (w = wake c) then None else Some (c, SubLoop)
      | CaseMsg =>
          match chans c !! t with
          | Some (id :: q) =>
              Some (MkConsumer (term c) (next_term c) (wake c) (<[t := q]> (chans c)), SubGot t id)
          | _ => None
          end
      end
  | SubGot t id => Some (c, if isCurrentTerm t c then SubHandler t id else SubLoop)
  | SubHandler _ _ | SubReturned _ => None
  end.

(** A consumer with one goroutine that calls [Subscribe] in a loop; [sends] and
    [handled] log, per term, what [deliver] sent and what was given to the handler. *)
Record sub_state := MkSubState {
  cons : consumer;
  pc : sub_pc;
  sends : list (nat * string);
  handled : list (nat * string)
}.

Definition sub_init : sub_state :=
  MkSubState (MkConsumer None 0 0 ∅) SubLoop [] [].

Inductive sub_step (buffer : nat) : sub_state → sub_state → Prop :=
| SBegin c p s h : sub_step buffer (MkSubState c p s h) (MkSubState (beginTerm c).1 p s h)
| SEnd t c p s h : sub_step buffer (MkSubState c p s h) (MkSubState (endTerm t c) p s h)
| SSend t id c c' p s h :
    deliver buffer t id c = Some c' →
    sub_step buffer (MkSubState c p s h) (MkSubState c' p (s ++ [(t, id)]) h)
| SSub cs c p c' p' s h :
    subscribe_step cs p c = Some (c', p') →
    sub_step buffer (MkSubState c p s h) (MkSubState c' p' s h)
| SHandle t id c s h :
    sub_step buffer (MkSubState c (SubHandler t id) s h)
      (MkSubState c (SubReturned None) s (h ++ [(t, id)]))
| SAgain e c s h : sub_step buffer (MkSubState c (SubReturned e) s h) (MkSubState c SubLoop s h).

(** ** Reclaiming, trimming, pruning *)

Section consumer_ops.
Context {entry : Type}.

(** The pages that successive [XAUTOCLAIM]s answer: the entries by id, and the
    next cursor; or an error. *)
Fixpoint claimScan (pages : list (option (list (string * entry) * string)))
    (claimed : gmap string entry) : gmap string entry * bool :=
  match pages with
  | [] => (claimed, false)
  | None :: _ => (claimed, false)
  | Some (entries, next) :: pages' =>
      let claimed := fold_left (λ (m : gmap string entry) '(id, e), <[id := e]> m) entries claimed in
      if bool_decide (next = "0-0") || bool_decide (next = "") then (claimed, true)
      else claimScan pages' claimed
  end.

Definition orphanedPending (self : string) (consumers : gmap string Z) : Z :=
  map_fold (λ name cnt n, if decide (name = self) then n else n + cnt) 0 consumers.

Definition id_le (a b : string * entry) : Prop := compareID a.1 b.1 ≤ 0.
#[export] Instance id_le_dec a b : Decision (id_le a b).
Proof. unfold id_le. apply _. Defined.

(** The order in which [deliverClaimed] delivers. *)
Definition deliverClaimed (claimed : gmap string entry) : list (string * entry) :=
  merge_sort id_le (map_to_list claimed).

(** One pass of [reclaimPending]: what it delivers when no entry is orphaned any
    more, else the entries claimed so far. *)
Definition reclaim_pass (self : string) (pages : list (option (list (string * entry) * string)))
    (pendingInfo : option (gmap string Z)) (claimed : gmap string entry)
    : gmap string entry + list (string * entry) :=
  let '(claimed, complete) := claimScan pages claimed in
  if complete then
    match pendingInfo with
    | Some consumers =>
        if orphanedPending self consumers =? 0 then inr (deliverClaimed claimed) else inl claimed
    | None => inl claimed
    end
  else inl claimed.
End consumer_ops.

(** The [MINID] that [trimStream] asks for, if any: [lower] is the answer of
    [XPENDING] ([None] an error). *)
Definition trimStream (lastDelivered : string) (pendingCount : Z) (lower : option string)
    : option string :=
  let ok minID := if bool_decide (minID = "") || bool_decide (minID = "0-0") then None
                  else Some minID in
  if 0 <? pendingCount then
    match lower with
    | None => None
    | Some "" => ok lastDelivered
    | Some l => ok l
    end
  else ok lastDelivered.

(** The consumers [pruneConsumers] deletes: name, pending entries, idle time. *)
Definition pruneConsumers (self : string) (idleTimeout : Z) (consumers : list (string * Z * Z))
    : list string :=
  (λ c, c.1.1) <$> filter (λ c : string * Z * Z,
    ¬ (c.1.1 = self ∨ 0 < c.1.2 ∨ c.2 < idleTimeout)) consumers.

(** * Lemmas *)

(** ** The order of stream ids: the lexicographic order of the parsed numbers *)

Definition key_lt (p q : Z * Z) : Prop := p.1 < q.1 ∨ (p.1 = q.1 ∧ p.2 < q.2).
Definition id_lt (a b : string) : Prop := key_lt (parseID a) (parseID b).

Ltac compare_ids :=
  unfold compareID, id_lt, key_lt in *;
  repeat match goal with |- context [parseID ?a] => destruct (parseID a) as [? ?] end;
  repeat match goal with H : context [parseID ?a] |- _ => destruct (parseID a) as [? ?] end;
  simpl in *;
  repeat match goal with
  | H : context [Z.eqb ?a ?b] |- _ => destruct (Z.eqb_spec a b)
  | H : context [Z.ltb ?a ?b] |- _ => destruct (Z.ltb_spec a b)
  | |- context [Z.eqb ?a ?b] => destruct (Z.eqb_spec a b)
  | |- context [Z.ltb ?a ?b] => destruct (Z.ltb_spec a b)
  end; simpl in *; try lia.

Lemma compareID_lt a b : compareID a b = -1 ↔ id_lt a b.
Proof. split; intros; compare_ids. Qed.

Lemma compareID_gt a b : 0 < compareID a b ↔ id_lt b a.
Proof. split; intros; compare_ids. Qed.

Lemma compareID_le a b : compareID a b ≤ 0 ↔ ¬ id_lt b a.
Proof. split; intros; compare_ids. Qed.

Lemma compareID_le_trans a b c : compareID a b ≤ 0 → compareID b c ≤ 0 → compareID a c ≤ 0.
Proof. intros. compare_ids. Qed.

Lemma id_lt_le_trans a b c : id_lt a b → compareID b c ≤ 0 → id_lt a c.
Proof. intros. compare_ids. Qed.

#[export] Instance id_lt_trans : Transitive id_lt.
Proof. intros a b c ??. compare_ids. Qed.

#[export] Instance id_lt_irrefl : Irreflexive id_lt.
Proof. intros a ?. compare_ids. Qed.

#[export] Instance id_le_trans {E : Type} : Transitive (id_le (entry := E)).
Proof. intros a b c. apply compareID_le_trans. Qed.

#[export] Instance id_le_total {E : Type} : Total (id_le (entry := E)).
Proof. intros a b. unfold id_le. rewrite !compareID_le. destruct a as [a x], b as [b y]. simpl.
  destruct (decide (compareID a b ≤ 0)) as [H|H].
  - left. by apply compareID_le.
  - right. assert (0 < compareID a b) by lia. apply compareID_gt in H0. intros H1.
    apply (irreflexivity id_lt a). by trans b.
Qed.

(** ** The acker *)

Notation ascending := (StronglySorted id_lt).

Lemma ascending_snoc l id : ascending l → Forall (λ j, id_lt j id) l → ascending (l ++ [id]).
Proof.
  induction 1 as [|a l Hl IH Ha]; simpl; intros Hf; [repeat constructor |].
  apply Forall_cons in Hf as [Hai Hf]. constructor; [auto |].
  apply Forall_app. split; [done |]. by apply Forall_singleton.
Qed.

Lemma ascending_snoc_inv l id : ascending (l ++ [id]) → Forall (λ j, id_lt j id) l.
Proof.
  induction l as [|a l IH]; simpl; [constructor |].
  intros [Hl Ha]%StronglySorted_inv. apply Forall_app in Ha as [_ Ha].
  constructor; [by inversion Ha | auto].
Qed.

Lemma ascending_NoDup l : ascending l → NoDup l.
Proof.
  induction 1 as [|a l Hl IH Ha]; constructor; [| done].
  intros Hin. rewrite Forall_forall in Ha. apply (irreflexivity id_lt a). by apply Ha.
Qed.

Lemma concat_cut (l : list (list string)) i x :
  l !! i = Some x → concat l ≡ₚ x ++ concat (cut_at i l).
Proof.
  intros Hi. unfold cut_at. rewrite <- (take_drop_middle l i x Hi) at 1.
  rewrite !concat_app. simpl. solve_Permutation.
Qed.

(** A batch put back at any time, then ids that ascend. *)
Definition pending_shape (w : string) (p : list string) : Prop :=
  ∃ p1 p2, p = p1 ++ p2 ∧ Forall (λ j, w ≠ "" ∧ compareID j w ≤ 0) p1 ∧ ascending p2.

Lemma ack_count_le w p1 p2 :
  Forall (λ j, compareID j w ≤ 0) p1 → ack_count (p1 ++ p2) w = (length p1 + ack_count p2 w)%nat.
Proof.
  induction 1 as [|a p1 Ha _ IH]; simpl; [done |].
  destruct (Z.leb_spec (compareID a w) 0); [by rewrite IH | lia].
Qed.

Lemma ack_count_ascending w p :
  ascending p → Forall (λ j, compareID j w ≤ 0) (take (ack_count p w) p) ∧
                Forall (λ j, id_lt w j) (drop (ack_count p w) p).
Proof.
  induction 1 as [|a p Hp IH Ha]; simpl; [by repeat constructor |].
  destruct (Z.leb_spec (compareID a w) 0); simpl.
  - destruct IH as [IH1 IH2]. split; [by constructor | done].
  - assert (Hw : id_lt w a) by (apply compareID_gt; lia).
    split; [constructor |]. constructor; [done |].
    eapply Forall_impl; [exact Ha |]. intros x Hx. by trans a.
Qed.

(** What [flush] takes and leaves of a list of that shape. *)
Lemma ack_count_shape w p :
  pending_shape w p →
  Forall (λ j, compareID j w ≤ 0) (take (ack_count p w) p) ∧
  Forall (λ j, id_lt w j) (drop (ack_count p w) p) ∧ ascending (drop (ack_count p w) p).
Proof.
  intros (p1 & p2 & -> & H1 & H2).
  assert (H1' : Forall (λ j, compareID j w ≤ 0) p1) by (eapply Forall_impl; naive_solver).
  rewrite ack_count_le by done. destruct (ack_count_ascending w p2 H2) as [Ht Hd].
  rewrite take_app_add, drop_app_add. split_and!; [by apply Forall_app | done |].
  rewrite <- (take_drop (ack_count p2 w) p2) in H2. clear -H2.
  induction (take (ack_count p2 w) p2) as [|a l IH]; [done |].
  apply IH. by apply StronglySorted_inv in H2 as [? _].
Qed.

Record ack_inv (s : ack_state) : Prop := {
  inv_recorded : recorded s = sent s ∨ ∃ id, sent s = recorded s ++ [id];
  inv_sorted : ascending (sent s);
  inv_nonempty : "" ∉ sent s;
  inv_conserved : recorded s ≡ₚ acked s ++ concat (inflight s) ++ pending (ack s);
  inv_watermark : watermark (ack s) = "" ∨ watermark (ack s) ∈ sent s;
  inv_processed : watermark (ack s) ≠ "" →
    ∀ j, j ∈ sent s → compareID j (watermark (ack s)) ≤ 0 → j ∈ processed s;
  inv_served : ∀ j, (j ∈ acked s → j ∈ served s) ∧ (j ∈ served s → j ∈ recorded s);
  inv_taken : ∀ j, j ∈ served s ++ concat (inflight s) →
    watermark (ack s) ≠ "" ∧ compareID j (watermark (ack s)) ≤ 0;
  inv_pending : pending_shape (watermark (ack s)) (pending (ack s))
}.

Lemma ack_inv_recorded_sent s j : ack_inv s → j ∈ recorded s → j ∈ sent s.
Proof.
  intros Hi Hj. destruct (inv_recorded s Hi) as [<- | [id ->]]; [done |].
  apply elem_of_app. by left.
Qed.

Lemma ack_inv_init : ack_inv ack_init.
Proof.
  split; simpl; [by left | constructor | set_solver | done | by left | done | done | set_solver |].
  exists [], []. repeat constructor.
Qed.

Lemma ack_inv_send s id : ack_inv s → ack_enabled s (OSend id) → ack_inv (ack_exec s (OSend id)).
Proof.
  intros Hi (Hne & Hr & Hf). pose proof Hi as [_ I2 In I3 I4 I5 Is I6 I7].
  destruct s as [a snt rcd prc infl akd srv]; simpl in *.
  assert (Hf' : Forall (λ j, id_lt j id) snt).
  { eapply Forall_impl; [exact Hf |]. intros j. apply compareID_lt. }
  split; simpl; [right; exists id; by rewrite Hr | by apply ascending_snoc | set_solver | done | set_solver | | done | done | done].
  intros Hw j [Hj | ->%list_elem_of_singleton]%elem_of_app Hle; [by apply I5 |].
  destruct I4 as [| I4]; [done |]. rewrite Forall_forall in Hf'.
  apply compareID_le in Hle. by destruct (Hle (Hf' _ I4)).
Qed.

Lemma ack_inv_deliver s id : ack_inv s → ack_enabled s (ODeliver id) → ack_inv (ack_exec s (ODeliver id)).
Proof.
  intros [I1 I2 In I3 I4 I5 Is I6 I7] He.
  destruct s as [a snt rcd prc infl akd srv]; simpl in *. subst snt.
  pose proof (ascending_snoc_inv _ _ I2) as Hlt.
  split; simpl; [by left | done | done | rewrite I3; solve_Permutation | done | done | set_solver | done |].
  destruct I7 as (p1 & p2 & Hp & H1 & H2). exists p1, (p2 ++ [id]). rewrite Hp, <- app_assoc.
  split_and!; [done.. |]. apply ascending_snoc; [done |].
  rewrite Forall_forall in Hlt |- *. intros j Hj. apply Hlt. rewrite I3, Hp. set_solver.
Qed.

Lemma ack_inv_mark s id : ack_inv s → ack_enabled s (OMark id) → ack_inv (ack_exec s (OMark id)).
Proof.
  intros Hi [Hin Hf]. pose proof Hi as [I1 I2 In I3 I4 I5 Is I6 I7].
  destruct s as [[p w] snt rcd prc infl akd srv]; simpl in *. unfold mark; simpl.
  destruct (Z.ltb_spec 0 (compareID id w)) as [Hlt|]; [| done].
  apply compareID_gt in Hlt.
  assert (Hid : id ≠ "" ) by (intros ->; done).
  assert (Hle : ∀ j, compareID j w ≤ 0 → compareID j id ≤ 0).
  { intros j Hj. eapply compareID_le_trans; [exact Hj |]. apply compareID_le.
    intros Hc. apply (irreflexivity id_lt w). by trans id. }
  split; simpl; [done | done | done | done | by right | | done | | ].
  - intros _ j Hj Hjle. rewrite Forall_forall in Hf. by apply Hf.
  - intros j Hj. split; [done |]. apply Hle. by apply I6.
  - destruct I7 as (p1 & p2 & -> & H1 & H2). exists p1, p2. split_and!; [done | | done].
    eapply Forall_impl; [exact H1 |]. intros j [_ Hj]. auto.
Qed.

Lemma flush_take_Some a a' ids :
  flush_take a = Some (a', ids) →
  watermark a ≠ "" ∧ watermark a' = watermark a ∧ pending a = ids ++ pending a' ∧
  ids = take (ack_count (pending a) (watermark a)) (pending a) ∧
  pending a' = drop (ack_count (pending a) (watermark a)) (pending a).
Proof.
  unfold flush_take. intros H. destruct (bool_decide_reflect (watermark a = "")); [done |].
  destruct (bool_decide_reflect (pending a = [])); [done |]. simpl in H.
  destruct (ack_count (pending a) (watermark a)) eqn:Hn; [done |]. simplify_eq. simpl watermark. simpl pending.
  by rewrite take_drop.
Qed.

Lemma flush_take_None a :
  flush_take a = None → watermark a = "" ∨ ack_count (pending a) (watermark a) = O.
Proof.
  unfold flush_take. intros H. destruct (bool_decide_reflect (watermark a = "")); [by left |].
  destruct (bool_decide_reflect (pending a = [])) as [-> |]; [by right |]. simpl in H.
  destruct (ack_count (pending a) (watermark a)); [by right | done].
Qed.

Lemma ack_inv_flush s : ack_inv s → ack_inv (ack_exec s OFlush).
Proof.
  intros Hi. pose proof Hi as [I1 I2 In I3 I4 I5 Is I6 I7].
  destruct s as [a snt rcd prc infl akd srv]; simpl in *.
  destruct (flush_take a) as [[a' ids]|] eqn:Hf; [| done].
  apply flush_take_Some in Hf as (Hw & Hw' & Hp & Hids & Hp').
  destruct (ack_count_shape _ _ I7) as (Ht & _ & Hd). rewrite <- Hids in Ht. rewrite <- Hp' in Hd.
  split; simpl; rewrite ?Hw'; [done | done | done | | done | done | done | |].
  - rewrite I3, Hp, concat_app. simpl. rewrite app_nil_r. solve_Permutation.
  - intros j. rewrite concat_app. simpl. rewrite app_nil_r, !elem_of_app.
    intros [Hj | [Hj | Hj]]; [apply I6; set_solver.. |]. rewrite Forall_forall in Ht. auto.
  - exists [], (pending a'). by split_and!.
Qed.

Lemma ack_inv_done s i ok ran : ack_inv s → ack_inv (ack_exec s (OAckDone i ok ran)).
Proof.
  intros Hi. pose proof Hi as [I1 I2 In I3 I4 I5 Is I6 I7].
  destruct s as [a snt rcd prc infl akd srv]; simpl in *.
  destruct (infl !! i) as [ids|] eqn:Hl; [| done].
  pose proof (concat_cut _ _ _ Hl) as Hc.
  assert (Hs : ∀ j, j ∈ srv ++ ids ++ concat (cut_at i infl) → j ∈ srv ++ concat infl) by (intros j; by rewrite Hc).
  assert (Hids : ∀ j, j ∈ ids → j ∈ rcd) by (intros j Hj; rewrite I3, Hc; set_solver).
  destruct ok; split; simpl; try done.
  - rewrite I3, Hc. solve_Permutation.
  - intros j. split; [rewrite !elem_of_app; naive_solver |]. intros [Hj | Hj]%elem_of_app; [by apply Is |]. auto.
  - intros j Hj. apply I6, Hs. by rewrite app_assoc.
  - rewrite I3, Hc. solve_Permutation.
  - intros j. destruct ran; [| done]. split; [rewrite elem_of_app; naive_solver |].
    intros [Hj | Hj]%elem_of_app; [by apply Is |]. auto.
  - intros j Hj. apply I6, Hs. destruct ran; set_solver.
  - destruct I7 as (p1 & p2 & Hp & H1 & H2). exists (ids ++ p1), p2. rewrite Hp, <- app_assoc.
    split_and!; [done | | done]. apply Forall_app. split; [| done].
    apply Forall_forall. intros j Hj. apply I6, Hs. set_solver.
Qed.

Lemma ack_reach_inv s : ack_reach s → ack_inv s.
Proof.
  induction 1 as [|s o Hr IH He]; [apply ack_inv_init |].
  destruct o.
  - by apply ack_inv_send.
  - by apply ack_inv_deliver.
  - destruct IH as [I1 I2 In I3 I4 I5 Is I6 I7]. destruct s; split; simpl in *; try done.
    intros. apply elem_of_app. left. auto.
  - by apply ack_inv_mark.
  - by apply ack_inv_flush.
  - by apply ack_inv_done.
Qed.

(** ** The lease *)

(** What happens to the lease, with the server's time: somebody's [tryLease] (which
    may fail, its script run or not) or release, or nothing. *)
Inductive lease_op := LTry (name : string) (failed ran : bool) | LRelease (name : string).

(** The lease afterwards, and who is told to hold it. *)
Definition lease_exec (ttl now : Z) (o : lease_op) (l : lease) : lease * option string :=
  match o with
  | LTry name failed ran =>
      let '(l', (held, _)) := tryLease now ttl name failed ran l in
      (l', if held : bool then Some name else None)
  | LRelease name => ((releaseScript now name l).1, None)
  end.

Fixpoint lease_run (ttl : Z) (evs : list (Z * lease_op)) (l : lease) : list (option string) :=
  match evs with
  | [] => []
  | (now, o) :: evs' => let '(l', r) := lease_exec ttl now o l in r :: lease_run ttl evs' l'
  end.

Lemma lease_kept ttl name evs e :
  Forall (λ '(now, o), now < e ∧ o ≠ LRelease name ∧ e ≤ now + ttl) evs →
  ∀ e', e ≤ e' →
  Forall (λ r, r = None ∨ r = Some name) (lease_run ttl evs (Some (name, e'))).
Proof.
  induction 1 as [|[now o] evs (Hn & Ho & Ht) _ IH]; simpl; intros e' He; [constructor |].
  destruct o as [n failed ran | n]; simpl.
  - unfold tryLease, leaseScript. simpl. destruct (Z.ltb_spec now e'); [| lia].
    destruct (decide (name = n)) as [<- |]; destruct failed; simpl.
    + destruct ran; simpl; (constructor; [auto | apply IH; lia]).
    + constructor; [auto | apply IH; lia].
    + destruct ran; simpl; (constructor; [auto | apply IH; lia]).
    + constructor; [auto | apply IH; lia].
  - unfold releaseScript. simpl. destruct (Z.ltb_spec now e'); [| lia].
    destruct (decide (name = n)) as [<- |]; [done |]. simpl. constructor; [auto | apply IH; lia].
Qed.

(** ** Subscribe *)

Definition of_term (t : nat) (l : list (nat * string)) : list string :=
  snd <$> filter (λ x, x.1 = t) l.

Lemma of_term_snoc t l x : of_term t (l ++ [x]) = of_term t l ++ (if decide (x.1 = t) then [x.2] else []).
Proof. unfold of_term. rewrite filter_app, fmap_app, filter_cons, filter_nil. by destruct (decide (x.1 = t)). Qed.

Definition pc_term (p : sub_pc) : option nat :=
  match p with
  | SubSelect t _ | SubGot t _ | SubHandler t _ => Some t
  | _ => None
  end.

Definition pc_ids (p : sub_pc) : list string :=
  match p with SubGot _ id | SubHandler _ id => [id] | _ => [] end.

(** A term whose messages the subscriber may still take. *)
Definition live (t : nat) (s : sub_state) : Prop := term (cons s) = Some t ∨ pc_term (pc s) = Some t.

Record sub_inv (s : sub_state) : Prop := {
  sinv_fresh : ∀ t, (next_term (cons s) ≤ t)%nat →
    ¬ live t s ∧ chans (cons s) !! t = None ∧ of_term t (sends s) = [];
  sinv_prefix : ∀ t, ∃ rest, of_term t (sends s) = of_term t (handled s) ++ rest ∧
    (live t s → rest = (if decide (pc_term (pc s) = Some t) then pc_ids (pc s) else []) ++
                       default [] (chans (cons s) !! t))
}.

Lemma sub_inv_init : sub_inv sub_init.
Proof.
  split; simpl; [intros t _; split_and!; [intros [|]; done | done..] |].
  intros t. exists []. split; [done |]. intros [|]; done.
Qed.

Lemma sub_inv_begin c p s h :
  sub_inv (MkSubState c p s h) → sub_inv (MkSubState (beginTerm c).1 p s h).
Proof.
  intros [Hf Hp]; simpl in *. split; simpl.
  - intros t Ht. destruct (Hf t ltac:(lia)) as (Hl & Hc & Hs).
    rewrite lookup_insert_ne by lia. split_and!; [| done..].
    intros [H1 | H1]; simpl in *; [simplify_eq; lia | by apply Hl; right].
  - intros t. destruct (Hp t) as (rest & Hr & Hlive). exists rest. split; [done |].
    destruct (Hf (next_term c) ltac:(lia)) as (Hl & Hc & Hs).
    destruct (decide (t = next_term c)) as [-> | Hne].
    + rewrite lookup_insert_eq. rewrite Hs in Hr. intros _.
      symmetry in Hr. apply app_eq_nil in Hr as [_ ->].
      destruct (decide (pc_term p = Some (next_term c))); [by destruct Hl; right | done].
    + rewrite lookup_insert_ne by done. intros [H1 | H1]; simpl in *; [by simplify_eq |].
      apply Hlive. by right.
Qed.

Lemma sub_inv_weaken c c' p p' s h :
  next_term c' = next_term c → chans c' = chans c →
  (∀ t, live t (MkSubState c' p' s h) → live t (MkSubState c p s h)) →
  pc_ids p' = [] ∧ pc_ids p = [] ∨ pc_ids p' = pc_ids p ∧ pc_term p' = pc_term p ∨
    (∀ t, live t (MkSubState c' p' s h) → pc_term p ≠ Some t ∧ pc_term p' ≠ Some t) →
  sub_inv (MkSubState c p s h) → sub_inv (MkSubState c' p' s h).
Proof.
  intros Hn Hc Hl Hids [Hf Hp]; simpl in *. split; simpl.
  - intros t Ht. rewrite Hn in Ht. rewrite Hc. destruct (Hf t Ht) as (? & ? & ?).
    split_and!; [| done..]. intros Hx. by apply Hl in Hx.
  - intros t. destruct (Hp t) as (rest & Hr & Hlive). exists rest. split; [done |].
    intros Hx. rewrite Hc, (Hlive (Hl _ Hx)). f_equal.
    destruct Hids as [[-> ->] | [[-> ->] | Hids]]; [by repeat case_decide | done |].
    destruct (Hids t Hx). by rewrite !decide_False.
Qed.

Lemma sub_inv_end t c p s h :
  sub_inv (MkSubState c p s h) → sub_inv (MkSubState (endTerm t c) p s h).
Proof.
  unfold endTerm. destruct (bool_decide_reflect (term c = Some t)); [| done].
  apply sub_inv_weaken; [done.. | | by right; left].
  intros t' [H1 | H1]; [done | by right].
Qed.

Lemma sub_inv_send b t id c c' p s h :
  deliver b t id c = Some c' →
  sub_inv (MkSubState c p s h) → sub_inv (MkSubState c' p (s ++ [(t, id)]) h).
Proof.
  unfold deliver. intros Hd [Hf Hp]; simpl in *.
  destruct (chans c !! t) as [q|] eqn:Hq; [| done]. destruct (decide _); [| done]. simplify_eq.
  split; simpl; intros t'.
  - intros Ht. destruct (Hf t' Ht) as (? & Hc & Hs). assert (t ≠ t') by congruence.
    rewrite lookup_insert_ne, of_term_snoc by done. simpl. rewrite decide_False by done.
    by rewrite app_nil_r.
  - destruct (Hp t') as (rest & Hr & Hlive). rewrite of_term_snoc, Hr. simpl.
    destruct (decide (t = t')) as [<- |].
    + exists (rest ++ [id]). split; [by rewrite app_assoc |]. intros Hx.
      rewrite lookup_insert_eq, (Hlive Hx), Hq. simpl. by rewrite app_assoc.
    + exists rest. rewrite app_nil_r, lookup_insert_ne by done. by split.
Qed.

Lemma sub_inv_sub cs c p c' p' s h :
  subscribe_step cs p c = Some (c', p') →
  sub_inv (MkSubState c p s h) → sub_inv (MkSubState c' p' s h).
Proof.
  intros Hs Hi.
  assert (Hret : ∀ t w e, sub_inv (MkSubState c (SubSelect t w) s h) →
    e = SubLoop ∨ (∃ r, e = SubReturned r) → sub_inv (MkSubState c e s h)).
  { intros t w e Hi' He. revert Hi'. apply sub_inv_weaken; [done.. | |].
    - intros t' [? | Ht]; [by left |]. by destruct He as [-> | [r ->]].
    - left. by destruct He as [-> | [r ->]]. }
  destruct p as [| w | t w | t id | |]; simpl in Hs; [| | | | done..].
  - destruct (term c) as [t|] eqn:Ht; simplify_eq; revert Hi; apply sub_inv_weaken; [done.. | | by left | done | done | | by left].
    + intros t' [?|]; [by left |]. simplify_eq/=. by left.
    + intros t' [|]; simplify_eq/=; by left.
  - destruct cs; repeat case_match; simplify_eq; revert Hi; apply sub_inv_weaken; try done; by left.
  - destruct cs; [simplify_eq; eauto.. | |].
    + case_match; simplify_eq; eauto.
    + destruct (chans c !! t) as [[|id q]|] eqn:Hq; simplify_eq.
      destruct Hi as [Hf Hp]; simpl in *. split; simpl; intros t'.
      * intros Ht. destruct (Hf t' Ht) as (? & ? & ?). rewrite lookup_insert_ne by congruence.
        by split_and!.
      * destruct (Hp t') as (rest & Hr & Hlive). exists rest. split; [done |]. intros Hx.
        rewrite (Hlive Hx). simpl. destruct (decide (t = t')) as [<- |].
        -- by rewrite lookup_insert_eq, Hq, !decide_True.
        -- rewrite lookup_insert_ne by done. rewrite !decide_False by congruence. done.
  - simplify_eq. unfold isCurrentTerm. destruct (bool_decide_reflect (term c' = Some t)).
    + revert Hi. apply sub_inv_weaken; [done.. | by right; left].
    + revert Hi. apply sub_inv_weaken; [done.. | |]; intros; unfold live in *; simpl in *; [naive_solver |].
      right; right. intros t' [|]; [| done]. split; [congruence | done].
Qed.

Lemma sub_step_inv b s s' : sub_step b s s' → sub_inv s → sub_inv s'.
Proof.
  intros Hs Hi. destruct Hs as [c p s h | t c p s h | t id c c' p s h Hd | cs c p c' p' s h Hs | t id c s h | e c s h].
  - by apply sub_inv_begin.
  - by apply sub_inv_end.
  - by eapply sub_inv_send.
  - by eapply sub_inv_sub.
  - destruct Hi as [Hf Hp]; simpl in *. split; simpl; intros t'.
    + intros Ht. destruct (Hf t' Ht) as (Hl & ? & ?). split_and!; [| done..].
      intros [|]; [| done]. by apply Hl; left.
    + destruct (Hp t') as (rest & Hr & Hlive). rewrite of_term_snoc. simpl.
      destruct (decide (t = t')) as [<- | Hne].
      * rewrite decide_True in Hlive by done. exists (default [] (chans c !! t)).
        rewrite Hr, (Hlive (or_intror eq_refl)). by rewrite <- app_assoc.
      * exists rest. rewrite app_nil_r. split; [done |]. intros [Hx | Hx]; [| done].
        rewrite (Hlive (or_introl Hx)), decide_False by congruence. done.
  - revert Hi. apply sub_inv_weaken; [done.. | | by left].
    intros t [|]; [by left | done].
Qed.

Lemma sub_reach_inv b s : rtc (sub_step b) sub_init s → sub_inv s.
Proof.
  apply (rtc_ind_r sub_inv); [apply sub_inv_init |].
  intros y z _ Hs. by apply sub_step_inv with b.
Qed.

(** ** Reclaiming *)

Lemma deliverClaimed_sorted {E : Type} (claimed : gmap string E) :
  StronglySorted id_le (deliverClaimed claimed).
Proof. apply Sorted_StronglySorted; [apply _ | apply (Sorted_merge_sort id_le)]. Qed.

Lemma deliverClaimed_perm {E : Type} (claimed : gmap string E) :
  deliverClaimed claimed ≡ₚ map_to_list claimed.
Proof. apply merge_sort_Permutation. Qed.

(** * Properties *)

(** C2. Watermark acknowledgement never loses a message: however the reader, the
    handlers and any number of concurrent flushes interleave, flushes that fail with
    and without having reached the server included, as long
    as the reader sends ids in ascending order and a handler marks an id only when
    every sent id up to it is processed, every id acknowledged at the server has
    been processed; each recorded id is acknowledged, in a batch under way or
    pending, exactly once; and a flush takes exactly the pending ids up to the
    watermark, although batches put back after a failure leave [pending] out of order. *)
Theorem acker_safe (s : ack_state) :
  ack_reach s →
  (∀ id, id ∈ acked s → id ∈ processed s) ∧
  (∀ id, id ∈ served s → id ∈ processed s) ∧
  NoDup (recorded s) ∧
  recorded s ≡ₚ acked s ++ concat (inflight s) ++ pending (ack s) ∧
  (watermark (ack s) ≠ "" →
   ∀ id, id ∈ pending (ack (ack_exec s OFlush)) ↔
         id ∈ pending (ack s) ∧ 0 < compareID id (watermark (ack s))).
Proof.
  intros Hi%ack_reach_inv. pose proof Hi as [I1 I2 In I3 I4 I5 Is I6 I7].
  assert (Hrec : ∀ id, id ∈ served s → id ∈ processed s).
  { intros id Hid. destruct (I6 id ltac:(set_solver)). apply I5; [done | | done].
    apply ack_inv_recorded_sent; [done |]. by apply Is. }
  split_and!; [intros id Hid; by apply Hrec, Is | done | | done |].
  - apply ascending_NoDup in I2. destruct I1 as [-> | [id Hs]]; [done |].
    rewrite Hs in I2. by apply NoDup_app in I2 as [? _].
  - intros Hw id. destruct (ack_count_shape _ _ I7) as (Ht & Hd & _).
    assert (Hx : pending (ack (ack_exec s OFlush)) =
                 drop (ack_count (pending (ack s)) (watermark (ack s))) (pending (ack s))).
    { destruct s as [a]; simpl in *. destruct (flush_take a) as [[a' ids]|] eqn:Hf; simpl.
      - by apply flush_take_Some in Hf as (_ & _ & _ & _ & ?).
      - by apply flush_take_None in Hf as [? | ->]. }
    rewrite Hx. rewrite Forall_forall in Ht, Hd. rewrite <- (take_drop (ack_count (pending (ack s)) (watermark (ack s))) (pending (ack s))) at 3.
    rewrite elem_of_app. split.
    + intros Hid. split; [by right |]. apply compareID_gt. auto.
    + intros [[Hid | Hid] Hgt]; [| done]. specialize (Ht _ Hid). lia.
Qed.

(** A run of the acker under its contract. *)
Definition ack_trace : list ack_op :=
  [OSend "1-0"; ODeliver "1-0"; OSend "1-1"; ODeliver "1-1"; OSend "2-0"; OProcess "1-0"; OProcess "1-1";
   OMark "1-1"; OFlush; OProcess "2-0"; OMark "2-0"; ODeliver "2-0"; OFlush; OAckDone 0 false false;
   OAckDone 0 false true; OFlush; OAckDone 0 true true].

Lemma ack_reach_run os :
  ∀ s, ack_reach s →
  ack_allowed s os →
  ack_reach (fold_left ack_exec os s).
Proof.
  induction os as [|o os IH]; simpl; intros s Hr; [done |].
  intros [He Hg]. apply IH; [by constructor | done].
Defined.

Lemma acker_safe_witness :
  let s := fold_left ack_exec ack_trace ack_init in
  acked s = ["2-0"; "1-0"; "1-1"] ∧ served s = ["2-0"; "2-0"; "1-0"; "1-1"] ∧
  (∀ id, id ∈ acked s → id ∈ processed s) ∧ ∀ id, id ∈ served s → id ∈ processed s.
Proof.
  split; [by vm_compute | split; [by vm_compute |]].
  destruct (acker_safe (fold_left ack_exec ack_trace ack_init)) as (Ha & Hs & _); [| exact (conj Ha Hs)].
  apply ack_reach_run; [constructor |].
  cbn -[compareID]. repeat split; try (by vm_compute); try set_solver;
    apply (bool_decide_unpack _); by vm_compute.
Defined.

(** C25. The lease is exclusive: once the script has granted it to [name] at server
    time [t0], no other name is told to hold it before [t0 + ttl], whatever attempts
    (with lost replies, whether or not their script ran), renewals and releases by
    others are interleaved, unless [name] itself releases it; and when nobody renews
    it, the first attempt after it expires gets it. *)
Theorem lease_exclusive (t0 ttl : Z) (name : string) (l l1 : lease) (evs : list (Z * lease_op)) :
  leaseScript t0 ttl name l = (l1, 1) →
  Forall (λ '(now, o), t0 ≤ now < t0 + ttl ∧ o ≠ LRelease name) evs →
  Forall (λ r, r = None ∨ r = Some name) (lease_run ttl evs l1) ∧
  (∀ other now, t0 + ttl ≤ now → (leaseScript now ttl other l1).2 = 1).
Proof.
  intros Hg Hev.
  assert (l1 = Some (name, t0 + ttl)) as ->.
  { unfold leaseScript in Hg. destruct (live_owner t0 l); [destruct (decide _) |]; by simplify_eq. }
  split.
  - apply lease_kept with (t0 + ttl); [| done].
    eapply Forall_impl; [exact Hev |]. intros [now o] [? ?]. split_and!; [lia | done | lia].
  - intros other now Hnow. unfold leaseScript, live_owner. by destruct (Z.ltb_spec now (t0 + ttl)); [lia |].
Qed.

Lemma lease_exclusive_witness :
  let evs := [(101, LTry "b" false true); (105, LTry "a" false true); (114, LTry "b" true true)] in
  Forall (λ r, r = None ∨ r = Some "a") (lease_run 15 evs (Some ("a", 115))).
Proof.
  refine (proj1 (lease_exclusive 100 15 "a" None (Some ("a", 115)) _ _ _)); [done |].
  repeat constructor; try lia; done.
Defined.

(** C24. Delivery within a leadership term: with one goroutine calling [Subscribe],
    the messages of a term given to the handler are a prefix of those the reader
    sent in that term, in order and without gaps, through any number of leadership
    changes (this is what the watermark acknowledgement needs); and no message that
    was only received goes to the handler once its term is not the current one. *)
Theorem subscribe_prefix (buffer : nat) (s : sub_state) :
  rtc (sub_step buffer) sub_init s →
  (∀ t, of_term t (handled s) `prefix_of` of_term t (sends s)) ∧
  (∀ s' t id, sub_step buffer s s' → pc s' = SubHandler t id →
     pc s = SubHandler t id ∨ term (cons s) = Some t).
Proof.
  intros Hr%sub_reach_inv. split.
  - intros t. destruct (sinv_prefix s Hr t) as (rest & -> & _). by exists rest.
  - intros s' t id Hs. destruct Hs as [| | | cs c p c' p' s h Hs | |]; simpl; intros Hpc; auto; try done.
    destruct p; simpl in Hs; [..| done | done];
      repeat case_match; simplify_eq; auto.
    unfold isCurrentTerm in *. right. by apply bool_decide_eq_true in H.
Qed.

Lemma subscribe_prefix_witness :
  ∃ s, rtc (sub_step 8) sub_init s ∧ handled s = [(0%nat, "1-0")] ∧ term (cons s) = Some 1%nat ∧
    ∀ t, of_term t (handled s) `prefix_of` of_term t (sends s).
Proof.
  eassert (Hr : rtc (sub_step 8) sub_init _).
  { eapply rtc_l; [apply SBegin |].
    eapply rtc_l; [apply (SSend 8 0 "1-0"); reflexivity |].
    eapply rtc_l; [apply (SSend 8 0 "1-1"); reflexivity |].
    eapply rtc_l; [apply (SSub 8 CaseMsg); reflexivity |].
    eapply rtc_l; [apply (SSub 8 CaseMsg); reflexivity |].
    eapply rtc_l; [apply (SSub 8 CaseMsg); reflexivity |].
    eapply rtc_l; [apply SHandle |].
    eapply rtc_l; [apply SAgain |].
    eapply rtc_l; [apply (SSub 8 CaseMsg); reflexivity |].
    eapply rtc_l; [apply SBegin |].
    eapply rtc_l; [apply (SSub 8 CaseMsg); reflexivity |].
    eapply rtc_l; [apply (SSub 8 CaseMsg); reflexivity |].
    apply rtc_refl. }
  eexists. split; [exact Hr |]. split; [by vm_compute |]. split; [by vm_compute |].
  exact (proj1 (subscribe_prefix 8 _ Hr)).
Defined.
