(* ===== verification/RedisReclaim.v ===== *)
(** * Taking over pending entries (mq/redismq/consumer.go: manage, startLeader,
    reclaimPending, readLoop)

    One leadership term of a consumer over the pending entries of its group, as the
    documentation of Redis Streams describes them: who was given an entry and when, and
    the last id given to anyone.  A command is one step; other consumers read, claim and
    acknowledge between any two.  The scan, the count and the order of delivery are those
    of RedisMQ. *)

From S2P Require Import Prelude GoStrings RedisMQ.

Local Open Scope Z_scope.

(** ** The pending entries of the group *)

Record group := MkGroup { pel : gmap string (string * Z); glast : string; gnow : Z }.

Definition id_before (a b : string) : Prop := compareID a b ≤ 0.
#[export] Instance id_before_dec a b : Decision (id_before a b).
Proof. unfold id_before. apply _. Defined.

Definition set_pel (p : gmap string (string * Z)) (g : group) : group := MkGroup p (glast g) (gnow g).

Definition add_owner (m : gmap string Z) (o : string) : gmap string Z := <[o := default 0 (m !! o) + 1]> m.

(** [XAUTOCLAIM] for a consumer with a least idle time and a count, from a cursor: the
    entries won and the next cursor; and the summary of [XPENDING]. *)
Class Streams := {
  XAutoClaim : string → Z → nat → string → group → list string * string * group;
  XPending : group → gmap string Z
}.

(** An entry is won when it is pending and idle for long enough, and belongs to the
    claimer from then on; an entry not won is left as it is, or dropped when the stream
    has it no more.  The summary counts the entries of each owner. *)
Class StreamLaws `{Streams} : Prop := {
  claim_won self m n start g id : id ∈ (XAutoClaim self m n start g).1.1 →
    ∃ o t, pel g !! id = Some (o, t) ∧ m ≤ gnow g - t;
  claim_given self m n start g id : id ∈ (XAutoClaim self m n start g).1.1 →
    pel (XAutoClaim self m n start g).2 !! id = Some (self, gnow g);
  claim_left self m n start g id : id ∉ (XAutoClaim self m n start g).1.1 →
    pel (XAutoClaim self m n start g).2 !! id = None ∨ pel (XAutoClaim self m n start g).2 !! id = pel g !! id;
  claim_clock self m n start g : gnow (XAutoClaim self m n start g).2 = gnow g;
  claim_last self m n start g : glast (XAutoClaim self m n start g).2 = glast g;
  pending_owners g : XPending g = foldr (λ e m, add_owner m e.2.1) ∅ (map_to_list (pel g))
}.

Section term.
Context `{Streams} (self : string) (ClaimMinIdle : Z) (ReadCount : nat).

(** ** A term *)

(** Before a page of the scan, before the count, waiting to retry, delivering, reading
    new entries, or over. *)
Inductive term_pc := Scan (cursor : string) | Count | Wait | Deliver (todo : list string) | Read | Stopped.

Record term_sys := MkTerm {
  gr : group;
  claimed : gmap string unit;
  delivered : list string;
  tpc : term_pc
}.

Inductive term_op :=
| CommandOk
| CommandErr
| ReplyLost
| Wake
| Send
| ReadNew (ids : list string)
| ReadLost (ids : list string)
| Stop
| Pass (d : Z)
| Acked (id : string)
| OtherRead (id owner : string)
| OtherClaim (id owner : string).

(** The ids are new to the group and in order. *)
Fixpoint new_ids (last : string) (ids : list string) : bool :=
  match ids with
  | [] => true
  | id :: ids => negb (bool_decide (id_before id last)) && new_ids id ids
  end.

Definition give (owner : string) (ids : list string) (g : group) : group :=
  MkGroup (foldr (λ id p, <[id := (owner, gnow g)]> p) (pel g) ids) (default (glast g) (last ids)) (gnow g).

(** [None] when the operation is not possible. *)
Definition term_exec (o : term_op) (s : term_sys) : option term_sys :=
  let 'MkTerm g cl dl pc := s in
  match o with
  | CommandOk =>
      match pc with
      | Scan cursor =>
          let '(won, next, g) := XAutoClaim self ClaimMinIdle ReadCount cursor g in
          let cl := fold_left (λ (m : gmap string unit) id, <[id := tt]> m) won cl in
          Some (MkTerm g cl dl (if bool_decide (next = "0-0") || bool_decide (next = "") then Count else Scan next))
      | Count =>
          if orphanedPending self (XPending g) =? 0
          then Some (MkTerm g cl dl (Deliver (deliverClaimed cl).*1))
          else Some (MkTerm g cl dl Wait)
      | _ => None
      end
  | CommandErr =>
      match pc with
      | Scan _ | Count => Some (MkTerm g cl dl Wait)
      | _ => None
      end
  | ReplyLost =>
      match pc with
      | Scan cursor => Some (MkTerm (XAutoClaim self ClaimMinIdle ReadCount cursor g).2 cl dl Wait)
      | _ => None
      end
  | Wake => match pc with Wait => Some (MkTerm g cl dl (Scan "0-0")) | _ => None end
  | Send =>
      match pc with
      | Deliver (id :: todo) => Some (MkTerm g cl (dl ++ [id]) (Deliver todo))
      | Deliver [] => Some (MkTerm g cl dl Read)
      | _ => None
      end
  | ReadNew ids =>
      match pc with
      | Read => if new_ids (glast g) ids then Some (MkTerm (give self ids g) cl dl (Deliver ids)) else None
      | _ => None
      end
  | ReadLost ids =>
      match pc with
      | Read => if new_ids (glast g) ids then Some (MkTerm (give self ids g) cl dl Read) else None
      | _ => None
      end
  | Stop => Some (MkTerm g cl dl Stopped)
  | Pass d => if 0 <=? d then Some (MkTerm (MkGroup (pel g) (glast g) (gnow g + d)) cl dl pc) else None
  | Acked id => Some (MkTerm (set_pel (delete id (pel g)) g) cl dl pc)
  | OtherRead id owner => if new_ids (glast g) [id] then Some (MkTerm (give owner [id] g) cl dl pc) else None
  | OtherClaim id owner =>
      match pel g !! id with
      | Some _ => if decide (owner = self) then None
                  else Some (MkTerm (set_pel (<[id := (owner, gnow g)]> (pel g)) g) cl dl pc)
      | None => None
      end
  end.

Definition term_run (os : list term_op) (s : term_sys) : option term_sys :=
  fold_left (λ s o, s ≫= term_exec o) os (Some s).

Definition term_init (g : group) : term_sys := MkTerm g ∅ [] (Scan "0-0").

(** The entries that the consumer was given outside of the term: before it, or by a
    reading of an earlier term that ends late. *)
Definition late (os : list term_op) : list string :=
  omap (λ o, match o with OtherRead id owner => if decide (owner = self) then Some id else None | _ => None end) os.
Definition own (g : group) (id : string) : Prop := ∃ t, pel g !! id = Some (self, t).

(** * Lemmas *)

(** ** The count of orphaned entries *)

Definition orphan_step (name : string) (cnt n : Z) : Z := if decide (name = self) then n else n + cnt.

Lemma orphaned_insert o x m : m !! o = None →
  orphanedPending self (<[o := x]> m) = orphan_step o x (orphanedPending self m).
Proof.
  intros Hm. apply (map_fold_insert_L orphan_step); [| done].
  intros. unfold orphan_step. repeat case_decide; lia.
Qed.

Lemma orphaned_add m o :
  orphanedPending self (add_owner m o) = orphanedPending self m + (if decide (o = self) then 0 else 1).
Proof.
  unfold add_owner. destruct (m !! o) as [x|] eqn:Hm; simpl.
  - rewrite <- (insert_delete_id m o x Hm) at 2. rewrite <- insert_delete_eq, !orphaned_insert by apply lookup_delete_eq.
    unfold orphan_step. case_decide; lia.
  - rewrite orphaned_insert by done. unfold orphan_step. case_decide; lia.
Qed.

Lemma orphaned_count (l : list (string * (string * Z))) :
  orphanedPending self (foldr (λ e m, add_owner m e.2.1) ∅ l) = Z.of_nat (length (filter (λ e, e.2.1 ≠ self) l)).
Proof.
  induction l as [|[id [o t]] l IH]; [done |]. cbn [foldr fst snd]. rewrite orphaned_add, IH, filter_cons.
  cbn [fst snd]. repeat case_decide; try done; simpl length; lia.
Qed.

Context `{!StreamLaws}.

Lemma orphaned_zero g :
  orphanedPending self (XPending g) = 0 ↔ ∀ id o t, pel g !! id = Some (o, t) → o = self.
Proof.
  rewrite pending_owners, orphaned_count. split.
  - intros Hl id o t Hid. destruct (decide (o = self)) as [| Hne]; [done |]. exfalso.
    assert ((id, (o, t)) ∈ filter (λ e, e.2.1 ≠ self) (map_to_list (pel g))) as Hin.
    { apply list_elem_of_filter. split; [done |]. by apply elem_of_map_to_list. }
    destruct (filter _ _); [by apply elem_of_nil in Hin | simpl in Hl; lia].
  - intros Hall. destruct (filter (λ e, e.2.1 ≠ self) (map_to_list (pel g))) as [|[id [o t]] l] eqn:Hf; [done |].
    assert ((id, (o, t)) ∈ filter (λ e, e.2.1 ≠ self) (map_to_list (pel g))) as Hin by (rewrite Hf; by left).
    apply list_elem_of_filter in Hin as [Hne Hin%elem_of_map_to_list]. by destruct (Hne (Hall id o t Hin)).
Qed.

(** ** The entries claimed *)

Lemma claimed_lookup won (cl : gmap string unit) id :
  is_Some (fold_left (λ (m : gmap string unit) id, <[id := tt]> m) won cl !! id) ↔ is_Some (cl !! id) ∨ id ∈ won.
Proof.
  revert cl. induction won as [|w won IH]; intros cl; simpl; [set_solver |].
  rewrite IH, lookup_insert_is_Some, elem_of_cons. split; [naive_solver |].
  intros [? | [-> | ?]]; [| by left; left | by right]. destruct (decide (w = id)); naive_solver.
Qed.

(** ** During the reclaiming *)

Definition reclaiming (pc : term_pc) : bool := match pc with Scan _ | Count | Wait => true | _ => false end.

(** What the consumer owns it has claimed in this term, or had from elsewhere. *)
Definition term_inv (left : string → Prop) (s : term_sys) : Prop :=
  reclaiming (tpc s) = true → ∀ id t, pel (gr s) !! id = Some (self, t) → is_Some (claimed s !! id) ∨ left id.

Lemma term_exec_inv o left s s' :
  o ≠ ReplyLost → term_exec o s = Some s' → term_inv left s → term_inv (λ id, left id ∨ id ∈ late [o]) s'.
Proof.
  destruct s as [g cl dl pc]. intros Hno He Hi Hre. simpl in *.
  assert (reclaiming pc = true → ∀ g', (∀ id t, pel g' !! id = Some (self, t) → ∃ t, pel g !! id = Some (self, t)) →
    ∀ id t, pel g' !! id = Some (self, t) → is_Some (cl !! id) ∨ left id ∨ id ∈ late [o]) as Hsub.
  { intros Hpc g' Hg id t [t' Ht]%Hg. destruct (Hi Hpc id t' Ht); auto. }
  destruct o as [| | | | | ids | ids | | d | id | id owner | id owner].
  - destruct pc as [cursor | | | |  |]; try done.
    + pose proof (claim_left self ClaimMinIdle ReadCount cursor g) as Hleft.
      destruct (XAutoClaim _ _ _ cursor g) as [[won next] g']. simpl in Hleft. injection He as <-.
      cbn [gr claimed tpc] in *. intros id t Hid. rewrite claimed_lookup.
      destruct (decide (id ∈ won)) as [| Hnw]; [by auto |].
      destruct (Hleft id Hnw) as [Hn | Hp]; [congruence |]. rewrite Hp in Hid. destruct (Hi eq_refl id t Hid); auto.
    + destruct (_ =? 0); injection He as <-; [done |]. apply (Hsub eq_refl). eauto.
  - destruct pc; try done; injection He as <-; apply (Hsub eq_refl); eauto.
  - done.
  - destruct pc; try done; injection He as <-; apply (Hsub eq_refl); eauto.
  - destruct pc as [| | | [|]| |]; try done; injection He as <-; simpl in Hre; try done.
  - destruct pc; try done. destruct (new_ids _ _); [| done]. injection He as <-. done.
  - destruct pc; try done. destruct (new_ids _ _); [| done]. injection He as <-. done.
  - by injection He as <-.
  - destruct (0 <=? d); [| done]. injection He as <-. cbn [tpc] in Hre. apply (Hsub Hre). eauto.
  - injection He as <-. cbn [tpc] in Hre. apply (Hsub Hre). intros id' t. simpl.
    intros [_ ?]%lookup_delete_Some. eauto.
  - destruct (_ && _); [| done]. injection He as <-. cbn [gr claimed tpc] in *. intros id' t. cbn [give pel foldr].
    rewrite lookup_insert_Some. intros [[-> [= -> _]] | [_ Hid]].
    + right. right. unfold late. simpl. rewrite decide_True by done. by left.
    + destruct (Hi Hre id' t Hid); auto.
  - destruct (pel g !! id); [| done]. destruct (decide (owner = self)); [done |]. injection He as <-.
    cbn [tpc] in Hre. apply (Hsub Hre). intros id' t. simpl. rewrite lookup_insert_Some.
    intros [[_ [= ? _]] | [_ ?]]; [done | eauto].
Qed.

Lemma term_run_none os : fold_left (λ s o, s ≫= term_exec o) os None = None.
Proof. induction os; simpl; auto. Qed.

Lemma term_run_cons o os s s' : term_run (o :: os) s = Some s' → ∃ s1, term_exec o s = Some s1 ∧ term_run os s1 = Some s'.
Proof.
  unfold term_run. simpl. destruct (term_exec o s) as [s1|]; [eauto |]. by rewrite term_run_none.
Qed.

Lemma term_run_inv os left s s' :
  ReplyLost ∉ os → term_run os s = Some s' → term_inv left s → term_inv (λ id, left id ∨ id ∈ late os) s'.
Proof.
  revert left s. induction os as [|o os IH]; intros left s Hno Hr Hi.
  - injection Hr as <-. intros Hre id t Ht. destruct (Hi Hre id t Ht); auto.
  - apply not_elem_of_cons in Hno as [Ho Hno]. apply term_run_cons in Hr as (s1 & He & Hr).
    pose proof (IH _ s1 Hno Hr (term_exec_inv _ _ _ _ (not_eq_sym Ho) He Hi)) as Hi'.
    intros Hre id t Ht. destruct (Hi' Hre id t Ht) as [? | [[? | Hin] | Hin]]; auto; right; right;
      unfold late in *; rewrite list_elem_of_omap in *; set_solver.
Qed.

(** Once delivery has begun the term does not go back to the scan. *)
Lemma term_exec_quiet o s s' :
  term_exec o s = Some s' → reclaiming (tpc s') = true → reclaiming (tpc s) = true ∧ delivered s' = delivered s.
Proof.
  destruct s as [g cl dl pc]. intros He Hre. simpl.
  destruct o; simpl in He; repeat case_match; simplify_eq; simpl in *; by eauto.
Qed.

Lemma term_run_quiet os s s' :
  term_run os s = Some s' → reclaiming (tpc s') = true → reclaiming (tpc s) = true ∧ delivered s' = delivered s.
Proof.
  revert s. induction os as [|o os IH]; intros s Hr Hre; [by injection Hr as <- |].
  apply term_run_cons in Hr as (s1 & He & Hr). destruct (IH s1 Hr Hre) as [H1 ->].
  by apply (term_exec_quiet o).
Qed.

Lemma claimed_elem (cl : gmap string unit) id : id ∈ (deliverClaimed cl).*1 ↔ is_Some (cl !! id).
Proof.
  rewrite deliverClaimed_perm, list_elem_of_fmap. split.
  - intros ([id' []] & -> & Hin%elem_of_map_to_list). by exists tt.
  - intros [[] Hin]. exists (id, tt). by rewrite elem_of_map_to_list.
Qed.

Lemma claimed_sorted (cl : gmap string unit) :
  StronglySorted id_before (deliverClaimed cl).*1 ∧ NoDup (deliverClaimed cl).*1.
Proof.
  split.
  - pose proof (deliverClaimed_sorted cl) as Hs. induction Hs as [|e l _ IH Hf]; simpl; constructor; [done |].
    apply Forall_fmap. by eapply Forall_impl; [exact Hf |].
  - rewrite deliverClaimed_perm. apply NoDup_fst_map_to_list.
Qed.

Lemma send_all todo g cl dl :
  term_run (replicate (S (length todo)) Send) (MkTerm g cl dl (Deliver todo)) = Some (MkTerm g cl (dl ++ todo) Read).
Proof.
  revert dl. induction todo as [|id todo IH]; intros dl; [by rewrite app_nil_r |].
  rewrite (cons_middle id dl todo), app_assoc. apply (IH (dl ++ [id])).
Qed.

(** ** An entry the scan does not win *)

Definition elapsed (os : list term_op) : Z := foldr (λ o n, match o with Pass d => d + n | _ => n end) 0 os.

Lemma term_exec_clock o s s' :
  term_exec o s = Some s' → gnow (gr s') = gnow (gr s) + elapsed [o] ∧ 0 ≤ elapsed [o].
Proof.
  destruct s as [g cl dl pc]. intros He. pose proof (claim_clock self ClaimMinIdle ReadCount) as Hc.
  destruct o; simpl in He; repeat case_match; simplify_eq; simpl in *; try lia.
  all: try match goal with Hx : XAutoClaim _ _ _ ?c ?g = _ |- _ => specialize (Hc c g); rewrite Hx in Hc end.
  all: rewrite ?Hc; simpl in *; lia.
Qed.

Lemma term_run_clock os s s' :
  term_run os s = Some s' → gnow (gr s') = gnow (gr s) + elapsed os ∧ 0 ≤ elapsed os.
Proof.
  revert s. induction os as [|o os IH]; intros s Hr; [injection Hr as <-; simpl; lia |].
  apply term_run_cons in Hr as (s1 & He%term_exec_clock & Hr). destruct (IH s1 Hr). simpl in *. case_match; lia.
Qed.

(** Given once, and at [t] or later; not claimed in this term and not among what it delivers. *)
Record left_behind (id : string) (t : Z) (s : term_sys) : Prop := {
  lb_given : id_before id (glast (gr s));
  lb_young o t' : pel (gr s) !! id = Some (o, t') → t ≤ t';
  lb_unclaimed : claimed s !! id = None;
  lb_undelivered : id ∉ delivered s;
  lb_todo todo : tpc s = Deliver todo → id ∉ todo
}.
Lemma id_before_total a b : ¬ id_before a b → id_before b a.
Proof. unfold id_before. rewrite !compareID_le. intros Hab Hba. compare_ids. Qed.

Lemma new_ids_after last ids id : new_ids last ids = true → id_before id last →
  id ∉ ids ∧ id_before id (default last (list.last ids)).
Proof.
  revert last. induction ids as [|i ids IH]; intros last Hn Hb; [split; [apply not_elem_of_nil | done] |].
  cbn [new_ids] in Hn. apply andb_true_iff in Hn as [Hi%negb_true_iff%bool_decide_eq_false Hn].
  assert (id_before id i) as Hbi by (eapply compareID_le_trans; [exact Hb | by apply id_before_total]).
  destruct (IH i Hn Hbi) as [Hnin Hlast]. split.
  - apply not_elem_of_cons. split; [by intros -> | done].
  - rewrite last_cons. destruct (list.last ids); done.
Qed.

Lemma give_lookup owner ids g id : id ∉ ids → pel (give owner ids g) !! id = pel g !! id.
Proof.
  unfold give. simpl. induction ids as [|i ids IH]; intros Hn; [done |]. apply not_elem_of_cons in Hn as [Hi Hn].
  simpl. by rewrite lookup_insert_ne, IH.
Qed.

Lemma term_exec_behind o s s' id t :
  term_exec o s = Some s' → (reclaiming (tpc s) = true → gnow (gr s) < t + ClaimMinIdle) →
  t ≤ gnow (gr s) → left_behind id t s → left_behind id t s'.
Proof.
  destruct s as [g cl dl pc]. intros He Hy Ht [H1 H2 H3 H4 H5]. simpl in *.
  assert (∀ start, reclaiming pc = true → left_behind id t (MkTerm (XAutoClaim self ClaimMinIdle ReadCount start g).2 cl dl Wait)
    ∧ id ∉ (XAutoClaim self ClaimMinIdle ReadCount start g).1.1) as Hx.
  { intros start Hre. specialize (Hy Hre).
    assert (id ∉ (XAutoClaim self ClaimMinIdle ReadCount start g).1.1) as Hnw.
    { intros (o' & t' & Hp & Hm)%claim_won. specialize (H2 _ _ Hp). lia. }
    split; [| done]. split; simpl; try done; [by rewrite claim_last |].
    intros o' t' Hp. destruct (claim_left _ _ _ _ _ _ Hnw) as [Hn | Hl]; [congruence |]. rewrite Hl in Hp. eauto. }
  destruct o as [| | | | | ids | ids | | d | i | i owner | i owner]; simpl in He.
  - destruct pc as [cursor | | | | |]; try done.
    + destruct (Hx cursor eq_refl) as [[X1 X2 X3 X4 X5] Hnw].
      destruct (XAutoClaim _ _ _ cursor g) as [[won next] g']. injection He as <-. simpl in *.
      split; simpl; try done.
      * apply eq_None_not_Some. rewrite claimed_lookup. intros [[? ?] | ?]; [congruence | done].
      * intros todo. by case_match.
    + destruct (_ =? 0); injection He as <-; split; simpl; try done.
      intros todo [= <-]. rewrite claimed_elem, H3. by intros [? ?].
  - destruct pc; try done; injection He as <-; by split.
  - destruct pc; try done. injection He as <-. by apply Hx.
  - destruct pc; try done. injection He as <-. by split.
  - destruct pc as [| | | [|i todo] | |]; try done; injection He as <-; split; simpl; try done.
    + specialize (H5 _ eq_refl). set_solver.
    + intros todo' [= <-]. specialize (H5 _ eq_refl). set_solver.
  - destruct pc; try done. destruct (new_ids _ _) eqn:Hn; [| done]. injection He as <-.
    destruct (new_ids_after _ _ _ Hn H1) as [Hnin Hlast]. split; simpl; try done.
    + intros o' t' Hp. apply (H2 o' t'). by rewrite <- (give_lookup self ids g id Hnin).
    + by intros todo [= <-].
  - destruct pc; try done. destruct (new_ids _ _) eqn:Hn; [| done]. injection He as <-.
    destruct (new_ids_after _ _ _ Hn H1) as [Hnin Hlast]. split; simpl; try done.
    intros o' t' Hp. apply (H2 o' t'). by rewrite <- (give_lookup self ids g id Hnin).
  - injection He as <-. by split.
  - destruct (0 <=? d); [| done]. injection He as <-. by split.
  - injection He as <-. split; simpl; try done. intros o' t' [_ ?]%lookup_delete_Some. eauto.
  - destruct (new_ids (glast g) [i]) eqn:Hn; simpl in Hn; rewrite Hn in He; [| done]. injection He as <-.
    destruct (new_ids_after (glast g) [i] id Hn H1) as [Hnin Hlast]. split; simpl; try done.
    intros o' t' Hp. apply (H2 o' t'). by rewrite <- (give_lookup owner [i] g id Hnin).
  - destruct (pel g !! i); [| done]. destruct (decide (owner = self)); [done |]. injection He as <-.
    split; simpl; try done. intros o' t'. rewrite lookup_insert_Some. intros [[-> [= _ <-]] | [_ ?]]; eauto.
Qed.

Lemma term_run_behind os s s' id t :
  term_run os s = Some s' →
  (reclaiming (tpc s) = true → gnow (gr s) + elapsed os < t + ClaimMinIdle) →
  t ≤ gnow (gr s) → left_behind id t s → left_behind id t s'.
Proof.
  revert s. induction os as [|o os IH]; intros s Hr Hy Ht Hb; [by injection Hr as <- |].
  apply term_run_cons in Hr as (s1 & He & Hr).
  destruct (term_exec_clock _ _ _ He) as [Hc1 Hp1]. destruct (term_run_clock _ _ _ Hr) as [Hc2 Hp2].
  assert (elapsed (o :: os) = elapsed [o] + elapsed os) as Hsum by (simpl; case_match; lia). rewrite Hsum in Hy.
  apply (IH s1 Hr); [| lia |].
  - intros Hre. apply (term_exec_quiet _ _ _ He) in Hre as [Hre _]. specialize (Hy Hre). lia.
  - apply (term_exec_behind o s s1); [done | | done | done]. intros Hre. specialize (Hy Hre). lia.
Qed.

End term.

(** ** Redis's own commands satisfy the laws *)

(** The pending ids from [start] on, in their order. *)
Definition ids_from (start : string) (p : gmap string (string * Z)) : list string :=
  filter (id_before start) (merge_sort id_before (map_to_list p).*1).

Definition idle_for (m : Z) (g : group) (id : string) : bool :=
  match pel g !! id with Some (_, t) => m <=? gnow g - t | None => false end.

#[export] Instance redis_streams : Streams := {
  XAutoClaim self m n start g :=
    let ids := ids_from start (pel g) in
    let won := filter (λ id, idle_for m g id = true) (take n ids) in
    (won, default "0-0" (ids !! n), set_pel (foldr (λ id p, <[id := (self, gnow g)]> p) (pel g) won) g);
  XPending g := foldr (λ e m, add_owner m e.2.1) ∅ (map_to_list (pel g))
}.

Lemma foldr_give_in (owner : string) (t : Z) ids (p : gmap string (string * Z)) id :
  id ∈ ids → foldr (λ id p, <[id := (owner, t)]> p) p ids !! id = Some (owner, t).
Proof.
  induction ids as [|i ids IH]; intros Hin; [by apply elem_of_nil in Hin |]. simpl.
  destruct (decide (i = id)) as [-> | Hne]; [apply lookup_insert_eq |]. rewrite lookup_insert_ne by done.
  apply elem_of_cons in Hin as [| Hin]; [congruence | auto].
Qed.

#[export] Instance redis_stream_laws : StreamLaws.
Proof.
  split; simpl; try done.
  - intros self m n start g id [Hi _]%list_elem_of_filter. unfold idle_for in Hi.
    destruct (pel g !! id) as [[o t]|]; [| done]. exists o, t. split; [done | lia].
  - intros. by apply foldr_give_in.
  - intros self m n start g id Hn. right.
    exact (give_lookup self (filter (λ id, idle_for m g id = true) (take n (ids_from start (pel g)))) g id Hn).
Qed.

(** * The theorems *)

Section claims.
Context `{StreamLaws} (self : string) (ClaimMinIdle : Z) (ReadCount : nat).
Local Abbreviation exec := (term_exec self ClaimMinIdle ReadCount).
Local Abbreviation run := (term_run self ClaimMinIdle ReadCount).

(** C7. When a term decides to deliver, whatever the others did meanwhile, provided that no
    reply to a claim of this term was lost, every entry still pending belongs to this consumer and is among those it will deliver, unless it
    had it before the term or from a reading that ended late; nothing was delivered so
    far, the entries are in the order of their ids, each once, and delivering them all
    leads to the reading of new ones. *)
Theorem reclaim_covers g os s s' l :
  ReplyLost ∉ os → run os (term_init g) = Some s → tpc s = Count →
  exec CommandOk s = Some s' → tpc s' = Deliver l →
  (∀ id o t, pel (gr s') !! id = Some (o, t) → o = self ∧ (id ∈ l ∨ own self g id ∨ id ∈ late self os)) ∧
  delivered s = [] ∧ StronglySorted id_before l ∧ NoDup l ∧
  ∃ s2, run (replicate (S (length l)) Send) s' = Some s2 ∧ tpc s2 = Read ∧ delivered s2 = l.
Proof.
  intros Hno Hr Hc He Hl.
  assert (term_inv self (λ id, own self g id ∨ id ∈ late self os) s) as Hi.
  { apply (term_run_inv self ClaimMinIdle ReadCount os (own self g) (term_init g)); [done | done |].
    intros _ id t Ht. right. by exists t. }
  destruct (term_run_quiet self ClaimMinIdle ReadCount os _ _ Hr ltac:(by rewrite Hc)) as [_ Hd].
  destruct s as [g' cl dl pc]. simpl in *. subst pc dl.
  destruct (Z.eqb_spec (orphanedPending self (XPending g')) 0) as [Hz |]; simplify_eq; simpl in *; simplify_eq.
  split; [| split; [done |]].
  - intros id o t Hid. pose proof (proj1 (orphaned_zero self g') Hz id o t Hid) as ->. split; [done |].
    rewrite claimed_elem. apply (Hi eq_refl id t Hid).
  - destruct (claimed_sorted cl). split; [done |]. split; [done |]. eexists. split; [apply send_all | done].
Qed.

(** C36. An entry that is this consumer's while a term scans, and was given to it less than
    [ClaimMinIdle] ago until the scan is over, is not claimed and does not hold the delivery
    up: the term goes on to new entries and, as long as it lasts, never delivers this one.
    So it is with the entries of an [XAUTOCLAIM] whose reply is lost, with those of an
    [XREADGROUP] whose reply is lost, and with those that a leader had when its lease lapsed
    shortly before. *)
Theorem reclaim_strands s id t os1 s1 os2 s2 :
  pel (gr s) !! id = Some (self, t) → t ≤ gnow (gr s) → id_before id (glast (gr s)) →
  claimed s !! id = None → id ∉ delivered s → (∀ todo, tpc s = Deliver todo → id ∉ todo) →
  run os1 s = Some s1 → reclaiming (tpc s1) = false →
  (reclaiming (tpc s) = true → gnow (gr s) + elapsed os1 < t + ClaimMinIdle) →
  run os2 s1 = Some s2 → id ∉ delivered s2.
Proof.
  intros Hp Ht Hb Hc Hd Hto Hr1 Hq He Hr2.
  destruct (term_run_clock _ _ _ _ _ _ Hr1) as [Hc1 Hp1].
  assert (left_behind id t s) as Hl.
  { split; try done. intros o t' Ho. rewrite Hp in Ho. by injection Ho as _ <-. }
  apply (term_run_behind self ClaimMinIdle ReadCount os1 s s1 id t Hr1) in Hl; [| done | done].
  apply (term_run_behind self ClaimMinIdle ReadCount os2 s1 s2 id t Hr2); [by rewrite Hq | lia | done].
Qed.
End claims.

Definition reclaim_group : group :=
  MkGroup (<["1-0" := ("old", 0)]> (<["2-0" := ("old", 40)]> ∅)) "2-0" 60.
Definition reclaim_ops : list term_op := [CommandOk; CommandOk; Pass 100; Wake; CommandOk].

Lemma reclaim_covers_witness :
  ∃ s s', term_run "me" 50 10 reclaim_ops (term_init reclaim_group) = Some s ∧
    term_exec "me" 50 10 CommandOk s = Some s' ∧ tpc s' = Deliver ["1-0"; "2-0"] ∧
    (∀ id o t, pel (gr s') !! id = Some (o, t) →
       o = "me" ∧ (id ∈ ["1-0"; "2-0"] ∨ own "me" reclaim_group id ∨ id ∈ late "me" reclaim_ops)).
Proof.
  eexists _, _. split; [vm_compute; reflexivity |]. split; [vm_compute; reflexivity |].
  split; [reflexivity |].
  apply (reclaim_covers "me" 50 10 reclaim_group reclaim_ops
    (default (term_init reclaim_group) (term_run "me" 50 10 reclaim_ops (term_init reclaim_group)))).
  - set_solver.
  - by vm_compute.
  - by vm_compute.
  - by vm_compute.
  - by vm_compute.
Defined.

Definition lost_ops : list term_op := [Wake; CommandOk; CommandOk].
Definition later_ops : list term_op := [Send; ReadNew ["3-0"]; Send; Send; Pass 1000; ReadNew ["4-0"]; Send].

Definition lost_state : term_sys :=
  default (term_init reclaim_group)
    (term_run "me" 50 10 [ReplyLost] (term_init (MkGroup (<["1-0" := ("old", 0)]> ∅) "2-0" 60))).

(** The reply of the first claim is lost; from then on "1-0" is this consumer's. *)
Lemma reclaim_strands_witness :
  ∃ s s1 s2, term_run "me" 50 10 [ReplyLost] (term_init (MkGroup (<["1-0" := ("old", 0)]> ∅) "2-0" 60)) = Some s ∧
    term_run "me" 50 10 lost_ops s = Some s1 ∧ term_run "me" 50 10 later_ops s1 = Some s2 ∧
    pel (gr s2) !! "1-0" = Some ("me", 60) ∧ delivered s2 = ["3-0"; "4-0"] ∧ "1-0" ∉ delivered s2.
Proof.
  eexists _, _, _. do 5 (split; [vm_compute; reflexivity |]).
  eapply (reclaim_strands "me" 50 10 lost_state "1-0" 60 lost_ops _ later_ops).
  - by vm_compute.
  - by vm_compute.
  - by vm_compute.
  - by vm_compute.
  - set_solver.
  - by intros todo Htodo; vm_compute in Htodo.
  - vm_compute; reflexivity.
  - by vm_compute.
  - by intros _; vm_compute.
  - vm_compute; reflexivity.
Defined.
