(* ===== verification/RedisLeader.v ===== *)
(** * Leadership of a Redis stream (mq/redismq/consumer.go: manage, runLeader,
    startLeader, Close)

    Instances that compete for the lease of one stream and group.  Each has the goroutine
    of its manager, three goroutines per term that it began, one goroutine that calls
    Subscribe in a loop, any number of calls of [Mark] and [Commit] on the messages that
    the handler was given, and at most one call of Close.  The lease, the terms, Subscribe
    and the acker are those of RedisMQ; here they are driven by the code that decides when
    a term begins and ends.  Names of instances are different, as their random part makes
    them. *)

From S2P Require Import Prelude GoStrings RedisMQ.

Local Open Scope Z_scope.

(** ** An instance *)

(** A term; the terms of an instance are numbered in their order.  [stopped]: its context
    was cancelled by the end of [runLeader].  The others tell which of its goroutines run:
    the one that reclaims and reads, the one that acknowledges, the one that trims. *)
Record goroutines := MkGoroutines { stopped : bool; reader : bool; committer : bool; maintainer : bool }.

Definition started : goroutines := MkGoroutines false true true true.

(** What a term acknowledges.  [own] is its acker; [sending] the entry that its reader sent
    and did not record yet; [ticking] the ids of the [XACK] that [autoCommitLoop] waits
    for, and [lastFlush] whether its flush after the end of the context has begun;
    [commits] the ids of the [XACK]s of calls of [message.Commit]; [marked] the ids given
    to [message.Mark]; [acked] those that the server acknowledged. *)
Record term_ack := MkTermAck {
  own : acker;
  sending : option string;
  ticking : option (list string);
  lastFlush : bool;
  commits : list (list string);
  marked : list string;
  acked : list string
}.

Definition new_ack : term_ack := MkTermAck (MkAcker [] "") None None false [] [] [].

(** The manager: at the head of [manage]'s loop, in [tryLease] before and after the
    script ran, in [sleepRenew], in [runLeader] waiting for a tick or renewing, returned. *)
Inductive manager_pc :=
| MTop
| MTry
| MTried (held errored : bool)
| MSleep
| MLead (t : nat) (lastRenew : Z)
| MRenew (t : nat) (lastRenew : Z)
| MRenewed (t : nat) (lastRenew : Z) (held errored : bool)
| MExit.

(** Close: not called, in [wg.Wait], releasing the lease, returned. *)
Inductive close_pc := CloseNot | CloseWait | CloseRelease | CloseDone.

(** [granted] is when the lease script last gave this instance the lease, by the clock of
    the server, and [answered] when the manager last began a term or went on with it. *)
Record instance := MkInstance {
  manager : manager_pc;
  closeCtx : bool;
  cons : consumer;
  terms : list goroutines;
  wg : Z;
  closing : close_pc;
  sub : sub_pc;
  handled : list (nat * string);
  granted : option Z;
  answered : Z;
  acks : list term_ack
}.

Definition set_manager (m : manager_pc) (x : instance) : instance :=
  MkInstance m (closeCtx x) (cons x) (terms x) (wg x) (closing x) (sub x) (handled x) (granted x) (answered x) (acks x).
Definition set_cons (c : consumer) (x : instance) : instance :=
  MkInstance (manager x) (closeCtx x) c (terms x) (wg x) (closing x) (sub x) (handled x) (granted x) (answered x) (acks x).
Definition set_terms (ts : list goroutines) (x : instance) : instance :=
  MkInstance (manager x) (closeCtx x) (cons x) ts (wg x) (closing x) (sub x) (handled x) (granted x) (answered x) (acks x).
Definition add_wg (d : Z) (x : instance) : instance :=
  MkInstance (manager x) (closeCtx x) (cons x) (terms x) (wg x + d) (closing x) (sub x) (handled x) (granted x) (answered x) (acks x).
Definition set_closing (p : close_pc) (x : instance) : instance :=
  MkInstance (manager x) (closeCtx x) (cons x) (terms x) (wg x) p (sub x) (handled x) (granted x) (answered x) (acks x).
Definition set_closed (x : instance) : instance :=
  MkInstance (manager x) true (cons x) (terms x) (wg x) (closing x) (sub x) (handled x) (granted x) (answered x) (acks x).
Definition set_sub (p : sub_pc) (h : list (nat * string)) (x : instance) : instance :=
  MkInstance (manager x) (closeCtx x) (cons x) (terms x) (wg x) (closing x) p h (granted x) (answered x) (acks x).
Definition set_granted (g : option Z) (x : instance) : instance :=
  MkInstance (manager x) (closeCtx x) (cons x) (terms x) (wg x) (closing x) (sub x) (handled x) g (answered x) (acks x).
Definition set_answered (a : Z) (x : instance) : instance :=
  MkInstance (manager x) (closeCtx x) (cons x) (terms x) (wg x) (closing x) (sub x) (handled x) (granted x) a (acks x).
Definition set_acks (l : list term_ack) (x : instance) : instance :=
  MkInstance (manager x) (closeCtx x) (cons x) (terms x) (wg x) (closing x) (sub x) (handled x) (granted x) (answered x) l.
Definition set_ack (t : nat) (a : term_ack) (x : instance) : instance := set_acks (<[t := a]> (acks x)) x.

(** The goroutine of the manager is started, [wg.Add(1)]. *)
Definition NewConsumer : instance :=
  MkInstance MTop false (MkConsumer None 0 0 ∅) [] 1 CloseNot SubLoop [] None 0 [].

(** The context of a term: derived from [closeCtx]. *)
Definition term_done (x : instance) (g : goroutines) : bool := closeCtx x || stopped g.

(** ** Acknowledgement *)

Definition set_own (k : acker) (a : term_ack) : term_ack :=
  MkTermAck k (sending a) (ticking a) (lastFlush a) (commits a) (marked a) (acked a).

(** The send on the channel, and [onDeliver] after it. *)
Definition sent (id : string) (a : term_ack) : term_ack :=
  MkTermAck (own a) (Some id) (ticking a) (lastFlush a) (commits a) (marked a) (acked a).
Definition recorded (id : string) (a : term_ack) : term_ack :=
  MkTermAck (onDeliver id (own a)) None (ticking a) (lastFlush a) (commits a) (marked a) (acked a).

Definition Mark (id : string) (a : term_ack) : term_ack :=
  MkTermAck (mark id (own a)) (sending a) (ticking a) (lastFlush a) (commits a) (marked a ++ [id]) (acked a).

(** [flush] up to the unlock, by [message.Commit] and by [autoCommitLoop]. *)
Definition Commit (a : term_ack) : term_ack :=
  match flush_take (own a) with
  | Some (k, ids) => MkTermAck k (sending a) (ticking a) (lastFlush a) (commits a ++ [ids]) (marked a) (acked a)
  | None => a
  end.
Definition tick_flush (final : bool) (a : term_ack) : term_ack :=
  match flush_take (own a) with
  | Some (k, ids) => MkTermAck k (sending a) (Some ids) final (commits a) (marked a) (acked a)
  | None => MkTermAck (own a) (sending a) None final (commits a) (marked a) (acked a)
  end.

(** The [XACK] of [ids]: [failed] is what the client is told, [ran] whether the server
    applied it although the client is told that it failed. *)
Definition xack (ids : list string) (failed ran : bool) (a : term_ack) : term_ack :=
  MkTermAck (if failed : bool then flush_requeue ids (own a) else own a) (sending a) (ticking a)
    (lastFlush a) (commits a) (marked a) (acked a ++ if ran || negb failed then ids else []).
Definition set_ticking (l : option (list string)) (a : term_ack) : term_ack :=
  MkTermAck (own a) (sending a) l (lastFlush a) (commits a) (marked a) (acked a).
Definition set_commits (l : list (list string)) (a : term_ack) : term_ack :=
  MkTermAck (own a) (sending a) (ticking a) (lastFlush a) l (marked a) (acked a).

(** The handler of the instance was given the message. *)
Definition got (x : instance) (t : nat) (id : string) : Prop :=
  (t, id) ∈ handled x ∨ sub x = SubHandler t id.
#[export] Instance got_dec x t id : Decision (got x t id).
Proof.
  unfold got. destruct (decide ((t, id) ∈ handled x)); [by left; left |].
  destruct (sub x) as [| | | |u j|] eqn:Hs; try (right; naive_solver).
  destruct (decide (u = t ∧ j = id)) as [[-> ->] |]; [by left; right | right; naive_solver].
Defined.

(** ** Terms *)

(** [startLeader] and what [runLeader] does before its loop. *)
Definition startLeader (now : Z) (x : instance) : instance :=
  let '(c, t) := beginTerm (cons x) in
  set_manager (MLead t now) (set_answered now (add_wg 3 (set_terms (terms x ++ [started])
    (set_acks (acks x ++ [new_ack]) (set_cons c x))))).

(** The return of [runLeader]: the deferred [cancel], and [manage]'s [continue]. *)
Definition stop_term (g : goroutines) : goroutines := MkGoroutines true (reader g) (committer g) (maintainer g).
Definition leave_term (t : nat) (x : instance) : instance :=
  set_manager MTop (set_terms (alter stop_term t (terms x)) x).

Section system.
Context (LeaseTTL : Z) (Buffer : nat).

Record sys := MkSys { now : Z; key : lease; insts : gmap string instance }.

Definition set_inst (n : string) (x : instance) (s : sys) : sys := MkSys (now s) (key s) (<[n := x]> (insts s)).
Definition set_key (l : lease) (s : sys) : sys := MkSys (now s) l (insts s).

(** The reply to an attempt, and the lease after it. *)
Definition attempt (n : string) (failed ran : bool) (s : sys) (x : instance) : sys * instance * (bool * bool) :=
  let '(l, r) := tryLease (now s) LeaseTTL n failed ran (key s) in
  let won := (ran || negb failed) && ((leaseScript (now s) LeaseTTL n (key s)).2 =? 1) in
  (set_key l s, if won then set_granted (Some (now s)) x else x, r).

(** ** The steps *)

Inductive leader_op :=
| OManage
| OScript (failed ran : bool)
| OReply
| OTick
| OClosed
| OSend (t : nat) (id : string)
| ORecord (t : nat)
| OMark (t : nat) (id : string)
| OCommit (t : nat) (id : string)
| OCommitAcked (t i : nat) (failed ran : bool)
| OTickFlush (t : nat)
| OLastFlush (t : nat)
| OTickAcked (t : nat) (failed ran : bool)
| OReaderEnd (t : nat)
| OCommitEnd (t : nat)
| OMaintainEnd (t : nat)
| OSub (c : sub_case)
| OHandle
| OAgain
| OCancel
| OClose
| OWaited
| ORelease (failed ran : bool).

(** The manager: [manage], [runLeader] and [sleepRenew]. *)
Definition manager_step (n : string) (o : leader_op) (s : sys) (x : instance) : option sys :=
  match o, manager x with
  | OManage, MTop =>
      Some (set_inst n (if closeCtx x then add_wg (-1) (set_manager MExit x) else set_manager MTry x) s)
  | OScript failed ran, MTry =>
      let '(s, x, (held, errored)) := attempt n failed ran s x in
      Some (set_inst n (set_manager (MTried held errored) x) s)
  | OReply, MTried held _ =>
      Some (set_inst n (if held then startLeader (now s) x else set_manager MSleep x) s)
  | OTick, MSleep => Some (set_inst n (set_manager MTop x) s)
  | OClosed, MSleep =>
      if closeCtx x then Some (set_inst n (add_wg (-1) (set_manager MExit x)) s) else None
  | OTick, MLead t lastRenew => Some (set_inst n (set_manager (MRenew t lastRenew) x) s)
  | OClosed, MLead t _ => if closeCtx x then Some (set_inst n (leave_term t x) s) else None
  | OScript failed ran, MRenew t lastRenew =>
      let '(s, x, (held, errored)) := attempt n failed ran s x in
      Some (set_inst n (set_manager (MRenewed t lastRenew held errored) x) s)
  | OReply, MRenewed t lastRenew held errored =>
      Some (set_inst n
        match runLeader_tick (now s) LeaseTTL lastRenew held errored with
        | Some lastRenew => set_manager (MLead t lastRenew) (set_answered (now s) x)
        | None => leave_term t x
        end s)
  | _, _ => None
  end.

(** The goroutines of the terms.  The reader sends and records one entry after the other;
    [autoCommitLoop] flushes at its ticks, waiting for each [XACK], and once more when the
    context is done; each of the three ends only when the context of the term is done and
    it waits for nothing, and the reader then calls [endTerm]. *)
Definition term_step (o : leader_op) (x : instance) : option instance :=
  match o with
  | OSend t id =>
      g ← terms x !! t; a ← acks x !! t;
      if reader g && bool_decide (sending a = None)
      then c ← deliver Buffer t id (cons x); Some (set_ack t (sent id a) (set_cons c x)) else None
  | ORecord t =>
      g ← terms x !! t; a ← acks x !! t; id ← sending a;
      if reader g then Some (set_ack t (recorded id a) x) else None
  | OTickFlush t =>
      g ← terms x !! t; a ← acks x !! t;
      if committer g && negb (lastFlush a) && bool_decide (ticking a = None)
      then Some (set_ack t (tick_flush false a) x) else None
  | OLastFlush t =>
      g ← terms x !! t; a ← acks x !! t;
      if committer g && term_done x g && negb (lastFlush a) && bool_decide (ticking a = None)
      then Some (set_ack t (tick_flush true a) x) else None
  | OTickAcked t failed ran =>
      g ← terms x !! t; a ← acks x !! t; ids ← ticking a;
      if committer g then Some (set_ack t (xack ids failed ran (set_ticking None a)) x) else None
  | OReaderEnd t =>
      g ← terms x !! t; a ← acks x !! t;
      if reader g && term_done x g && bool_decide (sending a = None)
      then Some (add_wg (-1) (set_terms (<[t := MkGoroutines (stopped g) false (committer g) (maintainer g)]> (terms x))
             (set_cons (endTerm t (cons x)) x)))
      else None
  | OCommitEnd t =>
      g ← terms x !! t; a ← acks x !! t;
      if committer g && term_done x g && lastFlush a && bool_decide (ticking a = None)
      then Some (add_wg (-1) (set_terms (<[t := MkGoroutines (stopped g) (reader g) false (maintainer g)]> (terms x)) x))
      else None
  | OMaintainEnd t =>
      g ← terms x !! t;
      if maintainer g && term_done x g
      then Some (add_wg (-1) (set_terms (<[t := MkGoroutines (stopped g) (reader g) (committer g) false]> (terms x)) x))
      else None
  | _ => None
  end.

(** The goroutine that calls Subscribe; a returned call is made again. *)
Definition caller_step (o : leader_op) (x : instance) : option instance :=
  match o, sub x with
  | OSub cs, p =>
      if match cs with CaseClosed => closeCtx x | _ => true end then
        '(c, p) ← subscribe_step cs p (cons x); Some (set_sub p (handled x) (set_cons c x))
      else None
  | OHandle, SubHandler t id => Some (set_sub (SubReturned None) (handled x ++ [(t, id)]) x)
  | OAgain, SubReturned _ => Some (set_sub SubLoop (handled x) x)
  | _, _ => None
  end.

(** [Mark] and [Commit] of messages that the handler was given, by whoever has them; they
    reach the acker of the message's term, whether that term or the consumer ended or not. *)
Definition message_step (o : leader_op) (x : instance) : option instance :=
  match o with
  | OMark t id =>
      a ← acks x !! t; if decide (got x t id) then Some (set_ack t (Mark id a) x) else None
  | OCommit t id =>
      a ← acks x !! t; if decide (got x t id) then Some (set_ack t (Commit a) x) else None
  | OCommitAcked t i failed ran =>
      a ← acks x !! t; ids ← commits a !! i;
      Some (set_ack t (xack ids failed ran (set_commits (delete i (commits a)) a)) x)
  | _ => None
  end.

(** Close, and the cancellation of the context given to [NewConsumer]. *)
Definition close_step (n : string) (o : leader_op) (s : sys) (x : instance) : option sys :=
  match o, closing x with
  | OCancel, _ => Some (set_inst n (set_closed x) s)
  | OClose, CloseNot => Some (set_inst n (set_closing CloseWait (set_closed x)) s)
  | OWaited, CloseWait => if wg x =? 0 then Some (set_inst n (set_closing CloseRelease x) s) else None
  | ORelease failed ran, CloseRelease =>
      Some (set_inst n (set_closing CloseDone x)
        (if ran || negb failed then set_key (releaseScript (now s) n (key s)).1 s else s))
  | _, _ => None
  end.

Definition inst_exec (n : string) (o : leader_op) (s : sys) : option sys :=
  x ← insts s !! n;
  match o with
  | OManage | OScript _ _ | OReply | OTick | OClosed => manager_step n o s x
  | OSend _ _ | ORecord _ | OTickFlush _ | OLastFlush _ | OTickAcked _ _ _
  | OReaderEnd _ | OCommitEnd _ | OMaintainEnd _ => x ← term_step o x; Some (set_inst n x s)
  | OMark _ _ | OCommit _ _ | OCommitAcked _ _ _ _ => x ← message_step o x; Some (set_inst n x s)
  | OSub _ | OHandle | OAgain => x ← caller_step o x; Some (set_inst n x s)
  | OCancel | OClose | OWaited | ORelease _ _ => close_step n o s x
  end.

(** An instance starts, time passes, or an instance takes a step. *)
Inductive sys_op := New (n : string) | Pass (d : Z) | On (n : string) (o : leader_op).

Definition exec (o : sys_op) (s : sys) : option sys :=
  match o with
  | New n => match insts s !! n with None => Some (set_inst n NewConsumer s) | Some _ => None end
  | Pass d => if 0 <=? d then Some (MkSys (now s + d) (key s) (insts s)) else None
  | On n o => inst_exec n o s
  end.

Definition run (os : list sys_op) (s : sys) : option sys := fold_left (λ s o, s ≫= exec o) os (Some s).
End system.

Definition sys_init : sys := MkSys 0 None ∅.

(** * Lemmas *)

Definition live (g : goroutines) : nat :=
  (if reader g then 1 else 0) + (if committer g then 1 else 0) + (if maintainer g then 1 else 0).

Definition manages (m : manager_pc) : Z := match m with MExit => 0 | _ => 1 end.

(** The term that the manager leads, and its last renewal. *)
Definition leads (m : manager_pc) : option (nat * Z) :=
  match m with MLead t r | MRenew t r | MRenewed t r _ _ => Some (t, r) | _ => None end.

Definition waited (p : close_pc) : Prop := p = CloseRelease ∨ p = CloseDone.

Section invariant.
Context (LeaseTTL : Z) (Buffer : nat) (Httl : 0 < LeaseTTL).
Local Abbreviation attempt := (attempt LeaseTTL).
Local Abbreviation exec := (exec LeaseTTL Buffer).
Local Abbreviation run := (run LeaseTTL Buffer).

(** ** The consumer under the goroutines *)

Record cons_le (c c' : consumer) : Prop := {
  le_next : next_term c' = next_term c;
  le_term t : term c' = Some t → term c = Some t
}.

Lemma deliver_le t id c c' : deliver Buffer t id c = Some c' → cons_le c c'.
Proof. unfold deliver. intros. repeat case_match; simplify_eq. by split. Qed.

Lemma endTerm_le t c : cons_le c (endTerm t c) ∧ term (endTerm t c) ≠ Some t.
Proof. unfold endTerm. case_bool_decide; simpl; repeat split; try done; congruence. Qed.

Lemma subscribe_step_le cs p c c' p' : subscribe_step cs p c = Some (c', p') → cons_le c c'.
Proof. intros Hs. destruct p, cs; simpl in Hs; repeat case_match; simplify_eq; by split. Qed.

(** ** The invariant of an instance *)

Record inst_inv (x : instance) : Prop := {
  inv_wg : wg x = manages (manager x) + Z.of_nat (sum_list_with live (terms x));
  inv_next : next_term (cons x) = length (terms x);
  inv_acks : length (acks x) = length (terms x);
  inv_current t : term (cons x) = Some t → ∃ g, terms x !! t = Some g ∧ reader g = true;
  inv_leads t g : terms x !! t = Some g → stopped g = false ↔ fst <$> leads (manager x) = Some t;
  inv_led t r : leads (manager x) = Some (t, r) → (t < length (terms x))%nat ∧ answered x - r < LeaseTTL;
  inv_wait : waited (closing x) → wg x = 0;
  inv_close : closing x ≠ CloseNot → closeCtx x = true;
  inv_ended t g : terms x !! t = Some g → term_done x g = false → live g = 3%nat
}.

Lemma inst_inv_new : inst_inv NewConsumer.
Proof. split; simpl; try done. by intros [|]. Qed.

Lemma inst_inv_manager m x :
  leads m = leads (manager x) → manages m = manages (manager x) → inst_inv x → inst_inv (set_manager m x).
Proof. intros Hl Hm []. split; simpl; rewrite ?Hl, ?Hm; auto. Qed.

Lemma inst_inv_exit x :
  leads (manager x) = None → manager x ≠ MExit → inst_inv x → inst_inv (add_wg (-1) (set_manager MExit x)).
Proof.
  intros Hl Hm []. assert (manages (manager x) = 1) as Hm1 by (by destruct (manager x)).
  rewrite Hl, Hm1 in *. split; simpl; auto; [lia |]. intros Hw. specialize (inv_wait0 Hw). lia.
Qed.

Lemma inst_inv_start now x :
  leads (manager x) = None → manager x ≠ MExit → inst_inv x → inst_inv (startLeader now x).
Proof.
  intros Hl Hm []. assert (manages (manager x) = 1) as Hm1 by (by destruct (manager x)).
  rewrite Hl, Hm1 in *. unfold startLeader. simpl.
  assert (∀ t g, (terms x ++ [started]) !! t = Some g →
    terms x !! t = Some g ∧ t ≠ next_term (cons x) ∨ t = next_term (cons x) ∧ g = started) as Hlk.
  { intros t g [Ht | [Hlen Ht]]%lookup_app_Some.
    - left. split; [done |]. apply lookup_lt_Some in Ht. lia.
    - right. apply list_lookup_singleton_Some in Ht as [Ht <-]. split; [lia | done]. }
  split; simpl.
  - rewrite sum_list_with_app. simpl. lia.
  - rewrite length_app. simpl. lia.
  - rewrite !length_app. simpl. lia.
  - intros t [= <-]. exists started. split; [|done]. rewrite inv_next0, lookup_app_r, Nat.sub_diag; done.
  - intros t g [[Ht Hne] | [-> ->]]%Hlk; [|done]. rewrite (inv_leads0 t g Ht). split; [done |]. intros [= Heq]. congruence.
  - intros t r [= <- <-]. rewrite length_app. simpl. lia.
  - intros Hw. specialize (inv_wait0 Hw). lia.
  - done.
  - intros t g [[Ht Hne] | [-> ->]]%Hlk Hd; [eauto | done].
Qed.

Lemma sum_live_stop t ts : sum_list_with live (alter stop_term t ts) = sum_list_with live ts.
Proof.
  revert t. induction ts as [|g ts IH]; intros [|t]; simpl; [done.. |]. f_equal. apply IH.
Qed.

Lemma inst_inv_leave t r x : leads (manager x) = Some (t, r) → inst_inv x → inst_inv (leave_term t x).
Proof.
  intros Hl []. assert (manages (manager x) = 1) as Hm1 by (by destruct (manager x)).
  rewrite Hl, Hm1 in *. unfold leave_term.
  assert (∀ u g', alter stop_term t (terms x) !! u = Some g' →
    ∃ g, terms x !! u = Some g ∧ g' = (if decide (u = t) then stop_term g else g)) as Hlk.
  { intros u g'. destruct (decide (u = t)) as [-> |].
    - rewrite list_lookup_alter_eq. intros (g & Hg & ->)%fmap_Some. eauto.
    - rewrite list_lookup_alter_ne by done. eauto. }
  split; simpl.
  - by rewrite sum_live_stop.
  - by rewrite length_alter.
  - by rewrite length_alter.
  - intros u (g & Hg & Hr)%inv_current0. destruct (decide (u = t)) as [-> |].
    + exists (stop_term g). split; [by rewrite list_lookup_alter_eq, Hg | done].
    + exists g. by rewrite list_lookup_alter_ne.
  - intros u g' (g & Hg & ->)%Hlk. case_decide as Hu; simpl; [done |].
    rewrite (inv_leads0 u g Hg). simpl. split; [intros [= ->]; done | done].
  - done.
  - done.
  - done.
  - intros u g' (g & Hg & ->)%Hlk. unfold term_done. simpl.
    case_decide; simpl; [by rewrite orb_true_r | by eapply inv_ended0].
Qed.

Lemma inst_inv_keep t r r' now x :
  leads (manager x) = Some (t, r) → now - r' < LeaseTTL → inst_inv x →
  inst_inv (set_manager (MLead t r') (set_answered now x)).
Proof.
  intros Hl Hr []. assert (manages (manager x) = 1) as Hm1 by (by destruct (manager x)).
  rewrite Hl, Hm1 in *. split; simpl; auto.
  intros u v [= <- <-]. split; [by eapply inv_led0 | done].
Qed.

Lemma inst_inv_cons c x : cons_le (cons x) c → inst_inv x → inst_inv (set_cons c x).
Proof. intros [Hn Ht] []. split; simpl; auto. congruence. Qed.

(** A goroutine of a term ends. *)
Lemma inst_inv_end t g g' c x :
  terms x !! t = Some g → stopped g' = stopped g → live g = S (live g') → term_done x g = true →
  cons_le (cons x) c → (reader g' = false → reader g = true → term c ≠ Some t) →
  inst_inv x → inst_inv (add_wg (-1) (set_terms (<[t := g']> (terms x)) (set_cons c x))).
Proof.
  intros Hg Hs Hv Hd [Hn Ht] Hr [].
  assert (∀ u h, <[t := g']> (terms x) !! u = Some h → u ≠ t ∧ terms x !! u = Some h ∨ u = t ∧ h = g') as Hlk.
  { intros u h. destruct (decide (u = t)) as [-> |].
    - rewrite list_lookup_insert_eq by (by eapply lookup_lt_Some). intros [= <-]. auto.
    - rewrite list_lookup_insert_ne by done. auto. }
  pose proof (sum_list_with_insert live (terms x) t g g' Hg) as Hsum.
  split; simpl.
  - lia.
  - rewrite length_insert. congruence.
  - by rewrite length_insert.
  - intros u Hu. pose proof (Ht u Hu) as Hu'. destruct (inv_current0 u Hu') as (h & Hh & Hrh).
    destruct (decide (u = t)) as [-> |].
    + rewrite Hg in Hh. injection Hh as <-. exists g'.
      rewrite list_lookup_insert_eq by (by eapply lookup_lt_Some). split; [done |].
      destruct (reader g') eqn:Hrg; [done |]. by destruct (Hr eq_refl Hrh Hu).
    + exists h. by rewrite list_lookup_insert_ne.
  - intros u h [[? Hh] | [-> ->]]%Hlk; [eauto |]. rewrite Hs. eauto.
  - intros u r Hl. rewrite length_insert. eauto.
  - intros Hw. specialize (inv_wait0 Hw). assert (0 ≤ manages (manager x)) by (by destruct (manager x)). lia.
  - done.
  - intros u h [[? Hh] | [-> ->]]%Hlk Hdone; [eauto |]. unfold term_done in *. simpl in *. rewrite Hs in Hdone. congruence.
Qed.

Lemma inst_inv_same x x' :
  manager x' = manager x → terms x' = terms x → cons x' = cons x → wg x' = wg x → answered x' = answered x →
  length (acks x') = length (acks x) → (closeCtx x = true → closeCtx x' = true) → (closing x' ≠ CloseNot → closeCtx x' = true) →
  (waited (closing x') → waited (closing x) ∨ wg x = 0) → inst_inv x → inst_inv x'.
Proof.
  intros Hm Ht Hc Hw Ha Hk Hcl Hx Hwt []. split; rewrite ?Hm, ?Ht, ?Hc, ?Hw, ?Ha, ?Hk; auto.
  - intros [H | H]%Hwt; auto.
  - intros t g Hg Hd. apply (inv_ended0 t g Hg). unfold term_done in *.
    destruct (closeCtx x), (closeCtx x'); simpl in *; try done. by specialize (Hcl eq_refl).
Qed.

(** ** The lease and the system *)

(** Until [LeaseTTL] after its last grant the lease is the instance's, unless it closed. *)
Definition holds (s : sys) (n : string) (x : instance) : Prop :=
  ∀ g, granted x = Some g → g ≤ now s ∧
    (closing x ≠ CloseDone → now s < g + LeaseTTL → ∃ e, key s = Some (n, e) ∧ g + LeaseTTL ≤ e).

Definition was_granted (x : instance) : Prop :=
  leads (manager x) ≠ None ∨ (∃ e, manager x = MTried true e) → is_Some (granted x).

Definition sys_inv (s : sys) : Prop :=
  ∀ n x, insts s !! n = Some x → inst_inv x ∧ was_granted x ∧ holds s n x.

Lemma holds_lease s n m x :
  m ≠ n → holds s m x → holds (set_key (leaseScript (now s) LeaseTTL n (key s)).1 s) m x.
Proof.
  intros Hne Hx g Hg. destruct (Hx g Hg) as [Hle Hk]. split; [done |]. intros Hc Hlt.
  destruct (Hk Hc Hlt) as (e & He & Hge). exists e. split; [|done]. simpl in *. rewrite He.
  unfold leaseScript, live_owner. destruct (Z.ltb_spec (now s) e); [|lia]. by rewrite decide_False.
Qed.

Lemma holds_release s n m x :
  m ≠ n → holds s m x → holds (set_key (releaseScript (now s) n (key s)).1 s) m x.
Proof.
  intros Hne Hx g Hg. destruct (Hx g Hg) as [Hle Hk]. split; [done |]. intros Hc Hlt.
  destruct (Hk Hc Hlt) as (e & He & Hge). exists e. split; [|done]. simpl in *. rewrite He.
  unfold releaseScript, live_owner. destruct (Z.ltb_spec (now s) e); [|lia]. by rewrite decide_False.
Qed.

(** One instance, and perhaps the lease, change. *)
Lemma sys_inv_set n x' l s :
  sys_inv s → inst_inv x' → was_granted x' → holds (set_key l s) n x' →
  (∀ m y, m ≠ n → holds s m y → holds (set_key l s) m y) → sys_inv (set_inst n x' (set_key l s)).
Proof.
  intros Hs Hi Hw Hh Ho m y. simpl. rewrite lookup_insert_Some. intros [[<- <-] | [Hne Hy]]; [done |].
  destruct (Hs m y Hy) as (? & ? & ?). split_and!; [done.. |]. by apply Ho.
Qed.

Lemma sys_inv_inst n x x' s :
  sys_inv s → insts s !! n = Some x → inst_inv x' →
  (granted x' = granted x) → (was_granted x → was_granted x') →
  (closing x = CloseDone → closing x' = CloseDone) → sys_inv (set_inst n x' s).
Proof.
  intros Hs Hx Hi Hg Hw Hc. destruct (Hs n x Hx) as (_ & Hw0 & Hh).
  assert (s = set_key (key s) s) as Hk by (by destruct s). rewrite Hk.
  apply sys_inv_set; auto. intros g. rewrite Hg. intros [? Hl]%Hh. split; [done |].
  intros Hnc. apply Hl. auto.
Qed.

(** The grant of an attempt. *)
Lemma attempt_spec n failed ran s x s' x' held errored :
  attempt n failed ran s x = (s', x', (held, errored)) →
  (s' = s ∨ s' = set_key (leaseScript (now s) LeaseTTL n (key s)).1 s) ∧
  ((x' = x ∧ held = false) ∨
   (x' = set_granted (Some (now s)) x ∧ key s' = Some (n, now s + LeaseTTL))).
Proof.
  unfold RedisLeader.attempt, tryLease, leaseScript.
  assert (set_key (key s) s = s) as Hid by (by destruct s).
  destruct failed, ran; simpl; (destruct (live_owner (now s) (key s)); [case_decide |]); simpl;
    intros [= <- <- <- <-]; rewrite ?Hid; auto.
Qed.

Lemma sys_inv_attempt n failed ran s x s' x' held errored m :
  sys_inv s → insts s !! n = Some x → attempt n failed ran s x = (s', x', (held, errored)) →
  closing x ≠ CloseDone → leads m = leads (manager x) → manages m = manages (manager x) →
  (∀ e, m = MTried true e → held = true) → sys_inv (set_inst n (set_manager m x') s').
Proof.
  intros Hs Hx Ha Hnc Hl Hm Hh. destruct (Hs n x Hx) as (Hi & Hw & Hhold).
  apply attempt_spec in Ha as [Hs' Hx'].
  assert (∃ l, s' = set_key l s ∧ (∀ m y, m ≠ n → holds s m y → holds (set_key l s) m y) ∧
    (x' = x → holds (set_key l s) n x)) as (l & -> & Ho & Hsame).
  { destruct Hs' as [-> | ->].
    - exists (key s). assert (set_key (key s) s = s) as -> by (by destruct s). auto.
    - eexists. split; [done |]. split; [intros; by apply holds_lease |]. intros ->.
      destruct Hx' as [_ | [Hg Hk]]; intros g Hgx; (destruct (Hhold g Hgx) as [Hle Hk']; split; [done |]); intros _ Hlt.
      + destruct (Hk' Hnc Hlt) as (e & He & Hge). simpl in *. rewrite He.
        unfold leaseScript, live_owner. destruct (Z.ltb_spec (now s) e); [|lia]. rewrite decide_True by done.
        exists (now s + LeaseTTL). split; [done | lia].
      + exists (now s + LeaseTTL). split; [done |]. simpl in Hlt. lia. }
  apply sys_inv_set; auto.
  - destruct Hx' as [[-> _] | [-> _]]; apply inst_inv_manager; auto.
    apply (inst_inv_same x); auto. apply Hi.
  - destruct Hx' as [[-> Hf] | [-> _]]; unfold was_granted in *; simpl; [|by eauto].
    rewrite Hl. intros [H | [e H]]; [auto |]. specialize (Hh e H). congruence.
  - destruct Hx' as [[-> _] | [-> Hk]]; [by apply Hsame |].
    intros g [= <-]. simpl in *. split; [lia |]. intros _ _. eauto with lia.
Qed.

(** ** Every step keeps the invariant *)

Lemma now_set_inst n x s : now (set_inst n x s) = now s.
Proof. done. Qed.

Lemma manager_not_exit x : inst_inv x → manages (manager x) = 1 → ¬ waited (closing x).
Proof. intros [] Hm Hw. specialize (inv_wait0 Hw). lia. Qed.

Lemma manager_step_inv n o s x s' :
  sys_inv s → insts s !! n = Some x → manager_step LeaseTTL n o s x = Some s' → sys_inv s'.
Proof.
  intros Hs Hx Hst. destruct (Hs n x Hx) as (Hi & Hw & _).
  pose proof (manager_not_exit x Hi) as Hnw. unfold waited in Hnw.
  unfold manager_step in Hst.
  destruct o, (manager x) as [| | held errored | | k r | k r | k r held errored |] eqn:Hm; try done;
    unfold was_granted in *; rewrite Hm in *; simpl in *.
  - injection Hst as <-. destruct (closeCtx x); eapply sys_inv_inst; eauto; unfold was_granted; simpl.
    + apply inst_inv_exit; [by rewrite Hm | by rewrite Hm | done].
    + naive_solver.
    + apply inst_inv_manager; [by rewrite Hm | by rewrite Hm | done].
    + naive_solver.
  - destruct (attempt n failed ran s x) as [[s1 x1] [held errored]] eqn:Hat. injection Hst as <-.
    eapply sys_inv_attempt; eauto; rewrite ?Hm; try done; [naive_solver | by intros e [= -> _]].
  - destruct (attempt n failed ran s x) as [[s1 x1] [held errored]] eqn:Hat. injection Hst as <-.
    eapply sys_inv_attempt; eauto; rewrite ?Hm; try done; naive_solver.
  - injection Hst as <-. destruct held; eapply sys_inv_inst; eauto; unfold was_granted; simpl.
    + apply inst_inv_start; [by rewrite Hm | by rewrite Hm | done].
    + naive_solver.
    + apply inst_inv_manager; [by rewrite Hm | by rewrite Hm | done].
    + naive_solver.
  - injection Hst as <-.
    destruct (runLeader_tick (now s) LeaseTTL r held errored) as [r'|] eqn:Ht; eapply sys_inv_inst; eauto;
      unfold was_granted; simpl.
    + apply (inst_inv_keep k r); [by rewrite Hm | | done].
      unfold runLeader_tick in Ht. repeat case_match; simplify_eq; reflect_tests; lia.
    + naive_solver.
    + apply (inst_inv_leave k r); [by rewrite Hm | done].
    + naive_solver.
  - injection Hst as <-. eapply sys_inv_inst; eauto; unfold was_granted; simpl; [|naive_solver].
    apply inst_inv_manager; [by rewrite Hm | by rewrite Hm | done].
  - injection Hst as <-. eapply sys_inv_inst; eauto; unfold was_granted; simpl; [|naive_solver].
    apply inst_inv_manager; [by rewrite Hm | by rewrite Hm | done].
  - destruct (closeCtx x); [|done]. injection Hst as <-. eapply sys_inv_inst; eauto; unfold was_granted; simpl; [|naive_solver].
    apply inst_inv_exit; [by rewrite Hm | by rewrite Hm | done].
  - destruct (closeCtx x); [|done]. injection Hst as <-. eapply sys_inv_inst; eauto; unfold was_granted; simpl; [|naive_solver].
    apply (inst_inv_leave k r); [by rewrite Hm | done].
Qed.

(** What a step of a goroutine of a term or of the caller of Subscribe leaves alone. *)
Definition kept (x x' : instance) : Prop :=
  manager x' = manager x ∧ granted x' = granted x ∧ answered x' = answered x ∧
  closing x' = closing x ∧ closeCtx x' = closeCtx x.

Lemma inst_inv_ack t a x : inst_inv x → inst_inv (set_ack t a x).
Proof. intros Hi. apply (inst_inv_same x); auto; [apply length_insert | apply Hi]. Qed.

Lemma term_step_inv o x x' : term_step Buffer o x = Some x' → inst_inv x → inst_inv x' ∧ kept x x'.
Proof.
  intros Hst Hi. unfold kept.
  destruct o as [| | | | |t id|t|t id|t id|t i failed ran|t|t|t failed ran|t|t|t| | | | | | |]; try done; simpl in Hst.
  all: destruct (terms x !! t) as [g|] eqn:Hg; [|done]; simpl in Hst.
  all: try (destruct (acks x !! t) as [a|] eqn:Ha; [|done]; simpl in Hst).
  - destruct (reader g && _); [|done].
    destruct (deliver Buffer t id (cons x)) as [c|] eqn:Hd; [|done]. injection Hst as <-.
    split; [|done]. apply inst_inv_ack. eapply inst_inv_cons; [by eapply deliver_le | done].
  - destruct (sending a); [|done]. simpl in Hst. destruct (reader g); [|done]. injection Hst as <-.
    split; [by apply inst_inv_ack | done].
  - case_match; [|done]. injection Hst as <-. split; [by apply inst_inv_ack | done].
  - case_match; [|done]. injection Hst as <-. split; [by apply inst_inv_ack | done].
  - destruct (ticking a); [|done]. simpl in Hst. destruct (committer g); [|done]. injection Hst as <-.
    split; [by apply inst_inv_ack | done].
  - destruct (reader g) eqn:Hr; [|done]. destruct (term_done x g) eqn:Hd; [|done].
    simpl in Hst. case_bool_decide; [|done]. injection Hst as <-.
    split; [|done]. destruct (endTerm_le t (cons x)).
    apply (inst_inv_end t g); auto. unfold live. rewrite Hr. simpl. lia.
  - destruct (committer g) eqn:Hr; [|done]. destruct (term_done x g) eqn:Hd; [|done].
    simpl in Hst. case_match; [|done]. injection Hst as <-.
    split; [|done]. apply (inst_inv_end t g (MkGoroutines (stopped g) (reader g) false (maintainer g)) (cons x)); auto.
    + unfold live. rewrite Hr. simpl. lia.
    + done.
    + simpl. congruence.
  - destruct (maintainer g) eqn:Hr; [|done]. destruct (term_done x g) eqn:Hd; [|done]. injection Hst as <-.
    split; [|done]. apply (inst_inv_end t g (MkGoroutines (stopped g) (reader g) (committer g) false) (cons x)); auto.
    + unfold live. rewrite Hr. simpl. lia.
    + done.
    + simpl. congruence.
Qed.

Lemma message_step_inv o x x' : message_step o x = Some x' → inst_inv x → inst_inv x' ∧ kept x x'.
Proof.
  intros Hst Hi. unfold message_step in Hst.
  destruct o; try done; destruct (acks x !! t) as [a|]; try done; simpl in Hst.
  3: destruct (commits a !! i); [simpl in Hst | done].
  1,2: case_match; [|done].
  all: injection Hst as <-; split; [by apply inst_inv_ack | done].
Qed.

Lemma caller_step_inv o x x' : caller_step o x = Some x' → inst_inv x → inst_inv x' ∧ kept x x'.
Proof.
  intros Hst Hi. unfold kept.
  assert (∀ p h, inst_inv (set_sub p h x)) as Hsub.
  { intros p h. apply (inst_inv_same x); auto. apply Hi. }
  destruct o as [| | | | | | | | | | | | | | | |cs| | | | | |]; try done; simpl in Hst.
  - destruct (match cs with CaseClosed => closeCtx x | _ => true end); [|done].
    destruct (subscribe_step cs (sub x) (cons x)) as [[c p]|] eqn:Hs; [|done]. injection Hst as <-.
    split; [|done]. assert (set_sub p (handled x) (set_cons c x) = set_cons c (set_sub p (handled x) x)) as -> by done.
    apply inst_inv_cons; [by eapply subscribe_step_le | apply Hsub].
  - destruct (sub x); try done. injection Hst as <-. split; [apply Hsub | done].
  - destruct (sub x); try done. injection Hst as <-. split; [apply Hsub | done].
Qed.

Lemma sys_inv_kept n x x' s :
  sys_inv s → insts s !! n = Some x → inst_inv x' → kept x x' → sys_inv (set_inst n x' s).
Proof.
  intros Hs Hx Hi (Hm & Hg & Ha & Hc & _). eapply sys_inv_inst; eauto; [unfold was_granted; by rewrite Hm, Hg | congruence].
Qed.

Lemma close_step_inv n o s x s' :
  sys_inv s → insts s !! n = Some x → close_step n o s x = Some s' → sys_inv s'.
Proof.
  intros Hs Hx Hst. destruct (Hs n x Hx) as (Hi & Hw & Hh). unfold close_step in Hst.
  destruct o, (closing x) eqn:Hc; try done.
  1-5: injection Hst as <-; eapply sys_inv_inst; eauto; try (simpl; congruence);
    apply (inst_inv_same x); auto; simpl; rewrite ?Hc; unfold waited; try done; naive_solver.
  - destruct (Z.eqb_spec (wg x) 0); [|done]. injection Hst as <-. eapply sys_inv_inst; eauto; try (simpl; congruence).
    apply (inst_inv_same x); auto; intros _; apply (inv_close x Hi); by rewrite Hc.
  - injection Hst as <-.
    assert (inst_inv (set_closing CloseDone x)) as Hi'.
    { apply (inst_inv_same x); auto; [intros _; apply (inv_close x Hi); by rewrite Hc |].
      intros _. left. rewrite Hc. by left. }
    destruct (ran || negb failed).
    + apply (sys_inv_set n (set_closing CloseDone x) (releaseScript (now s) n (key s)).1 s); auto.
      * intros g Hg. simpl in *. by destruct (Hh g Hg).
      * intros. by apply holds_release.
    + eapply sys_inv_inst; eauto.
Qed.

Lemma leader_exec_inv o s s' : exec o s = Some s' → sys_inv s → sys_inv s'.
Proof.
  intros He Hs. destruct o as [n | d | n o]; simpl in He.
  - destruct (insts s !! n) eqn:Hn; [done |]. injection He as <-. intros m y. simpl.
    rewrite lookup_insert_Some. intros [[<- <-] | [_ Hy]]; [|by apply Hs].
    split; [apply inst_inv_new |]. split; [by intros [? | [e ?]] | done].
  - destruct (Z.leb_spec 0 d); [|done]. injection He as <-. intros m y Hy.
    destruct (Hs m y Hy) as (? & ? & Hh). simpl in *. split; [done |]. split; [done |].
    intros g Hg. destruct (Hh g Hg) as [Hle Hk]. simpl. split; [lia |]. intros Hc Hlt. apply Hk; [done | lia].
  - unfold inst_exec in He. destruct (insts s !! n) as [x|] eqn:Hx; [|done]. simpl in He.
    destruct (Hs n x Hx) as [Hi _].
    destruct o; first
      [ by eapply manager_step_inv
      | by eapply close_step_inv
      | destruct (term_step _ _ x) as [x'|] eqn:Hst; [|done]; injection He as <-;
        destruct (term_step_inv _ _ _ Hst Hi); by eapply sys_inv_kept
      | destruct (message_step _ x) as [x'|] eqn:Hst; [|done]; injection He as <-;
        destruct (message_step_inv _ _ _ Hst Hi); by eapply sys_inv_kept
      | destruct (caller_step _ x) as [x'|] eqn:Hst; [|done]; injection He as <-;
        destruct (caller_step_inv _ _ _ Hst Hi); by eapply sys_inv_kept ].
Qed.

Lemma leader_run_inv os s : run os sys_init = Some s → sys_inv s.
Proof. intros Hr. by eapply (run_Some exec sys_inv os sys_init s); [intros; by eapply leader_exec_inv | | ]. Qed.

(** ** What is acknowledged *)

(** The watermark is a marked id, marked are messages that [P] the handler was given, and
    what is or is being acknowledged is at or below one of them. *)
Definition term_ack_ok (P : string → Prop) (a : term_ack) : Prop :=
  (watermark (own a) = "" ∨ watermark (own a) ∈ marked a) ∧ (∀ m, m ∈ marked a → P m) ∧
  ∀ id, id ∈ acked a ++ default [] (ticking a) ++ mjoin (commits a) →
    ∃ m, m ∈ marked a ∧ compareID id m ≤ 0.

Definition acks_ok (x : instance) : Prop := ∀ t a, acks x !! t = Some a → term_ack_ok (got x t) a.

Lemma term_ack_ok_mono (P Q : string → Prop) a : (∀ m, P m → Q m) → term_ack_ok P a → term_ack_ok Q a.
Proof. intros HPQ (? & ? & ?). split_and!; auto. Qed.

Lemma flush_take_ok P a k ids :
  term_ack_ok P a → flush_take (own a) = Some (k, ids) →
  watermark k = watermark (own a) ∧ ∀ id, id ∈ ids → ∃ m, m ∈ marked a ∧ compareID id m ≤ 0.
Proof.
  intros (Hw & _) Hf. apply flush_take_Some in Hf as (Hne & Hk & _ & -> & _). split; [done |].
  intros id Hid. destruct Hw as [|Hm]; [done |]. eexists. split; [exact Hm |]. clear Hm.
  revert Hid. induction (pending (own a)) as [|j p IH]; simpl; [by intros ?%elem_of_nil |].
  destruct (Z.leb_spec (compareID j (watermark (own a))) 0); simpl; [|by intros ?%elem_of_nil].
  intros [-> | ?]%elem_of_cons; auto.
Qed.

Lemma Mark_ok P id a : P id → term_ack_ok P a → term_ack_ok P (Mark id a).
Proof.
  intros HP (Hw & Hm & Ha). unfold Mark, mark. split_and!; simpl.
  - case_match; simpl; set_solver.
  - set_solver.
  - intros j Hj. destruct (Ha j Hj) as (m & ? & ?). exists m. set_solver.
Qed.

Lemma Commit_ok P a : term_ack_ok P a → term_ack_ok P (Commit a).
Proof.
  intros Ha. unfold Commit. destruct (flush_take (own a)) as [[k ids]|] eqn:Hf; [|done].
  destruct (flush_take_ok _ _ _ _ Ha Hf) as [Hk Hids]. destruct Ha as (Hw & Hm & Ha).
  unfold term_ack_ok. simpl. rewrite Hk. split_and!; [done.. |].
  intros id. rewrite join_app. simpl. set_solver.
Qed.

Lemma tick_flush_ok P b a : term_ack_ok P a → term_ack_ok P (tick_flush b a).
Proof.
  intros Ha. unfold tick_flush. destruct (flush_take (own a)) as [[k ids]|] eqn:Hf.
  - destruct (flush_take_ok _ _ _ _ Ha Hf) as [Hk Hids]. destruct Ha as (Hw & Hm & Ha).
    unfold term_ack_ok. simpl. rewrite Hk. split_and!; [done.. |]. set_solver.
  - destruct Ha as (Hw & Hm & Ha). split_and!; [done.. |]. simpl. set_solver.
Qed.

(** An answered [XACK] of ids that were being acknowledged. *)
Lemma xack_ok P ids failed ran a a' :
  own a' = own a → marked a' = marked a → acked a' = acked a →
  (∀ id, id ∈ ids ++ default [] (ticking a') ++ mjoin (commits a') →
     id ∈ default [] (ticking a) ++ mjoin (commits a)) →
  term_ack_ok P a → term_ack_ok P (xack ids failed ran a').
Proof.
  intros Ho Hmk Hac Hin (Hw & Hm & Ha). unfold term_ack_ok, xack. simpl. rewrite Ho, Hmk, Hac.
  split_and!; [by destruct failed | done |]. intros id. destruct (ran || negb failed); set_solver.
Qed.

Lemma acks_ok_set t a x :
  term_ack_ok (got x t) a → acks_ok x → acks_ok (set_ack t a x).
Proof.
  intros Ha Hx u b Hb. change (got (set_ack t a x) u) with (got x u).
  simpl in Hb. apply list_lookup_insert_Some in Hb as [(<- & <- & _) | [_ Hb]]; [done | by apply Hx].
Qed.

Lemma acks_ok_same x x' :
  (acks x' = acks x ∨ acks x' = acks x ++ [new_ack]) → (∀ t m, got x t m → got x' t m) →
  acks_ok x → acks_ok x'.
Proof.
  intros Ha Hg Hx t a Ht.
  assert (acks x !! t = Some a ∨ a = new_ack) as [Ht' | ->].
  { destruct Ha as [Ha | Ha]; rewrite Ha in Ht; [by left |].
    apply lookup_app_Some in Ht as [? | [_ [_ <-]%list_lookup_singleton_Some]]; auto. }
  - eapply term_ack_ok_mono; [apply Hg | by apply Hx].
  - split_and!; [by left | intros m; by intros ?%elem_of_nil | intros m; by intros ?%elem_of_nil].
Qed.

Lemma term_step_acks o x x' : term_step Buffer o x = Some x' → acks_ok x → acks_ok x'.
Proof.
  intros Hst Hx.
  destruct o as [| | | | |t id|t|t id|t id|t i failed ran|t|t|t failed ran|t|t|t| | | | | | |]; try done; simpl in Hst.
  all: destruct (terms x !! t) as [g|] eqn:Hg; [|done]; simpl in Hst.
  all: try (destruct (acks x !! t) as [a|] eqn:Ha; [|done]; simpl in Hst; pose proof (Hx t a Ha) as Hok).
  - destruct (reader g && _); [|done]. destruct (deliver Buffer t id (cons x)) as [c|]; [|done].
    injection Hst as <-. by apply (acks_ok_set t (sent id a) (set_cons c x)).
  - destruct (sending a); [|done]. simpl in Hst. destruct (reader g); [|done]. injection Hst as <-.
    by apply acks_ok_set.
  - case_match; [|done]. injection Hst as <-. by apply acks_ok_set; [apply tick_flush_ok |].
  - case_match; [|done]. injection Hst as <-. by apply acks_ok_set; [apply tick_flush_ok |].
  - destruct (ticking a) as [ids|] eqn:Htk; [|done]. simpl in Hst. destruct (committer g); [|done]. injection Hst as <-.
    apply acks_ok_set; [|done]. apply (xack_ok _ _ _ _ a); try done. intros id. rewrite Htk. simpl. set_solver.
  - case_match; [|done]. injection Hst as <-. by apply (acks_ok_same x); [left | |].
  - case_match; [|done]. injection Hst as <-. by apply (acks_ok_same x); [left | |].
  - case_match; [|done]. injection Hst as <-. by apply (acks_ok_same x); [left | |].
Qed.

Lemma join_delete {A} (l : list (list A)) i p y :
  l !! i = Some p → y ∈ p ++ mjoin (delete i l) → y ∈ mjoin l.
Proof.
  revert i. induction l as [|q l IH]; intros [|i] Hi; simpl in *; simplify_eq; [done |].
  specialize (IH i Hi). set_solver.
Qed.

Lemma message_step_acks o x x' : message_step o x = Some x' → acks_ok x → acks_ok x'.
Proof.
  intros Hst Hx. unfold message_step in Hst.
  destruct o as [| | | | |t id|t|t id|t id|t i failed ran|t|t|t failed ran|t|t|t| | | | | | |]; try done;
    destruct (acks x !! t) as [a|] eqn:Ha; try done; simpl in Hst; pose proof (Hx t a Ha) as Hok.
  - case_match; [|done]. injection Hst as <-. by apply acks_ok_set; [apply Mark_ok |].
  - case_match; [|done]. injection Hst as <-. by apply acks_ok_set; [apply Commit_ok |].
  - destruct (commits a !! i) as [ids|] eqn:Hi; [|done]. injection Hst as <-.
    apply acks_ok_set; [|done]. apply (xack_ok _ _ _ _ a); try done. simpl. intros id.
    pose proof (join_delete _ _ _ id Hi). set_solver.
Qed.

Lemma caller_step_got o x x' t m :
  caller_step o x = Some x' → got x t m → got x' t m.
Proof.
  intros Hst Hg. unfold got in *.
  destruct o as [| | | | | | | | | | | | | | | |cs| | | | | |]; try done; simpl in Hst.
  - destruct (match cs with CaseClosed => closeCtx x | _ => true end); [|done].
    destruct (subscribe_step cs (sub x) (cons x)) as [[c p]|] eqn:Hs; [|done]. injection Hst as <-.
    simpl. destruct Hg as [? | Hg]; [by left |]. by rewrite Hg in Hs.
  - destruct (sub x) as [| | | |u j|] eqn:Hs; try done. injection Hst as <-. simpl. set_solver.
  - destruct (sub x) eqn:Hs; try done. injection Hst as <-. simpl. set_solver.
Qed.

Lemma caller_step_ack o x x' : caller_step o x = Some x' → acks_ok x → acks_ok x' ∧ acks x' = acks x.
Proof.
  intros Hst Hx. assert (acks x' = acks x) as Ha.
  { destruct o as [| | | | | | | | | | | | | | | |cs| | | | | |]; try done; simpl in Hst.
    - destruct (match cs with CaseClosed => closeCtx x | _ => true end); [|done].
      destruct (subscribe_step cs (sub x) (cons x)) as [[c p]|]; [|done]. by injection Hst as <-.
    - destruct (sub x); try done. by injection Hst as <-.
    - destruct (sub x); try done. by injection Hst as <-. }
  split; [|done]. eapply acks_ok_same, Hx; [by left |]. intros. by eapply caller_step_got.
Qed.

Lemma manager_step_acks n o s x s' :
  manager_step LeaseTTL n o s x = Some s' →
  ∃ x', insts s' = <[n := x']> (insts s) ∧ (acks x' = acks x ∨ acks x' = acks x ++ [new_ack]) ∧
    handled x' = handled x ∧ sub x' = sub x.
Proof.
  unfold manager_step. intros Hst.
  destruct o, (manager x) as [| | held errored | | k q | k q | k q held errored |]; try done.
  2,3: destruct (attempt n failed ran s x) as [[s1 x1] [held errored]] eqn:Hat; injection Hst as <-;
    apply attempt_spec in Hat as [Hs1 Hx1]; eexists; simpl;
    (split; [by destruct Hs1 as [-> | ->] |]);
    destruct Hx1 as [[-> _] | [-> _]]; simpl; auto.
  all: repeat case_match; simplify_eq; eexists; (split; [reflexivity |]); simpl; auto.
Qed.

Lemma close_step_acks n o s x s' :
  close_step n o s x = Some s' →
  ∃ x', insts s' = <[n := x']> (insts s) ∧ acks x' = acks x ∧ handled x' = handled x ∧ sub x' = sub x.
Proof. unfold close_step. intros Hst. repeat case_match; simplify_eq; eexists; by split_and!. Qed.

Definition sys_acks (s : sys) : Prop := ∀ n x, insts s !! n = Some x → acks_ok x.

Lemma leader_exec_acks o s s' : exec o s = Some s' → sys_acks s → sys_acks s'.
Proof.
  intros He Hs.
  assert (∀ n x', acks_ok x' → ∀ s1, insts s1 = <[n := x']> (insts s) → sys_acks s1) as Hset.
  { intros n x' Hx' s1 E m y. rewrite E, lookup_insert_Some. intros [[<- <-] | [_ Hy]]; [done | by eapply Hs]. }
  destruct o as [n | d | n o]; simpl in He.
  - destruct (insts s !! n); [done |]. injection He as <-. by apply (Hset n NewConsumer).
  - destruct (0 <=? d); [|done]. by injection He as <-.
  - unfold inst_exec in He. destruct (insts s !! n) as [x|] eqn:Hx; [|done]. simpl in He.
    pose proof (Hs n x Hx) as Hok.
    assert (∀ x', (acks x' = acks x ∨ acks x' = acks x ++ [new_ack]) → handled x' = handled x →
      sub x' = sub x → acks_ok x') as Hsame.
    { intros x' Ha Hh Hsb. eapply acks_ok_same; [exact Ha | | exact Hok]. unfold got. by rewrite Hh, Hsb. }
    destruct o; first
      [ apply manager_step_acks in He as (x' & Hi & ? & ? & ?); apply (Hset n x'); auto
      | apply close_step_acks in He as (x' & Hi & ? & ? & ?); apply (Hset n x'); auto
      | destruct (term_step _ _ x) as [x'|] eqn:Hst; [|done]; injection He as <-;
        apply (Hset n x'); [by eapply term_step_acks | done]
      | destruct (message_step _ x) as [x'|] eqn:Hst; [|done]; injection He as <-;
        apply (Hset n x'); [by eapply message_step_acks | done]
      | destruct (caller_step _ x) as [x'|] eqn:Hst; [|done]; injection He as <-;
        apply (Hset n x'); [by eapply caller_step_ack | done] ].
Qed.

Lemma leader_run_acks os s : run os sys_init = Some s → sys_acks s.
Proof. intros Hr. by eapply (run_Some exec sys_acks os sys_init s); [intros; by eapply leader_exec_acks | | ]. Qed.

(** ** After Close has waited *)

Lemma waited_quiet x : inst_inv x → waited (closing x) →
  manager x = MExit ∧ (∀ t g, terms x !! t = Some g → live g = 0%nat) ∧ term (cons x) = None.
Proof.
  intros [] Hw. specialize (inv_wait0 Hw).
  assert (manager x = MExit ∧ sum_list_with live (terms x) = 0%nat) as [Hm Hl] by (destruct (manager x); simpl in *; try lia; split; [done | lia]).
  assert (∀ t g, terms x !! t = Some g → live g = 0%nat) as Hall.
  { intros t g Hg%list_elem_of_lookup_2. by apply (sum_list_with_0 live (terms x)). }
  split; [done |]. split; [done |]. destruct (term (cons x)) as [t|] eqn:Ht; [|done].
  destruct (inv_current0 t eq_refl) as (g & Hg & Hr). specialize (Hall t g Hg). unfold live in Hall. rewrite Hr in Hall. simpl in Hall. lia.
Qed.

(** What a term has acknowledged or still may. *)
Definition can_ack (a : term_ack) : list string := acked a ++ pending (own a) ++ mjoin (commits a).

(** Nothing is sent, recorded or flushed by the goroutines of the terms any more; calls of
    [message.Commit] may still acknowledge what was delivered. *)
Definition acks_rest (x0 x : instance) : Prop :=
  ∀ t a, acks x !! t = Some a → ∃ a0, acks x0 !! t = Some a0 ∧ can_ack a ⊆ can_ack a0.

(** Only a call that was in the handler already hands its message over. *)
Definition at_rest (x0 x : instance) : Prop :=
  waited (closing x) ∧ terms x = terms x0 ∧ acks_rest x0 x ∧
  ((handled x = handled x0 ∧ ∀ t id, sub x = SubHandler t id → sub x0 = SubHandler t id) ∨
   (∃ t id, sub x0 = SubHandler t id ∧ handled x = handled x0 ++ [(t, id)] ∧ ∀ t id, sub x ≠ SubHandler t id)).

Lemma at_rest_caller o x0 x x' :
  term (cons x) = None → caller_step o x = Some x' → at_rest x0 x → at_rest x0 x'.
Proof.
  intros Hn Hst (Hw & Ht & Hk & Hh). destruct o as [| | | | | | | | | | | | | | | |cs| | | | | |]; try done; simpl in Hst.
  - destruct (match cs with CaseClosed => closeCtx x | _ => true end); [|done].
    destruct (subscribe_step cs (sub x) (cons x)) as [[c p]|] eqn:Hs; [|done]. injection Hst as <-.
    assert (∀ t id, p ≠ SubHandler t id) as Hp.
    { intros t id ->. destruct (sub x), cs; simpl in Hs; unfold isCurrentTerm in Hs; rewrite ?Hn in Hs;
        repeat case_match; simplify_eq. }
    do 3 (split; [done |]). simpl. destruct Hh as [[Hh _] | (t & id & ? & ? & _)]; [left | right; eauto].
    split; [done |]. intros t id Hx. by destruct (Hp t id).
  - destruct (sub x) as [| | | | t id |] eqn:Hs; try done. injection Hst as <-.
    do 3 (split; [done |]). simpl. destruct Hh as [[Hh Hx] | (? & ? & ? & ? & Hx)]; [|by destruct (Hx t id)].
    right. exists t, id. rewrite Hh. split_and!; [by apply Hx | done | done].
  - destruct (sub x) eqn:Hs; try done. injection Hst as <-. do 3 (split; [done |]). simpl.
    destruct Hh as [[Hh _] | (t & id & ? & ? & _)]; [by left | right; eauto].
Qed.

Lemma Commit_can_ack a : can_ack (Commit a) ⊆ can_ack a.
Proof.
  unfold Commit, can_ack. destruct (flush_take (own a)) as [[k ids]|] eqn:Hf; [|done].
  apply flush_take_Some in Hf as (_ & _ & -> & _ & _). simpl. rewrite join_app. simpl. set_solver.
Qed.

Lemma xack_can_ack ids i failed ran a :
  commits a !! i = Some ids →
  can_ack (xack ids failed ran (set_commits (delete i (commits a)) a)) ⊆ can_ack a.
Proof.
  intros Hi id. unfold can_ack, xack. simpl. pose proof (join_delete _ _ _ id Hi).
  destruct failed, (ran || _); simpl; set_solver.
Qed.

Lemma at_rest_message o x0 x x' : message_step o x = Some x' → at_rest x0 x → at_rest x0 x'.
Proof.
  intros Hst (Hw & Ht & Hk & Hh).
  assert (∀ t a a', acks x !! t = Some a → can_ack a' ⊆ can_ack a → at_rest x0 (set_ack t a' x)) as Hset.
  { intros t a a' Ha Hs. do 2 (split; [done |]). split; [|done]. intros u b Hb. simpl in Hb.
    apply list_lookup_insert_Some in Hb as [(<- & <- & _) | [_ Hb]]; [|by apply Hk].
    destruct (Hk t a Ha) as (a0 & Ha0 & Hs0). exists a0. split; [done |]. by etrans. }
  unfold message_step in Hst.
  destruct o as [| | | | |t id|t|t id|t id|t i failed ran|t|t|t failed ran|t|t|t| | | | | | |]; try done;
    destruct (acks x !! t) as [a|] eqn:Ha; try done; simpl in Hst.
  - case_match; [|done]. injection Hst as <-. apply (Hset t a); [done |].
    unfold can_ack, Mark, mark. simpl. by case_match.
  - case_match; [|done]. injection Hst as <-. apply (Hset t a); [done | apply Commit_can_ack].
  - destruct (commits a !! i) as [ids|] eqn:Hi; [|done]. injection Hst as <-.
    apply (Hset t a); [done | by apply xack_can_ack].
Qed.

Lemma inst_exec_other m n o s s' : m ≠ n → inst_exec LeaseTTL Buffer m o s = Some s' → insts s' !! n = insts s !! n.
Proof.
  intros Hne He. unfold inst_exec in He. destruct (insts s !! m) as [y|]; [|done]. simpl in He.
  unfold manager_step, close_step, RedisLeader.attempt in He.
  destruct o; repeat case_match; simplify_eq; try done; simpl; try (by rewrite lookup_insert_ne).
  all: repeat match goal with H : (_ ≫= _) = Some _ |- _ => apply bind_Some in H as (? & ? & ?) end; simplify_eq; simpl;
    by rewrite lookup_insert_ne.
Qed.

Lemma term_step_ended o x : (∀ t g, terms x !! t = Some g → live g = 0%nat) → term_step Buffer o x = None.
Proof.
  intros Hl. destruct o; try done; simpl; destruct (terms x !! t) as [g|] eqn:Hg; try done; simpl;
    specialize (Hl t g Hg); unfold live in Hl;
    destruct (reader g), (committer g), (maintainer g); simpl in *; try done; try lia;
    destruct (acks x !! t) as [a|]; try done; simpl;
    first [done | by destruct (sending a) | by destruct (ticking a)].
Qed.

Lemma exec_at_rest n x0 o s s' :
  exec o s = Some s' → sys_inv s ∧ (∃ x, insts s !! n = Some x ∧ at_rest x0 x) →
  sys_inv s' ∧ (∃ x, insts s' !! n = Some x ∧ at_rest x0 x).
Proof.
  intros He [Hs (x & Hx & Hr)]. split; [by eapply leader_exec_inv |].
  destruct (Hs n x Hx) as [Hi _]. destruct (waited_quiet x Hi (proj1 Hr)) as (Hm & Hl & Ht).
  assert (∀ l x1, at_rest x0 x1 → ∃ x2, <[n := x1]> (insts (set_key l s)) !! n = Some x2 ∧ at_rest x0 x2) as Hsame.
  { intros l x1 Hx1. exists x1. by rewrite lookup_insert_eq. }
  destruct o as [m | d | m o]; simpl in He.
  - destruct (insts s !! m) eqn:Hmm; [done |]. injection He as <-. exists x. split; [|done]. simpl. rewrite lookup_insert_ne; congruence.
  - destruct (0 <=? d); [|done]. injection He as <-. eauto.
  - destruct (decide (m = n)) as [-> | Hne].
    + unfold inst_exec in He. rewrite Hx in He. simpl in He.
      destruct o; unfold manager_step in He; rewrite ?Hm in He; try done.
      1: by (rewrite term_step_ended in He).
      1: by (rewrite term_step_ended in He).
      1-3: destruct (message_step _ x) as [x'|] eqn:Hst; [|done]; injection He as <-;
        apply (Hsame (key s)); by eapply at_rest_message.
      1-6: by (rewrite term_step_ended in He).
      1-3: destruct (caller_step _ x) as [x'|] eqn:Hst; [|done]; injection He as <-;
        apply (Hsame (key s)); by eapply at_rest_caller.
      all: unfold close_step in He; destruct (closing x) eqn:Hc; try done; destruct Hr as ([Hw | Hw] & Htt & Hk & Hh); try congruence.
      * injection He as <-. apply (Hsame (key s)). split; [by left; rewrite <- Hc | done].
      * injection He as <-. apply (Hsame (key s)). split; [by right; rewrite <- Hc | done].
      * injection He as <-. destruct (ran || negb failed).
        -- apply (Hsame (releaseScript (now s) n (key s)).1). split; [by right | done].
        -- apply (Hsame (key s)). split; [by right | done].
    + apply (inst_exec_other m n) in He; [|done]. rewrite He. eauto.
Qed.

Lemma at_rest_refl x : waited (closing x) → at_rest x x.
Proof. intros Hw. split; [done |]. split; [done |]. split; [|by left]. intros t a Ha. by exists a. Qed.

Lemma run_at_rest n x0 os s s' :
  run os s = Some s' → sys_inv s → (∃ x, insts s !! n = Some x ∧ at_rest x0 x) →
  sys_inv s' ∧ ∃ x, insts s' !! n = Some x ∧ at_rest x0 x.
Proof.
  intros Hr Hs Hx. eapply (run_Some exec (λ s, sys_inv s ∧ ∃ x, insts s !! n = Some x ∧ at_rest x0 x)); [|exact Hr | by split].
  intros o s1 s2. by apply exec_at_rest.
Qed.

Lemma inst_exec_key n o s s' : inst_exec LeaseTTL Buffer n o s = Some s' →
  now s' = now s ∧
  (key s' = key s ∨ key s' = (releaseScript (now s) n (key s)).1 ∨
   (key s' = (leaseScript (now s) LeaseTTL n (key s)).1 ∧ ∃ x, insts s !! n = Some x ∧ manager x ≠ MExit)).
Proof.
  intros He. unfold inst_exec in He. destruct (insts s !! n) as [x|] eqn:Hx; [|done]. simpl in He.
  destruct o as [| failed ran | | | | | | | | | | | | | | | | | | | | | failed ran]; unfold manager_step, close_step in He.
  2: { destruct (manager x) eqn:Hm; try done;
       (destruct (attempt n failed ran s x) as [[s1 x1] [held errored]] eqn:Hat; injection He as <-;
        apply attempt_spec in Hat as [[-> | ->] _]; simpl; split; [done | by left | done |]; right; right;
        split; [done |]; exists x; by rewrite Hm). }
  all: try (repeat case_match; simplify_eq; by auto).
  all: apply bind_Some in He as (? & _ & [= <-]); simpl; auto.
Qed.

(** The lease is not the instance's, or has expired. *)
Definition gone (n : string) (s : sys) : Prop := ∀ e, key s = Some (n, e) → e ≤ now s.

Lemma gone_live n s : gone n s → live_owner (now s) (key s) ≠ Some n.
Proof.
  intros Hg. unfold live_owner. destruct (key s) as [[m e]|] eqn:Hk; [|done].
  destruct (Z.ltb_spec (now s) e); [|done]. intros [= ->]. specialize (Hg e Hk). lia.
Qed.

Lemma exec_gone n o s s' x :
  exec o s = Some s' → insts s !! n = Some x → manager x = MExit → gone n s → gone n s'.
Proof.
  intros He Hx Hm Hg. destruct o as [m | d | m o]; simpl in He.
  - destruct (insts s !! m); [done |]. by injection He as <-.
  - destruct (Z.leb_spec 0 d); [|done]. injection He as <-. intros e Hk. specialize (Hg e Hk). simpl. lia.
  - apply inst_exec_key in He as [Hn [Hk | [Hk | (Hk & y & Hy & Hne)]]]; intros e; rewrite Hk, Hn.
    + apply Hg.
    + unfold releaseScript. destruct (live_owner _ _); [case_decide |]; [done | apply Hg | apply Hg].
    + assert (m ≠ n) by congruence. unfold leaseScript. destruct (live_owner _ _); [case_decide |]; try apply Hg.
      all: intros [= -> _]; done.
Qed.

(** ** Close returns *)

Definition rank (m : manager_pc) : nat :=
  match m with
  | MExit => 0 | MTop | MSleep => 1 | MLead _ _ => 2 | MRenewed _ _ _ _ => 3 | MRenew _ _ => 4
  | MTried held _ => if held then 8 else 2 | MTry => 9
  end.

(** What the goroutines of a term must still do before they may end. *)
Definition owes (a : term_ack) : nat :=
  (if sending a then 1 else 0) + (if ticking a then 1 else 0) + (if lastFlush a then 0 else 2).

Definition remaining (x : instance) : nat :=
  rank (manager x) + sum_list_with live (terms x) + sum_list_with owes (acks x).

(** The steps of a closing instance that no choice of a select can put off. *)
Definition closing_step (o : leader_op) : bool :=
  match o with
  | OManage | OScript _ _ | OReply | OClosed | ORecord _ | OLastFlush _ | OTickAcked _ _ _
  | OReaderEnd _ | OCommitEnd _ | OMaintainEnd _ | OWaited | ORelease _ _ => true
  | _ => false
  end.

Lemma manager_progress n s x :
  insts s !! n = Some x → closeCtx x = true → manager x ≠ MExit →
  ∃ o s' x', closing_step o = true ∧ inst_exec LeaseTTL Buffer n o s = Some s' ∧ insts s' !! n = Some x' ∧
    closing x' = closing x ∧ (remaining x' < remaining x)%nat.
Proof.
  intros Hx Hc Hm. unfold inst_exec. rewrite Hx.
  assert (∀ o s' x', closing_step o = true → manager_step LeaseTTL n o s x = Some s' →
    match o with OManage | OScript _ _ | OReply | OTick | OClosed => true | _ => false end = true →
    insts s' !! n = Some x' → closing x' = closing x → (remaining x' < remaining x)%nat →
    ∃ o s' x', closing_step o = true ∧
      (Some x ≫= λ x, match o with
        | OManage | OScript _ _ | OReply | OTick | OClosed => manager_step LeaseTTL n o s x
        | OSend _ _ | ORecord _ | OTickFlush _ | OLastFlush _ | OTickAcked _ _ _
        | OReaderEnd _ | OCommitEnd _ | OMaintainEnd _ => x ← term_step Buffer o x; Some (set_inst n x s)
        | OMark _ _ | OCommit _ _ | OCommitAcked _ _ _ _ => x ← message_step o x; Some (set_inst n x s)
        | OSub _ | OHandle | OAgain => x ← caller_step o x; Some (set_inst n x s)
        | OCancel | OClose | OWaited | ORelease _ _ => close_step n o s x
        end) = Some s' ∧ insts s' !! n = Some x' ∧
      closing x' = closing x ∧ (remaining x' < remaining x)%nat) as Hgo.
  { intros o s' x' Ho Hst Hk Hi Hcl Hr. exists o, s', x'. split_and!; auto. by destruct o. }
  unfold remaining in *. unfold manager_step in Hgo.
  destruct (manager x) as [| | held errored | | t r | t r | t r held errored |] eqn:Hmm; try done.
  - eapply (Hgo OManage); [done | done | done | simpl; apply lookup_insert_eq | |]; rewrite Hc; simpl; [done | lia].
  - eapply (Hgo (OScript true false)); [done | done | done | simpl; apply lookup_insert_eq | |]; simpl; [done | lia].
  - eapply (Hgo OReply); [done | done | done | simpl; apply lookup_insert_eq | |]; destruct held; simpl; try done; [|lia].
    rewrite !sum_list_with_app. simpl. lia.
  - eapply (Hgo OClosed); [done | simpl; rewrite Hc; done | done | simpl; apply lookup_insert_eq | |]; simpl; [done | lia].
  - eapply (Hgo OClosed); [done | simpl; rewrite Hc; done | done | simpl; apply lookup_insert_eq | |]; simpl; [done |].
    rewrite sum_live_stop. lia.
  - eapply (Hgo (OScript true false)); [done | done | done | simpl; apply lookup_insert_eq | |]; simpl; [done | lia].
  - eapply (Hgo OReply); [done | done | done | simpl; apply lookup_insert_eq | |];
      destruct (runLeader_tick _ _ _ _ _); simpl; try done; [lia |]. rewrite sum_live_stop. lia.
Qed.

Lemma owes_set_ack t a a' x :
  acks x !! t = Some a → (owes a' < owes a)%nat → (remaining (set_ack t a' x) < remaining x)%nat.
Proof.
  intros Ha Hlt. unfold remaining. simpl. pose proof (sum_list_with_insert owes (acks x) t a a' Ha). lia.
Qed.

Lemma live_set_terms t g g' c x :
  terms x !! t = Some g → live g = S (live g') →
  (remaining (add_wg (-1) (set_terms (<[t := g']> (terms x)) (set_cons c x))) < remaining x)%nat.
Proof.
  intros Hg Hl. unfold remaining. simpl. pose proof (sum_list_with_insert live (terms x) t g g' Hg). lia.
Qed.

Lemma tick_flush_owes a : lastFlush a = false → ticking a = None → (owes (tick_flush true a) < owes a)%nat.
Proof.
  intros Hf Ht. unfold tick_flush, owes. rewrite Hf, Ht.
  destruct (flush_take (own a)) as [[]|]; simpl; destruct (sending a); lia.
Qed.

(** A goroutine of a term whose context is done can go on. *)
Lemma term_progress x t g a :
  terms x !! t = Some g → acks x !! t = Some a → closeCtx x = true → (0 < live g)%nat →
  ∃ o x', closing_step o = true ∧ term_step Buffer o x = Some x' ∧ closing x' = closing x ∧
    (remaining x' < remaining x)%nat.
Proof.
  intros Hg Ha Hc Hpos. assert (term_done x g = true) as Hd by (unfold term_done; by rewrite Hc).
  unfold live in Hpos.
  destruct (reader g) eqn:Hr; [|destruct (committer g) eqn:Hcm; [|destruct (maintainer g) eqn:Hmt; [|simpl in *; lia]]].
  - destruct (sending a) as [id|] eqn:Hs.
    + exists (ORecord t), (set_ack t (recorded id a) x). simpl. rewrite Hg, Ha. simpl. rewrite Hs, Hr. simpl.
      split_and!; [done.. |]. apply (owes_set_ack t a); [done |]. unfold owes, recorded. simpl. rewrite Hs. lia.
    + eexists (OReaderEnd t), _. simpl. rewrite Hg, Ha. simpl. rewrite Hs, Hr, Hd. simpl.
      split_and!; [done.. |]. apply (live_set_terms t g); [done |]. unfold live. rewrite Hr. simpl. lia.
  - destruct (ticking a) as [ids|] eqn:Htk; [|destruct (lastFlush a) eqn:Hlf].
    + eexists (OTickAcked t false true), _. simpl. rewrite Hg, Ha. simpl. rewrite Htk, Hcm. simpl.
      split_and!; [done.. |]. apply (owes_set_ack t a); [done |]. unfold owes. simpl. rewrite Htk. lia.
    + eexists (OCommitEnd t), _. simpl. rewrite Hg, Ha. simpl. rewrite Hcm, Hd, Hlf, Htk. simpl.
      split_and!; [done.. |].
      apply (live_set_terms t g (MkGoroutines (stopped g) (reader g) false (maintainer g)) (cons x)); [done |].
      unfold live. rewrite Hcm, Hr. simpl. lia.
    + eexists (OLastFlush t), _. simpl. rewrite Hg, Ha. simpl. rewrite Hcm, Hd, Hlf, Htk. simpl.
      split_and!; [done.. |]. apply (owes_set_ack t a); [done | by apply tick_flush_owes].
  - eexists (OMaintainEnd t), _. simpl. rewrite Hg. simpl. rewrite Hmt, Hd. simpl.
    split_and!; [done.. |].
    apply (live_set_terms t g (MkGoroutines (stopped g) (reader g) (committer g) false) (cons x)); [done |].
    unfold live. rewrite Hcm, Hr, Hmt. simpl. lia.
Qed.

Lemma goroutine_progress n s x :
  insts s !! n = Some x → inst_inv x → closeCtx x = true → (0 < sum_list_with live (terms x))%nat →
  ∃ o s' x', closing_step o = true ∧ inst_exec LeaseTTL Buffer n o s = Some s' ∧ insts s' !! n = Some x' ∧
    closing x' = closing x ∧ (remaining x' < remaining x)%nat.
Proof.
  intros Hx Hi Hc (t & g & Hg & Hpos)%sum_list_with_pos.
  assert (is_Some (acks x !! t)) as [a Ha].
  { apply lookup_lt_is_Some. rewrite (inv_acks x Hi). by eapply lookup_lt_Some. }
  destruct (term_progress x t g a Hg Ha Hc Hpos) as (o & x' & Ho & Hst & Hcl & Hr).
  exists o, (set_inst n x' s), x'. split; [done |]. split; [|split; [apply lookup_insert_eq | done]].
  unfold inst_exec. rewrite Hx. simpl. destruct o; try done; by rewrite Hst.
Qed.

Lemma close_runs k n s x :
  (remaining x ≤ k)%nat → sys_inv s → insts s !! n = Some x → closing x = CloseWait →
  ∃ os s' x', Forall (λ o, closing_step o = true) os ∧ (length os ≤ k + 2)%nat ∧ run (On n <$> os) s = Some s' ∧
    insts s' !! n = Some x' ∧ closing x' = CloseDone.
Proof.
  revert s x. induction k as [k IH] using lt_wf_ind. intros s x Hk Hs Hx Hc.
  destruct (Hs n x Hx) as [Hi _]. assert (closeCtx x = true) as Hcc by (apply (inv_close x Hi); by rewrite Hc).
  destruct (decide (wg x = 0)) as [Hz | Hz].
  - eexists [OWaited; ORelease false true], _, _. split; [by repeat constructor |]. split; [simpl; lia |].
    unfold RedisLeader.run, inst_exec. simpl. unfold inst_exec. rewrite Hx. simpl. rewrite Hc, Hz. simpl.
    unfold inst_exec. simpl. rewrite lookup_insert_eq. simpl. split; [done |]. simpl. by rewrite lookup_insert_eq.
  - assert (∃ o s' x', closing_step o = true ∧ inst_exec LeaseTTL Buffer n o s = Some s' ∧ insts s' !! n = Some x' ∧
      closing x' = closing x ∧ (remaining x' < remaining x)%nat) as (o & s1 & x1 & Ho & He & Hx1 & Hc1 & Hr).
    { assert (manager x = MExit ∨ manager x ≠ MExit) as [Hm |] by (destruct (manager x); auto); [| by apply manager_progress].
      apply goroutine_progress; [done.. |]. pose proof (inv_wg x Hi) as Hw. rewrite Hm in Hw. simpl in Hw. lia. }
    destruct (IH (remaining x1) ltac:(lia) s1 x1) as (os & s' & x' & Hos & Hlen & Hrun & Hx' & Hd);
      [lia | by apply (leader_exec_inv (On n o) s) | done | congruence |].
    exists (o :: os), s', x'. split; [by constructor |]. split; [simpl; lia |]. split; [|done].
    unfold RedisLeader.run in *. simpl. by rewrite He.
Qed.
End invariant.

(** The lease of a leader. *)
Lemma leader_lease ttl s n x l :
  sys_inv ttl s → insts s !! n = Some x → leads (manager x) = Some l →
  ∃ g, granted x = Some g ∧ g ≤ now s ∧ (now s < g + ttl → live_owner (now s) (key s) = Some n).
Proof.
  intros Hs Hx Hl. destruct (Hs n x Hx) as (Hi & Hw & Hh).
  destruct Hw as [g Hg]; [left; congruence |]. destruct (Hh g Hg) as [Hle Hk]. exists g. split_and!; [done.. |].
  intros Hlt. destruct Hk as (e & -> & He); [|done|].
  - intros Hc. assert (wg x = 0) by (apply (inv_wait ttl x Hi); by right).
    assert (manages (manager x) = 1) by (by destruct (manager x)). pose proof (inv_wg ttl x Hi). lia.
  - unfold live_owner. destruct (Z.ltb_spec (now s) e); [done | lia].
Qed.

(** * The theorems *)

(** C3. Closing: the wait group counts the goroutines that run, so it is never negative and
    nothing is added to it while it is zero.  Once the wait in Close is over the manager
    and the goroutines of every term have ended and no term is current; whatever happens
    from then on they do not come back and no message goes to the handler, a call that was
    in it apart.  A call of [message.Commit] may still acknowledge then, but only what the
    terms had recorded as delivered; and at any time what is acknowledged is at or below a
    message of its term that the handler was given.  If the script that releases the lease
    ran, the instance never has it again.  A Close that waits can always go on to its end,
    in a number of steps bounded by what is left to end. *)
Theorem leader_close ttl buffer os s n x :
  0 < ttl → run ttl buffer os sys_init = Some s → insts s !! n = Some x →
  wg x = manages (manager x) + Z.of_nat (sum_list_with live (terms x)) ∧
  (waited (closing x) →
    manager x = MExit ∧ (∀ t g, terms x !! t = Some g → live g = 0%nat) ∧ term (cons x) = None ∧
    ∀ os' s', run ttl buffer os' s = Some s' → ∃ x', insts s' !! n = Some x' ∧ manager x' = MExit ∧ terms x' = terms x ∧
      (handled x' = handled x ∨ ∃ t id, sub x = SubHandler t id ∧ handled x' = handled x ++ [(t, id)]) ∧
      (∀ t a', acks x' !! t = Some a' → ∃ a, acks x !! t = Some a ∧
         acked a' ⊆ acked a ++ pending (own a) ++ mjoin (commits a))) ∧
  (∀ t a id, acks x !! t = Some a → id ∈ acked a → ∃ m, got x t m ∧ compareID id m ≤ 0) ∧
  (∀ failed ran s1 os' s', inst_exec ttl buffer n (ORelease failed ran) s = Some s1 → ran || negb failed = true →
    run ttl buffer os' s1 = Some s' → live_owner (now s') (key s') ≠ Some n) ∧
  (closing x = CloseWait → ∃ os' s' x', Forall (λ o, closing_step o = true) os' ∧
    (length os' ≤ remaining x + 2)%nat ∧ run ttl buffer (On n <$> os') s = Some s' ∧
    insts s' !! n = Some x' ∧ closing x' = CloseDone).
Proof.
  intros Httl Hr Hx. pose proof (leader_run_inv ttl buffer Httl os s Hr) as Hs. destruct (Hs n x Hx) as [Hi _].
  split; [apply Hi |]. split; [|split; [|split]].
  - intros Hw. destruct (waited_quiet ttl x Hi Hw) as (Hm & Hl & Ht). do 3 (split; [done |]).
    intros os' s' Hr'.
    destruct (run_at_rest ttl buffer Httl n x os' s s' Hr' Hs) as (Hs' & x' & Hx' & Hw' & Ht' & Hk & Hh);
      [exists x; split; [done | by apply at_rest_refl] |].
    exists x'. destruct (Hs' n x' Hx') as [Hi' _]. split; [done |].
    split; [by apply (waited_quiet ttl x' Hi') |]. split; [done |]. split.
    + destruct Hh as [[Hh _] | (t & id & ? & ? & _)]; [by left | right; eauto].
    + intros t a' Ha'. destruct (Hk t a' Ha') as (a & Ha & Hsub). exists a. split; [done |].
      unfold can_ack in Hsub. set_solver.
  - intros t a id Ha Hid. destruct (leader_run_acks ttl buffer Httl os s Hr n x Hx t a Ha) as (_ & Hm & Hk).
    destruct (Hk id) as (m & Hin & Hle); [set_solver | eauto].
  - intros failed ran s1 os' s' He Hran Hr'.
    assert (sys_inv ttl s1) as Hs1 by (by apply (leader_exec_inv ttl buffer Httl (On n (ORelease failed ran)) s)).
    unfold inst_exec in He. rewrite Hx in He. simpl in He. unfold close_step in He.
    destruct (closing x) eqn:Hc; try done. injection He as <-. rewrite Hran in *.
    apply (gone_live n s').
    assert ((sys_inv ttl s' ∧ ∃ x', insts s' !! n = Some x' ∧ at_rest (set_closing CloseDone x) x') ∧ gone n s') as [_ Hg]; [|done].
    eapply (run_Some (exec ttl buffer) (λ s, (sys_inv ttl s ∧ ∃ x', insts s !! n = Some x' ∧ at_rest (set_closing CloseDone x) x') ∧ gone n s)).
    + intros o s1 s2 He [[H1 (x1 & Hx1 & Hrest)] Hg]. split; [apply (exec_at_rest ttl buffer Httl n _ o s1 s2 He); eauto |].
      apply (exec_gone ttl buffer n o s1 s2 x1 He Hx1); [|done].
      destruct (H1 n x1 Hx1) as [Hi1 _]. by apply (waited_quiet ttl x1 Hi1 (proj1 Hrest)).
    + exact Hr'.
    + split; [split; [done |] |].
      * exists (set_closing CloseDone x). simpl. rewrite lookup_insert_eq. split; [done |].
        apply at_rest_refl. by right.
      * intros e Hk. simpl in *. unfold releaseScript, live_owner in Hk.
        destruct (key s) as [[m e']|]; [|done]. destruct (Z.ltb_spec (now s) e'); [|simpl in Hk; by simplify_eq].
        case_decide; simpl in Hk; by simplify_eq.
  - intros Hc. by eapply close_runs.
Qed.

(** C26. Leading: a term's context is not cancelled exactly while its instance leads it and
    is not closing; the leader then runs all three goroutines of the term.  Every leader was
    given the lease by the script, and has it until the time to live after the last time it
    was.  So when two instances lead at once, one of them has not been given the lease for
    the time to live, which its manager notices at its next answer: if its ticks are
    answered at most [R] apart and its last renewal took at most [D], the overlap lasts less
    than [R + D]. *)
Theorem leader_overlap ttl buffer os s n x :
  0 < ttl → run ttl buffer os sys_init = Some s → insts s !! n = Some x →
  (∀ t g, terms x !! t = Some g →
    term_done x g = false ↔ closeCtx x = false ∧ fst <$> leads (manager x) = Some t) ∧
  (∀ t r, leads (manager x) = Some (t, r) →
    (∃ g, terms x !! t = Some g ∧ stopped g = false ∧ (closeCtx x = false → live g = 3%nat)) ∧
    ∃ g, granted x = Some g ∧ g ≤ now s ∧ (now s < g + ttl → live_owner (now s) (key s) = Some n)) ∧
  (∀ m y lx ly, n ≠ m → insts s !! m = Some y → leads (manager x) = Some lx → leads (manager y) = Some ly →
    ∃ z t r g, (z = x ∨ z = y) ∧ leads (manager z) = Some (t, r) ∧ granted z = Some g ∧ g + ttl ≤ now s ∧
      ∀ R D, now s - answered z ≤ R → r - g ≤ D → now s < g + ttl + R + D).
Proof.
  intros Httl Hr Hx. pose proof (leader_run_inv ttl buffer Httl os s Hr) as Hs. destruct (Hs n x Hx) as (Hi & _).
  split; [|split].
  - intros t g Hg. rewrite <- (inv_leads ttl x Hi t g Hg). unfold term_done.
    destruct (closeCtx x), (stopped g); simpl; naive_solver.
  - intros t r Hl. split; [|by eapply leader_lease].
    destruct (inv_led ttl x Hi t r Hl) as [[g Hg]%lookup_lt_is_Some_2 _]. exists g.
    assert (stopped g = false) as Hst by (apply (inv_leads ttl x Hi t g Hg); by rewrite Hl).
    split; [done |]. split; [done |]. intros Hc. apply (inv_ended ttl x Hi t g Hg). unfold term_done. by rewrite Hc, Hst.
  - intros m y [t r] [u q] Hne Hy Hlx Hly. destruct (Hs m y Hy) as (Hi' & _).
    destruct (leader_lease ttl s n x _ Hs Hx Hlx) as (g & Hg & _ & Hk).
    destruct (leader_lease ttl s m y _ Hs Hy Hly) as (g' & Hg' & _ & Hk').
    destruct (decide (now s < g + ttl)) as [Hlt |].
    + destruct (decide (now s < g' + ttl)) as [Hlt' |]; [specialize (Hk Hlt); specialize (Hk' Hlt'); congruence |].
      exists y, u, q, g'. destruct (inv_led ttl y Hi' u q Hly) as [_ Ha]. split_and!; auto; [lia |]. intros. lia.
    + exists x, t, r, g. destruct (inv_led ttl x Hi t r Hlx) as [_ Ha]. split_and!; auto; [lia |]. intros. lia.
Qed.

(** ** A run *)

(** "a" leads, its reader buffers a message, the server does not hear from it for the time
    to live and "b" gets the lease; the renewal of "a" is refused and it stops leading, but
    its reader has not ended when its caller takes the message. *)
Definition lapse_run : list sys_op :=
  [New "a"; New "b"; On "a" OManage; On "a" (OScript false true); On "a" OReply; On "a" (OSend 0 "1-0"); On "a" (ORecord 0);
   On "b" OManage; Pass 15; On "b" (OScript false true); On "b" OReply; On "a" OTick].
Definition demote_run : list sys_op := [On "a" (OScript false true); On "a" OReply].
Definition take_run : list sys_op := [On "a" (OSub CaseMsg); On "a" (OSub CaseMsg); On "a" (OSub CaseMsg); On "a" OHandle].
Definition close_run : list sys_op :=
  [On "a" OClose; On "a" OManage; On "a" (OReaderEnd 0); On "a" (OLastFlush 0); On "a" (OCommitEnd 0); On "a" (OMaintainEnd 0); On "a" OWaited].

(** A demoted instance hands a buffered message to its handler although another one leads:
    the end of [runLeader] cancels the context of the term, but the term stays current until
    the goroutine that reads ends by itself, and only then are its messages held back. *)
Theorem leader_unfenced :
  (∃ s a b s' a', run 10 8 (lapse_run ++ demote_run) sys_init = Some s ∧
    insts s !! "a" = Some a ∧ insts s !! "b" = Some b ∧ leads (manager a) = None ∧ handled a = [] ∧
    is_Some (leads (manager b)) ∧ live_owner (now s) (key s) = Some "b" ∧
    run 10 8 take_run s = Some s' ∧ insts s' !! "a" = Some a' ∧ handled a' = [(0%nat, "1-0")]) ∧
  ∀ ttl buffer os s n x, 0 < ttl → run ttl buffer os sys_init = Some s → insts s !! n = Some x →
    ∀ t, term (cons x) = Some t → ∃ g, terms x !! t = Some g ∧ reader g = true.
Proof.
  split.
  - do 5 eexists. do 9 (split; [vm_compute; first [reflexivity | by eexists] |]). by vm_compute.
  - intros ttl buffer os s n x Httl Hr Hx. apply (leader_run_inv ttl buffer Httl os s Hr n x Hx).
Qed.

Definition lapsed : sys := default sys_init (run 10 8 lapse_run sys_init).
Definition closed_sys : sys := default sys_init (run 10 8 (lapse_run ++ demote_run ++ close_run) sys_init).

Lemma leader_overlap_witness :
  ∃ x y, insts lapsed !! "a" = Some x ∧ insts lapsed !! "b" = Some y ∧ now lapsed = 15 ∧ granted x = Some 0 ∧
    leads (manager x) = Some (0%nat, 0) ∧ leads (manager y) = Some (0%nat, 15) ∧
    ∃ z t r g, (z = x ∨ z = y) ∧ leads (manager z) = Some (t, r) ∧ granted z = Some g ∧ g + 10 ≤ now lapsed ∧
      ∀ R D, now lapsed - answered z ≤ R → r - g ≤ D → now lapsed < g + 10 + R + D.
Proof.
  eexists _, _. do 6 (split; [vm_compute; reflexivity |]).
  refine (proj2 (proj2 (leader_overlap 10 8 lapse_run lapsed "a" _ ltac:(lia) _ _)) "b" _ _ _ _ _ _ _).
  all: try (vm_compute; reflexivity). done.
Defined.

(** A message that is marked and committed after Close returned is still acknowledged. *)
Definition late_run : list sys_op :=
  [New "a"; On "a" OManage; On "a" (OScript false true); On "a" OReply; On "a" (OSend 0 "1-0"); On "a" (ORecord 0)]
  ++ take_run ++ [On "a" OClose; On "a" OClosed; On "a" OManage; On "a" (OReaderEnd 0); On "a" (OLastFlush 0);
    On "a" (OCommitEnd 0); On "a" (OMaintainEnd 0); On "a" OWaited; On "a" (ORelease false true);
    On "a" (OMark 0 "1-0"); On "a" (OCommit 0 "1-0"); On "a" (OCommitAcked 0 0 false true)].

Lemma commit_after_close :
  ∃ s x a, run 10 8 late_run sys_init = Some s ∧ insts s !! "a" = Some x ∧ closing x = CloseDone ∧
    acks x !! 0%nat = Some a ∧ acked a = ["1-0"].
Proof. do 3 eexists. by vm_compute. Qed.

Definition released_sys : sys := default sys_init (inst_exec 10 8 "a" (ORelease false true) closed_sys).

Lemma leader_close_witness :
  ∃ x, insts closed_sys !! "a" = Some x ∧ closing x = CloseRelease ∧ handled x = [] ∧
    inst_exec 10 8 "a" (ORelease false true) closed_sys = Some released_sys ∧
    live_owner (now released_sys) (key released_sys) ≠ Some "a".
Proof.
  eexists. do 4 (split; [vm_compute; reflexivity |]).
  refine (proj1 (proj2 (proj2 (proj2 (leader_close 10 8 (lapse_run ++ demote_run ++ close_run) closed_sys "a"
    (default NewConsumer (insts closed_sys !! "a")) ltac:(lia) _ _)))) false true released_sys [] released_sys _ _ _).
  all: vm_compute; reflexivity.
Defined.
