(* ===== verification/RedisZ.v ===== *)
(** * Sorted sets and hashes of the Redis server

    Redis is not part of the repository: the commands on sorted sets and hashes
    are a class, of which the clients use the documented behaviour [RedisZLaws] of
    a server that answers.  Scores are whole numbers of seconds here (the clients
    convert them to doubles, exactly below 2^53).  [zstore] is a concrete instance. *)

From S2P Require Import Prelude Redis.

Local Open Scope Z_scope.

Class RedisZ := {
  zserver : Type;
  ZAdd : string → Z → string → zserver → zserver * (unit + redis_err);
  ZRem : string → string → zserver → zserver * (unit + redis_err);
  ZScore : string → string → zserver → zserver * (Z + redis_err);
  ZCard : string → zserver → zserver * (Z + redis_err);
  ZRangeByScore : string → Z → Z → Z → zserver → zserver * (list string + redis_err);
  HSet : string → string → string → zserver → zserver * (unit + redis_err);
  HDel : string → string → zserver → zserver * (unit + redis_err);
  HGet : string → string → zserver → zserver * (string + redis_err)
}.

(** The members of a sorted set, by score and then by name. *)
Definition zle (a b : string * Z) : Prop := a.2 < b.2 ∨ (a.2 = b.2 ∧ String.leb a.1 b.1 = true).
#[export] Instance zle_dec a b : Decision (zle a b).
Proof. unfold zle. apply _. Defined.

Definition zsorted (m : gmap string Z) : list (string * Z) := merge_sort zle (map_to_list m).

Definition in_range (lo hi : Z) (e : string * Z) : Prop := lo ≤ e.2 ≤ hi.
#[export] Instance in_range_dec lo hi e : Decision (in_range lo hi e).
Proof. unfold in_range. apply _. Defined.

(** [LIMIT 0 count], which the client library leaves out when [count] is 0 and by
    which a negative [count] is no limit. *)
Definition limit {A} (count : Z) (l : list A) : list A :=
  if count <=? 0 then l else take (Z.to_nat count) l.

Definition zrange (lo hi count : Z) (m : gmap string Z) : list string :=
  limit count (fst <$> filter (in_range lo hi) (zsorted m)).

(** A server that answers every command, seen through its sorted sets and hashes. *)
Class RedisZLaws `(R : RedisZ) := {
  scores : zserver → string → gmap string Z;
  hashes : zserver → string → gmap string string;
  ZAdd_law k z m s : ∃ s', ZAdd k z m s = (s', inl tt) ∧ hashes s' = hashes s ∧
    ∀ k', scores s' k' = upd k (<[m := z]> (scores s k)) (scores s) k';
  ZRem_law k m s : ∃ s', ZRem k m s = (s', inl tt) ∧ hashes s' = hashes s ∧
    ∀ k', scores s' k' = upd k (delete m (scores s k)) (scores s) k';
  ZScore_law k m s :
    ZScore k m s = (s, match scores s k !! m with Some z => inl z | None => inr RedisNil end);
  ZCard_law k s : ZCard k s = (s, inl (Z.of_nat (size (scores s k))));
  ZRange_law k lo hi n s : ZRangeByScore k lo hi n s = (s, inl (zrange lo hi n (scores s k)));
  HSet_law k f v s : ∃ s', HSet k f v s = (s', inl tt) ∧ scores s' = scores s ∧
    ∀ k', hashes s' k' = upd k (<[f := v]> (hashes s k)) (hashes s) k';
  HDel_law k f s : ∃ s', HDel k f s = (s', inl tt) ∧ scores s' = scores s ∧
    ∀ k', hashes s' k' = upd k (delete f (hashes s k)) (hashes s) k';
  HGet_law k f s :
    HGet k f s = (s, match hashes s k !! f with Some v => inl v | None => inr RedisNil end)
}.

(** ** A concrete server *)

Record zstore := MkZStore {
  zs : gmap string (gmap string Z);
  hs : gmap string (gmap string string)
}.

Definition zs_at (s : zstore) (k : string) : gmap string Z := default ∅ (zs s !! k).
Definition hs_at (s : zstore) (k : string) : gmap string string := default ∅ (hs s !! k).

#[export] Instance zstore_redis : RedisZ := {|
  zserver := zstore;
  ZAdd k z m s := (MkZStore (<[k := <[m := z]> (zs_at s k)]> (zs s)) (hs s), inl tt);
  ZRem k m s := (MkZStore (<[k := delete m (zs_at s k)]> (zs s)) (hs s), inl tt);
  ZScore k m s := (s, match zs_at s k !! m with Some z => inl z | None => inr RedisNil end);
  ZCard k s := (s, inl (Z.of_nat (size (zs_at s k))));
  ZRangeByScore k lo hi n s := (s, inl (zrange lo hi n (zs_at s k)));
  HSet k f v s := (MkZStore (zs s) (<[k := <[f := v]> (hs_at s k)]> (hs s)), inl tt);
  HDel k f s := (MkZStore (zs s) (<[k := delete f (hs_at s k)]> (hs s)), inl tt);
  HGet k f s := (s, match hs_at s k !! f with Some v => inl v | None => inr RedisNil end)
|}.

Lemma default_insert {A} (k k' : string) (x d : A) (m : gmap string A) :
  default d (<[k := x]> m !! k') = upd k x (λ j, default d (m !! j)) k'.
Proof.
  unfold upd. case_decide; subst; [by rewrite lookup_insert_eq | by rewrite lookup_insert_ne].
Qed.

#[export] Instance zstore_laws : RedisZLaws zstore_redis.
Proof.
  refine (@Build_RedisZLaws zstore_redis zs_at hs_at _ _ _ _ _ _ _ _); try done;
    intros; eexists; (split; [reflexivity |]); (split; [done |]); intros k'; apply default_insert.
Defined.

(** ** The order of a sorted set *)

Lemma zle_score a b : zle a b → a.2 ≤ b.2.
Proof. unfold zle. lia. Qed.

#[export] Instance zle_total : Total zle.
Proof.
  intros a b. unfold zle. destruct (Z.lt_trichotomy a.2 b.2) as [| [He |]]; [auto | | auto].
  destruct (String.leb_total a.1 b.1); [left | right]; auto.
Qed.

Lemma zsorted_perm m : zsorted m ≡ₚ map_to_list m.
Proof. apply merge_sort_Permutation. Qed.

Lemma zsorted_sorted m : Sorted (λ a b : string * Z, a.2 ≤ b.2) (zsorted m).
Proof.
  assert (Hs : Sorted zle (zsorted m)) by apply (Sorted_merge_sort zle).
  induction Hs as [|x l Hs IH Hx]; constructor; [done |].
  destruct Hx; constructor. by apply zle_score.
Qed.

Lemma elem_of_zsorted m k z : (k, z) ∈ zsorted m ↔ m !! k = Some z.
Proof. rewrite zsorted_perm. apply elem_of_map_to_list. Qed.

Lemma zsorted_NoDup m : NoDup (fst <$> zsorted m).
Proof. rewrite zsorted_perm. apply NoDup_fst_map_to_list. Qed.

(** The entries up to a score come first. *)
Lemma filter_sorted_prefix (l : list (string * Z)) lo hi hi' :
  Sorted (λ a b : string * Z, a.2 ≤ b.2) l → hi ≤ hi' →
  filter (in_range lo hi) l `prefix_of` filter (in_range lo hi') l.
Proof.
  intros Hs Hle. apply Sorted_StronglySorted in Hs; [| intros ???; lia].
  induction Hs as [|a l Hs IH Ha]; [done |]. rewrite !filter_cons.
  destruct (decide (in_range lo hi a)) as [Hin | Hout].
  - rewrite decide_True by (unfold in_range in *; lia). by apply prefix_cons.
  - destruct (decide (in_range lo hi' a)) as [Hin' |]; [| done].
    assert (filter (in_range lo hi) l = []) as ->; [| apply prefix_nil].
    apply elem_of_nil_inv. intros x [Hr Hx]%list_elem_of_filter.
    rewrite Forall_forall in Ha. specialize (Ha x Hx). unfold in_range in *. lia.
Qed.

(** A full page does not change when the upper bound grows. *)
Lemma zrange_stable lo hi hi' count m :
  hi ≤ hi' → 0 < count → length (zrange lo hi count m) = Z.to_nat count →
  zrange lo hi' count m = zrange lo hi count m.
Proof.
  intros Hle Hc. unfold zrange, limit. destruct (Z.leb_spec count 0); [lia |].
  destruct (filter_sorted_prefix (zsorted m) lo hi hi') as [l ->]; [apply zsorted_sorted | done |].
  rewrite length_take, fmap_app. intros Hl. rewrite take_app_le; [done |]. lia.
Qed.

Lemma elem_of_zrange lo hi count m k :
  k ∈ zrange lo hi count m → ∃ z, m !! k = Some z ∧ lo ≤ z ≤ hi.
Proof.
  intros Hk. assert (k ∈ fst <$> filter (in_range lo hi) (zsorted m)) as Hk'.
  { unfold zrange, limit in Hk. destruct (count <=? 0); [done |].
    eapply elem_of_submseteq; [exact Hk | apply sublist_submseteq, sublist_take]. }
  apply list_elem_of_fmap in Hk' as ([k' z] & -> & [Hr Hz]%list_elem_of_filter).
  exists z. split; [by apply elem_of_zsorted | done].
Qed.

(** Without a limit, or with room for all, every entry of the range is listed. *)
Lemma zrange_all lo hi count m k z :
  m !! k = Some z → lo ≤ z ≤ hi →
  count ≤ 0 ∨ (length (filter (in_range lo hi) (map_to_list m)) ≤ Z.to_nat count)%nat →
  k ∈ zrange lo hi count m.
Proof.
  intros Hk Hz Hc.
  assert (Hin : k ∈ fst <$> filter (in_range lo hi) (zsorted m)).
  { apply list_elem_of_fmap. exists (k, z). split; [done |].
    apply list_elem_of_filter. split; [done | by apply elem_of_zsorted]. }
  unfold zrange, limit. destruct (Z.leb_spec count 0); [done |].
  rewrite take_ge; [done |]. destruct Hc as [| Hc]; [lia |].
  rewrite length_fmap. by rewrite zsorted_perm.
Qed.
