(* ===== verification/RedisTimer.v ===== *)
(** * The Redis timer (timer/redistimer)

    Timers are members of a sorted set per type, scored by their expiry in seconds,
    with their data in a hash.  The methods thread the server's state; a pipeline is
    the sequence of its commands (it is no transaction: every command is run, and the
    first error is reported).  Handlers are arbitrary computations on the server, so
    that they may register timers themselves.  Times are nanoseconds since the epoch;
    marshalling is a parameter. *)

From S2P Require Import Prelude Redis RedisZ.

Local Open Scope Z_scope.

Inductive timer_err :=
| ErrArgs (msg : string)
| EWrap (e : redis_err)
| EMarshalItem
| EHandler.

Section redistimer.
Context `{R : RedisZ} {T : Type}.

Definition M (A : Type) : Type := zserver → zserver * (A + timer_err).

#[export] Instance M_ret : MRet M := λ A x s, (s, inl x).
#[export] Instance M_bind : MBind M := λ A B f m s,
  let '(s, r) := m s in match r with inl x => f x s | inr e => (s, inr e) end.

Definition fail {A} (e : timer_err) : M A := λ s, (s, inr e).
Definition try {A} (m : M A) : M (A + timer_err) := λ s, let '(s, r) := m s in (s, inl r).

Definition reply {A} (c : zserver → zserver * (A + redis_err)) : M (A + redis_err) := λ s,
  let '(s, r) := c s in (s, inl r).
Definition command {A} (c : zserver → zserver * (A + redis_err)) : M A := λ s,
  let '(s, r) := c s in (s, match r with inl x => inl x | inr e => inr (EWrap e) end).

(** The replies of a pipeline, and the first error among them. *)
Fixpoint pipeline {A} (cmds : list (zserver → zserver * (A + redis_err))) : M (list (A + redis_err)) :=
  match cmds with
  | [] => mret []
  | c :: cmds' => r ← reply c; rs ← pipeline cmds'; mret (r :: rs)
  end.

Fixpoint first_err {A} (rs : list (A + redis_err)) : option redis_err :=
  match rs with
  | [] => None
  | inl _ :: rs' => first_err rs'
  | inr e :: _ => Some e
  end.

Definition exec (cmds : list (zserver → zserver * (unit + redis_err))) : M unit :=
  rs ← pipeline cmds;
  match first_err rs with None => mret tt | Some e => fail (EWrap e) end.

(** ** The manager *)

Definition Handler : Type := T → M unit.

Record RedisTimer := MkRedisTimer {
  keyFunc : T → string;
  handlers : gmap string Handler;
  marshal : T → option string;
  unmarshal : string → option T;
  namespace : string;
  pollInterval : Z;
  batchSize : Z;
  selfContainedKey : bool
}.

Definition Second : Z := 1000000000.

(** [any(itemKey).(T)], which succeeds when [T] is [string]. *)
Context (key_item : string → option T).

(** [jsonMarshal] and [jsonUnmarshal] are those of encoding/json. *)
Definition NewWithClient (jsonMarshal : T → option string) (jsonUnmarshal : string → option T)
    (keyFunc : option (T → string)) (handlers : gmap string Handler)
    (opts : list (RedisTimer → outcome RedisTimer)) : outcome (RedisTimer + timer_err) :=
  match keyFunc with
  | None => Ret (inr (ErrArgs "keyFunc is required"))
  | Some kf =>
      if decide (size handlers = 0%nat) then Ret (inr (ErrArgs "at least one handler is required"))
      else obind (fold_left (λ r opt, obind r opt) opts
                    (Ret (MkRedisTimer kf handlers jsonMarshal jsonUnmarshal "timer"
                            (5 * Second) 100 false)))
             (λ r, Ret (inl r))
  end.

Definition WithNamespace (ns : string) (r : RedisTimer) : outcome RedisTimer :=
  Ret (MkRedisTimer (keyFunc r) (handlers r) (marshal r) (unmarshal r) ns (pollInterval r)
         (batchSize r) (selfContainedKey r)).
Definition WithPollInterval (interval : Z) (r : RedisTimer) : outcome RedisTimer :=
  Ret (MkRedisTimer (keyFunc r) (handlers r) (marshal r) (unmarshal r) (namespace r) interval
         (batchSize r) (selfContainedKey r)).
Definition WithBatchSize (size : Z) (r : RedisTimer) : outcome RedisTimer :=
  Ret (MkRedisTimer (keyFunc r) (handlers r) (marshal r) (unmarshal r) (namespace r) (pollInterval r)
         size (selfContainedKey r)).
Definition WithMarshal (fn : T → option string) (r : RedisTimer) : outcome RedisTimer :=
  Ret (MkRedisTimer (keyFunc r) (handlers r) fn (unmarshal r) (namespace r) (pollInterval r)
         (batchSize r) (selfContainedKey r)).
Definition WithUnmarshal (fn : string → option T) (r : RedisTimer) : outcome RedisTimer :=
  Ret (MkRedisTimer (keyFunc r) (handlers r) (marshal r) fn (namespace r) (pollInterval r)
         (batchSize r) (selfContainedKey r)).
(** The option tests the zero value of the item type. *)
Definition WithSelfContainedKey (zero_is_string : bool) (r : RedisTimer) : outcome RedisTimer :=
  if zero_is_string
  then Ret (MkRedisTimer (keyFunc r) (handlers r) (marshal r) (unmarshal r) (namespace r)
              (pollInterval r) (batchSize r) true)
  else Panic "WithSelfContainedKey can only be used with string type".

Implicit Types (r : RedisTimer) (item : T) (timerType : string).

Definition getKey r timerType : string := namespace r +:+ ":" +:+ timerType +:+ ":timer".
Definition getDataKey r timerType : string := namespace r +:+ ":" +:+ timerType +:+ ":data".

(** [t.Unix()]. *)
Definition Unix (t : Z) : Z := t / Second.

(** The commands of a registration; marshalling comes before any of them is sent. *)
Definition register_cmds r timerType item (expireAt : Z)
    : M (list (zserver → zserver * (unit + redis_err))) :=
  let itemKey := keyFunc r item in
  let zadd := ZAdd (getKey r timerType) (Unix expireAt) itemKey in
  if selfContainedKey r then mret [zadd]
  else match marshal r item with
       | None => fail EMarshalItem
       | Some data => mret [zadd; HSet (getDataKey r timerType) itemKey data]
       end.

Definition RegisterAt r timerType item (expireAt : Z) : M unit :=
  cmds ← register_cmds r timerType item expireAt; exec cmds.

Definition Register r (now : Z) timerType item (timeout : Z) : M unit :=
  RegisterAt r timerType item (now + timeout).

Definition RegisterAtIfNotExists r timerType item (expireAt : Z) : M bool :=
  score ← reply (ZScore (getKey r timerType) (keyFunc r item));
  match score with
  | inl _ => mret false
  | inr RedisNil => cmds ← register_cmds r timerType item expireAt; exec cmds;; mret true
  | inr e => fail (EWrap e)
  end.

Definition RegisterIfNotExists r (now : Z) timerType item (timeout : Z) : M bool :=
  RegisterAtIfNotExists r timerType item (now + timeout).

(** The commands that remove a timer. *)
Definition remove_cmds r timerType (key : string) : list (zserver → zserver * (unit + redis_err)) :=
  ZRem (getKey r timerType) key ::
  (if selfContainedKey r then [] else [HDel (getDataKey r timerType) key]).

Definition Cancel r timerType (key : string) : M unit := exec (remove_cmds r timerType key).

(** Items whose data is missing or does not decode are logged and left out. *)
Definition getExpired r (now : Z) timerType (batchSize : Z) : M (list T) :=
  items ← command (ZRangeByScore (getKey r timerType) 0 (Unix now) batchSize);
  match items with
  | [] => mret []
  | _ =>
      if selfContainedKey r then mret (omap key_item items)
      else
        rs ← pipeline (HGet (getDataKey r timerType) <$> items);
        match first_err rs with
        | Some RedisErr => fail (EWrap RedisErr)
        | _ => mret (omap (λ x, match x with inl data => unmarshal r data | inr _ => None end) rs)
        end
  end.

(** The loop over the expired items: each with whether its handler succeeded. *)
Fixpoint run_handlers (handler : Handler) (items : list T) : M (list (T * bool)) :=
  match items with
  | [] => mret []
  | item :: items' =>
      res ← try (handler item);
      rest ← run_handlers handler items';
      mret ((item, match res with inl _ => true | inr _ => false end) :: rest)
  end.

(** The items of a pass whose handler succeeded. *)
Definition succeeded (rs : list (T * bool)) : list T := fst <$> filter (λ x, x.2 = true) rs.

(** Returns what the handlers of the pass did. *)
Definition processExpired r (now : Z) timerType (handler : Handler) : M (list (T * bool)) :=
  items ← getExpired r now timerType (batchSize r);
  match items with
  | [] => mret []
  | _ =>
      results ← run_handlers handler items;
      match succeeded results with
      | [] => mret results
      | done =>
          exec (done ≫= (λ item, remove_cmds r timerType (keyFunc r item)));; mret results
      end
  end.

(** One tick of [process]: the types in any order, errors logged. *)
Definition process_tick `{MapRange} r (now : Z) : M unit :=
  fold_left (λ m '(timerType, handler),
      m;; try (processExpired r now timerType handler);; mret tt)
    (range_map (handlers r)) (mret tt).

Definition GetPending r timerType : M Z := command (ZCard (getKey r timerType)).

(** ** What a pass sees *)

Context `{!RedisZLaws R}.

(** The item of a key of the sorted set. *)
Definition decode r timerType (s : zserver) (key : string) : option T :=
  if selfContainedKey r then key_item key
  else hashes s (getDataKey r timerType) !! key ≫= unmarshal r.

(** The items due in a pass: a page of the expired keys, those that decode. *)
Definition due r timerType (now : Z) (s : zserver) : list T :=
  omap (decode r timerType s) (zrange 0 (Unix now) (batchSize r) (scores s (getKey r timerType))).

(** * Lemmas *)

Lemma exec_cons c cmds s s1 : c s = (s1, inl tt) → exec (c :: cmds) s = exec cmds s1.
Proof.
  intros Hc. unfold exec. cbn [pipeline]. unfold mbind, M_bind, mret, M_ret, reply. rewrite Hc.
  by destruct (pipeline cmds s1) as [s2 [rs|e]].
Qed.

Lemma exec_nil s : exec [] s = (s, inl tt).
Proof. done. Qed.

(** Removing the timers of some keys. *)
Lemma exec_remove r timerType (keys : list string) s :
  ∃ s', exec (keys ≫= remove_cmds r timerType) s = (s', inl tt) ∧
    (∀ k, scores s' (getKey r timerType) !! k =
          if decide (k ∈ keys) then None else scores s (getKey r timerType) !! k) ∧
    (∀ k, hashes s' (getDataKey r timerType) !! k =
          if decide (k ∈ keys ∧ selfContainedKey r = false) then None
          else hashes s (getDataKey r timerType) !! k).
Proof.
  revert s. induction keys as [|key keys IH]; intros s.
  { exists s. split_and!; [done | |]; intros k; by rewrite decide_False by set_solver. }
  destruct (ZRem_law (getKey r timerType) key s) as (s1 & Hz & Hh1 & Hs1).
  assert (∃ s2, (∀ rest, exec (remove_cmds r timerType key ++ rest) s = exec rest s2) ∧
            scores s2 = scores s1 ∧
            hashes s2 (getDataKey r timerType) = if selfContainedKey r then hashes s (getDataKey r timerType)
                        else delete key (hashes s (getDataKey r timerType))) as (s2 & He & Hsc & Hha).
  { unfold remove_cmds. destruct (selfContainedKey r).
    - exists s1. split_and!; [| done | by rewrite Hh1]. intros rest. simpl. by apply exec_cons.
    - destruct (HDel_law (getDataKey r timerType) key s1) as (s2 & Hd & Hs2 & Hh2).
      exists s2. split_and!; [| done |].
      + intros rest. simpl. erewrite exec_cons by done. by apply exec_cons.
      + rewrite Hh2, Hh1. unfold upd. by rewrite decide_True. }
  destruct (IH s2) as (s' & Hx & Hks & Hkh). exists s'. split_and!.
  - by rewrite bind_cons, He.
  - intros k. rewrite Hks, Hsc, Hs1. unfold upd. rewrite (decide_True (P := getKey r timerType = _)) by done.
    destruct (decide (k = key)) as [-> | Hne].
    + rewrite lookup_delete_eq, (decide_True (P := key ∈ key :: keys)) by (by left). by destruct (decide _).
    + rewrite lookup_delete_ne by done.
      rewrite (decide_ext (k ∈ keys) (k ∈ key :: keys)); [done | rewrite elem_of_cons; naive_solver].
  - intros k. rewrite Hkh, Hha. destruct (selfContainedKey r).
    + by rewrite !decide_False by naive_solver.
    + destruct (decide (k = key)) as [-> | Hne].
      * rewrite lookup_delete_eq, (decide_True (P := key ∈ key :: keys ∧ _)) by (split; [by left | done]). by destruct (decide _).
      * rewrite lookup_delete_ne by done.
        rewrite (decide_ext (k ∈ keys ∧ false = false) (k ∈ key :: keys ∧ false = false)); [done | rewrite elem_of_cons; naive_solver].
Qed.

Lemma hgets_run dk items s :
  pipeline (HGet dk <$> items) s =
  (s, inl ((λ k, match hashes s dk !! k with Some v => inl v | None => inr RedisNil end) <$> items)).
Proof.
  induction items as [|k items IH]; [done |].
  cbn. unfold mbind, M_bind, reply. rewrite HGet_law. cbn in IH. by rewrite IH.
Qed.

Lemma first_err_nil (f : string → option string) items :
  first_err ((λ k, match f k with Some v => inl v | None => inr RedisNil end) <$> items) ≠ Some RedisErr.
Proof. induction items as [|k items IH]; simpl; [done |]. by destruct (f k). Qed.

Lemma getExpired_run r now timerType s :
  getExpired r now timerType (batchSize r) s = (s, inl (due r timerType now s)).
Proof.
  unfold getExpired, due, decode. unfold mbind at 1, M_bind at 1, command. rewrite ZRange_law.
  destruct (zrange _ _ _ _) as [|k items] eqn:Hr; [done |].
  destruct (selfContainedKey r); [done |].
  unfold mbind at 1, M_bind at 1. rewrite hgets_run. cbv beta iota.
  pose proof (first_err_nil (λ k, hashes s (getDataKey r timerType) !! k) (k :: items)) as Hf.
  cbv beta in Hf. set (l := k :: items) in *. clearbody l.
  destruct (first_err _) as [[]|]; [done | |];
    (unfold mret, M_ret; do 2 f_equal; clear Hf Hr;
     induction l as [|k' l IH]; [done |]; csimpl; rewrite IH; by destruct (_ !! k')).
Qed.

(** A handler leaves the timers of the type alone. *)
Definition frames r timerType (handler : Handler) : Prop :=
  ∀ item s, scores (handler item s).1 (getKey r timerType) = scores s (getKey r timerType) ∧
            hashes (handler item s).1 (getDataKey r timerType) = hashes s (getDataKey r timerType).

Lemma run_handlers_total handler items s :
  ∃ s' rs, run_handlers handler items s = (s', inl rs) ∧ fst <$> rs = items.
Proof.
  revert s. induction items as [|item items IH]; intros s; [by exists s, [] |].
  simpl. unfold mbind, M_bind, try. destruct (handler item s) as [s1 res].
  destruct (IH s1) as (s' & rs & -> & <-). by eexists s', (_ :: rs).
Qed.

Lemma run_handlers_frames r timerType handler items s s' rs :
  frames r timerType handler → run_handlers handler items s = (s', inl rs) →
  scores s' (getKey r timerType) = scores s (getKey r timerType) ∧
  hashes s' (getDataKey r timerType) = hashes s (getDataKey r timerType).
Proof.
  intros Hf. revert s rs. induction items as [|item items IH]; intros s rs; simpl.
  - unfold mret, M_ret. by intros [= <- _].
  - unfold mbind, M_bind, try. destruct (Hf item s) as [H1 H2].
    destruct (handler item s) as [s1 res]. simpl in *.
    destruct (run_handlers_total handler items s1) as (s2 & rs2 & Hr & _). rewrite Hr.
    intros [= <- _]. destruct (IH _ _ Hr) as [-> ->]. done.
Qed.

Lemma run_handlers_fail handler items s s' rs :
  (∀ item s, item ∈ items → ∃ e, (handler item s).2 = inr e) →
  run_handlers handler items s = (s', inl rs) → succeeded rs = [].
Proof.
  intros Hf. revert s s' rs. induction items as [|item items IH]; intros s s' rs; simpl.
  - unfold mret, M_ret. by intros [= _ <-].
  - unfold mbind, M_bind, try. destruct (Hf item s ltac:(by left)) as [e He].
    destruct (handler item s) as [s1 res]. simpl in He. subst res.
    destruct (run_handlers_total handler items s1) as (s2 & rs2 & Hr & _). rewrite Hr.
    intros [= _ <-]. unfold succeeded. cbn. apply (IH (λ x s Hx, Hf x s ltac:(by right)) _ _ _ Hr).
Qed.

(** A pass always completes: it runs the handlers on the due items and then removes
    the timers of those that succeeded. *)
Lemma processExpired_run r now timerType handler s :
  ∃ s1 s' results,
    run_handlers handler (due r timerType now s) s = (s1, inl results) ∧
    processExpired r now timerType handler s = (s', inl results) ∧
    fst <$> results = due r timerType now s ∧
    (∀ k, scores s' (getKey r timerType) !! k =
          if decide (k ∈ keyFunc r <$> succeeded results) then None
          else scores s1 (getKey r timerType) !! k) ∧
    (∀ k, hashes s' (getDataKey r timerType) !! k =
          if decide (k ∈ keyFunc r <$> succeeded results ∧ selfContainedKey r = false) then None
          else hashes s1 (getDataKey r timerType) !! k).
Proof.
  unfold processExpired. unfold mbind at 1, M_bind at 1. rewrite getExpired_run.
  destruct (run_handlers_total handler (due r timerType now s) s) as (s1 & rs & Hr & Hfst).
  destruct (exec_remove r timerType (keyFunc r <$> succeeded rs) s1) as (s2 & Hx & Hs & Hh).
  destruct (due r timerType now s) as [|item items] eqn:Hd.
  { exists s1, s, rs. cbn in Hr. unfold mret, M_ret in Hr. simplify_eq. split_and!; try done. }
  exists s1. unfold mbind at 1, M_bind at 1. rewrite Hr.
  destruct (succeeded rs) as [|it its] eqn:Hsu.
  { exists s1, rs. rewrite Hsu. split_and!; [done.. | |]; intros k; by rewrite decide_False by set_solver. }
  rewrite <- Hsu in Hx, Hs, Hh |- *. exists s2, rs. split_and!; [done | | done..].
  unfold mbind at 1, M_bind at 1.
  replace (succeeded rs ≫= λ x, remove_cmds r timerType (keyFunc r x))
    with ((keyFunc r <$> succeeded rs) ≫= remove_cmds r timerType) by (by rewrite list_fmap_bind).
  by rewrite Hx.
Qed.

Lemma exec_register r timerType item expireAt s cmds :
  register_cmds r timerType item expireAt s = (s, inl cmds) →
  ∃ s', exec cmds s = (s', inl tt) ∧
    scores s' (getKey r timerType) =
      <[keyFunc r item := Unix expireAt]> (scores s (getKey r timerType)) ∧
    (selfContainedKey r = false → ∃ data, marshal r item = Some data ∧
     hashes s' (getDataKey r timerType) = <[keyFunc r item := data]> (hashes s (getDataKey r timerType))).
Proof.
  unfold register_cmds. destruct (ZAdd_law (getKey r timerType) (Unix expireAt) (keyFunc r item) s)
    as (s1 & Hz & Hh1 & Hs1).
  destruct (selfContainedKey r).
  - intros [= <-]. exists s1. split_and!; [by erewrite exec_cons by done | | done].
    rewrite Hs1. unfold upd. by rewrite decide_True.
  - destruct (marshal r item) as [data|] eqn:Hm; [| done]. intros [= <-].
    destruct (HSet_law (getDataKey r timerType) (keyFunc r item) data s1) as (s2 & Hd & Hs2 & Hh2).
    exists s2. split_and!.
    + erewrite exec_cons by done. by erewrite exec_cons by done.
    + rewrite Hs2, Hs1. unfold upd. by rewrite decide_True.
    + intros _. exists data. split; [done |]. rewrite Hh2, Hh1. unfold upd. by rewrite decide_True.
Qed.

(** * Properties *)

(** C40. A timer fires: let [RegisterAt] have succeeded for an item whose marshalling can
    be undone.  In any later state in which the timer is as it was left (nobody has
    registered its key again or removed it), a pass at or after the expiry, in seconds,
    whose page has room for all expired timers runs the handler on the item: it runs it
    once on each of the due items, in order of expiry.  If, besides, the handlers leave the
    timers of the type alone, the pass removes exactly the timers of the items whose
    handler succeeded, data included, and every other timer stays; [reregistered_timer_lost]
    shows what becomes of a timer that is registered during the pass. *)
Theorem registered_timer_fires r timerType item expireAt now handler s s1 s2 :
  RegisterAt r timerType item expireAt s = (s1, inl tt) →
  scores s2 (getKey r timerType) !! keyFunc r item = scores s1 (getKey r timerType) !! keyFunc r item →
  hashes s2 (getDataKey r timerType) !! keyFunc r item = hashes s1 (getDataKey r timerType) !! keyFunc r item →
  0 ≤ Unix expireAt ≤ Unix now →
  (selfContainedKey r = false → ∀ data, marshal r item = Some data → unmarshal r data = Some item) →
  (selfContainedKey r = true → key_item (keyFunc r item) = Some item) →
  batchSize r ≤ 0 ∨
    (length (filter (in_range 0 (Unix now)) (map_to_list (scores s2 (getKey r timerType))))
     ≤ Z.to_nat (batchSize r))%nat →
  ∃ s3 results, processExpired r now timerType handler s2 = (s3, inl results) ∧
    fst <$> results = due r timerType now s2 ∧ item ∈ due r timerType now s2 ∧
    (frames r timerType handler →
     (∀ k, scores s3 (getKey r timerType) !! k =
           if decide (k ∈ keyFunc r <$> succeeded results) then None
           else scores s2 (getKey r timerType) !! k) ∧
     (selfContainedKey r = false → ∀ k, hashes s3 (getDataKey r timerType) !! k =
           if decide (k ∈ keyFunc r <$> succeeded results) then None
           else hashes s2 (getDataKey r timerType) !! k)).
Proof.
  intros Hreg Hss Hhs Ht Hrt Hkey Hroom.
  assert (∃ cmds, register_cmds r timerType item expireAt s = (s, inl cmds) ∧ exec cmds s = (s1, inl tt))
    as (cmds & Hc & He).
  { unfold RegisterAt, mbind, M_bind in Hreg. unfold register_cmds in *.
    destruct (selfContainedKey r); [by eexists |]. destruct (marshal r item); [by eexists | done]. }
  destruct (exec_register _ _ _ _ _ _ Hc) as (s1' & He' & Hs & Hh). rewrite He in He'. simplify_eq.
  destruct (processExpired_run r now timerType handler s2) as (sh & s3 & rs & Hrun & Hp & Hfst & Hks & Hkh).
  exists s3, rs. split_and!; [done | done | | intros Hf; split].
  - unfold due. apply list_elem_of_omap. exists (keyFunc r item). split.
    + apply zrange_all with (Unix expireAt); [by rewrite Hss, Hs, lookup_insert_eq | done | done].
    + unfold decode. destruct (selfContainedKey r); [auto |].
      destruct (Hh eq_refl) as (data & Hm & Hd). rewrite Hhs, Hd, lookup_insert_eq. simpl. auto.
  - destruct (run_handlers_frames r timerType _ _ _ _ _ Hf Hrun) as [Hfs Hfh].
    intros k. by rewrite Hks, Hfs.
  - destruct (run_handlers_frames r timerType _ _ _ _ _ Hf Hrun) as [Hfs Hfh].
    intros Hsc k. rewrite Hkh, Hfh.
    destruct (decide (k ∈ keyFunc r <$> succeeded rs)); [by rewrite decide_True | rewrite decide_False; naive_solver].
Qed.

(** A timer registered while its item is being handled is lost: whatever the
    handlers do to the server, by the end of the pass no timer with the key of an
    item whose handler succeeded exists, although the handler, or another client
    during it, has just registered that key again. *)
Theorem reregistered_timer_lost r now timerType handler s :
  ∃ s' results, processExpired r now timerType handler s = (s', inl results) ∧
    fst <$> results = due r timerType now s ∧
    ∀ item, (item, true) ∈ results → scores s' (getKey r timerType) !! keyFunc r item = None.
Proof.
  destruct (processExpired_run r now timerType handler s) as (s1 & s' & rs & _ & Hp & Hfst & Hks & _).
  exists s', rs. split_and!; [done.. |]. intros item Hin. rewrite Hks, decide_True; [done |].
  apply list_elem_of_fmap. exists item. split; [done |]. unfold succeeded.
  apply list_elem_of_fmap. exists (item, true). split; [done |]. by apply list_elem_of_filter.
Qed.

(** A page of failing timers starves the rest: when the first [batchSize] expired
    timers of a type keep failing (their handler reports an error, or their data is
    missing or does not decode), every later pass handles the same page and changes
    nothing, so that no timer beyond the page is ever handled. *)
Theorem failing_page_starves r timerType now handler s :
  0 < batchSize r →
  length (zrange 0 (Unix now) (batchSize r) (scores s (getKey r timerType))) = Z.to_nat (batchSize r) →
  frames r timerType handler →
  (∀ item s', item ∈ due r timerType now s → ∃ e, (handler item s').2 = inr e) →
  ∀ now', now ≤ now' →
  ∃ s' results, processExpired r now' timerType handler s = (s', inl results) ∧
    fst <$> results = due r timerType now s ∧
    scores s' (getKey r timerType) = scores s (getKey r timerType) ∧
    hashes s' (getDataKey r timerType) = hashes s (getDataKey r timerType) ∧
    due r timerType now' s' = due r timerType now s.
Proof.
  intros Hb Hl Hf Hfail now' Hn.
  assert (Hu : Unix now ≤ Unix now') by (apply Z.div_le_mono; unfold Second; lia).
  assert (Hd : due r timerType now' s = due r timerType now s).
  { unfold due. by rewrite (zrange_stable 0 (Unix now) (Unix now')). }
  destruct (processExpired_run r now' timerType handler s) as (s1 & s' & rs & Hrun & Hp & Hfst & Hks & Hkh).
  destruct (run_handlers_frames r timerType _ _ _ _ _ Hf Hrun) as [Hfs Hfh].
  assert (Hno : succeeded rs = []).
  { eapply run_handlers_fail; [| exact Hrun]. intros item s2. rewrite Hd. apply Hfail. }
  rewrite Hno in Hks, Hkh.
  assert (Hs' : scores s' (getKey r timerType) = scores s (getKey r timerType)).
  { rewrite <- Hfs. apply map_eq. intros k. by rewrite Hks, decide_False by set_solver. }
  assert (Hh' : hashes s' (getDataKey r timerType) = hashes s (getDataKey r timerType)).
  { rewrite <- Hfh. apply map_eq. intros k. by rewrite Hkh, decide_False by set_solver. }
  exists s', rs. split_and!; [done | by rewrite Hfst | done | done |].
  rewrite <- Hd. unfold due. rewrite Hs'. generalize (zrange 0 (Unix now') (batchSize r) (scores s (getKey r timerType))).
  intros keys. induction keys as [|k keys IH]; [done |]. csimpl. rewrite IH. unfold decode. by rewrite Hh'.
Qed.
End redistimer.

(** ** Witnesses: strings that are their own data, on the concrete server *)

Definition demo_timer (batch : Z) : RedisTimer (R := zstore_redis) (T := string) :=
  MkRedisTimer (λ x, x) ∅ Some Some "timer" (5 * Second) batch false.

Definition demo_server : zstore :=
  MkZStore {[ "timer:job:timer" := {[ "a" := 10; "b" := 20 ]} ]}
           {[ "timer:job:data" := {[ "a" := "a"; "b" := "b" ]} ]}.

Lemma demo_frames r (e : option timer_err) :
  frames (R := zstore_redis) r "job" (λ (_ : string) s, (s, match e with None => inl tt | Some e => inr e end)).
Proof. done. Defined.

(** Between the registration and the pass another client registers a timer. *)
Lemma registered_timer_fires_witness :
  let r := demo_timer 100 in
  let h : Handler (R := zstore_redis) := λ (_ : string), mret tt in
  ∃ s1 s2, RegisterAt r "job" "c" (15 * Second) demo_server = (s1, inl tt) ∧
  RegisterAt r "job" "d" (12 * Second) s1 = (s2, inl tt) ∧
  ∃ s3 results, processExpired (λ x, Some x) r (16 * Second) "job" h s2 = (s3, inl results) ∧
    "c" ∈ due (λ x, Some x) r "job" (16 * Second) s2.
Proof.
  intros r h. pose (s1 := (RegisterAt r "job" "c" (15 * Second) demo_server).1).
  pose (s2 := (RegisterAt r "job" "d" (12 * Second) s1).1).
  exists s1, s2. split; [reflexivity |]. split; [reflexivity |].
  destruct (registered_timer_fires (λ x, Some x) r "job" "c" (15 * Second) (16 * Second) h demo_server s1 s2)
    as (s3 & rs & Hp & _ & Hd & _).
  - reflexivity.
  - by vm_compute.
  - by vm_compute.
  - by vm_compute.
  - by intros _ data [= ->].
  - done.
  - right. apply (bool_decide_unpack _). by vm_compute.
  - by exists s3, rs.
Defined.

(** A periodic timer: its handler registers the next expiry. *)
Lemma reregistered_timer_lost_witness :
  let r := demo_timer 100 in
  let h := λ x, RegisterAt r "job" x (110 * Second) in
  ∃ s' results, processExpired (λ x, Some x) r (10 * Second) "job" h demo_server = (s', inl results) ∧
    results = [("a", true)] ∧ scores s' (getKey r "job") !! "a" = None.
Proof.
  intros r h.
  destruct (reregistered_timer_lost (λ x, Some x) r (10 * Second) "job" h demo_server)
    as (s' & rs & Hp & _ & Hl).
  exists s', rs. assert (Hr : rs = [("a", true)]) by (vm_compute in Hp; by simplify_eq).
  split_and!; [done | done |]. apply (Hl "a"). rewrite Hr. by left.
Defined.

Lemma failing_page_starves_witness :
  let r := demo_timer 1 in
  let h : Handler (R := zstore_redis) := λ (_ : string) s, (s, inr EHandler) in
  due (λ x, Some x) r "job" (30 * Second) demo_server = ["a"] ∧
  ∃ s' results, processExpired (λ x, Some x) r (99 * Second) "job" h demo_server = (s', inl results) ∧
    due (λ x, Some x) r "job" (99 * Second) s' = ["a"].
Proof.
  intros r h.
  assert (Hd0 : due (λ x, Some x) r "job" (30 * Second) demo_server = ["a"]) by (by vm_compute).
  edestruct (failing_page_starves (λ x, Some x) r "job" (30 * Second) h demo_server)
    with (now' := 99 * Second)
    as (s' & rs & Hp & _ & Hs & Hh & Hd); [by vm_compute | by vm_compute | apply (demo_frames r (Some EHandler)) | | by vm_compute |].
  - intros item s' _. by eexists.
  - rewrite Hd0 in Hd. split; [done | by exists s', rs].
Defined.
