(* ===== verification/Mcontext.v ===== *)
(** * Context values and message headers (mcontext, mq/kafka/util.go,
    mq/redismq/message.go and producer.go)

    A context is the list of the values attached to it, newest first.  The names of
    the keys are constants of another module: they are parameters, known to be
    distinct.  A value that is neither a string nor a slice of strings is [VOther]. *)

From S2P Require Import Prelude.

Inductive value := VStr (s : string) | VStrs (l : list string) | VOther.

Definition context := list (string * value).
Definition Background : context := [].
Definition WithValue (k : string) (v : value) (ctx : context) : context := (k, v) :: ctx.

Fixpoint Value (k : string) (ctx : context) : option value :=
  match ctx with
  | [] => None
  | (k', v) :: ctx' => if decide (k' = k) then Some v else Value k ctx'
  end.

(** [v, ok := ctx.Value(k).(string)]. *)
Definition Value_string (k : string) (ctx : context) : option string :=
  match Value k ctx with Some (VStr s) => Some s | _ => None end.

(** The keys of go package constant. *)
Class Keys := {
  OperationID : string;
  OpUserID : string;
  OpUserPlatform : string;
  ConnID : string;
  TriggerID : string;
  RemoteAddr : string;
  keys_distinct : NoDup [OperationID; OpUserID; OpUserPlatform; ConnID; TriggerID; RemoteAddr]
}.

Section mcontext.
Context `{Keys}.
Implicit Types (ctx : context).

Definition mapper : list string := [OperationID; OpUserID; OpUserPlatform; ConnID].

Definition WithOpUserIDContext ctx (s : string) : context := WithValue OpUserID (VStr s) ctx.
Definition WithOpUserPlatformContext ctx (s : string) : context := WithValue OpUserPlatform (VStr s) ctx.
Definition WithTriggerIDContext ctx (s : string) : context := WithValue TriggerID (VStr s) ctx.
Definition SetOperationID ctx (s : string) : context := WithValue OperationID (VStr s) ctx.
Definition SetOpUserID ctx (s : string) : context := WithValue OpUserID (VStr s) ctx.
Definition SetConnID ctx (s : string) : context := WithValue ConnID (VStr s) ctx.
Definition NewCtx (s : string) : context :=
  SetOperationID (WithValue OperationID (VStr s) Background) s.

Definition GetOperationID ctx : string := default "" (Value_string OperationID ctx).
Definition GetOpUserID ctx : string := default "" (Value_string OpUserID ctx).
Definition GetConnID ctx : string := default "" (Value_string ConnID ctx).
Definition GetTriggerID ctx : string := default "" (Value_string TriggerID ctx).
Definition GetOpUserPlatform ctx : string := default "" (Value_string OpUserPlatform ctx).
Definition GetRemoteAddr ctx : string := default "" (Value_string RemoteAddr ctx).

Inductive ctx_err := MissingOperationID | MissingOpUserID | MissingPlatform.

(** The four results and the error, which may come with results. *)
Definition infos : Type := string * string * string * string * option ctx_err.

Definition GetMustCtxInfo ctx : infos :=
  match Value_string OperationID ctx with
  | None => ("", "", "", "", Some MissingOperationID)
  | Some operationID =>
      match Value_string OpUserID ctx with
      | None => (operationID, "", "", "", Some MissingOpUserID)
      | Some opUserID =>
          match Value_string OpUserPlatform ctx with
          | None => (operationID, opUserID, "", "", Some MissingPlatform)
          | Some platform => (operationID, opUserID, platform, GetConnID ctx, None)
          end
      end
  end.

Definition GetCtxInfos ctx : infos :=
  match Value_string OperationID ctx with
  | None => ("", "", "", "", Some MissingOperationID)
  | Some operationID => (operationID, GetOpUserID ctx, GetOpUserPlatform ctx, GetConnID ctx, None)
  end.

(** The loop of [WithMustInfoCtx] from index [i]. *)
Fixpoint with_info (i : nat) (values : list string) ctx : outcome context :=
  match values with
  | [] => Ret ctx
  | v :: values' =>
      match mapper !! i with
      | Some k => with_info (S i) values' (WithValue k (VStr v) ctx)
      | None => Panic "index out of range"
      end
  end.

Definition WithMustInfoCtx (values : list string) : outcome context := with_info 0 values Background.

(** ** Kafka headers *)

Definition GetMQHeaderWithContext ctx : list (string * string) + ctx_err :=
  match GetCtxInfos ctx with
  | (_, _, _, _, Some e) => inr e
  | (operationID, opUserID, platform, connID, None) =>
      inl [(OperationID, operationID); (OpUserID, opUserID); (OpUserPlatform, platform); (ConnID, connID)]
  end.

Definition GetContextWithMQHeader (header : list (string * string)) : outcome context :=
  WithMustInfoCtx (snd <$> header).

(** ** The fields of a stream entry *)

Definition encodeHeader ctx (values : gmap string string) : gmap string string + ctx_err :=
  match GetCtxInfos ctx with
  | (_, _, _, _, Some e) => inr e
  | (operationID, opUserID, platform, connID, None) =>
      inl (<["c" := connID]> (<["p" := platform]> (<["u" := opUserID]> (<["o" := operationID]> values))))
  end.

Definition valString (v : option string) : string := default "" v.

Definition decodeContext (values : gmap string string) : outcome context :=
  WithMustInfoCtx [valString (values !! "o"); valString (values !! "u");
                   valString (values !! "p"); valString (values !! "c")].

(** The entry [SendMessage] adds: its fields, and the approximate length cap if any. *)
Definition SendMessage ctx (maxLen : Z) (key value : string)
    : (gmap string string * option Z) + ctx_err :=
  match encodeHeader ctx {[ "k" := key; "v" := value ]} with
  | inr e => inr e
  | inl values => inl (values, if (0 <? maxLen)%Z then Some maxLen else None)
  end.

Record message := MkMessage { mctx : context; mid : string; mkey : string; mvalue : string }.

Definition buildMessage (id : string) (values : gmap string string) : outcome message :=
  obind (decodeContext values) (λ ctx,
    Ret (MkMessage ctx id (valString (values !! "k")) (valString (values !! "v")))).

(** ** Lemmas *)

Lemma GetCtxInfos_decoded o u p c ctx :
  WithMustInfoCtx [o; u; p; c] = Ret ctx → GetCtxInfos ctx = (o, u, p, c, None).
Proof.
  unfold WithMustInfoCtx. simpl. intros [= <-].
  pose proof keys_distinct as Hd. unfold GetCtxInfos, GetOpUserID, GetOpUserPlatform, GetConnID, Value_string.
  repeat (apply NoDup_cons in Hd as [? Hd]). unfold WithValue. simpl.
  repeat (case_decide; try done); set_solver.
Qed.

Lemma GetCtxInfos_ok ctx : is_Some (Value_string OperationID ctx) →
  ∃ o u p c, GetCtxInfos ctx = (o, u, p, c, None).
Proof. intros [o Ho]. unfold GetCtxInfos. rewrite Ho. by repeat eexists. Qed.

(** Headers carry the context: for a context with an operation id, the headers of
    a Kafka record, and the fields of a stream entry, decode to a context with the
    same operation id, user, platform and connection, and the entry also gives back
    the key and the value; a context without operation id is refused by both; and a
    record with more than four headers makes the consumer panic. *)
Theorem header_roundtrip ctx (maxLen : Z) (id key value : string) (hs : list (string * string)) :
  (is_Some (Value_string OperationID ctx) →
   (∃ h ctx', GetMQHeaderWithContext ctx = inl h ∧ GetContextWithMQHeader h = Ret ctx' ∧
      GetCtxInfos ctx' = GetCtxInfos ctx) ∧
   (∃ values cap msg, SendMessage ctx maxLen key value = inl (values, cap) ∧
      buildMessage id values = Ret msg ∧ GetCtxInfos (mctx msg) = GetCtxInfos ctx ∧
      mkey msg = key ∧ mvalue msg = value)) ∧
  (Value_string OperationID ctx = None →
   GetMQHeaderWithContext ctx = inr MissingOperationID ∧
   SendMessage ctx maxLen key value = inr MissingOperationID) ∧
  (4 < length hs → GetContextWithMQHeader hs = Panic "index out of range").
Proof.
  split_and!.
  - intros (o & u & p & c & Hi)%GetCtxInfos_ok. split.
    + unfold GetMQHeaderWithContext. rewrite Hi. eexists _, _. split; [done |].
      split; [reflexivity |]. by apply GetCtxInfos_decoded.
    + unfold SendMessage, encodeHeader. rewrite Hi. eexists _, _, _. split; [done |].
      split; [reflexivity |]. split_and!; [| done | done]. simpl. by apply GetCtxInfos_decoded.
  - intros Hn. unfold GetMQHeaderWithContext, SendMessage, encodeHeader, GetCtxInfos. by rewrite Hn.
  - intros Hl. destruct hs as [|? [|? [|? [|? [|? hs]]]]]; simpl in Hl; try lia. done.
Qed.
End mcontext.

#[export] Program Instance demo_keys : Keys :=
  {| OperationID := "operationID"; OpUserID := "opUserID"; OpUserPlatform := "platform";
     ConnID := "connID"; TriggerID := "triggerID"; RemoteAddr := "remoteAddr" |}.
Next Obligation. apply (bool_decide_unpack _). by vm_compute. Qed.

Lemma header_roundtrip_witness :
  ∃ h ctx', GetMQHeaderWithContext (NewCtx "op1") = inl h ∧ GetContextWithMQHeader h = Ret ctx' ∧
    GetOperationID ctx' = "op1".
Proof.
  destruct (header_roundtrip (NewCtx "op1") 0 "1-0" "k" "v" []) as [[(h & ctx' & H1 & H2 & H3) _] _].
  { by eexists. }
  exists h, ctx'. split_and!; [done.. |]. vm_compute in H1. simplify_eq. vm_compute in H2. by simplify_eq.
Defined.
