(* ===== verification/Zap.v ===== *)
(** * The logger and its levels (log/zap.go, log/color.go, log/sql_logger.go,
    log/simplify.go, log/summarize.go)

    The zap library writes the entries: a call of the logger is the list of the entries
    it hands to it, and whether the caller then panics.  The states of the temporary
    levels are shared by a logger and those derived from it, so they live in a store,
    with the timers that restore them; a timer runs at or after its time. *)

From S2P Require Import Prelude GoStrings Errs Mcontext.

Local Open Scope Z_scope.

(** ** Levels *)

Definition LevelFatal : Z := 0.
Definition LevelPanic : Z := 1.
Definition LevelError : Z := 2.
Definition LevelWarn : Z := 3.
Definition LevelInfo : Z := 4.
Definition LevelDebug : Z := 5.
Definition LevelDebugWithSQL : Z := 6.

(** The levels of zapcore. *)
Definition DebugLevel : Z := -1.
Definition InfoLevel : Z := 0.
Definition WarnLevel : Z := 1.
Definition ErrorLevel : Z := 2.
Definition PanicLevel : Z := 4.
Definition FatalLevel : Z := 5.

Definition logLevelMap : gmap Z Z :=
  {[ LevelDebugWithSQL := DebugLevel; LevelDebug := DebugLevel; LevelInfo := InfoLevel;
     LevelWarn := WarnLevel; LevelError := ErrorLevel; LevelPanic := PanicLevel; LevelFatal := FatalLevel ]}.

(** [logLevelMap[l]]: the zero level, which is [InfoLevel], when there is none. *)
Definition zap_level (l : Z) : Z := default 0 (logLevelMap !! l).

Record temporaryLevelState := MkLevelState { baseLevel : Z; atomicLevel : Z; version : Z }.

Definition newTemporaryLevelState (level : Z) : temporaryLevelState := MkLevelState level level 0.

Definition state_enabled (level : Z) (s : temporaryLevelState) : bool := atomicLevel s <=? level.

(** The body of the timer that a call with version [v] has started. *)
Definition restore (v : Z) (s : temporaryLevelState) : temporaryLevelState :=
  if version s =? v then MkLevelState (baseLevel s) (baseLevel s) (version s) else s.

Record timer := MkTimer { tstate : nat; tversion : Z; due : Z }.

(** The states by address, the timers that have not run, and the time. *)
Record log_world := MkLogWorld { states : gmap nat temporaryLevelState; timers : list timer; now : Z }.

Definition set_state (a : nat) (s : temporaryLevelState) (w : log_world) : log_world :=
  MkLogWorld (<[a := s]> (states w)) (timers w) (now w).

Definition state_setTemporaryLevel (a : nat) (level duration : Z) (w : log_world) : log_world :=
  match states w !! a with
  | None => w
  | Some s =>
      let v := wrapu64 (version s + 1) in
      MkLogWorld (<[a := MkLevelState (baseLevel s) level v]> (states w))
        (timers w ++ [MkTimer a v (now w + duration)]) (now w)
  end.

(** ** Loggers *)

Record ZapLogger := MkZapLogger {
  withs : list (string * string);
  name : string;
  callerSkip : Z;
  level : Z;
  levelState : option nat;
  moduleName : string;
  moduleVersion : string;
  loggerPrefixName : string;
  rotationTime : Z;
  sdkType : string;
  platformName : string;
  isSimplify : bool;
  defaultKeys : list string
}.

Definition enabled (w : log_world) (l : ZapLogger) (lv : Z) : bool :=
  match levelState l ≫= (states w !!.) with
  | Some s => state_enabled lv s
  | None => level l <=? lv
  end.

Inductive level_err := errInvalidLogLevel | errInvalidTemporaryPeriod | errUnsupportedLoggerType.

Definition setTemporaryLevel (l : option ZapLogger) (lv duration : Z) (w : log_world) : log_world * option level_err :=
  match l ≫= levelState with
  | None => (w, Some errUnsupportedLoggerType)
  | Some a => (state_setTemporaryLevel a lv duration w, None)
  end.

(** The logger of the package: none, a [ZapLogger], or something else. *)
Inductive Logger := NoLogger | Zap (l : ZapLogger) | OtherLogger.

Definition SetTemporaryLevel (pkgLogger : Logger) (logLevel duration : Z) (w : log_world)
    : log_world * option level_err :=
  match logLevelMap !! logLevel with
  | None => (w, Some errInvalidLogLevel)
  | Some lv =>
      if duration <=? 0 then (w, Some errInvalidTemporaryPeriod)
      else match pkgLogger with
           | Zap l => setTemporaryLevel (Some l) lv duration w
           | NoLogger | OtherLogger => (w, Some errUnsupportedLoggerType)
           end
  end.

Definition WithDefaultKeys (keys : list string) (l : ZapLogger) : ZapLogger :=
  MkZapLogger (withs l) (name l) (callerSkip l) (level l) (levelState l) (moduleName l) (moduleVersion l)
    (loggerPrefixName l) (rotationTime l) (sdkType l) (platformName l) (isSimplify l) keys.

Definition set_sugar (ws : list (string * string)) (n : string) (skip : Z) (l : ZapLogger) : ZapLogger :=
  MkZapLogger ws n skip (level l) (levelState l) (moduleName l) (moduleVersion l)
    (loggerPrefixName l) (rotationTime l) (sdkType l) (platformName l) (isSimplify l) (defaultKeys l).

Definition WithValues (kv : list (string * string)) (l : ZapLogger) : ZapLogger :=
  set_sugar (withs l ++ kv) (name l) (callerSkip l) l.

(** Zap joins the names of nested loggers with a dot and ignores an empty one. *)
Definition WithName (n : string) (l : ZapLogger) : ZapLogger :=
  set_sugar (withs l)
    (if String.eqb n "" then name l else if String.eqb (name l) "" then n else name l +:+ "." +:+ n)
    (callerSkip l) l.

Definition WithCallDepth (depth : Z) (l : ZapLogger) : ZapLogger :=
  set_sugar (withs l) (name l) (callerSkip l + depth) l.

Definition Hour : Z := 3600000000000.

(** The name pattern of the log files. *)
Definition log_pattern (l : ZapLogger) (logLocation : string) : string :=
  let p := logLocation +:+ "/" +:+ loggerPrefixName l in
  if rotationTime l `rem` (Hour * 24) =? 0 then p +:+ ".%Y-%m-%d"
  else if rotationTime l `rem` Hour =? 0 then p +:+ ".%Y-%m-%d_%H"
  else p +:+ ".%Y-%m-%d_%H_%M_%S".

Inductive sink := FileSink (pattern : string) (buffered : bool) | StdoutSink.

(** Where [cores] writes; [None] when the writer of the files cannot be made. *)
Definition cores (writer_ok AsyncWrite isStdout : bool) (logLocation : string) (l : ZapLogger) : option (list sink) :=
  if writer_ok then
    Some ((if String.eqb logLocation "" then []
           else [FileSink (log_pattern l logLocation) (negb isStdout && AsyncWrite)]) ++
          (if isStdout then [StdoutSink] else []))
  else None.

(** The new logger, its state at a fresh address, and its sinks. *)
Definition NewZapLogger (writer_ok AsyncWrite : bool) (prefix module sdk platform : string) (logLevel : Z)
    (isStdout : bool) (logLocation : string) (rotation : Z) (moduleVersion_ : string) (simplify : bool)
    (ops : list (ZapLogger → ZapLogger)) (w : log_world) : log_world * option (ZapLogger * list sink) :=
  let a := fresh (dom (states w)) in
  let w := set_state a (newTemporaryLevelState (zap_level logLevel)) w in
  let zl := MkZapLogger [] "" 0 (zap_level logLevel) (Some a) module moduleVersion_ prefix
              (wrap64 (wrap64 rotation * Hour)) sdk platform simplify [] in
  match cores writer_ok AsyncWrite isStdout logLocation zl with
  | None => (w, None)
  | Some sinks => (w, Some (fold_left (λ l o, o l) ops zl, sinks))
  end.

(** ** Calls *)

(** A value that is logged: a string, a [LogFormatter] with what its [Format] gives, an
    error, or anything else. *)
Inductive any := Str (s : string) | Formatter (v : any) | Err (e : goerr) | Any (n : nat).

Record entry := MkEntry { elevel : Z; emsg : string; ekv : list any }.

(** The loop over the odd indices: values that are formatters are replaced. *)
Fixpoint format_values (kv : list any) : list any :=
  match kv with
  | k :: Formatter v :: kv' => k :: v :: format_values kv'
  | k :: v :: kv' => k :: v :: format_values kv'
  | _ => kv
  end.

Section calls.
Context `{Keys} (err_text : goerr → string).
Implicit Types (ctx : option context) (err : option goerr) (kv : list any).

Definition appendError kv err : list any :=
  match err with Some e => kv ++ [Str "error"; Str (err_text e)] | None => kv end.

(** [append([]any{k, v}, keysAndValues...)] when [v] is not empty. *)
Definition prepend (k v : string) kv : list any :=
  if String.eqb v "" then kv else Str k :: Str v :: kv.

Definition prepend_defaults (keys : list string) (c : context) kv : list any :=
  fold_left (λ kv k, prepend k (default "" (Value_string k c)) kv) keys kv.

Definition prepend_context (c : context) kv : list any :=
  prepend RemoteAddr (GetRemoteAddr c)
  (prepend OpUserPlatform (GetOpUserPlatform c)
  (prepend TriggerID (GetTriggerID c)
  (prepend ConnID (GetConnID c)
  (prepend OperationID (GetOperationID c)
  (prepend OpUserID (GetOpUserID c) kv))))).

Definition uneven : string := "keysAndValues length is not even".

(** The error of [errs.ErrInternalServer.Wrap()]. *)
Definition uneven_err : goerr := Stack 0 (Code 1 ErrInternalServer).

(** [kvAppend], the pairs and the entries written on the way: an odd number of keys and
    values is itself logged, by the logger of the package, whose own call comes back here. *)
Fixpoint kvAppend (fuel : nat) (w : log_world) (pkg l : ZapLogger) ctx kv : option (list any * list entry) :=
  match fuel, ctx with
  | O, _ => None
  | S _, None => Some (kv, [])
  | S fuel, Some c =>
      let tail kv := prepend_context c (prepend_defaults (defaultKeys l) c kv) in
      if isSimplify l then
        if Nat.even (length kv) then Some (tail (format_values kv), [])
        else if enabled w pkg ErrorLevel then
          match kvAppend fuel w pkg pkg ctx (appendError [] (Some uneven_err)) with
          | None => None
          | Some (kv', es) => Some (tail kv, es ++ [MkEntry ErrorLevel uneven kv'])
          end
        else Some (tail kv, [])
      else Some (tail kv, [])
  end.

(** A call at a level: nothing when the level is not enabled. *)
Definition write (fuel : nat) (w : log_world) (pkg l : ZapLogger) (lv : Z) ctx msg kv
    : option (list entry) :=
  if enabled w l lv then
    match kvAppend fuel w pkg l ctx kv with
    | None => None
    | Some (kv, es) => Some (es ++ [MkEntry lv msg kv])
    end
  else Some [].

Definition Debug fuel w pkg l ctx msg kv := write fuel w pkg l DebugLevel ctx msg kv.
Definition Info fuel w pkg l ctx msg kv := write fuel w pkg l InfoLevel ctx msg kv.
Definition Warn fuel w pkg l ctx msg err kv := write fuel w pkg l WarnLevel ctx msg (appendError kv err).
Definition Error fuel w pkg l ctx msg err kv := write fuel w pkg l ErrorLevel ctx msg (appendError kv err).

(** The entries, and whether zap then panics. *)
Definition Panic_ fuel w pkg l ctx msg err kv : option (list entry * bool) :=
  (λ es, (es, enabled w l PanicLevel)) <$> write fuel w pkg l PanicLevel ctx msg (appendError kv err).

(** ** The functions of the package, which use its logger *)

Definition ZDebug fuel w (l : ZapLogger) ctx msg kv := Debug fuel w l l ctx msg kv.
Definition ZInfo fuel w (l : ZapLogger) ctx msg kv := Info fuel w l l ctx msg kv.
Definition ZWarn fuel w (l : ZapLogger) ctx msg err kv := Warn fuel w l l ctx msg err kv.
Definition ZError fuel w (l : ZapLogger) ctx msg err kv := Error fuel w l l ctx msg err kv.
Definition ZPanic fuel w (l : ZapLogger) ctx msg err kv := Error fuel w l l ctx msg err kv.

Definition AdaptiveDefaultLevel : Z := LevelWarn.
Definition AdaptiveErrorCodeLevel : gmap Z Z := {[ code ErrInternalServer := LevelError ]}.

(** The code of [errs.Unwrap(err)], when that is a code error. *)
Definition unwrapped_code err : option Z :=
  match Unwrap err with Some (Code _ c) => Some (code c) | _ => None end.

Definition ZAdaptive fuel w (l : ZapLogger) ctx msg err kv : option (list entry) :=
  let lv := match unwrapped_code err with
            | Some c => default AdaptiveDefaultLevel (AdaptiveErrorCodeLevel !! c)
            | None => AdaptiveDefaultLevel
            end in
  if lv =? LevelDebug then ZDebug fuel w l ctx msg (appendError kv err)
  else if lv =? LevelInfo then ZInfo fuel w l ctx msg (appendError kv err)
  else if lv =? LevelWarn then ZWarn fuel w l ctx msg err kv
  else if (lv =? LevelError) || (lv =? LevelPanic) then ZError fuel w l ctx msg err kv
  else Some [].

Definition SDKLog fuel w (l : ZapLogger) ctx (logLevel : Z) (file : string) (line : Z) msg err kv
    : option (list entry) :=
  let kv := Str "native_caller" :: Str ("[" +:+ file +:+ ":" +:+ Itoa line +:+ "]") :: kv in
  if logLevel =? LevelDebugWithSQL then ZDebug fuel w l ctx msg kv
  else if logLevel =? LevelInfo then ZInfo fuel w l ctx msg kv
  else if logLevel =? LevelWarn then ZWarn fuel w l ctx msg err kv
  else if logLevel =? LevelError then ZError fuel w l ctx msg err kv
  else Some [].

(** [CInfo]: nothing without a console logger. *)
Definition CInfo fuel w (pkg : ZapLogger) (osStdout : option ZapLogger) ctx msg kv : option (list entry) :=
  match osStdout with Some l => Info fuel w pkg l ctx msg kv | None => Some [] end.

(** ** The SQL logger *)

(** The levels of gorm. *)
Definition Silent : Z := 1.
Definition gorm_Error : Z := 2.
Definition gorm_Warn : Z := 3.
Definition gorm_Info : Z := 4.

Record SqlLogger := MkSqlLogger { LogLevel : Z; IgnoreRecordNotFoundError : bool; SlowThreshold : Z }.

Definition LogMode (lv : Z) (l : SqlLogger) : SqlLogger :=
  MkSqlLogger lv (IgnoreRecordNotFoundError l) (SlowThreshold l).

Definition number_args (i : nat) (args : list any) : list any :=
  imap (λ j a, (i + j, a)%nat) args ≫= λ '(j, a), [Str ("args[" +:+ Itoa (Z.of_nat j) +:+ "]"); a].

Definition Sql_Error fuel w (pkg : ZapLogger) ctx msg (args : list any) : outcome (option (list entry)) :=
  match args with
  | [] => Panic "index out of range"
  | Err e :: args => Ret (ZError fuel w pkg ctx msg (Some e) (number_args 1 args))
  | _ => Ret (ZError fuel w pkg ctx msg None (number_args 0 args))
  end.

(** What [Trace] does with a statement: an entry at a level, with its rows when known. *)
Inductive traced := Untraced | Traced (lv : Z) (slow : bool) (rows : option Z).

Definition Trace (not_found : bool) (l : SqlLogger) (elapsed : Z) (rows : Z) err : traced :=
  let shown := if rows =? -1 then None else Some rows in
  if LogLevel l <=? Silent then Untraced
  else if bool_decide (is_Some err) && (gorm_Error <=? LogLevel l) &&
          (negb not_found || negb (IgnoreRecordNotFoundError l)) then Traced ErrorLevel false shown
  else if (SlowThreshold l <? elapsed) && negb (SlowThreshold l =? 0) && (gorm_Warn <=? LogLevel l)
  then Traced WarnLevel true shown
  else if LogLevel l =? gorm_Info then Traced DebugLevel false shown
  else Untraced.
End calls.

(** ** Summaries *)

Definition slicePrintLen : nat := 30.

Definition Slice_Format {A} (s : list A) : list A :=
  if decide (slicePrintLen ≤ length s)%nat then take slicePrintLen s else s.

(** The loop over a map: the pairs are copied until there are enough. *)
Definition Map_Format `{MapRange} {K A} `{Countable K} (m : gmap K A) : gmap K A :=
  if decide (slicePrintLen < size m)%nat then list_to_map (take slicePrintLen (range_map m)) else m.

Definition summarizeLen : Z := 30.

Record summarizeConfig := MkSummarizeConfig { sname : option string; limit : option Z }.

Inductive SummarizeOption := WithSummarizeLimit (limit : Z) | WithSummarizeName (name : string).

Definition apply_summarize (c : summarizeConfig) (o : SummarizeOption) : summarizeConfig :=
  match o with
  | WithSummarizeLimit n => MkSummarizeConfig (sname c) (Some n)
  | WithSummarizeName n => MkSummarizeConfig (Some n) (limit c)
  end.

Definition newSummarizeConfig (opts : list SummarizeOption) : summarizeConfig :=
  let c := fold_left apply_summarize opts (MkSummarizeConfig None (Some summarizeLen)) in
  match limit c with
  | Some n => if n <? 0 then MkSummarizeConfig (sname c) (Some 0) else c
  | None => c
  end.

(** The name and value of the sample, and the total. *)
Definition summarize {C} (total : C → nat) (sample : nat → C → C) (obj : C) (opts : list SummarizeOption)
    : string * C * nat :=
  let config := newSummarizeConfig opts in
  let n := Z.to_nat (default summarizeLen (limit config)) in
  (default "sample" (sname config), if decide (n < total obj)%nat then sample n obj else obj, total obj).

Definition SummarizeSlice {A} (s : list A) (opts : list SummarizeOption) : string * list A * nat :=
  summarize length take s opts.

Definition SummarizeMap `{MapRange} {K A} `{Countable K} (m : gmap K A) (opts : list SummarizeOption)
    : string * gmap K A * nat :=
  summarize size (λ n m, list_to_map (take n (range_map m))) m opts.

(** ** Changes of level over time *)

Inductive level_op :=
| NewState (level : Z)
| SetLevel (l : ZapLogger) (logLevel duration : Z)
| Tick (d : Z)
| Fire (i : nat).

(** [None] when the operation is not possible. *)
Definition level_exec (o : level_op) (w : log_world) : option log_world :=
  match o with
  | NewState lv => Some (set_state (fresh (dom (states w))) (newTemporaryLevelState lv) w)
  | SetLevel l logLevel duration => Some (SetTemporaryLevel (Zap l) logLevel duration w).1
  | Tick d => if 0 <=? d then Some (MkLogWorld (states w) (timers w) (now w + d)) else None
  | Fire i =>
      match timers w !! i with
      | Some t =>
          if due t <=? now w then
            Some (MkLogWorld (alter (restore (tversion t)) (tstate t) (states w)) (cut_at i (timers w)) (now w))
          else None
      | None => None
      end
  end.

Definition level_run (os : list level_op) (w : log_world) : option log_world :=
  fold_left (λ w o, w ≫= level_exec o) os (Some w).

Definition no_log : log_world := MkLogWorld ∅ [] 0.

(** The operation asks the state at [a] for another level. *)
Definition sets (a : nat) (o : level_op) : bool :=
  match o with SetLevel l _ _ => bool_decide (levelState l = Some a) | _ => false end.

(** * Lemmas *)

Definition timer_key (t : timer) : nat * Z := (tstate t, tversion t).

(** After [n] operations the versions are those of the calls so far, each timer has one
    of its own, and none is ahead of its state. *)
Record level_inv (n : nat) (w : log_world) : Prop := {
  li_version : ∀ a s, states w !! a = Some s → 0 ≤ version s ≤ Z.of_nat n;
  li_timer : ∀ t, t ∈ timers w → ∃ s, states w !! tstate t = Some s ∧ tversion t ≤ version s;
  li_keys : NoDup (timer_key <$> timers w)
}.

Lemma SetLevel_inv n l logLevel d w :
  level_inv n w → Z.of_nat n + 1 < two64 → level_inv (S n) (SetTemporaryLevel (Zap l) logLevel d w).1.
Proof.
  intros [Hv Ht Hk] Hn. unfold SetTemporaryLevel, setTemporaryLevel, state_setTemporaryLevel.
  assert (level_inv (S n) w) as Hsame.
  { split; [| done..]. intros a s Hs. specialize (Hv a s Hs). lia. }
  destruct (logLevelMap !! logLevel) as [lv|]; [| done]. destruct (d <=? 0); [done |]. simpl.
  destruct (levelState l) as [a|]; [simpl | done].
  destruct (states w !! a) as [s|] eqn:Hs; [| done].
  pose proof (Hv a s Hs) as Hvs. assert (wrapu64 (version s + 1) = version s + 1) as ->.
  { unfold wrapu64. apply Z.mod_small. lia. }
  split; simpl.
  - intros a' s'. rewrite lookup_insert_Some. intros [[<- <-] | [_ Hs']]; simpl; [lia |].
    specialize (Hv a' s' Hs'). lia.
  - intros t [Ht' | ->%list_elem_of_singleton]%elem_of_app; simpl.
    + destruct (Ht t Ht') as (s' & Hs' & Hle). destruct (decide (a = tstate t)) as [-> | Hne].
      * rewrite lookup_insert_eq. eexists. split; [done |]. simpl. simplify_eq. lia.
      * rewrite lookup_insert_ne by done. by exists s'.
    + rewrite lookup_insert_eq. by eexists.
  - rewrite fmap_app. apply NoDup_app. split_and!; [done | | apply NoDup_singleton].
    intros x (t & -> & Ht')%list_elem_of_fmap. simpl. intros [= Ha Hver]%list_elem_of_singleton.
    destruct (Ht t Ht') as (s' & Hs' & Hle). rewrite Ha in Hs'. simplify_eq. lia.
Qed.

Lemma restore_version v s : version (restore v s) = version s.
Proof. unfold restore. by destruct (version s =? v). Qed.

Lemma restore_base v s : baseLevel (restore v s) = baseLevel s.
Proof. unfold restore. by destruct (version s =? v). Qed.

Lemma level_exec_inv n o w w' :
  level_exec o w = Some w' → level_inv n w → Z.of_nat n + 1 < two64 → level_inv (S n) w'.
Proof.
  intros He Hi Hn. destruct o as [lv | l logLevel d | d | i]; simpl in He.
  - injection He as <-. destruct Hi as [Hv Ht Hk].
    pose proof (is_fresh (dom (states w))) as Hf. split; simpl; [| | done].
    + intros a s. rewrite lookup_insert_Some. intros [[_ <-] | [_ Hs]]; simpl; [lia |].
      specialize (Hv a s Hs). lia.
    + intros t (s & Hs & Hle)%Ht. exists s. rewrite lookup_insert_ne; [done |].
      intros Heq. apply Hf. rewrite Heq. by apply elem_of_dom_2 in Hs.
  - injection He as <-. by apply SetLevel_inv.
  - destruct (0 <=? d); [| done]. injection He as <-. destruct Hi as [Hv Ht Hk]. split; [| done..].
    intros a s Hs. specialize (Hv a s Hs). lia.
  - destruct (timers w !! i) as [t|] eqn:Hti; [| done]. destruct (due t <=? now w); [| done].
    injection He as <-. destruct Hi as [Hv Ht Hk]. split; simpl.
    + intros a s. rewrite lookup_alter_Some. intros [(_ & s' & Hs & ->) | [_ Hs]].
      * rewrite restore_version. specialize (Hv _ s' Hs). lia.
      * specialize (Hv a s Hs). lia.
    + intros t' (s & Hs & Hle)%cut_at_elem_of%Ht. destruct (decide (tstate t = tstate t')) as [-> | Hne].
      * rewrite lookup_alter_eq, Hs. eexists. split; [done |]. by rewrite restore_version.
      * rewrite lookup_alter_ne by done. by exists s.
    + rewrite (cut_at_perm _ _ _ Hti) in Hk. by apply NoDup_cons in Hk as [_ Hk].
Qed.

(** A property indexed by the number of the steps so far. *)
Lemma run_count (P : nat → log_world → Prop) os n w w' :
  (∀ o k w w', o ∈ os → (k < n + length os)%nat → level_exec o w = Some w' → P k w → P (S k) w') →
  level_run os w = Some w' → P n w → P (n + length os)%nat w'.
Proof.
  revert n w. induction os as [|o os IH]; intros n w Hstep Hr Hn.
  - rewrite Nat.add_0_r. by injection Hr as <-.
  - unfold level_run in Hr. simpl in Hr. destruct (level_exec o w) as [w1|] eqn:Ho.
    + simpl. rewrite Nat.add_succ_r. apply (IH (S n) w1); [| done |].
      * intros o' k ? ? Ho' Hk. apply Hstep; [by right | simpl; lia].
      * eapply (Hstep o n w w1); [by left | simpl; lia | done..].
    + exfalso. clear -Hr. induction os; simpl in *; [done | auto].
Qed.

(** The state at [a] since the call that gave it version [v] and level [lv] until [dl]:
    its timer has not run, or it has and the base level is back. *)
Definition temporary (a : nat) (v lv b dl : Z) (w : log_world) : Prop :=
  ∃ s, states w !! a = Some s ∧ version s = v ∧ baseLevel s = b ∧
    (MkTimer a v dl ∈ timers w ∧ atomicLevel s = lv ∨
     (a, v) ∉ timer_key <$> timers w ∧ atomicLevel s = b ∧ dl ≤ now w).

Lemma key_unique n w t t' :
  level_inv n w → t ∈ timers w → t' ∈ timers w → timer_key t = timer_key t' → t = t'.
Proof.
  intros [_ _ Hk] [i Hi]%list_elem_of_lookup [j Hj]%list_elem_of_lookup He.
  assert (i = j) as ->; [| congruence].
  apply (NoDup_lookup _ i j (timer_key t) Hk); rewrite list_lookup_fmap.
  - by rewrite Hi.
  - by rewrite Hj, He.
Qed.

Lemma fired_temporary n i t a v lv b dl w :
  level_inv n w → timers w !! i = Some t → due t ≤ now w → temporary a v lv b dl w →
  temporary a v lv b dl
    (MkLogWorld (alter (restore (tversion t)) (tstate t) (states w)) (cut_at i (timers w)) (now w)).
Proof.
  intros Hi Hti Hdue (s & Hs & Hv & Hb & Hp).
  pose proof (cut_at_perm _ _ _ Hti) as Hperm.
  assert (t ∈ timers w) as Ht by (by eapply list_elem_of_lookup_2).
  destruct (decide (timer_key t = (a, v))) as [Hk | Hk].
  - injection Hk as Hta Htv. exists (restore v s). rewrite Hta, Htv. cbn [states timers now].
    rewrite lookup_alter_eq, Hs, restore_version, restore_base. split_and!; [done.. |]. right.
    destruct Hp as [[Hin Hat] | (Hno & _)].
    + assert (t = MkTimer a v dl) as -> by (eapply key_unique; [done.. | by rewrite <- Hta, <- Htv]).
      split_and!; [| | done].
      * pose proof (li_keys _ _ Hi) as Hnd. rewrite Hperm in Hnd. by apply NoDup_cons in Hnd as [Hnd _].
      * unfold restore. by rewrite Hv, Z.eqb_refl.
    + exfalso. apply Hno. apply list_elem_of_fmap. exists t. by rewrite <- Hta, <- Htv.
  - exists (if decide (tstate t = a) then restore (tversion t) s else s). cbn [states timers now].
    assert (∀ s', tstate t = a → restore (tversion t) s' = s' ∨ version s' = tversion t) as Hr.
    { intros s' _. unfold restore. destruct (Z.eqb_spec (version s') (tversion t)); auto. }
    assert ((if decide (tstate t = a) then restore (tversion t) s else s) = s) as ->.
    { case_decide as Ha; [| done]. destruct (Hr s Ha) as [-> | Hver]; [done |].
      exfalso. apply Hk. unfold timer_key. congruence. }
    split_and!; [| done.. |].
    + destruct (decide (tstate t = a)) as [Ha | Ha]; [| by rewrite lookup_alter_ne].
      subst a. rewrite lookup_alter_eq, Hs. simpl. f_equal.
      destruct (Hr s eq_refl) as [? | Hver]; [done |]. exfalso. apply Hk. unfold timer_key. congruence.
    + destruct Hp as [[Hin Hat] | (Hno & Hat & Hd)].
      * left. split; [| done]. rewrite Hperm in Hin. apply elem_of_cons in Hin as [<- | Hin]; done.
      * right. split_and!; [| done..]. intros (t' & Hk' & Ht')%list_elem_of_fmap. apply Hno.
        apply list_elem_of_fmap. exists t'. split; [done |]. by eapply cut_at_elem_of.
Qed.

Lemma set_state_temporary a a' s' v lv b dl w :
  a ≠ a' → temporary a v lv b dl w → temporary a v lv b dl (set_state a' s' w).
Proof.
  intros Hne (s & Hs & Hp). exists s. split; [| done]. simpl. by rewrite lookup_insert_ne.
Qed.

Lemma other_set_temporary a v lv b dl l logLevel d w :
  levelState l ≠ Some a → temporary a v lv b dl w →
  temporary a v lv b dl (SetTemporaryLevel (Zap l) logLevel d w).1.
Proof.
  intros Hl Hp. unfold SetTemporaryLevel, setTemporaryLevel, state_setTemporaryLevel.
  destruct (logLevelMap !! logLevel); [| done]. destruct (d <=? 0); [done |]. simpl.
  destruct (levelState l) as [a'|]; [simpl | done]. destruct (states w !! a'); [| done].
  destruct Hp as (s & Hs & Hv & Hb & Hp). exists s. cbn [states timers now].
  rewrite lookup_insert_ne by congruence. split_and!; [done.. |].
  rewrite fmap_app. destruct Hp as [[Hin Hat] | (Hno & Hat & Hd)].
  - left. split; [| done]. apply elem_of_app. by left.
  - right. split_and!; [| done..]. intros [? | He]%elem_of_app; [done |].
    apply list_elem_of_singleton in He as [= -> _]. done.
Qed.

Lemma level_exec_temporary n o a v lv b dl w w' :
  level_exec o w = Some w' → sets a o = false → level_inv n w →
  temporary a v lv b dl w → temporary a v lv b dl w'.
Proof.
  intros He Hset Hi Hp. destruct o as [lv' | l logLevel d | d | i]; simpl in He.
  - injection He as <-. apply set_state_temporary; [| done].
    destruct Hp as (s & Hs & _). apply elem_of_dom_2 in Hs. intros Ha.
    apply (is_fresh (dom (states w))). by rewrite <- Ha.
  - injection He as <-. apply other_set_temporary; [| done]. by apply bool_decide_eq_false in Hset.
  - destruct (Z.leb_spec 0 d); [| done]. injection He as <-.
    destruct Hp as (s & Hs & Hv & Hb & Hp). exists s. split_and!; [done.. |].
    destruct Hp as [Hp | (Hno & Hat & Hd)]; [by left | right]. split_and!; [done.. |]. simpl. lia.
  - destruct (timers w !! i) as [t|] eqn:Hti; [| done]. destruct (Z.leb_spec (due t) (now w)); [| done].
    injection He as <-. by eapply fired_temporary.
Qed.

Lemma level_run_inv os w : level_run os no_log = Some w → Z.of_nat (length os) < two64 → level_inv (length os) w.
Proof.
  intros Hr Hn. apply (run_count level_inv os 0 no_log w); [| done |].
  - intros o k w1 w2 _ Hk Ho Hi. eapply level_exec_inv; [done.. | lia].
  - split; simpl; [intros a s; by rewrite lookup_empty | intros t Ht; by apply elem_of_nil in Ht | constructor].
Qed.

Lemma SetLevel_temporary n l a s logLevel lv d w :
  level_inv n w → Z.of_nat n + 1 < two64 →
  levelState l = Some a → states w !! a = Some s → logLevelMap !! logLevel = Some lv → 0 < d →
  SetTemporaryLevel (Zap l) logLevel d w = (state_setTemporaryLevel a lv d w, None) ∧
  temporary a (version s + 1) lv (baseLevel s) (now w + d) (state_setTemporaryLevel a lv d w).
Proof.
  intros Hi Hn Hl Hs Hlv Hd. split.
  - unfold SetTemporaryLevel, setTemporaryLevel. rewrite Hlv. simpl. rewrite Hl.
    by destruct (Z.leb_spec d 0); [lia |].
  - pose proof (li_version _ _ Hi a s Hs). unfold state_setTemporaryLevel. rewrite Hs.
    assert (wrapu64 (version s + 1) = version s + 1) as -> by (unfold wrapu64; apply Z.mod_small; lia).
    eexists. cbn [states timers now]. rewrite lookup_insert_eq. split_and!; [done.. |].
    left. split; [| done]. apply elem_of_app. right. by apply list_elem_of_singleton.
Qed.

Lemma sets_In a os o : existsb (sets a) os = false → o ∈ os → sets a o = false.
Proof.
  intros He Ho. destruct (sets a o) eqn:Hs; [| done].
  assert (existsb (sets a) os = true); [| congruence].
  apply existsb_exists. exists o. by rewrite <- list_elem_of_In.
Qed.

(** * Theorem *)

(** C27. A temporary level lasts as it was asked to.  A call that asks a logger for a level
    it knows, for a positive time, succeeds; from then on, and as long as no later call
    asks the state of that logger for a level (which starts a temporary level of its own,
    of which the same holds then), whatever timers of earlier calls run, for
    this state or another, whatever loggers are made and derived: before the time is over
    the logger, and each one that shares its state, writes the entries of this level;
    once the timers of its state have run it writes those of the level that it was made
    with; and at any moment it writes those of one or of the other. *)
Theorem temporary_level os os' l logLevel lv d a s w w' :
  level_run os no_log = Some w →
  levelState l = Some a → states w !! a = Some s →
  logLevelMap !! logLevel = Some lv → 0 < d →
  level_run os' (SetTemporaryLevel (Zap l) logLevel d w).1 = Some w' →
  existsb (sets a) os' = false →
  Z.of_nat (length os + length os') + 1 < two64 →
  (SetTemporaryLevel (Zap l) logLevel d w).2 = None ∧
  ∀ l', levelState l' = Some a →
    (now w' < now w + d → ∀ lv', enabled w' l' lv' = (lv <=? lv')) ∧
    ((∀ t, t ∈ timers w' → tstate t ≠ a) → ∀ lv', enabled w' l' lv' = (baseLevel s <=? lv')) ∧
    ((∀ lv', enabled w' l' lv' = (lv <=? lv')) ∨ (∀ lv', enabled w' l' lv' = (baseLevel s <=? lv'))).
Proof.
  intros Hr Hl Hs Hlv Hd Hr' Hno Hn.
  assert (level_inv (length os) w) as Hi by (apply level_run_inv; [done | lia]).
  destruct (SetLevel_temporary (length os) l a s logLevel lv d w) as [He Hp]; [done | lia | done.. |].
  rewrite He in *. split; [done |]. simpl in Hr'.
  assert (level_inv (S (length os)) (state_setTemporaryLevel a lv d w)) as Hi'.
  { pose proof (SetLevel_inv _ l logLevel d w Hi) as Hi'. rewrite He in Hi'. apply Hi'. lia. }
  assert (temporary a (version s + 1) lv (baseLevel s) (now w + d) w') as (s' & Hs' & _ & Hb & Hp').
  { eapply (run_count (λ k w, level_inv k w ∧ temporary a (version s + 1) lv (baseLevel s) _ w) os'
      (S (length os))); [| done..].
    intros o k w1 w2 Ho Hk Hexec [Hi1 Hp1]. split; [eapply level_exec_inv; [done.. | lia] |].
    eapply level_exec_temporary; [done | by eapply sets_In | done..]. }
  intros l' Hl'. unfold enabled. rewrite Hl'. simpl. rewrite Hs'. unfold state_enabled.
  destruct Hp' as [[Hin ->] | (_ & -> & Hdl)]; split_and!; [done | | by left | lia | done | by right].
  intros Hnone. by apply Hnone in Hin.
Qed.

Definition demo_logger (a : nat) : ZapLogger :=
  MkZapLogger [] "" 0 InfoLevel (Some a) "m" "v1" "p" (24 * Hour) "" "" true [].

(** A first request has its time run out while a second one is in force. *)
Definition demo_levels : list level_op :=
  [NewState InfoLevel; NewState ErrorLevel; SetLevel (demo_logger 0) LevelError 10; Tick 4].

Lemma temporary_level_witness :
  let l := WithName "sub" (demo_logger 0) in
  let w := default no_log (level_run demo_levels no_log) in
  let w1 := default no_log (level_run [Tick 8; Fire 0; SetLevel (demo_logger 1) LevelPanic 5]
                              (SetTemporaryLevel (Zap l) LevelDebug 20 w).1) in
  let w2 := default no_log (level_run [Tick 8; Fire 0; Tick 30; Fire 0]
                              (SetTemporaryLevel (Zap l) LevelDebug 20 w).1) in
  enabled w1 (demo_logger 0) DebugLevel = true ∧
  enabled w2 (demo_logger 0) DebugLevel = false ∧ enabled w2 (demo_logger 0) InfoLevel = true.
Proof.
  intros l w w1 w2. split.
  - destruct (temporary_level demo_levels [Tick 8; Fire 0; SetLevel (demo_logger 1) LevelPanic 5] l
      LevelDebug DebugLevel 20 0 (MkLevelState InfoLevel ErrorLevel 1) w w1) as [_ Hl];
      [vm_compute; reflexivity .. |].
    destruct (Hl (demo_logger 0) eq_refl) as [Hin _]. by rewrite Hin by (vm_compute; reflexivity).
  - destruct (temporary_level demo_levels [Tick 8; Fire 0; Tick 30; Fire 0] l
      LevelDebug DebugLevel 20 0 (MkLevelState InfoLevel ErrorLevel 1) w w2) as [_ Hl];
      [vm_compute; reflexivity .. |].
    destruct (Hl (demo_logger 0) eq_refl) as (_ & Hout & _).
    assert (∀ t, t ∈ timers w2 → tstate t ≠ 0%nat) as Hnone by (intros t Ht; by apply elem_of_nil in Ht).
    by rewrite !(Hout Hnone).
Defined.

(** ** What a call writes *)

Section written.
Context `{Keys} (err_text : goerr → string).

(** The pairs in front of the caller's. *)
Definition pairs (kv : list (string * string)) : list any := kv ≫= λ '(k, v), [Str k; Str v].

Definition shown (k v : string) : list (string * string) := if String.eqb v "" then [] else [(k, v)].

Definition context_pairs (l : ZapLogger) (c : context) : list (string * string) :=
  shown RemoteAddr (GetRemoteAddr c) ++ shown OpUserPlatform (GetOpUserPlatform c) ++
  shown TriggerID (GetTriggerID c) ++ shown ConnID (GetConnID c) ++
  shown OperationID (GetOperationID c) ++ shown OpUserID (GetOpUserID c) ++
  (reverse (defaultKeys l) ≫= λ k, shown k (default "" (Value_string k c))).

Lemma prepend_shown k v kv : prepend k v kv = pairs (shown k v) ++ kv.
Proof. unfold prepend, shown. by destruct (String.eqb v ""). Qed.

Lemma pairs_app p q : pairs (p ++ q) = pairs p ++ pairs q.
Proof. unfold pairs. by rewrite bind_app. Qed.

Lemma prepend_defaults_pairs keys c kv :
  prepend_defaults keys c kv = pairs (reverse keys ≫= λ k, shown k (default "" (Value_string k c))) ++ kv.
Proof.
  unfold prepend_defaults. revert kv. induction keys as [|k keys IH]; intros kv; [done |]. simpl.
  rewrite IH, prepend_shown, reverse_cons, bind_app, pairs_app, <- (assoc_L app). f_equal. simpl.
  by rewrite app_nil_r.
Qed.

Lemma tail_pairs l c kv :
  prepend_context c (prepend_defaults (defaultKeys l) c kv) = pairs (context_pairs l c) ++ kv.
Proof.
  unfold prepend_context, context_pairs. rewrite prepend_defaults_pairs, !prepend_shown, !pairs_app.
  by rewrite <- !(assoc_L app).
Qed.

Lemma format_values_length kv : length (format_values kv) = length kv.
Proof.
  assert (∀ n kv, (length kv ≤ n)%nat → length (format_values kv) = length kv) as Hn; [| by eapply Hn].
  induction n as [|n IH]; intros [|k [|v kv']] Hl; simpl in *; try done; [lia.. |].
  destruct v; simpl; rewrite IH by lia; done.
Qed.

(** Every call of a logger ends, although an odd number of keys and values makes it
    call a logger again: it writes nothing when its level is not enabled, and otherwise
    its entry last, with the non-empty values of the context and of the default keys in
    front of the caller's pairs, of which a simplifying logger formats the values; at
    most one other entry precedes it, the error of an odd number.  [SDKLog] loses the
    levels debug, panic and fatal, and [ZPanic] only writes an error. *)
Theorem log_call w pkg l lv c msg kv fuel :
  (2 ≤ fuel)%nat →
  write err_text fuel w pkg l lv (Some c) msg kv = Some (
    if enabled w l lv then
      (if isSimplify l && negb (Nat.even (length kv)) && enabled w pkg ErrorLevel
       then [MkEntry ErrorLevel uneven
               (pairs (context_pairs pkg c) ++ [Str "error"; Str (err_text uneven_err)])] else []) ++
      [MkEntry lv msg (pairs (context_pairs l c) ++
         if isSimplify l && Nat.even (length kv) then format_values kv else kv)]
    else []) ∧
  length (format_values kv) = length kv ∧
  (∀ file line err, Forall (λ logLevel, SDKLog err_text fuel w l (Some c) logLevel file line msg err kv = Some [])
    [LevelDebug; LevelPanic; LevelFatal]) ∧
  ∀ err, ZPanic err_text fuel w l (Some c) msg err kv = ZError err_text fuel w l (Some c) msg err kv.
Proof.
  intros Hf. split_and!; [| apply format_values_length | by intros; repeat constructor | done].
  destruct fuel as [|[|fuel]]; [lia.. |]. unfold write.
  destruct (enabled w l lv); [| done]. cbn [kvAppend].
  destruct (isSimplify l); simpl andb; cbv iota; [| by rewrite tail_pairs].
  destruct (Nat.even (length kv)); simpl andb; cbv iota; [by rewrite tail_pairs |].
  destruct (enabled w pkg ErrorLevel); [| by rewrite tail_pairs].
  destruct (isSimplify pkg); cbn [appendError app length Nat.even format_values]; by rewrite !tail_pairs.
Qed.
End written.

Lemma log_call_witness :
  write (λ _, "oops") 2 (set_state 0 (newTemporaryLevelState InfoLevel) no_log) (demo_logger 0) (demo_logger 0)
    InfoLevel (Some (NewCtx "op1")) "hi" [Str "k"] =
  Some [MkEntry ErrorLevel uneven [Str "operationID"; Str "op1"; Str "error"; Str "oops"];
        MkEntry InfoLevel "hi" [Str "operationID"; Str "op1"; Str "k"]].
Proof.
  destruct (log_call (λ _, "oops") (set_state 0 (newTemporaryLevelState InfoLevel) no_log) (demo_logger 0)
    (demo_logger 0) InfoLevel (NewCtx "op1") "hi" [Str "k"] 2) as [Hw _]; [lia |].
  rewrite Hw. vm_compute. reflexivity.
Defined.
