(* ===== verification/S3Cont.v ===== *)
(** * Object upload (s3/cont)

    The controller over an object store and its cache, which are a class of
    operations (the providers are wrappers of vendor libraries).  Identifiers of
    uploads are JSON in base64: encoding and decoding are parameters, like the
    digest of MD5, printed in hexadecimal. *)

From S2P Require Import Prelude GoStrings Errs.

Local Open Scope Z_scope.

Record ObjectInfo := MkObjectInfo { ETag : string; OKey : string; OSize : Z }.

(** ** The store, the cache *)

Class S3 := {
  world : Type;
  IsNotFound : goerr → bool;
  Engine : string;
  PartSize : Z → world → world * (Z + goerr);
  PresignedPutObject : string → Z → string → world → world * (string + goerr);
  InitiateMultipartUpload : string → string → world → world * ((string * string) + goerr);
  AuthSign_impl : string → string → Z → list Z → world → world * (list (Z * string) + goerr);
  CompleteMultipartUpload : string → string → list (Z * string) → world → world * (string + goerr);
  CopyObject : string → string → world → world * ((string * string) + goerr);
  DeleteObject : string → world → world * (unit + goerr);
  GetKey : string → string → world → world * (ObjectInfo + goerr);
  DelS3Key : string → list string → world → world * (unit + goerr)
}.

(** The errors of the controller. *)
Inductive cont_err :=
| ErrInvalidSize
| ErrHex
| ErrInvalidMd5
| ErrTooManyParts (n : Z)
| HashAlreadyExistsError (info : ObjectInfo)
| ErrUploadID
| ErrMd5Mismatch
| ErrSizeMismatch
| ErrCopyMismatch
| ErrUploadType
| ErrNoAuthSign
| ErrImpl (e : goerr).

Record multipartUploadID := MkUploadID {
  Type_ : Z;
  ID : string;
  Key : string;
  Size : Z;
  Hash : string
}.

Definition hashPath : string := "openim/data/hash/".
Definition tempPath : string := "openim/temp/".
Definition UploadTypeMultipart : Z := 1.
Definition UploadTypePresigned : Z := 2.
Definition partSeparator : string := ",".

Record InitiateUploadResult := MkInitiate {
  UploadID : string;
  RPartSize : Z;
  Sign : option (list (Z * string))
}.

Record UploadResult := MkUploadResult { UHash : string; USize : Z; UKey : string }.

Definition Hour : Z := 3600 * 1000000000.

Section controller.
Context `{S3_ : S3}.

Definition M (A : Type) : Type := world → world * (A + cont_err).

#[export] Instance M_ret : MRet M := λ A x s, (s, inl x).
#[export] Instance M_bind : MBind M := λ A B f m s,
  let '(s, r) := m s in match r with inl x => f x s | inr e => (s, inr e) end.

Definition fail {A} (e : cont_err) : M A := λ s, (s, inr e).
Definition impl {A} (c : world → world * (A + goerr)) : M A := λ s,
  let '(s, r) := c s in (s, match r with inl x => inl x | inr e => inr (ErrImpl e) end).
Definition reply {A} (c : world → world * (A + goerr)) : M (A + goerr) := λ s,
  let '(s, r) := c s in (s, inl r).
Definition guard_ (b : bool) (e : cont_err) : M unit := if b then mret tt else fail e.

(** [hex.EncodeToString(md5.Sum(s))]; JSON and base64 of an upload id; [%d]. *)
Context (md5hex : string → string) (encode : multipartUploadID → string)
  (decode : string → option multipartUploadID) (Itoa : Z → string).

(** [errs.ErrRecordNotFound.Is(err)], with the conversions and the relation
    registered with package errs. *)
Context (Handlers : list (option goerr → option codeError)) (relation : codeRelation).

Definition ErrRecordNotFound : codeError := NewCodeError 1004 "RecordNotFoundError".

Definition Controller_IsNotFound (e : goerr) : bool :=
  IsNotFound e || codeError_Is Handlers relation (Some ErrRecordNotFound) (Some e).

Definition HashPath (md5 : string) : string := path_Join [hashPath; md5].

Definition StatObject (name : string) : world → world * (ObjectInfo + goerr) := GetKey Engine name.

Definition GetHashObject (hash : string) : world → world * (ObjectInfo + goerr) :=
  StatObject (HashPath hash).

Definition md5_Size : Z := 16.

(** The number of parts; [partSize] 0 panics. *)
Definition partNumber_of (size partSize : Z) : Z :=
  Z.quot size partSize + (if 0 <? Z.rem size partSize then 1 else 0).

(** [now] and [uuid] are the values [NowPath] and [UUID] return; [None] is the panic
    of a division by a zero part size. *)
Definition InitiateUploadContentType (now uuid : string) (hash : string) (size expire maxParts : Z)
    (contentType : string) : world → option (world * (InitiateUploadResult + cont_err)) := λ s,
  if size <? 0 then Some (s, inr ErrInvalidSize)
  else match hex_bytes hash with
  | None => Some (s, inr ErrHex)
  | Some n =>
    if negb (n =? md5_Size) then Some (s, inr ErrInvalidMd5)
    else
      let '(s, r) := PartSize size s in
      match r with
      | inr e => Some (s, inr (ErrImpl e))
      | inl partSize =>
        if partSize =? 0 then None
        else
          let partNumber := partNumber_of size partSize in
          if (0 <? maxParts) && (0 <? partNumber) && (partNumber <? maxParts)
          then Some (s, inr (ErrTooManyParts partNumber))
          else Some ((
            info ← reply (StatObject (HashPath hash));
            match info with
            | inl info => fail (HashAlreadyExistsError info)
            | inr e =>
              guard_ (IsNotFound e) (ErrImpl e);;
              if size <=? partSize then
                let key := path_Join [tempPath; now; hash +:+ "_" +:+ Itoa size +:+ "_" +:+ uuid +:+ ".presigned"] in
                url ← impl (PresignedPutObject key expire contentType);
                mret (MkInitiate (encode (MkUploadID UploadTypePresigned "" key size hash)) partSize
                        (Some [(1, url)]))
              else
                upload ← impl (InitiateMultipartUpload (HashPath hash) contentType);
                let maxParts := if maxParts <? 0 then partNumber else maxParts in
                sign ← (if 0 <? maxParts
                        then parts ← impl (AuthSign_impl upload.1 upload.2 (Hour * 24)
                                             ((λ i, Z.of_nat i + 1) <$> seq 0 (Z.to_nat maxParts)));
                             mret (Some parts)
                        else mret None);
                mret (MkInitiate (encode (MkUploadID UploadTypeMultipart upload.1 upload.2 size hash))
                        partSize sign)
            end) s)
      end
  end.

Definition InitiateUpload (now uuid hash : string) (size expire maxParts : Z) :=
  InitiateUploadContentType now uuid hash size expire maxParts "".

(** The deferred deletions, in the order of the map; errors are ignored. *)
Definition delete_all `{MapRange} (cleanObject : gmap string unit) (s : world) : world :=
  fold_left (λ s k, (DeleteObject k s).1) (fst <$> range_map cleanObject) s.

(** The body up to the deferred deletions, for an upload that is not there yet: the
    key of the object, or an error; and the objects to delete. *)
Definition complete_presigned (uuid : string) (upload : multipartUploadID)
    : world → world * ((string + cont_err) * gmap string unit) := λ s,
  let '(s, r) := StatObject (Key upload) s in
  match r with
  | inr e => (s, (inr (ErrImpl e), ∅))
  | inl uploadInfo =>
    let clean := {[ OKey uploadInfo := tt ]} in
    if negb (OSize uploadInfo =? Size upload) then (s, (inr ErrSizeMismatch, clean))
    else if negb (bool_decide (md5hex (Join partSeparator [ETag uploadInfo]) = Hash upload))
    then (s, (inr ErrMd5Mismatch, clean))
    else
      let '(s, r) := CopyObject (OKey uploadInfo) (Key upload +:+ "." +:+ uuid) s in
      match r with
      | inr e => (s, (inr (ErrImpl e), clean))
      | inl (copyKey, copyETag) =>
        let clean := <[copyKey := tt]> clean in
        if negb (bool_decide (copyETag = ETag uploadInfo)) then (s, (inr ErrCopyMismatch, clean))
        else
          let '(s, r) := CopyObject copyKey (HashPath (Hash upload)) s in
          match r with
          | inr e => (s, (inr (ErrImpl e), clean))
          | inl (targetKey, _) => (s, (inl targetKey, clean))
          end
      end
  end.

Definition complete_multipart (upload : multipartUploadID) (partHashs : list string)
    : world → world * (string + cont_err) :=
  impl (CompleteMultipartUpload (ID upload) (Key upload)
          (zip_with (λ i part, (Z.of_nat i + 1, part)) (seq 0 (length partHashs)) partHashs)).

Definition CompleteUpload `{MapRange} (uuid uploadID : string) (partHashs : list string) : M UploadResult := λ s,
  match decode uploadID with
  | None => (s, inr ErrUploadID)
  | Some upload =>
    if negb (bool_decide (md5hex (Join partSeparator partHashs) = Hash upload)) then (s, inr ErrMd5Mismatch)
    else
      let '(s, r) := StatObject (HashPath (Hash upload)) s in
      match r with
      | inl info => (s, inl (MkUploadResult (ETag info) (OSize info) (OKey info)))
      | inr e =>
        if negb (Controller_IsNotFound e) then (s, inr (ErrImpl e))
        else
          let '(s, (target, clean)) :=
            (if Type_ upload =? UploadTypeMultipart then
               let '(s, r) := complete_multipart upload partHashs s in (s, (r, ∅))
             else if Type_ upload =? UploadTypePresigned then complete_presigned uuid upload s
             else (s, (inr ErrUploadType, ∅))) in
          match target with
          | inr e => (delete_all clean s, inr e)
          | inl targetKey =>
            let '(s, r) := DelS3Key Engine [targetKey] s in
            (delete_all clean s,
             match r with
             | inr e => inr (ErrImpl e)
             | inl _ => inl (MkUploadResult (Hash upload) (Size upload) targetKey)
             end)
          end
      end
  end.

Definition AuthSign (uploadID : string) (partNumbers : list Z) : M (list (Z * string)) :=
  match decode uploadID with
  | None => fail ErrUploadID
  | Some upload =>
    if Type_ upload =? UploadTypeMultipart
    then impl (AuthSign_impl (ID upload) (Key upload) (Hour * 24) partNumbers)
    else if Type_ upload =? UploadTypePresigned then fail ErrNoAuthSign
    else fail ErrUploadType
  end.
End controller.

(** ** What the store promises

    Other clients act on the store at any time; [private] are the keys only the
    upload under way writes.  A copy answers the entity tag of the object copied. *)
Class S3Laws `(S3_ : S3) := {
  etag_of : world → string → option string;
  private : string → Prop;
  CopyObject_law src dst w w' k e : CopyObject src dst w = (w', inl (k, e)) →
    k = dst ∧ (private src → etag_of w src = Some e) ∧ (private dst → etag_of w' dst = Some e) ∧
    (∀ key, private key → key ≠ dst → etag_of w' key = etag_of w key);
  GetKey_law engine name w w' info : GetKey engine name w = (w', inl info) → OKey info = name;
  DelS3Key_law engine ks w key : private key → etag_of (DelS3Key engine ks w).1 key = etag_of w key;
  DeleteObject_law k w key : private key → key ≠ k → etag_of (DeleteObject k w).1 key = etag_of w key
}.

(** ** A concrete store: entity tag and size by key, nobody else acting *)

Definition not_found : goerr := Other 0 "not found".

Notation bucket := (gmap string (string * Z)).

#[export] Instance bucket_s3 : S3 := {|
  world := bucket;
  IsNotFound e := bool_decide (address e = 0%nat);
  Engine := "mem";
  PartSize size w := (w, inl (Z.max 5 (size / 10)));
  PresignedPutObject key _ _ w := (w, inl ("http://" +:+ key));
  InitiateMultipartUpload key _ w := (w, inl ("id", key));
  AuthSign_impl id key _ parts w := (w, inl ((λ n, (n, key)) <$> parts));
  CompleteMultipartUpload id key parts w := (<[key := ("multi", 0)]> w, inl key);
  CopyObject src dst w := match w !! src with
                          | Some (e, n) => (<[dst := (e, n)]> w, inl (dst, e))
                          | None => (w, inr not_found)
                          end;
  DeleteObject k w := (delete k w, inl tt);
  GetKey _ name w := (w, match w !! name with
                         | Some (e, n) => inl (MkObjectInfo e name n)
                         | None => inr not_found
                         end);
  DelS3Key _ _ w := (w, inl tt)
|}.

#[export] Instance bucket_laws : S3Laws bucket_s3.
Proof.
  refine (@Build_S3Laws bucket_s3 (λ (w : bucket) k, fst <$> w !! k) (λ _, True) _ _ _ _).
  - simpl. intros src dst w w' k e. destruct (w !! src) as [[e' n]|] eqn:Hs; [| done].
    intros [= <- <- <-]. split_and!; [done | done | intros _; by rewrite lookup_insert_eq |].
    intros key _ Hne. cbn. by rewrite lookup_insert_ne.
  - simpl. intros engine name w w' info. destruct (w !! name) as [[e n]|]; [| done]. by intros [= _ <-].
  - done.
  - simpl. intros k w key _ Hne. cbn. by rewrite lookup_delete_ne.
Defined.

(** ** Lemmas *)

Lemma delete_all_keeps `{S3Laws} `{MapRange} (clean : gmap string unit) w key :
  private key → clean !! key = None → etag_of (delete_all clean w) key = etag_of w key.
Proof.
  intros Hp Hk. unfold delete_all.
  assert (Hn : key ∉ fst <$> range_map clean).
  { rewrite range_map_perm, list_elem_of_fmap. intros ([k []] & -> & Hin%elem_of_map_to_list). simpl in Hk. congruence. }
  revert w. induction (fst <$> range_map clean) as [|k ks IH]; intros w; [done |].
  apply not_elem_of_cons in Hn as [Hne Hn]. cbn [fold_left]. rewrite IH by done. by apply DeleteObject_law.
Qed.

Lemma partNumber_ceil size partSize :
  0 ≤ size → 0 < partSize →
  0 ≤ partNumber_of size partSize ∧
  (partNumber_of size partSize - 1) * partSize < size + (if size =? 0 then 1 else 0) ∧
  size ≤ partNumber_of size partSize * partSize.
Proof.
  intros Hs Hp. unfold partNumber_of. pose proof (Z.quot_rem' size partSize) as Hq.
  pose proof (Z.rem_bound_pos size partSize ltac:(lia) ltac:(lia)).
  pose proof (Z.quot_pos size partSize ltac:(lia) ltac:(lia)).
  destruct (Z.ltb_spec 0 (Z.rem size partSize)), (Z.eqb_spec size 0); nia.
Qed.

(** ** Properties *)

Section properties.
Context `{L : S3Laws} `{MapRange}.
Context (md5hex : string → string) (encode : multipartUploadID → string)
  (decode : string → option multipartUploadID) (Itoa : Z → string)
  (Handlers : list (option goerr → option codeError)) (relation : codeRelation).

Local Notation CompleteUpload_ := (CompleteUpload md5hex decode Handlers relation).

(** C9. A completed pre-signed upload is what its hash says, whatever other clients do
    to the uploaded object meanwhile: when the call succeeds and the object was not
    there before, the object at the hash path has an entity tag whose digest is the
    hash of the upload, provided only this upload writes the hash path and the
    intermediate copy; and the answer names that object. *)
Theorem CompleteUpload_presigned_integrity (uuid id : string) (parts : list string)
    (upload : multipartUploadID) (w w' : world) (res : UploadResult) (e : goerr) :
  decode id = Some upload → Type_ upload = UploadTypePresigned →
  private (HashPath (Hash upload)) → private (Key upload +:+ "." +:+ uuid) →
  Key upload ≠ HashPath (Hash upload) →
  Key upload +:+ "." +:+ uuid ≠ HashPath (Hash upload) →
  (StatObject (HashPath (Hash upload)) w).2 = inr e →
  CompleteUpload_ uuid id parts w = (w', inl res) →
  res = MkUploadResult (Hash upload) (Size upload) (HashPath (Hash upload)) ∧
  ∃ etag, etag_of w' (HashPath (Hash upload)) = Some etag ∧ md5hex etag = Hash upload.
Proof.
  intros Hdec Hty Hp1 Hp2 Hne1 Hne2 Hst. unfold CompleteUpload. rewrite Hdec, Hty.
  destruct (negb _); [done |].
  destruct (StatObject (HashPath (Hash upload)) w) as [w1 r1]. simpl in Hst. subst r1.
  destruct (negb (Controller_IsNotFound _ _ _)); [done |]. simpl.
  unfold complete_presigned.
  destruct (StatObject (Key upload) w1) as [w2 [info|e1]] eqn:H2; [| done].
  apply GetKey_law in H2.
  destruct (negb (OSize info =? Size upload)); [done |].
  destruct (bool_decide_reflect (md5hex (Join partSeparator [ETag info]) = Hash upload)) as [Hmd5|]; [| done].
  simpl. destruct (CopyObject (OKey info) _ w2) as [w3 [[ck ce]|e2]] eqn:H3; [| done].
  destruct (bool_decide_reflect (ce = ETag info)) as [-> |]; [| done]. simpl.
  apply CopyObject_law in H3 as (-> & _ & Hd3 & _). specialize (Hd3 Hp2).
  destruct (CopyObject _ (HashPath (Hash upload)) w3) as [w4 [[tk te]|e3]] eqn:H4; [| done].
  apply CopyObject_law in H4 as (-> & Hs4 & Hd4 & _). specialize (Hd4 Hp1). specialize (Hs4 Hp2).
  rewrite Hd3 in Hs4. simplify_eq.
  pose proof (DelS3Key_law Engine [HashPath (Hash upload)] w4 _ Hp1) as H5.
  destruct (DelS3Key Engine [HashPath (Hash upload)] w4) as [w5 [u|e4]]; [| done].
  intros [= <- <-]. split; [done |]. exists (ETag info). split; [| done].
  rewrite delete_all_keeps; [by rewrite <- Hd4 | done |].
  rewrite lookup_insert_ne, lookup_singleton_ne by congruence. done.
Qed.

(** Upload ids are trusted: for any object of the store, the id that names it with
    a wrong size (ids are plain JSON in base64) makes [CompleteUpload] delete that
    object, whoever it belongs to, and answer an error. *)
Theorem forged_upload_id_deletes (uuid victim id : string) (size : Z) (w w1 w2 : world)
    (e : goerr) (info : ObjectInfo) :
  decode id = Some (MkUploadID UploadTypePresigned "" victim size (md5hex "")) →
  StatObject (HashPath (md5hex "")) w = (w1, inr e) →
  Controller_IsNotFound Handlers relation e = true →
  StatObject victim w1 = (w2, inl info) → OSize info ≠ size →
  CompleteUpload_ uuid id [] w = ((DeleteObject victim w2).1, inr ErrSizeMismatch).
Proof.
  intros Hdec H1 Hnf H2 Hsz. unfold CompleteUpload. rewrite Hdec. simpl. rewrite bool_decide_true by done.
  simpl. rewrite H1, Hnf. simpl. unfold complete_presigned. simpl. rewrite H2.
  destruct (Z.eqb_spec (OSize info) size); [done |]. simpl.
  apply GetKey_law in H2. rewrite H2. f_equal. unfold delete_all.
  assert (range_map {[victim := tt]} = [(victim, tt)]) as ->; [| done].
  apply Permutation_singleton_r. rewrite range_map_perm, map_to_list_singleton. done.
Qed.

(** The number of parts: it is the least number of parts of [partSize] bytes that
    hold [size] bytes.  The test on [maxParts] is inverted: an upload that needs fewer
    parts than the maximum is refused as having too many, and one that is accepted
    with a positive maximum and has to be sent in parts needs at least [maxParts] parts,
    while exactly [maxParts] of them are signed. *)
Theorem InitiateUpload_max_parts (now uuid hash : string) (size expire maxParts : Z)
    (w w1 : world) (partSize : Z) :
  0 ≤ size → hex_bytes hash = Some md5_Size →
  PartSize size w = (w1, inl partSize) → 0 < partSize → 0 < maxParts →
  let n := partNumber_of size partSize in
  let call := InitiateUpload encode Itoa now uuid hash size expire maxParts w in
  (size ≤ n * partSize ∧ (0 < size → (n - 1) * partSize < size)) ∧
  (0 < n < maxParts → call = Some (w1, inr (ErrTooManyParts n))) ∧
  (∀ w' res, call = Some (w', inl res) → 0 < size →
     maxParts ≤ n ∧
     (partSize < size → ∃ id key wa wb parts,
        AuthSign_impl id key (Hour * 24) ((λ i, Z.of_nat i + 1) <$> seq 0 (Z.to_nat maxParts)) wa
        = (wb, inl parts) ∧ Sign res = Some parts)).
Proof.
  intros Hs Hh Hp Hps Hm n call.
  pose proof (partNumber_ceil size partSize Hs Hps) as (Hn0 & Hn1 & Hn2). fold n in Hn0, Hn1, Hn2.
  assert (Hcall : call = if (0 <? n) && (n <? maxParts) then Some (w1, inr (ErrTooManyParts n)) else call).
  { unfold call, InitiateUpload, InitiateUploadContentType. destruct (Z.ltb_spec size 0); [lia |].
    rewrite Hh. simpl. rewrite Hp. destruct (Z.eqb_spec partSize 0); [lia |]. fold n.
    destruct (Z.ltb_spec 0 maxParts); [| lia]. simpl.
    by destruct ((0 <? n) && (n <? maxParts)). }
  split_and!.
  - lia.
  - intros. destruct (Z.eqb_spec size 0); lia.
  - intros [H1 H2]. rewrite Hcall. destruct (Z.ltb_spec 0 n), (Z.ltb_spec n maxParts); try lia. done.
  - intros w' res Hr Hsz. destruct (Z.ltb_spec 0 n); [| nia].
    destruct (Z.ltb_spec n maxParts); [by rewrite Hcall in Hr |]. split; [lia |]. intros Hlt.
    clear Hcall. revert Hr. unfold call, InitiateUpload, InitiateUploadContentType.
    destruct (Z.ltb_spec size 0); [lia |]. rewrite Hh. simpl. rewrite Hp.
    destruct (Z.eqb_spec partSize 0); [lia |]. fold n.
    destruct (Z.ltb_spec n maxParts); [lia |]. rewrite andb_false_r.
    unfold mbind, M_bind, reply. destruct (StatObject _ w1) as [w2 [info|e]]; [done |].
    unfold guard_. destruct (IsNotFound e); [| done]. unfold mret at 1, M_ret.
    destruct (Z.leb_spec size partSize); [lia |]. unfold impl.
    destruct (InitiateMultipartUpload _ _ w2) as [w3 [[id key]|e']]; [| done].
    destruct (Z.ltb_spec maxParts 0); [lia |]. destruct (Z.ltb_spec 0 maxParts); [| lia]. cbn [fst snd].
    destruct (AuthSign_impl id key _ _ w3) as [w4 [parts|e']] eqn:Ha; [| done].
    unfold mret, M_ret. intros [= _ <-]. by exists id, key, w3, w4, parts.
Qed.
End properties.

(** ** Witnesses: a digest that is the identity, ids by number *)

Definition demo_ids : list multipartUploadID :=
  [MkUploadID UploadTypePresigned "" "openim/temp/x.presigned" 3 "aa"].
Definition demo_decode (id : string) : option multipartUploadID :=
  if decide (id = "0") then demo_ids !! 0%nat else None.

Lemma CompleteUpload_presigned_integrity_witness :
  let w : bucket := {[ "openim/temp/x.presigned" := ("aa", 3) ]} in
  let call := CompleteUpload (λ x, x) demo_decode [] ∅ "u" "0" ["aa"] w in
  ∃ w' res, call = (w', inl res) ∧
    ∃ etag, etag_of w' (HashPath "aa") = Some etag ∧ etag = "aa".
Proof.
  intros w call.
  destruct call as [w' [res|e]] eqn:Hc; [| by vm_compute in Hc].
  exists w', res. split; [done |].
  eapply (CompleteUpload_presigned_integrity (S3_ := bucket_s3) (λ x, x) demo_decode [] ∅ "u" "0" ["aa"]
            (MkUploadID UploadTypePresigned "" "openim/temp/x.presigned" 3 "aa") w w' res not_found);
    [reflexivity | reflexivity | exact I | exact I | by vm_compute | by vm_compute | by vm_compute | exact Hc].
Defined.

Lemma forged_upload_id_deletes_witness :
  let victim := "openim/data/hash/someone" in
  let w : bucket := {[ victim := ("tag", 7) ]} in
  let dec (id : string) := Some (MkUploadID UploadTypePresigned "" id 8 "md5()") in
  CompleteUpload (λ x, "md5(" +:+ x +:+ ")") dec [] ∅ "u" victim [] w = (∅, inr ErrSizeMismatch).
Proof.
  intros victim w dec.
  exact (forged_upload_id_deletes (S3_ := bucket_s3) (λ x, "md5(" +:+ x +:+ ")") dec [] ∅ "u" victim victim 8 w w w
           not_found (MkObjectInfo "tag" victim 7) eq_refl eq_refl eq_refl eq_refl ltac:(done)).
Defined.

Lemma InitiateUpload_max_parts_witness :
  let hash := "d41d8cd98f00b204e9800998ecf8427e" in
  InitiateUpload (λ _, "id") (λ _, "n") "now" "uuid" hash 20 60 10 (∅ : bucket) =
  Some (∅, inr (ErrTooManyParts 4)).
Proof.
  intros hash.
  apply (InitiateUpload_max_parts (S3_ := bucket_s3) (λ _, "id") (λ _, "n") "now" "uuid" hash 20 60 10
           (∅ : bucket) ∅ 5); [lia | by vm_compute | reflexivity | lia | lia |].
  vm_compute. split; reflexivity.
Defined.
