(* ===== verification/Inprocess.v ===== *)
(** * In-process service discovery (discovery/inprocess)

    The method registry with its waiters as interleaved steps, the connection
    manager, the registration of services.  A method handler is a number; a remote
    connection is its address, service and secret. *)

From S2P Require Import Prelude GoStrings.
From Stdlib Require Import Strings.Ascii.

Local Open Scope Z_scope.

(** ** The method registry (method_registry.go) *)

Record methodWaiter := MkWaiter { ready_closed : bool; refs : Z }.

(** Waiters are pointers into [heap]; the map of waiters may be nil. *)
Record methodRegistry := MkRegistry {
  methods : gmap string nat;
  waiters : option (gmap string nat);
  heap : list methodWaiter
}.

Definition newMethodRegistry : methodRegistry := MkRegistry ∅ None [].

Definition get_waiter (m : string) (r : methodRegistry) : option nat :=
  waiters r ≫= (.!! m).

(** [close(wait.ready)]; [None] is the panic of a second close. *)
Definition close_ready (w : nat) (r : methodRegistry) : option methodRegistry :=
  match heap r !! w with
  | Some (MkWaiter false n) => Some (MkRegistry (methods r) (waiters r) (<[w := MkWaiter true n]> (heap r)))
  | _ => None
  end.

Definition delete_waiter (m : string) (r : methodRegistry) : methodRegistry :=
  MkRegistry (methods r) (delete m <$> waiters r) (heap r).

Inductive reg_result := RegOk | RegPanic.

(** The loop of [RegisterService], under the lock, on the full names of the methods.
    It panics on a name that is already there, with those before it registered;
    [None] is a panic of [close]. *)
Fixpoint RegisterService (descs : list (string * nat)) (r : methodRegistry)
    : option (methodRegistry * reg_result) :=
  match descs with
  | [] => Some (r, RegOk)
  | (fullMethod, impl) :: descs' =>
      match methods r !! fullMethod with
      | Some _ => Some (r, RegPanic)
      | None =>
          let r := MkRegistry (<[fullMethod := impl]> (methods r)) (waiters r) (heap r) in
          match get_waiter fullMethod r with
          | Some w => match close_ready w (delete_waiter fullMethod r) with
                      | Some r => RegisterService descs' r
                      | None => None
                      end
          | None => RegisterService descs' r
          end
      end
  end.

Inductive get_err := CtxErr | GetTimeout | GetInternal.

(** Where a [getUnaryHandler] call is: before the lock, at the select, woken, before
    the deferred [releaseWaiter], returned. *)
Inductive get_pc :=
| GEnter
| GSelect (w : nat)
| GWoken (w : nat)
| GRelease (w : nat) (res : nat + get_err)
| GDone (res : nat + get_err).

Definition get_enter (m : string) (r : methodRegistry) : methodRegistry * get_pc :=
  match methods r !! m with
  | Some h => (r, GDone (inl h))
  | None =>
      let ws := default ∅ (waiters r) in
      match ws !! m with
      | Some w =>
          (MkRegistry (methods r) (Some ws)
             (alter (λ x, MkWaiter (ready_closed x) (refs x + 1)) w (heap r)), GSelect w)
      | None =>
          (MkRegistry (methods r) (Some (<[m := length (heap r)]> ws))
             (heap r ++ [MkWaiter false 1]), GSelect (length (heap r)))
      end
  end.

Definition releaseWaiter (m : string) (w : nat) (r : methodRegistry) : methodRegistry :=
  match get_waiter m r with
  | Some current =>
      if decide (current = w) then
        let r := MkRegistry (methods r) (waiters r)
                   (alter (λ x, MkWaiter (ready_closed x) (refs x - 1)) w (heap r)) in
        match heap r !! w with
        | Some x => if refs x <=? 0 then delete_waiter m r else r
        | None => r
        end
      else r
  | None => r
  end.

(** The case the select takes. *)
Inductive get_case := GetDone | GetTimer | GetReady.

Definition get_step (cs : get_case) (m : string) (pc : get_pc) (r : methodRegistry)
    : option (methodRegistry * get_pc) :=
  match pc with
  | GEnter => Some (get_enter m r)
  | GSelect w =>
      match cs with
      | GetDone => Some (r, GRelease w (inr CtxErr))
      | GetTimer => Some (r, GRelease w (inr GetTimeout))
      | GetReady => match heap r !! w with
                    | Some (MkWaiter true _) => Some (r, GWoken w)
                    | _ => None
                    end
      end
  | GWoken w => Some (r, GRelease w (match methods r !! m with
                                     | Some h => inl h
                                     | None => inr GetInternal
                                     end))
  | GRelease w res => Some (releaseWaiter m w r, GDone res)
  | GDone _ => None
  end.

(** [close]: takes the waiters under the lock, then closes their channels in any
    order. *)
Inductive close_pc := KEnter | KClosing (ws : list nat) | KDone.

Definition close_step `{MapRange} (pc : close_pc) (r : methodRegistry)
    : option (option (methodRegistry * close_pc)) :=
  match pc with
  | KEnter => Some (Some (MkRegistry (methods r) None (heap r),
                          KClosing (snd <$> range_map (default ∅ (waiters r)))))
  | KClosing (w :: ws) => Some ((λ r, (r, KClosing ws)) <$> close_ready w r)
  | KClosing [] => Some (Some (r, KDone))
  | KDone => None
  end.

(** The registry with any number of callers of each method; [None] is a panic. *)
Record reg_sys := MkRegSys {
  reg : methodRegistry;
  getters : list (string * get_pc);
  closers : list close_pc
}.

Inductive reg_step `{MapRange} (s : reg_sys) : option reg_sys → Prop :=
| step_register descs r' res :
    RegisterService descs (reg s) = Some (r', res) →
    reg_step s (Some (MkRegSys r' (getters s) (closers s)))
| step_register_panic descs :
    RegisterService descs (reg s) = None → reg_step s None
| step_get i cs m pc r' pc' :
    getters s !! i = Some (m, pc) → get_step cs m pc (reg s) = Some (r', pc') →
    reg_step s (Some (MkRegSys r' (<[i := (m, pc')]> (getters s)) (closers s)))
| step_close i pc r' pc' :
    closers s !! i = Some pc → close_step pc (reg s) = Some (Some (r', pc')) →
    reg_step s (Some (MkRegSys r' (getters s) (<[i := pc']> (closers s))))
| step_close_panic i pc :
    closers s !! i = Some pc → close_step pc (reg s) = Some None → reg_step s None.

(** The same steps as a function. *)
Inductive reg_op := OpRegister (descs : list (string * nat)) | OpGet (i : nat) (cs : get_case) | OpClose (i : nat).

Definition reg_exec `{MapRange} (o : reg_op) (s : reg_sys) : option reg_sys :=
  match o with
  | OpRegister descs =>
      '(r', _) ← RegisterService descs (reg s); Some (MkRegSys r' (getters s) (closers s))
  | OpGet i cs =>
      '(m, pc) ← getters s !! i;
      '(r', pc') ← get_step cs m pc (reg s);
      Some (MkRegSys r' (<[i := (m, pc')]> (getters s)) (closers s))
  | OpClose i =>
      pc ← closers s !! i;
      x ← close_step pc (reg s);
      '(r', pc') ← x;
      Some (MkRegSys r' (getters s) (<[i := pc']> (closers s)))
  end.

Fixpoint reg_run `{MapRange} (os : list reg_op) (s : reg_sys) : option reg_sys :=
  match os with
  | [] => Some s
  | o :: os' => s' ← reg_exec o s; reg_run os' s'
  end.

Definition reg_init (calls : list string) (nclose : nat) : reg_sys :=
  MkRegSys newMethodRegistry ((λ m, (m, GEnter)) <$> calls) (replicate nclose KEnter).

(** ** The connection manager (conn_manager.go, service_registry.go) *)

Inductive conn := Local | Remote (addr service secret : string).

(** The broadcast provider answers addresses or an error. *)
Record connManager := MkConnManager {
  localTarget : string;
  serviceTargets : gmap string string;
  broadcastSecret : string;
  broadcastProvider : option (option (list string))
}.

Definition newConnManager : connManager := MkConnManager "" ∅ "" None.

Definition setLocalTarget (target : string) (m : connManager) : connManager :=
  MkConnManager (TrimSpace target) (serviceTargets m) (broadcastSecret m) (broadcastProvider m).

Definition setBroadcastAddressProvider (secret : string) (p : option (option (list string)))
    (m : connManager) : connManager :=
  MkConnManager (localTarget m) (serviceTargets m) secret p.

(** [ctxDone] is the error of a cancelled context. *)
Definition registerLocalTarget (ctxDone : bool) (serviceName target : string) (m : connManager)
    : connManager * bool :=
  if ctxDone then (m, false)
  else (MkConnManager (if bool_decide (localTarget m = "") then target else localTarget m)
          (<[serviceName := target]> (serviceTargets m)) (broadcastSecret m) (broadcastProvider m), true).

Definition serviceTarget (serviceName : string) (m : connManager) : string :=
  let target := default "" (serviceTargets m !! serviceName) in
  if bool_decide (target ≠ "") then target else localTarget m.

Definition connManager_close (m : connManager) : connManager := MkConnManager "" ∅ "" None.

Definition GetConn : conn := Local.

(** The loop of [GetConns] over the addresses. *)
Fixpoint conns_loop (seen : gset string) (serviceName secret : string) (addrs : list string) : list conn :=
  match addrs with
  | [] => []
  | addr :: addrs' =>
      let addr := TrimSpace addr in
      if bool_decide (addr = "") then conns_loop seen serviceName secret addrs'
      else if bool_decide (addr ∈ seen) then conns_loop seen serviceName secret addrs'
      else Remote addr serviceName secret :: conns_loop ({[addr]} ∪ seen) serviceName secret addrs'
  end.

(** [None] is the provider's error. *)
Definition GetConns (serviceName : string) (m : connManager) : option (list conn) :=
  match broadcastProvider m with
  | None => Some [Local]
  | Some None => None
  | Some (Some addrs) =>
      let self := serviceTarget serviceName m in
      let seen : gset string := if bool_decide (self ≠ "") then {[self]} else ∅ in
      Some (Local :: conns_loop seen serviceName (broadcastSecret m) addrs)
  end.

Definition IsSelfNode (c : conn) : bool := match c with Local => true | Remote _ _ _ => false end.

Inductive register_err := EmptyService | EmptyHost | BadPort | CtxCancelled.

Definition Register (ctxDone : bool) (serviceName host : string) (port : Z) (m : connManager)
    : connManager * option register_err :=
  let serviceName := TrimSpace serviceName in
  let host := TrimSpace host in
  if bool_decide (serviceName = "") then (m, Some EmptyService)
  else if bool_decide (host = "") then (m, Some EmptyHost)
  else if (port <=? 0) || (65535 <? port) then (m, Some BadPort)
  else let '(m, ok) := registerLocalTarget ctxDone serviceName (JoinHostPort host (Itoa port)) m in
       (m, if ok then None else Some CtxCancelled).

(** * Lemmas *)

(** ** The registry *)

(** The waiter a call counts in. *)
Definition holds (pc : get_pc) : option nat :=
  match pc with
  | GSelect w | GWoken w | GRelease w _ => Some w
  | GEnter | GDone _ => None
  end.

Definition holding (w : nat) (g : string * get_pc) : nat := if decide (holds g.2 = Some w) then 1 else 0.

Definition closing (pc : close_pc) : list nat := match pc with KClosing ws => ws | _ => [] end.

Record reg_inv (r : methodRegistry) (gs : list (string * get_pc)) (pend : list nat) : Prop := {
  ri_map m w : get_waiter m r = Some w →
    methods r !! m = None ∧ w ∉ pend ∧ (0 < sum_list_with (holding w) gs)%nat ∧
    heap r !! w = Some (MkWaiter false (Z.of_nat (sum_list_with (holding w) gs)));
  ri_inj m m' w : get_waiter m r = Some w → get_waiter m' r = Some w → m = m';
  ri_hold m pc w : (m, pc) ∈ gs → holds pc = Some w →
    get_waiter m r = Some w ∨ w ∈ pend ∨ ∃ n, heap r !! w = Some (MkWaiter true n);
  ri_own m pc w m' : (m, pc) ∈ gs → holds pc = Some w → get_waiter m' r = Some w → m' = m;
  ri_pend : NoDup pend;
  ri_open w : w ∈ pend → ∃ n, heap r !! w = Some (MkWaiter false n)
}.

Lemma elem_of_insert {A} (l : list A) i x y : y ∈ <[i := x]> l → y = x ∨ y ∈ l.
Proof.
  intros [j Hj]%list_elem_of_lookup. apply list_lookup_insert_Some in Hj as [(_ & <- & _) | [_ Hj]].
  - by left.
  - right. by apply list_elem_of_lookup_2 with j.
Qed.

Lemma get_waiter_delete m m' r :
  get_waiter m' (delete_waiter m r) = if decide (m = m') then None else get_waiter m' r.
Proof.
  unfold get_waiter, delete_waiter. simpl. destruct (waiters r) as [ws|]; simpl; [| by case_decide].
  case_decide; subst; [by rewrite lookup_delete_eq | by rewrite lookup_delete_ne].
Qed.

Lemma holds_heap r gs pend m pc w :
  reg_inv r gs pend → (m, pc) ∈ gs → holds pc = Some w → (w < length (heap r))%nat.
Proof.
  intros Hi Hin Hh. apply lookup_lt_is_Some.
  destruct (ri_hold _ _ _ Hi m pc w Hin Hh) as [Hw | [Hw | [n Hw]]].
  - apply (ri_map _ _ _ Hi) in Hw as (_ & _ & _ & Hw). by eexists.
  - apply (ri_open _ _ _ Hi) in Hw as [n Hw]. by eexists.
  - by eexists.
Qed.

Lemma sum_holding_0 w (gs : list (string * get_pc)) :
  (∀ m pc, (m, pc) ∈ gs → holds pc ≠ Some w) → sum_list_with (holding w) gs = 0%nat.
Proof.
  induction gs as [|[m pc] gs IH]; intros Hn; simpl; [done |].
  rewrite IH; [| intros m' pc' ?; apply (Hn m'); by right].
  unfold holding. simpl. rewrite decide_False; [done |]. apply (Hn m pc). by left.
Qed.

Lemma reg_inv_perm r gs pend pend' : pend ≡ₚ pend' → reg_inv r gs pend → reg_inv r gs pend'.
Proof.
  intros Hp [H1 H2 H3 H4 H5 H6]. split; intros; rewrite <- ?Hp; eauto.
  - by apply H6; rewrite Hp.
Qed.

(** A method that nobody waits for is registered. *)
Lemma reg_inv_new r gs pend m h :
  get_waiter m r = None → reg_inv r gs pend →
  reg_inv (MkRegistry (<[m := h]> (methods r)) (waiters r) (heap r)) gs pend.
Proof.
  intros Hn [H1 H2 H3 H4 H5 H6]. split; eauto.
  intros m' w Hw. destruct (H1 m' w Hw) as (Hm & ? & ? & ?). simpl. split_and!; [| done..].
  rewrite lookup_insert_ne; [done |]. intros ->. unfold get_waiter in *. simpl in *. congruence.
Qed.

(** A method that somebody waits for is registered. *)
Lemma reg_inv_wake r gs pend m h w :
  get_waiter m r = Some w → reg_inv r gs pend →
  ∃ r', close_ready w (delete_waiter m (MkRegistry (<[m := h]> (methods r)) (waiters r) (heap r))) = Some r' ∧
    reg_inv r' gs pend.
Proof.
  intros Hw [H1 H2 H3 H4 H5 H6].
  destruct (H1 m w Hw) as (Hm & Hp & Hs & Hh). unfold close_ready. simpl. rewrite Hh.
  eexists. split; [reflexivity |].
  assert (Hlt : (w < length (heap r))%nat) by (apply lookup_lt_is_Some; by eexists).
  assert (Hg : ∀ m', get_waiter m' (MkRegistry (<[m:=h]> (methods r)) (delete m <$> waiters r)
      (<[w:=MkWaiter true (Z.of_nat (sum_list_with (holding w) gs))]> (heap r)))
      = if decide (m = m') then None else get_waiter m' r) by (intros m'; apply (get_waiter_delete m m' r)).
  split; [| | | | done |]; simpl; try setoid_rewrite Hg.
  - intros m' w'. destruct (decide (m = m')) as [|Hne]; [done |]. intros Hw'.
    destruct (H1 m' w' Hw') as (? & ? & ? & ?).
    assert (w ≠ w') by (intros ->; by apply Hne, (H2 m m' w')).
    rewrite lookup_insert_ne by done. by rewrite list_lookup_insert_ne.
  - intros m1 m2 w'. case_decide; [done |]. case_decide; [done |]. apply H2.
  - intros m' pc w' Hin Hd. destruct (H3 m' pc w' Hin Hd) as [Hw' | [Hw' | [n Hw']]].
    + destruct (decide (m = m')) as [<- |]; [| by left]. right; right.
      assert (w' = w) as -> by congruence. rewrite list_lookup_insert_eq by done. by eexists.
    + by right; left.
    + right; right. exists n. rewrite list_lookup_insert_ne; [done | congruence].
  - intros m' pc w' m2 Hin Hd. case_decide; [done |]. by apply H4 with pc.
  - intros w' Hw'. destruct (H6 w' Hw') as [n Hn]. exists n.
    rewrite list_lookup_insert_ne; [done |]. by intros ->.
Qed.

Lemma RegisterService_inv descs r gs pend :
  reg_inv r gs pend →
  ∃ r' res, RegisterService descs r = Some (r', res) ∧ reg_inv r' gs pend ∧ methods r ⊆ methods r' ∧
    (res = RegOk → ∀ m, m ∈ fst <$> descs → is_Some (methods r' !! m)).
Proof.
  revert r. induction descs as [|[m h] descs IH]; intros r Hi; simpl.
  { exists r, RegOk. split_and!; [done.. | set_solver]. }
  destruct (methods r !! m) as [h'|] eqn:Hm; [by exists r, RegPanic |].
  change (get_waiter m (MkRegistry (<[m := h]> (methods r)) (waiters r) (heap r))) with (get_waiter m r).
  assert (∃ r1, reg_inv r1 gs pend ∧ methods r1 = <[m := h]> (methods r) ∧
    (match get_waiter m r with
     | Some w => match close_ready w (delete_waiter m (MkRegistry (<[m := h]> (methods r)) (waiters r) (heap r)))
                 with Some r => RegisterService descs r | None => None end
     | None => RegisterService descs (MkRegistry (<[m := h]> (methods r)) (waiters r) (heap r))
     end) = RegisterService descs r1) as (r1 & Hi1 & Hm1 & ->).
  { destruct (get_waiter m r) as [w|] eqn:Hw.
    - destruct (reg_inv_wake r gs pend m h w Hw Hi) as (r1 & Hc & Hi1). exists r1. rewrite Hc.
      split_and!; [done | | done]. unfold close_ready in Hc. repeat case_match; by simplify_eq/=.
    - eexists. split_and!; [by apply reg_inv_new | done | done]. }
  destruct (IH r1 Hi1) as (r' & res & -> & Hi' & Hsub & Hall). rewrite Hm1 in Hsub.
  exists r', res. split_and!; [done | done | |].
  - etrans; [| exact Hsub]. by apply insert_subseteq.
  - intros Hres m' [-> | Hin]%elem_of_cons; [| by apply Hall].
    exists h. eapply lookup_weaken; [| exact Hsub]. apply lookup_insert_eq.
Qed.

Lemma sum_holding_insert w gs i m pc pc' :
  gs !! i = Some (m, pc) →
  (sum_list_with (holding w) (<[i := (m, pc')]> gs) + (if decide (holds pc = Some w) then 1 else 0) =
   sum_list_with (holding w) gs + (if decide (holds pc' = Some w) then 1 else 0))%nat.
Proof. intros Hi. apply (sum_list_with_insert (holding w) gs i (m, pc) (m, pc') Hi). Qed.

(** A step that does not change what the call holds. *)
Lemma reg_inv_pc r gs pend i m pc pc' :
  gs !! i = Some (m, pc) → holds pc' = holds pc → reg_inv r gs pend →
  reg_inv r (<[i := (m, pc')]> gs) pend.
Proof.
  intros Hi Hh [H1 H2 H3 H4 H5 H6].
  assert (Hs : ∀ w, sum_list_with (holding w) (<[i := (m, pc')]> gs) = sum_list_with (holding w) gs).
  { intros w. pose proof (sum_holding_insert w gs i m pc pc' Hi). rewrite Hh in H. lia. }
  assert (Hin : ∀ m1 pc1 w, (m1, pc1) ∈ <[i := (m, pc')]> gs → holds pc1 = Some w →
            ∃ pc2, (m1, pc2) ∈ gs ∧ holds pc2 = Some w).
  { intros m1 pc1 w [[= -> ->] | ?]%elem_of_insert Hw; [| by eexists].
    exists pc. split; [by apply list_elem_of_lookup_2 with i | congruence]. }
  split; [| done | | | done | done].
  - intros m' w. rewrite Hs. apply H1.
  - intros m1 pc1 w Hm1 Hw. destruct (Hin _ _ _ Hm1 Hw) as (pc2 & ? & ?). by apply H3 with pc2.
  - intros m1 pc1 w m' Hm1 Hw. destruct (Hin _ _ _ Hm1 Hw) as (pc2 & ? & ?). by apply H4 with pc2.
Qed.

(** A call joins the waiter of its method. *)
Lemma reg_inv_join r gs pend i m w ws :
  gs !! i = Some (m, GEnter) → get_waiter m r = Some w → ws = default ∅ (waiters r) → reg_inv r gs pend →
  reg_inv (MkRegistry (methods r) (Some ws)
             (alter (λ x, MkWaiter (ready_closed x) (refs x + 1)) w (heap r)))
    (<[i := (m, GSelect w)]> gs) pend.
Proof.
  intros Hi Hw -> [H1 H2 H3 H4 H5 H6].
  assert (Hs : ∀ w', sum_list_with (holding w') (<[i := (m, GSelect w)]> gs) =
             (sum_list_with (holding w') gs + if decide (w = w') then 1 else 0)%nat).
  { intros w'. pose proof (sum_holding_insert w' gs i m GEnter (GSelect w) Hi) as Hsum.
    destruct (decide (holds GEnter = Some w')); [done |].
    destruct (decide (w = w')), (decide (holds (GSelect w) = Some w')); simplify_eq/=; lia. }
  set (r' := MkRegistry _ _ _).
  assert (Hg : ∀ m', get_waiter m' r' = get_waiter m' r).
  { intros m'. unfold get_waiter, r'. simpl. destruct (waiters r); [done |]. simpl. by rewrite lookup_empty. }
  split; try setoid_rewrite Hg; [| done | | | done |]; simpl.
  - intros m' w' Hw'. rewrite Hs. destruct (H1 m' w' Hw') as (? & ? & ? & Hh).
    split_and!; [done | done | lia |]. destruct (decide (w = w')) as [<- |].
    + rewrite list_lookup_alter_eq, Hh. simpl. do 2 f_equal. lia.
    + rewrite list_lookup_alter_ne, Hh by done. do 2 f_equal. lia.
  - intros m1 pc1 w1 [[= -> ->] | Hin]%elem_of_insert Hw1; [left; by simplify_eq/= |].
    destruct (H3 m1 pc1 w1 Hin Hw1) as [? | [? | [n Hn]]]; [by left | by right; left |].
    right; right. exists n. rewrite list_lookup_alter_ne; [done |].
    intros <-. apply H1 in Hw as (_ & _ & _ & Hw). congruence.
  - intros m1 pc1 w1 m' [[= -> ->] | Hin]%elem_of_insert Hw1 Hm'; [| by apply H4 with pc1 w1].
    simplify_eq/=. by apply H2 with w1.
  - intros w' Hw'. destruct (H6 w' Hw') as [n Hn]. exists n. rewrite list_lookup_alter_ne; [done |].
    intros <-. apply H1 in Hw as (_ & Hw & _). done.
Qed.

(** A call creates the waiter of its method. *)
Lemma reg_inv_create r gs pend i m ws :
  gs !! i = Some (m, GEnter) → get_waiter m r = None → methods r !! m = None →
  ws = default ∅ (waiters r) → reg_inv r gs pend →
  reg_inv (MkRegistry (methods r) (Some (<[m := length (heap r)]> ws)) (heap r ++ [MkWaiter false 1]))
    (<[i := (m, GSelect (length (heap r)))]> gs) pend.
Proof.
  intros Hi Hw Hm -> Hinv. pose proof Hinv as [H1 H2 H3 H4 H5 H6].
  set (w := length (heap r)).
  assert (Hfresh : sum_list_with (holding w) gs = 0%nat).
  { apply sum_holding_0. intros m' pc' Hin Hh. apply (holds_heap _ _ _ _ _ _ Hinv Hin) in Hh.
    unfold w in *. lia. }
  assert (Hs : ∀ w', sum_list_with (holding w') (<[i := (m, GSelect w)]> gs) =
             (sum_list_with (holding w') gs + if decide (w = w') then 1 else 0)%nat).
  { intros w'. pose proof (sum_holding_insert w' gs i m GEnter (GSelect w) Hi) as Hsum.
    destruct (decide (holds GEnter = Some w')); [done |].
    destruct (decide (w = w')), (decide (holds (GSelect w) = Some w')); simplify_eq/=; lia. }
  set (r' := MkRegistry _ _ _).
  assert (Hg : ∀ m', get_waiter m' r' = if decide (m = m') then Some w else get_waiter m' r).
  { intros m'. unfold get_waiter, r'. simpl. case_decide; subst.
    - by rewrite lookup_insert_eq.
    - rewrite lookup_insert_ne by done. destruct (waiters r); [done |]. simpl. by rewrite lookup_empty. }
  assert (Hold : ∀ w' x, heap r !! w' = Some x → heap r' !! w' = Some x).
  { intros w' x Hx. unfold r'. simpl. by apply lookup_app_l_Some. }
  assert (Hlt : ∀ w' x, heap r !! w' = Some x → w' ≠ w).
  { intros w' x Hx%lookup_lt_Some. unfold w. lia. }
  split; try setoid_rewrite Hg; [| | | | done |].
  - intros m' w'. rewrite Hs. destruct (decide (m = m')) as [<- |].
    + intros [= <-]. rewrite decide_True, Hfresh by done. split_and!; [done | | lia |].
      * intros Hp. destruct (H6 w Hp) as [n Hn]. by apply Hlt in Hn.
      * unfold r', w. simpl. by rewrite list_lookup_middle.
    + intros Hw'. destruct (H1 m' w' Hw') as (? & ? & ? & Hh). pose proof (Hlt _ _ Hh).
      rewrite decide_False by done. rewrite Nat.add_0_r. split_and!; [done.. |]. by apply Hold.
  - intros m1 m2 w'. do 2 case_decide; subst; try done.
    + intros [= <-] Hw2. apply H1 in Hw2 as (_ & _ & _ & Hw2). by apply Hlt in Hw2.
    + intros Hw2 [= <-]. apply H1 in Hw2 as (_ & _ & _ & Hw2). by apply Hlt in Hw2.
    + apply H2.
  - intros m1 pc1 w1 [[= -> ->] | Hin]%elem_of_insert Hw1.
    + left. by rewrite decide_True.
    + destruct (H3 m1 pc1 w1 Hin Hw1) as [Hx | [? | [n Hn]]].
      * left. rewrite decide_False; [done |]. intros <-. congruence.
      * by right; left.
      * right; right. exists n. by apply Hold.
  - intros m1 pc1 w1 m' [[= -> ->] | Hin]%elem_of_insert Hw1.
    + simpl in Hw1. simplify_eq. case_decide; [done |]. intros Hw2.
      apply H1 in Hw2 as (_ & _ & _ & Hw2). by apply Hlt in Hw2.
    + case_decide; [| by apply H4 with pc1]. intros [= <-].
      apply (holds_heap _ _ _ _ _ _ Hinv Hin) in Hw1. unfold w in Hw1. lia.
  - intros w' Hw'. destruct (H6 w' Hw') as [n Hn]. exists n. by apply Hold.
Qed.

(** What is left of the holders when a call leaves its waiter. *)
Lemma holding_release gs i m w res w' :
  gs !! i = Some (m, GRelease w res) →
  (sum_list_with (holding w') (<[i := (m, GDone res)]> gs) + (if decide (w = w') then 1 else 0)
   = sum_list_with (holding w') gs)%nat.
Proof.
  intros Hi. pose proof (sum_holding_insert w' gs i m _ (GDone res) Hi) as Hsum.
  destruct (decide (holds (GDone res) = Some w')); [done |].
  destruct (decide (w = w')), (decide (holds (GRelease w res) = Some w')); simplify_eq/=; lia.
Qed.

Lemma elem_of_released (gs : list (string * get_pc)) (i : nat) m res m1 pc1 w1 :
  (m1, pc1) ∈ <[i := (m, GDone res)]> gs → holds pc1 = Some w1 → (m1, pc1) ∈ gs.
Proof. intros [[= -> ->] | ?]%elem_of_insert Hh; done. Qed.

Lemma holding_pos (gs : list (string * get_pc)) m pc w :
  (m, pc) ∈ gs → holds pc = Some w → (0 < sum_list_with (holding w) gs)%nat.
Proof.
  intros [j Hj]%list_elem_of_lookup Hh. pose proof (sum_list_with_ge (holding w) _ j _ Hj) as Hge.
  unfold holding in Hge at 1. simpl in Hge. rewrite decide_True in Hge by done. lia.
Qed.

(** A waiter that the map does not have any more. *)
Lemma reg_inv_release_stale r gs pend i m w res :
  gs !! i = Some (m, GRelease w res) → reg_inv r gs pend → get_waiter m r ≠ Some w →
  reg_inv r (<[i := (m, GDone res)]> gs) pend.
Proof.
  intros Hi [H1 H2 H3 H4 H5 H6] Hcur.
  assert (Hin : (m, GRelease w res) ∈ gs) by (by apply list_elem_of_lookup_2 with i).
  pose proof (elem_of_released gs i m res) as Hel. split; try done; eauto.
  intros m' w' Hw'. destruct (H1 m' w' Hw') as (? & ? & ? & Hh). pose proof (holding_release _ _ _ _ _ w' Hi) as Hs.
  destruct (decide (w = w')) as [<- |]; [| rewrite Nat.add_0_r in Hs; by rewrite Hs].
  assert (m' = m) as -> by (by eapply (H4 m)). congruence.
Qed.

(** A call leaves its waiter, which goes when the call was the last one. *)
Lemma reg_inv_release r gs pend i m w res :
  gs !! i = Some (m, GRelease w res) → reg_inv r gs pend →
  reg_inv (releaseWaiter m w r) (<[i := (m, GDone res)]> gs) pend.
Proof.
  intros Hi Hinv. unfold releaseWaiter. destruct (get_waiter m r) as [cur|] eqn:Hcur.
  2: { apply (reg_inv_release_stale _ _ _ _ _ w); [done | done |]. congruence. }
  destruct (decide (cur = w)) as [-> | Hne].
  2: { apply (reg_inv_release_stale _ _ _ _ _ w); [done | done |]. congruence. }
  destruct Hinv as [H1 H2 H3 H4 H5 H6].
  pose proof (λ w', holding_release _ _ _ _ _ w' Hi) as Hs. pose proof (elem_of_released gs i m res) as Hel.
  destruct (H1 m w Hcur) as (Hm & Hp & Hpos & Hh). pose proof (Hs w) as Hsw.
  rewrite decide_True in Hsw by done. simpl. rewrite list_lookup_alter_eq, Hh. simpl.
  set (heap' := alter _ w (heap r)).
  assert (Hheap : ∀ w', w' ≠ w → heap' !! w' = heap r !! w').
  { intros w' ?. unfold heap'. by rewrite list_lookup_alter_ne. }
  assert (Hheapw : heap' !! w = Some (MkWaiter false (Z.of_nat (sum_list_with (holding w) gs) - 1))).
  { unfold heap'. by rewrite list_lookup_alter_eq, Hh. }
  assert (Hother : ∀ m' w', w' ≠ w → get_waiter m' r = Some w' →
    methods r !! m' = None ∧ w' ∉ pend ∧
    (0 < sum_list_with (holding w') (<[i := (m, GDone res)]> gs))%nat ∧
    heap' !! w' = Some (MkWaiter false (Z.of_nat (sum_list_with (holding w') (<[i := (m, GDone res)]> gs))))).
  { intros m' w' Hne Hw'. destruct (H1 m' w' Hw') as (? & ? & ? & Hh'). specialize (Hs w').
    rewrite decide_False, Nat.add_0_r in Hs by done. rewrite Hs, Hheap by done. by split_and!. }
  assert (Hopen' : ∀ w', w' ∈ pend → ∃ n, heap' !! w' = Some (MkWaiter false n)).
  { intros w' Hw'. destruct (H6 w' Hw') as [n Hn]. exists n. rewrite Hheap; [done | by intros ->]. }
  assert (Hclosed : ∀ w' n, heap r !! w' = Some (MkWaiter true n) → heap' !! w' = Some (MkWaiter true n)).
  { intros w' n Hn. rewrite Hheap; [done |]. intros ->. congruence. }
  destruct (Z.leb_spec (Z.of_nat (sum_list_with (holding w) gs) - 1) 0) as [Hz | Hz].
  - set (r' := MkRegistry (methods r) (waiters r) heap').
    assert (Hg : ∀ m', get_waiter m' (delete_waiter m r') = if decide (m = m') then None else get_waiter m' r)
      by (intros m'; apply (get_waiter_delete m m' r')).
    split; try setoid_rewrite Hg; [| | | | done | done].
    + intros m' w'. case_decide; [done |]. intros Hw'. apply Hother; [| done].
      intros ->. by apply H, (H2 m m' w).
    + intros m1 m2 w'. do 2 (case_decide; [done |]). apply H2.
    + intros m1 pc1 w1 Hin1 Hh1. pose proof (Hel _ _ _ Hin1 Hh1) as Hin2.
      destruct (H3 m1 pc1 w1 Hin2 Hh1) as [Hx | [? | [n Hn]]]; [| by right; left | right; right; eauto].
      destruct (decide (m = m1)) as [<- |]; [| by left].
      exfalso. assert (w1 = w) as -> by congruence.
      pose proof (holding_pos _ _ _ _ Hin1 Hh1). lia.
    + intros m1 pc1 w1 m' Hin1 Hh1. case_decide; [done |]. apply H4 with pc1; eauto.
  - split; simpl; [| done | | | done | done].
    + intros m' w' Hw'. destruct (decide (w' = w)) as [-> |]; [| by apply Hother].
      destruct (H1 m' w Hw') as (? & ? & _ & _). split_and!; [done | done | lia |].
      rewrite Hheapw. do 2 f_equal. lia.
    + intros m1 pc1 w1 Hin1 Hh1.
      destruct (H3 m1 pc1 w1 (Hel _ _ _ Hin1 Hh1) Hh1) as [Hx | [? | [n Hn]]];
        [by left | by right; left | right; right; eauto].
    + intros m1 pc1 w1 m' Hin1 Hh1. apply H4 with pc1; eauto.
Qed.

Lemma get_step_inv r gs pend i cs m pc r' pc' :
  gs !! i = Some (m, pc) → get_step cs m pc r = Some (r', pc') → reg_inv r gs pend →
  reg_inv r' (<[i := (m, pc')]> gs) pend.
Proof.
  intros Hi Hs Hinv. destruct pc as [|w|w|w res|]; simpl in Hs; [| | | | done].
  - unfold get_enter in Hs. destruct (methods r !! m) eqn:Hm.
    { simplify_eq. by apply reg_inv_pc with GEnter. }
    destruct (default ∅ (waiters r) !! m) as [w|] eqn:Hw; simplify_eq.
    + apply reg_inv_join; [done | | done | done].
      unfold get_waiter. destruct (waiters r); [done |]. simpl in Hw. by rewrite lookup_empty in Hw.
    + apply reg_inv_create; [done | | done | done | done].
      unfold get_waiter. by destruct (waiters r).
  - destruct cs; [..| repeat case_match]; simplify_eq; by apply reg_inv_pc with (GSelect w).
  - simplify_eq. by apply reg_inv_pc with (GWoken w).
  - simplify_eq. by apply reg_inv_release.
Qed.

Lemma range_waiters `{MapRange} r w :
  w ∈ snd <$> range_map (default ∅ (waiters r)) ↔ ∃ m, get_waiter m r = Some w.
Proof.
  rewrite list_elem_of_fmap. setoid_rewrite (range_map_perm (default ∅ (waiters r))).
  unfold get_waiter. split.
  - intros ([m w'] & -> & Hm%elem_of_map_to_list). exists m.
    destruct (waiters r); simpl in *; [done | by rewrite lookup_empty in Hm].
  - intros [m Hm]. exists (m, w). split; [done |]. apply elem_of_map_to_list.
    by destruct (waiters r).
Qed.

(** [close] takes the waiters. *)
Lemma reg_inv_take `{MapRange} r gs pend :
  reg_inv r gs pend →
  reg_inv (MkRegistry (methods r) None (heap r)) gs
    ((snd <$> range_map (default ∅ (waiters r))) ++ pend).
Proof.
  intros [H1 H2 H3 H4 H5 H6]. split; try done.
  - intros m pc w Hin Hh. right. rewrite elem_of_app, range_waiters.
    destruct (H3 m pc w Hin Hh) as [? | [? | ?]]; eauto.
  - apply NoDup_app. split_and!; [| | done].
    + apply NoDup_fmap_2_strong.
      * intros [m w] [m' w'] Hm Hm' Heq. simpl in Heq. subst w'. f_equal.
        rewrite (range_map_perm (default ∅ (waiters r))), elem_of_map_to_list in Hm, Hm'.
        assert (Hw : ∀ m, default ∅ (waiters r) !! m = Some w → get_waiter m r = Some w).
        { intros m1. unfold get_waiter. destruct (waiters r); [done |]. simpl. by rewrite lookup_empty. }
        apply (H2 m m' w); auto.
      * rewrite range_map_perm. apply NoDup_map_to_list.
    + intros w [m Hm]%range_waiters. by apply (H1 m w Hm).
  - intros w [[m Hm]%range_waiters | Hw]%elem_of_app; [| auto].
    destruct (H1 m w Hm) as (_ & _ & _ & Hh). by eexists.
Qed.

(** [close] closes the channel of one waiter. *)
Lemma reg_inv_close r gs w pend :
  reg_inv r gs (w :: pend) → ∃ r', close_ready w r = Some r' ∧ reg_inv r' gs pend.
Proof.
  intros [H1 H2 H3 H4 H5 H6]. destruct (H6 w ltac:(by left)) as [n Hn].
  unfold close_ready. rewrite Hn. eexists. split; [reflexivity |].
  apply NoDup_cons in H5 as [Hni H5]. pose proof (lookup_lt_Some _ _ _ Hn) as Hlt.
  split; simpl; [| done | | done | done |].
  - intros m w' Hw'. destruct (H1 m w' Hw') as (? & Hp & ? & ?). split_and!; [done | set_solver | done |].
    rewrite list_lookup_insert_ne; [done | set_solver].
  - intros m pc w' Hin Hh. destruct (H3 m pc w' Hin Hh) as [? | [[-> | ?]%elem_of_cons | [n' Hn']]]; [by left | | by right; left |].
    + right; right. exists n. by apply list_lookup_insert_eq.
    + right; right. exists n'. rewrite list_lookup_insert_ne; [done | congruence].
  - intros w' Hw'. destruct (H6 w' ltac:(by right)) as [n' Hn']. exists n'.
    rewrite list_lookup_insert_ne; [done | set_solver].
Qed.

Definition sys_inv (s : reg_sys) : Prop := reg_inv (reg s) (getters s) (closers s ≫= closing).

Lemma reg_init_inv calls nclose : sys_inv (reg_init calls nclose).
Proof.
  assert (Hp : replicate nclose KEnter ≫= closing = []) by (by induction nclose).
  assert (Hh : ∀ m pc, (m, pc) ∈ (λ m, (m, GEnter)) <$> calls → holds pc = None).
  { intros m pc (c & [= -> ->] & _)%list_elem_of_fmap. done. }
  unfold sys_inv, reg_init. simpl. rewrite Hp.
  split; [done | done | | | constructor | set_solver].
  - intros m pc w Hin Hw. rewrite (Hh m pc Hin) in Hw. done.
  - intros m pc w m' Hin Hw. rewrite (Hh m pc Hin) in Hw. done.
Qed.

Lemma reg_step_inv `{MapRange} s o : reg_step s o → sys_inv s → ∃ s', o = Some s' ∧ sys_inv s'.
Proof.
  intros Hs Hi. destruct Hs as [descs r' res Hr | descs Hr | i cs m pc r' pc' Hg Hs | i pc r' pc' Hg Hs | i pc Hg Hs].
  - destruct (RegisterService_inv descs _ _ _ Hi) as (r1 & res1 & Hr1 & Hi1 & _). rewrite Hr in Hr1.
    simplify_eq. by eexists.
  - destruct (RegisterService_inv descs _ _ _ Hi) as (r1 & res1 & Hr1 & _). congruence.
  - eexists. split; [done |]. by eapply get_step_inv.
  - eexists. split; [done |]. unfold sys_inv in *. simpl.
    destruct (bind_insert_perm closing (closers s) i pc pc' Hg) as (rest & Hp1 & Hp2).
    apply (reg_inv_perm _ _ _ _ Hp1) in Hi.
    eapply reg_inv_perm; [symmetry; exact Hp2 |].
    destruct pc as [|[|w ws]|]; simpl in Hs, Hi; simplify_eq/=.
    + apply reg_inv_take in Hi. by apply Hi.
    + done.
    + destruct (reg_inv_close _ _ _ _ Hi) as (r1 & Hc & Hi1). rewrite Hc in Hs. by simplify_eq/=.
  - exfalso. unfold sys_inv in Hi.
    destruct (bind_insert_perm closing (closers s) i pc pc Hg) as (rest & Hp1 & _).
    apply (reg_inv_perm _ _ _ _ Hp1) in Hi.
    destruct pc as [|[|w ws]|]; simpl in Hs, Hi; simplify_eq/=.
    destruct (reg_inv_close _ _ _ _ Hi) as (r1 & Hc & _). by rewrite Hc in Hs.
Qed.

Lemma reg_reach_inv `{MapRange} calls nclose s :
  rtc (λ a b, reg_step a (Some b)) (reg_init calls nclose) s → sys_inv s.
Proof.
  apply (rtc_ind_r sys_inv); [apply reg_init_inv |].
  intros y z _ Hs Hi. by destruct (reg_step_inv _ _ Hs Hi) as (s' & [= <-] & ?).
Qed.

Lemma reg_exec_step `{MapRange} o s s' : reg_exec o s = Some s' → reg_step s (Some s').
Proof.
  destruct o as [descs | i cs | i]; simpl; intros He.
  - apply bind_Some in He as ([r' res] & ? & ?). simplify_eq. by eapply step_register.
  - apply bind_Some in He as ([m pc] & ? & He). apply bind_Some in He as ([r' pc'] & ? & ?).
    simplify_eq. by eapply step_get.
  - apply bind_Some in He as (pc & ? & He). apply bind_Some in He as (x & ? & He).
    apply bind_Some in He as ([r' pc'] & -> & ?). simplify_eq. by eapply step_close.
Qed.

Lemma reg_run_rtc `{MapRange} os s s' : reg_run os s = Some s' → rtc (λ a b, reg_step a (Some b)) s s'.
Proof.
  revert s. induction os as [|o os IH]; simpl; intros s He; [simplify_eq; apply rtc_refl |].
  apply bind_Some in He as (s1 & H1 & H2). eapply rtc_l; [by eapply reg_exec_step | auto].
Qed.

(** ** Connections *)

Lemma conns_loop_spec seen service secret addrs :
  ∃ l, conns_loop seen service secret addrs = (λ a, Remote a service secret) <$> l ∧
    NoDup l ∧ sublist l (TrimSpace <$> addrs) ∧
    ∀ a, a ∈ l ↔ a ∈ TrimSpace <$> addrs ∧ a ≠ "" ∧ a ∉ seen.
Proof.
  revert seen. induction addrs as [|x addrs IH]; intros seen; simpl.
  { exists []. split_and!; [done | constructor | done | set_solver]. }
  destruct (bool_decide_reflect (TrimSpace x = "")) as [He | Hne].
  { destruct (IH seen) as (l & -> & Hn & Hs & Hl). exists l. split_and!; [done | done | by constructor |].
    intros a. rewrite Hl. set_solver. }
  destruct (bool_decide_reflect (TrimSpace x ∈ seen)) as [Hin | Hni].
  { destruct (IH seen) as (l & -> & Hn & Hs & Hl). exists l. split_and!; [done | done | by constructor |].
    intros a. rewrite Hl. set_solver. }
  destruct (IH ({[TrimSpace x]} ∪ seen)) as (l & -> & Hn & Hs & Hl).
  exists (TrimSpace x :: l). split_and!; [done | | by constructor |].
  - constructor; [rewrite Hl; set_solver | done].
  - intros a. rewrite !elem_of_cons, Hl. destruct (decide (a = TrimSpace x)); set_solver.
Qed.

(** * Properties *)

(** C22. The method registry: however calls waiting for methods, registrations and
    closings interleave, no channel is closed twice; every waiter in the map counts
    exactly the calls that hold it, at least one, so that none is left behind; and no
    wake-up is lost: a call that waits for a method that is registered by now has its
    channel closed, or about to be closed by a [close] under way. *)
Theorem registry_safe `{MapRange} (calls : list string) (nclose : nat) (s : reg_sys) :
  rtc (λ a b, reg_step a (Some b)) (reg_init calls nclose) s →
  ¬ reg_step s None ∧
  (∀ m w, get_waiter m (reg s) = Some w →
     (0 < sum_list_with (holding w) (getters s))%nat ∧
     heap (reg s) !! w = Some (MkWaiter false (Z.of_nat (sum_list_with (holding w) (getters s))))) ∧
  (∀ m w, (m, GSelect w) ∈ getters s → is_Some (methods (reg s) !! m) →
     (∃ n, heap (reg s) !! w = Some (MkWaiter true n)) ∨ w ∈ closers s ≫= closing).
Proof.
  intros Hr. apply reg_reach_inv in Hr as Hi. split_and!.
  - intros Hs. destruct (reg_step_inv _ _ Hs Hi) as (s' & ? & _). done.
  - intros m w Hw. destruct (ri_map _ _ _ Hi m w Hw) as (_ & _ & ? & ?). done.
  - intros m w Hin [h Hm]. destruct (ri_hold _ _ _ Hi m _ w Hin eq_refl) as [Hw | [Hw | Hw]]; [| by right | by left].
    apply (ri_map _ _ _ Hi) in Hw as (Hm' & _). congruence.
Qed.

Definition demo_ops : list reg_op :=
  [OpGet 0 GetReady; OpGet 1 GetReady; OpGet 2 GetReady; OpGet 1 GetDone; OpGet 1 GetDone;
   OpRegister [("/svc/a", 7%nat)]; OpClose 0].

Lemma registry_safe_witness :
  ∃ s, reg_run demo_ops (reg_init ["/svc/a"; "/svc/a"; "/svc/b"] 1) = Some s ∧
    getters s = [("/svc/a", GSelect 0); ("/svc/a", GDone (inr CtxErr)); ("/svc/b", GSelect 1)] ∧
    ¬ reg_step s None ∧
    (∀ m w, (m, GSelect w) ∈ getters s → is_Some (methods (reg s) !! m) →
     (∃ n, heap (reg s) !! w = Some (MkWaiter true n)) ∨ w ∈ closers s ≫= closing).
Proof.
  destruct (reg_run demo_ops (reg_init ["/svc/a"; "/svc/a"; "/svc/b"] 1)) as [s|] eqn:Hr;
    [| by vm_compute in Hr].
  exists s. split; [done |]. split; [by (vm_compute in Hr; simplify_eq) |].
  destruct (registry_safe _ _ _ (reg_run_rtc _ _ _ Hr)) as (H1 & _ & H3). split; [exact H1 | exact H3].
Defined.

(** [GetConns] without a provider is the local connection; with one, it is the
    local connection followed by one remote connection for each distinct address, in
    the order of the provider, trimmed, without empty addresses and without the
    instance's own target; and only the provider's failure is an error. *)
Theorem GetConns_spec (serviceName : string) (m : connManager) :
  match broadcastProvider m with
  | None => GetConns serviceName m = Some [Local]
  | Some None => GetConns serviceName m = None
  | Some (Some addrs) =>
      ∃ l, GetConns serviceName m = Some (Local :: ((λ a, Remote a serviceName (broadcastSecret m)) <$> l)) ∧
        NoDup l ∧ sublist l (TrimSpace <$> addrs) ∧
        ∀ a, a ∈ l ↔ a ∈ TrimSpace <$> addrs ∧ a ≠ "" ∧ a ≠ serviceTarget serviceName m
  end.
Proof.
  unfold GetConns. destruct (broadcastProvider m) as [[addrs|]|]; [| done..].
  destruct (conns_loop_spec (if bool_decide (serviceTarget serviceName m ≠ "")
              then {[serviceTarget serviceName m]} else ∅) serviceName (broadcastSecret m) addrs)
    as (l & -> & Hn & Hs & Hl).
  exists l. split_and!; [done.. |]. intros a. rewrite Hl.
  destruct (bool_decide_reflect (serviceTarget serviceName m ≠ "")) as [Hne | He%dec_stable]; [set_solver |].
  rewrite He. set_solver.
Qed.
