(* ===== verification/RotateLogs.v ===== *)
(** * Log rotation (log/file-rotatelogs)

    The logger over a file system of names and inodes, so that a file that is
    unlinked while it is open is still written.  Times are nanoseconds since the zero
    time; the strftime library is a parameter that formats a time, a clock gives an
    instant and the offset of its zone.  Files are unlinked by goroutines of their
    own, whose steps come whenever they like.  Creating directories always succeeds. *)

From stdpp Require Import pretty.
From S2P Require Import Prelude GoStrings.
From Stdlib Require Import Strings.Ascii.

Local Open Scope Z_scope.

(** ** The file system *)

Record inode := MkInode { data : list string; mtime : Z }.

Inductive entry := File (i : nat) | Symlink (dest : string).

Record fs := MkFs { names : gmap string entry; inodes : gmap nat inode; next_inode : nat }.

(** [len] of what is written. *)
Definition size_of (x : inode) : Z := fold_right (λ s n, Z.of_nat (String.length s) + n) 0 (data x).

(** [filepath.Dir]. *)
Fixpoint dir_prefix (s : string) : string :=
  match s with
  | EmptyString => EmptyString
  | String c s' =>
      if (if ascii_dec c "/" then true else false) then String c (dir_prefix s')
      else match dir_prefix s' with
           | EmptyString => EmptyString
           | p => String c p
           end
  end.
Definition Dir (p : string) : string := Clean (dir_prefix p).

(** Whether a path is rooted. *)
Definition IsAbs (p : string) : bool :=
  match p with String c _ => if ascii_dec c "/" then true else false | EmptyString => false end.

(** The name a path leads to, through at most one symbolic link: links to links are
    not followed. *)
Definition target (f : fs) (p : string) : string :=
  match names f !! p with
  | Some (Symlink dest) => if IsAbs dest then dest else path_Join [Dir p; dest]
  | _ => p
  end.

Definition resolve (f : fs) (p : string) : option nat :=
  match names f !! target f p with Some (File i) => Some i | _ => None end.

(** [os.Stat]. *)
Definition Stat (f : fs) (p : string) : option inode := resolve f p ≫= (inodes f !!.).

(** [os.OpenFile(p, O_CREATE|O_APPEND|O_WRONLY)]. *)
Definition OpenAppend (now : Z) (p : string) (f : fs) : fs * nat :=
  match resolve f p with
  | Some i => (f, i)
  | None => (MkFs (<[target f p := File (next_inode f)]> (names f))
               (<[next_inode f := MkInode [] now]> (inodes f)) (S (next_inode f)), next_inode f)
  end.

(** [os.OpenFile(p, O_CREATE|O_EXCL)]. *)
Definition CreateExcl (now : Z) (p : string) (f : fs) : option fs :=
  match names f !! p with
  | Some _ => None
  | None => Some (MkFs (<[p := File (next_inode f)]> (names f))
                    (<[next_inode f := MkInode [] now]> (inodes f)) (S (next_inode f)))
  end.

Definition Remove (p : string) (f : fs) : fs := MkFs (delete p (names f)) (inodes f) (next_inode f).

(** [os.Symlink]. *)
Definition MakeSymlink (dest p : string) (f : fs) : option fs :=
  match names f !! p with
  | Some _ => None
  | None => Some (MkFs (<[p := Symlink dest]> (names f)) (inodes f) (next_inode f))
  end.

Definition Rename (p q : string) (f : fs) : option fs :=
  match names f !! p with
  | Some e => Some (MkFs (<[q := e]> (delete p (names f))) (inodes f) (next_inode f))
  | None => None
  end.

(** [fh.Write] of a file open for appending. *)
Definition append (now : Z) (i : nat) (p : string) (f : fs) : fs :=
  MkFs (names f) (alter (λ x, MkInode (data x ++ [p]) now) i (inodes f)) (next_inode f).

(** [filepath.Match] for patterns made of [*], [?] and plain characters. *)
Fixpoint match_star (match_rest : string → bool) (s : string) : bool :=
  match_rest s ||
  match s with
  | EmptyString => false
  | String c s' => negb (if ascii_dec c "/" then true else false) && match_star match_rest s'
  end.

Fixpoint Match (pat : string) : string → bool :=
  match pat with
  | EmptyString => λ s, match s with EmptyString => true | _ => false end
  | String a pat' =>
      if ascii_dec a "*" then match_star (Match pat')
      else λ s, match s with
                | EmptyString => false
                | String c s' =>
                    (if ascii_dec a "?" then negb (if ascii_dec c "/" then true else false)
                     else if ascii_dec a c then true else false) && Match pat' s'
                end
  end.

(** [filepath.Glob] of a pattern whose directory has no wildcard: the matching names
    in lexical order. *)
Definition Glob (pat : string) (f : fs) : list string :=
  sort_strings (filter (λ p, Match pat p = true) (map_to_list (names f)).*1).

(** ** Names *)

(** [re.ReplaceAllString] by a star, for a percent sign followed by a percent or plus
    sign or a letter. *)
Definition is_conversion (c : ascii) : bool :=
  let n := N_of_ascii c in
  ((n =? 37) || (n =? 43) || (65 <=? n) && (n <=? 90) || (97 <=? n) && (n <=? 122))%N.

Fixpoint conversions (p : string) : string :=
  match p with
  | String a ((String b p') as rest) =>
      if (if ascii_dec a "%" then true else false) && is_conversion b
      then String "*" (conversions p') else String a (conversions rest)
  | _ => p
  end.

(** The same for a run of stars. *)
Fixpoint stars (p : string) : string :=
  match p with
  | String a ((String b _) as rest) =>
      if (if ascii_dec a "*" then true else false) && (if ascii_dec b "*" then true else false)
      then stars rest else String a (stars rest)
  | _ => p
  end.

Definition globPattern_of (p : string) : string := stars (conversions p).

(** [t.Truncate(d)]. *)
Definition Truncate (d t : Z) : Z := if d <=? 0 then t else t - t mod d.

Record RotateLogs := MkRotateLogs {
  curFn : string;
  curBaseFn : string;
  globPattern : string;
  generation : nat;
  linkName : string;
  maxAge : Z;
  outFh : option nat;
  rotationTime : Z;
  rotationSize : Z;
  rotationCount : Z;
  forceNewFile : bool
}.

Inductive Option_ :=
| WithLinkName (s : string)
| WithMaxAge (d : Z)
| WithRotationTime (d : Z)
| WithRotationSize (n : Z)
| WithRotationCount (n : Z)
| ForceNewFile.

Definition Day : Z := 24 * 3600 * 1000000000.

Definition apply_option (rl : RotateLogs) (o : Option_) : RotateLogs :=
  let 'MkRotateLogs c b g gen link age fh time size count force := rl in
  match o with
  | WithLinkName s => MkRotateLogs c b g gen s age fh time size count force
  | WithMaxAge d => MkRotateLogs c b g gen link (Z.max d 0) fh time size count force
  | WithRotationTime d => MkRotateLogs c b g gen link age fh (Z.max d 0) size count force
  | WithRotationSize n => MkRotateLogs c b g gen link age fh time (Z.max n 0) count force
  | WithRotationCount n => MkRotateLogs c b g gen link age fh time size n force
  | ForceNewFile => MkRotateLogs c b g gen link age fh time size count true
  end.

(** [None] is the error that the pattern is wrong, by [strftime.New], or that both
    limits are set. *)
Definition New (strftime_New : string → bool) (p : string) (options : list Option_) : option RotateLogs :=
  let rl := fold_left apply_option options
              (MkRotateLogs "" "" (globPattern_of p) 0 "" 0 None Day 0 0 false) in
  if negb (strftime_New p) then None
  else if (0 <? maxAge rl) && (0 <? rotationCount rl) then None
  else if (maxAge rl =? 0) && (rotationCount rl =? 0)
  then Some (MkRotateLogs (curFn rl) (curBaseFn rl) (globPattern rl) (generation rl) (linkName rl)
               (7 * Day) (outFh rl) (rotationTime rl) (rotationSize rl) (rotationCount rl)
               (forceNewFile rl))
  else Some rl.

Section rotatelogs.
(** [pattern.FormatString]. *)
Context (FormatString : Z → string).

(** A reading of the clock: the instant and the zone's offset. *)
Record reading := MkReading { now : Z; zone : Z }.

(** [fileutil.GenerateFn]: truncation acts on the apparent local time. *)
Definition GenerateFn (rotationTime : Z) (r : reading) : string :=
  FormatString (Truncate rotationTime (now r + zone r)).

(** [fileutil.CreateFile]. *)
Definition CreateFile (can_create : string → bool) (t : Z) (p : string) (f : fs) : option (fs * nat) :=
  if can_create p then Some (OpenAppend t p f) else None.

Definition generation_name (filename : string) (gen : nat) : string :=
  if decide (gen = 0%nat) then filename else filename +:+ "." +:+ pretty gen.

(** The search for a name that does not exist; [None] when the rounds do not suffice. *)
Fixpoint next_name (fuel : nat) (f : fs) (filename : string) (gen : nat) : option (string * nat) :=
  match fuel with
  | O => None
  | S fuel' =>
      match Stat f (generation_name filename gen) with
      | None => Some (generation_name filename gen, gen)
      | Some _ => next_name fuel' f filename (S gen)
      end
  end.

Definition name_fuel (f : fs) : nat := S (size (names f)).

(** [filepath.Rel], a parameter: only the destination of the symbolic link uses it. *)
Context (Rel : string → string → option string).

Definition link_dest (rl : RotateLogs) (filename : string) : option string :=
  if Contains (linkName rl) (Dir filename) then Rel (Dir (linkName rl)) filename else Some filename.

(** The symbolic link; [None] is an error, with the files as they are then. *)
Definition make_link (rl : RotateLogs) (filename : string) (f : fs) : fs + fs :=
  if bool_decide (linkName rl = "") then inl f
  else match link_dest rl filename with
       | None => inr f
       | Some dest =>
           match MakeSymlink dest (filename +:+ "_symlink") f with
           | None => inr f
           | Some f => match Rename (filename +:+ "_symlink") (linkName rl) f with
                       | Some f => inl f
                       | None => inr f
                       end
           end
       end.

Definition is_symlink (f : fs) (p : string) : bool :=
  match names f !! p with Some (Symlink _) => true | _ => false end.

(** The files to unlink, from the matches of the glob pattern. *)
Definition purge_candidate (rl : RotateLogs) (t : Z) (f : fs) (p : string) : bool :=
  negb (HasSuffix p "_lock" || HasSuffix p "_symlink") &&
  match Stat f p with
  | None => false
  | Some x => negb ((0 <? maxAge rl) && (t - maxAge rl <? mtime x)) &&
              negb ((0 <? rotationCount rl) && is_symlink f p)
  end.

Definition toUnlink (rl : RotateLogs) (t : Z) (f : fs) : list string :=
  let l := filter (λ p, purge_candidate rl t f p = true) (Glob (globPattern rl) f) in
  if 0 <? rotationCount rl then
    if Z.of_nat (length l) <=? rotationCount rl then []
    else take (length l - Z.to_nat (rotationCount rl)) l
  else l.

(** [rotateNolock]: the files, and the names that a goroutine will unlink.  Its errors
    go nowhere: the caller compares them with an error made on the spot. *)
Definition rotateNolock (rl : RotateLogs) (t : Z) (filename : string) (f : fs) : fs * list string :=
  let lockfn := filename +:+ "_lock" in
  match CreateExcl t lockfn f with
  | None => (f, [])
  | Some f =>
      match make_link rl filename f with
      | inr f => (Remove lockfn f, [])
      | inl f =>
          if (maxAge rl <=? 0) && (rotationCount rl <=? 0) then (Remove lockfn f, [])
          else (Remove lockfn f, toUnlink rl t f)
      end
  end.

Inductive writer_result :=
| Writer (fh : option nat)
| CreateErr
| OutOfFuel.

(** [getWriterNolock]. *)
Definition getWriterNolock (can_create : string → bool) (useGenerationalNames : bool) (r : reading)
    (rl : RotateLogs) (f : fs) : (RotateLogs * fs * list string) * writer_result :=
  let baseFn := GenerateFn (rotationTime rl) r in
  let sizeRotation := match Stat f (curFn rl) with
                      | Some x => (0 <? rotationSize rl) && (rotationSize rl <=? size_of x)
                      | None => false
                      end in
  if bool_decide (baseFn = curBaseFn rl) && negb useGenerationalNames && negb sizeRotation
  then ((rl, f, []), Writer (outFh rl))
  else
    let '(gen, force) := if bool_decide (baseFn = curBaseFn rl) then (S (generation rl), true)
                         else (0%nat, sizeRotation || forceNewFile rl) in
    match (if force : bool then next_name (name_fuel f) f baseFn gen else Some (baseFn, gen)) with
    | None => ((rl, f, []), OutOfFuel)
    | Some (filename, gen) =>
        match CreateFile can_create (now r) filename f with
        | None => ((rl, f, []), CreateErr)
        | Some (f, fh) =>
            let '(f, unlinks) := rotateNolock rl (now r) filename f in
            ((MkRotateLogs filename baseFn (globPattern rl) gen (linkName rl) (maxAge rl) (Some fh)
                (rotationTime rl) (rotationSize rl) (rotationCount rl) (forceNewFile rl), f, unlinks),
             Writer (Some fh))
        end
    end.

(** ** The logger, the files and the goroutines that unlink *)

Record log_sys := MkLogSys { rl : RotateLogs; files : fs; unlinking : list string }.

Inductive log_op :=
| Write (r : reading) (p : string)
| Rotate (r : reading)
| Unlink (k : nat)
| Close.

Inductive log_result := Written | LogErr | LogDone.

(** [fh.Write] of a nil file is an error. *)
Definition log_exec (can_create : string → bool) (o : log_op) (s : log_sys) : log_sys * log_result :=
  match o with
  | Write r p =>
      let '((rl, f, us), w) := getWriterNolock can_create false r (rl s) (files s) in
      match w with
      | Writer (Some fh) => (MkLogSys rl (append (now r) fh p f) (unlinking s ++ us), Written)
      | Writer None => (MkLogSys rl f (unlinking s ++ us), LogErr)
      | _ => (MkLogSys rl f (unlinking s ++ us), LogErr)
      end
  | Rotate r =>
      let '((rl, f, us), w) := getWriterNolock can_create true r (rl s) (files s) in
      (MkLogSys rl f (unlinking s ++ us), match w with Writer _ => LogDone | _ => LogErr end)
  | Unlink k =>
      match unlinking s !! k with
      | Some p => (MkLogSys (rl s) (Remove p (files s)) (cut_at k (unlinking s)), LogDone)
      | None => (s, LogDone)
      end
  | Close =>
      let 'MkRotateLogs c b g gen link age _ time size count force := rl s in
      (MkLogSys (MkRotateLogs c b g gen link age None time size count force) (files s) (unlinking s),
       LogDone)
  end.

Definition log_run (can_create : string → bool) (os : list log_op) (s : log_sys) : log_sys :=
  fold_left (λ s o, (log_exec can_create o s).1) os s.
End rotatelogs.

(** * Lemmas *)

(** ** Generation names *)

Lemma generation_name_inj base g h : generation_name base g = generation_name base h → g = h.
Proof.
  assert (Hne : ∀ n : nat, base +:+ "." +:+ pretty n ≠ base) by (intros n; by apply string_app_neq).
  unfold generation_name. repeat case_decide; intros Hgh; subst; [done | | |].
  - symmetry in Hgh. by apply Hne in Hgh.
  - by apply Hne in Hgh.
  - apply (inj (String.app base)) in Hgh. simpl in Hgh. injection Hgh as Hgh.
    by apply pretty_nat_inj in Hgh.
Qed.

Lemma Stat_None_names f p : names f !! p = None → Stat f p = None.
Proof. intros Hp. unfold Stat, resolve, target. by rewrite Hp, Hp. Qed.

Lemma next_name_scan fuel f base gen :
  (∃ g, next_name fuel f base gen = Some (generation_name base g, g) ∧ (gen ≤ g)%nat ∧
        Stat f (generation_name base g) = None ∧
        ∀ h, (gen ≤ h < g)%nat → is_Some (Stat f (generation_name base h))) ∨
  (next_name fuel f base gen = None ∧
   ∀ h, (gen ≤ h < gen + fuel)%nat → is_Some (Stat f (generation_name base h))).
Proof.
  revert gen. induction fuel as [|fuel IH]; intros gen; simpl; [right; split; [done | lia] |].
  destruct (Stat f (generation_name base gen)) as [x|] eqn:Hx.
  - destruct (IH (S gen)) as [(g & -> & ? & ? & Hall) | [-> Hall]]; [left; exists g | right];
      repeat split; try done; try lia; intros h Hh; destruct (decide (h = gen)) as [-> | ?];
      eauto; apply Hall; lia.
  - left. exists gen. repeat split; [done.. | lia].
Qed.


(** A round for every name there is, and one more, is enough. *)
Lemma next_name_total f base gen :
  ∃ g, next_name (name_fuel f) f base gen = Some (generation_name base g, g) ∧ (gen ≤ g)%nat ∧
       Stat f (generation_name base g) = None ∧
       ∀ h, (gen ≤ h < g)%nat → is_Some (Stat f (generation_name base h)).
Proof.
  destruct (next_name_scan (name_fuel f) f base gen) as [? | [_ Hall]]; [done | exfalso].
  assert (Hle : (S (size (names f)) ≤ length (map_to_list (names f)))%nat).
  2: { rewrite length_map_to_list in Hle. lia. }
  rewrite <- (length_fmap fst).
  rewrite <- (length_seq (S (size (names f))) gen), <- (length_fmap (generation_name base)).
  apply submseteq_length, NoDup_submseteq.
  - apply NoDup_fmap_2_strong; [| apply NoDup_seq]. intros g h _ _. apply generation_name_inj.
  - intros p (h & -> & Hh)%list_elem_of_fmap. apply elem_of_seq in Hh.
    destruct (Hall h) as [x Hx]; [unfold name_fuel; lia |].
    destruct (names f !! generation_name base h) as [e|] eqn:He.
    + apply list_elem_of_fmap. eexists (_, _). split; [done |]. by apply elem_of_map_to_list.
    + by rewrite Stat_None_names in Hx.
Qed.

(** ** Well-formed file systems *)

(** The only symbolic link is the logger's. *)
Record fs_ok (link : string) (f : fs) : Prop := {
  ok_dom : ∀ i, is_Some (inodes f !! i) ↔ (i < next_inode f)%nat;
  ok_file : ∀ p i, names f !! p = Some (File i) → (i < next_inode f)%nat;
  ok_link : ∀ p dest, names f !! p = Some (Symlink dest) → p = link ∧ link ≠ ""
}.

(** What follows an operation that writes no data: the inodes there were remain as
    they are, and so does the entry of a name the operation leaves alone. *)
Record fs_grows (p : string) (f f' : fs) : Prop := {
  grows_inodes : inodes f ⊆ inodes f';
  grows_next : (next_inode f ≤ next_inode f')%nat;
  grows_name : names f' !! p = names f !! p
}.

Lemma fs_grows_refl p f : fs_grows p f f.
Proof. by split. Qed.

Lemma fs_grows_trans p f g h : fs_grows p f g → fs_grows p g h → fs_grows p f h.
Proof. intros [] []. split; [by etrans | lia | congruence]. Qed.

Lemma names_target link f p : fs_ok link f → p ≠ link → target f p = p.
Proof.
  intros Hok Hp. unfold target. destruct (names f !! p) as [[|dest]|] eqn:He; try done.
  by apply (ok_link _ _ Hok) in He as [-> _].
Qed.

Lemma resolve_plain link f p : fs_ok link f → p ≠ link →
  resolve f p = match names f !! p with Some (File i) => Some i | _ => None end.
Proof. intros Hok Hp. unfold resolve. by rewrite (names_target link). Qed.

Lemma resolve_inode link f p i : fs_ok link f → resolve f p = Some i → is_Some (inodes f !! i).
Proof.
  intros Hok. unfold resolve. intros Hp. apply (ok_dom _ _ Hok).
  destruct (names f !! target f p) as [[|]|] eqn:He; simplify_eq. by apply (ok_file _ _ Hok) in He.
Qed.

Lemma fresh_inode link f : fs_ok link f → inodes f !! next_inode f = None.
Proof.
  intros Hok. apply eq_None_not_Some. intros H%(ok_dom _ _ Hok). lia.
Qed.

(** A new, empty file. *)
Definition add_file (t : Z) (p : string) (f : fs) : fs :=
  MkFs (<[p := File (next_inode f)]> (names f)) (<[next_inode f := MkInode [] t]> (inodes f))
    (S (next_inode f)).

Lemma add_file_ok link t p f : fs_ok link f → fs_ok link (add_file t p f).
Proof.
  intros Hok. split; simpl.
  - intros i. rewrite lookup_insert_is_Some', (ok_dom _ _ Hok). lia.
  - intros q i. rewrite lookup_insert_Some. intros [[_ [= <-]] | [_ Hq]]; [lia |].
    apply (ok_file _ _ Hok) in Hq. lia.
  - intros q dest. rewrite lookup_insert_Some. intros [[_ [=]] | [_ Hq]].
    by apply (ok_link _ _ Hok) in Hq.
Qed.

Lemma add_file_grows link t p q f : fs_ok link f → p ≠ q → fs_grows p f (add_file t q f).
Proof.
  intros Hok Hpq. split; simpl; [| lia | by rewrite lookup_insert_ne].
  eapply insert_subseteq, fresh_inode, Hok.
Qed.

Lemma OpenAppend_cases link t p f f' i :
  fs_ok link f → p ≠ link → OpenAppend t p f = (f', i) →
  (f' = f ∧ names f !! p = Some (File i)) ∨
  (f' = add_file t p f ∧ i = next_inode f ∧ names f !! p = None).
Proof.
  intros Hok Hp. unfold OpenAppend. rewrite (resolve_plain link), (names_target link) by done.
  destruct (names f !! p) as [[j|dest]|] eqn:He; intros [= <- <-]; [by left | | by right].
  by apply (ok_link _ _ Hok) in He as [-> _].
Qed.

Lemma Remove_ok link p f : fs_ok link f → fs_ok link (Remove p f).
Proof.
  intros [? Hf Hl]. split; simpl; [done | |].
  - intros q i [_ Hq]%lookup_delete_Some. by eapply Hf.
  - intros q dest [_ Hq]%lookup_delete_Some. by eapply Hl.
Qed.

Lemma Remove_grows p q f : p ≠ q → fs_grows p f (Remove q f).
Proof. intros Hpq. split; simpl; [done | lia | by rewrite lookup_delete_ne]. Qed.

Lemma append_ok link t i p f : fs_ok link f → fs_ok link (append t i p f).
Proof.
  intros [Hd Hf Hl]. split; simpl; [| done..].
  intros j. rewrite <- Hd. by rewrite lookup_alter_is_Some.
Qed.

Section operations.
Context (FormatString : Z → string) (Rel : string → string → option string).
Context (can_create : string → bool).

(** The link is set through a temporary one, which does not exist before or after. *)
Lemma make_link_spec link p rl f f' :
  linkName rl = link → fs_ok link f → p ≠ link →
  make_link Rel rl p f = inl f' ∨ make_link Rel rl p f = inr f' →
  fs_ok link f' ∧ fs_grows p f f'.
Proof.
  intros Hl Hok Hp Hm. unfold make_link in Hm. rewrite Hl in Hm.
  assert (Hsame : fs_ok link f ∧ fs_grows p f f) by (split; [done | apply fs_grows_refl]).
  case_bool_decide as Hnl; [by destruct Hm; simplify_eq |].
  destruct (link_dest Rel rl p) as [dest|]; [| by destruct Hm; simplify_eq].
  unfold MakeSymlink in Hm.
  destruct (names f !! (p +:+ "_symlink")) eqn:Htmp; [by destruct Hm; simplify_eq |].
  unfold Rename in Hm. simpl in Hm. rewrite lookup_insert_eq in Hm.
  rewrite delete_insert_id in Hm by done.
  destruct Hm; simplify_eq. split; [split; simpl |].
  - apply (ok_dom _ _ Hok).
  - intros q i. rewrite lookup_insert_Some. intros [[_ [=]] | [_ Hq]]. by eapply ok_file.
  - intros q d. rewrite lookup_insert_Some. intros [[<- _] | [_ Hq]]; [done |]. by eapply ok_link.
  - split; simpl; [done | lia | by rewrite lookup_insert_ne].
Qed.

(** The files after a rotation, which differ from those before at the lock and the link. *)
Lemma rotateNolock_spec link rl t p f f' us :
  linkName rl = link → fs_ok link f → p ≠ link →
  rotateNolock Rel rl t p f = (f', us) → fs_ok link f' ∧ fs_grows p f f'.
Proof.
  intros Hl Hok Hp. unfold rotateNolock, CreateExcl.
  destruct (names f !! (p +:+ "_lock")) eqn:Hlock; [intros [= <- <-]; split; [done | apply fs_grows_refl] |].
  assert (Hne : p ≠ p +:+ "_lock") by (intros H; symmetry in H; by apply string_app_neq in H).
  fold (add_file t (p +:+ "_lock") f).
  pose proof (add_file_ok link t (p +:+ "_lock") f Hok) as Hok1.
  pose proof (add_file_grows link t p (p +:+ "_lock") f Hok Hne) as Hg1.
  set (f1 := add_file t (p +:+ "_lock") f) in *.
  intros Hr.
  assert (∃ f2, f' = Remove (p +:+ "_lock") f2 ∧ fs_ok link f2 ∧ fs_grows p f1 f2)
    as (f2 & -> & Hok2 & Hg2).
  { destruct (make_link Rel rl p f1) as [f2 | f2] eqn:Hm;
      (destruct (make_link_spec link p rl f1 f2) as [? ?]; [done.. | by auto |]);
      [destruct (_ && _) |]; simplify_eq; by exists f2. }
  split; [by apply Remove_ok |].
  eapply fs_grows_trans; [| by apply Remove_grows]. by eapply fs_grows_trans.
Qed.

(** Whether the current file is as large as it may be. *)
Definition oversize (rl : RotateLogs) (f : fs) : bool :=
  match Stat f (curFn rl) with
  | Some x => (0 <? rotationSize rl) && (rotationSize rl <=? size_of x)
  | None => false
  end.

Definition opened (rl : RotateLogs) (filename baseFn : string) (gen fh : nat) : RotateLogs :=
  MkRotateLogs filename baseFn (globPattern rl) gen (linkName rl) (maxAge rl) (Some fh)
    (rotationTime rl) (rotationSize rl) (rotationCount rl) (forceNewFile rl).

(** Where the search for a name begins, and whether there is one. *)
Definition first_generation (rl : RotateLogs) (base : string) : nat :=
  if bool_decide (base = curBaseFn rl) then S (generation rl) else 0.

Definition searches (rl : RotateLogs) (base : string) (f : fs) : bool :=
  bool_decide (base = curBaseFn rl) || oversize rl f || forceNewFile rl.

(** The name of the file to open. *)
Definition new_name (rl : RotateLogs) (base : string) (f : fs) (filename : string) (gen : nat) : Prop :=
  filename = generation_name base gen ∧
  if searches rl base f
  then (first_generation rl base ≤ gen)%nat ∧ Stat f filename = None ∧
       ∀ h, (first_generation rl base ≤ h < gen)%nat → is_Some (Stat f (generation_name base h))
  else gen = 0%nat.

(** A writer is the one in use, or a file is opened. *)
Lemma getWriterNolock_cases gens r rl f rl' f' us w :
  getWriterNolock FormatString Rel can_create gens r rl f = ((rl', f', us), w) →
  let base := GenerateFn FormatString (rotationTime rl) r in
  (rl' = rl ∧ f' = f ∧ us = [] ∧
   (w = Writer (outFh rl) ∧ base = curBaseFn rl ∧ gens = false ∧ oversize rl f = false ∨
    w = CreateErr)) ∨
  ∃ filename gen f1 fh, new_name rl base f filename gen ∧
    w = Writer (Some fh) ∧ rl' = opened rl filename base gen fh ∧
    OpenAppend (now r) filename f = (f1, fh) ∧
    rotateNolock Rel rl (now r) filename f1 = (f', us).
Proof.
  unfold getWriterNolock. fold (oversize rl f). cbv zeta.
  set (base := GenerateFn FormatString (rotationTime rl) r).
  destruct (bool_decide (base = curBaseFn rl) && negb gens && negb (oversize rl f)) eqn:Hkeep.
  { intros [= <- <- <- <-]. left.
    apply andb_true_iff in Hkeep as [[Hb Hg]%andb_true_iff Hs].
    apply bool_decide_eq_true in Hb. apply negb_true_iff in Hg, Hs. by auto 10. }
  clear Hkeep.
  assert ((if bool_decide (base = curBaseFn rl) then (S (generation rl), true)
           else (0%nat, oversize rl f || forceNewFile rl)) =
          (first_generation rl base, searches rl base f)) as ->.
  { unfold first_generation, searches. by case_bool_decide. }
  cbv beta iota.
  assert (∃ name gen, (if searches rl base f
            then next_name (name_fuel f) f base (first_generation rl base)
            else Some (base, first_generation rl base)) = Some (name, gen) ∧
            new_name rl base f name gen) as (name & gen & -> & Hname).
  { unfold new_name. destruct (searches rl base f) eqn:Hs.
    - destruct (next_name_total f base (first_generation rl base)) as (g & ? & ?). by eauto 10.
    - exists base, 0%nat. unfold searches, first_generation in *.
      case_bool_decide; [done |]. by split. }
  unfold CreateFile. destruct (can_create name); [| intros; simplify_eq; by auto 10].
  destruct (OpenAppend (now r) name f) as [f1 fh] eqn:Ho.
  destruct (rotateNolock Rel rl (now r) name f1) as [f2 us2] eqn:Hr.
  intros [= <- <- <- <-]. right. by exists name, gen, f1, fh.
Qed.
(** ** The logger's invariant *)

(** Names that are not the link's. *)
Definition names_apart (link : string) : Prop := ∀ t g, generation_name (FormatString t) g ≠ link.

Record log_inv (link : string) (s : log_sys) : Prop := {
  li_link : linkName (rl s) = link;
  li_fs : fs_ok link (files s);
  li_out : ∀ i, outFh (rl s) = Some i → is_Some (inodes (files s) !! i) ∧ curFn (rl s) ≠ link;
  li_cur : ∀ i j, outFh (rl s) = Some i → names (files s) !! curFn (rl s) = Some (File j) → j = i
}.

(** What holds when a file has been opened: [x] is its inode before the write. *)
Record opened_spec (link filename : string) (fh : nat) (f f' : fs) : Prop := {
  os_fs : fs_ok link f';
  os_inodes : inodes f ⊆ inodes f';
  os_name : names f' !! filename = Some (File fh);
  os_inode : is_Some (inodes f' !! fh);
  os_new : Stat f filename = None → inodes f !! fh = None ∧ data <$> inodes f' !! fh = Some [];
  os_old : is_Some (Stat f filename) → Stat f filename = inodes f' !! fh ∧ is_Some (inodes f !! fh)
}.

Lemma open_file_spec link rl t filename f f1 f' fh us :
  linkName rl = link → fs_ok link f → filename ≠ link →
  OpenAppend t filename f = (f1, fh) → rotateNolock Rel rl t filename f1 = (f', us) →
  opened_spec link filename fh f f'.
Proof.
  intros Hl Hok Hne Ho Hr.
  destruct (OpenAppend_cases link t filename f f1 fh) as [[-> Hn] | (-> & -> & Hn)]; [done.. | |].
  - destruct (rotateNolock_spec link rl t filename f f' us) as [Hok' [Hi _ Hn']]; [done.. |].
    destruct (resolve_inode link f filename fh Hok) as [x Hx].
    { by rewrite (resolve_plain link), Hn. }
    assert (Hs : Stat f filename = Some x) by (unfold Stat; by rewrite (resolve_plain link), Hn).
    pose proof (lookup_weaken _ _ _ _ Hx Hi) as Hx'.
    split; [done.. | congruence | by exists x | congruence |].
    intros _. rewrite Hs, Hx, Hx'. split; [done | by exists x].
  - pose proof (add_file_ok link t filename f Hok) as Hok1.
    destruct (rotateNolock_spec link rl t filename _ f' us Hl Hok1 Hne Hr) as [Hok' [Hi _ Hn']].
    pose proof (fresh_inode link f Hok) as Hfresh.
    assert (Hx : inodes f' !! next_inode f = Some (MkInode [] t)).
    { eapply lookup_weaken; [| done]. simpl. apply lookup_insert_eq. }
    assert (Hs : Stat f filename = None) by by apply Stat_None_names.
    split; [done | | | by eexists | |].
    + etrans; [| exact Hi]. by apply insert_subseteq.
    + rewrite Hn'. simpl. apply lookup_insert_eq.
    + by rewrite Hx.
    + rewrite Hs. by intros [].
Qed.

Lemma log_exec_inv link o s :
  names_apart link → log_inv link s → log_inv link (log_exec FormatString Rel can_create o s).1.
Proof.
  intros Hap [Hlink Hfs Hout Hcur].
  assert (Hget : ∀ g r rl' f' us w,
    getWriterNolock FormatString Rel can_create g r (rl s) (files s) = ((rl', f', us), w) →
    ∀ us', log_inv link (MkLogSys rl' f' us')).
  { intros g r rl' f' us w Hg us'.
    destruct (getWriterNolock_cases g r (rl s) (files s) rl' f' us w Hg)
      as [(-> & -> & _) | (name & gen & f1 & fh & [Hn _] & _ & -> & Ho & Hr)]; [done |].
    assert (Hne : name ≠ link) by (rewrite Hn; apply Hap).
    destruct (open_file_spec link (rl s) (now r) name (files s) f1 f' fh us) as [H1 _ H3 H4 _ _]; [done.. |].
    split; simpl; [done.. | |]; intros i; [by intros [= <-] |].
    intros j [= <-] Hj. congruence. }
  destruct o as [r p | r | k |]; simpl.
  - destruct (getWriterNolock _ _ _ _ _ _ _) as [[[rl' f'] us] w] eqn:Hg.
    pose proof (Hget _ _ _ _ _ _ Hg (unlinking s ++ us)) as [Hl Hf Ho Hc]. simpl in *.
    destruct w as [[fh|] | |]; simpl; [| by split..].
    split; simpl; [done | by apply append_ok | | done].
    intros i Hi. rewrite lookup_alter_is_Some. by apply Ho.
  - destruct (getWriterNolock _ _ _ _ _ _ _) as [[[rl' f'] us] w] eqn:Hg. by eapply Hget.
  - destruct (unlinking s !! k) as [p|]; simpl; [| by split].
    split; simpl; [done | by apply Remove_ok | done |].
    intros i j Hi [_ Hj]%lookup_delete_Some. by eapply Hcur.
  - destruct (rl s) eqn:Hrl. simpl in *. by split.
Qed.

Lemma log_run_inv link os s :
  names_apart link → log_inv link s → log_inv link (log_run FormatString Rel can_create os s).
Proof.
  intros Hap. revert s. induction os as [|o os IH]; intros s Hs; simpl; [done |].
  by apply IH, log_exec_inv.
Qed.
(** ** Purging, without a link *)

(** A file that the purge may consider. *)
Definition is_log (rl : RotateLogs) (f : fs) (p : string) : bool :=
  Match (globPattern rl) p && negb (HasSuffix p "_lock" || HasSuffix p "_symlink") &&
  match Stat f p with Some _ => true | None => false end.

Lemma elem_of_Glob pat f p : p ∈ Glob pat f ↔ Match pat p = true ∧ is_Some (names f !! p).
Proof.
  unfold Glob. rewrite elem_of_sort_strings, list_elem_of_filter, list_elem_of_fmap.
  split; intros [Hm H]; split; try done.
  - destruct H as ([q e] & -> & He%elem_of_map_to_list). by exists e.
  - destruct H as [e He]. exists (p, e). split; [done |]. by apply elem_of_map_to_list.
Qed.

Lemma names_NoDup f : NoDup (map_to_list (names f)).*1.
Proof. apply NoDup_fst_map_to_list. Qed.

Lemma Glob_NoDup pat f : NoDup (Glob pat f).
Proof. unfold Glob. rewrite (sort_strings_perm _). apply NoDup_filter, names_NoDup. Qed.

Lemma Stat_is_Some_names f p : fs_ok "" f → is_Some (Stat f p) → is_Some (names f !! p).
Proof.
  intros Hok [x Hx]. destruct (names f !! p) as [e|] eqn:He; [by exists e |].
  by rewrite Stat_None_names in Hx.
Qed.

Lemma no_symlink f p : fs_ok "" f → is_symlink f p = false.
Proof.
  intros Hok. unfold is_symlink. destruct (names f !! p) as [[|d]|] eqn:He; try done.
  by apply (ok_link _ _ Hok) in He as [_ ?].
Qed.

Lemma resolve_nolink f p : fs_ok "" f →
  resolve f p = match names f !! p with Some (File i) => Some i | _ => None end.
Proof.
  intros Hok. unfold resolve, target. destruct (names f !! p) as [[i|d]|] eqn:He; rewrite ?He; try done.
  by apply (ok_link _ _ Hok) in He as [_ ?].
Qed.

(** The lock does not change what the purge considers. *)
Lemma Stat_Remove_lock p q f : fs_ok "" f → p ≠ q → Stat (Remove q f) p = Stat f p.
Proof.
  intros Hok Hpq. unfold Stat. rewrite !resolve_nolink by (try apply Remove_ok; done).
  simpl. by rewrite lookup_delete_ne.
Qed.

Lemma is_log_Remove_lock rl f p q : fs_ok "" f →
  is_log rl (Remove (q +:+ "_lock") f) p = is_log rl f p.
Proof.
  intros Hok. unfold is_log. destruct (decide (p = q +:+ "_lock")) as [-> | Hp].
  - rewrite HasSuffix_app. by rewrite !andb_false_r.
  - by rewrite Stat_Remove_lock.
Qed.

Definition too_young (rl : RotateLogs) (t : Z) (f : fs) (p : string) : bool :=
  match Stat f p with Some x => (0 <? maxAge rl) && (t - maxAge rl <? mtime x) | None => false end.

Lemma elem_of_considered rl t f p : fs_ok "" f →
  p ∈ filter (λ p, purge_candidate rl t f p = true) (Glob (globPattern rl) f) ↔
  is_log rl f p = true ∧ too_young rl t f p = false.
Proof.
  intros Hok. rewrite list_elem_of_filter, elem_of_Glob.
  unfold purge_candidate, is_log, too_young. rewrite (no_symlink f p), andb_false_r by done.
  destruct (Stat f p) as [x|] eqn:Hx; rewrite ?andb_true_iff, ?negb_true_iff.
  - split; [naive_solver |]. intros [[[? ?] _] ?]. split_and!; try done.
    by apply Stat_is_Some_names; [| exists x].
  - naive_solver.
Qed.

(** A rotation that gets its lock. *)
Lemma rotateNolock_free rl t p f f' us :
  linkName rl = "" → (0 < maxAge rl ∨ 0 < rotationCount rl) → names f !! (p +:+ "_lock") = None →
  rotateNolock Rel rl t p f = (f', us) →
  let f1 := add_file t (p +:+ "_lock") f in f' = Remove (p +:+ "_lock") f1 ∧ us = toUnlink rl t f1.
Proof.
  intros Hl Hpos Hfree. unfold rotateNolock, CreateExcl. rewrite Hfree. unfold make_link.
  rewrite bool_decide_true by done.
  replace ((maxAge rl <=? 0) && (rotationCount rl <=? 0)) with false.
  2: { symmetry. apply andb_false_iff. destruct Hpos; [left | right]; apply Z.leb_gt; lia. }
  by intros [= <- <-].
Qed.

(** What is purged when a base name has changed and the lock is free, in terms of the
    files left. *)
Lemma purge_opened gens r rl f rl' f' us fh :
  names_apart "" → linkName rl = "" → fs_ok "" f → (0 < maxAge rl ∨ 0 < rotationCount rl) →
  getWriterNolock FormatString Rel can_create gens r rl f = ((rl', f', us), Writer fh) →
  GenerateFn FormatString (rotationTime rl) r ≠ curBaseFn rl →
  names f !! (curFn rl' +:+ "_lock") = None →
  ∃ l, us = (if 0 <? rotationCount rl then take (length l - Z.to_nat (rotationCount rl)) l else l) ∧
    NoDup l ∧ StronglySorted String.le l ∧ fs_ok "" f' ∧
    (∀ p, p ∈ l ↔ is_log rl f' p = true ∧ too_young rl (now r) f' p = false) ∧
    (Stat f (curFn rl') = None → mtime <$> Stat f' (curFn rl') = Some (now r)).
Proof.
  intros Hap Hl Hok Hpos Hg Hb Hfree.
  destruct (getWriterNolock_cases gens r rl f rl' f' us _ Hg)
    as [(-> & _ & _ & [(_ & ? & _) | ?]) | (name & gen & f1 & i & Hn & _ & -> & Ho & Hr)]; [done.. |].
  simpl in Hfree. simpl.
  assert (Hne : name ≠ "") by (destruct Hn as [-> _]; apply Hap).
  assert (Hnl : name ≠ name +:+ "_lock") by (intros H; symmetry in H; by apply string_app_neq in H).
  assert (fs_ok "" f1 ∧ names f1 !! (name +:+ "_lock") = None ∧
                (Stat f name = None → mtime <$> Stat f1 name = Some (now r))) as (Hok1 & Hfree1 & Hnow).
  { destruct (OpenAppend_cases "" (now r) name f f1 i) as [[-> Hi] | (-> & -> & Hi)]; [done.. | |].
    - split_and!; [done.. |]. intros Hs. destruct (resolve_inode "" f name i Hok) as [x Hx];
        [by rewrite resolve_nolink, Hi |]. unfold Stat in Hs. rewrite resolve_nolink, Hi in Hs by done.
      simpl in Hs. congruence.
    - pose proof (add_file_ok "" (now r) name f Hok) as Hok1.
      split_and!; [done | simpl; by rewrite lookup_insert_ne |]. intros _.
      unfold Stat. rewrite resolve_nolink by done. simpl. rewrite lookup_insert_eq. simpl.
      by rewrite lookup_insert_eq. }
  destruct (rotateNolock_free rl (now r) name f1 f' us Hl Hpos Hfree1 Hr) as [-> ->].
  pose proof (add_file_ok "" (now r) (name +:+ "_lock") f1 Hok1) as Hok2.
  set (f2 := add_file (now r) (name +:+ "_lock") f1) in *.
  exists (filter (λ p, purge_candidate rl (now r) f2 p = true) (Glob (globPattern rl) f2)).
  split_and!.
  - unfold toUnlink. case_match; [| done]. case_match eqn:Hle; [| done]. reflect_tests.
    by rewrite (proj2 (Nat.sub_0_le _ _)) by lia.
  - apply NoDup_filter, Glob_NoDup.
  - eapply sublist_sorted; [apply sublist_filter | apply sort_strings_sorted].
  - by apply Remove_ok.
  - intros p. rewrite elem_of_considered, is_log_Remove_lock by done.
    destruct (decide (p = name +:+ "_lock")) as [-> | Hp].
    + unfold is_log. rewrite HasSuffix_app. rewrite andb_false_r. simpl. naive_solver.
    + unfold too_young. by rewrite Stat_Remove_lock.
  - intros Hs. rewrite Stat_Remove_lock by done.
    destruct (Stat f1 name) as [x|] eqn:Hx; [| by specialize (Hnow Hs)].
    rewrite <- (Hnow Hs). unfold Stat in Hx |- *. rewrite resolve_nolink by done.
    rewrite resolve_nolink in Hx by done.
    simpl. rewrite lookup_insert_ne by done.
    destruct (names f1 !! name) as [[j|]|] eqn:Hj; simpl in *; try done.
    rewrite lookup_insert_ne; [by rewrite Hx |].
    apply (ok_file _ _ Hok1) in Hj. lia.
Qed.

(** * Theorems *)

(** A writer is always found: the search for a name that does not exist ends within
    as many rounds as there are names and one, and unless the file cannot be created the
    writer is the file in use, when neither the base name nor the size asks for another,
    or the file of the first generation, from the one the search begins with, whose name
    does not exist; without a search it is the file of the base name itself. *)
Theorem getWriterNolock_terminates gens r rl f :
  let base := GenerateFn FormatString (rotationTime rl) r in
  let '((rl', _, _), w) := getWriterNolock FormatString Rel can_create gens r rl f in
  w ≠ OutOfFuel ∧
  (w = CreateErr ∨
   rl' = rl ∧ w = Writer (outFh rl) ∧ base = curBaseFn rl ∧ gens = false ∧ oversize rl f = false ∨
   is_Some (outFh rl') ∧ w = Writer (outFh rl') ∧ curBaseFn rl' = base ∧
   new_name rl base f (curFn rl') (generation rl')).
Proof.
  destruct (getWriterNolock _ _ _ _ _ _ _) as [[[rl' f'] us] w] eqn:Hg.
  destruct (getWriterNolock_cases gens r rl f rl' f' us w Hg)
    as [(-> & -> & -> & [(-> & ? & -> & ?) | ->]) | (name & gen & f1 & fh & Hn & -> & -> & _)];
    (split; [done |]); simpl; eauto 10.
Qed.

(** C37. However the logger has been used, a successful write appends its data to one
    inode, the one behind the open file, and leaves every other as it was; and when sizes
    are bounded, that inode is smaller than the bound before the write, unless the
    current file has been unlinked or its base name has changed. *)
Theorem log_writes link os r p rl0 f0 s' :
  names_apart link → linkName rl0 = link → outFh rl0 = None → fs_ok link f0 →
  let s := log_run FormatString Rel can_create os (MkLogSys rl0 f0 []) in
  log_exec FormatString Rel can_create (Write r p) s = (s', Written) →
  ∃ i x, outFh (rl s') = Some i ∧
    inodes (files s') !! i = Some (MkInode (data x ++ [p]) (now r)) ∧
    (inodes (files s) !! i = Some x ∨ inodes (files s) !! i = None ∧ data x = []) ∧
    (∀ j y, j ≠ i → inodes (files s) !! j = Some y → inodes (files s') !! j = Some y) ∧
    (0 < rotationSize (rl s) →
     size_of x < rotationSize (rl s) ∨ names (files s) !! curFn (rl s) = None ∨
     GenerateFn FormatString (rotationTime (rl s)) r ≠ curBaseFn (rl s)).
Proof.
  intros Hap Hlink Hout Hok s Hw.
  assert (Hinv : log_inv link s).
  { apply log_run_inv; [done |]. split; simpl; [done.. | |]; congruence. }
  clearbody s. clear rl0 f0 Hlink Hout Hok os. destruct Hinv as [Hlink Hfs Hout Hcur].
  unfold log_exec in Hw.
  destruct (getWriterNolock _ _ _ _ _ _ _) as [[[rl' f'] us] w] eqn:Hg.
  destruct w as [[fh|] | |]; try done. injection Hw as <-. simpl.
  destruct (getWriterNolock_cases false r (rl s) (files s) rl' f' us _ Hg)
    as [(-> & -> & -> & [([= Hfh] & Hb & _ & Hsize) | ?]) | (name & gen & f1 & fh' & Hn & [= <-] & -> & Ho & Hr)];
    [| done |].
  - symmetry in Hfh. destruct (Hout fh Hfh) as [[x Hx] Hne]. exists fh, x.
    rewrite lookup_alter_eq, Hx. simpl. split_and!; [done.. | by left | |].
    + intros j y Hj Hy. by rewrite lookup_alter_ne.
    + intros Hpos. destruct (names (files s) !! curFn (rl s)) as [e|] eqn:He; [left | by auto].
      destruct e as [j | dest]; [| by apply (ok_link _ _ Hfs) in He as [? _]].
      assert (j = fh) as -> by by apply (Hcur fh). unfold oversize, Stat in Hsize.
      rewrite (resolve_plain link), He in Hsize by done. simpl in Hsize. rewrite Hx in Hsize.
      apply andb_false_iff in Hsize as [?%Z.ltb_ge | ?%Z.leb_gt]; lia.
  - assert (Hne : name ≠ link) by (destruct Hn as [-> _]; apply Hap).
    destruct (open_file_spec link (rl s) (now r) name (files s) f1 f' fh us) as [_ Hi _ [x Hx] Hnew Hold]; [done.. |].
    exists fh, x. simpl. rewrite lookup_alter_eq, Hx. simpl.
    rewrite Hx in Hnew, Hold. simpl in Hnew.
    split_and!; [done.. | | |].
    + destruct (Stat (files s) name) as [y|] eqn:Hs.
      * destruct Hold as [[= ->] [z Hz]]; [by eexists |]. left.
        pose proof (lookup_weaken _ _ _ _ Hz Hi). congruence.
      * right. destruct Hnew as [? [= ?]]; done.
    + intros j y Hj Hy. rewrite lookup_alter_ne by done. by eapply lookup_weaken.
    + intros Hpos. destruct (decide (GenerateFn FormatString (rotationTime (rl s)) r = curBaseFn (rl s))) as [Hb |]; [| by auto].
      left. destruct Hn as [_ Hn]. unfold searches in Hn. rewrite bool_decide_true in Hn by done.
      destruct Hnew as [_ [= Hd]]; [by apply Hn |]. unfold size_of. rewrite Hd. simpl. lia.
Qed.
(** Purging by age, without a link: when the base name has changed and the lock is
    free, the files that will be unlinked are exactly the logs, as the glob pattern and
    the suffixes tell them, that have not been written since the maximal age; the file
    that has just been opened is among them only when it was there before. *)
Theorem purge_by_age gens r rl f rl' f' us fh :
  names_apart "" → linkName rl = "" → fs_ok "" f → 0 < maxAge rl → rotationCount rl = 0 →
  getWriterNolock FormatString Rel can_create gens r rl f = ((rl', f', us), Writer fh) →
  GenerateFn FormatString (rotationTime rl) r ≠ curBaseFn rl →
  names f !! (curFn rl' +:+ "_lock") = None →
  (∀ p, p ∈ us ↔ is_log rl f' p = true ∧ ∃ x, Stat f' p = Some x ∧ mtime x ≤ now r - maxAge rl) ∧
  (curFn rl' ∈ us → is_Some (Stat f (curFn rl'))).
Proof.
  intros Hap Hl Hok Hage Hcount Hg Hb Hfree.
  destruct (purge_opened gens r rl f rl' f' us fh) as (l & -> & _ & _ & _ & Hin & Hnew);
    [by auto.. |]. rewrite Hcount. simpl.
  assert (Hiff : ∀ p, p ∈ l ↔ is_log rl f' p = true ∧ ∃ x, Stat f' p = Some x ∧ mtime x ≤ now r - maxAge rl).
  { intros p. rewrite Hin. unfold too_young, is_log.
    destruct (Stat f' p) as [x|]; [| by rewrite andb_false_r; naive_solver].
    rewrite (proj2 (Z.ltb_lt _ _) Hage). simpl. rewrite Z.ltb_ge. naive_solver. }
  split; [done |]. intros Hp. destruct (Stat f (curFn rl')) as [x|] eqn:Hx; [by eexists | exfalso].
  apply Hiff in Hp as (_ & y & Hy & Hold). specialize (Hnew eq_refl). rewrite Hy in Hnew.
  injection Hnew as Hnew. lia.
Qed.

(** Purging by count, without a link: the logs that will be unlinked are exactly
    those that at least as many logs as are to be kept follow in the order of their
    names.  Nothing looks at the age of a log, nor spares the file just opened. *)
Theorem purge_by_count gens r rl f rl' f' us fh :
  names_apart "" → linkName rl = "" → fs_ok "" f → maxAge rl = 0 → 0 < rotationCount rl →
  getWriterNolock FormatString Rel can_create gens r rl f = ((rl', f', us), Writer fh) →
  GenerateFn FormatString (rotationTime rl) r ≠ curBaseFn rl →
  names f !! (curFn rl' +:+ "_lock") = None →
  ∀ p, p ∈ us ↔ is_log rl f' p = true ∧
    rotationCount rl ≤ Z.of_nat (length (filter (λ q, is_log rl f' q = true ∧ string_gt p q)
                                            (map_to_list (names f')).*1)).
Proof.
  intros Hap Hl Hok Hage Hcount Hg Hb Hfree p.
  destruct (purge_opened gens r rl f rl' f' us fh) as (l & -> & Hn & Hs & Hok' & Hin & _);
    [by auto.. |]. rewrite (proj2 (Z.ltb_lt _ _) Hcount).
  assert (Hlog : ∀ q, q ∈ l ↔ is_log rl f' q = true).
  { intros q. rewrite Hin. unfold too_young. rewrite Hage. destruct (Stat f' q); naive_solver. }
  rewrite take_sorted_rank, Hlog by done.
  rewrite (Permutation_length (l := filter (string_gt p) l)
             (l' := filter (λ q, is_log rl f' q = true ∧ string_gt p q) (map_to_list (names f')).*1)).
  - split; intros [? ?]; split; try done; lia.
  - apply NoDup_Permutation; [by apply NoDup_filter | apply NoDup_filter, names_NoDup |].
    intros q. rewrite !list_elem_of_filter, Hlog. split; [| naive_solver].
    intros [Hgt Hq]. split_and!; [done.. |].
    assert (is_Some (names f' !! q)) as [e He].
    { apply Stat_is_Some_names; [done |]. unfold is_log in Hq. destruct (Stat f' q); [by eexists |].
      by rewrite andb_false_r in Hq. }
    apply list_elem_of_fmap. exists (q, e). split; [done |]. by apply elem_of_map_to_list.
Qed.
End operations.

(** * Witnesses *)

Definition demo_format (t : Z) : string := if t <? 100 then "log.9" else "log.10".
Definition demo_rel (_ p : string) : option string := Some p.
Definition demo_can (_ : string) : bool := true.
Definition demo_r : reading := MkReading 100 0.

(** A directory with one log, written at the given time. *)
Definition demo_fs (p : string) (t : Z) : fs := MkFs {[p := File 0]} {[0%nat := MkInode ["old"] t]} 1.

Lemma demo_apart link : (link = "" ∨ link = "current") → names_apart demo_format link.
Proof.
  intros Hl t g. unfold generation_name, demo_format.
  destruct Hl as [-> | ->]; repeat case_match; repeat case_decide; discriminate.
Qed.

Lemma demo_fs_ok link p t : fs_ok link (demo_fs p t).
Proof.
  split; simpl.
  - intros i. rewrite lookup_singleton_is_Some. lia.
  - intros q i [_ [= <-]]%lookup_singleton_Some. lia.
  - by intros q d [_ [=]]%lookup_singleton_Some.
Qed.

Definition demo_logger (age count size : Z) (link : string) : RotateLogs :=
  MkRotateLogs "" "" "log.*" 0 link age None 0 size count false.

Definition demo_written : log_sys :=
  log_run demo_format demo_rel demo_can [Write demo_r "abcd"]
    (MkLogSys (demo_logger 7 0 3 "current") (demo_fs "log.9" 1) []).

Lemma log_writes_witness :
  let s' := (log_exec demo_format demo_rel demo_can (Write demo_r "e") demo_written).1 in
  curFn (rl demo_written) = "log.10" ∧ curFn (rl s') = "log.10.1" ∧
  ∃ i x, outFh (rl s') = Some i ∧
    inodes (files s') !! i = Some (MkInode (data x ++ ["e"]) 100) ∧
    (inodes (files demo_written) !! i = Some x ∨ inodes (files demo_written) !! i = None ∧ data x = []) ∧
    (∀ j y, j ≠ i → inodes (files demo_written) !! j = Some y → inodes (files s') !! j = Some y) ∧
    (0 < rotationSize (rl demo_written) →
     size_of x < rotationSize (rl demo_written) ∨
     names (files demo_written) !! curFn (rl demo_written) = None ∨
     GenerateFn demo_format (rotationTime (rl demo_written)) demo_r ≠ curBaseFn (rl demo_written)).
Proof.
  intros s'. split; [vm_compute; reflexivity | split; [vm_compute; reflexivity |]].
  apply (log_writes demo_format demo_rel demo_can "current" [Write demo_r "abcd"] demo_r "e"
           (demo_logger 7 0 3 "current") (demo_fs "log.9" 1)).
  - apply demo_apart. by right.
  - reflexivity.
  - reflexivity.
  - apply demo_fs_ok.
  - vm_compute. reflexivity.
Defined.

Definition demo_open (age count : Z) (f : fs) : RotateLogs * fs * list string :=
  (getWriterNolock demo_format demo_rel demo_can false demo_r (demo_logger age count 0 "") f).1.

(** The logger starts again on an old file, which is purged under its feet. *)
Lemma purge_by_age_witness :
  let '(rl', f', us) := demo_open 7 0 (demo_fs "log.10" 1) in
  curFn rl' = "log.10" ∧ us = ["log.10"] ∧
  (∀ p, p ∈ us ↔ is_log (demo_logger 7 0 0 "") f' p = true ∧
                 ∃ x, Stat f' p = Some x ∧ mtime x ≤ 100 - 7) ∧
  (curFn rl' ∈ us → is_Some (Stat (demo_fs "log.10" 1) (curFn rl'))).
Proof.
  destruct (demo_open 7 0 (demo_fs "log.10" 1)) as [[rl' f'] us] eqn:He.
  split; [vm_compute in He; injection He as <- <- <-; reflexivity |].
  split; [vm_compute in He; injection He as <- <- <-; reflexivity |].
  apply (purge_by_age demo_format demo_rel demo_can false demo_r (demo_logger 7 0 0 "")
           (demo_fs "log.10" 1) rl' f' us (Some 0%nat)).
  - apply demo_apart. by left.
  - reflexivity.
  - apply demo_fs_ok.
  - reflexivity.
  - reflexivity.
  - unfold demo_open in He.
    destruct (getWriterNolock _ _ _ _ _ _ _) as [x w] eqn:Hg in He. simpl in He. rewrite Hg, He.
    f_equal. vm_compute in Hg. by injection Hg.
  - vm_compute. discriminate.
  - vm_compute in He. injection He as <- <- <-. vm_compute. reflexivity.
Defined.

(** The log just opened is the one to go: its name comes before that of the old one. *)
Lemma purge_by_count_witness :
  let '(rl', f', us) := demo_open 0 1 (demo_fs "log.9" 1) in
  curFn rl' = "log.10" ∧ us = ["log.10"] ∧
  (∀ p, p ∈ us ↔ is_log (demo_logger 0 1 0 "") f' p = true ∧
    1 ≤ Z.of_nat (length (filter (λ q, is_log (demo_logger 0 1 0 "") f' q = true ∧ string_gt p q)
                            (map_to_list (names f')).*1))).
Proof.
  destruct (demo_open 0 1 (demo_fs "log.9" 1)) as [[rl' f'] us] eqn:He.
  split; [vm_compute in He; injection He as <- <- <-; reflexivity |].
  split; [vm_compute in He; injection He as <- <- <-; reflexivity |].
  apply (purge_by_count demo_format demo_rel demo_can false demo_r (demo_logger 0 1 0 "")
           (demo_fs "log.9" 1) rl' f' us (Some 1%nat)).
  - apply demo_apart. by left.
  - reflexivity.
  - apply demo_fs_ok.
  - reflexivity.
  - reflexivity.
  - unfold demo_open in He.
    destruct (getWriterNolock _ _ _ _ _ _ _) as [x w] eqn:Hg in He. simpl in He. rewrite Hg, He.
    f_equal. vm_compute in Hg. by injection Hg.
  - vm_compute. discriminate.
  - vm_compute in He. injection He as <- <- <-. vm_compute. reflexivity.
Defined.
