(* ===== verification/Network.v ===== *)
(** * Addresses (utils/network)

    The check of a host and port, the address of a request and the choice of the local
    address.  The interfaces of the machine, and what the [net] package says of each
    of their addresses, are arguments. *)

From S2P Require Import Prelude GoStrings.
From Stdlib Require Import Strings.Ascii.

Local Open Scope Z_scope.

Definition IsValidHostPort (addr : string) : bool :=
  match SplitHostPort addr with
  | None => false
  | Some (host, portStr) =>
      if bool_decide (host = "") then false
      else let '(port, ok) := ParseInt64 portStr in ok && (0 <? port) && (port <=? 65535)
  end.

(** ** The address of a request *)

(** The headers by their canonical names, and the address of the connection. *)
Record Request := MkRequest { Header : gmap string string; RemoteAddr : string }.

Definition XForwardedFor : string := "X-Forwarded-For".
Definition XRealIP : string := "X-Real-Ip".
Definition XClientIP : string := "X-Client-Ip".

Definition header_get (req : Request) (k : string) : string := default "" (Header req !! k).

Definition RemoteIP (req : Request) : string :=
  if bool_decide (header_get req XClientIP ≠ "") then header_get req XClientIP
  else if bool_decide (header_get req XRealIP ≠ "") then header_get req XRealIP
  else if bool_decide (header_get req XForwardedFor ≠ "")
  then match Split "," (header_get req XForwardedFor) with p :: _ => TrimSpace p | [] => "" end
  else let ip := match SplitHostPort (RemoteAddr req) with
                 | Some (ip, _) => ip
                 | None => RemoteAddr req
                 end in
       if bool_decide (ip = "::1") then "127.0.0.1" else ip.

Definition GetListenIP (configIP : string) : string :=
  if bool_decide (configIP = "") then "0.0.0.0" else configIP.

(** ** The local address *)

(** What [net] says of an address: [To4] is the form of four bytes, if there is one. *)
Record IP4 := MkIP4 { IP4_IsLoopback : bool; IsMulticast : bool; IP4_String : string }.

Record IP := MkIP { IsLoopback : bool; IsPrivate : bool; IP_String : string; To4 : option IP4 }.

Inductive Addr := IPNet (ip : IP) | OtherAddr.

(** [Addrs] is [None] when it fails. *)
Record Interface := MkInterface { FlagUp : bool; FlagLoopback : bool; Addrs : option (list Addr) }.

Inductive ip_err := InterfacesErr | AddrsErr | NoAddress.

(** The addresses of an interface: the address to return, or the public one so far. *)
Fixpoint scan_addrs (publicIP : string) (addrs : list Addr) : string + string :=
  match addrs with
  | [] => inr publicIP
  | OtherAddr :: addrs => scan_addrs publicIP addrs
  | IPNet ip :: addrs =>
      if IsLoopback ip then scan_addrs publicIP addrs
      else match To4 ip with
           | None => scan_addrs publicIP addrs
           | Some ip4 =>
               if IP4_IsLoopback ip4 || IsMulticast ip4 then scan_addrs publicIP addrs
               else if negb (IsPrivate ip) && bool_decide (publicIP = "")
               then scan_addrs (IP_String ip) addrs
               else inl (IP4_String ip4)
           end
  end.

Fixpoint scan_ifaces (publicIP : string) (ifs : list Interface) : (string + string) + ip_err :=
  match ifs with
  | [] => inl (inr publicIP)
  | i :: ifs =>
      if negb (FlagUp i) || FlagLoopback i then scan_ifaces publicIP ifs
      else match Addrs i with
           | None => inr AddrsErr
           | Some addrs => match scan_addrs publicIP addrs with
                           | inl ip => inl (inl ip)
                           | inr publicIP => scan_ifaces publicIP ifs
                           end
           end
  end.

Definition GetLocalIP (Interfaces : option (list Interface)) : string + ip_err :=
  match Interfaces with
  | None => inr InterfacesErr
  | Some ifs =>
      match scan_ifaces "" ifs with
      | inr e => inr e
      | inl (inl ip) => inl ip
      | inl (inr publicIP) => if bool_decide (publicIP ≠ "") then inl publicIP else inr NoAddress
      end
  end.

Definition GetRpcRegisterIP (Interfaces : option (list Interface)) (configIP : string) : string + ip_err :=
  if bool_decide (configIP = "") then GetLocalIP Interfaces else inl configIP.

(** * Lemmas *)

Lemma digits_only c acc s v :
  digit c = None → ParseUint64 acc s = Some (v, false) → has_byte c s = false.
Proof.
  intros Hc. revert acc. induction s as [|a s IH]; intros acc; simpl; [done |].
  destruct (digit a) as [d|] eqn:Ha; [| done]. destruct (_ <=? _); [by intros [= _ ?] |].
  intros Hs. unfold is_byte. destruct (ascii_dec a c) as [-> | _]; [congruence |]. simpl. by eapply IH.
Qed.

Lemma Itoa_digits c n : digit c = None → 0 ≤ n < two63 → has_byte c (Itoa n) = false.
Proof.
  intros Hc [Hn Hmax]. destruct n as [|x|x]; [| | lia].
  - change (Itoa 0) with "0". simpl. unfold is_byte.
    destruct (ascii_dec "0" c) as [<- | _]; [by vm_compute in Hc | done].
  - change (Itoa (Z.pos x)) with (pretty.pretty_N_go (N.pos x) "").
    apply (digits_only c 0 _ (Z.pos x) Hc). by rewrite ParseUint64_go.
Qed.

(** What a server registers under is a valid address. *)
Lemma IsValidHostPort_Join host port :
  host ≠ "" → has_byte "[" host = false → has_byte "]" host = false → 0 < port ≤ 65535 →
  IsValidHostPort (JoinHostPort host (Itoa port)) = true.
Proof.
  intros Hne Hl Hr Hp. unfold IsValidHostPort.
  assert (Hmax : 0 ≤ port < two63) by (unfold two63; lia).
  rewrite SplitHostPort_Join by (try apply Itoa_digits; done).
  rewrite bool_decide_false, ParseInt64_Itoa by done.
  apply andb_true_iff. rewrite Z.leb_le. simpl. rewrite Z.ltb_lt. lia.
Qed.

(** The addresses that [GetLocalIP] considers, in order. *)
Definition usable (a : Addr) : option (IP * IP4) :=
  match a with
  | IPNet ip => if IsLoopback ip then None
                else match To4 ip with
                     | Some ip4 => if IP4_IsLoopback ip4 || IsMulticast ip4 then None else Some (ip, ip4)
                     | None => None
                     end
  | OtherAddr => None
  end.

Definition iface_addrs (i : Interface) : list Addr :=
  if negb (FlagUp i) || FlagLoopback i then [] else default [] (Addrs i).

Definition usables (ifs : list Interface) : list (IP * IP4) := omap usable (ifs ≫= iface_addrs).

Lemma scan_addrs_app pub l k :
  scan_addrs pub (l ++ k) = match scan_addrs pub l with inl ip => inl ip | inr pub => scan_addrs pub k end.
Proof.
  revert pub. induction l as [|[ip|] l IH]; intros pub; simpl; [done | | apply IH].
  destruct (IsLoopback ip); [apply IH |]. destruct (To4 ip) as [ip4|]; [| apply IH].
  destruct (IP4_IsLoopback ip4 || IsMulticast ip4); [apply IH |].
  destruct (_ && _); [apply IH | done].
Qed.

Lemma scan_ifaces_flat pub ifs :
  (∀ i, i ∈ ifs → is_Some (Addrs i)) → scan_ifaces pub ifs = inl (scan_addrs pub (ifs ≫= iface_addrs)).
Proof.
  revert pub. induction ifs as [|i ifs IH]; intros pub Hok; [done |].
  assert (Hok' : ∀ i, i ∈ ifs → is_Some (Addrs i)) by (intros j Hj; apply Hok; by right).
  rewrite bind_cons, scan_addrs_app. simpl. unfold iface_addrs at 1.
  destruct (negb (FlagUp i) || FlagLoopback i); [by apply IH |].
  destruct (Hok i) as [l ->]; [left |]. simpl. destruct (scan_addrs pub l); [done | by apply IH].
Qed.

Lemma scan_addrs_second pub l : pub ≠ "" →
  scan_addrs pub l = match omap usable l with [] => inr pub | (_, ip4) :: _ => inl (IP4_String ip4) end.
Proof.
  intros Hpub. induction l as [|[ip|] l IH]; [done | | apply IH].
  simpl.
  destruct (IsLoopback ip); [apply IH |]. destruct (To4 ip) as [ip4|]; [| apply IH].
  destruct (IP4_IsLoopback ip4 || IsMulticast ip4); [apply IH |].
  by rewrite bool_decide_false, andb_false_r.
Qed.

Lemma scan_addrs_first l : (∀ u, u ∈ omap usable l → IP_String u.1 ≠ "") →
  scan_addrs "" l =
  match omap usable l with
  | [] => inr ""
  | (ip, ip4) :: us =>
      if IsPrivate ip then inl (IP4_String ip4)
      else match us with [] => inr (IP_String ip) | (_, ip4') :: _ => inl (IP4_String ip4') end
  end.
Proof.
  induction l as [|[ip|] l IH]; [done | | apply IH].
  simpl.
  destruct (IsLoopback ip); [apply IH |]. destruct (To4 ip) as [ip4|]; [| apply IH].
  destruct (IP4_IsLoopback ip4 || IsMulticast ip4); [apply IH |].
  intros Hne. destruct (IsPrivate ip); [done |]. simpl.
  apply scan_addrs_second. apply (Hne (ip, ip4)). left.
Qed.

(** * Theorems *)

(** When every interface lists its addresses, the local address is that of the first
    usable one if it is private; if it is public, that of the second usable one, private
    or not; and the public one when it is alone.  Only without any is there an error. *)
Theorem GetLocalIP_spec ifs :
  (∀ i, i ∈ ifs → is_Some (Addrs i)) → (∀ u, u ∈ usables ifs → IP_String u.1 ≠ "") →
  GetLocalIP (Some ifs) =
  match usables ifs with
  | [] => inr NoAddress
  | (ip, ip4) :: us =>
      if IsPrivate ip then inl (IP4_String ip4)
      else match us with [] => inl (IP_String ip) | (_, ip4') :: _ => inl (IP4_String ip4') end
  end.
Proof.
  intros Hok Hne. unfold GetLocalIP. rewrite scan_ifaces_flat, scan_addrs_first by done.
  unfold usables in *. destruct (omap usable (ifs ≫= iface_addrs)) as [|[ip ip4] us]; [done |].
  destruct (IsPrivate ip); [done |]. destruct us as [|[ip' ip4'] us]; [| done].
  rewrite bool_decide_true; [done |]. apply (Hne (ip, ip4)). left.
Qed.

Definition demo_ip (private : bool) (s : string) : Addr :=
  IPNet (MkIP false private s (Some (MkIP4 false false s))).

(** Two public addresses hide the private one. *)
Lemma GetLocalIP_spec_witness :
  let ifs := [MkInterface true true (Some [demo_ip true "127.0.0.1"]);
              MkInterface true false (Some [demo_ip false "8.8.8.8"; OtherAddr; demo_ip false "9.9.9.9"]);
              MkInterface true false (Some [demo_ip true "10.0.0.1"])] in
  GetLocalIP (Some ifs) = inl "9.9.9.9".
Proof.
  intros ifs. etrans; [apply GetLocalIP_spec |].
  - intros i Hi. repeat (apply elem_of_cons in Hi as [-> | Hi]; [by eexists |]). by apply elem_of_nil in Hi.
  - intros u Hu. vm_compute in Hu.
    repeat (apply elem_of_cons in Hu as [-> | Hu]; [discriminate |]). by apply elem_of_nil in Hu.
  - vm_compute. reflexivity.
Defined.
