(* ===== verification/EtcdWatcher.v ===== *)
(** * The watcher of a service's endpoints (discovery/etcd)

    etcd is the sequence of the changes it has committed: a revision is a number of
    changes, a read of the prefix at a revision is the map they make, and a watch from a
    revision delivers the changes that follow, in order and without gaps, in updates of
    any size.  A listener is the list of the calls it has had.  Decoding an endpoint is
    a parameter. *)

From S2P Require Import Prelude GoStrings Network DataUtil.
From Stdlib Require Import Strings.Ascii.

Local Open Scope Z_scope.

Definition ms : Z := 1000000.

Section watcher.
Context {Meta : Type}.

Record Address := MkAddress { Addr : string; Metadata : option Meta }.

(** [json.Unmarshal] of a value as an [endpoints.Endpoint]. *)
Context (Unmarshal : string → option Address).

(** The address of a value: that of the endpoint, or the end of the key. *)
Definition address_of (key value : string) : option Address :=
  match Unmarshal value with
  | Some e => if IsValidHostPort (Addr e) then Some e else None
  | None => None
  end ∪
  match LastIndexByte "/" key with
  | Some i =>
      let addr := sdrop (S i) key in
      if (Z.of_nat i <? Z.of_nat (String.length key) - 1) && IsValidHostPort addr
      then Some (MkAddress addr None) else None
  | None => None
  end.

Notation addresses := (gmap string Address).

(** The addresses and whether an error is reported. *)
Definition setAddress (m : addresses) (key value : string) : addresses * bool :=
  match address_of key value with Some a => (<[key := a]> m, false) | None => (m, true) end.

(** ** The state under the watcher's lock *)

Inductive call := Given (addrs : list Address) | Failed.

Record serviceWatcher := MkServiceWatcher {
  listeners : gmap nat (list call);
  published : option (list Address);
  nextID : nat;
  ready : bool
}.

Definition newServiceWatcher : serviceWatcher := MkServiceWatcher ∅ None 0 false.

Definition consume (c : call) (ls : gmap nat (list call)) : gmap nat (list call) :=
  (λ calls, calls ++ [c]) <$> ls.

Definition addListener (w : serviceWatcher) : serviceWatcher * nat :=
  let id := S (nextID w) in
  (MkServiceWatcher
     (<[id := match published w with Some addrs => [Given addrs] | None => [] end]> (listeners w))
     (published w) id (ready w), id).

Definition removeListener (id : nat) (w : serviceWatcher) : serviceWatcher :=
  MkServiceWatcher (delete id (listeners w)) (published w) (nextID w) (ready w).

Definition getAddresses (w : serviceWatcher) : list Address := default [] (published w).

Definition reportError (w : serviceWatcher) : serviceWatcher :=
  MkServiceWatcher (consume Failed (listeners w)) (published w) (nextID w) (ready w).

Definition sorted_addresses `{MR : !MapRange} (m : addresses) : list Address :=
  omap (m !!.) (sort_strings (Keys m)).

Definition publish `{MR : !MapRange} (m : addresses) (w : serviceWatcher) : serviceWatcher :=
  let addrs := sorted_addresses m in
  MkServiceWatcher (consume (Given addrs) (listeners w)) (Some addrs) (nextID w) true.

(** ** etcd *)

(** A change of a key: its new value, or its deletion. *)
Notation change := (string * option string)%type.

Definition apply_change (kvs : gmap string string) (c : change) : gmap string string :=
  match c.2 with Some v => <[c.1 := v]> kvs | None => delete c.1 kvs end.

(** The keys under the prefix at a revision. *)
Definition snapshot (hist : list change) (rev : nat) : gmap string string :=
  fold_left apply_change (take rev hist) ∅.

(** ** Following it *)

(** What an event does to the addresses; an invalid value is reported. *)
Definition on_event (mw : addresses * serviceWatcher) (c : change) : addresses * serviceWatcher :=
  let '(m, w) := mw in
  match c.2 with
  | Some value => let '(m, bad) := setAddress m c.1 value in (m, if bad : bool then reportError w else w)
  | None => (delete c.1 m, w)
  end.

Definition load (kvs : list (string * string)) (w : serviceWatcher) : addresses * serviceWatcher :=
  fold_left on_event ((λ kv, (kv.1, Some kv.2)) <$> kvs) (∅, w).

(** The goroutine [run]: reading, following from a revision, waiting to retry, or gone. *)
Inductive watch_pc := Reading | Following (m : addresses) (rev : nat) | Sleeping | Gone.

Record watch_sys := MkWatchSys { hist : list change; w : serviceWatcher; pc : watch_pc; delay : Z }.

Definition first_delay : Z := 100 * ms.

Definition watch_init (hist : list change) : watch_sys := MkWatchSys hist newServiceWatcher Reading first_delay.

Inductive watch_op :=
| Commit (c : change)
| GetOk
| GetErr
| Update (n : nat) (progress : bool)
| WatchErr
| Wake
| Cancel
| Listen
| Unlisten (id : nat).

(** [None] when the operation is not possible. *)
Definition watch_exec `{MR : !MapRange} (o : watch_op) (s : watch_sys) : option watch_sys :=
  let 'MkWatchSys hist w pc delay := s in
  match o with
  | Commit c => Some (MkWatchSys (hist ++ [c]) w pc delay)
  | Listen => Some (MkWatchSys hist (addListener w).1 pc delay)
  | Unlisten id => Some (MkWatchSys hist (removeListener id w) pc delay)
  | Cancel => Some (MkWatchSys hist w Gone delay)
  | GetOk =>
      match pc with
      | Reading =>
          let '(m, w) := load (map_to_list (snapshot hist (length hist))) w in
          Some (MkWatchSys hist (publish m w) (Following m (length hist)) delay)
      | _ => None
      end
  | GetErr =>
      match pc with Reading => Some (MkWatchSys hist (reportError w) Sleeping delay) | _ => None end
  | Update n progress =>
      match pc with
      | Following m rev =>
          if decide (rev + n ≤ length hist)%nat then
            let '(m, w) := fold_left on_event (take n (drop rev hist)) (m, w) in
            Some (MkWatchSys hist (if decide (n = 0%nat) then w else publish m w) (Following m (rev + n))
                    (if decide (n = 0%nat) then if progress : bool then first_delay else delay
                     else first_delay))
          else None
      | _ => None
      end
  | WatchErr =>
      match pc with Following _ _ => Some (MkWatchSys hist (reportError w) Sleeping delay) | _ => None end
  | Wake =>
      match pc with
      | Sleeping => Some (MkWatchSys hist w Reading (Z.min (delay * 2) (3000 * ms)))
      | _ => None
      end
  end.

Definition watch_run `{MR : !MapRange} (os : list watch_op) (s : watch_sys) : option watch_sys :=
  fold_left (λ s o, s ≫= watch_exec o) os (Some s).
(** * Lemmas *)

(** How the addresses stand to the keys: every valid one is there, and none is there
    whose key is gone; that of a key whose value has become invalid may be an old one. *)
Definition covers (kvs : gmap string string) (m : addresses) : Prop :=
  (∀ k v a, kvs !! k = Some v → address_of k v = Some a → m !! k = Some a) ∧
  (∀ k a, m !! k = Some a → ∃ v, kvs !! k = Some v ∧ (address_of k v = Some a ∨ address_of k v = None)).

Lemma on_event_covers kvs m sw c :
  covers kvs m → covers (apply_change kvs c) (on_event (m, sw) c).1.
Proof.
  intros [Hin Hout]. destruct c as [k [v|]]; unfold on_event, apply_change, setAddress; simpl.
  - destruct (address_of k v) as [a|] eqn:Ha; simpl; split; intros k' x.
    + intros a'. rewrite !lookup_insert_Some. intros [[<- <-] | [Hk Hx]] Ha'; [left; naive_solver | right].
      split; [done |]. by eapply Hin.
    + rewrite lookup_insert_Some. intros [[<- <-] | [Hk Hx]].
      * exists v. rewrite lookup_insert_eq. by auto.
      * destruct (Hout k' x Hx) as (v' & ? & ?). exists v'. by rewrite lookup_insert_ne.
    + intros a'. rewrite lookup_insert_Some. intros [[<- <-] | [Hk Hx]] Ha'; [congruence |]. by eapply Hin.
    + intros Hx. destruct (decide (k = k')) as [<- | Hk].
      * exists v. rewrite lookup_insert_eq. by auto.
      * destruct (Hout k' x Hx) as (v' & ? & ?). exists v'. by rewrite lookup_insert_ne.
  - split; intros k' x.
    + intros a'. rewrite !lookup_delete_Some. intros [Hk Hx] Ha'. split; [done |]. by eapply Hin.
    + rewrite lookup_delete_Some. intros [Hk Hx].
      destruct (Hout k' x Hx) as (v' & ? & ?). exists v'. by rewrite lookup_delete_ne.
Qed.

Lemma on_events_covers cs kvs m sw :
  covers kvs m → covers (fold_left apply_change cs kvs) (fold_left on_event cs (m, sw)).1.
Proof.
  revert kvs m sw. induction cs as [|c cs IH]; intros kvs m sw Hc; [done |].
  pose proof (on_event_covers kvs m sw c Hc) as Hc'. cbn [fold_left].
  destruct (on_event (m, sw) c) as [m' sw']. by apply IH.
Qed.

Lemma puts_list (l : list (string * string)) kvs :
  NoDup l.*1 → fold_left apply_change ((λ kv, (kv.1, Some kv.2)) <$> l) kvs = list_to_map l ∪ kvs.
Proof.
  revert kvs. induction l as [|[k v] l IH]; intros kvs; simpl; [by rewrite (left_id_L _ _) |].
  intros [Hk Hl]%NoDup_cons. rewrite IH by done. unfold apply_change. simpl.
  rewrite <- insert_union_l, insert_union_r; [done |]. by apply not_elem_of_list_to_map_1.
Qed.

Lemma load_covers kvs sw : covers kvs (load (map_to_list kvs) sw).1.
Proof.
  pose proof (on_events_covers ((λ kv, (kv.1, Some kv.2)) <$> map_to_list kvs) ∅ ∅ sw) as Hc.
  rewrite puts_list, list_to_map_to_list, (right_id_L _ _) in Hc by apply NoDup_fst_map_to_list.
  apply Hc. by split; intros ? ? ?; [intros ? |]; rewrite ?lookup_empty.
Qed.

(** ** Listeners *)

Fixpoint last_given (calls : list call) : option (list Address) :=
  match calls with
  | [] => None
  | Given addrs :: calls => match last_given calls with Some a => Some a | None => Some addrs end
  | Failed :: calls => last_given calls
  end.

(** Every listener was last given what is published. *)
Definition informed (sw : serviceWatcher) : Prop :=
  ∀ id calls, listeners sw !! id = Some calls → last_given calls = published sw.

Lemma last_given_app calls c :
  last_given (calls ++ [c]) = match c with Given a => Some a | Failed => last_given calls end.
Proof.
  induction calls as [|[a|] calls IH]; simpl; [by destruct c | | apply IH].
  rewrite IH. by destruct c.
Qed.

Lemma reportError_informed sw : informed sw → informed (reportError sw).
Proof.
  intros Hi id calls. simpl. unfold consume. rewrite lookup_fmap.
  intros (calls' & Hl & ->)%fmap_Some. rewrite last_given_app. by apply Hi in Hl.
Qed.

Lemma publish_informed `{MR : !MapRange} m sw : informed (publish m sw).
Proof.
  intros id calls. simpl. unfold consume. rewrite lookup_fmap.
  intros (calls' & _ & ->)%fmap_Some. by rewrite last_given_app.
Qed.

Lemma addListener_informed sw : informed sw → informed (addListener sw).1.
Proof.
  intros Hi id calls. simpl. rewrite lookup_insert_Some.
  intros [[_ <-] | [_ Hl]]; [by destruct (published sw) | by eapply Hi].
Qed.

Lemma removeListener_informed id sw : informed sw → informed (removeListener id sw).
Proof. intros Hi id' calls. simpl. intros [_ Hl]%lookup_delete_Some. by eapply Hi. Qed.

Lemma on_events_w cs m sw :
  informed sw →
  informed (fold_left on_event cs (m, sw)).2 ∧ published (fold_left on_event cs (m, sw)).2 = published sw.
Proof.
  revert m sw. induction cs as [|[k [v|]] cs IH]; intros m sw Hi; [done | |]; simpl; [| by apply IH].
  destruct (setAddress m k v) as [m' [|]]; [| by apply IH].
  destruct (IH m' (reportError sw)) as [? Hp]; [by apply reportError_informed |].
  by rewrite Hp.
Qed.
(** ** The invariant *)

Definition retry_delay (d : Z) : Prop := ∃ j : nat, d = Z.min (first_delay * 2 ^ Z.of_nat j) (3000 * ms).

Lemma retry_delay_first : retry_delay first_delay.
Proof. by exists 0%nat. Qed.

Lemma retry_delay_next d : retry_delay d → retry_delay (Z.min (d * 2) (3000 * ms)).
Proof.
  intros [j ->]. exists (S j). rewrite Nat2Z.inj_succ, Z.pow_succ_r by lia.
  unfold first_delay, ms. lia.
Qed.

Record watch_inv `{MR : !MapRange} (s : watch_sys) : Prop := {
  wi_follow : ∀ m rev, pc s = Following m rev →
    (rev ≤ length (hist s))%nat ∧ covers (snapshot (hist s) rev) m ∧
    published (w s) = Some (sorted_addresses m);
  wi_informed : informed (w s);
  wi_delay : retry_delay (delay s)
}.

Lemma snapshot_commit h c rev : (rev ≤ length h)%nat → snapshot (h ++ [c]) rev = snapshot h rev.
Proof. intros Hr. unfold snapshot. by rewrite take_app_le. Qed.

Lemma snapshot_add h rev n :
  snapshot h (rev + n) = fold_left apply_change (take n (drop rev h)) (snapshot h rev).
Proof. unfold snapshot. by rewrite <- fold_left_app, take_take_drop. Qed.

Lemma watch_exec_inv `{MR : !MapRange} o s s' : watch_exec o s = Some s' → watch_inv s → watch_inv s'.
Proof.
  destruct s as [h sw p d]. intros He [Hf Hi Hd]. simpl in *.
  destruct o as [c | | | n progress | | | | | id]; simpl in He.
  - injection He as <-. split; simpl; [| done..]. intros m rev Hp.
    destruct (Hf m rev Hp) as (Hr & Hc & Hpub). rewrite length_app, snapshot_commit by done.
    split_and!; [lia | done..].
  - destruct p; try done.
    pose proof (load_covers (snapshot h (length h)) sw) as Hc.
    destruct (load (map_to_list (snapshot h (length h))) sw) as [m sw'].
    injection He as <-. split; simpl; [| apply publish_informed | done].
    intros m' rev' [= <- <-]. by split_and!.
  - destruct p; try done. injection He as <-. split; simpl; [done | by apply reportError_informed | done].
  - destruct p as [|m rev| |]; try done. destruct (decide _) as [Hn |]; [| done].
    destruct (Hf m rev eq_refl) as (Hr & Hc & Hpub).
    pose proof (on_events_covers (take n (drop rev h)) (snapshot h rev) m sw Hc) as Hc'.
    destruct (on_events_w (take n (drop rev h)) m sw Hi) as [Hi' Hp'].
    destruct (fold_left on_event _ _) as [m' sw'] eqn:Hfold. simpl in *. injection He as <-.
    split; simpl.
    + intros m'' rev'' [= <- <-]. rewrite snapshot_add. split_and!; [done.. |].
      case_decide as H0; [| done]. subst n. simpl in Hfold. by injection Hfold as <- <-.
    + case_decide; [done | apply publish_informed].
    + repeat case_decide; repeat case_match; eauto using retry_delay_first.
  - destruct p; try done. injection He as <-. split; simpl; [done | by apply reportError_informed | done].
  - destruct p; try done. injection He as <-. split; simpl; [done.. | by apply retry_delay_next].
  - injection He as <-. by split.
  - injection He as <-. split; simpl; [| by apply addListener_informed | done].
    intros m rev Hp. by destruct (Hf m rev Hp) as (? & ? & ?).
  - injection He as <-. split; simpl; [| by apply removeListener_informed | done].
    intros m rev Hp. by destruct (Hf m rev Hp) as (? & ? & ?).
Qed.

Lemma watch_run_inv `{MR : !MapRange} os s s' : watch_run os s = Some s' → watch_inv s → watch_inv s'.
Proof. apply (run_Some watch_exec watch_inv), watch_exec_inv. Qed.

Lemma elem_of_sorted_addresses `{MR : !MapRange} (m : addresses) a :
  a ∈ sorted_addresses m ↔ ∃ k, m !! k = Some a.
Proof.
  unfold sorted_addresses. rewrite list_elem_of_omap. split.
  - intros (k & _ & Hk). by exists k.
  - intros [k Hk]. exists k. split; [| done]. rewrite elem_of_sort_strings, elem_of_Keys. by eexists.
Qed.

(** * Theorem *)

(** C11. However changes, reads, updates, failures and listeners interleave, the watcher
    that follows from a revision has published the endpoints of that revision: every key
    with a valid value has its address in the list, every address in the list is that of
    a key that is still there, and unless that key's value is invalid it is the address
    of that value.  Every listener, early or late, was last given this list.  The delay
    between attempts is the first one doubled some number of times, up to three seconds. *)
Theorem watcher_view `{MR : !MapRange} os h s :
  watch_run os (watch_init h) = Some s →
  retry_delay (delay s) ∧
  (∀ id calls, listeners (w s) !! id = Some calls → last_given calls = published (w s)) ∧
  ∀ m rev, pc s = Following m rev →
    (rev ≤ length (hist s))%nat ∧ ∃ addrs, published (w s) = Some addrs ∧
    (∀ k v a, snapshot (hist s) rev !! k = Some v → address_of k v = Some a → a ∈ addrs) ∧
    (∀ a, a ∈ addrs → ∃ k v, m !! k = Some a ∧ snapshot (hist s) rev !! k = Some v ∧
                             (address_of k v = Some a ∨ address_of k v = None)).
Proof.
  intros Hr. assert (watch_inv s) as [Hf Hi Hd].
  { eapply watch_run_inv; [done |]. split; simpl; [done | | apply retry_delay_first].
    intros id calls. simpl. by rewrite lookup_empty. }
  split_and!; [done.. |]. intros m rev Hp. destruct (Hf m rev Hp) as (Hrev & [Hin Hout] & Hpub).
  split; [done |]. exists (sorted_addresses m). split_and!; [done | |].
  - intros k v a Hk Ha. apply elem_of_sorted_addresses. exists k. by eapply Hin.
  - intros a [k Hk]%elem_of_sorted_addresses. destruct (Hout k a Hk) as (v & ? & ?). by exists k, v.
Qed.
End watcher.

Definition demo_unmarshal (value : string) : option (@Address unit) :=
  if bool_decide (value = "junk") then None else Some (MkAddress value None).

Definition demo_watch : list watch_op :=
  [Listen; GetErr; Wake; GetOk; Commit ("svc/b", Some "2.2.2.2:80"); Update 1 false; Listen;
   Commit ("svc/b", Some "junk"); Commit ("svc/a", None); Update 2 false; WatchErr; Wake; GetOk;
   Commit ("svc/b", Some "3.3.3.3:80"); Commit ("svc/b", Some "junk"); Update 2 false].

(** The last value is invalid, and the address of the one before is still published. *)
Lemma watcher_view_witness :
  let s := default (watch_init []) (watch_run demo_unmarshal demo_watch (watch_init [("svc/a", Some "1.1.1.1:80")])) in
  published (w s) = Some [MkAddress "3.3.3.3:80" None] ∧
  snapshot (hist s) 6 !! "svc/b" = Some "junk" ∧
  retry_delay (delay s) ∧
  (∀ id calls, listeners (w s) !! id = Some calls → last_given calls = published (w s)) ∧
  ∀ m rev, pc s = Following m rev →
    (rev ≤ length (hist s))%nat ∧ ∃ addrs, published (w s) = Some addrs ∧
    (∀ k v a, snapshot (hist s) rev !! k = Some v → address_of demo_unmarshal k v = Some a → a ∈ addrs) ∧
    (∀ a, a ∈ addrs → ∃ k v, m !! k = Some a ∧ snapshot (hist s) rev !! k = Some v ∧
       (address_of demo_unmarshal k v = Some a ∨ address_of demo_unmarshal k v = None)).
Proof.
  intros s. split; [vm_compute; reflexivity | split; [vm_compute; reflexivity |]].
  apply (watcher_view demo_unmarshal demo_watch [("svc/a", Some "1.1.1.1:80")]).
  vm_compute. reflexivity.
Defined.
