(* ===== verification/EtcdConns.v ===== *)
(** * The pool of connections to the endpoints (discovery/etcd)

    The sections that the pool's two locks make atomic are the steps; connections are
    numbered, and closing one is a step that comes some time after the section that
    decided it.  A watcher is what it has published; publishing calls the pool's
    listener under the watcher's lock, so the two are one step.  Whether [grpc.NewClient]
    accepts an address is a parameter, and a dial option is a number. *)

From S2P Require Import Prelude GoStrings DataUtil.
From Stdlib Require Import Strings.Ascii.

Definition opt : Type := nat.

Record ClientConn := MkClientConn { Target : string; Opts : list opt }.

(** [live] is not the pool's own: what each watcher whose goroutine runs has published. *)
Record connPool := MkConnPool {
  rootDirectory : string;
  endpointConnMap : gmap string (list nat);
  serviceConns : gmap string nat;
  dialOptions : list opt;
  serviceDialOptions : gmap string (list opt);
  connectionsClosed : bool;
  watchers : gset string;
  closed : bool;
  live : gmap string (option (list string))
}.

(** The connections there have been, those that are open, and those that a goroutine
    is about to close. *)
Record net := MkNet { conns : gmap nat ClientConn; open : gset nat; closing : list nat; next : nat }.

Definition newConnPool (root : string) : connPool := MkConnPool root ∅ ∅ [] ∅ false ∅ false ∅.
Definition newNet : net := MkNet ∅ ∅ [] 0.

Definition combineKeyWithPrefix (cp : connPool) (key : string) : string := rootDirectory cp +:+ "/" +:+ key.

Section pool.
Context (can_dial : string → bool).

(** [grpc.NewClient]. *)
Definition NewClient (addr : string) (opts : list opt) (n : net) : net * option nat :=
  if can_dial addr
  then (MkNet (<[next n := MkClientConn addr opts]> (conns n)) ({[next n]} ∪ open n) (closing n) (S (next n)),
        Some (next n))
  else (n, None).

Definition target (n : net) (c : nat) : string := match conns n !! c with Some x => Target x | None => "" end.

(** ** [syncEndpointConnMap] *)

Definition old_conns (n : net) (l : list nat) : gmap string nat :=
  fold_left (λ old c, <[target n c := c]> old) l ∅.

Fixpoint sync_loop (opts : list opt) (addresses : list string) (seen : gset string)
    (old : gmap string nat) (current : list nat) (n : net) : net * gmap string nat * list nat :=
  match addresses with
  | [] => (n, old, current)
  | addr :: addresses =>
      if bool_decide (addr = "") then sync_loop opts addresses seen old current n
      else if bool_decide (addr ∈ seen) then sync_loop opts addresses seen old current n
      else
        let seen := {[addr]} ∪ seen in
        match old !! addr with
        | Some c => sync_loop opts addresses seen (delete addr old) (current ++ [c]) n
        | None =>
            let '(n, c) := NewClient addr opts n in
            sync_loop opts addresses seen old (current ++ option_list c) n
        end
  end.

Definition begin_close (cs : list nat) (n : net) : net :=
  MkNet (conns n) (open n) (closing n ++ cs) (next n).

Definition set_conns (m : gmap string (list nat)) (cp : connPool) : connPool :=
  MkConnPool (rootDirectory cp) m (serviceConns cp) (dialOptions cp) (serviceDialOptions cp)
    (connectionsClosed cp) (watchers cp) (closed cp) (live cp).

Definition syncEndpointConnMap `{MR : !MapRange} (serviceName : string) (addresses : list string)
    (cn : connPool * net) : connPool * net :=
  let '(cp, n) := cn in
  if connectionsClosed cp then (cp, n)
  else
    let key := combineKeyWithPrefix cp serviceName in
    let old := old_conns n (default [] (endpointConnMap cp !! key)) in
    let opts := dialOptions cp ++ default [] (serviceDialOptions cp !! key) in
    let '(n, old, current) := sync_loop opts addresses ∅ old [] n in
    (set_conns (<[key := current]> (endpointConnMap cp)) cp, begin_close (range_map old).*2 n).

(** ** The other operations *)

Definition add_slash (prefix : string) : string :=
  match LastIndexByte "/" prefix with
  | Some i => if Nat.eqb (S i) (String.length prefix) then prefix else prefix +:+ "/"
  | None => prefix +:+ "/"
  end.

(** [getOrCreateWatcher]: [false] is the error that the pool is closed. *)
Definition getOrCreateWatcher (prefix : string) (cp : connPool) : connPool * bool :=
  let prefix := add_slash prefix in
  if closed cp then (cp, false)
  else if bool_decide (prefix ∈ watchers cp) then (cp, true)
  else (MkConnPool (rootDirectory cp) (endpointConnMap cp) (serviceConns cp) (dialOptions cp)
          (serviceDialOptions cp) (connectionsClosed cp) ({[prefix]} ∪ watchers cp) false
          (<[prefix := None]> (live cp)), true).

Definition TrimPrefix (s p : string) : string := default s (CutPrefix p s).

(** The service of a watcher: without the directory and the slash at the end. *)
Definition service_of (cp : connPool) (prefix : string) : string :=
  let s := TrimPrefix prefix (rootDirectory cp +:+ "/") in
  match LastIndexByte "/" s with
  | Some i => if Nat.eqb (S i) (String.length s) then stake i s else s
  | None => s
  end.

(** A watcher publishes. *)
Definition on_publish `{MR : !MapRange} (prefix : string) (addresses : list string)
    (cn : connPool * net) : option (connPool * net) :=
  let '(cp, n) := cn in
  match live cp !! prefix with
  | None => None
  | Some _ =>
      let cp := MkConnPool (rootDirectory cp) (endpointConnMap cp) (serviceConns cp) (dialOptions cp)
                  (serviceDialOptions cp) (connectionsClosed cp) (watchers cp) (closed cp)
                  (<[prefix := Some addresses]> (live cp)) in
      Some (syncEndpointConnMap (service_of cp prefix) addresses (cp, n))
  end.

(** The options of [GetConns], and its reading of the connections after the wait. *)
Definition set_service_options (serviceName : string) (opts : list opt) (cp : connPool) : connPool :=
  match opts with
  | [] => cp
  | _ => MkConnPool (rootDirectory cp) (endpointConnMap cp) (serviceConns cp) (dialOptions cp)
           (<[combineKeyWithPrefix cp serviceName := opts]> (serviceDialOptions cp))
           (connectionsClosed cp) (watchers cp) (closed cp) (live cp)
  end.

Definition GetConns_enter (serviceName : string) (opts : list opt) (cp : connPool) : connPool * bool :=
  getOrCreateWatcher (combineKeyWithPrefix cp serviceName) (set_service_options serviceName opts cp).

Definition GetConns_read (serviceName : string) (cp : connPool) : list nat :=
  default [] (endpointConnMap cp !! combineKeyWithPrefix cp serviceName).

(** [GetConn]: its section under the lock of the connections, once there is a watcher. *)
Definition GetConn (serviceName : string) (opts : list opt) (cn : connPool * net)
    : connPool * net * option nat :=
  let '(cp, n) := cn in
  let '(cp, ok) := getOrCreateWatcher (combineKeyWithPrefix cp serviceName) cp in
  if negb ok then (cp, n, None)
  else
    let t := "etcd:///" +:+ combineKeyWithPrefix cp serviceName in
    if connectionsClosed cp then (cp, n, None)
    else match serviceConns cp !! t with
         | Some c => (cp, n, Some c)
         | None =>
             match NewClient t (dialOptions cp ++ opts) n with
             | (n, None) => (cp, n, None)
             | (n, Some c) =>
                 (MkConnPool (rootDirectory cp) (endpointConnMap cp) (<[t := c]> (serviceConns cp))
                    (dialOptions cp) (serviceDialOptions cp) (connectionsClosed cp) (watchers cp)
                    (closed cp) (live cp), n, Some c)
             end
         end.

(** The connections that [resetConnMapLocked] takes out. *)
Definition all_conns `{MR : !MapRange} (cp : connPool) : list nat := mjoin (range_map (endpointConnMap cp)).*2.

(** [AddOption], section by section. *)
Definition AddOption_reset `{MR : !MapRange} (opts : list opt) (cn : connPool * net) : connPool * net :=
  let '(cp, n) := cn in
  (MkConnPool (rootDirectory cp) ∅ (serviceConns cp) (dialOptions cp ++ opts) (serviceDialOptions cp)
     (connectionsClosed cp) (watchers cp) (closed cp) (live cp),
   begin_close (all_conns cp) n).

Definition AddOption_read (prefix : string) (cp : connPool) : option (string * list string) :=
  match live cp !! prefix with
  | Some (Some ((_ :: _) as addrs)) => Some (service_of cp prefix, addrs)
  | _ => None
  end.

(** [close]: first the watchers, then, when their goroutines are gone, the connections. *)
Definition close_watchers (cp : connPool) : connPool :=
  MkConnPool (rootDirectory cp) (endpointConnMap cp) (serviceConns cp) (dialOptions cp)
    (serviceDialOptions cp) (connectionsClosed cp) ∅ true (live cp).

(** [w.close], when the goroutine is gone. *)
Definition stop_watcher (prefix : string) (cp : connPool) : connPool :=
  MkConnPool (rootDirectory cp) (endpointConnMap cp) (serviceConns cp) (dialOptions cp)
    (serviceDialOptions cp) (connectionsClosed cp) (watchers cp) (closed cp) (delete prefix (live cp)).

Definition close_conns `{MR : !MapRange} (cn : connPool * net) : connPool * net :=
  let '(cp, n) := cn in
  (MkConnPool (rootDirectory cp) ∅ ∅ (dialOptions cp) (serviceDialOptions cp) true (watchers cp) (closed cp)
     (live cp),
   begin_close (all_conns cp ++ (range_map (serviceConns cp)).*2) n).

(** [conn.Close]. *)
Definition close_conn (k : nat) (n : net) : option net :=
  match closing n !! k with
  | Some c => Some (MkNet (conns n) (open n ∖ {[c]}) (cut_at k (closing n)) (next n))
  | None => None
  end.

(** ** The pool and the goroutines that use it *)

(** A call of [AddOption] that has reset the map: it waits for the watchers' lock, has
    watchers left to read, or services left to synchronise. *)
Inductive add_pc :=
| AddWait
| AddRead (todo : list string) (items : list (string * list string))
| AddSync (items : list (string * list string)).

(** A call of [close]: its watchers left to stop. *)
Record pool_sys := MkPoolSys { pool : connPool; nets : net; adds : list add_pc; closes : list (list string) }.

Definition add_step `{MR : !MapRange} (a : add_pc) (cn : connPool * net) : option (add_pc * (connPool * net)) :=
  match a with
  | AddWait => Some (AddRead (range_map (gset_to_gmap tt (watchers cn.1))).*1 [], cn)
  | AddRead [] items => Some (AddSync items, cn)
  | AddRead (p :: todo) items => Some (AddRead todo (items ++ option_list (AddOption_read p cn.1)), cn)
  | AddSync ((s, addrs) :: items) => Some (AddSync items, syncEndpointConnMap s addrs cn)
  | AddSync [] => None
  end.

Inductive pool_op :=
| OpPublish (prefix : string) (addresses : list string)
| OpGetConns (serviceName : string) (opts : list opt)
| OpGetConn (serviceName : string) (opts : list opt)
| OpAddOption (opts : list opt)
| OpAddStep (i : nat)
| OpClose
| OpCloseStep (i : nat)
| OpCloseConn (k : nat).

Definition pool_exec `{MR : !MapRange} (o : pool_op) (s : pool_sys) : option pool_sys :=
  let 'MkPoolSys cp n adds closes := s in
  match o with
  | OpPublish p addrs =>
      (λ '(cp, n), MkPoolSys cp n adds closes) <$> on_publish p addrs (cp, n)
  | OpGetConns sv opts => Some (MkPoolSys (GetConns_enter sv opts cp).1 n adds closes)
  | OpGetConn sv opts => let '(cp, n, _) := GetConn sv opts (cp, n) in Some (MkPoolSys cp n adds closes)
  | OpAddOption opts =>
      let '(cp, n) := AddOption_reset opts (cp, n) in Some (MkPoolSys cp n (adds ++ [AddWait]) closes)
  | OpAddStep i =>
      a ← adds !! i;
      '(a', (cp, n)) ← add_step a (cp, n);
      Some (MkPoolSys cp n (<[i := a']> adds) closes)
  | OpClose =>
      Some (MkPoolSys (close_watchers cp) n adds (closes ++ [elements (watchers cp)]))
  | OpCloseStep i =>
      todo ← closes !! i;
      match todo with
      | p :: todo => Some (MkPoolSys (stop_watcher p cp) n adds (<[i := todo]> closes))
      | [] => let '(cp, n) := close_conns (cp, n) in Some (MkPoolSys cp n adds closes)
      end
  | OpCloseConn k => (λ n, MkPoolSys cp n adds closes) <$> close_conn k n
  end.

Definition pool_run `{MR : !MapRange} (os : list pool_op) (s : pool_sys) : option pool_sys :=
  fold_left (λ s o, s ≫= pool_exec o) os (Some s).

Definition pool_init (root : string) : pool_sys := MkPoolSys (newConnPool root) newNet [] [].
(** * Lemmas *)

(** ** The open connections *)

Record net_ok (n : net) : Prop := {
  net_open : ∀ c, c ∈ open n → (c < next n)%nat;
  net_known : ∀ c, is_Some (conns n !! c) ↔ (c < next n)%nat
}.

(** [n'] has the connections of [n] and [fresh], dialled with some options. *)
Record net_grows (opts : list opt) (fresh : list nat) (n n' : net) : Prop := {
  grows_conns : conns n ⊆ conns n';
  grows_open : elements (open n') ≡ₚ fresh ++ elements (open n);
  grows_closing : closing n' = closing n;
  grows_opts : ∀ c, c ∈ fresh → ∃ x, conns n' !! c = Some x ∧ Opts x = opts;
  grows_ok : net_ok n'
}.

Lemma net_grows_refl opts n : net_ok n → net_grows opts [] n n.
Proof. intros Hn. split; try done. intros c Hc. by apply elem_of_nil in Hc. Qed.

Lemma NewClient_grows addr opts n n' oc :
  net_ok n → NewClient addr opts n = (n', oc) →
  net_grows opts (option_list oc) n n' ∧ ∀ c, oc = Some c → target n' c = addr.
Proof.
  intros [Ho Hk]. unfold NewClient. destruct (can_dial addr); intros [= <- <-].
  2: { split; [by apply net_grows_refl | done]. }
  assert (Hnew : conns n !! next n = None).
  { apply eq_None_not_Some. rewrite Hk. lia. }
  split.
  - split; simpl; [by apply insert_subseteq | | done | |].
    + apply elements_union_singleton. intros H%Ho. lia.
    + intros c ->%list_elem_of_singleton. eexists. by rewrite lookup_insert_eq.
    + split; simpl.
      * intros c. rewrite elem_of_union, elem_of_singleton. intros [-> | H%Ho]; lia.
      * intros c. rewrite lookup_insert_is_Some', Hk. lia.
  - intros c [= <-]. unfold target. simpl. by rewrite lookup_insert_eq.
Qed.

Lemma net_grows_trans opts f g n1 n2 n3 :
  net_grows opts f n1 n2 → net_grows opts g n2 n3 → net_grows opts (g ++ f) n1 n3.
Proof.
  intros [Hc1 Ho1 Hl1 Hx1 _] [Hc2 Ho2 Hl2 Hx2 ?]. split; [by etrans | | congruence | | done].
  - rewrite Ho2, Ho1. by rewrite (assoc_L (++)).
  - intros c [Hc | Hc]%elem_of_app; [by apply Hx2 |].
    destruct (Hx1 c Hc) as (x & Hx & ?). exists x. split; [by eapply lookup_weaken | done].
Qed.

Lemma target_grows n n' c : conns n ⊆ conns n' → is_Some (conns n !! c) → target n' c = target n c.
Proof. intros Hs [x Hx]. unfold target. by rewrite Hx, (lookup_weaken _ _ _ _ Hx Hs). Qed.

(** ** Synchronising one service *)

(** The connections kept by their target. *)
Definition keyed (n : net) (old : gmap string nat) : Prop :=
  ∀ a c, old !! a = Some c → target n c = a ∧ is_Some (conns n !! c).

Lemma old_conns_eq n l :
  NoDup (target n <$> l) → old_conns n l = list_to_map ((λ c, (target n c, c)) <$> l).
Proof.
  intros Hl. unfold old_conns. rewrite (fold_insert (target n) id l ∅ Hl).
  by rewrite (right_id_L _ _).
Qed.

Lemma old_conns_values n l : NoDup (target n <$> l) → (map_to_list (old_conns n l)).*2 ≡ₚ l.
Proof.
  intros Hl. rewrite old_conns_eq by done.
  rewrite map_to_list_to_map by (by rewrite <- list_fmap_compose).
  rewrite <- list_fmap_compose. clear Hl. induction l as [|c l IH]; [done |]. simpl. by f_equiv.
Qed.

Lemma old_conns_lookup n l a c :
  NoDup (target n <$> l) → old_conns n l !! a = Some c ↔ c ∈ l ∧ target n c = a.
Proof.
  intros Hl. rewrite old_conns_eq by done. rewrite <- elem_of_list_to_map by (by rewrite <- list_fmap_compose).
  rewrite list_elem_of_fmap. naive_solver.
Qed.

Lemma pool_list_ok cp n key :
  (∀ k l, endpointConnMap cp !! k = Some l → NoDup (target n <$> l)) →
  NoDup (target n <$> default [] (endpointConnMap cp !! key)).
Proof. intros Ht. destruct (endpointConnMap cp !! key) as [l|] eqn:Hk; [by eapply Ht | constructor]. Qed.

Lemma old_conns_keyed n l :
  NoDup (target n <$> l) → (∀ c, c ∈ l → is_Some (conns n !! c)) → keyed n (old_conns n l).
Proof.
  intros Hl Hk a c. rewrite old_conns_eq by done.
  intros H%elem_of_list_to_map_2. apply list_elem_of_fmap in H as (c' & [= -> ->] & Hc). by auto.
Qed.

(** The addresses that will have a connection: those not seen, once each. *)
Fixpoint wanted (addresses : list string) (seen : gset string) (old : gmap string nat) : list string :=
  match addresses with
  | [] => []
  | a :: addresses =>
      if bool_decide (a = "") || bool_decide (a ∈ seen) then wanted addresses seen old
      else (if bool_decide (is_Some (old !! a)) || can_dial a then [a] else [])
             ++ wanted addresses ({[a]} ∪ seen) (delete a old)
  end.

(** The loop: the connections of the list and those left over are the old ones and the
    new ones, and the list has one connection for every wanted address. *)
Lemma sync_loop_spec opts addresses seen old current n n' old' current' :
  net_ok n → keyed n old → (∀ c, c ∈ current → is_Some (conns n !! c)) →
  sync_loop opts addresses seen old current n = (n', old', current') →
  ∃ fresh added, net_grows opts fresh n n' ∧ current' = current ++ added ∧
    added ++ (map_to_list old').*2 ≡ₚ fresh ++ (map_to_list old).*2 ∧
    (target n' <$> added) = wanted addresses seen old ∧
    (∀ c, c ∈ added → c ∈ fresh ∨ ∃ a, old !! a = Some c).
Proof.
  revert seen old current n. induction addresses as [|a addresses IH]; intros seen old current n Hn Hold Hcur; simpl.
  { intros [= <- <- <-]. exists [], []. rewrite app_nil_r. split_and!; try done; [by apply net_grows_refl |].
    intros c Hc. by apply elem_of_nil in Hc. }
  case_bool_decide as Ha; simpl; [by apply IH |]. case_bool_decide as Hs; simpl; [by apply IH |].
  destruct (old !! a) as [c|] eqn:Hc.
  - intros Hl. destruct (Hold a c Hc) as [Hta Hkc].
    apply IH in Hl as (fresh & added & Hg & -> & Hp & Ht & Hin); [| done | |].
    2: { intros a' c' [_ Hc']%lookup_delete_Some. by apply Hold. }
    2: { intros c' [Hc' | ->%list_elem_of_singleton]%elem_of_app; [by apply Hcur | done]. }
    exists fresh, (c :: added). split_and!; [done | by rewrite <- (assoc_L (++)) | | |].
    + rewrite <- (map_to_list_delete old a c Hc). simpl. rewrite Hp. solve_Permutation.
    + rewrite fmap_cons, Ht, bool_decide_true by by eexists. simpl. f_equal. rewrite <- Hta. apply target_grows; [apply Hg | done].
    + intros c' [-> | Hc']%elem_of_cons; [right; by exists a |].
      destruct (Hin c' Hc') as [? | (a' & [_ ?]%lookup_delete_Some)]; [by left | right; by exists a'].
  - rewrite (delete_id old a Hc).
    destruct (NewClient a opts n) as [n1 oc] eqn:Hnew.
    destruct (NewClient_grows a opts n n1 oc Hn Hnew) as [Hg1 Ht1].
    intros Hl. apply IH in Hl as (fresh & added & Hg & -> & Hp & Ht & Hin); [| apply Hg1 | |].
    2: { intros a' c' Hc'. destruct (Hold a' c' Hc') as [Hta Hk]. rewrite (target_grows n n1) by (done || apply Hg1).
         split; [done |]. destruct Hk as [x Hx]. exists x. eapply lookup_weaken; [done | apply Hg1]. }
    2: { intros c' [Hc' | Hc']%elem_of_app.
         - destruct (Hcur c' Hc') as [x Hx]. exists x. eapply lookup_weaken; [done | apply Hg1].
         - destruct (grows_opts _ _ _ _ Hg1 c' Hc') as (x & ? & _). by exists x. }
    exists (fresh ++ option_list oc), (option_list oc ++ added). split_and!.
    + by eapply net_grows_trans.
    + by rewrite (assoc_L (++)).
    + rewrite <- (assoc_L (++)), Hp. solve_Permutation.
    + rewrite fmap_app, Ht. f_equal. unfold NewClient in Hnew.
      destruct (can_dial a) eqn:Hd; injection Hnew as <- <-; [| done]. simpl. f_equal.
      etrans; [eapply target_grows; [apply Hg |] | by apply Ht1].
      simpl. rewrite lookup_insert_eq. by eexists.
    + intros c' [Hc' | Hc']%elem_of_app; [left; set_solver |].
      destruct (Hin c' Hc') as [? | ?]; [left; set_solver | by right].
Qed.

Lemma wanted_spec addresses seen old a : a ∈ wanted addresses seen old → a ∉ seen ∧ a ∈ addresses.
Proof.
  revert seen old. induction addresses as [|b addresses IH]; intros seen old; simpl; [set_solver |].
  case_match eqn:Hb; [intros [? ?]%IH; set_solver |].
  apply orb_false_iff in Hb as [_ Hb%bool_decide_eq_false].
  intros [Ha | [? ?]%IH]%elem_of_app; [| set_solver]. case_match; set_solver.
Qed.

Lemma wanted_NoDup addresses seen old : NoDup (wanted addresses seen old).
Proof.
  revert seen old. induction addresses as [|b addresses IH]; intros seen old; simpl; [constructor |].
  case_match; [apply IH |]. case_match; [| apply IH].
  simpl. constructor; [| apply IH]. intros [? _]%wanted_spec. set_solver.
Qed.

(** ** The invariant of the pool *)

(** Who holds the connections: the services, the targets of [GetConn], the goroutines
    that are closing them. *)
Definition owned (cp : connPool) (n : net) : list nat :=
  mjoin (map_to_list (endpointConnMap cp)).*2 ++ (map_to_list (serviceConns cp)).*2 ++ closing n.

Record pool_inv (cp : connPool) (n : net) : Prop := {
  pi_net : net_ok n;
  pi_owned : owned cp n ≡ₚ elements (open n);
  pi_targets : ∀ k l, endpointConnMap cp !! k = Some l → NoDup (target n <$> l);
  pi_opts : ∀ k l c x, endpointConnMap cp !! k = Some l → c ∈ l → conns n !! c = Some x →
            dialOptions cp `prefix_of` Opts x;
  pi_closed : connectionsClosed cp = true → endpointConnMap cp = ∅ ∧ serviceConns cp = ∅
}.

Lemma owned_lookup cp n k l c :
  endpointConnMap cp !! k = Some l → c ∈ l → c ∈ owned cp n.
Proof.
  intros Hk Hc. unfold owned. destruct (join_map_insert (endpointConnMap cp) k []) as (rest & Hm & _).
  rewrite Hm, Hk. simpl. rewrite !elem_of_app. by auto.
Qed.

Lemma pool_known cp n c : pool_inv cp n → c ∈ owned cp n → c ∈ open n ∧ is_Some (conns n !! c).
Proof.
  intros [[Ho Hk] Hp _ _ _]. rewrite Hp. intros Hc%elem_of_elements. split; [done |]. by apply Hk, Ho.
Qed.

(** Operations that leave the connections alone. *)
Lemma pool_inv_same cp cp' n :
  endpointConnMap cp' = endpointConnMap cp → serviceConns cp' = serviceConns cp →
  dialOptions cp' = dialOptions cp → connectionsClosed cp' = connectionsClosed cp →
  pool_inv cp n → pool_inv cp' n.
Proof.
  intros He Hs Hd Hc [? Ho ? ? ?]. split; unfold owned in *; rewrite ?He, ?Hs, ?Hd, ?Hc; done.
Qed.

Lemma sync_inv `{MR : !MapRange} sv addrs cp n cp' n' :
  pool_inv cp n → syncEndpointConnMap sv addrs (cp, n) = (cp', n') → pool_inv cp' n'.
Proof.
  intros Hinv. unfold syncEndpointConnMap. destruct (connectionsClosed cp) eqn:Hcl; [by intros [= <- <-] |].
  set (key := combineKeyWithPrefix cp sv). set (l := default [] (endpointConnMap cp !! key)).
  destruct (sync_loop _ _ _ _ _ _) as [[n1 old'] current] eqn:Hl. intros [= <- <-].
  pose proof Hinv as [Hok Ho Ht Hx _].
  assert (Hlk : ∀ c, c ∈ l → is_Some (conns n !! c)).
  { intros c Hc. apply (pool_known cp n c Hinv). subst l.
    destruct (endpointConnMap cp !! key) as [l|] eqn:Hk; [by eapply owned_lookup | by apply elem_of_nil in Hc]. }
  assert (Hlt : NoDup (target n <$> l)).
  { by apply pool_list_ok. }
  apply sync_loop_spec in Hl as (fresh & added & [Hc1 Ho1 Hl1 Hx1 Hok1] & -> & Hp & Htg & Hin);
    [| done | by apply old_conns_keyed | by intros c Hc%elem_of_nil].
  simpl in *.
  rewrite (old_conns_values n l Hlt) in Hp.
  destruct (join_map_insert (endpointConnMap cp) key added) as (rest & Hm & Hm').
  split; simpl; [by destruct Hok1 | | | | congruence].
  - unfold owned in *. simpl. rewrite Hm', Hl1, (range_map_perm old'), Ho1, <- Ho, Hm.
    fold l.
    trans ((added ++ (map_to_list old').*2) ++ rest ++ (map_to_list (serviceConns cp)).*2 ++ closing n);
      [| rewrite Hp]; solve_Permutation.
  - intros k l'. rewrite lookup_insert_Some. intros [[_ <-] | [_ Hk]].
    + change (NoDup (target n1 <$> added)). rewrite Htg. apply wanted_NoDup.
    + assert (target n1 <$> l' = target n <$> l') as Heq.
      { apply list_fmap_ext. intros i c Hi%list_elem_of_lookup_2. apply target_grows; [done |].
        by apply (pool_known cp n c Hinv), (owned_lookup cp n k l'). }
      change (NoDup (target n1 <$> l')). rewrite Heq. by eapply Ht.
  - intros k l' c x. rewrite lookup_insert_Some. intros [[_ <-] | [_ Hk]] Hc Hcx.
    + destruct (Hin c Hc) as [Hf | [a Ha]].
      * destruct (Hx1 c Hf) as (x' & Hx' & Hopts). simplify_eq. rewrite Hopts. by apply prefix_app_r.
      * assert (Hcl' : c ∈ l).
        { rewrite <- (old_conns_values n l Hlt). apply list_elem_of_fmap. exists (a, c).
          split; [done |]. by apply elem_of_map_to_list. }
        destruct (Hlk c Hcl') as [y Hy]. pose proof (lookup_weaken _ _ _ _ Hy Hc1). simplify_eq.
        subst l. destruct (endpointConnMap cp !! key) eqn:Hk; [by eapply Hx | by apply elem_of_nil in Hcl'].
    + destruct (pool_known cp n c Hinv) as [_ [y Hy]]; [by eapply owned_lookup |].
      pose proof (lookup_weaken _ _ _ _ Hy Hc1). simplify_eq. by eapply Hx.
Qed.

Lemma all_conns_perm `{MR : !MapRange} cp : all_conns cp ≡ₚ mjoin (map_to_list (endpointConnMap cp)).*2.
Proof. unfold all_conns. by rewrite (range_map_perm (endpointConnMap cp)). Qed.

Lemma getOrCreateWatcher_inv p cp n : pool_inv cp n → pool_inv (getOrCreateWatcher p cp).1 n.
Proof. intros H. unfold getOrCreateWatcher. repeat case_match; simpl; first [done | by apply (pool_inv_same cp)]. Qed.

Lemma GetConns_inv sv opts cp n : pool_inv cp n → pool_inv (GetConns_enter sv opts cp).1 n.
Proof.
  intros H. apply getOrCreateWatcher_inv. unfold set_service_options. case_match; first [done | by apply (pool_inv_same cp)].
Qed.

Lemma GetConn_inv sv opts cp n cp' n' oc :
  pool_inv cp n → GetConn sv opts (cp, n) = (cp', n', oc) → pool_inv cp' n'.
Proof.
  intros Hinv. unfold GetConn.
  pose proof (getOrCreateWatcher_inv (combineKeyWithPrefix cp sv) cp n Hinv) as Hinv1.
  destruct (getOrCreateWatcher _ _) as [cp1 ok]. simpl in *.
  destruct ok; simpl; [| by intros [= <- <- <-]].
  destruct (connectionsClosed cp1) eqn:Hcl; [by intros [= <- <- <-] |].
  set (t := "etcd:///" +:+ _). destruct (serviceConns cp1 !! t) as [c|] eqn:Hs; [by intros [= <- <- <-] |].
  destruct (NewClient _ _ _) as [n1 o] eqn:Hnew.
  destruct (NewClient_grows _ _ _ _ _ (pi_net _ _ Hinv1) Hnew) as [[Hc1 Ho1 Hl1 Hx1 Hok1] _].
  assert (Htg : ∀ c, c ∈ owned cp1 n → target n1 c = target n c).
  { intros c Hc. apply target_grows; [done |]. by apply (pool_known cp1 n c). }
  pose proof Hinv1 as [Hok Ho Ht Hx _].
  assert (Hlist : ∀ k l, endpointConnMap cp1 !! k = Some l → NoDup (target n1 <$> l)).
  { intros k l Hk. assert (target n1 <$> l = target n <$> l) as ->; [| by eapply Ht].
    apply list_fmap_ext. intros i c Hi%list_elem_of_lookup_2. by eapply Htg, owned_lookup. }
  assert (Hopts : ∀ k l c x, endpointConnMap cp1 !! k = Some l → c ∈ l → conns n1 !! c = Some x →
                  dialOptions cp1 `prefix_of` Opts x).
  { intros k l c x Hk Hc Hcx. destruct (pool_known cp1 n c Hinv1) as [_ [y Hy]]; [by eapply owned_lookup |].
    pose proof (lookup_weaken _ _ _ _ Hy Hc1). simplify_eq. by eapply Hx. }
  destruct o as [c|]; intros [= <- <- <-]; split; simpl; try done; try congruence; unfold owned in *; simpl.
  - rewrite map_to_list_insert by done. rewrite Ho1, Hl1, <- Ho. simpl. solve_Permutation.
  - by rewrite Ho1, Hl1.
Qed.

Lemma AddOption_reset_inv `{MR : !MapRange} opts cp n cp' n' :
  pool_inv cp n → AddOption_reset opts (cp, n) = (cp', n') → pool_inv cp' n'.
Proof.
  intros [Hok Ho Ht Hx Hc] [= <- <-]. split; simpl; [by destruct Hok | | | |].
  - unfold owned in *. simpl. rewrite all_conns_perm, <- Ho. solve_Permutation.
  - intros k l. by rewrite lookup_empty.
  - intros k l c x. by rewrite lookup_empty.
  - intros H. by destruct (Hc H).
Qed.

Lemma close_conns_inv `{MR : !MapRange} cp n cp' n' :
  pool_inv cp n → close_conns (cp, n) = (cp', n') → pool_inv cp' n'.
Proof.
  intros [Hok Ho Ht Hx Hc] [= <- <-]. split; simpl; [by destruct Hok | | | | done].
  - unfold owned in *. simpl. rewrite all_conns_perm, (range_map_perm (serviceConns cp)), <- Ho. solve_Permutation.
  - intros k l. by rewrite lookup_empty.
  - intros k l c x. by rewrite lookup_empty.
Qed.

Lemma close_conn_inv k cp n n' : pool_inv cp n → close_conn k n = Some n' → pool_inv cp n'.
Proof.
  intros Hinv. unfold close_conn. destruct (closing n !! k) as [c|] eqn:Hk; intros [= <-].
  pose proof (cut_at_perm _ _ _ Hk) as Hcut.
  destruct (pool_known cp n c Hinv) as [Hopen _].
  { unfold owned. rewrite !elem_of_app. right. right. by eapply list_elem_of_lookup_2. }
  pose proof Hinv as [[Hb Hkn] Ho Ht Hx Hc]. split; simpl; try done.
  - split; simpl; [| done]. intros c' [? _]%elem_of_difference. by apply Hb.
  - assert (He : elements (open n) ≡ₚ c :: elements (open n ∖ {[c]})).
    { rewrite <- elements_union_singleton by set_solver. by rewrite <- union_difference_singleton_L. }
    unfold owned in *. simpl. rewrite He, Hcut in Ho. apply (Permutation_cons_inv (a := c)).
    trans (mjoin (map_to_list (endpointConnMap cp)).*2 ++ (map_to_list (serviceConns cp)).*2 ++ c :: cut_at k (closing n));
      [solve_Permutation | done].
Qed.

Lemma on_publish_inv `{MR : !MapRange} p addrs cp n cp' n' :
  pool_inv cp n → on_publish p addrs (cp, n) = Some (cp', n') → pool_inv cp' n'.
Proof.
  intros Hinv. unfold on_publish. destruct (live cp !! p); [| done]. intros Hs. apply (inj Some) in Hs.
  eapply sync_inv; [| exact Hs]. by apply (pool_inv_same cp).
Qed.

Lemma pool_exec_inv `{MR : !MapRange} o s s' :
  pool_exec o s = Some s' → pool_inv (pool s) (nets s) → pool_inv (pool s') (nets s').
Proof.
  destruct s as [cp n adds closes]. intros He Hinv. simpl in Hinv. destruct o; cbn [pool_exec] in He.
  - apply fmap_Some in He as ([cp' n'] & Hp & ->). by eapply on_publish_inv.
  - injection He as <-. by apply GetConns_inv.
  - destruct (GetConn _ _ _) as [[cp' n'] oc] eqn:Hg. injection He as <-. by eapply GetConn_inv.
  - injection He as <-. by eapply (AddOption_reset_inv opts cp n).
  - destruct (adds !! i) as [a|]; [| done]. simpl in He.
    destruct (add_step a (cp, n)) as [[a' [cp' n']]|] eqn:Ha; [| done]. injection He as <-. simpl.
    destruct a as [|[|q todo] items|[|[sv addrs] items]]; simplify_eq/=; try done. by eapply sync_inv.
  - injection He as <-. by apply (pool_inv_same cp).
  - destruct (closes !! i) as [[|q todo]|]; [| | done]; simpl in He; injection He as <-; simpl.
    + by eapply (close_conns_inv cp n).
    + by apply (pool_inv_same cp).
  - apply fmap_Some in He as (n' & Hc & ->). by eapply close_conn_inv.
Qed.

Lemma pool_run_inv `{MR : !MapRange} root os s :
  pool_run os (pool_init root) = Some s → pool_inv (pool s) (nets s).
Proof.
  intros Hr. apply (run_Some pool_exec (λ s, pool_inv (pool s) (nets s)) os (pool_init root) s
                      pool_exec_inv Hr).
  split; simpl; [| done | | | done].
  - split; simpl; [set_solver |]. intros c. rewrite lookup_empty. split; [by intros [] | lia].
  - intros k l. by rewrite lookup_empty.
  - intros k l c x. by rewrite lookup_empty.
Qed.

Lemma elem_of_wanted addresses seen old a :
  a ∈ wanted addresses seen old ↔
  a ∈ addresses ∧ a ≠ "" ∧ a ∉ seen ∧ (is_Some (old !! a) ∨ can_dial a = true).
Proof.
  revert seen old. induction addresses as [|b addresses IH]; intros seen old; simpl; [set_solver |].
  rewrite elem_of_cons. destruct (bool_decide (b = "") || bool_decide (b ∈ seen)) eqn:Hb.
  - rewrite IH. apply orb_true_iff in Hb as [Hb%bool_decide_eq_true | Hb%bool_decide_eq_true]; set_solver.
  - apply orb_false_iff in Hb as [Hb1%bool_decide_eq_false Hb2%bool_decide_eq_false].
    rewrite elem_of_app, IH. destruct (decide (a = b)) as [-> | Hab].
    + destruct (bool_decide (is_Some (old !! b)) || can_dial b) eqn:He;
        [apply orb_true_iff in He as [He%bool_decide_eq_true | He]
        | apply orb_false_iff in He as [He%bool_decide_eq_false He']].
      1, 2: set_solver.
      split; [set_solver |]. intros (_ & _ & _ & [? | ?]); [done | congruence].
    + rewrite lookup_delete_ne by done. case_match; set_solver.
Qed.

Lemma sync_loop_old opts addresses seen old current n n' old' current' a :
  sync_loop opts addresses seen old current n = (n', old', current') →
  old' !! a = if bool_decide (a ∈ addresses ∧ a ≠ "" ∧ a ∉ seen) then None else old !! a.
Proof.
  revert seen old current n. induction addresses as [|b addresses IH]; intros seen old current n; cbn [sync_loop].
  { intros [= _ <- _]. rewrite bool_decide_false; [done |]. by intros [?%elem_of_nil _]. }
  assert (Hdec : ∀ P Q : Prop, ∀ (HP : Decision P) (HQ : Decision Q), (P ↔ Q) →
            (if bool_decide P then None else old !! a) = (if bool_decide Q then None else old !! a)).
  { intros P Q ?? HPQ. do 2 case_bool_decide; tauto. }
  case_bool_decide as Hb1; [intros ->%IH; apply Hdec; set_solver |].
  case_bool_decide as Hb2; [intros ->%IH; apply Hdec; set_solver |].
  destruct (old !! b) as [c|] eqn:Hc.
  - intros ->%IH. destruct (decide (a = b)) as [-> | Hab].
    + rewrite (bool_decide_true (b ∈ b :: addresses ∧ _)) by set_solver.
      rewrite lookup_delete_eq. by case_match.
    + rewrite lookup_delete_ne by done. apply Hdec. set_solver.
  - destruct (NewClient b opts n) as [n1 oc]. intros ->%IH.
    destruct (decide (a = b)) as [-> | Hab].
    + rewrite Hc. by repeat case_match.
    + apply Hdec. set_solver.
Qed.

(** * Theorems *)

(** C12. No connection is leaked or closed twice: in every reachable state, whatever
    publications, readings, options and closings interleave, each open connection is
    held exactly once, by a service, by a target of [GetConn] or by a goroutine about to
    close it, and nothing else is held.  A service has one connection for each address,
    dialled with all the options added so far, [GetConns] reads open ones only, and once
    the connections are closed only those about to be closed are open. *)
Theorem connections_owned `{MR : !MapRange} root os s :
  pool_run os (pool_init root) = Some s →
  owned (pool s) (nets s) ≡ₚ elements (open (nets s)) ∧
  (∀ k l, endpointConnMap (pool s) !! k = Some l → NoDup (target (nets s) <$> l)) ∧
  (∀ sv c, c ∈ GetConns_read sv (pool s) → c ∈ open (nets s) ∧ c ∉ closing (nets s) ∧
    ∃ x, conns (nets s) !! c = Some x ∧ dialOptions (pool s) `prefix_of` Opts x) ∧
  (connectionsClosed (pool s) = true → elements (open (nets s)) ≡ₚ closing (nets s)).
Proof.
  intros Hr. pose proof (pool_run_inv root os s Hr) as Hinv.
  pose proof Hinv as [Hok Ho Ht Hx Hc]. split_and!; [done.. | |].
  - intros sv c. unfold GetConns_read.
    destruct (endpointConnMap (pool s) !! _) as [l|] eqn:Hk; simpl; [| by intros ?%elem_of_nil].
    intros Hcl. pose proof (owned_lookup _ (nets s) _ _ _ Hk Hcl) as How.
    destruct (pool_known _ _ c Hinv How) as [Hopen [x Hcx]]. split_and!; [done | | by eauto].
    intros Hclosing. pose proof (NoDup_elements (open (nets s))) as Hnd. rewrite <- Ho in Hnd.
    unfold owned in Hnd. apply NoDup_app in Hnd as (_ & Hdisj & _).
    apply (Hdisj c); [| rewrite elem_of_app; by right].
    destruct (join_map_insert (endpointConnMap (pool s)) (combineKeyWithPrefix (pool s) sv) []) as (rest & Hm & _).
    rewrite Hm, Hk. simpl. apply elem_of_app. by left.
  - intros Hcl. destruct (Hc Hcl) as [He Hs]. rewrite <- Ho. unfold owned.
    by rewrite He, Hs, !map_to_list_empty.
Qed.

(** Synchronising a service with addresses, in any reachable state: its connections
    are those to the addresses that are not empty, once each, that it was connected to
    already or that can be dialled; a connection whose address remains is kept, any other
    is closed. *)
Theorem syncEndpointConnMap_spec `{MR : !MapRange} root os s sv addresses cp' n' :
  pool_run os (pool_init root) = Some s → connectionsClosed (pool s) = false →
  syncEndpointConnMap sv addresses (pool s, nets s) = (cp', n') →
  let old := GetConns_read sv (pool s) in
  let new := GetConns_read sv cp' in
  NoDup (target n' <$> new) ∧
  (∀ a, a ∈ target n' <$> new ↔
        a ∈ addresses ∧ a ≠ "" ∧ (a ∈ target (nets s) <$> old ∨ can_dial a = true)) ∧
  (∀ c, c ∈ old → if decide (target (nets s) c ∈ addresses ∧ target (nets s) c ≠ "") then c ∈ new
                  else c ∉ new ∧ c ∈ closing n').
Proof.
  intros Hr Hcl Hs. pose proof (pool_run_inv root os s Hr) as Hinv. cbv zeta.
  set (n := nets s) in *. set (cp := pool s) in *. clearbody n cp.
  pose proof (sync_inv _ _ _ _ _ _ Hinv Hs) as Hinv'.
  unfold syncEndpointConnMap in Hs. rewrite Hcl in Hs. unfold GetConns_read.
  set (key := combineKeyWithPrefix cp sv) in *.
  set (l := default [] (endpointConnMap cp !! key)) in *.
  destruct (sync_loop _ _ _ _ _ _) as [[n1 old'] current] eqn:Hl. injection Hs as <- <-.
  change (combineKeyWithPrefix (set_conns (<[key:=current]> (endpointConnMap cp)) cp) sv) with key.
  simpl. rewrite lookup_insert_eq. simpl.
  assert (Hlk : ∀ c, c ∈ l → is_Some (conns n !! c)).
  { intros c Hc. apply (pool_known cp n c Hinv). subst l.
    destruct (endpointConnMap cp !! key) as [l|] eqn:Hk; [by eapply owned_lookup | by apply elem_of_nil in Hc]. }
  assert (Hlt : NoDup (target n <$> l)).
  { apply pool_list_ok, (pi_targets _ _ Hinv). }
  pose proof (λ a c, old_conns_lookup n l a c Hlt) as Hold.
  pose proof (λ a, sync_loop_old _ _ _ _ _ _ _ _ _ a Hl) as Hrest.
  apply sync_loop_spec in Hl as (fresh & added & Hg & -> & Hp & Htg & Hin);
    [| apply (pi_net _ _ Hinv) | by apply old_conns_keyed | by intros c Hc%elem_of_nil].
  simpl in *. rewrite (old_conns_values n l Hlt) in Hp.
  change (target (begin_close _ n1) <$> added) with (target n1 <$> added). rewrite Htg.
  split_and!; [apply wanted_NoDup | |].
  - intros a. rewrite elem_of_wanted.
    assert (is_Some (old_conns n l !! a) ↔ a ∈ target n <$> l) as ->;
      [| clear; split; [intros (? & ? & _ & ?) | intros (? & ? & ?)]; split_and!; try done; apply not_elem_of_empty].
    rewrite list_elem_of_fmap. split; [intros [c [? <-]%Hold]; by exists c |].
    intros (c & -> & Hc). exists c. by apply Hold.
  - intros c Hc. assert (Hone : c ∈ added ++ (map_to_list old').*2) by (rewrite Hp, elem_of_app; by right).
    assert (Hval : c ∈ (map_to_list old').*2 ↔ old' !! target n c = Some c).
    { rewrite list_elem_of_fmap. split.
      - intros ([a c'] & -> & Ha%elem_of_map_to_list). simpl.
        assert (old_conns n l !! a = Some c') as [_ ->]%Hold; [| done].
        rewrite Hrest in Ha. by case_match.
      - intros Ha. exists (target n c, c). split; [done |]. by apply elem_of_map_to_list. }
    rewrite Hrest, (proj2 (Hold (target n c) c)) in Hval by done.
    destruct (decide _) as [[Hd1 Hd2] | Hd].
    + rewrite bool_decide_true in Hval by (split_and!; [done.. | apply not_elem_of_empty]).
      apply elem_of_app in Hone as [? | ?%Hval]; done.
    + rewrite bool_decide_false in Hval by (intros (? & ? & _); by apply Hd). split.
      * intros Ha. apply (list_elem_of_fmap_2 (target n1)) in Ha.
        rewrite Htg, elem_of_wanted, (target_grows n n1) in Ha; [naive_solver | apply Hg | by apply Hlk].
      * rewrite elem_of_app, (range_map_perm old'). right. by apply Hval.
Qed.
End pool.

(** [AddOption] can undo a publication: it reads the addresses of a watcher and
    synchronises with them later, so that a publication in between is lost; every call
    has ended, the watcher has published one address, and [GetConns] reads the connection
    to another, for as long as nothing more is published. *)
Theorem AddOption_restores_stale :
  ∃ os s, pool_run (λ _, true) os (pool_init "openim") = Some s ∧
    adds s = [AddSync []] ∧ closes s = [] ∧
    live (pool s) !! "openim/msg/" = Some (Some ["10.0.0.2:80"]) ∧
    target (nets s) <$> GetConns_read "msg" (pool s) = ["10.0.0.1:80"].
Proof.
  exists [OpGetConns "msg" []; OpPublish "openim/msg/" ["10.0.0.1:80"]; OpAddOption [7]; OpAddStep 0;
          OpAddStep 0; OpAddStep 0; OpPublish "openim/msg/" ["10.0.0.2:80"]; OpAddStep 0].
  eexists. split; [vm_compute; reflexivity |]. vm_compute. by split_and!.
Qed.

(** * Witnesses *)

Definition demo_ops : list pool_op :=
  [OpGetConns "msg" [3]; OpPublish "r/msg/" ["a:1"; "b:2"; ""; "a:1"; "bad"]; OpGetConn "msg" [];
   OpAddOption [7]; OpAddStep 0; OpAddStep 0; OpAddStep 0; OpAddStep 0; OpCloseConn 0;
   OpPublish "r/msg/" ["b:2"; "c:3"]].

Definition demo_dial (addr : string) : bool := negb (bool_decide (addr = "bad")).

Definition demo_pool : pool_sys := default (pool_init "r") (pool_run demo_dial demo_ops (pool_init "r")).

Lemma connections_owned_witness :
  length (elements (open (nets demo_pool))) = 5 ∧ length (closing (nets demo_pool)) = 2 ∧
  owned (pool demo_pool) (nets demo_pool) ≡ₚ elements (open (nets demo_pool)).
Proof.
  split; [vm_compute; reflexivity | split; [vm_compute; reflexivity |]].
  destruct (connections_owned demo_dial "r" demo_ops demo_pool) as [Ho _]; [vm_compute; reflexivity |].
  exact Ho.
Defined.

Lemma syncEndpointConnMap_spec_witness :
  let new := syncEndpointConnMap demo_dial "msg" ["c:3"; "d:4"; "bad"] (pool demo_pool, nets demo_pool) in
  target (nets demo_pool) <$> GetConns_read "msg" (pool demo_pool) = ["b:2"; "c:3"] ∧
  target new.2 <$> GetConns_read "msg" new.1 = ["c:3"; "d:4"] ∧
  NoDup (target new.2 <$> GetConns_read "msg" new.1).
Proof.
  intros new. split; [vm_compute; reflexivity | split; [vm_compute; reflexivity |]].
  destruct (syncEndpointConnMap_spec demo_dial "r" demo_ops demo_pool "msg" ["c:3"; "d:4"; "bad"] new.1 new.2)
    as [Hn _].
  - vm_compute. reflexivity.
  - vm_compute. reflexivity.
  - vm_compute. reflexivity.
  - exact Hn.
Defined.
