(* ===== verification/EtcdKV.v ===== *)
(** * Registration and keys with leases (discovery/etcd)

    etcd is a class of stores with its documented laws: keys with a value and a lease,
    or 0, the leases that are alive and those that were ever granted.

    A call of the registrar has a fate: it may be refused, be applied without the registrar
    hearing of it, or arrive after the registrar gave it up.  [Register] and [reRegister]
    hold the lock throughout and are one step each: a put, a
    delete or a revocation that reaches the server meanwhile does to the endpoint what it
    does before the method or after it.  [UnRegister] releases the lock before it sends its requests, so each of
    these is a step of its own.

    The goroutines that keep the hub's leases alive take their steps between those of the
    callers.  In the hub a call that fails has no effect. *)

From S2P Require Import Prelude GoStrings Network EtcdWatcher.
From Stdlib Require Import Strings.Ascii.

Local Open Scope Z_scope.

(** ** etcd *)

Class Etcd := {
  store : Type;
  get : store → string → option (string * Z);
  alive : store → Z → bool;
  ever : store → Z → bool;
  grant : store → Z * store;
  put : string → string → Z → store → option store;
  del : string → store → store;
  revoke : Z → store → option store
}.

Class EtcdLaws `{!Etcd} := {
  grant_lease s : 0 < (grant s).1 ∧ ever s (grant s).1 = false;
  alive_ever s l : alive s l = true → ever s l = true;
  grant_ever s l : ever (grant s).2 l = bool_decide (l = (grant s).1) || ever s l;
  put_ever k v l s s' l' : put k v l s = Some s' → ever s' l' = ever s l';
  del_ever k s l : ever (del k s) l = ever s l;
  revoke_ever l s s' l' : revoke l s = Some s' → ever s' l' = ever s l';
  grant_get s k : get (grant s).2 k = get s k;
  grant_alive s l : alive (grant s).2 l = bool_decide (l = (grant s).1) || alive s l;
  put_ok k v l s : is_Some (put k v l s) ↔ l = 0 ∨ alive s l = true;
  put_get k v l s s' k' : put k v l s = Some s' → get s' k' = if decide (k' = k) then Some (v, l) else get s k';
  put_alive k v l s s' l' : put k v l s = Some s' → alive s' l' = alive s l';
  del_get k s k' : get (del k s) k' = if decide (k' = k) then None else get s k';
  del_alive k s l : alive (del k s) l = alive s l;
  revoke_ok l s : is_Some (revoke l s) ↔ alive s l = true;
  revoke_get l s s' k : revoke l s = Some s' →
    get s' k = match get s k with Some (v, l') => if decide (l' = l) then None else Some (v, l') | None => None end;
  revoke_alive l s s' l' : revoke l s = Some s' → alive s' l' = negb (bool_decide (l' = l)) && alive s l'
}.

(** A call whose error is ignored. *)
Definition attempt {S} (o : option S) (fails : bool) (s : S) : S := if fails then s else default s o.

(** Whether a call is applied at the server and its success heard, refused, applied without
    the caller hearing of it, or given up by the caller while its request is on its way. *)
Inductive fate := Fine | Refused | Unheard | Late.

Definition applied (f : fate) : bool := match f with Fine | Unheard => true | Refused | Late => false end.

#[export] Instance fate_eq_dec : EqDecision fate.
Proof. solve_decision. Defined.

Section registrar.
Context `{E : !Etcd}.

(** [json.Marshal] of an endpoint with only an address. *)
Context (Marshal : string → string).

(** ** The calls of the client *)

Inductive request := RGrant | RPut (k v : string) (l : Z) | RDelete (k : string) | RRevoke (l : Z).

Definition serve (q : request) (s : store) : option store :=
  match q with
  | RGrant => Some (grant s).2
  | RPut k v l => put k v l s
  | RDelete k => Some (del k s)
  | RRevoke l => revoke l s
  end.

(** The server, and the requests whose callers gave up. *)
Record network := MkNetwork { server : store; late : list request }.

Definition set_server (s : store) (n : network) : network := MkNetwork s (late n).

(** A call, and whether it returns no error. *)
Definition call (f : fate) (q : request) (n : network) : network * bool :=
  let served := set_server (default (server n) (serve q (server n))) n in
  match f with
  | Fine => (served, bool_decide (is_Some (serve q (server n))))
  | Refused => (n, false)
  | Unheard => (served, false)
  | Late => (MkNetwork (server n) (late n ++ [q]), false)
  end.

(** ** The registrar *)

Record registrar := MkRegistrar {
  rootDirectory : string;
  serviceKey : string;
  leaseID : Z;
  selfTarget : string;
  keepAlive : bool;
  service : string;
  host : string;
  port : Z
}.

Definition newRegistrar (root : string) : registrar := MkRegistrar root "" 0 "" false "" "" 0.

(** The fates of the calls of a registration: the lease, the endpoint, giving the lease
    back when the endpoint failed, and revoking the lease before. *)
Record fates := MkFates { grantF : fate; putF : fate; undoF : fate; revokeF : fate }.

Definition service_key (root serviceName addr : string) : string :=
  (root +:+ "/" +:+ serviceName) +:+ String "/" addr.

Definition registerLocked (f : fates) (serviceName h : string) (p : Z) (r : registrar) (n : network)
    : registrar * network * bool :=
  let addr := JoinHostPort h (Itoa p) in
  let key := service_key (rootDirectory r) serviceName addr in
  if negb (bool_decide (grantF f = Fine)) then (r, (call (grantF f) RGrant n).1, false)
  else
    let '(l, s) := grant (server n) in
    match call (putF f) (RPut key (Marshal addr) l) (set_server s n) with
    | (n, false) => (r, (call (undoF f) (RRevoke l) n).1, false)
    | (n, true) => (MkRegistrar (rootDirectory r) key l addr (keepAlive r) serviceName h p, n, true)
    end.

Definition set_lease (l : Z) (r : registrar) : registrar :=
  MkRegistrar (rootDirectory r) (serviceKey r) l (selfTarget r) (keepAlive r) (service r) (host r) (port r).
Definition set_keepAlive (b : bool) (r : registrar) : registrar :=
  MkRegistrar (rootDirectory r) (serviceKey r) (leaseID r) (selfTarget r) b (service r) (host r) (port r).

Definition Register (f : fates) (serviceName h : string) (p : Z) (r : registrar) (n : network)
    : registrar * network * bool :=
  let r := set_keepAlive false r in
  let '(r, n) := if bool_decide (leaseID r = 0) then (r, n)
                 else (set_lease 0 r, (call (revokeF f) (RRevoke (leaseID r)) n).1) in
  match registerLocked f serviceName h p r n with
  | (r, n, true) => (set_keepAlive true r, n, true)
  | (r, n, false) => (r, n, false)
  end.

Definition reRegister (f : fates) (r : registrar) (n : network) : registrar * network * bool :=
  if bool_decide (service r = "") || bool_decide (host r = "") then (r, n, false)
  else
    let oldLeaseID := leaseID r in
    match registerLocked f (service r) (host r) (port r) r n with
    | (r, n, false) => (r, n, false)
    | (r, n, true) =>
        (r, if negb (bool_decide (oldLeaseID = 0)) && negb (bool_decide (oldLeaseID = leaseID r))
            then (call (revokeF f) (RRevoke oldLeaseID) n).1 else n, true)
    end.

(** A call of [UnRegister] that has released the lock: it is to delete the endpoint, then
    to revoke the lease, or has returned, without an error or with one. *)
Inductive unregister := UDelete (k : string) (l : Z) | URevoke (l : Z) | UReturned (ok : bool).

(** [UnRegister] up to where it releases the lock. *)
Definition UnRegister (r : registrar) : registrar * unregister :=
  (newRegistrar (rootDirectory r),
   if bool_decide (serviceKey r = "") then UReturned true else UDelete (serviceKey r) (leaseID r)).

Definition unregister_step (f : fate) (u : unregister) (n : network) : unregister * network :=
  match u with
  | UDelete k l =>
      match call f (RDelete k) n with
      | (n, false) => (UReturned false, n)
      | (n, true) => (if bool_decide (l = 0) then UReturned true else URevoke l, n)
      end
  | URevoke l => (UReturned true, (call f (RRevoke l) n).1)
  | UReturned _ => (u, n)
  end.

Definition GetSelfConnTarget (r : registrar) : string := selfTarget r.

(** [IsSelfNode] of a connection with a target, or of something else. *)
Definition IsSelfNode (cli : option string) (r : registrar) : bool :=
  match cli with
  | None => false
  | Some t => negb (bool_decide (selfTarget r = "")) && bool_decide (selfTarget r = t)
  end.

(** The registrar, the server with the requests on their way, and the calls of
    [UnRegister] there have been. *)
Record registry := MkRegistry { reg : registrar; net : network; unregs : list unregister }.

Definition registry_init (root : string) (s : store) : registry :=
  MkRegistry (newRegistrar root) (MkNetwork s []) [].

(** The methods, the loop that re-registers, requests that arrive at last, and leases that
    expire. *)
Inductive reg_op :=
| OpRegister (f : fates) (serviceName h : string) (p : Z)
| OpReRegister (f : fates)
| OpUnRegister
| OpUnRegisterStep (i : nat) (f : fate)
| OpArrive (i : nat)
| OpExpire (l : Z).

Definition reg_exec (o : reg_op) (w : registry) : registry :=
  let '(MkRegistry r n us) := w in
  match o with
  | OpRegister f sv h p => let '(r, n, _) := Register f sv h p r n in MkRegistry r n us
  | OpReRegister f => if keepAlive r then let '(r, n, _) := reRegister f r n in MkRegistry r n us else w
  | OpUnRegister => let '(r, u) := UnRegister r in MkRegistry r n (us ++ [u])
  | OpUnRegisterStep i f =>
      match us !! i with
      | Some u => let '(u, n) := unregister_step f u n in MkRegistry r n (<[i := u]> us)
      | None => w
      end
  | OpArrive i =>
      match late n !! i with
      | Some q => MkRegistry r (MkNetwork (default (server n) (serve q (server n))) (delete i (late n))) us
      | None => w
      end
  | OpExpire l => MkRegistry r (set_server (default (server n) (revoke l (server n))) n) us
  end.

Definition reg_run (os : list reg_op) (w : registry) : registry := fold_left (λ w o, reg_exec o w) os w.

(** What leaves the current endpoint alone: no delete of its key by a call of [UnRegister]
    that is still running, no delete or put of its key that arrives late, and no
    re-registration whose put is applied although the registrar hears that it failed. *)
Definition leaves_key (q : request) (key : string) : bool :=
  match q with RPut k _ _ | RDelete k => negb (bool_decide (k = key)) | RGrant | RRevoke _ => true end.

Definition calm (o : reg_op) (w : registry) : bool :=
  match o with
  | OpReRegister f => negb (bool_decide (putF f = Unheard))
  | OpUnRegisterStep i f =>
      match unregs w !! i with
      | Some (UDelete k _) => negb (applied f) || leaves_key (RDelete k) (serviceKey (reg w))
      | _ => true
      end
  | OpArrive i => match late (net w) !! i with Some q => leaves_key q (serviceKey (reg w)) | None => true end
  | OpRegister _ _ _ _ | OpUnRegister | OpExpire _ => true
  end.

Fixpoint calm_run (os : list reg_op) (w : registry) : bool :=
  match os with [] => true | o :: os => calm o w && calm_run os (reg_exec o w) end.

(** ** Lemmas on the registrar *)

Context `{!EtcdLaws}.

(** The endpoint is there as long as its lease is. *)
Definition endpoint_there (r : registrar) (s : store) : Prop :=
  leaseID r ≠ 0 → alive s (leaseID r) = true → get s (serviceKey r) = Some (Marshal (selfTarget r), leaseID r).

(** The lease the registrar holds was granted. *)
Definition lease_granted (r : registrar) (s : store) : Prop := leaseID r ≠ 0 → ever s (leaseID r) = true.

Lemma attempt_revoke_alive l b s l' :
  alive (attempt (revoke l s) b s) l' = true → alive s l' = true.
Proof.
  unfold attempt. destruct b; [done |]. destruct (revoke l s) as [s'|] eqn:Hr; [| done]. simpl.
  rewrite (revoke_alive _ _ _ _ Hr). by intros [_ ?]%andb_true_iff.
Qed.

Lemma attempt_revoke_ever l b s l' : ever (attempt (revoke l s) b s) l' = ever s l'.
Proof.
  unfold attempt. destruct b; [done |]. destruct (revoke l s) as [s'|] eqn:Hr; [| done]. simpl.
  apply (revoke_ever _ _ _ _ Hr).
Qed.

Lemma attempt_revoke_get l b s k v l' :
  l' ≠ l → get s k = Some (v, l') → get (attempt (revoke l s) b s) k = Some (v, l').
Proof.
  intros Hne Hk. unfold attempt. destruct b; [done |]. destruct (revoke l s) as [s'|] eqn:Hr; [| done].
  simpl. rewrite (revoke_get _ _ _ _ Hr), Hk. by rewrite decide_False.
Qed.

(** Revoking another lease, or the endpoint's own. *)
Lemma revoke_there l b r s : endpoint_there r s → endpoint_there r (attempt (revoke l s) b s).
Proof.
  intros Ht Hne Ha. pose proof Ha as Hold%attempt_revoke_alive.
  destruct (decide (leaseID r = l)) as [Hl | Hl]; [| by apply attempt_revoke_get, Ht].
  revert Ha. unfold attempt. destruct b; [by intros _; apply Ht |].
  destruct (revoke l s) as [s'|] eqn:Hr; [| by intros _; apply Ht]. simpl.
  rewrite (revoke_alive _ _ _ _ Hr), bool_decide_true by done. done.
Qed.

Lemma call_server f q n :
  server (call f q n).1 = if applied f then default (server n) (serve q (server n)) else server n.
Proof. by destruct f. Qed.

Lemma call_revoke f l n :
  server (call f (RRevoke l) n).1 = attempt (revoke l (server n)) (negb (applied f)) (server n).
Proof. rewrite call_server. by destruct f. Qed.

Lemma call_ok f q n n' :
  call f q n = (n', true) → ∃ s, serve q (server n) = Some s ∧ server n' = s.
Proof.
  unfold call. destruct f; [| done..]. intros [= <- [s Hs]%bool_decide_eq_true]. exists s. by rewrite Hs.
Qed.

Lemma serve_ever q s l : ever s l = true → ever (default s (serve q s)) l = true.
Proof.
  intros He. destruct q as [| k v l' | k | l']; simpl.
  - by rewrite grant_ever, He, orb_true_r.
  - destruct (put k v l' s) eqn:Hp; [| done]. simpl. by rewrite (put_ever _ _ _ _ _ _ Hp).
  - by rewrite del_ever.
  - destruct (revoke l' s) eqn:Hr; [| done]. simpl. by rewrite (revoke_ever _ _ _ _ Hr).
Qed.

Lemma call_ever f q n l : ever (server n) l = true → ever (server (call f q n).1) l = true.
Proof. rewrite call_server. destruct (applied f); [apply serve_ever | done]. Qed.

Lemma grant_dead s : alive s (grant s).1 = false.
Proof.
  pose proof (grant_lease s) as [_ He]. destruct (alive s (grant s).1) eqn:Ha; [| done].
  apply alive_ever in Ha. congruence.
Qed.

Lemma grant_there r s : lease_granted r s → endpoint_there r s → endpoint_there r (grant s).2.
Proof.
  intros Hg Ht Hne. pose proof (grant_lease s) as [_ Hnew].
  rewrite grant_alive, grant_get, bool_decide_false; [by apply Ht |]. intros Hl. rewrite <- Hl, Hg in Hnew; done.
Qed.

(** A request that leaves the key alone leaves the endpoint. *)
Lemma serve_there q r s :
  lease_granted r s → leaves_key q (serviceKey r) = true →
  endpoint_there r s → endpoint_there r (default s (serve q s)).
Proof.
  intros Hg Hq Ht. destruct q as [| k v l | k | l]; simpl in *.
  - by apply grant_there.
  - apply negb_true_iff, bool_decide_eq_false in Hq. destruct (put k v l s) eqn:Hp; [| done]. intros Hne.
    simpl. rewrite (put_alive _ _ _ _ _ _ Hp), (put_get _ _ _ _ _ _ Hp), decide_False by done. by apply Ht.
  - apply negb_true_iff, bool_decide_eq_false in Hq. intros Hne.
    rewrite del_alive, del_get, decide_False by done. by apply Ht.
  - by apply (revoke_there l false).
Qed.

Lemma call_there f q r n :
  lease_granted r (server n) → applied f = false ∨ leaves_key q (serviceKey r) = true →
  endpoint_there r (server n) → endpoint_there r (server (call f q n).1).
Proof.
  intros Hg Hq Ht. rewrite call_server. destruct (applied f); [| done]. destruct Hq; [done |].
  by apply serve_there.
Qed.

Lemma registerLocked_ok f sv h p r n r' n' :
  registerLocked f sv h p r n = (r', n', true) →
  let addr := JoinHostPort h (Itoa p) in
  r' = MkRegistrar (rootDirectory r) (service_key (rootDirectory r) sv addr) (leaseID r') addr
         (keepAlive r) sv h p ∧
  0 < leaseID r' ∧ ever (server n) (leaseID r') = false ∧ alive (server n') (leaseID r') = true ∧
  get (server n') (serviceKey r') = Some (Marshal addr, leaseID r') ∧
  ∀ l, l ≠ leaseID r' → alive (server n') l = alive (server n) l.
Proof.
  unfold registerLocked. destruct (negb _); [done |].
  pose proof (grant_lease (server n)) as [Hpos Hnew]. pose proof (grant_alive (server n)) as Ha.
  destruct (grant (server n)) as [l s1]. simpl in *.
  destruct (call _ _ _) as [n1 [|]] eqn:Hcall; [| done]. apply call_ok in Hcall as (s2 & Hput & Hs2).
  simpl in Hput. intros [= <- <-]. simpl. rewrite Hs2. split_and!; try done.
  - rewrite (put_alive _ _ _ _ _ _ Hput), Ha. by rewrite bool_decide_true.
  - rewrite (put_get _ _ _ _ _ _ Hput). by rewrite decide_True.
  - intros l' Hl'. rewrite (put_alive _ _ _ _ _ _ Hput), Ha. by rewrite bool_decide_false.
Qed.

(** A registration that fails changes nothing in the registrar, and nothing of its
    endpoint unless the put was applied all the same. *)
Lemma registerLocked_failed f sv h p r n r' n' :
  registerLocked f sv h p r n = (r', n', false) → lease_granted r (server n) →
  r' = r ∧ lease_granted r (server n') ∧
  (putF f ≠ Unheard → endpoint_there r (server n) → endpoint_there r (server n')).
Proof.
  unfold registerLocked. intros Hr Hg.
  destruct (negb _).
  { injection Hr as <- <-. split; [done |]. split.
    - intros Hne. by apply call_ever, Hg.
    - intros _. apply call_there; [done | by right]. }
  pose proof (grant_lease (server n)) as [_ Hnew]. pose proof (grant_there r (server n) Hg) as Hgt.
  pose proof (grant_ever (server n)) as He. pose proof (grant_alive (server n)) as Ha.
  destruct (grant (server n)) as [l s1]. simpl in *.
  assert (Hg1 : lease_granted r s1) by (intros Hne; by rewrite He, (Hg Hne), orb_true_r).
  set (key := service_key _ _ _) in Hr. set (q := RPut key _ l) in Hr.
  assert (Hput : putF f ≠ Unheard → ∀ n1, call (putF f) q (set_server s1 n) = (n1, false) → server n1 = s1).
  { unfold call. intros Hf n1. destruct (putF f); [| by intros [= <-] | done | by intros [= <-]].
    intros [= _ Hno]. apply bool_decide_eq_false in Hno. destruct Hno. apply put_ok. right.
    rewrite Ha. by rewrite bool_decide_true. }
  pose proof (λ l', call_ever (putF f) q (set_server s1 n) l') as Hev.
  destruct (call (putF f) q _) as [n1 [|]]; [done |]. injection Hr as <- <-. split; [done |].
  assert (Hg2 : lease_granted r (server n1)) by (intros Hne; by apply Hev, Hg1). split.
  - intros Hne. by apply call_ever, Hg2.
  - intros Hf Ht. apply call_there; [done | by right |]. rewrite (Hput Hf n1 eq_refl). by apply Hgt.
Qed.

Lemma ok_there r s : alive s (leaseID r) = true → get s (serviceKey r) = Some (Marshal (selfTarget r), leaseID r) →
  lease_granted r s ∧ endpoint_there r s.
Proof. intros Ha Hg. split; [intros _; by apply alive_ever | by intros _]. Qed.

Lemma registerLocked_there f sv h p r n r' n' :
  registerLocked f sv h p r n = (r', n', true) →
  lease_granted r' (server n') ∧ endpoint_there r' (server n').
Proof.
  intros (Hr & _ & _ & Ha & Hg & _)%registerLocked_ok. apply ok_there; [done |].
  rewrite Hg. do 2 f_equal. by rewrite Hr.
Qed.

Lemma Register_there f sv h p r n r' n' ok :
  Register f sv h p r n = (r', n', ok) → lease_granted r' (server n') ∧ endpoint_there r' (server n').
Proof.
  unfold Register.
  set (rn := if bool_decide (leaseID (set_keepAlive false r) = 0) then _ else _).
  assert (Hz : leaseID rn.1 = 0).
  { subst rn. case_bool_decide as Hz; done. }
  destruct rn as [r1 n1]. simpl in Hz.
  destruct (registerLocked _ _ _ _ _ _) as [[r2 n2] [|]] eqn:Hr; intros [= <- <- <-].
  - by apply registerLocked_there in Hr.
  - apply registerLocked_failed in Hr as (-> & Hg & _); [| by intros ?]. split; [done | by intros ?].
Qed.

Lemma reRegister_there f r n r' n' ok :
  reRegister f r n = (r', n', ok) → lease_granted r (server n) →
  lease_granted r' (server n') ∧
  (putF f ≠ Unheard → endpoint_there r (server n) → endpoint_there r' (server n')).
Proof.
  unfold reRegister. destruct (_ || _); [by intros [= <- <- <-] |].
  destruct (registerLocked _ _ _ _ _ _) as [[r1 n1] [|]] eqn:Hr; intros [= <- <- <-] Hg.
  - apply registerLocked_there in Hr as [Hg1 Ht1]. destruct (_ && _); [| done]. split.
    + intros Hne. by apply call_ever, Hg1.
    + intros _ _. apply call_there; [done | by right | done].
  - apply registerLocked_failed in Hr as (-> & ? & ?); done.
Qed.

Lemma unregister_there f u u' r n n' :
  unregister_step f u n = (u', n') → lease_granted r (server n) →
  lease_granted r (server n') ∧
  ((∀ k l, u = UDelete k l → applied f = true → k ≠ serviceKey r) →
   endpoint_there r (server n) → endpoint_there r (server n')).
Proof.
  unfold unregister_step. intros Hu Hg.
  assert (Hq : ∀ q, lease_granted r (server (call f q n).1)) by (intros q Hne; by apply call_ever, Hg).
  destruct u as [k l | l | ok].
  - specialize (Hq (RDelete k)). pose proof (call_there f (RDelete k) r n Hg) as Ht.
    destruct (call f (RDelete k) n) as [n1 [|]]; injection Hu as <- <-; (split; [done |]);
      intros Hk; (apply Ht; destruct (applied f); [right | by left]);
      simpl; rewrite bool_decide_false; naive_solver.
  - injection Hu as <- <-. split; [apply Hq |]. intros _. apply call_there; [done | by right].
  - by injection Hu as <- <-.
Qed.

Lemma reg_exec_there o w :
  lease_granted (reg w) (server (net w)) →
  let w' := reg_exec o w in
  lease_granted (reg w') (server (net w')) ∧
  (calm o w = true → endpoint_there (reg w) (server (net w)) → endpoint_there (reg w') (server (net w'))).
Proof.
  destruct w as [r n us]. intros Hg. simpl in Hg.
  destruct o as [f sv h p | f | | i f | i | l]; cbn [reg_exec calm reg net unregs].
  - destruct (Register _ _ _ _ _ _) as [[r1 n1] ok] eqn:Hr. by apply Register_there in Hr as [? ?].
  - destruct (keepAlive r); [| done].
    destruct (reRegister _ _ _) as [[r1 n1] ok] eqn:Hr. apply reRegister_there in Hr as [? Ht]; [| done].
    split; [done |]. intros Hf%negb_true_iff%bool_decide_eq_false. by apply Ht.
  - split; [by intros ? | by intros _ _ ?].
  - destruct (us !! i) as [u|]; [| done].
    destruct (unregister_step f u n) as [u' n'] eqn:Hu. apply unregister_there with (r := r) in Hu as [? Ht]; [| done].
    split; [done |]. intros Hc. apply Ht. intros k l -> Hf. rewrite Hf in Hc. simpl in Hc.
    by apply negb_true_iff, bool_decide_eq_false in Hc.
  - destruct (late n !! i) as [q|]; [| done]. simpl. split; [intros Hne; by apply serve_ever, Hg |].
    intros Hq. by apply serve_there.
  - simpl. split; [intros Hne; apply (serve_ever (RRevoke l)); by apply Hg |].
    intros _. by apply (revoke_there l false).
Qed.

Lemma reg_run_granted os w :
  lease_granted (reg w) (server (net w)) → lease_granted (reg (reg_run os w)) (server (net (reg_run os w))).
Proof.
  unfold reg_run. revert w. induction os as [|o os IH]; intros w Hg; [done |].
  cbn [fold_left]. by apply IH, reg_exec_there.
Qed.

Lemma reg_run_there os w :
  lease_granted (reg w) (server (net w)) → calm_run os w = true →
  endpoint_there (reg w) (server (net w)) → endpoint_there (reg (reg_run os w)) (server (net (reg_run os w))).
Proof.
  unfold reg_run. revert w. induction os as [|o os IH]; intros w Hg Hc Ht; [done |].
  cbn [calm_run fold_left] in *. apply andb_true_iff in Hc as [Ho Hc].
  destruct (reg_exec_there o w Hg) as [Hg1 Ht1]. by apply IH, Ht1.
Qed.

Lemma revoked_dead l s : alive (attempt (revoke l s) false s) l = false.
Proof.
  unfold attempt. destruct (revoke l s) as [s'|] eqn:Hr; simpl.
  - rewrite (revoke_alive _ _ _ _ Hr). by rewrite bool_decide_true.
  - destruct (alive s l) eqn:Ha; [| done]. apply revoke_ok in Ha as [? ?]. congruence.
Qed.

Lemma call_revoke_dead f l n : applied f = true → alive (server (call f (RRevoke l) n).1) l = false.
Proof. intros Hf. rewrite call_revoke, Hf. apply revoked_dead. Qed.

Lemma IsSelfNode_own h p r : selfTarget r = JoinHostPort h p → IsSelfNode (Some (JoinHostPort h p)) r = true.
Proof.
  intros Hr. unfold IsSelfNode. rewrite Hr, bool_decide_false; [by rewrite bool_decide_true |].
  unfold JoinHostPort. destruct (has_byte ":" h); [discriminate | destruct h; discriminate].
Qed.

Lemma Register_ok f sv h p r n r' n' :
  Register f sv h p r n = (r', n', true) → lease_granted r (server n) →
  let addr := JoinHostPort h (Itoa p) in
  alive (server n') (leaseID r') = true ∧ IsSelfNode (Some addr) r' = true ∧
  serviceKey r' = service_key (rootDirectory r) sv addr ∧
  get (server n') (serviceKey r') = Some (Marshal addr, leaseID r') ∧
  (leaseID r ≠ 0 → applied (revokeF f) = true → alive (server n') (leaseID r) = false).
Proof.
  unfold Register. cbv zeta. intros Hreg Hg. revert Hreg.
  set (rn := if bool_decide (leaseID (set_keepAlive false r) = 0) then _ else _).
  assert (Hroot : rootDirectory rn.1 = rootDirectory r) by (subst rn; by case_bool_decide).
  assert (Hdead : leaseID r ≠ 0 → applied (revokeF f) = true →
                  alive (server rn.2) (leaseID r) = false ∧ ever (server rn.2) (leaseID r) = true).
  { intros Hne Hf. subst rn. rewrite bool_decide_false by done. simpl.
    split; [by apply call_revoke_dead | by apply call_ever, Hg]. }
  destruct rn as [r1 n1]. simpl in *.
  destruct (registerLocked _ _ _ _ _ _) as [[r2 n2] [|]] eqn:Hr; [| done]. intros [= <- <-].
  apply registerLocked_ok in Hr as (Hr2 & ? & Hnew & Hal & Hget & Hsame).
  assert (Hk : serviceKey r2 = service_key (rootDirectory r) sv (JoinHostPort h (Itoa p)))
    by by rewrite Hr2, <- Hroot.
  assert (Ht2 : selfTarget r2 = JoinHostPort h (Itoa p)) by by rewrite Hr2.
  clear Hr2. split_and!; [done | by apply IsSelfNode_own | done | done |].
  intros Hne Hf. destruct (Hdead Hne Hf) as [Hd He]. rewrite Hsame; [done | congruence].
Qed.

Lemma Register_failed f sv h p r n r' n' :
  Register f sv h p r n = (r', n', false) → leaseID r' = 0 ∧ selfTarget r' = selfTarget r.
Proof.
  unfold Register.
  set (rn := if bool_decide (leaseID (set_keepAlive false r) = 0) then _ else _).
  assert (Hz : leaseID rn.1 = 0 ∧ selfTarget rn.1 = selfTarget r) by (subst rn; by case_bool_decide).
  destruct rn as [r1 n1]. simpl in *.
  destruct (registerLocked _ _ _ _ _ _) as [[r2 n2] [|]] eqn:Hr; [done |]. intros [= <- <-].
  apply registerLocked_failed in Hr as [-> _]; [done |].
  intros Hne. by destruct Hz.
Qed.

Lemma reRegister_ok f r n r' n' :
  reRegister f r n = (r', n', true) → lease_granted r (server n) →
  alive (server n') (leaseID r') = true ∧
  serviceKey r' = service_key (rootDirectory r) (service r) (selfTarget r') ∧
  get (server n') (serviceKey r') = Some (Marshal (selfTarget r'), leaseID r') ∧
  (leaseID r ≠ 0 → applied (revokeF f) = true → alive (server n') (leaseID r) = false).
Proof.
  unfold reRegister. intros Hreg Hold. revert Hreg. destruct (_ || _); [done |].
  destruct (registerLocked _ _ _ _ _ _) as [[r1 n1] [|]] eqn:Hr; [| done].
  apply registerLocked_ok in Hr as (Hr1 & Hpos & Hnew & Hal & Hg & Hsame). intros [= <- <-].
  assert (Hne' : leaseID r ≠ 0 → leaseID r ≠ leaseID r1).
  { intros Hne Heq. rewrite <- Heq, Hold in Hnew; done. }
  assert (serviceKey r1 = service_key (rootDirectory r) (service r) (selfTarget r1) ∧
          selfTarget r1 = JoinHostPort (host r) (Itoa (port r))) as [Hk Ht1] by by rewrite Hr1.
  rewrite <- Ht1 in Hg. clear Hr1.
  destruct (decide (leaseID r = 0)) as [Hz | Hz].
  { rewrite bool_decide_true by done. by split_and!. }
  rewrite !bool_decide_false by auto. cbn [negb andb]. split_and!; [| done | |].
  - rewrite call_revoke. unfold attempt. destruct (negb _); [done |].
    destruct (revoke (leaseID r) _) as [s2|] eqn:Hrv; [| done]. simpl.
    rewrite (revoke_alive _ _ _ _ Hrv), bool_decide_false by (symmetry; auto). done.
  - rewrite call_revoke. apply attempt_revoke_get; [| done]. symmetry. by apply Hne'.
  - intros _. apply call_revoke_dead.
Qed.

(** An unregistration whose calls are applied, run to its end. *)
Lemma UnRegister_ok w f :
  applied f = true → serviceKey (reg w) ≠ "" →
  let j := length (unregs w) in
  let w' := reg_run [OpUnRegister; OpUnRegisterStep j Fine; OpUnRegisterStep j f] w in
  unregs w' !! j = Some (UReturned true) ∧ reg w' = newRegistrar (rootDirectory (reg w)) ∧
  get (server (net w')) (serviceKey (reg w)) = None ∧
  (leaseID (reg w) ≠ 0 → alive (server (net w')) (leaseID (reg w)) = false).
Proof.
  destruct w as [r n us]. intros Hf Hk. cbn [reg unregs net] in *. unfold reg_run. cbn [fold_left].
  cbn [reg_exec UnRegister]. unfold UnRegister. rewrite (bool_decide_false (serviceKey r = "")) by done.
  rewrite lookup_app_r, Nat.sub_diag by lia. cbn [lookup list_lookup unregister_step call serve].
  rewrite bool_decide_true by done.
  cbn [reg_exec]. rewrite list_lookup_insert_eq by (rewrite length_app; simpl; lia).
  assert (Hd : get (del (serviceKey r) (server n)) (serviceKey r) = None) by (rewrite del_get; by rewrite decide_True).
  case_bool_decide as Hl; cbn [unregister_step fst snd reg net unregs server set_server default].
  all: rewrite list_lookup_insert_eq by (rewrite length_insert, length_app; simpl; lia).
  - by split_and!.
  - split_and!; [done.. | | intros _; by apply call_revoke_dead].
    rewrite call_revoke, Hf. unfold attempt. simpl. destruct (revoke _ _) as [s'|] eqn:Hr; [| done]. simpl.
    by rewrite (revoke_get _ _ _ _ Hr), Hd.
Qed.

(** C35. The registrar, however its registrations, re-registrations and the steps of
    unregistrations that have released the lock interleave, with calls refused, calls
    applied though they failed, requests that arrive late, and leases that expire.  A
    registration that succeeds leaves the endpoint under a new lease that is alive, and
    the old lease dead if its revocation was applied; so does a re-registration; a
    registration that fails leaves no lease, but still the target of the one before; an
    unregistration that is not interrupted and whose calls are applied removes the
    endpoint and the lease.  And from whatever state the endpoint is there in, it is there
    as long as the lease the registrar holds is alive, if no unregistration still running
    and no late request deletes or puts the same key, and no re-registration is told that a
    put failed that was applied: [unregister_race] and [unheard_reregistration] show that
    it is lost otherwise. *)
Theorem registrar_sound root os s0 :
  let w := reg_run os (registry_init root s0) in
  let r := reg w in
  (∀ f sv h p, let '(r', n, ok) := Register f sv h p r (net w) in
    let addr := JoinHostPort h (Itoa p) in
    if ok then alive (server n) (leaseID r') = true ∧ IsSelfNode (Some addr) r' = true ∧
      serviceKey r' = service_key (rootDirectory r) sv addr ∧
      get (server n) (serviceKey r') = Some (Marshal addr, leaseID r') ∧
      (leaseID r ≠ 0 → applied (revokeF f) = true → alive (server n) (leaseID r) = false)
    else leaseID r' = 0 ∧ selfTarget r' = selfTarget r) ∧
  (∀ f r' n, reRegister f r (net w) = (r', n, true) →
    alive (server n) (leaseID r') = true ∧
    serviceKey r' = service_key (rootDirectory r) (service r) (selfTarget r') ∧
    get (server n) (serviceKey r') = Some (Marshal (selfTarget r'), leaseID r') ∧
    (leaseID r ≠ 0 → applied (revokeF f) = true → alive (server n) (leaseID r) = false)) ∧
  (∀ f, applied f = true → serviceKey r ≠ "" →
    let j := length (unregs w) in
    let w' := reg_run [OpUnRegister; OpUnRegisterStep j Fine; OpUnRegisterStep j f] w in
    unregs w' !! j = Some (UReturned true) ∧ reg w' = newRegistrar (rootDirectory r) ∧
    get (server (net w')) (serviceKey r) = None ∧
    (leaseID r ≠ 0 → alive (server (net w')) (leaseID r) = false)) ∧
  (∀ os', calm_run os' w = true → endpoint_there r (server (net w)) →
    let w' := reg_run os' w in endpoint_there (reg w') (server (net w'))).
Proof.
  intros w r. assert (Hg : lease_granted r (server (net w))).
  { apply reg_run_granted. by intros ?. }
  split_and!.
  - intros f sv h p. destruct (Register f sv h p r (net w)) as [[r' n] [|]] eqn:Hr.
    + by apply Register_ok in Hr.
    + by apply Register_failed in Hr.
  - intros f r' n Hr. by apply reRegister_ok in Hr.
  - intros f. apply UnRegister_ok.
  - intros os'. by apply reg_run_there.
Qed.
End registrar.

(** A registered endpoint is read back: whatever decoding makes of the value, the
    address itself or nothing, the watcher finds in the registrar's key and value the
    address that was registered, for a host without brackets or slashes and a port in
    range. *)
Theorem registered_address {Meta} (Unmarshal : string → option (@Address Meta)) root sv h p value :
  h ≠ "" → has_byte "[" h = false → has_byte "]" h = false → has_byte "/" h = false → 0 < p ≤ 65535 →
  let addr := JoinHostPort h (Itoa p) in
  (Unmarshal value = Some (MkAddress addr None) ∨ Unmarshal value = None) →
  address_of Unmarshal (service_key root sv addr) value = Some (MkAddress addr None).
Proof.
  intros Hne Hl Hr Hs Hp addr Hu. unfold address_of.
  assert (Hv : IsValidHostPort addr = true) by by apply IsValidHostPort_Join.
  assert (Hslash : has_byte "/" addr = false).
  { assert (Hd : has_byte "/" (Itoa p) = false) by (apply Itoa_digits; [done | unfold two63; lia]).
    subst addr. unfold JoinHostPort. destruct (has_byte ":" h); rewrite !has_byte_app, Hs, Hd; done. }
  assert (Hlen : (0 < String.length addr)%nat).
  { subst addr. unfold JoinHostPort. destruct (has_byte ":" h); rewrite !string_length_app; simpl; lia. }
  assert (Hkey : LastIndexByte "/" (service_key root sv addr) = Some (String.length (root +:+ "/" +:+ sv))).
  { by apply LastIndexByte_app. }
  rewrite Hkey.
  assert (Hdrop : sdrop (S (String.length (root +:+ "/" +:+ sv))) (service_key root sv addr) = addr).
  { unfold service_key. by rewrite <- Nat.add_1_r, sdrop_add, sdrop_app. }
  rewrite Hdrop, Hv.
  assert (Hpos : Z.of_nat (String.length (root +:+ "/" +:+ sv)) <?
                 Z.of_nat (String.length (service_key root sv addr)) - 1 = true).
  { apply Z.ltb_lt. unfold service_key. rewrite (string_length_app (root +:+ "/" +:+ sv)). simpl. lia. }
  rewrite Hpos. simpl. destruct Hu as [-> | ->]; simpl; [by rewrite Hv | done].
Qed.

(** ** Keys with leases *)

(** Which calls of a leased key fail. *)
Record faults := MkFaults { grantFails : bool; putFails : bool; revokeFails : bool }.

Section hub.
Context `{E : !Etcd}.

(** A goroutine of [SetWithLease]: it keeps its lease alive, sleeps before a retry, asks
    for a lease, has one for the key, or is gone. *)
Inductive keep_pc := Keeping | Sleeping | Retrying | Putting (l : Z) | Gone.

Record kvKeepAlive := MkKeepAlive { key : string; val : string; lease : Z; cancelled : bool; kpc : keep_pc }.

(** A call of [stopKVKeepAlives]: the goroutines it waits for, then those whose lease it
    has revoked and those still to revoke. *)
Inductive stop_pc := StopWait (ks : list nat) | StopRevoke (revoked todo : list nat).

(** [keepers] are all the goroutines there have been; [keepAlives] is the hub's list. *)
Record kvHub := MkKvHub {
  dir : string;
  etcd : store;
  keepers : list kvKeepAlive;
  keepAlives : list nat;
  stops : list stop_pc
}.

Definition combineKeyWithPrefix (h : kvHub) (k : string) : string := dir h +:+ "/" +:+ k.

Definition set_etcd (s : store) (h : kvHub) : kvHub :=
  MkKvHub (dir h) s (keepers h) (keepAlives h) (stops h).
Definition set_keeper (i : nat) (k : kvKeepAlive) (s : store) (h : kvHub) : kvHub :=
  MkKvHub (dir h) s (<[i := k]> (keepers h)) (keepAlives h) (stops h).
Definition at_pc (pc : keep_pc) (k : kvKeepAlive) : kvKeepAlive :=
  MkKeepAlive (key k) (val k) (lease k) (cancelled k) pc.
Definition cancel (k : kvKeepAlive) : kvKeepAlive := MkKeepAlive (key k) (val k) (lease k) true (kpc k).

Definition SetKey (k v : string) (h : kvHub) : kvHub :=
  set_etcd (default (etcd h) (put (combineKeyWithPrefix h k) v 0 (etcd h))) h.
Definition GetKey (k : string) (h : kvHub) : option string := fst <$> get (etcd h) (combineKeyWithPrefix h k).
Definition DelData (k : string) (h : kvHub) : kvHub :=
  set_etcd (del (combineKeyWithPrefix h k) (etcd h)) h.

(** [setKeyWithLease]: the lease, or an error. *)
Definition setKeyWithLease (f : faults) (k v : string) (h : kvHub) : store * option Z :=
  if grantFails f then (etcd h, None)
  else
    let '(l, s) := grant (etcd h) in
    match (if putFails f then None else put (combineKeyWithPrefix h k) v l s) with
    | None => (attempt (revoke l s) (revokeFails f) s, None)
    | Some s => (s, Some l)
    end.

(** [SetWithLease], whose goroutine is not yet in the hub's list. *)
Definition SetWithLease (f : faults) (k v : string) (h : kvHub) : kvHub :=
  match setKeyWithLease f k v h with
  | (s, None) => set_etcd s h
  | (s, Some l) => MkKvHub (dir h) s (keepers h ++ [MkKeepAlive k v l false Keeping]) (keepAlives h) (stops h)
  end.

Inductive hub_op :=
| OpSetKey (k v : string)
| OpDelData (k : string)
| OpSetWithLease (f : faults) (k v : string)
| OpEnlist (i : nat)
| OpStreamEnds (i : nat)
| OpWake (i : nat) (timer : bool)
| OpGrant (i : nat) (fails : bool)
| OpPut (i : nat) (f : faults)
| OpStop
| OpStopStep (j : nat) (fails : bool)
| OpLeaseExpires (l : Z).

Definition keep_step (o : hub_op) (k : kvKeepAlive) (h : kvHub) : option (kvKeepAlive * store) :=
  let s := etcd h in
  match o, kpc k with
  | OpStreamEnds _, Keeping => Some (at_pc (if cancelled k then Gone else Sleeping) k, s)
  | OpWake _ true, Sleeping => Some (at_pc Retrying k, s)
  | OpWake _ false, Sleeping => if cancelled k then Some (at_pc Gone k, s) else None
  | OpGrant _ true, Retrying => Some (at_pc Keeping k, s)
  | OpGrant _ false, Retrying => let '(l, s) := grant s in Some (at_pc (Putting l) k, s)
  | OpPut _ f, Putting l =>
      Some (match (if putFails f then None else put (combineKeyWithPrefix h (key k)) (val k) l s) with
            | None => (at_pc Keeping k, attempt (revoke l s) (revokeFails f) s)
            | Some s => (MkKeepAlive (key k) (val k) l (cancelled k) Keeping, s)
            end)
  | _, _ => None
  end.

Definition gone (h : kvHub) (i : nat) : bool :=
  match keepers h !! i with Some k => match kpc k with Gone => true | _ => false end | None => false end.

Definition stop_step (fails : bool) (p : stop_pc) (h : kvHub) : option (stop_pc * store) :=
  match p with
  | StopWait ks => if forallb (gone h) ks then Some (StopRevoke [] ks, etcd h) else None
  | StopRevoke revoked (i :: todo) =>
      match keepers h !! i with
      | None => None
      | Some k => if fails then Some (StopRevoke revoked todo, etcd h)
                  else Some (StopRevoke (i :: revoked) todo, attempt (revoke (lease k) (etcd h)) false (etcd h))
      end
  | StopRevoke _ [] => None
  end.

Definition hub_exec (o : hub_op) (h : kvHub) : option kvHub :=
  match o with
  | OpSetKey k v => Some (SetKey k v h)
  | OpDelData k => Some (DelData k h)
  | OpSetWithLease f k v => Some (SetWithLease f k v h)
  | OpEnlist i => Some (MkKvHub (dir h) (etcd h) (keepers h) (keepAlives h ++ [i]) (stops h))
  | OpStreamEnds i | OpWake i _ | OpGrant i _ | OpPut i _ =>
      k ← keepers h !! i;
      '(k, s) ← keep_step o k h;
      Some (set_keeper i k s h)
  | OpStop =>
      Some (MkKvHub (dir h) (etcd h) (foldr (λ i ks, alter cancel i ks) (keepers h) (keepAlives h)) []
              (stops h ++ [StopWait (keepAlives h)]))
  | OpStopStep j fails =>
      p ← stops h !! j;
      '(p, s) ← stop_step fails p h;
      Some (MkKvHub (dir h) s (keepers h) (keepAlives h) (<[j := p]> (stops h)))
  | OpLeaseExpires l => Some (set_etcd (default (etcd h) (revoke l (etcd h))) h)
  end.

Definition hub_run (os : list hub_op) (h : kvHub) : option kvHub :=
  fold_left (λ h o, h ≫= hub_exec o) os (Some h).

Definition hub_init (root : string) (s : store) : kvHub := MkKvHub root s [] [] [].
(** ** Lemmas on the hub *)

Context `{!EtcdLaws}.

(** Who holds a leased key. *)
Definition holds (h : kvHub) (i : nat) (k v : string) (l : Z) : Prop :=
  ∃ kp, keepers h !! i = Some kp ∧ combineKeyWithPrefix h (key kp) = k ∧ val kp = v ∧ lease kp = l.

Record hub_inv (h : kvHub) : Prop := {
  hi_held : ∀ k v l, get (etcd h) k = Some (v, l) → l ≠ 0 →
            alive (etcd h) l = true ∧ ∃ i, holds h i k v l;
  hi_ever : ∀ i kp, keepers h !! i = Some kp →
            ever (etcd h) (lease kp) = true ∧ 0 < lease kp ∧
            ∀ l, kpc kp = Putting l → 0 < l;
  hi_stops : ∀ j revoked todo, stops h !! j = Some (StopRevoke revoked todo) →
             (∀ i, i ∈ todo → gone h i = true) ∧
             ∀ i, i ∈ revoked → gone h i = true ∧
                  ∀ kp, keepers h !! i = Some kp → alive (etcd h) (lease kp) = false
}.

(** What a change of the store must preserve: the leased keys that remain are ones that
    were there, and no lease that was granted comes back. *)
Record store_shrinks (s s' : store) : Prop := {
  ss_get : ∀ k v l, get s' k = Some (v, l) → l ≠ 0 → get s k = Some (v, l) ∧ (alive s l = true → alive s' l = true);
  ss_ever : ∀ l, ever s l = true → ever s' l = true;
  ss_alive : ∀ l, ever s l = true → alive s' l = true → alive s l = true
}.

Lemma shrinks_refl s : store_shrinks s s.
Proof. by split. Qed.

Lemma shrinks_trans s1 s2 s3 : store_shrinks s1 s2 → store_shrinks s2 s3 → store_shrinks s1 s3.
Proof.
  intros [Hg1 He1 Ha1] [Hg2 He2 Ha2]. split; [| by auto | by auto].
  intros k v l Hk Hl. destruct (Hg2 k v l Hk Hl) as [Hk2 ?]. destruct (Hg1 k v l Hk2 Hl). auto.
Qed.

Lemma revoke_shrinks l b s : store_shrinks s (attempt (revoke l s) b s).
Proof.
  split.
  - intros k v l'. unfold attempt. destruct b; [done |].
    destruct (revoke l s) as [s'|] eqn:Hr; [| done]. simpl.
    rewrite (revoke_get _ _ _ _ Hr), (revoke_alive _ _ _ _ Hr).
    destruct (get s k) as [[v' l'']|]; [| done]. case_decide as Hl; [done |].
    intros [= -> ->] _. by rewrite bool_decide_false.
  - intros l'. by rewrite attempt_revoke_ever.
  - intros l' _. apply attempt_revoke_alive.
Qed.

Lemma grant_shrinks s : store_shrinks s (grant s).2.
Proof.
  pose proof (grant_lease s) as [_ Hnew]. split.
  - intros k v l. rewrite grant_get, grant_alive. intros -> _. split; [done |]. intros ->. by rewrite orb_true_r.
  - intros l Hl. by rewrite grant_ever, Hl, orb_true_r.
  - intros l Hl. rewrite grant_alive, bool_decide_false by congruence. done.
Qed.

Lemma put0_shrinks k v s : store_shrinks s (default s (put k v 0 s)).
Proof.
  destruct (put k v 0 s) as [s'|] eqn:Hp; [| by apply shrinks_refl]. simpl. split.
  - intros k' v' l. rewrite (put_get _ _ _ _ _ _ Hp), (put_alive _ _ _ _ _ _ Hp). case_decide; [| done].
    by intros [= <- <-].
  - intros l. by rewrite (put_ever _ _ _ _ _ _ Hp).
  - intros l _. by rewrite (put_alive _ _ _ _ _ _ Hp).
Qed.

Lemma del_shrinks k s : store_shrinks s (del k s).
Proof.
  split; [intros k' v l | intros l | intros l _]; rewrite ?del_get, ?del_ever, ?del_alive; [| done..].
  by case_decide.
Qed.

(** The store shrinks while the goroutines stay as they are, but for being cancelled or
    moving among the states in which they hold no new lease. *)
Definition same_holders (h h' : kvHub) : Prop :=
  dir h' = dir h ∧ ∀ i, match keepers h !! i, keepers h' !! i with
  | Some k, Some k' => key k' = key k ∧ val k' = val k ∧ lease k' = lease k ∧
                       (kpc k = Gone → kpc k' = Gone) ∧ (∀ l, kpc k' = Putting l → 0 < l ∨ kpc k = Putting l)
  | None, None => True
  | _, _ => False
  end.

Lemma same_holders_refl h h' : dir h' = dir h → keepers h' = keepers h → same_holders h h'.
Proof. intros Hd Hk. split; [done |]. intros i. rewrite Hk. destruct (keepers h !! i); by auto 10. Qed.

Lemma hub_inv_shrinks h h' :
  same_holders h h' → store_shrinks (etcd h) (etcd h') →
  (∀ j revoked todo, stops h' !! j = Some (StopRevoke revoked todo) →
    stops h !! j = Some (StopRevoke revoked todo)) →
  hub_inv h → hub_inv h'.
Proof.
  intros [Hdir Hk] [Hg He Ha] Hstop [Hheld Hever Hst].
  assert (Hgone : ∀ i, gone h i = true → gone h' i = true).
  { intros i. unfold gone. specialize (Hk i). destruct (keepers h !! i) as [k|]; [| done].
    destruct (keepers h' !! i) as [k'|]; [| done]. destruct Hk as (_ & _ & _ & Hg' & _).
    destruct (kpc k); try done. by rewrite (Hg' eq_refl). }
  split.
  - intros k v l Hkv Hl. destruct (Hg k v l Hkv Hl) as [Hold Hal].
    destruct (Hheld k v l Hold Hl) as (Hlive & i & kp & Hi & Hkey & Hval & Hle). split; [by apply Hal |].
    specialize (Hk i). rewrite Hi in Hk. exists i. unfold holds, combineKeyWithPrefix in *. rewrite Hdir.
    destruct (keepers h' !! i) as [k'|]; [| done].
    destruct Hk as (Hk1 & Hk2 & Hk3 & _). exists k'. by rewrite Hk1, Hk2, Hk3.
  - intros i kp' Hi. specialize (Hk i). rewrite Hi in Hk.
    destruct (keepers h !! i) as [kp|] eqn:Hi'; [| done]. destruct Hk as (_ & _ & -> & _ & Hput).
    destruct (Hever i kp Hi') as (? & ? & Hpl). split_and!; [by auto | done |].
    intros l Hl. destruct (Hput l Hl); eauto.
  - intros j revoked todo Hj%Hstop. destruct (Hst j revoked todo Hj) as [Htodo Hrev]. split; [by auto |].
    intros i Hi. destruct (Hrev i Hi) as [Hgi Hdead]. split; [by auto |].
    intros kp' Hkp'. specialize (Hk i). rewrite Hkp' in Hk.
    destruct (keepers h !! i) as [kp|] eqn:Hi'; [| done]. destruct Hk as (_ & _ & -> & _).
    destruct (Hever i kp Hi') as (Hev & _). specialize (Hdead kp eq_refl).
    destruct (alive (etcd h') (lease kp)) eqn:Hl; [| done]. apply Ha in Hl; congruence.
Qed.

Lemma set_etcd_inv h s : store_shrinks (etcd h) s → hub_inv h → hub_inv (set_etcd s h).
Proof. intros Hs. apply hub_inv_shrinks; [by apply same_holders_refl | done..]. Qed.

Lemma set_keeper_inv h i k k' s :
  keepers h !! i = Some k → key k' = key k → val k' = val k → lease k' = lease k →
  (kpc k = Gone → kpc k' = Gone) → (∀ l, kpc k' = Putting l → 0 < l) →
  store_shrinks (etcd h) s → hub_inv h → hub_inv (set_keeper i k' s h).
Proof.
  intros Hi Hk Hv Hl Hg Hp Hs. apply hub_inv_shrinks; [| done..].
  split; [done |]. intros j. simpl. destruct (decide (i = j)) as [<- | Hij].
  - rewrite Hi, list_lookup_insert_eq by (by eapply lookup_lt_Some). split_and!; auto.
  - rewrite list_lookup_insert_ne by done. destruct (keepers h !! j); by auto 10.
Qed.

(** A key put under a lease just granted, by the goroutine [i], new or not. *)
Lemma put_lease_inv h s l i k v c ks :
  hub_inv h → store_shrinks (etcd h) s → 0 < l → ever s l = true →
  put (combineKeyWithPrefix h k) v l s = Some (etcd ks) →
  dir ks = dir h → stops ks = stops h →
  keepers ks !! i = Some (MkKeepAlive k v l c Keeping) →
  (∀ j, j ≠ i → keepers ks !! j = keepers h !! j) →
  (∀ kp, keepers h !! i = Some kp → key kp = k ∧ kpc kp ≠ Gone) →
  hub_inv ks.
Proof.
  intros [Hheld Hever Hst] [Hg He Ha] Hpos Hevl Hput Hdir Hstops Hi Hj Hold.
  assert (Halive : alive s l = true).
  { destruct (put_ok (combineKeyWithPrefix h k) v l s) as [Hok _]. destruct Hok; [by eexists | lia | done]. }
  assert (Hgone : ∀ j, gone h j = true → gone ks j = true).
  { intros j. destruct (decide (j = i)) as [-> | Hne]; unfold gone; [| by rewrite Hj].
    destruct (keepers h !! i) as [kp|] eqn:Hkp; [| done]. destruct (Hold kp eq_refl) as [_ Hng].
    by destruct (kpc kp). }
  split.
  - intros k' v' l'. rewrite (put_get _ _ _ _ _ _ Hput), (put_alive _ _ _ _ _ _ Hput).
    case_decide as Hk'.
    + intros [= <- <-] _. split; [done |]. exists i, (MkKeepAlive k v l c Keeping).
      unfold combineKeyWithPrefix in *. by rewrite Hdir.
    + intros Hs Hl'. destruct (Hg k' v' l' Hs Hl') as [Hold' Hal].
      destruct (Hheld k' v' l' Hold' Hl') as (Hlive & j & kp & Hkp & Hkey & Hval & Hle).
      split; [by auto |]. exists j, kp. rewrite Hj.
      * unfold combineKeyWithPrefix in *. by rewrite Hdir.
      * intros ->. destruct (Hold kp Hkp) as [<- _]. by rewrite Hkey in Hk'.
  - intros j kp Hkp. rewrite (put_ever _ _ _ _ _ _ Hput). destruct (decide (j = i)) as [-> | Hne].
    + rewrite Hi in Hkp. injection Hkp as <-. by split_and!.
    + rewrite Hj in Hkp by done. destruct (Hever j kp Hkp) as (? & ? & ?). split_and!; [by auto | done..].
  - intros j revoked todo. rewrite Hstops. intros Hjs. destruct (Hst j revoked todo Hjs) as [Htodo Hrev].
    split; [by auto |]. intros j' Hj'. destruct (Hrev j' Hj') as [Hgj Hdead]. split; [by auto |].
    intros kp Hkp. rewrite (put_alive _ _ _ _ _ _ Hput). destruct (decide (j' = i)) as [-> | Hne].
    + exfalso. unfold gone in Hgj. destruct (keepers h !! i) as [kp'|] eqn:Hkp'; [| done].
      destruct (Hold kp' eq_refl) as [_ Hng]. by destruct (kpc kp').
    + rewrite Hj in Hkp by done. specialize (Hdead kp Hkp). destruct (Hever j' kp Hkp) as (Hev & _).
      destruct (alive s (lease kp)) eqn:Hl; [| done]. apply Ha in Hl; congruence.
Qed.

Lemma SetWithLease_inv f k v h : hub_inv h → hub_inv (SetWithLease f k v h).
Proof.
  intros Hinv. unfold SetWithLease, setKeyWithLease.
  destruct (grantFails f); [by apply set_etcd_inv; [apply shrinks_refl |] |].
  pose proof (grant_shrinks (etcd h)) as Hs. pose proof (grant_lease (etcd h)) as [Hpos _].
  pose proof (grant_ever (etcd h)) as He. destruct (grant (etcd h)) as [l s]. simpl in *.
  assert (Hfail : hub_inv (set_etcd (attempt (revoke l s) (revokeFails f) s) h)).
  { apply set_etcd_inv; [| done]. eapply shrinks_trans; [done | apply revoke_shrinks]. }
  destruct (putFails f); [done |].
  destruct (put (combineKeyWithPrefix h k) v l s) as [s'|] eqn:Hp; [| done].
  eapply (put_lease_inv h s l (length (keepers h)) k v false); simpl; try done.
  - rewrite He. by rewrite bool_decide_true.
  - rewrite lookup_app_r by lia. by rewrite Nat.sub_diag.
  - intros j Hj. destruct (decide (j < length (keepers h))%nat); [by rewrite lookup_app_l |].
    rewrite !lookup_ge_None_2; [done | lia | rewrite length_app; simpl; lia].
  - intros kp. rewrite lookup_ge_None_2 by lia. done.
Qed.

Ltac quick := try done; try congruence; try apply shrinks_refl; try apply revoke_shrinks.

Lemma keep_step_inv o i k k' s h :
  keepers h !! i = Some k → keep_step o k h = Some (k', s) → hub_inv h → hub_inv (set_keeper i k' s h).
Proof.
  intros Hi Hstep Hinv. pose proof Hinv as [_ Hever _]. destruct (Hever i k Hi) as (_ & _ & Hpl).
  unfold keep_step in Hstep.
  destruct o as [| | | | j | j [|] | j [|] | j f | | |]; try done; destruct (kpc k) as [| | | l |] eqn:Hpc; try done.
  - injection Hstep as <- <-. apply (set_keeper_inv h i k); simpl; quick. intros l. by destruct (cancelled k).
  - injection Hstep as <- <-. apply (set_keeper_inv h i k); simpl; quick.
  - destruct (cancelled k); [| done]. injection Hstep as <- <-.
    apply (set_keeper_inv h i k); simpl; quick.
  - injection Hstep as <- <-. apply (set_keeper_inv h i k); simpl; quick.
  - pose proof (grant_shrinks (etcd h)) as Hs. pose proof (grant_lease (etcd h)) as [Hpos _].
    destruct (grant (etcd h)) as [l s1]. simpl in *. injection Hstep as <- <-.
    apply (set_keeper_inv h i k); simpl; quick.
  - assert (Hfail : hub_inv (set_keeper i (at_pc Keeping k) (attempt (revoke l (etcd h)) (revokeFails f) (etcd h)) h)).
    { apply (set_keeper_inv h i k); simpl; quick. }
    destruct (putFails f); [by injection Hstep as <- <- |].
    destruct (put _ _ _ _) as [s'|] eqn:Hp; injection Hstep as <- <-; [| done].
    specialize (Hpl l eq_refl).
    apply (put_lease_inv h (etcd h) l i (key k) (val k) (cancelled k)); simpl; try done.
    + apply alive_ever. destruct (put_ok (combineKeyWithPrefix h (key k)) (val k) l (etcd h)) as [Hok _].
      destruct Hok; [by eexists | lia | done].
    + apply list_lookup_insert_eq. by eapply lookup_lt_Some.
    + intros j0 Hj. by apply list_lookup_insert_ne.
    + intros kp Hkp. rewrite Hi in Hkp. injection Hkp as <-. by rewrite Hpc.
Qed.

Lemma cancel_all_lookup (ks : list kvKeepAlive) (l : list nat) (i : nat) :
  foldr (λ i ks, alter cancel i ks) ks l !! i = (if decide (i ∈ l) then cancel else id) <$> ks !! i.
Proof.
  induction l as [|j l IH]; cbn [foldr].
  - rewrite decide_False by apply not_elem_of_nil. by destruct (ks !! i).
  - destruct (decide (i = j)) as [-> | Hij].
    + rewrite list_lookup_alter_eq, IH, (decide_True (P := j ∈ j :: l)) by left.
      destruct (decide (j ∈ l)); by destruct (ks !! j).
    + rewrite list_lookup_alter_ne, IH by done.
      destruct (decide (i ∈ l)); [rewrite decide_True by (by right) | rewrite decide_False by set_solver]; done.
Qed.

Lemma hub_stop_inv h : hub_inv h → ∀ h', hub_exec OpStop h = Some h' → hub_inv h'.
Proof.
  intros Hinv h' [= <-]. apply (hub_inv_shrinks h); [| apply shrinks_refl | | exact Hinv].
  - split; [done |]. intros i. simpl. rewrite cancel_all_lookup.
    destruct (keepers h !! i) as [kp|]; simpl; [| done]. case_decide; simpl; by auto 10.
  - intros j revoked todo. simpl. rewrite lookup_app_Some.
    intros [? | [_ Hj%list_lookup_singleton_Some]]; [done | by destruct Hj].
Qed.

Lemma stop_step_inv j fails p p' s h :
  stops h !! j = Some p → stop_step fails p h = Some (p', s) → hub_inv h →
  hub_inv (MkKvHub (dir h) s (keepers h) (keepAlives h) (<[j := p']> (stops h))).
Proof.
  intros Hj Hstep Hinv.
  assert (Hlt : (j < length (stops h))%nat) by by eapply lookup_lt_Some.
  assert (Hback : ∀ s', store_shrinks (etcd h) s' →
    (∀ revoked todo, p' = StopRevoke revoked todo → (∀ i, i ∈ todo → gone h i = true) ∧
      ∀ i, i ∈ revoked → gone h i = true ∧ ∀ kp, keepers h !! i = Some kp → alive s' (lease kp) = false) →
    hub_inv (MkKvHub (dir h) s' (keepers h) (keepAlives h) (<[j := p']> (stops h)))).
  { intros s' Hs Hp'.
    destruct (hub_inv_shrinks h (set_etcd s' h)) as [Hh He Hst]; [by apply same_holders_refl | done.. |].
    split; [done.. |]. intros j' revoked todo. simpl. rewrite list_lookup_insert_Some.
    intros [(_ & -> & _) | [_ Hj']]; [by apply Hp' | by apply (Hst j')]. }
  pose proof Hinv as [_ Hever Hst]. destruct p as [ks | revoked [|i todo]]; simpl in Hstep; [| done |].
  - destruct (forallb (gone h) ks) eqn:Hg; [| done]. injection Hstep as <- <-.
    apply Hback; [apply shrinks_refl |]. intros revoked todo [= <- <-].
    split; [| by intros i ?%elem_of_nil]. intros i Hi. rewrite forallb_forall in Hg. apply Hg.
    by apply list_elem_of_In.
  - destruct (Hst j revoked (i :: todo) Hj) as [Htodo Hrev].
    destruct (keepers h !! i) as [kp|] eqn:Hkp; [| done]. destruct fails; injection Hstep as <- <-.
    + apply Hback; [apply shrinks_refl |]. intros r t [= <- <-]. split; [| done].
      intros i' Hi'. apply Htodo. by right.
    + pose proof (revoke_shrinks (lease kp) false (etcd h)) as Hs. apply Hback; [done |].
      intros r t [= <- <-]. split; [intros i' Hi'; apply Htodo; by right |].
      intros i' [-> | Hi']%elem_of_cons.
      * split; [apply Htodo; left |]. intros kp' Hkp'. rewrite Hkp in Hkp'. injection Hkp' as <-.
        apply revoked_dead.
      * destruct (Hrev i' Hi') as [Hgi Hdead]. split; [done |]. intros kp' Hkp'.
        destruct (alive (attempt (revoke (lease kp) (etcd h)) false (etcd h)) (lease kp')) eqn:Hl; [| done].
        apply attempt_revoke_alive in Hl. by rewrite Hdead in Hl.
Qed.

Lemma hub_exec_inv o h h' : hub_exec o h = Some h' → hub_inv h → hub_inv h'.
Proof.
  intros Hex Hinv.
  assert (Hkeep : ∀ i, (k ← keepers h !! i; '(k, s) ← keep_step o k h; Some (set_keeper i k s h)) = Some h' →
                  hub_inv h').
  { intros i Hk. destruct (keepers h !! i) as [k|] eqn:Hi; [| done]. simpl in Hk.
    destruct (keep_step o k h) as [[k' s]|] eqn:Hs; [| done]. injection Hk as <-. by eapply keep_step_inv. }
  destruct o as [k v | k | f k v | i | i | i t | i b | i f | | j b | l]; cbn [hub_exec] in Hex; try by eapply Hkeep.
  - injection Hex as <-. by apply set_etcd_inv; [apply put0_shrinks |].
  - injection Hex as <-. by apply set_etcd_inv; [apply del_shrinks |].
  - injection Hex as <-. by apply SetWithLease_inv.
  - injection Hex as <-. apply (hub_inv_shrinks h); [by apply same_holders_refl | apply shrinks_refl | done..].
  - by eapply hub_stop_inv.
  - destruct (stops h !! j) as [p|] eqn:Hj; [| done]. simpl in Hex.
    destruct (stop_step b p h) as [[p' s]|] eqn:Hs; [| done]. injection Hex as <-. by eapply stop_step_inv.
  - injection Hex as <-. apply set_etcd_inv; [apply (revoke_shrinks l false) | done].
Qed.

(** Closing the hub: once a call of [stopKVKeepAlives] has waited for its goroutines
    and gone through their leases, a key that is still under a lease belongs to a call of
    [SetWithLease] whose lease it did not revoke, because the revocation failed or
    because the call was not yet in the hub's list.  This holds whatever sets, deletions,
    lost leases, failures and retries came before or interleave. *)
Theorem stopKVKeepAlives_revokes root os s0 h j revoked k v l :
  (∀ k v l, get s0 k = Some (v, l) → l = 0) →
  hub_run os (hub_init root s0) = Some h →
  stops h !! j = Some (StopRevoke revoked []) →
  get (etcd h) k = Some (v, l) → l ≠ 0 →
  ∃ i, i ∉ revoked ∧ holds h i k v l.
Proof.
  intros Hs0 Hrun Hj Hk Hl.
  assert (hub_inv h) as [Hheld _ Hst].
  { apply (run_Some hub_exec hub_inv os (hub_init root s0) h hub_exec_inv Hrun). split; simpl.
    - intros k' v' l' Hk' Hl'. by apply Hs0 in Hk'.
    - intros i kp. by rewrite lookup_nil.
    - intros j' r t. by rewrite lookup_nil. }
  destruct (Hheld k v l Hk Hl) as (Hlive & i & Hi). exists i. split; [| done]. intros Hin.
  destruct (Hst j revoked [] Hj) as [_ Hrev]. destruct (Hrev i Hin) as [_ Hdead].
  destruct Hi as (kp & Hkp & _ & _ & <-). by rewrite (Hdead kp Hkp) in Hlive.
Qed.

(** A lost lease brings a value back: when the stream of a key's lease ends after the
    key has been deleted or set to something else, the retry of the goroutine puts the
    value it was started with. *)
Theorem retry_restores_value i kp o h :
  keepers h !! i = Some kp → kpc kp = Keeping → cancelled kp = false →
  (o = OpDelData (key kp) ∨ ∃ v', o = OpSetKey (key kp) v') →
  ∃ h', hub_run [o; OpStreamEnds i; OpWake i true; OpGrant i false; OpPut i (MkFaults false false false)] h
          = Some h' ∧
        GetKey (key kp) h' = Some (val kp).
Proof.
  intros Hi Hpc Hc Ho.
  assert (∃ s, hub_exec o h = Some (set_etcd s h)) as [s Hs].
  { destruct Ho as [-> | [v' ->]]; by eexists. }
  unfold hub_run. cbn [fold_left]. change (Some h ≫= hub_exec o) with (hub_exec o h). rewrite Hs.
  pose proof (grant_alive s) as Ha. destruct (grant s) as [l s1] eqn:Hg. simpl in Ha.
  assert (Hlt : (i < length (keepers h))%nat) by by eapply lookup_lt_Some.
  assert (is_Some (put (combineKeyWithPrefix h (key kp)) (val kp) l s1)) as [s2 Hput].
  { apply put_ok. right. rewrite Ha. by rewrite bool_decide_true. }
  eexists. split.
  - cbn [mbind option_bind hub_exec set_etcd keepers]. rewrite Hi. simpl. rewrite Hpc, Hc.
    simpl. rewrite list_lookup_insert_eq by done. simpl.
    rewrite list_lookup_insert_eq by (by rewrite length_insert). simpl. rewrite Hg.
    simpl. rewrite list_lookup_insert_eq by (by rewrite !length_insert). simpl.
    unfold combineKeyWithPrefix in *. simpl. rewrite Hput. reflexivity.
  - unfold GetKey. simpl. rewrite (put_get _ _ _ _ _ _ Hput). unfold combineKeyWithPrefix. simpl.
    by rewrite decide_True.
Qed.
End hub.

(** * An instance and witnesses *)

Record map_store := MkMapStore { kvs : gmap string (string * Z); leases : gset Z; next : positive }.

Definition map_ever (s : map_store) (l : Z) : bool := (0 <? l) && (l <? Z.pos (next s)).
Definition map_alive (s : map_store) (l : Z) : bool := bool_decide (l ∈ leases s) && map_ever s l.

#[export] Instance map_etcd : Etcd := {|
  store := map_store;
  get s k := kvs s !! k;
  alive := map_alive;
  ever := map_ever;
  grant s := (Z.pos (next s), MkMapStore (kvs s) ({[Z.pos (next s)]} ∪ leases s) (Pos.succ (next s)));
  put k v l s := if (l =? 0) || map_alive s l then Some (MkMapStore (<[k := (v, l)]> (kvs s)) (leases s) (next s)) else None;
  del k s := MkMapStore (delete k (kvs s)) (leases s) (next s);
  revoke l s := if map_alive s l
                then Some (MkMapStore (filter (λ kv, kv.2.2 ≠ l) (kvs s)) (leases s ∖ {[l]}) (next s)) else None
|}.

#[export] Instance map_etcd_laws : EtcdLaws.
Proof.
  split; simpl; intros.
  - unfold map_ever. split; [lia |]. rewrite Z.ltb_irrefl. apply andb_false_r.
  - by apply andb_true_iff in H as [_ ?].
  - unfold map_ever. simpl. destruct (decide (l = Z.pos (next s))) as [-> | Hl].
    + rewrite bool_decide_true by done. simpl. apply Z.ltb_lt. lia.
    + rewrite bool_decide_false by done. simpl. f_equal.
      destruct (Z.ltb_spec l (Z.pos (next s))), (Z.ltb_spec l (Z.pos (Pos.succ (next s)))); lia || done.
  - by case_match; simplify_eq/=.
  - done.
  - by case_match; simplify_eq/=.
  - done.
  - unfold map_alive, map_ever. simpl. destruct (decide (l = Z.pos (next s))) as [-> | Hl].
    + rewrite !bool_decide_true by set_solver. simpl. apply Z.ltb_lt. lia.
    + rewrite (bool_decide_false (l = _)) by done. simpl.
      rewrite (bool_decide_ext (l ∈ {[Z.pos (next s)]} ∪ leases s) (l ∈ leases s)) by set_solver.
      do 2 f_equal.
      destruct (Z.ltb_spec l (Z.pos (next s))), (Z.ltb_spec l (Z.pos (Pos.succ (next s)))); lia || done.
  - rewrite <- Z.eqb_eq, <- orb_true_iff. destruct (_ || _); split; try done; first [by eexists | by intros []].
  - case_match; simplify_eq/=. case_decide; subst; by rewrite ?lookup_insert_eq, ?lookup_insert_ne.
  - by case_match; simplify_eq/=.
  - case_decide; subst; by rewrite ?lookup_delete_eq, ?lookup_delete_ne.
  - done.
  - destruct (map_alive s l); split; try done; first [by eexists | by intros []].
  - case_match; simplify_eq/=. destruct (kvs s !! k) as [[v l']|] eqn:Hk.
    + case_decide as Hl.
      * apply map_lookup_filter_None. right. intros [? ?] ?. simplify_eq/=. naive_solver.
      * by apply map_lookup_filter_Some.
    + apply map_lookup_filter_None. by left.
  - case_match; simplify_eq/=. unfold map_alive. simpl. destruct (decide (l' = l)) as [-> | Hl].
    + rewrite (bool_decide_true (l = l)), bool_decide_false by set_solver. done.
    + rewrite (bool_decide_false (l' = l)) by done. simpl. f_equal. apply bool_decide_ext. set_solver.
Qed.

Definition empty_store : @store map_etcd := MkMapStore ∅ ∅ 1.
Definition no_faults : faults := MkFaults false false false.

Definition demo_hub_ops : list hub_op :=
  [OpSetKey "c" "plain"; OpSetWithLease no_faults "a" "1"; OpEnlist 0; OpSetWithLease no_faults "b" "2"; OpEnlist 1;
   OpLeaseExpires 1; OpStreamEnds 0; OpWake 0 true; OpGrant 0 false; OpPut 0 no_faults;
   OpSetWithLease no_faults "d" "3"; OpStop; OpStreamEnds 0; OpStreamEnds 1; OpStopStep 0 false;
   OpStopStep 0 false; OpStopStep 0 true].

Definition demo_hub : kvHub := default (hub_init "r" empty_store) (hub_run demo_hub_ops (hub_init "r" empty_store)).

(** The revocation of [b] failed, and [d] was not yet in the list. *)
Lemma stopKVKeepAlives_revokes_witness :
  GetKey "a" demo_hub = None ∧ GetKey "b" demo_hub = Some "2" ∧ GetKey "d" demo_hub = Some "3" ∧
  ∃ i, i ∉ [0%nat] ∧ holds demo_hub i "r/b" "2" 2.
Proof.
  split; [vm_compute; reflexivity | split; [vm_compute; reflexivity | split; [vm_compute; reflexivity |]]].
  apply (stopKVKeepAlives_revokes "r" demo_hub_ops empty_store demo_hub 0 [0%nat] "r/b" "2" 2).
  - intros k v l Hk. discriminate.
  - vm_compute. reflexivity.
  - vm_compute. reflexivity.
  - vm_compute. reflexivity.
  - discriminate.
Defined.

Definition demo_held : kvHub := default (hub_init "r" empty_store)
  (hub_run [OpSetWithLease no_faults "a" "1"; OpEnlist 0] (hub_init "r" empty_store)).

Lemma retry_restores_value_witness :
  ∃ h', hub_run [OpDelData "a"; OpStreamEnds 0; OpWake 0 true; OpGrant 0 false; OpPut 0 no_faults] demo_held = Some h' ∧
        GetKey "a" h' = Some "1".
Proof.
  apply (retry_restores_value 0 (MkKeepAlive "a" "1" 1 false Keeping) (OpDelData "a") demo_held).
  - vm_compute. reflexivity.
  - reflexivity.
  - reflexivity.
  - left. reflexivity.
Defined.

Lemma registered_address_witness :
  address_of (λ _, None : option (@Address unit)) (service_key "openim" "msg" "fe80::1") "junk" = None ∧
  address_of (λ _, None : option (@Address unit)) (service_key "openim" "msg" (JoinHostPort "fe80::1" (Itoa 10001))) "junk"
  = Some (MkAddress "[fe80::1]:10001" None).
Proof.
  split; [vm_compute; reflexivity |].
  apply (registered_address (λ _, None : option (@Address unit)) "openim" "msg" "fe80::1" 10001 "junk").
  - discriminate.
  - reflexivity.
  - reflexivity.
  - reflexivity.
  - lia.
  - right. reflexivity.
Defined.

Definition all_fine : fates := MkFates Fine Fine Fine Fine.
Definition demo_registry : registry := registry_init "r" empty_store.

(** A service that registers, unregisters, and registers at another port before its
    unregistration has sent anything. *)
Definition demo_reg_ops : list reg_op :=
  [OpRegister all_fine "user" "10.0.0.1" 9000; OpUnRegister; OpRegister all_fine "user" "10.0.0.1" 9001].

(** The unregistration goes on, a re-registration fails, the next gives the old lease up
    by a request that arrives late, and other leases expire. *)
Definition demo_calm_ops : list reg_op :=
  [OpUnRegisterStep 0 Fine; OpReRegister (MkFates Fine Refused Unheard Fine); OpUnRegisterStep 0 Refused;
   OpReRegister (MkFates Fine Fine Fine Late); OpExpire 1; OpArrive 0; OpExpire 3].

(** The last conclusions: the endpoint after the calm steps, and what a registration that
    fails and an unregistration leave of it. *)
Lemma registrar_sound_witness :
  let w := reg_run id demo_reg_ops demo_registry in
  let w' := reg_run id demo_calm_ops w in
  leaseID (reg w') = 4 ∧ alive (server (net w')) 4 = true ∧
  get (server (net w')) "r/user/10.0.0.1:9001" = Some ("10.0.0.1:9001", 4) ∧
  get (server (net w')) "r/user/10.0.0.1:9000" = None ∧
  let '(r, n, ok) := Register id (MkFates Fine Late Late Fine) "user" "10.0.0.1" 9000 (reg w) (net w) in
  ok = false ∧ leaseID r = 0 ∧ selfTarget r = "10.0.0.1:9001".
Proof.
  pose proof (registrar_sound id "r" demo_reg_ops empty_store) as (Hr & _ & _ & Hc).
  specialize (Hr (MkFates Fine Late Late Fine) "user" "10.0.0.1" 9000).
  assert (Ht : endpoint_there id (reg (reg_run id demo_reg_ops demo_registry))
                 (server (net (reg_run id demo_reg_ops demo_registry)))) by (intros _ _; vm_compute; reflexivity).
  specialize (Hc demo_calm_ops eq_refl Ht). unfold endpoint_there in Hc. vm_compute in Hc. vm_compute in Hr.
  specialize (Hc ltac:(discriminate) eq_refl).
  vm_compute. repeat split; try reflexivity; first [exact Hc | apply Hr].
Defined.

(** An unregistration has released the lock when the same address registers again: its
    delete removes the new endpoint, whose lease lives on. *)
Lemma unregister_race :
  let w := reg_run id [OpRegister all_fine "user" "10.0.0.1" 9000; OpUnRegister;
                       OpRegister all_fine "user" "10.0.0.1" 9000; OpUnRegisterStep 0 Fine;
                       OpUnRegisterStep 0 Fine] demo_registry in
  unregs w = [UReturned true] ∧ leaseID (reg w) = 2 ∧ alive (server (net w)) 2 = true ∧
  serviceKey (reg w) = "r/user/10.0.0.1:9000" ∧ get (server (net w)) "r/user/10.0.0.1:9000" = None.
Proof. vm_compute. done. Qed.

(** The put of a re-registration times out but was applied: giving its lease back removes
    the endpoint, while the registrar keeps the old lease alive. *)
Lemma unheard_reregistration :
  let w := reg_run id [OpRegister all_fine "user" "10.0.0.1" 9000;
                       OpReRegister (MkFates Fine Unheard Fine Fine)] demo_registry in
  leaseID (reg w) = 1 ∧ alive (server (net w)) 1 = true ∧ keepAlive (reg w) = true ∧
  serviceKey (reg w) = "r/user/10.0.0.1:9000" ∧ get (server (net w)) "r/user/10.0.0.1:9000" = None.
Proof. vm_compute. done. Qed.
