(* ===== verification/Zk.v ===== *)
(** * ZooKeeper discovery (discovery/zookeeper)

    The nodes are the services under the root with their children, as ZooKeeper documents
    them: a watch on the children of a node is used up by the first change, which is then
    an event in the channel of the client.  Any call may fail, done or not.  The threads
    are the goroutine [watch], the holder of the client's lock and the calls that run
    without it; each call of the connection is one step, so everything else may happen
    between two of them.  What a connection is to gRPC is its target. *)

From S2P Require Import Prelude GoStrings.
From stdpp Require Import stringmap.
From Stdlib Require Import Strings.Ascii.

(** ** The service of ZooKeeper *)

Record znode := MkNode { zdata : string; zversion : Z; zchildren : gmap string string }.

Inductive event :=
| ChildrenChanged (path : string)
| NodeDeleted (path : string)
| NotWatching
| HasSession
| Disconnected
| Connected.

(** The nodes, the paths with a watch on their children, and the events not yet received. *)
Record zk := MkZk { nodes : gmap string znode; armed : gset string; events : list event }.

(** How a call ends: well, refused, or done with its reply lost. *)
Inductive fault := Fine | Refused | Lost.

Inductive zk_err := ConnErr | ErrNoNode | ErrNodeExists | ErrBadVersion | ErrNotEmpty.

Definition change_children (path : string) (n : znode) (ch : gmap string string) (z : zk) : zk :=
  MkZk (<[path := MkNode (zdata n) (zversion n) ch]> (nodes z)) (armed z ∖ {[path]})
    (if decide (path ∈ armed z) then events z ++ [ChildrenChanged path] else events z).

Definition zk_create (path data : string) (z : zk) : zk * option zk_err :=
  match nodes z !! path with
  | Some _ => (z, Some ErrNodeExists)
  | None => (MkZk (<[path := MkNode data 0 ∅]> (nodes z)) (armed z) (events z), None)
  end.

(** [Delete]: any version is meant by -1. *)
Definition zk_delete (path : string) (v : Z) (z : zk) : zk * option zk_err :=
  match nodes z !! path with
  | None => (z, Some ErrNoNode)
  | Some n =>
      if negb (v =? -1)%Z && negb (v =? zversion n)%Z then (z, Some ErrBadVersion)
      else if negb (bool_decide (zchildren n = ∅)) then (z, Some ErrNotEmpty)
      else (MkZk (delete path (nodes z)) (armed z ∖ {[path]})
              (if decide (path ∈ armed z) then events z ++ [NodeDeleted path] else events z), None)
  end.

(** A child with a name that no other has. *)
Definition zk_create_temp (path addr : string) (z : zk) : zk * (string + zk_err) :=
  match nodes z !! path with
  | None => (z, inr ErrNoNode)
  | Some n =>
      let child := fresh_string (addr +:+ "_") (zchildren n) in
      (change_children path n (<[child := addr]> (zchildren n)) z, inl child)
  end.

Definition zk_delete_child (path child : string) (z : zk) : zk * option zk_err :=
  match nodes z !! path with
  | None => (z, Some ErrNoNode)
  | Some n =>
      match zchildren n !! child with
      | None => (z, Some ErrNoNode)
      | Some _ => (change_children path n (delete child (zchildren n)) z, None)
      end
  end.

(** The call with its fault, for calls that report only errors. *)
Definition faulty (f : fault) (z : zk) (r : zk * option zk_err) : zk * option zk_err :=
  match f with Fine => r | Refused => (z, Some ConnErr) | Lost => (r.1, Some ConnErr) end.

(** [ensureAndCreate]: another client may create the node in between. *)
Definition ensureAndCreate (f1 f2 : fault) (env : zk → zk) (node : string) (z : zk) : zk * option zk_err :=
  match f1 with
  | Fine =>
      if bool_decide (is_Some (nodes z !! node)) then (z, None)
      else
        let z := env z in
        match faulty f2 z (zk_create node "" z) with
        | (z, Some ErrNodeExists) => (z, None)
        | r => r
        end
  | _ => (z, Some ConnErr)
  end.

(** ** Paths *)

Definition getPath (zkRoot name : string) : string := zkRoot +:+ "/" +:+ name.

(** The service of a path, when it has more than one component. *)
Definition service_of (path : string) : option string :=
  let l := Split "/" path in
  if decide (1 < length l) then last l else None.

Section client.
Context `{MR : MapRange}.

(** ** Reading a service: [GetConnsRemote] *)

(** Before [Exists], [Create], [ChildrenW] and [Children], then the data of the children
    one by one, and the addresses or an error. *)
Inductive remote_pc :=
| RExists
| RCreate
| RWatch
| RChildren
| RGet (todo acc : list string)
| RDone (r : option (list string)).

Definition remote_step (path : string) (f : fault) (pc : remote_pc) (z : zk) : zk * remote_pc :=
  match pc with
  | RExists =>
      match f with
      | Fine => (z, match nodes z !! path with Some _ => RWatch | None => RCreate end)
      | Refused | Lost => (z, RDone None)
      end
  | RCreate =>
      match faulty f z (zk_create path "" z) with
      | (z, None) | (z, Some ErrNodeExists) => (z, RWatch)
      | (z, Some _) => (z, RDone None)
      end
  | RWatch =>
      let z' := match nodes z !! path with
                | Some _ => MkZk (nodes z) ({[path]} ∪ armed z) (events z)
                | None => z
                end in
      match f, nodes z !! path with
      | Fine, Some _ => (z', RChildren)
      | Fine, None | Refused, _ => (z, RDone None)
      | Lost, _ => (z', RDone None)
      end
  | RChildren =>
      match f, nodes z !! path with
      | Fine, Some n => (z, RGet (range_map (zchildren n)).*1 [])
      | _, _ => (z, RDone None)
      end
  | RGet [] acc => (z, RDone (Some acc))
  | RGet (child :: todo) acc =>
      match f, nodes z !! path ≫= λ n, zchildren n !! child with
      | Fine, Some data => (z, RGet todo (acc ++ [data]))
      | _, _ => (z, RDone None)
      end
  | RDone r => (z, RDone r)
  end.

(** ** The client *)

(** [node] is the path of the own node, in two parts. *)
Record ZkClient := MkZkClient {
  zkRoot : string;
  rpcRegisterName : string;
  rpcRegisterAddr : string;
  isRegistered : bool;
  node : option (string * string);
  resolvers : gmap string (list string);
  localConns : gmap string (list string);
  isStateDisconnected : bool
}.

Definition set_locals (m : gmap string (list string)) (s : ZkClient) : ZkClient :=
  MkZkClient (zkRoot s) (rpcRegisterName s) (rpcRegisterAddr s) (isRegistered s) (node s) (resolvers s) m
    (isStateDisconnected s).

Definition set_resolvers (m : gmap string (list string)) (s : ZkClient) : ZkClient :=
  MkZkClient (zkRoot s) (rpcRegisterName s) (rpcRegisterAddr s) (isRegistered s) (node s) m (localConns s)
    (isStateDisconnected s).

Definition set_node (n : option (string * string)) (s : ZkClient) : ZkClient :=
  MkZkClient (zkRoot s) (rpcRegisterName s) (rpcRegisterAddr s) (isRegistered s) n (resolvers s) (localConns s)
    (isStateDisconnected s).

Definition set_disconnected (b : bool) (s : ZkClient) : ZkClient :=
  MkZkClient (zkRoot s) (rpcRegisterName s) (rpcRegisterAddr s) (isRegistered s) (node s) (resolvers s)
    (localConns s) b.

Definition set_registered (name addr : string) (n : option (string * string)) (s : ZkClient) : ZkClient :=
  MkZkClient (zkRoot s) name addr true n (resolvers s) (localConns s) (isStateDisconnected s).

Definition unregistered (s : ZkClient) : ZkClient :=
  MkZkClient (zkRoot s) "" "" false None ∅ ∅ (isStateDisconnected s).

(** A resolver keeps its addresses when reading fails. *)
Definition resolved (svc : string) (r : option (list string)) (s : ZkClient) : ZkClient :=
  match r with
  | Some addrs => set_resolvers (alter (λ _, addrs) svc (resolvers s)) s
  | None => s
  end.

(** [grpc.DialContext] on an address. *)
Context (can_dial : string → bool).

(** The dials of [GetConns]: the connections, or [None] at the first that fails. *)
Fixpoint dial_all (addrs : list string) : option (list string) :=
  match addrs with
  | [] => Some []
  | a :: addrs => if can_dial a then (a ::.) <$> dial_all addrs else None
  end.

(** The end of [GetConns] once the addresses are read. *)
Definition fill (svc : string) (r : option (list string)) (s : ZkClient) : ZkClient * option (list string) :=
  match r with
  | None | Some [] => (s, None)
  | Some addrs =>
      match dial_all addrs with
      | None => (s, None)
      | Some conns => (set_locals (<[svc := conns]> (localConns s)) s, Some conns)
      end
  end.

(** ** The threads *)

(** Who holds the lock: [GetConns], the flush that an event has asked for, [refresh],
    with the service that it is reading and those that remain, or [UnRegister] while it
    sleeps, its node deleted. *)
Inductive holder :=
| HGetConns (svc : string) (pc : remote_pc)
| HFlush (svc : string) (pc : remote_pc)
| HRefresh (cur : option (string * remote_pc)) (todo : list string)
| HUnRegister.

(** [watch]: receiving, waiting for the lock, holding it, or making the node again. *)
Inductive watch_pc := WIdle | WWait (svc : string) | WFlush | WTemp (name addr : string).

(** The calls without the lock: [Register], up to [RWatch] for its [ensureName], and
    [Build], which takes the lock at the end. *)
Inductive call := CRegister (name addr : string) (pc : remote_pc) | CBuild (svc : string) (pc : remote_pc) | CDone.

Record zk_sys := MkZkSys {
  store : zk;
  cl : ZkClient;
  lock : option holder;
  wpc : watch_pc;
  calls : list call
}.

Inductive zk_op :=
| Change (path child : string) (data : option string)
| Make (path : string)
| Remove (path : string)
| Expire
| Session (e : event)
| GetConns (svc : string)
| LockStep (f : fault)
| WatchPop
| WatchLock
| WatchTemp (f : fault)
| Refresh
| UnRegister (f : fault)
| Register (name addr : string)
| Build (svc : string)
| CallStep (i : nat) (f : fault).

Definition set_zk (z : zk) (s : zk_sys) : zk_sys := MkZkSys z (cl s) (lock s) (wpc s) (calls s).
Definition path_in (s : zk_sys) (svc : string) : string := getPath (zkRoot (cl s)) svc.

(** What other clients do: a child comes with its data, or goes. *)
Definition change (path child : string) (data : option string) (z : zk) : option zk :=
  match nodes z !! path, data with
  | Some n, Some d =>
      match zchildren n !! child with
      | Some _ => None
      | None => Some (change_children path n (<[child := d]> (zchildren n)) z)
      end
  | Some n, None => Some (zk_delete_child path child z).1
  | None, _ => None
  end.

(** The event that [watch] receives. *)
Definition on_event (e : event) (s : zk_sys) : zk_sys :=
  match e with
  | HasSession =>
      if isRegistered (cl s) && negb (isStateDisconnected (cl s)) then
        MkZkSys (store s) (cl s) (lock s) (WTemp (rpcRegisterName (cl s)) (rpcRegisterAddr (cl s))) (calls s)
      else s
  | Disconnected => MkZkSys (store s) (set_disconnected true (cl s)) (lock s) (wpc s) (calls s)
  | Connected => MkZkSys (store s) (set_disconnected false (cl s)) (lock s) (wpc s) (calls s)
  | ChildrenChanged path =>
      match service_of path with
      | Some svc => MkZkSys (store s) (cl s) (lock s) (WWait svc) (calls s)
      | None => s
      end
  | NodeDeleted _ | NotWatching => s
  end.

(** One step of the holder of the lock. *)
Definition lock_step (f : fault) (h : holder) (s : zk_sys) : zk_sys :=
  match h with
  | HGetConns svc (RDone r) => MkZkSys (store s) (fill svc r (cl s)).1 None (wpc s) (calls s)
  | HGetConns svc pc =>
      let '(z, pc) := remote_step (path_in s svc) f pc (store s) in
      MkZkSys z (cl s) (Some (HGetConns svc pc)) (wpc s) (calls s)
  | HFlush svc (RDone r) =>
      let c := resolved svc r (cl s) in
      MkZkSys (store s) (set_locals (delete svc (localConns c)) c) None WIdle (calls s)
  | HFlush svc pc =>
      let '(z, pc) := remote_step (path_in s svc) f pc (store s) in
      MkZkSys z (cl s) (Some (HFlush svc pc)) (wpc s) (calls s)
  | HRefresh None [] => MkZkSys (store s) (set_locals ∅ (cl s)) None (wpc s) (calls s)
  | HRefresh None (svc :: todo) =>
      MkZkSys (store s) (cl s) (Some (HRefresh (Some (svc, RExists)) todo)) (wpc s) (calls s)
  | HRefresh (Some (svc, RDone r)) todo =>
      MkZkSys (store s) (resolved svc r (cl s)) (Some (HRefresh None todo)) (wpc s) (calls s)
  | HRefresh (Some (svc, pc)) todo =>
      let '(z, pc) := remote_step (path_in s svc) f pc (store s) in
      MkZkSys z (cl s) (Some (HRefresh (Some (svc, pc)) todo)) (wpc s) (calls s)
  | HUnRegister => MkZkSys (store s) (unregistered (cl s)) None (wpc s) (calls s)
  end.

(** The node made by [CreateTempNode], if its reply arrives. *)
Definition temp_step (f : fault) (path addr : string) (z : zk) : zk * option (string * string) :=
  match f, zk_create_temp path addr z with
  | Fine, (z, inl child) => (z, Some (path, child))
  | Lost, (z, _) => (z, None)
  | _, _ => (z, None)
  end.

(** One step of a call without the lock; [None] when it has to wait for the lock. *)
Definition call_step (f : fault) (c : call) (s : zk_sys) : option (zk_sys * call) :=
  match c with
  | CRegister name addr RWatch =>
      if can_dial addr then
        let '(z, n) := temp_step f (path_in s name) addr (store s) in
        Some (match n with
              | Some _ => MkZkSys z (set_registered name addr n (cl s)) (lock s) (wpc s) (calls s)
              | None => set_zk z s
              end, CDone)
      else Some (s, CDone)
  | CRegister name addr (RDone _) => Some (s, CDone)
  | CRegister name addr pc =>
      let '(z, pc) := remote_step (path_in s name) f pc (store s) in Some (set_zk z s, CRegister name addr pc)
  | CBuild svc (RDone r) =>
      match lock s with
      | None =>
          Some (MkZkSys (store s) (set_resolvers (<[svc := default [] r]> (resolvers (cl s))) (cl s)) None
                  (wpc s) (calls s), CDone)
      | Some _ => None
      end
  | CBuild svc pc =>
      let '(z, pc) := remote_step (path_in s svc) f pc (store s) in Some (set_zk z s, CBuild svc pc)
  | CDone => None
  end.

Definition set_call (i : nat) (sc : zk_sys * call) : zk_sys :=
  MkZkSys (store sc.1) (cl sc.1) (lock sc.1) (wpc sc.1) (<[i := sc.2]> (calls sc.1)).

Definition is_session (e : event) : bool :=
  match e with HasSession | Disconnected | Connected => true | _ => false end.

(** [None] when the operation is not possible. *)
Definition zk_exec (o : zk_op) (s : zk_sys) : option zk_sys :=
  match o with
  | Change path child data => (λ z, set_zk z s) <$> change path child data (store s)
  | Make path => Some (set_zk (zk_create path "" (store s)).1 s)
  | Remove path => Some (set_zk (zk_delete path (-1) (store s)).1 s)
  | Expire =>
      let z := store s in
      Some (set_zk (MkZk (nodes z) ∅ (events z ++ ((λ _, NotWatching) <$> elements (armed z)))) s)
  | Session e =>
      if is_session e then
        let z := store s in Some (set_zk (MkZk (nodes z) (armed z) (events z ++ [e])) s)
      else None
  | GetConns svc =>
      match lock s, localConns (cl s) !! svc with
      | None, Some (_ :: _) => Some s
      | None, _ => Some (MkZkSys (store s) (cl s) (Some (HGetConns svc RExists)) (wpc s) (calls s))
      | Some _, _ => None
      end
  | LockStep f => (λ h, lock_step f h s) <$> lock s
  | WatchPop =>
      match wpc s, events (store s) with
      | WIdle, e :: es => Some (on_event e (set_zk (MkZk (nodes (store s)) (armed (store s)) es) s))
      | _, _ => None
      end
  | WatchLock =>
      match wpc s, lock s with
      | WWait svc, None =>
          match resolvers (cl s) !! svc with
          | Some _ => Some (MkZkSys (store s) (cl s) (Some (HFlush svc RExists)) WFlush (calls s))
          | None =>
              Some (MkZkSys (store s) (set_locals (delete svc (localConns (cl s))) (cl s)) None WIdle (calls s))
          end
      | _, _ => None
      end
  | WatchTemp f =>
      match wpc s with
      | WTemp name addr =>
          let '(z, n) := temp_step f (path_in s name) addr (store s) in
          Some (MkZkSys z (match n with Some _ => set_node n (cl s) | None => cl s end) (lock s) WIdle (calls s))
      | _ => None
      end
  | Refresh =>
      match lock s with
      | None => Some (MkZkSys (store s) (cl s) (Some (HRefresh None (range_map (resolvers (cl s))).*1)) (wpc s) (calls s))
      | Some _ => None
      end
  | UnRegister f =>
      match lock s, node (cl s) with
      | None, Some (path, child) =>
          match faulty f (store s) (zk_delete_child path child (store s)) with
          | (z, None) => Some (MkZkSys z (cl s) (Some HUnRegister) (wpc s) (calls s))
          | (z, Some _) => Some (set_zk z s)
          end
      | None, None => Some s
      | Some _, _ => None
      end
  | Register name addr => Some (MkZkSys (store s) (cl s) (lock s) (wpc s) (calls s ++ [CRegister name addr RExists]))
  | Build svc => Some (MkZkSys (store s) (cl s) (lock s) (wpc s) (calls s ++ [CBuild svc RExists]))
  | CallStep i f => calls s !! i ≫= λ c, set_call i <$> call_step f c s
  end.

Definition zk_run (os : list zk_op) (s : zk_sys) : option zk_sys :=
  fold_left (λ s o, s ≫= zk_exec o) os (Some s).

Definition NewZkClient (root : string) : ZkClient := MkZkClient root "" "" false None ∅ ∅ false.
Definition zk_init (root : string) (z : zk) : zk_sys :=
  MkZkSys z (NewZkClient root) None WIdle [].
End client.

(** * Lemmas *)

(** ** Paths *)


Lemma getPath_inj root svc svc' : getPath root svc = getPath root svc' → svc = svc'.
Proof.
  unfold getPath. induction root as [|c root IH]; simpl; intros [= He]; [done | auto].
Qed.

(** ** What a step of ZooKeeper keeps *)

(** A watch that is set stays set over the same children, unless its event is there. *)
Record zk_le (z z' : zk) : Prop := {
  le_events : ∀ path, ChildrenChanged path ∈ events z → ChildrenChanged path ∈ events z';
  le_armed : ∀ path, path ∈ armed z → ChildrenChanged path ∈ events z' ∨ path ∈ armed z' ∧
    ∀ n, nodes z !! path = Some n → ∃ n', nodes z' !! path = Some n' ∧ zchildren n' = zchildren n
}.

#[export] Instance zk_le_preorder : PreOrder zk_le.
Proof.
  split.
  - intros z. split; [done |]. intros path Hp. right. split; [done |]. intros n Hn. by exists n.
  - intros x y z [He1 Ha1] [He2 Ha2]. split; [auto |]. intros path Hp.
    destruct (Ha1 path Hp) as [? | [Hp' Hn1]]; [by auto |].
    destruct (Ha2 path Hp') as [? | [Hp'' Hn2]]; [by left | right]. split; [done |].
    intros n (n' & Hn' & Hc)%Hn1. destruct (Hn2 n' Hn') as (n'' & ? & Hc'). exists n''. split; congruence.
Qed.









(** ** The invariant *)

Section coherence.
Context `{MR : !MapRange} (can_dial : string → bool).
Implicit Types (s : zk_sys) (z : zk) (path svc : string).
























(** No session is lost and no service node is removed. *)
Definition gentle (o : zk_op) : bool := match o with Expire | Remove _ => false | _ => true end.




(** Nothing is under way. *)
Definition idle s : Prop :=
  events (store s) = [] ∧ wpc s = WIdle ∧ lock s = None ∧ Forall (λ c, c = CDone) (calls s).

(** The addresses that are registered under a service. *)
Definition addresses_of z path : list string :=
  match nodes z !! path with Some n => (range_map (zchildren n)).*2 | None => [] end.

(** * Theorems *)

End coherence.

Definition dial_ok : string → bool := λ _, true.
Definition steps (n : nat) : list zk_op := replicate n (LockStep Fine).
Definition call_steps (n : nat) : list zk_op := replicate n (CallStep 0 Fine).
Definition stale_after (os : list zk_op) : zk_sys :=
  default (zk_init "/im" (MkZk ∅ ∅ [])) (zk_run dial_ok os (zk_init "/im" (MkZk ∅ ∅ []))).



(** The watch of the cached service is lost with the session. *)
Definition expired_ops : list zk_op :=
  [Make "/im/user"; Change "/im/user" "n1" (Some "a:1"); GetConns "user"] ++ steps 6 ++
  [Expire; Session Disconnected; Session Connected; Session HasSession;
   Change "/im/user" "n1" None; WatchPop; WatchPop; WatchPop; WatchPop].

(** A node comes after [Build] has read the service and before it has stored its resolver. *)
Definition build_ops : list zk_op :=
  [Make "/im/user"; Change "/im/user" "n1" (Some "a:1"); Build "user"] ++ call_steps 5 ++
  [Change "/im/user" "n2" (Some "b:1"); WatchPop; WatchLock] ++ call_steps 1.

(** A connection that comes back within its session. *)
Definition reconnect_ops : list zk_op :=
  [Register "user" "a:1"] ++ call_steps 3 ++
  [Session Disconnected; Session Connected; Session HasSession; WatchPop; WatchPop; WatchPop; WatchTemp Fine].

(** Where the cache and the registration fail, with nothing left under way.  After a
    lost session a client keeps the connections to nodes that are gone, as the event that
    reports a lost watch is ignored.  A resolver stays without a node that appears between
    the reading of [Build] and the moment it is stored, its event being spent and no watch
    left.  And a client whose connection comes back within the same session registers a
    second node for its own address, since the flag that should prevent this has been
    cleared by the time the session is reported. *)
Theorem zk_lapses :
  (∃ os s, zk_run dial_ok os (zk_init "/im" (MkZk ∅ ∅ [])) = Some s ∧ idle s ∧
    localConns (cl s) !! "user" = Some ["a:1"] ∧ addresses_of (store s) "/im/user" = []) ∧
  (∃ os s, zk_run dial_ok os (zk_init "/im" (MkZk ∅ ∅ [])) = Some s ∧ forallb gentle os = true ∧ idle s ∧
    resolvers (cl s) !! "user" = Some ["a:1"] ∧ addresses_of (store s) "/im/user" = ["a:1"; "b:1"] ∧
    bool_decide ("/im/user" ∈ armed (store s)) = false) ∧
  (∃ os s, zk_run dial_ok os (zk_init "/im" (MkZk ∅ ∅ [])) = Some s ∧ forallb gentle os = true ∧ idle s ∧
    rpcRegisterAddr (cl s) = "a:1" ∧ addresses_of (store s) "/im/user" = ["a:1"; "a:1"]).
Proof.
  split_and!.
  - exists expired_ops, (stale_after expired_ops). vm_compute. split_and!; [reflexivity.. | constructor | reflexivity | reflexivity].
  - exists build_ops, (stale_after build_ops). vm_compute.
    split_and!; try reflexivity. by repeat constructor.
  - exists reconnect_ops, (stale_after reconnect_ops). vm_compute.
    split_and!; try reflexivity. by repeat constructor.
Qed.

(** ** Configurations kept in nodes *)

(** [RegisterConf2Registry]: the faults of its calls, and what others do between them. *)
Definition RegisterConf2Registry (f1 f2 f3 : fault) (env1 env2 : zk → zk) (path conf : string) (z : zk)
    : zk * option zk_err :=
  match f1 with
  | Refused | Lost => (z, Some ConnErr)
  | Fine =>
      let exists_ := bool_decide (is_Some (nodes z !! path)) in
      let z := env1 z in
      let '(z, e) := if exists_ then faulty f2 z (zk_delete path 0 z) else (z, None) in
      match e with
      | Some e => (z, Some e)
      | None =>
          let z := env2 z in
          match faulty f3 z (zk_create path conf z) with
          | (z, Some ErrNodeExists) => (z, None)
          | r => r
          end
      end
  end.

Definition GetConfFromRegistry (path : string) (z : zk) : option string := zdata <$> nodes z !! path.

(** A configuration that is registered without an error is the one that is read, unless
    another client made the node meanwhile: then its own is kept and nobody is told. *)
Lemma conf_registered path conf f2 f3 env2 z z' :
  RegisterConf2Registry Fine f2 f3 (λ z, z) env2 path conf z = (z', None) →
  GetConfFromRegistry path z' = Some conf ∨
  ∃ zd n, nodes (env2 zd) !! path = Some n ∧ GetConfFromRegistry path z' = Some (zdata n).
Proof.
  unfold RegisterConf2Registry, GetConfFromRegistry. intros Hr.
  destruct (if bool_decide _ then _ else _) as [zd [e|]]; [done |].
  unfold zk_create in Hr. destruct (nodes (env2 zd) !! path) as [n|] eqn:Hn.
  - right. exists zd, n. split; [done |]. destruct f3; simpl in Hr; simplify_eq; by rewrite Hn.
  - left. destruct f3; simpl in Hr; simplify_eq. simpl. by rewrite lookup_insert_eq.
Qed.

(** ** Options *)

Record zk_options := MkZkOptions {
  timeout : Z;
  freq : Z;
  username : string;
  password : string;
  balancerName : string;
  dial_options : list string
}.

Inductive ZkOption :=
| WithRoundRobin
| WithUserNameAndPassword (userName password : string)
| WithOptions (opts : list string)
| WithFreq (freq : Z)
| WithTimeout (timeout : Z).

Definition apply_zk_option (c : zk_options) (o : ZkOption) : zk_options :=
  match o with
  | WithRoundRobin => MkZkOptions (timeout c) (freq c) (username c) (password c) "round_robin" (dial_options c)
  | WithUserNameAndPassword u p => MkZkOptions (timeout c) (freq c) u p (balancerName c) (dial_options c)
  | WithOptions opts => MkZkOptions (timeout c) (freq c) (username c) (password c) (balancerName c) opts
  | WithFreq f => MkZkOptions (timeout c) f (username c) (password c) (balancerName c) (dial_options c)
  | WithTimeout t => MkZkOptions t (freq c) (username c) (password c) (balancerName c) (dial_options c)
  end.

Definition defaultFreq : Z := 30 * 60 * 1000000000.

(** The options of a new client: the ticker is made after they are applied. *)
Definition client_options (options : list ZkOption) : zk_options :=
  let c := fold_left apply_zk_option options (MkZkOptions 5 0 "" "" "" []) in
  MkZkOptions (timeout c) defaultFreq (username c) (password c) (balancerName c) (dial_options c).

(** Credentials are sent when both are given. *)
Definition auth (c : zk_options) : option string :=
  if negb (String.eqb (username c) "") && negb (String.eqb (password c) "")
  then Some (username c +:+ ":" +:+ password c) else None.

(** No option changes the frequency of [refresh]. *)
Lemma freq_ignored options : freq (client_options options) = defaultFreq.
Proof. done. Qed.

(** A node that was ensured is there, with the data that another client gave it if there
    was one. *)
Theorem node_ensured f1 f2 env node z z' :
  ensureAndCreate f1 f2 env node z = (z', None) →
  is_Some (nodes z' !! node) ∧
  (∀ n, nodes z !! node = Some n → z' = z) ∧
  (∀ n, nodes z !! node = None → nodes (env z) !! node = Some n → nodes z' !! node = Some n).
Proof.
  unfold ensureAndCreate. destruct f1; [|done..]. case_bool_decide as Hn.
  - intros [= <-]. split_and!; [done | done |]. intros n Hno. by rewrite Hno in Hn; destruct Hn.
  - unfold zk_create. destruct (nodes (env z) !! node) as [n|] eqn:He; destruct f2; simpl; try done; intros [= <-].
    + split_and!; [by exists n | |naive_solver]. intros n' Hn'. destruct Hn. by exists n'.
    + simpl. rewrite lookup_insert_eq. split_and!; [by eexists | | done]. intros n' Hn'. destruct Hn. by exists n'.
Qed.
