(* ===== verification/Cpu.v ===== *)
(** * CPU statistics (stability/internal/cpu)

    The parsers of the kernel's files, given as their lines, and the state of the
    monitor that samples a cgroup.  [strings.Fields] is taken on ASCII spaces; files are
    not read, and what the gopsutil library answers is an argument. *)

From S2P Require Import Prelude GoStrings Float64.
From Stdlib Require Import Strings.Ascii Floats.SpecFloat.

Local Open Scope Z_scope.
Local Open Scope go_scope.

(** ** Numbers *)

(** [strconv.ParseUint(s, 10, 64)]. *)
Definition ParseUint (s : string) : Z * bool :=
  match s with
  | EmptyString => (0, false)
  | _ => match ParseUint64 0 s with
         | None => (0, false)
         | Some (v, range) => (v, negb range)
         end
  end.

Definition parseUint (s : string) : Z * bool :=
  let '(v, ok) := ParseUint s in
  if ok : bool then (v, true)
  else let '(intValue, intOk) := ParseInt64 s in
       if (intOk : bool) && (intValue <? 0) then (0, true) else (0, false).

(** ** Lists of processors *)

(** [for i := min; i <= max; i++]; [None] when the rounds do not suffice. *)
Fixpoint range_loop (fuel : nat) (i max : Z) (result : gset Z) : option (gset Z) :=
  if max <? i then Some result
  else match fuel with
       | O => None
       | S fuel' => range_loop fuel' (i +i 1) max ({[i]} ∪ result)
       end.

Definition range_fuel (min max : Z) : nat := Z.to_nat (max - min + 1).

(** A part of the list: a number or a range; [None] is the format error. *)
Definition part_range (part : string) : option (Z * Z) :=
  if negb (has_byte "-" part) then
    let '(num, ok) := ParseInt64 part in if ok : bool then Some (num, num) else None
  else match SplitN "-" part 2 with
       | [a; b] =>
           let '(min, ok1) := ParseInt64 a in
           let '(max, ok2) := ParseInt64 b in
           if (ok1 : bool) && (ok2 : bool) && negb (max <? min) then Some (min, max) else None
       | _ => None
       end.

Inductive list_result := Listed (m : gset Z) | BadFormat | NoEnd.

Fixpoint parse_parts (parts : list string) (result : gset Z) : list_result :=
  match parts with
  | [] => Listed result
  | part :: parts =>
      match part_range part with
      | None => BadFormat
      | Some (min, max) =>
          if has_byte "-" part then
            match range_loop (range_fuel min max) min max result with
            | None => NoEnd
            | Some result => parse_parts parts result
            end
          else parse_parts parts ({[min]} ∪ result)
      end
  end.

Definition ParseUintList (val : string) : list_result :=
  if bool_decide (val = "") then Listed ∅ else parse_parts (Split "," val) ∅.

(** ** The kernel's files *)

(** [strings.Fields]. *)
Fixpoint Fields_from (word : string) (s : string) : list string :=
  match s with
  | EmptyString => if bool_decide (word = "") then [] else [word]
  | String c s' =>
      if is_space c then (if bool_decide (word = "") then [] else [word]) ++ Fields_from "" s'
      else Fields_from (word +:+ String c "") s'
  end.
Definition Fields (s : string) : list string := Fields_from "" s.

Fixpoint count_processors (lines : list string) (processors : gset string) : outcome (gset string) :=
  match lines with
  | [] => Ret processors
  | line :: lines =>
      if String.prefix "processor" line then
        let fields := Fields line in
        if Nat.leb 2 (length fields)
        then match fields !! 2%nat with
             | Some f => count_processors lines ({[f]} ∪ processors)
             | None => Panic "index out of range"
             end
        else count_processors lines processors
      else count_processors lines processors
  end.

(** [lines] is [None] when the file cannot be read; the result is a number or an error. *)
Definition countCPUCores (lines : option (list string)) : outcome (option Z) :=
  match lines with
  | None => Ret None
  | Some lines =>
      let! processors := count_processors lines ∅ in
      Ret (Some (if bool_decide (processors = ∅) then 1 else Z.of_nat (size processors)))
  end.

Inductive quota_result := Quota (q : float64) | QuotaErr.

Definition getCPUQuota (content : option string) (cpuinfo : option (list string)) : outcome quota_result :=
  match content with
  | None => Ret QuotaErr
  | Some content =>
      match Fields content with
      | [f0; f1] =>
          if bool_decide (f0 = "max") then
            let! cores := countCPUCores cpuinfo in
            Ret (Quota (float64_of_int (default 1 cores)))
          else
            let '(quota, ok1) := parseUint f0 in
            let '(period, ok2) := parseUint f1 in
            Ret (if negb ok1 || negb ok2 || (period =? 0) then QuotaErr
                 else Quota (f64_div (float64_of_int quota) (float64_of_int period)))
      | _ => Ret QuotaErr
      end
  end.

(** KHz to Hz. *)
Definition getCPUMaxFreq (content : option string) : Z :=
  match content with
  | None => 0
  | Some c => let '(freq, ok) := parseUint c in if ok : bool then wrapu64 (freq * 1000) else 0
  end.

(** Microseconds to nanoseconds; [None] is an error. *)
Fixpoint usageV2 (lines : list string) : option Z :=
  match lines with
  | [] => None
  | line :: lines =>
      match Fields line with
      | [f0; f1] =>
          if bool_decide (f0 = "usage_usec")
          then let '(value, ok) := ParseUint f1 in if ok : bool then Some (wrapu64 (value * 1000)) else None
          else usageV2 lines
      | _ => usageV2 lines
      end
  end.

(** ** The monitor *)

Record CgroupCPU := MkCgroupCPU {
  lastSampleTime : Z;
  lastUsage : Z;
  cores : Z;
  frequency : Z;
  quota : float64
}.

(** [NewCgroupCPU] once cgroup v2 is known to be there. *)
Definition NewCgroupCPU (cpuinfo : option (list string)) (maxFreq cpuMax : option string) : outcome CgroupCPU :=
  let! cores := countCPUCores cpuinfo in
  let cores := default 1 cores in
  let freq := getCPUMaxFreq maxFreq in
  let! q := getCPUQuota cpuMax cpuinfo in
  Ret (MkCgroupCPU 0 0 cores freq (match q with Quota q => q | QuotaErr => float64_of_int cores end)).

(** [uint64(x)] as amd64 does it: above 2^63 through a subtraction. *)
Definition uint64_of_float (x : float64) : Z :=
  if f64_ltb x (float64_of_int two63) then wrapu64 (int64_of_float x)
  else Z.lxor (wrapu64 (int64_of_float (f64_sub x (float64_of_int two63)))) two63.

(** A sample of the counter at a time; [None] when it cannot be read. *)
Definition Usage (cpuUsage : option Z) (now : Z) (c : CgroupCPU) : CgroupCPU * option Z :=
  match cpuUsage with
  | None => (c, None)
  | Some cpuUsage =>
      let sampled := MkCgroupCPU now cpuUsage (cores c) (frequency c) (quota c) in
      if lastSampleTime c =? 0 then (sampled, Some 0)
      else
        let timeDelta := float64_of_int (now -i lastSampleTime c) in
        if negb (f64_ltb f64_zero timeDelta) then (c, Some 0)
        else
          let usageDelta := wrapu64 (cpuUsage - lastUsage c) in
          let usage := uint64_of_float
                         (f64_mul (f64_mul (f64_div (float64_of_int usageDelta) timeDelta)
                                     (float64_of_int 1000)) (float64_of_int (cores c))) in
          (sampled, Some (if 1000 <? usage then 1000 else usage))
  end.

(** The loop of [init]: a reading of zero, or an error, leaves the statistic. *)
Definition store_usage (usage : Z) (u : option Z) : Z :=
  match u with Some u => if u =? 0 then usage else u | None => usage end.

Fixpoint monitor (samples : list (option Z * Z)) (c : CgroupCPU) (usage : Z) : CgroupCPU * Z :=
  match samples with
  | [] => (c, usage)
  | (s, now) :: samples =>
      let '(c, u) := Usage s now c in monitor samples c (store_usage usage u)
  end.

(** * Lemmas *)

Lemma ParseUint64_bounds acc s v r : 0 ≤ acc < two64 → ParseUint64 acc s = Some (v, r) → 0 ≤ v < two64.
Proof.
  revert acc. induction s as [|c s IH]; intros acc Hacc; simpl; [by intros [= <- <-] |].
  destruct (digit c) as [d|] eqn:Hd; [| done].
  assert (0 ≤ d ≤ 9).
  { unfold digit in Hd. destruct (_ && _) eqn:Hc; [| done]. injection Hd as <-. reflect_tests. lia. }
  destruct (Z.leb_spec two64 (acc * 10 + d)); [intros [= <- <-]; unfold two64 in *; lia |]. apply IH. lia.
Qed.

Lemma ParseInt64_in_int64 s v : ParseInt64 s = (v, true) → in_int64 v.
Proof.
  unfold ParseInt64. destruct (match s with EmptyString => _ | _ => _ end) as [neg body].
  destruct body as [|c b]; [done |].
  destruct (ParseUint64 0 (String c b)) as [[un range]|] eqn:Hp; [| done].
  apply ParseUint64_bounds in Hp; [| unfold two64; lia].
  unfold in_int64, two63, two64 in *. destruct neg; case_match; intros [= <- Hr]; reflect_tests; lia.
Qed.

Lemma part_range_bounds part min max :
  part_range part = Some (min, max) → in_int64 min ∧ in_int64 max ∧ min ≤ max.
Proof.
  unfold part_range. destruct (negb (has_byte "-" part)).
  - destruct (ParseInt64 part) as [num [|]] eqn:Hn; [| done]. intros [= <- <-].
    apply ParseInt64_in_int64 in Hn. split_and!; [done.. | lia].
  - destruct (SplitN "-" part 2) as [|a [|b [|? ?]]]; try done.
    destruct (ParseInt64 a) as [x ok1] eqn:Ha. destruct (ParseInt64 b) as [y ok2] eqn:Hb.
    destruct ok1, ok2; simpl; try done. destruct (Z.ltb_spec y x); [done |]. intros [= <- <-].
    apply ParseInt64_in_int64 in Ha, Hb. done.
Qed.

Lemma part_range_single part min max :
  part_range part = Some (min, max) → has_byte "-" part = false → max = min.
Proof.
  unfold part_range. intros Hp Hb. rewrite Hb in Hp. simpl in Hp.
  destruct (ParseInt64 part) as [num [|]]; [| done]. by injection Hp as <- <-.
Qed.

Lemma range_loop_ends max i result :
  in_int64 i → max < two63 - 1 →
  ∃ m, range_loop (range_fuel i max) i max result = Some m ∧
       ∀ x, x ∈ m ↔ x ∈ result ∨ i ≤ x ≤ max.
Proof.
  intros Hi Hmax. unfold range_fuel. remember (Z.to_nat (max - i + 1)) as fuel eqn:Hf.
  revert i result Hi Hf. induction fuel as [|fuel IH]; intros i result Hi Hf; simpl.
  - destruct (Z.ltb_spec max i); [| lia]. exists result. split; [done |]. intros x.
    split; [by left | intros [? | ?]; [done | lia]].
  - destruct (Z.ltb_spec max i); [lia |].
    rewrite wrap64_id by (unfold in_int64 in *; lia).
    destruct (IH (i + 1) ({[i]} ∪ result)) as (m & -> & Hm); [unfold in_int64 in *; lia | lia |].
    exists m. split; [done |]. intros x. rewrite Hm, elem_of_union, elem_of_singleton.
    split; [intros [[-> | ?] | ?] | intros [? | ?]]; try (by auto); try (right; lia).
    destruct (decide (x = i)); [by auto | right; lia].
Qed.

(** Up to the largest [int] the counter wraps around instead of passing the bound. *)
Lemma range_loop_never fuel i result : in_int64 i → range_loop fuel i (two63 - 1) result = None.
Proof.
  revert i result. induction fuel as [|fuel IH]; intros i result Hi; simpl;
    (destruct (Z.ltb_spec (two63 - 1) i); [unfold in_int64 in Hi; lia |]); [done |].
  apply IH, wrap64_range.
Qed.

(** What the list of parts says, whatever has been collected so far. *)
Definition parts_spec (parts : list string) (result : gset Z) (r : list_result) : Prop :=
  match r with
  | Listed m =>
      (∀ part, part ∈ parts → is_Some (part_range part)) ∧
      ∀ x, x ∈ m ↔ x ∈ result ∨
        ∃ part min max, part ∈ parts ∧ part_range part = Some (min, max) ∧ min ≤ x ≤ max
  | BadFormat => ∃ part, part ∈ parts ∧ part_range part = None
  | NoEnd => ∃ part min, part ∈ parts ∧ part_range part = Some (min, two63 - 1) ∧
             ∀ fuel result, range_loop fuel min (two63 - 1) result = None
  end.

Lemma parts_spec_cons part min max parts result result' r :
  part_range part = Some (min, max) → (∀ x, x ∈ result' ↔ x ∈ result ∨ min ≤ x ≤ max) →
  parts_spec parts result' r → parts_spec (part :: parts) result r.
Proof.
  intros Hp Hr. destruct r as [m | |]; simpl.
  - intros [Hall Hm]. split.
    + intros p [-> | ?]%elem_of_cons; [by eexists | by apply Hall].
    + intros x. rewrite Hm, Hr. split.
      * intros [[? | ?] | (p & lo & hi & ? & ? & ?)]; [by left | right | right].
        -- exists part, min, max. split; [left | by split].
        -- exists p, lo, hi. split; [by right | by split].
      * intros [? | (p & lo & hi & [-> | ?]%elem_of_cons & Hpr & ?)]; [by auto | | right; by eauto 10].
        rewrite Hp in Hpr. injection Hpr as <- <-. by auto.
  - intros (p & ? & ?). exists p. split; [by right | done].
  - intros (p & lo & ? & ?). exists p, lo. split; [by right | done].
Qed.

Lemma parse_parts_spec parts result : parts_spec parts result (parse_parts parts result).
Proof.
  revert result. induction parts as [|part parts IH]; intros result.
  - simpl. split; [by intros p ?%elem_of_nil |]. intros x. split; [by left |].
    intros [? | (p & lo & hi & Hn & _)]; [done | by apply elem_of_nil in Hn].
  - cbn [parse_parts]. destruct (part_range part) as [[min max]|] eqn:Hp.
    2: { exists part. split; [left | done]. }
    destruct (part_range_bounds _ _ _ Hp) as (Hmin & Hmax & Hle).
    destruct (has_byte "-" part) eqn:Hb.
    + destruct (decide (max = two63 - 1)) as [-> | Hne].
      * rewrite range_loop_never by done. exists part, min. split_and!; [left | done |].
        intros fuel r. by apply range_loop_never.
      * destruct (range_loop_ends max min result) as (m & -> & Hm);
          [done | unfold in_int64 in Hmax; lia |]. by eapply parts_spec_cons.
    + pose proof (part_range_single _ _ _ Hp Hb) as ->. eapply parts_spec_cons; [done | | apply IH].
      intros x. rewrite elem_of_union, elem_of_singleton. split; [intros [-> | ?]; [right; lia | by left] |].
      intros [? | ?]; [by right | left; lia].
Qed.

(** * Theorems *)

(** A processor list is parsed as the union of the numbers and ranges between its
    commas; it is an error exactly when one of them is not a number or a range in order;
    and the loop over a range ends unless the range goes up to the largest integer, when
    it never does. *)
Theorem ParseUintList_spec val :
  parts_spec (if bool_decide (val = "") then [] else Split "," val) ∅ (ParseUintList val).
Proof.
  unfold ParseUintList. case_bool_decide.
  - apply (parse_parts_spec [] ∅).
  - apply parse_parts_spec.
Qed.

Definition two_fields (line : string) : bool :=
  String.prefix "processor" line && Nat.eqb (length (Fields line)) 2.

Definition processor_of (line : string) : option string :=
  if String.prefix "processor" line then Fields line !! 2%nat else None.

Lemma count_processors_spec lines processors :
  if existsb two_fields lines then ∃ why, count_processors lines processors = Panic why
  else ∃ m, count_processors lines processors = Ret m ∧
       ∀ x, x ∈ m ↔ x ∈ processors ∨ x ∈ omap processor_of lines.
Proof.
  revert processors. induction lines as [|line lines IH]; intros processors; simpl.
  - exists processors. split; [done |]. intros x. split; [by left | intros [? | ?%elem_of_nil]; done].
  - unfold two_fields at 1, processor_of at 1. destruct (String.prefix "processor" line); simpl; [| apply IH].
    destruct (Fields line) as [|a [|b [|c fs]]]; simpl; try apply IH; [by eexists |].
    specialize (IH ({[c]} ∪ processors)). destruct (existsb two_fields lines); [done |].
    destruct IH as (m & -> & Hm). exists m. split; [done |]. intros x. rewrite Hm. set_solver.
Qed.

(** Counting processors panics exactly when a processor line has two fields, which
    the test of the length lets through; otherwise it is the number of different third
    fields, and at least one. *)
Theorem countCPUCores_spec lines :
  if existsb two_fields lines then ∃ why, countCPUCores (Some lines) = Panic why
  else countCPUCores (Some lines) =
       Ret (Some (Z.max 1 (Z.of_nat (length (remove_dups (omap processor_of lines)))))).
Proof.
  unfold countCPUCores. pose proof (count_processors_spec lines ∅) as Hc.
  destruct (existsb two_fields lines); [destruct Hc as [why ->]; by exists why |].
  destruct Hc as (m & -> & Hm). simpl. do 2 f_equal.
  assert (Hsize : size m = length (remove_dups (omap processor_of lines))).
  { rewrite <- (size_list_to_set (C := gset string)) by apply NoDup_remove_dups. f_equal. apply set_eq. intros x.
    rewrite Hm, elem_of_list_to_set, elem_of_remove_dups. set_solver. }
  rewrite <- Hsize. case_bool_decide as He.
  - subst m. rewrite size_empty. lia.
  - destruct (decide (size m = 0%nat)) as [Hz | Hz]; [by apply size_empty_inv, leibniz_equiv in Hz | lia].
Qed.

Lemma wrapu64_nonneg z : 0 ≤ wrapu64 z.
Proof. by apply Z.mod_pos_bound. Qed.

Lemma uint64_of_float_nonneg x : 0 ≤ uint64_of_float x.
Proof.
  unfold uint64_of_float. case_match; [apply wrapu64_nonneg |].
  apply Z.lxor_nonneg. split; intros _; [done | apply wrapu64_nonneg].
Qed.

Lemma Usage_bounds s now c u : (Usage s now c).2 = Some u → 0 ≤ u ≤ 1000.
Proof.
  unfold Usage. destruct s as [cpuUsage|]; [| done].
  destruct (lastSampleTime c =? 0); [intros [= <-]; lia |].
  destruct (negb _); [intros [= <-]; lia |].
  generalize (f64_mul (f64_mul (f64_div (float64_of_int (wrapu64 (cpuUsage - lastUsage c)))
    (float64_of_int (now -i lastSampleTime c))) (float64_of_int 1000)) (float64_of_int (cores c))).
  intros x. pose proof (uint64_of_float_nonneg x). intros [= <-].
  destruct (Z.ltb_spec 1000 (uint64_of_float x)); lia.
Qed.

(** The usage that is read never exceeds 1000, and once it has been above zero it is
    never zero again, however long the machine is idle: readings of zero are dropped. *)
Theorem monitor_never_idle samples c usage :
  0 ≤ usage ≤ 1000 →
  0 ≤ (monitor samples c usage).2 ≤ 1000 ∧ (0 < usage → 0 < (monitor samples c usage).2).
Proof.
  revert c usage. induction samples as [|[s now] samples IH]; intros c usage Hu; simpl; [done |].
  pose proof (Usage_bounds s now c) as Hb. destruct (Usage s now c) as [c' u]. simpl in Hb.
  assert (Hst : 0 ≤ store_usage usage u ≤ 1000 ∧ (0 < usage → 0 < store_usage usage u)).
  { destruct u as [u|]; simpl; [| done]. specialize (Hb u eq_refl). destruct (Z.eqb_spec u 0); [done | lia]. }
  destruct Hst as [Hst Hpos]. destruct (IH c' _ Hst) as [? Hlast]. auto.
Qed.

Definition demo_cpu : CgroupCPU := MkCgroupCPU 0 0 4 0 (float64_of_int 4).

(** One busy processor of four reads as full usage, and then the machine idles. *)
Lemma monitor_never_idle_witness :
  (monitor [(Some 0, 10 ^ 9); (Some (10 ^ 9), 2 * 10 ^ 9); (Some (10 ^ 9), 3 * 10 ^ 9)] demo_cpu 500).2 = 1000 ∧
  0 ≤ (monitor [(Some 0, 10 ^ 9); (Some (10 ^ 9), 2 * 10 ^ 9); (Some (10 ^ 9), 3 * 10 ^ 9)] demo_cpu 500).2 ≤ 1000.
Proof.
  split; [vm_compute; reflexivity |].
  apply (monitor_never_idle [(Some 0, 10 ^ 9); (Some (10 ^ 9), 2 * 10 ^ 9); (Some (10 ^ 9), 3 * 10 ^ 9)] demo_cpu 500).
  lia.
Defined.

(** ** Without cgroups (psutil.go, cpu.go) *)

Record PsutilCPU := MkPsutil { interval : Z; pcores : Z }.

(** What the library answers: the percentages, or an error. *)
Definition Psutil_Usage (percents : option (list float64)) : option Z :=
  match percents with
  | None => None
  | Some [] => Some 0
  | Some (p :: _) => Some (Z.min (uint64_of_float (f64_mul p (float64_of_int 10))) 1000)
  end.

(** [counts]: the cores that the library counts; the runtime counts when it fails.  The
    usage is read once, and its error is that of the constructor. *)
Definition NewPsutilCPU (counts : option Z) (NumCPU : Z) (percents : option (list float64)) (interval : Z) : option PsutilCPU :=
  match Psutil_Usage percents with
  | None => None
  | Some _ => Some (MkPsutil interval (default NumCPU counts))
  end.

(** [freq]: the frequency in MHz of the first processor, when it is known. *)
Definition Psutil_Info (freq : option float64) (pc : PsutilCPU) : Z * float64 * Z :=
  (default 0 ((λ mhz, uint64_of_float (f64_mul mhz (float64_of_int 1000000))) <$> freq),
   float64_of_int (pcores pc), pcores pc).

(** [newCPUStats]: the cgroup on Linux when it can be read, the library otherwise. *)
Definition newCPUStats (goos : string) (cgroup : option CgroupCPU) (psutil : option PsutilCPU) : option (CgroupCPU + PsutilCPU) :=
  match (if String.eqb goos "linux" then cgroup else None) with
  | Some c => Some (inl c)
  | None => inr <$> psutil
  end.

(** A usage that the library gives is within bounds too, and a negative percentage reads as
    full usage. *)
Theorem psutil_bounds percents u : Psutil_Usage percents = Some u → 0 ≤ u ≤ 1000.
Proof.
  destruct percents as [[|p ps]|]; cbn [Psutil_Usage]; [intros [= <-]; lia | | done].
  generalize (f64_mul p (float64_of_int 10)). intros x H. pose proof (uint64_of_float_nonneg x).
  assert (u = Z.min (uint64_of_float x) 1000) as -> by congruence. lia.
Qed.

Lemma psutil_negative : Psutil_Usage (Some [float64_of_int (-1)]) = Some 1000.
Proof. by vm_compute. Qed.
