(* ===== verification/K8s.v ===== *)
(** * Connections to the pods of a Kubernetes service (discovery/kubernetes)

    The connection manager under its lock.  The API server's answers are arguments of
    the operations that ask for them, connections are those of the etcd pool's network,
    and whether [grpc.DialContext] accepts an address is a parameter. *)

From S2P Require Import Prelude GoStrings EtcdConns.
From Stdlib Require Import Strings.Ascii.

Local Open Scope Z_scope.
Local Open Scope go_scope.

Record addrConn := MkAddrConn { conn : nat; addr : string; isConnected : bool }.

Record ConnManager := MkConnManager {
  dialOptions : list opt;
  watchNames : list string;
  connsMap : gmap string (list addrConn)
}.

Definition NewConnManager (options : list opt) (names : list string) : ConnManager :=
  MkConnManager options names ∅.

Definition GRPCName : string := "grpc".

(** [v1.Endpoints]: the subsets, with their addresses and their named ports. *)
Record EndpointSubset := MkSubset { Addresses : list string; Ports : list (string * Z) }.

(** The addresses that [initializeConns] goes through. *)
Definition grpc_addrs (subsets : list EndpointSubset) : list string :=
  subset ← subsets; ip ← Addresses subset; '(name, port) ← Ports subset;
  if bool_decide (name = GRPCName) then [ip +:+ ":" +:+ Itoa port] else [].

Definition set_map (m : gmap string (list addrConn)) (k : ConnManager) : ConnManager :=
  MkConnManager (dialOptions k) (watchNames k) m.

Section manager.
Context (can_dial : string → bool).

(** The option of [insecure] credentials that is always appended. *)
Context (insecure : opt).

(** [conn.Close]. *)
Definition Close_conn (c : nat) (n : net) : net := MkNet (conns n) (open n ∖ {[c]}) (closing n) (next n).

(** The old connections by address: an address leads to its last position. *)
Definition addr_map (old : list addrConn) : gmap string nat :=
  fold_left (λ m '(i, ac), <[addr ac := i]> m) (imap pair old) ∅.

Definition connected (b : bool) (ac : addrConn) : addrConn := MkAddrConn (conn ac) (addr ac) b.

(** The loop over the endpoints: old connections are marked, new ones dialled. *)
Fixpoint dial_loop (opts : list opt) (addrs : list string) (am : gmap string nat)
    (old new : list addrConn) (n : net) : list addrConn * list addrConn * net :=
  match addrs with
  | [] => (old, new, n)
  | a :: addrs =>
      match am !! a with
      | Some i => dial_loop opts addrs am (alter (connected true) i old) new n
      | None =>
          match NewClient can_dial a opts n with
          | (n, Some c) => dial_loop opts addrs am old (new ++ [MkAddrConn c a false]) n
          | (n, None) => dial_loop opts addrs am old new n
          end
      end
  end.

(** The old connections that are kept, and the others closed. *)
Fixpoint keep_loop (old new : list addrConn) (n : net) : list addrConn * net :=
  match old with
  | [] => (new, n)
  | ac :: old =>
      if isConnected ac then keep_loop old (new ++ [connected false ac]) n
      else keep_loop old new (Close_conn (conn ac) n)
  end.

(** [initializeConns] with the endpoints of the service, [None] being the error of the
    API server; [checkOpts] never fails. *)
Definition initializeConns (serviceName : string) (opts : list opt) (eps : option (list EndpointSubset))
    (kn : ConnManager * net) : ConnManager * net * bool :=
  let '(k, n) := kn in
  let oldList := default [] (connsMap k !! serviceName) in
  match eps with
  | None => (k, n, false)
  | Some subsets =>
      let '(old, new, n) := dial_loop (dialOptions k ++ opts ++ [insecure]) (grpc_addrs subsets)
                              (addr_map oldList) oldList [] n in
      let '(newList, n) := keep_loop old new n in
      (set_map (<[serviceName := newList]> (connsMap k)) k, n, true)
  end.

(** [GetConns]; [None] is an error. *)
Definition GetConns (serviceName : string) (opts : list opt) (eps : option (list EndpointSubset))
    (kn : ConnManager * net) : ConnManager * net * option (list nat) :=
  let read (k : ConnManager) := conn <$> default [] (connsMap k !! serviceName) in
  if Nat.eqb (size (connsMap kn.1)) 0 then
    match initializeConns serviceName opts eps kn with
    | (k, n, true) => (k, n, Some (read k))
    | (k, n, false) => (k, n, None)
    end
  else (kn, Some (read kn.1)).

Definition handleEndpointChange (serviceName : string) (eps : option (list EndpointSubset))
    (kn : ConnManager * net) : ConnManager * net :=
  if bool_decide (serviceName ∈ watchNames kn.1) then (initializeConns serviceName [] eps kn).1 else kn.

Definition resetConnMap `{MR : !MapRange} (kn : ConnManager * net) : ConnManager * net :=
  let '(k, n) := kn in
  (set_map ∅ k, fold_left (λ n ac, Close_conn (conn ac) n) (mjoin (range_map (connsMap k)).*2) n).

Definition AddOption `{MR : !MapRange} (opts : list opt) (kn : ConnManager * net) : ConnManager * net :=
  let '(k, n) := resetConnMap kn in
  (MkConnManager (dialOptions k ++ opts) (watchNames k) (connsMap k), n).

Definition Close `{MR : !MapRange} (kn : ConnManager * net) : ConnManager * net := resetConnMap kn.

(** ** The node's own address *)

Record Pod := MkPod { Containers : list (list (string * Z)); PodIP : string }.

(** The port named grpc, or the last one. *)
Fixpoint container_port (ports : list (string * Z)) (elsePort : Z) : Z * Z :=
  match ports with
  | [] => (0, elsePort)
  | (name, port) :: ports => if bool_decide (name = GRPCName) then (port, elsePort) else container_port ports port
  end.

(** [GetSelfConnTarget] with the answers of up to five attempts: the target, kept. *)
Definition GetSelfConnTarget (attempts : list (option Pod)) (selfTarget : string) : outcome string :=
  if negb (bool_decide (selfTarget = "")) then Ret selfTarget
  else match omap id (take 5 attempts) with
       | [] => Ret ""
       | pod :: _ =>
           match Containers pod with
           | [] => Panic "index out of range"
           | ports :: _ =>
               let '(selfPort, elsePort) := container_port ports 0 in
               Ret (PodIP pod +:+ ":" +:+ Itoa (if selfPort =? 0 then elsePort else selfPort))
           end
       end.

Definition getServicePort (ports : list (string * Z)) : Z :=
  default 0 (snd <$> list_find (λ p, p.1 = GRPCName) ports ≫= λ ip, Some ip.2).

(** ** The manager in use *)

Inductive k8s_op :=
| OpGetConns (serviceName : string) (opts : list opt) (eps : option (list EndpointSubset))
| OpChange (serviceName : string) (eps : option (list EndpointSubset))
| OpAddOption (opts : list opt)
| OpClose.

Definition k8s_exec `{MR : !MapRange} (kn : ConnManager * net) (o : k8s_op) : ConnManager * net :=
  match o with
  | OpGetConns sv opts eps => (GetConns sv opts eps kn).1
  | OpChange sv eps => handleEndpointChange sv eps kn
  | OpAddOption opts => AddOption opts kn
  | OpClose => Close kn
  end.
Definition k8s_run `{MR : !MapRange} (os : list k8s_op) (kn : ConnManager * net) : ConnManager * net :=
  fold_left k8s_exec os kn.

(** * Lemmas *)

(** ** The two loops of [initializeConns] *)

(** The old connection at [i] is met by the loop. *)
Definition met (am : gmap string nat) (addrs : list string) (i : nat) : bool :=
  bool_decide (i ∈ omap (am !!.) addrs).

Lemma alter_imap (f : nat → bool) j (l : list addrConn) :
  imap (λ i ac, connected (isConnected ac || f i) ac) (alter (connected true) j l)
  = imap (λ i ac, connected (isConnected ac || (bool_decide (i = j) || f i)) ac) l.
Proof.
  apply list_eq. intros i. rewrite !list_lookup_imap.
  destruct (decide (i = j)) as [-> | Hij].
  - rewrite list_lookup_alter_eq. destruct (l !! j); simpl; [| done]. by rewrite bool_decide_true, orb_true_r.
  - rewrite list_lookup_alter_ne by done. by rewrite bool_decide_false.
Qed.

Lemma dial_loop_spec opts addrs am old new n old' new' n' :
  net_ok n → dial_loop opts addrs am old new n = (old', new', n') →
  old' = imap (λ i ac, connected (isConnected ac || met am addrs i) ac) old ∧
  ∃ fresh added, net_grows opts fresh n n' ∧ new' = new ++ added ∧ fresh ≡ₚ conn <$> added ∧
    addr <$> added = filter (λ a, am !! a = None ∧ can_dial a = true) addrs ∧
    (∀ ac, ac ∈ added → isConnected ac = false ∧ target n' (conn ac) = addr ac).
Proof.
  revert old new n. induction addrs as [|a addrs IH]; intros old new n Hn; cbn [dial_loop].
  { intros [= <- <- <-]. split.
    - symmetry. trans (imap (const id) old); [| by rewrite imap_const, list_fmap_id]. apply imap_ext. intros i [c a b] _.
      by destruct b.
    - exists [], []. rewrite app_nil_r. split_and!; try done; [by apply net_grows_refl |].
      intros ac H. by apply elem_of_nil in H. }
  destruct (am !! a) as [j|] eqn:Ha.
  - intros [-> (fresh & added & Hg & -> & Hp & Hf & Hin)]%IH; [| done]. split.
    + rewrite alter_imap. apply imap_ext. intros i ac _. do 2 f_equal. unfold met. simpl. rewrite Ha.
      repeat case_bool_decide; simpl; set_solver.
    + exists fresh, added. split_and!; try done. rewrite filter_cons_False; [done |]. rewrite Ha. by intros [? _].
  - destruct (NewClient can_dial a opts n) as [n1 oc] eqn:Hnew.
    destruct (NewClient_grows _ _ _ _ _ _ Hn Hnew) as [Hg1 Ht1].
    assert (Hm : ∀ i, met am (a :: addrs) i = met am addrs i) by (intros i; unfold met; simpl; by rewrite Ha).
    assert (Hd : oc = if can_dial a then Some (next n) else None)
      by (unfold NewClient in Hnew; case_match; by injection Hnew).
    intros Hl. destruct oc as [c|]; destruct (can_dial a) eqn:Hcan; try done.
    all: apply IH in Hl as [-> (fresh & added & Hg & -> & Hp & Hf & Hin)]; [| apply Hg1].
    all: split; [apply imap_ext; intros i ac _; by rewrite Hm |].
    + exists (fresh ++ [c]), (MkAddrConn c a false :: added). split_and!.
      * by eapply net_grows_trans.
      * by rewrite <- (assoc_L (++)).
      * simpl. rewrite Hp. solve_Permutation.
      * rewrite filter_cons_True by done. simpl. by f_equal.
      * intros ac [-> | Hac]%elem_of_cons; [| by apply Hin]. split; [done |]. simpl.
        rewrite (target_grows n1 n'); [by apply Ht1 | apply Hg |].
        destruct (grows_opts _ _ _ _ Hg1 c) as (x & ? & _); [by left | by exists x].
    + exists fresh, added. split_and!; try done.
      * rewrite <- (app_nil_r fresh). by eapply net_grows_trans.
      * rewrite filter_cons_False; [done |]. rewrite Hcan. by intros [_ ?].
Qed.

Lemma keep_loop_spec old new n :
  keep_loop old new n =
  (new ++ (connected false <$> filter (λ ac, isConnected ac = true) old),
   MkNet (conns n) (open n ∖ list_to_set (conn <$> filter (λ ac, isConnected ac = false) old)) (closing n) (next n)).
Proof.
  revert new n. induction old as [|ac old IH]; intros new n; cbn [keep_loop].
  { rewrite app_nil_r. f_equal. simpl. rewrite difference_empty_L. by destruct n. }
  destruct (isConnected ac) eqn:Hac.
  - rewrite IH, filter_cons_True, filter_cons_False by congruence. simpl. by rewrite <- (assoc_L (++)).
  - rewrite IH, filter_cons_False, filter_cons_True by congruence. f_equal. simpl. f_equal.
    by rewrite difference_difference_l_L.
Qed.

(** ** The old connections by address *)

Lemma addr_map_app old ac : addr_map (old ++ [ac]) = <[addr ac := length old]> (addr_map old).
Proof. unfold addr_map. rewrite imap_app, fold_left_app. simpl. by rewrite Nat.add_0_r. Qed.

(** An address leads to the last connection that has it. *)
Lemma addr_map_Some old a i :
  addr_map old !! a = Some i ↔
  (∃ ac, old !! i = Some ac ∧ addr ac = a) ∧ ∀ j ac, old !! j = Some ac → addr ac = a → (j ≤ i)%nat.
Proof.
  induction old as [|ac old IH] using rev_ind.
  { unfold addr_map. simpl. rewrite lookup_empty. split; [done |]. intros [(ac & [=] & _) _]. }
  rewrite addr_map_app. destruct (decide (addr ac = a)) as [Ha | Ha].
  - subst a. rewrite lookup_insert_eq. split.
    + intros [= <-]. split; [exists ac; by rewrite list_lookup_middle |].
      intros j ac' Hj%lookup_lt_Some _. rewrite length_app in Hj. simpl in Hj. lia.
    + intros [(ac' & Hi%lookup_lt_Some & _) Hmax]. f_equal. rewrite length_app in Hi. simpl in Hi.
      specialize (Hmax (length old) ac). rewrite list_lookup_middle in Hmax by done. specialize (Hmax eq_refl eq_refl). lia.
  - rewrite lookup_insert_ne by done. rewrite IH.
    assert (Hiff : ∀ j ac', addr ac' = a → (old ++ [ac]) !! j = Some ac' ↔ old !! j = Some ac').
    { intros j ac' Ha'. rewrite lookup_snoc_Some. split; [intros [[_ ?] | [_ ?]]; [done | by subst] |].
      intros H. left. split; [by eapply lookup_lt_Some | done]. }
    split; intros [(ac' & Hi & Ha') Hmax]; (split; [exists ac'; split; [by apply Hiff | done] |]);
      intros j ac'' Hj Hja; eapply Hmax; try done; by apply Hiff.
Qed.

Lemma addr_map_None old a : addr_map old !! a = None ↔ a ∉ addr <$> old.
Proof.
  induction old as [|ac old IH] using rev_ind; [split; [intros _; apply not_elem_of_nil | done] |].
  rewrite addr_map_app, lookup_insert_None, IH, fmap_app, not_elem_of_app.
  change (addr <$> [ac]) with [addr ac]. rewrite list_elem_of_singleton. naive_solver.
Qed.

(** ** The open connections *)

Lemma elements_difference_list (X : gset nat) l r :
  elements X ≡ₚ l ++ r → elements (X ∖ list_to_set l) ≡ₚ r.
Proof.
  intros HX. pose proof (NoDup_elements X) as Hnd. rewrite HX in Hnd. apply NoDup_app in Hnd as (_ & Hd & Hr).
  apply NoDup_Permutation; [apply NoDup_elements | done |].
  intros x. rewrite elem_of_elements, elem_of_difference, elem_of_list_to_set, <- elem_of_elements, HX, elem_of_app.
  split; [tauto |]. intros Hx. split; [by right |]. intros Hl. by apply (Hd x).
Qed.

(** The connections of the manager. *)
Definition held (k : ConnManager) : list nat := conn <$> mjoin (map_to_list (connsMap k)).*2.

(** A connection of a list: unmarked between two calls, and to the address noted. *)
Definition idle (n : net) (ac : addrConn) : Prop := isConnected ac = false ∧ target n (conn ac) = addr ac.

Record k8s_inv (k : ConnManager) (n : net) : Prop := {
  ki_net : net_ok n;
  ki_held : held k ≡ₚ elements (open n);
  ki_idle : ∀ sv l, connsMap k !! sv = Some l → Forall (idle n) l
}.

Lemma held_split k sv l :
  ∃ rest, held k ≡ₚ (conn <$> default [] (connsMap k !! sv)) ++ rest ∧
          held (set_map (<[sv := l]> (connsMap k)) k) ≡ₚ (conn <$> l) ++ rest.
Proof.
  destruct (join_map_insert (connsMap k) sv l) as (rest & Hm & Hm'). exists (conn <$> rest).
  unfold held. simpl. by rewrite Hm, Hm', !fmap_app.
Qed.

Lemma held_known k n sv ac :
  k8s_inv k n → ac ∈ default [] (connsMap k !! sv) → conn ac ∈ open n ∧ is_Some (conns n !! conn ac).
Proof.
  intros [[Ho Hk] Hh _] Hac. destruct (held_split k sv []) as (rest & Hm & _).
  assert (conn ac ∈ open n) as Hc; [| split; [done | by apply Hk, Ho]].
  rewrite <- elem_of_elements, <- Hh, Hm, elem_of_app. left. by apply list_elem_of_fmap_2.
Qed.

Lemma idle_list k n sv : k8s_inv k n → Forall (idle n) (default [] (connsMap k !! sv)).
Proof. intros Hi. destruct (connsMap k !! sv) eqn:Hk; [by eapply ki_idle | constructor]. Qed.

(** ** Initialising one service *)

(** The connections that survive: the last of its address, if the address is listed. *)
Definition kept (addrs : list string) (old : list addrConn) : list addrConn :=
  filter (λ ac, isConnected ac = true) (imap (λ i ac, connected (met (addr_map old) addrs i) ac) old).

Lemma met_last addrs old i ac :
  old !! i = Some ac →
  met (addr_map old) addrs i = true ↔
  addr ac ∈ addrs ∧ ∀ j ac', old !! j = Some ac' → addr ac' = addr ac → (j ≤ i)%nat.
Proof.
  intros Hi. unfold met. rewrite bool_decide_eq_true, list_elem_of_omap. split.
  - intros (a & Ha & [(ac' & Hi' & <-) Hmax]%addr_map_Some). simplify_eq. done.
  - intros [Ha Hmax]. exists (addr ac). split; [done |]. apply addr_map_Some. split; [by exists ac | done].
Qed.

(** The last connection to an address. *)
Definition last_of (old : list addrConn) (ac : addrConn) : Prop :=
  ∃ i, old !! i = Some ac ∧ ∀ j ac', old !! j = Some ac' → addr ac' = addr ac → (j ≤ i)%nat.

Lemma elem_of_kept addrs old ac :
  Forall (λ ac, isConnected ac = false) old →
  ac ∈ connected false <$> kept addrs old ↔ addr ac ∈ addrs ∧ last_of old ac.
Proof.
  intros Hold. unfold kept. rewrite list_elem_of_fmap. split.
  - intros (ac' & -> & [Hc Hin]%list_elem_of_filter). apply list_elem_of_lookup in Hin as [i Hi].
    rewrite list_lookup_imap in Hi. apply fmap_Some in Hi as (x & Hx & ->).
    apply (met_last addrs old i x Hx) in Hc as [Ha Hmax].
    pose proof (Forall_lookup_1 _ _ _ _ Hold Hx) as Hf. destruct x as [c a b]. simpl in *. subst b.
    split; [done |]. by exists i.
  - intros [Ha (i & Hi & Hmax)]. exists (connected true ac).
    pose proof (Forall_lookup_1 _ _ _ _ Hold Hi) as Hf. split; [by destruct ac; simpl in *; subst |].
    apply list_elem_of_filter. split; [done |]. apply list_elem_of_lookup. exists i.
    rewrite list_lookup_imap, Hi. simpl. f_equal. f_equal. by apply (met_last addrs old i ac Hi).
Qed.

(** The connections that are closed. *)
Definition dropped (addrs : list string) (old : list addrConn) : list addrConn :=
  filter (λ ac, isConnected ac = false) (imap (λ i ac, connected (met (addr_map old) addrs i) ac) old).

Lemma kept_dropped addrs old :
  conn <$> old ≡ₚ (conn <$> dropped addrs old) ++ (conn <$> kept addrs old).
Proof.
  unfold kept, dropped. set (l := imap _ old).
  assert (conn <$> old = conn <$> l) as ->.
  { apply list_eq. intros i. unfold l. rewrite !list_lookup_fmap, list_lookup_imap. by destruct (old !! i). }
  clearbody l. induction l as [|ac l IH]; [done |].
  rewrite !filter_cons, fmap_cons, IH. repeat case_decide; simpl; try (destruct (isConnected ac); done); solve_Permutation.
Qed.

Lemma initializeConns_ok sv opts subsets k n k' n' b :
  k8s_inv k n → initializeConns sv opts (Some subsets) (k, n) = (k', n', b) →
  let addrs := grpc_addrs subsets in
  let old := default [] (connsMap k !! sv) in
  ∃ added, b = true ∧
    k' = set_map (<[sv := added ++ (connected false <$> kept addrs old)]> (connsMap k)) k ∧
    addr <$> added = filter (λ a, a ∉ addr <$> old ∧ can_dial a = true) addrs ∧
    (∀ c, c ∈ conn <$> added → ∃ x, conns n' !! c = Some x ∧ Opts x = dialOptions k ++ opts ++ [insecure]) ∧
    k8s_inv k' n'.
Proof.
  intros Hinv. cbn [initializeConns]. cbv zeta. set (addrs := grpc_addrs subsets).
  set (old := default [] (connsMap k !! sv)).
  destruct (dial_loop _ _ _ _ _ _) as [[old1 new1] n1] eqn:Hl.
  rewrite keep_loop_spec. intros [= <- <- <-].
  pose proof Hinv as [Hok Hh Hid].
  apply dial_loop_spec in Hl as [-> (fresh & added & Hg & -> & Hp & Hf & Hin)]; [| done].
  pose proof (idle_list k n sv Hinv) as Hio. fold old in Hio. simpl.
  assert (Hold : imap (λ i ac, connected (isConnected ac || met (addr_map old) addrs i) ac) old
               = imap (λ i ac, connected (met (addr_map old) addrs i) ac) old).
  { apply imap_ext. intros i ac Hi. by destruct (Forall_lookup_1 _ _ _ _ Hio Hi) as [-> _]. }
  rewrite Hold. change (filter (λ ac, isConnected ac = true) _) with (kept addrs old).
  change (filter (λ ac, isConnected ac = false) _) with (dropped addrs old).
  exists added. split_and!; try done.
  - rewrite Hf. apply list_filter_iff. intros a. by rewrite addr_map_None.
  - intros c Hc. rewrite <- Hp in Hc. by apply (grows_opts _ _ _ _ Hg).
  - destruct Hg as [Hc1 Ho1 _ Hx1 [Hb1 Hk1]].
    destruct (held_split k sv (added ++ (connected false <$> kept addrs old))) as (rest & Hm & Hm').
    split; simpl.
    + split; simpl; [| done]. intros c [? _]%elem_of_difference. by apply Hb1.
    + rewrite Hm'. symmetry. apply elements_difference_list.
      rewrite Ho1, <- Hh, Hm. fold old. rewrite (kept_dropped addrs old), Hp, fmap_app, <- list_fmap_compose.
      change (conn ∘ connected false) with conn. solve_Permutation.
    + assert (Hw : ∀ ac, is_Some (conns n !! conn ac) → idle n ac → idle n1 ac).
      { intros ac Hac [Hi1 Hi2]. split; [done |]. by rewrite (target_grows n n1). }
      intros sv' l. rewrite lookup_insert_Some. intros [[<- <-] | [Hne Hl]]; apply Forall_forall; intros ac Hac.
      * apply elem_of_app in Hac as [Hac | Hac]; [by apply Hin |].
        apply elem_of_kept in Hac as [_ (i & Hi & _)].
        2: { eapply Forall_impl; [exact Hio |]. by intros ? [? _]. }
        apply list_elem_of_lookup_2 in Hi. change (idle n1 ac). apply Hw; [by eapply held_known |].
        by eapply Forall_forall in Hio.
      * change (idle n1 ac). apply Hw; [| by eapply Forall_forall in Hac; [| by eapply Hid]].
        eapply (held_known k n sv'); [done |]. by rewrite Hl.
Qed.

Lemma fold_close l n :
  fold_left (λ n ac, Close_conn (conn ac) n) l n
  = MkNet (conns n) (open n ∖ list_to_set (conn <$> l)) (closing n) (next n).
Proof.
  revert n. induction l as [|ac l IH]; intros n; simpl; [rewrite difference_empty_L; by destruct n |].
  rewrite IH. simpl. by rewrite difference_difference_l_L.
Qed.

Lemma k8s_inv_empty k n : net_ok n → connsMap k = ∅ → open n = ∅ → k8s_inv k n.
Proof.
  intros Hok Hm Ho. split; [done | |].
  - unfold held. by rewrite Hm, Ho, map_to_list_empty, elements_empty.
  - intros sv l. by rewrite Hm, lookup_empty.
Qed.

Lemma resetConnMap_open `{MR : !MapRange} k n k' n' :
  k8s_inv k n → resetConnMap (k, n) = (k', n') →
  open n' = ∅ ∧ connsMap k' = ∅ ∧ dialOptions k' = dialOptions k ∧ net_ok n'.
Proof.
  intros [[Hb Hk] Hh _] [= <- <-]. rewrite fold_close. simpl.
  assert (open n ∖ list_to_set (conn <$> mjoin (range_map (connsMap k)).*2) = ∅) as ->.
  { apply leibniz_equiv, elements_empty_iff, Permutation_nil. symmetry. apply elements_difference_list.
    rewrite app_nil_r, <- Hh. unfold held. by rewrite (range_map_perm (connsMap k)). }
  split_and!; done || (split; simpl; [set_solver | done]).
Qed.

Lemma initializeConns_inv sv opts eps kn :
  k8s_inv kn.1 kn.2 → let r := (initializeConns sv opts eps kn).1 in k8s_inv r.1 r.2.
Proof.
  destruct kn as [k n]. intros Hinv. destruct eps as [subsets|]; [| done].
  destruct (initializeConns sv opts (Some subsets) (k, n)) as [[k' n'] b] eqn:Hi.
  by destruct (initializeConns_ok sv opts subsets k n k' n' b Hinv Hi) as (_ & _ & _ & _ & _ & ?).
Qed.

Lemma k8s_exec_inv `{MR : !MapRange} kn o :
  k8s_inv kn.1 kn.2 → k8s_inv (k8s_exec kn o).1 (k8s_exec kn o).2.
Proof.
  intros Hinv. destruct o as [sv opts eps | sv eps | opts | ]; cbn [k8s_exec].
  - unfold GetConns. case_match; [| done].
    pose proof (initializeConns_inv sv opts eps kn Hinv) as Hi.
    destruct (initializeConns sv opts eps kn) as [[k n] []]; exact Hi.
  - unfold handleEndpointChange. case_match; [by apply initializeConns_inv | done].
  - destruct kn as [k n]. unfold AddOption. destruct (resetConnMap (k, n)) as [k' n'] eqn:Hr.
    destruct (resetConnMap_open _ _ _ _ Hinv Hr) as (? & ? & _ & ?). by apply k8s_inv_empty.
  - destruct kn as [k n]. unfold Close. destruct (resetConnMap (k, n)) as [k' n'] eqn:Hr.
    destruct (resetConnMap_open _ _ _ _ Hinv Hr) as (? & ? & _ & ?). by apply k8s_inv_empty.
Qed.

Lemma k8s_run_inv `{MR : !MapRange} options names os :
  let kn := k8s_run os (NewConnManager options names, newNet) in k8s_inv kn.1 kn.2.
Proof.
  unfold k8s_run. assert (H0 : k8s_inv (NewConnManager options names) newNet).
  { apply k8s_inv_empty; [| done | done]. split; simpl; [set_solver |].
    intros c. rewrite lookup_empty. split; [by intros [] | lia]. }
  revert H0. change newNet with (NewConnManager options names, newNet).2 at 1.
  change (NewConnManager options names) with (NewConnManager options names, newNet).1 at 1.
  generalize (NewConnManager options names, newNet). induction os as [|o os IH]; intros kn Hkn; [done |].
  simpl. by apply IH, k8s_exec_inv.
Qed.

(** * Theorems *)

(** However readings, endpoint changes, new options and closings follow each other,
    every open connection to a pod is in exactly one list of the manager and to the
    address noted there, and only open ones are: none is leaked, and none that was closed
    is handed out.  Changing the options and closing leave no connection open. *)
Theorem k8s_connections_owned `{MR : !MapRange} options names os :
  let kn := k8s_run os (NewConnManager options names, newNet) in
  held kn.1 ≡ₚ elements (open kn.2) ∧
  (∀ sv ac, ac ∈ default [] (connsMap kn.1 !! sv) →
     conn ac ∈ open kn.2 ∧ target kn.2 (conn ac) = addr ac ∧ isConnected ac = false) ∧
  (∀ opts, open (AddOption opts kn).2 = ∅) ∧ open (Close kn).2 = ∅.
Proof.
  intros kn. pose proof (k8s_run_inv options names os) as Hinv. fold kn in Hinv.
  cbv zeta in Hinv. split_and!; [apply Hinv | | |].
  - intros sv ac Hac. destruct (held_known _ _ _ _ Hinv Hac) as [? _].
    pose proof (idle_list _ _ sv Hinv) as Hi. rewrite Forall_forall in Hi. by destruct (Hi ac Hac).
  - intros opts. destruct kn as [k n]. unfold AddOption. destruct (resetConnMap (k, n)) as [k' n'] eqn:Hr.
    by destruct (resetConnMap_open _ _ _ _ Hinv Hr).
  - destruct kn as [k n]. unfold Close. destruct (resetConnMap (k, n)) as [k' n'] eqn:Hr.
    by destruct (resetConnMap_open _ _ _ _ Hinv Hr).
Qed.

(** Initialising a service, in any reachable state, when the API server answers: the
    listed addresses without a connection are dialled, those that can be, with all the
    options; of the old connections exactly those stay whose address is listed and that
    are the last of their address, the others are closed.  When the API server does not
    answer nothing changes, and [GetConns] of a service does not ask it while another
    service has an entry: it answers with no connection. *)
Theorem initializeConns_spec `{MR : !MapRange} options names os sv opts subsets k' n' b :
  let kn := k8s_run os (NewConnManager options names, newNet) in
  initializeConns sv opts (Some subsets) kn = (k', n', b) →
  let addrs := grpc_addrs subsets in
  let old := default [] (connsMap kn.1 !! sv) in
  let new := default [] (connsMap k' !! sv) in
  b = true ∧
  (∃ added stay, new = added ++ stay ∧
     addr <$> added = filter (λ a, a ∉ addr <$> old ∧ can_dial a = true) addrs ∧
     (∀ c, c ∈ conn <$> added → ∃ x, conns n' !! c = Some x ∧ Opts x = dialOptions kn.1 ++ opts ++ [insecure]) ∧
     (∀ ac, ac ∈ stay ↔ addr ac ∈ addrs ∧ last_of old ac)) ∧
  (∀ sv', sv' ≠ sv → connsMap k' !! sv' = connsMap kn.1 !! sv') ∧
  (∀ c, c ∈ open n' ↔ c ∈ held k') ∧
  initializeConns sv opts None kn = (kn, false) ∧
  (∀ sv' eps, sv' ≠ sv → connsMap k' !! sv' = None → GetConns sv' opts eps (k', n') = ((k', n'), Some [])).
Proof.
  intros kn. pose proof (k8s_run_inv options names os) as Hinv. fold kn in Hinv. cbv zeta in Hinv.
  clearbody kn. destruct kn as [k n]. cbv zeta. simpl fst. simpl snd in Hinv. simpl fst in Hinv. intros Hi.
  destruct (initializeConns_ok sv opts subsets k n k' n' b Hinv Hi) as (added & -> & -> & Hf & Hx & Hinv').
  set (old := default [] (connsMap k !! sv)) in *.
  split_and!; [done | | | | done |].
  - simpl. rewrite lookup_insert_eq. simpl. eexists added, _. split_and!; [done.. |].
    intros ac. apply elem_of_kept. eapply Forall_impl; [by apply (idle_list k n sv) |]. by intros ? [? _].
  - intros sv' Hne. simpl. by rewrite lookup_insert_ne.
  - intros c. by rewrite (ki_held _ _ Hinv'), elem_of_elements.
  - intros sv' eps Hne Hnone. unfold GetConns. simpl fst. rewrite Hnone.
    destruct (Nat.eqb _ 0) eqn:Hs; [| done]. apply Nat.eqb_eq, map_size_empty_inv in Hs.
    simpl in Hs. by apply insert_non_empty in Hs.
Qed.

End manager.

Definition demo_subsets : list EndpointSubset :=
  [MkSubset ["10.0.0.2"; "10.0.0.3"] [("http", 80); ("grpc", 9000)]].

Definition demo_k8s : ConnManager * net :=
  k8s_run (λ _, true) 7%nat
    [OpGetConns "user" [] (Some [MkSubset ["10.0.0.1"; "10.0.0.2"] [("grpc", 9000)]])]
    (NewConnManager [1%nat] ["user"], newNet).

Lemma initializeConns_spec_witness :
  let r := initializeConns (λ _, true) 7%nat "user" [2%nat] (Some demo_subsets) demo_k8s in
  r.2 = true ∧ conn <$> default [] (connsMap r.1.1 !! "user") = [2%nat; 1%nat] ∧
  addr <$> default [] (connsMap r.1.1 !! "user") = ["10.0.0.3:9000"; "10.0.0.2:9000"] ∧
  GetConns (λ _, true) 7%nat "msg" [2%nat] (Some demo_subsets) r.1 = (r.1, Some []).
Proof.
  split_and!; [vm_compute; reflexivity.. |].
  edestruct (initializeConns_spec (λ _, true) 7%nat [1%nat] ["user"]
    [OpGetConns "user" [] (Some [MkSubset ["10.0.0.1"; "10.0.0.2"] [("grpc", 9000)]])]
    "user" [2%nat] demo_subsets) as (_ & _ & _ & _ & _ & H); [vm_compute; reflexivity |].
  apply (H "msg" (Some demo_subsets)); [done | vm_compute; reflexivity].
Defined.
