(* ===== verification/Rpc.v ===== *)
(** * The interceptors of calls (mw, mw/grpc, mw/specialerror, checker)

    What a client's context becomes in the server's, what an error of the server's
    handler becomes at the client, in both generations of interceptors.  A handler
    returns its two results or panics; the response has any type, nil being [None].
    Errors are allocated at the addresses [a], [S a], ... of each call; logging is left
    out.  gRPC's metadata and statuses are classes with the laws of its documentation. *)

From S2P Require Import Prelude GoStrings Errs Mcontext.
From Stdlib Require Import Strings.Ascii.

Local Open Scope Z_scope.
Local Open Scope go_scope.

(** ** What the package uses of gRPC *)

(** Package metadata: a key is folded to lower case by both operations. *)
Class Metadata := {
  MD : Type;
  md_empty : MD;
  Set_ : string → list string → MD → MD;
  Get : string → MD → list string;
  lower : string → string
}.

Class MetadataLaws `{!Metadata} := {
  Get_empty k : Get k md_empty = [];
  Get_Set k k' vs md : vs ≠ [] → Get k (Set_ k' vs md) = if decide (lower k = lower k') then vs else Get k md
}.

(** Packages status and codes, and the delivery of a server's error to the client. *)
Class Grpc := {
  status_New : Z → string → Status;
  status_Err : nat → Status → option goerr;
  status_text : Status → string;
  WithDetails : Status → ErrorInfo → Status + goerr;
  utf8 : string → bool;
  deliver : option goerr → option goerr
}.

Class GrpcLaws `{!Grpc} := {
  status_New_eq c m : status_New c m = MkStatus c m [];
  status_Err_eq a s : status_Err a s = if StatusCode s =? 0 then None else Some (Errs.Grpc a s);
  WithDetails_ok s i : StatusCode s ≠ 0 → utf8 (Cause i) = true → Warp i = [] →
    WithDetails s i = inl (MkStatus (StatusCode s) (Message s) (Details s ++ [Some i]));
  WithDetails_OK s i : StatusCode s = 0 → ∃ e, WithDetails s i = inr e;
  deliver_nil : deliver None = None;
  deliver_status a s : StatusCode s ≠ 0 → utf8 (Message s) = true → Forall (λ i, ∃ x, i = Some x ∧ utf8 (Cause x) = true) (Details s) →
    ∃ a', deliver (Some (Errs.Grpc a s)) = Some (Errs.Grpc a' s)
}.

Definition InvalidArgument : Z := 3.
Definition Unavailable : Z := 14.

(** The conversion of an [int] to [codes.Code]. *)
Definition MaxUint32 : Z := 4294967295.
Definition uint32 (z : Z) : Z := z mod 4294967296.

(** The key under which a context lists the custom headers. *)
Class RpcKeys `{!Keys} := { RpcCustomHeader : string }.

(** ** Conversions of errors (mw/specialerror) *)

Definition handler_fun : Type := option goerr → option codeError.

(** [false] is the error. *)
Definition AddErrHandler (h : option handler_fun) (Handlers : list handler_fun) : list handler_fun * bool :=
  match h with None => (Handlers, false) | Some h => (Handlers ++ [h], true) end.

Definition AddReplace (r : codeRelation) (target : goerr) (c : codeError) (Handlers : list handler_fun)
    : list handler_fun * bool :=
  AddErrHandler (Some (λ err, if errors_Is Handlers r err (Some target) then Some c else None)) Handlers.

Definition ErrCode (Handlers : list handler_fun) (e : goerr) : option codeError :=
  match as_codeError e with
  | Some c => Some c
  | None => first_handler Handlers (Some e)
  end.

Section rpc.
Context `{!Keys} `{!RpcKeys} `{!Metadata} `{!Grpc}.

(** What call stacks print, and the registered conversions. *)
Context (trace : nat → option string) (Handlers : list handler_fun).

Definition err_Error (e : goerr) : string := Errs.Error Itoa trace status_text e.

Definition internal_WrapMsg (a : nat) (m : string) (kv : list string) : goerr :=
  codeError_WrapMsg a (S a) m kv ErrInternalServer.

(** [NewCodeError(code, msg).Wrap()], and with a detail. *)
Definition new_code (a : nat) (c : Z) (m : string) : goerr := Stack (S a) (Code a (NewCodeError c m)).
Definition new_code_detail (a : nat) (c : Z) (m d : string) : goerr :=
  Stack (S a) (Code a (WithDetail d (NewCodeError c m))).

Definition ErrPanic (a : nat) (r : string) : option goerr :=
  ErrPanicMsg a (S a) (Some r) ServerInternalError "panic error".

(** ** Validation of requests (checker): [checked] is what [Check] returned *)

Definition Validate (a : nat) (checked : option goerr) : option goerr :=
  match checked with
  | None => None
  | Some err => match Unwrap (Some err) with
                | Some (Code _ _) => Some err
                | _ => Some (codeError_WrapMsg a (S a) (err_Error err) [] ErrArgs)
                end
  end.

(** ** The client's context *)

Fixpoint set_custom (a : nat) (ctx : context) (keys : list string) (md : MD) : MD + goerr :=
  match keys with
  | [] => inl md
  | key :: keys =>
      match Value key ctx with
      | Some (VStrs []) => inr (internal_WrapMsg a "ctx key value is empty" ["key"; key])
      | Some (VStrs val) => set_custom a ctx keys (Set_ key val md)
      | _ => inr (internal_WrapMsg a "ctx missing key" ["key"; key])
      end
  end.

(** [keys, _ := ctx.Value(constant.RpcCustomHeader).([]string)] *)
Definition custom_keys (ctx : context) : list string :=
  match Value RpcCustomHeader ctx with Some (VStrs l) => l | _ => [] end.

Definition set_string (k : string) (ctx : context) (md : MD) : MD :=
  match Value_string k ctx with Some s => Set_ k [s] md | None => md end.

Definition getRpcContext (a : nat) (ctx : context) : MD + goerr :=
  let keys := custom_keys ctx in
  match (match keys with
         | [] => inl md_empty
         | _ => match set_custom a ctx keys md_empty with
                | inr e => inr e
                | inl md => inl (Set_ RpcCustomHeader keys md)
                end
         end) with
  | inr e => inr e
  | inl md =>
      match Value_string OperationID ctx with
      | None => inr (codeError_WrapMsg a (S a) "ctx missing operationID" [] ErrArgs)
      | Some operationID =>
          inl (set_string ConnID ctx (set_string OpUserPlatform ctx
                 (set_string OpUserID ctx (Set_ OperationID [operationID] md))))
      end
  end.

(** ** The server's context *)

Definition invalid (a : nat) (m : string) : option goerr := status_Err a (status_New InvalidArgument m).

(** [None] for metadata that are missing. *)
Definition validateMetadata (a : nat) (md : option MD) : MD + option goerr :=
  match md with
  | None => inr (invalid a "missing metadata")
  | Some md => if Nat.eqb (length (Get OperationID md)) 1 then inl md else inr (invalid a "operationID error")
  end.

Fixpoint get_custom (a : nat) (md : MD) (keys : list string) (ctx : context) : context + option goerr :=
  match keys with
  | [] => inl ctx
  | key :: keys =>
      match Get key md with
      | [] => inr (invalid a ("missing metadata key " +:+ key))
      | values => get_custom a md keys (WithValue key (VStrs values) ctx)
      end
  end.

Definition get_string (k : string) (md : MD) (ctx : context) : context :=
  match Get k md with [s] => WithValue k (VStr s) ctx | _ => ctx end.

(** The index of the first value is in range after [validateMetadata]. *)
Definition enrichContextWithMetadata (a : nat) (ctx : context) (md : MD) : outcome (context + option goerr) :=
  match (match Get RpcCustomHeader md with
         | [] => inl ctx
         | keys => get_custom a md keys (WithValue RpcCustomHeader (VStrs keys) ctx)
         end) with
  | inr e => Ret (inr e)
  | inl ctx =>
      match Get OperationID md with
      | [] => Panic "index out of range"
      | operationID :: _ =>
          Ret (inl (get_string ConnID md (get_string OpUserPlatform md
                 (get_string OpUserID md (WithValue OperationID (VStr operationID) ctx)))))
      end
  end.

(** ** The server's errors *)

Definition nonempty (s t : string) : string := if bool_decide (s = "") then t else s.

Definition getErrData (err : goerr) : codeError :=
  let '(code, msg, detail) :=
    match ErrCode Handlers err with
    | Some c => (code c, msg c, detail c)
    | None => (ServerInternalError, "", "")
    end in
  let code := if (code <=? 0) || (MaxUint32 <? code) then ServerInternalError else code in
  let '(msg, detail) :=
    if bool_decide (msg = "") || bool_decide (detail = "") then
      let msg := match as_Error err with Some e => nonempty msg (err_Error e) | None => msg end in
      match as_ErrWrapper err with
      | Some e => (nonempty msg (err_Error e), nonempty detail (err_Error e))
      | None => (msg, detail)
      end
    else (msg, detail) in
  let msg := nonempty msg (err_Error err) in
  let detail := nonempty detail msg in
  WithDetail detail (NewCodeError code msg).

Definition handleError (a : nat) (err : goerr) : option goerr :=
  let codeErr := getErrData err in
  let grpcStatus := status_New (uint32 (code codeErr)) (msg codeErr) in
  match WithDetails grpcStatus (MkErrorInfo [] (detail codeErr)) with
  | inl details => status_Err a details
  | inr err => WrapMsg a (S a) (Some err) "rpc server resp WithDetails error" ["err"; err_Error err]
  end.

Context {Req R : Type}.

(** What [Check] returns on a request, [None] also if it has no such method. *)
Context (Check_ : Req → option goerr).

Definition Handler : Type := context → Req → outcome (option R * option goerr).

(** [recover] and the error it makes; [resp] is nil as nothing has set it. *)
Definition recovered (a : nat) (m : outcome (option R * option goerr)) : option R * option goerr :=
  match m with Ret r => r | Panic why => (None, ErrPanic a why) end.

Definition RpcServerInterceptor (a : nat) (md : option MD) (ctx : context) (req : Req) (handler : Handler)
    : outcome (option R * option goerr) :=
  match validateMetadata a md with
  | inr e => Ret (None, e)
  | inl md =>
      let! r := enrichContextWithMetadata a ctx md in
      match r with
      | inr e => Ret (None, e)
      | inl ctx =>
          Ret (recovered a
            match Validate a (Check_ req) with
            | Some err => Ret (None, handleError (S (S a)) err)
            | None =>
                let! (resp, err) := handler ctx req in
                match err with
                | Some err => Ret (None, handleError a err)
                | None => Ret (resp, None)
                end
            end)
      end
  end.

(** ** The client's errors *)

Definition convert_status (a : nat) (sta : Status) : goerr :=
  match Details sta with
  | Some errInfo :: _ => new_code_detail a (StatusCode sta) (Message sta) (Join "->" (Warp errInfo) +:+ Cause errInfo)
  | _ => new_code a (StatusCode sta) (Message sta)
  end.

Definition client_error (a : nat) (err : goerr) : goerr :=
  if as_codeError err then err
  else match Unwrap (Some err) with
       | Some (Errs.Grpc _ sta) =>
           if StatusCode sta =? 0 then new_code a ServerInternalError (err_Error err) else convert_status a sta
       | _ => internal_WrapMsg a (err_Error err) []
       end.

(** [None] is a nil context. *)
Definition RpcClientInterceptor (a : nat) (ctx : option context) (invoker : MD → outcome (option goerr)) : option goerr :=
  match ctx with
  | None => Some (internal_WrapMsg a "call rpc request context is nil" [])
  | Some ctx =>
      match getRpcContext a ctx with
      | inr e => Some e
      | inl md => match invoker md with
                  | Panic why => ErrPanic a why
                  | Ret None => None
                  | Ret (Some err) => Some (client_error a err)
                  end
      end
  end.

(** ** The interceptors of mw/grpc, to be chained *)

Definition Interceptor : Type := Handler → Handler.

(** [InterceptChain]: the first interceptor is the outermost. *)
Fixpoint InterceptChain (intercepts : list Interceptor) (handler : Handler) : Handler :=
  match intercepts with
  | [] => handler
  | i :: intercepts => i (InterceptChain intercepts handler)
  end.

Definition GrpcServerMetadataContext (a : nat) (md : option MD) : Interceptor := λ handler ctx req,
  match validateMetadata a md with
  | inr e => Ret (None, e)
  | inl md =>
      let! r := enrichContextWithMetadata a ctx md in
      match r with inr e => Ret (None, e) | inl ctx => handler ctx req end
  end.

Definition getCodeError (err : goerr) : codeError :=
  match ErrCode Handlers err with
  | Some c => c
  | None => WithDetail match Unwrap (Some err) with Some e => err_Error e | None => "" end ErrInternalServer
  end.

Definition codeErrorToGrpcError (a : nat) (codeErr : codeError) : option goerr :=
  let grpcStatus := status_New (uint32 (code codeErr)) (msg codeErr) in
  if bool_decide (detail codeErr = "") then status_Err a grpcStatus
  else match WithDetails grpcStatus (MkErrorInfo [] (detail codeErr)) with
       | inl details => status_Err a details
       | inr _ => status_Err a grpcStatus
       end.

Definition GrpcServerErrorConvert (a : nat) : Interceptor := λ handler ctx req,
  let! (resp, err) := handler ctx req in
  match err with
  | None => Ret (resp, None)
  | Some err => if as_grpcError err then Ret (resp, Some err)
                else Ret (resp, codeErrorToGrpcError a (getCodeError err))
  end.

Definition GrpcServerPanicCapture (a : nat) : Interceptor := λ handler ctx req, Ret (recovered a (handler ctx req)).

Definition GrpcServerRequestValidate (a : nat) : Interceptor := λ handler ctx req,
  match Validate a (Check_ req) with
  | Some err => Ret (None, Some err)
  | None => handler ctx req
  end.

Definition after_slash (target : string) : string :=
  match LastIndexByte "/" target with Some index => sdrop (S index) target | None => target end.

(** [GrpcClientErrorConvert]; [target] is that of the connection. *)
Definition GrpcClientErrorConvert (a : nat) (target : string) (err : option goerr) : option goerr :=
  match err with
  | None => None
  | Some err =>
      Some (if as_codeError err then err
            else match as_grpcError err with
                 | None => internal_WrapMsg a (err_Error err) []
                 | Some sta =>
                     if StatusCode sta =? Unavailable then
                       new_code a ServerInternalError
                         ("grpc service " +:+ after_slash target +:+ " down, grpc message " +:+ Message sta)
                     else if StatusCode sta <? 100 then internal_WrapMsg a (err_Error err) []
                     else convert_status a sta
                 end)
  end.

(** [GrpcClientContext] is [getRpcContext] before the next invoker. *)
Definition GrpcClientContext (a : nat) (ctx : context) (invoker : MD → outcome (option goerr)) : outcome (option goerr) :=
  match getRpcContext a ctx with
  | inr e => Ret (Some e)
  | inl md => invoker md
  end.
End rpc.

(** * Lemmas *)

(** ** Contexts and metadata *)

Section contexts.
Context `{!Keys} `{!RpcKeys} `{!Metadata} `{!Grpc} `{!MetadataLaws}.

Definition fixed : list string := [OperationID; OpUserID; OpUserPlatform; ConnID; RpcCustomHeader].

Lemma Value_WithValue k k' v ctx : Value k (WithValue k' v ctx) = if decide (k' = k) then Some v else Value k ctx.
Proof. done. Qed.

Lemma Value_string_WithValue k k' v ctx :
  k' ≠ k → Value_string k (WithValue k' v ctx) = Value_string k ctx.
Proof. intros. unfold Value_string. by rewrite Value_WithValue, decide_False. Qed.

Lemma Get_set_string k k' ctx md :
  Get k (set_string k' ctx md) =
  if decide (lower k = lower k') then match Value_string k' ctx with Some s => [s] | None => Get k md end
  else Get k md.
Proof. unfold set_string. destruct (Value_string k' ctx); [by rewrite Get_Set |]. by case_decide. Qed.

Lemma set_custom_ok a ctx keys md :
  (∃ md', set_custom a ctx keys md = inl md') ↔ ∀ k, k ∈ keys → ∃ v vs, Value k ctx = Some (VStrs (v :: vs)).
Proof.
  revert md. induction keys as [|k keys IH]; intros md; simpl.
  { split; [intros _ k []%elem_of_nil | eauto]. }
  setoid_rewrite elem_of_cons. destruct (Value k ctx) as [[s|[|v vs]|]|] eqn:Hk.
  3: { rewrite IH. naive_solver. }
  all: split; [by intros [] |]; intros Hall; destruct (Hall k) as (? & ? & ?); [by left | by simplify_eq].
Qed.

Lemma set_custom_Get a ctx keys md md' k :
  set_custom a ctx keys md = inl md' → NoDup (lower <$> keys) →
  (lower k ∉ lower <$> keys → Get k md' = Get k md) ∧
  (k ∈ keys → Value k ctx = Some (VStrs (Get k md')) ∧ Get k md' ≠ []).
Proof.
  revert md. induction keys as [|k' keys IH]; intros md; simpl.
  { intros [= ->] _. split; [done | by intros ?%elem_of_nil]. }
  rewrite NoDup_cons. destruct (Value k' ctx) as [[s|[|v vs]|]|] eqn:Hk; try done.
  intros Hs [Hn Hd]. destruct (IH _ Hs Hd) as [IH1 IH2]. rewrite Get_Set in IH1 by done. split.
  - rewrite not_elem_of_cons. intros [Hne Hni]. rewrite IH1 by done. by rewrite decide_False.
  - intros [-> | Hin]%elem_of_cons; [| by apply IH2].
    rewrite IH1 by done. by rewrite decide_True.
Qed.

Lemma get_custom_ok a md keys ctx :
  (∀ k, k ∈ keys → Get k md ≠ []) →
  ∃ ctx', get_custom a md keys ctx = inl ctx' ∧
    ∀ k, Value k ctx' = if decide (k ∈ keys) then Some (VStrs (Get k md)) else Value k ctx.
Proof.
  revert ctx. induction keys as [|k' keys IH]; intros ctx Hk; simpl.
  { exists ctx. by split. }
  destruct (Get k' md) as [|v vs] eqn:Hg; [exfalso; by apply (Hk k'); [left |] |].
  destruct (IH (WithValue k' (VStrs (v :: vs)) ctx)) as (ctx' & He & Hv); [intros; apply Hk; by right |].
  exists ctx'. split; [done |]. intros k. rewrite Hv, Value_WithValue.
  destruct (decide (k ∈ keys)) as [Hin | Hin].
  - by rewrite decide_True by by right.
  - destruct (decide (k' = k)) as [<- | Hne].
    + rewrite decide_True by left. by rewrite Hg.
    + rewrite decide_False; [done |]. by rewrite not_elem_of_cons.
Qed.

Lemma getRpcContext_ok a ctx :
  (∃ md, getRpcContext a ctx = inl md) ↔
  is_Some (Value_string OperationID ctx) ∧
  ∀ k, k ∈ custom_keys ctx → ∃ v vs, Value k ctx = Some (VStrs (v :: vs)).
Proof.
  unfold getRpcContext. rewrite <- (set_custom_ok a ctx (custom_keys ctx) md_empty).
  destruct (custom_keys ctx) as [|k keys].
  - simpl. destruct (Value_string OperationID ctx); naive_solver.
  - destruct (set_custom _ _ _ _); [destruct (Value_string OperationID ctx) |]; naive_solver.
Qed.

(** What the client sends. *)
Lemma getRpcContext_Get a ctx md :
  getRpcContext a ctx = inl md → NoDup (lower <$> fixed ++ custom_keys ctx) →
  (∃ o, Value_string OperationID ctx = Some o ∧ Get OperationID md = [o]) ∧
  (∀ k, k ∈ [OpUserID; OpUserPlatform; ConnID] → Get k md = option_list (Value_string k ctx)) ∧
  Get RpcCustomHeader md = custom_keys ctx ∧
  (∀ k, k ∈ custom_keys ctx → Value k ctx = Some (VStrs (Get k md)) ∧ Get k md ≠ []).
Proof.
  rewrite fmap_app, NoDup_app. unfold getRpcContext, fixed. set (keys := custom_keys ctx).
  intros He (Hf & Hd & Hk).
  set (base := match keys with [] => inl md_empty | _ => _ end) in He.
  assert (Hbase : ∃ md0, base = inl md0 ∧ Get RpcCustomHeader md0 = keys ∧
    (∀ k, k ∈ keys → Value k ctx = Some (VStrs (Get k md0)) ∧ Get k md0 ≠ []) ∧
    (∀ k, k ∈ [OperationID; OpUserID; OpUserPlatform; ConnID] → Get k md0 = [])).
  { subst base. clearbody keys. destruct keys as [|k0 keys'].
    - exists md_empty. split_and!; [done | apply Get_empty | by intros k ?%elem_of_nil | intros; apply Get_empty].
    - destruct (set_custom a ctx (k0 :: keys') md_empty) as [md1|] eqn:Hs; [| done].
      exists (Set_ RpcCustomHeader (k0 :: keys') md1). split_and!; [done | by rewrite Get_Set, decide_True | |].
      + intros k Hin. rewrite Get_Set by done. rewrite decide_False.
        { by apply (set_custom_Get a ctx (k0 :: keys') md_empty). }
        intros Heq. apply (Hd (lower RpcCustomHeader)); [simpl; set_solver |].
        rewrite <- Heq. by apply list_elem_of_fmap_2.
      + intros k Hin. assert (Hkf : lower k ∈ lower <$> [OperationID; OpUserID; OpUserPlatform; ConnID])
          by by apply list_elem_of_fmap_2.
        rewrite Get_Set by done. rewrite decide_False.
        * destruct (set_custom_Get a ctx (k0 :: keys') md_empty md1 k Hs Hk) as [Hg _]. rewrite Hg; [apply Get_empty |].
          apply Hd. simpl in *. set_solver.
        * intros Heq. rewrite Heq in Hkf. clear - Hf Hkf. simpl in *. rewrite !NoDup_cons in Hf. set_solver. }
  destruct Hbase as (md0 & -> & Hc & Hcustom & Hempty).
  destruct (Value_string OperationID ctx) as [o|]; [| done]. injection He as <-.
  simpl in Hf. rewrite !NoDup_cons, !not_elem_of_cons in Hf. destruct_and!.
  assert (Hout : ∀ k, lower k ∉ lower <$> [OperationID; OpUserID; OpUserPlatform; ConnID] →
    Get k (set_string ConnID ctx (set_string OpUserPlatform ctx (set_string OpUserID ctx (Set_ OperationID [o] md0))))
    = Get k md0).
  { intros k. simpl. rewrite !not_elem_of_cons. intros Hn. destruct_and!.
    rewrite !Get_set_string, Get_Set by done. by repeat case_decide. }
  split_and!.
  - exists o. split; [done |]. rewrite !Get_set_string, Get_Set by done. by repeat case_decide.
  - intros k Hin. pose proof (Hempty k ltac:(set_solver)) as He.
    rewrite !Get_set_string, Get_Set by done. rewrite !elem_of_cons, elem_of_nil in Hin.
    destruct Hin as [-> | [-> | [-> | []]]]; repeat case_decide; try done; try congruence;
      rewrite He; by destruct (Value_string _ ctx).
  - rewrite Hout; [done |]. simpl. rewrite !not_elem_of_cons. split_and!; try apply not_elem_of_nil; congruence.
  - intros k Hin. rewrite Hout; [by apply Hcustom |]. intros Hl. apply (Hd (lower k)).
    + simpl in *. set_solver.
    + by apply list_elem_of_fmap_2.
Qed.
Lemma get_string_Value_ne k k' md ctx : k' ≠ k → Value k (get_string k' md ctx) = Value k ctx.
Proof. intros. unfold get_string. repeat case_match; try done. by rewrite Value_WithValue, decide_False. Qed.

Lemma get_string_Value_string k md ctx o :
  Get k md = option_list o →
  Value_string k (get_string k md ctx) = match o with Some s => Some s | None => Value_string k ctx end.
Proof.
  intros Hg. unfold get_string. rewrite Hg. destruct o; simpl; [| done].
  unfold Value_string. by rewrite Value_WithValue, decide_True.
Qed.

(** What the custom headers make of the server's context. *)
Lemma enrich_custom a sctx md keys :
  NoDup (fixed ++ keys) → (∀ k, k ∈ keys → Get k md ≠ []) →
  ∃ ctx0, match keys with
          | [] => inl sctx
          | k :: ks => get_custom a md (k :: ks) (WithValue RpcCustomHeader (VStrs (k :: ks)) sctx)
          end = inl ctx0 ∧
    (∀ k, k ∈ keys → Value k ctx0 = Some (VStrs (Get k md))) ∧
    (keys ≠ [] → Value RpcCustomHeader ctx0 = Some (VStrs keys)) ∧
    (∀ k, k ∉ keys → k ≠ RpcCustomHeader → Value k ctx0 = Value k sctx).
Proof.
  intros (_ & Hd & _)%NoDup_app Hk. assert (Hh : RpcCustomHeader ∉ keys) by (apply Hd; unfold fixed; set_solver).
  destruct keys as [|k0 keys'].
  - exists sctx. split_and!; [done | by intros k ?%elem_of_nil | done | done].
  - destruct (get_custom_ok a md (k0 :: keys') (WithValue RpcCustomHeader (VStrs (k0 :: keys')) sctx) Hk)
      as (ctx0 & He & Hv).
    exists ctx0. split_and!; [exact He | | |].
    + intros k Hin. by rewrite Hv, decide_True.
    + intros _. by rewrite Hv, decide_False, Value_WithValue, decide_True.
    + intros k Hin Hne. by rewrite Hv, decide_False, Value_WithValue, decide_False.
Qed.

(** What the server makes of its context. *)
Lemma enrichContextWithMetadata_ok a sctx md o keys :
  Get OperationID md = [o] → Get RpcCustomHeader md = keys → (∀ k, k ∈ keys → Get k md ≠ []) →
  NoDup (fixed ++ keys) →
  ∃ ctx', enrichContextWithMetadata a sctx md = Ret (inl ctx') ∧
    Value_string OperationID ctx' = Some o ∧
    (∀ k os, k ∈ [OpUserID; OpUserPlatform; ConnID] → Get k md = option_list os →
      Value_string k ctx' = match os with Some s => Some s | None => Value_string k sctx end) ∧
    (∀ k, k ∈ keys → Value k ctx' = Some (VStrs (Get k md))) ∧
    (keys ≠ [] → custom_keys ctx' = keys).
Proof.
  intros Hgo Hhdr Hk Hnd. unfold enrichContextWithMetadata. rewrite Hgo, Hhdr.
  destruct (enrich_custom a sctx md keys Hnd Hk) as (ctx0 & -> & Hv1 & Hv2 & Hv3).
  apply NoDup_app in Hnd as (Hf & Hd & _). unfold fixed in *.
  rewrite !NoDup_cons, !not_elem_of_cons in Hf. destruct_and!.
  eexists. split_and!; [done | | | |].
  - unfold Value_string. rewrite !get_string_Value_ne by done. by rewrite Value_WithValue, decide_True.
  - intros k os Hin Hg.
    assert (Value_string k ctx0 = Value_string k sctx) as <-.
    { unfold Value_string. rewrite Hv3; [done | apply Hd; set_solver |].
      rewrite !elem_of_cons, elem_of_nil in Hin. naive_solver. }
    rewrite !elem_of_cons, elem_of_nil in Hin. destruct Hin as [-> | [-> | [-> | []]]].
    + transitivity (Value_string OpUserID (get_string OpUserID md (WithValue OperationID (VStr o) ctx0))).
      { unfold Value_string. by rewrite !(get_string_Value_ne OpUserID) by done. }
      erewrite get_string_Value_string by done. destruct os; [done |]. by rewrite Value_string_WithValue.
    + transitivity (Value_string OpUserPlatform
        (get_string OpUserPlatform md (get_string OpUserID md (WithValue OperationID (VStr o) ctx0)))).
      { unfold Value_string. by rewrite !(get_string_Value_ne OpUserPlatform ConnID) by done. }
      erewrite get_string_Value_string by done. destruct os; [done |]. unfold Value_string.
      by rewrite get_string_Value_ne, Value_WithValue, decide_False by done.
    + erewrite get_string_Value_string by done. destruct os; [done |]. unfold Value_string.
      by rewrite !get_string_Value_ne, Value_WithValue, decide_False by done.
  - intros k Hin. rewrite !get_string_Value_ne, Value_WithValue, decide_False; [by apply Hv1 | ..];
      intros <-; eapply Hd; try done; set_solver.
  - intros Hne. unfold custom_keys. rewrite !get_string_Value_ne, Value_WithValue, decide_False by done.
    by rewrite Hv2.
Qed.

(** ** Theorems *)

(** C19. A call carries the client's context to the server.  The client refuses exactly a
    context without an operation id or with a custom header that is missing, empty or not
    a list.  When no two of the keys used fold to the same metadata key and the server
    receives what was sent under them, the server accepts the call and its handler's
    context has the client's operation id, user, platform and connection, those the client
    does not have being left as they were, and every custom header of the client. *)
Theorem context_roundtrip a ctx :
  ((∃ md, getRpcContext a ctx = inl md) ↔
   is_Some (Value_string OperationID ctx) ∧
   ∀ k, k ∈ custom_keys ctx → ∃ v vs, Value k ctx = Some (VStrs (v :: vs))) ∧
  ∀ md md' sctx,
    getRpcContext a ctx = inl md → NoDup (lower <$> fixed ++ custom_keys ctx) →
    (∀ k, k ∈ fixed ++ custom_keys ctx → Get k md' = Get k md) →
    ∃ ctx', validateMetadata a (Some md') = inl md' ∧
      enrichContextWithMetadata a sctx md' = Ret (inl ctx') ∧
      Value_string OperationID ctx' = Value_string OperationID ctx ∧
      (∀ k, k ∈ [OpUserID; OpUserPlatform; ConnID] → Value_string k ctx' =
         match Value_string k ctx with Some s => Some s | None => Value_string k sctx end) ∧
      (∀ k, k ∈ custom_keys ctx → Value k ctx' = Value k ctx) ∧
      (custom_keys ctx ≠ [] → custom_keys ctx' = custom_keys ctx).
Proof.
  split; [apply getRpcContext_ok |]. intros md md' sctx Hmd Hnd Hsame.
  destruct (getRpcContext_Get a ctx md Hmd Hnd) as ((o & Ho & Hgo) & Hfix & Hhdr & Hcus).
  rewrite <- Hsame in Hgo by (unfold fixed; set_solver).
  rewrite <- Hsame in Hhdr by (unfold fixed; set_solver).
  assert (Hcus' : ∀ k, k ∈ custom_keys ctx → Value k ctx = Some (VStrs (Get k md')) ∧ Get k md' ≠ []).
  { intros k Hk. rewrite Hsame by (apply elem_of_app; by right). by apply Hcus. }
  destruct (enrichContextWithMetadata_ok a sctx md' o (custom_keys ctx) Hgo Hhdr) as (ctx' & He & Hv1 & Hv2 & Hv3 & Hv4).
  { intros k Hk. by apply Hcus'. } { by apply (NoDup_fmap_1 lower). }
  exists ctx'. split_and!; [unfold validateMetadata; by rewrite Hgo | done | by rewrite Ho | | | done].
  - intros k Hk. apply Hv2; [done |]. rewrite Hsame by (unfold fixed; set_solver). by apply Hfix.
  - intros k Hk. rewrite Hv3 by done. by destruct (Hcus' k Hk) as [-> _].
Qed.
End contexts.

(** ** Errors *)

Section errors.
Context `{!Keys} `{!RpcKeys} `{!Metadata} `{!Grpc} `{!GrpcLaws}.
Context (trace : nat → option string) (Handlers : list handler_fun).
Context {Req R : Type} (Check_ : Req → option goerr).

Lemma getErrData_code err : 0 < code (getErrData trace Handlers err) ≤ MaxUint32.
Proof.
  unfold getErrData. destruct (match ErrCode Handlers err with Some _ => _ | None => _ end) as [[c m] d].
  match goal with |- context [match ?p with pair _ _ => _ end] => destruct p as [m' d'] end.
  simpl. unfold ServerInternalError, MaxUint32 in *.
  destruct (c <=? 0) eqn:Hc, (4294967295 <? c) eqn:Hc'; simpl; lia.
Qed.

Lemma nonempty_id s t : s ≠ "" → nonempty s t = s.
Proof. intros. unfold nonempty. by rewrite bool_decide_false. Qed.

(** The code error of the chain prevails. *)
Lemma getErrData_codeError err c :
  as_codeError err = Some c → 0 < code c ≤ MaxUint32 → msg c ≠ "" →
  code (getErrData trace Handlers err) = code c ∧ msg (getErrData trace Handlers err) = msg c ∧
  (detail c ≠ "" → getErrData trace Handlers err = c).
Proof.
  intros Hc Hr Hm. unfold getErrData, ErrCode. rewrite Hc.
  assert ((code c <=? 0) || (MaxUint32 <? code c) = false) as ->.
  { unfold MaxUint32 in *. apply orb_false_iff. split; lia. }
  rewrite (bool_decide_false (msg c = "")) by done. simpl.
  destruct (bool_decide (detail c = "")) eqn:Hd.
  - set (p := match as_ErrWrapper err with Some _ => _ | None => _ end).
    assert (Hp : p.1 = msg c).
    { subst p. destruct (as_ErrWrapper err), (as_Error err); simpl; by rewrite ?nonempty_id by (done || by rewrite nonempty_id). }
    destruct p as [m d]. simpl in Hp. subst m. simpl. rewrite nonempty_id by done.
    split_and!; [done..|]. intros Hne. by apply bool_decide_eq_true in Hd.
  - apply bool_decide_eq_false in Hd. simpl. rewrite !nonempty_id by done. split_and!; [done..|]. intros _. by destruct c.
Qed.

Lemma Is_Stack_Code (r : codeRelation) a b c t c' :
  t ≠ a → t ≠ b →
  errors_Is Handlers r (Some (Stack b (Code a c))) (Some (Code t c')) = relation_Is r (code c) (code c').
Proof.
  intros Ha Hb.
  assert (Hc : codeError_Is Handlers r (Some c) (Some (Code t c')) = relation_Is r (code c) (code c')).
  { unfold codeError_Is, relation_Is. simpl. by destruct (code c =? code c'). }
  simpl. unfold same. simpl. rewrite Hc, !bool_decide_false by done. by destruct (relation_Is _ _ _).
Qed.

(** What reaches the client of the status made from a code error. *)
Lemma deliver_detail a m d c :
  c ≠ 0 → utf8 m = true → utf8 d = true →
  let s := MkStatus c m [Some (MkErrorInfo [] d)] in
  WithDetails (status_New c m) (MkErrorInfo [] d) = inl s ∧
  ∃ a', deliver (status_Err a s) = Some (Errs.Grpc a' s).
Proof.
  intros Hc Hm Hd s. rewrite status_New_eq, WithDetails_ok by done. split; [done |].
  rewrite status_Err_eq. simpl. rewrite (proj2 (Z.eqb_neq _ _)) by done. apply deliver_status; [done | done |].
  constructor; [by eexists | constructor].
Qed.

Lemma convert_status_detail a c m d :
  convert_status a (MkStatus c m [Some (MkErrorInfo [] d)]) = Stack (S a) (Code a (MkCodeError c m d)).
Proof. done. Qed.

(** C18. An error of the server's handler reaches the client as a code error: with the
    code, the message and the detail that [getErrData] finds in it, whatever it was wrapped
    in.  The code is one that fits in a status; a code error of the chain whose code does
    and that has a message keeps both, and its detail if it has one; and [errors.Is] at the
    client answers by that code, so that it can tell the server's errors apart. *)
Theorem error_roundtrip a b ctx mds sctx md md' ctx' (req : Req) (handler : @Handler Req R) resp e :
  getRpcContext a ctx = inl md → validateMetadata b mds = inl md' →
  enrichContextWithMetadata b sctx md' = Ret (inl ctx') → Check_ req = None →
  handler ctx' req = Ret (resp, Some e) →
  let d := getErrData trace Handlers e in
  utf8 (msg d) = true → utf8 (detail d) = true →
  let client := RpcClientInterceptor trace a (Some ctx) (λ _,
    let! (_, err) := RpcServerInterceptor trace Handlers Check_ b mds sctx req handler in Ret (deliver err)) in
  client = Some (Stack (S a) (Code a d)) ∧
  0 < code d ≤ MaxUint32 ∧
  (∀ c, as_codeError e = Some c → 0 < code c ≤ MaxUint32 → msg c ≠ "" →
     code d = code c ∧ msg d = msg c ∧ (detail c ≠ "" → d = c)) ∧
  (∀ r t c', t ≠ a → t ≠ S a →
     errors_Is Handlers r client (Some (Code t c')) = relation_Is r (code d) (code c')).
Proof.
  intros Hc Hv He Hq Hh d Hm Hd client. pose proof (getErrData_code e) as Hr. fold d in Hr.
  assert (Hu : uint32 (code d) = code d) by (unfold uint32, MaxUint32 in *; apply Z.mod_small; lia).
  assert (Hclient : client = Some (Stack (S a) (Code a d))).
  { unfold client, RpcClientInterceptor. rewrite Hc. unfold RpcServerInterceptor. rewrite Hv, He. simpl.
    rewrite Hq. simpl. rewrite Hh. simpl. unfold handleError. fold d. rewrite Hu.
    destruct (deliver_detail b (msg d) (detail d) (code d)) as (-> & a' & Hdel); [lia | done | done |].
    simpl. rewrite Hdel. unfold client_error. simpl.
    rewrite (proj2 (Z.eqb_neq _ _)) by lia. rewrite convert_status_detail. by destruct d. }
  split_and!; [done | lia | lia | intros c; apply getErrData_codeError |].
  intros r t c' Ht Ht'. rewrite Hclient. by apply Is_Stack_Code.
Qed.
(** What is raised below the conversion: the validation's error, the handler's, or the
    one made of a panic. *)
Definition raised (b : nat) (handler : @Handler Req R) (ctx : context) (req : Req) : option goerr :=
  match Validate trace b (Check_ req) with
  | Some err => Some err
  | None => match handler ctx req with Ret (_, err) => err | Panic why => ErrPanic b why end
  end.

Lemma WrapMsg_code m kv c : code (WrapMsg_detail m kv c) = code c.
Proof. unfold WrapMsg_detail. by case_match. Qed.

(** The conversion of a code error and its reading by the client. *)
Lemma codeErrorToGrpcError_client a b target c :
  utf8 (msg c) = true → utf8 (detail c) = true →
  let client := GrpcClientErrorConvert trace a target (deliver (codeErrorToGrpcError b c)) in
  if uint32 (code c) =? 0 then client = None
  else if (uint32 (code c) =? Unavailable) || (uint32 (code c) <? 100)
  then ∃ c', client = Some (Stack (S a) (Code a c')) ∧ code c' = ServerInternalError
  else client = Some (Stack (S a) (Code a (MkCodeError (uint32 (code c)) (msg c) (detail c)))).
Proof.
  intros Hm Hd client. subst client. unfold codeErrorToGrpcError.
  destruct (uint32 (code c) =? 0) eqn:Hz.
  { apply Z.eqb_eq in Hz. rewrite Hz, status_New_eq, status_Err_eq. simpl.
    destruct (WithDetails_OK (MkStatus 0 (msg c) []) (MkErrorInfo [] (detail c)) eq_refl) as [e ->].
    case_match; by rewrite deliver_nil. }
  apply Z.eqb_neq in Hz.
  assert (Hs : ∃ a' ds, deliver (codeErrorToGrpcError b c) = Some (Errs.Grpc a' (MkStatus (uint32 (code c)) (msg c) ds)) ∧
    ∀ a, convert_status a (MkStatus (uint32 (code c)) (msg c) ds)
         = Stack (S a) (Code a (MkCodeError (uint32 (code c)) (msg c) (detail c)))).
  { unfold codeErrorToGrpcError. case_bool_decide as He.
    - rewrite status_New_eq, status_Err_eq. simpl. rewrite (proj2 (Z.eqb_neq _ _)) by done.
      destruct (deliver_status b (MkStatus (uint32 (code c)) (msg c) [])) as [a' Ha]; [done | done | constructor |].
      exists a', []. split; [done |]. intros. by rewrite He.
    - destruct (deliver_detail b (msg c) (detail c) (uint32 (code c)) Hz Hm Hd) as (-> & a' & ->). by eexists _, _. }
  fold (codeErrorToGrpcError b c). destruct Hs as (a' & ds & -> & Hconv). simpl.
  destruct (uint32 (code c) =? Unavailable); simpl; [by eexists |].
  destruct (uint32 (code c) <? 100); simpl; [eexists; split; [done | by apply WrapMsg_code] |]. by rewrite Hconv.
Qed.

(** The newer interceptors, chained as conversion, capture of panics, validation: the
    chain returns whatever the handler does, and without an error exactly the handler's
    response.  A code error that is raised reaches the client with its code, message and
    detail when the code is between 100 and 2^32, other than through 14, which the client
    takes for a server that is down; under 100 it becomes an internal error.  But the code
    is cut to 32 bits, and when nothing remains of it the client sees a success. *)
Theorem chain_errors a b target ctx (req : Req) (handler : @Handler Req R) :
  ∃ resp err,
    InterceptChain [GrpcServerErrorConvert trace Handlers b; GrpcServerPanicCapture b; GrpcServerRequestValidate trace Check_ b]
      handler ctx req = Ret (resp, err) ∧
    match raised b handler ctx req with
    | None => err = None ∧ handler ctx req = Ret (resp, None)
    | Some e =>
        as_grpcError e = None →
        let c := getCodeError trace Handlers e in
        (as_codeError e = Some c ∨ as_codeError e = None) ∧
        (utf8 (msg c) = true → utf8 (detail c) = true →
         let client := GrpcClientErrorConvert trace a target (deliver err) in
         if uint32 (code c) =? 0 then client = None
         else if (uint32 (code c) =? Unavailable) || (uint32 (code c) <? 100)
         then ∃ c', client = Some (Stack (S a) (Code a c')) ∧ code c' = ServerInternalError
         else client = Some (Stack (S a) (Code a (MkCodeError (uint32 (code c)) (msg c) (detail c)))))
    end.
Proof.
  assert (Hget : ∀ e, as_codeError e = Some (getCodeError trace Handlers e) ∨ as_codeError e = None).
  { intros e. unfold getCodeError, ErrCode. destruct (as_codeError e); auto. }
  assert (Hconv : ∀ (resp : option R) e, ∃ resp' err',
    (if as_grpcError e then Ret (resp, Some e)
     else Ret (resp, codeErrorToGrpcError b (getCodeError trace Handlers e))) = Ret (resp', err') ∧
    (as_grpcError e = None → err' = codeErrorToGrpcError b (getCodeError trace Handlers e))).
  { intros resp e. destruct (as_grpcError e); eexists _, _; split; done. }
  simpl. unfold GrpcServerErrorConvert, GrpcServerPanicCapture, GrpcServerRequestValidate, raised. simpl.
  destruct (Validate trace b (Check_ req)) as [e|]; [| destruct (handler ctx req) as [[resp [e|]] | why]]; simpl.
  3: by eexists _, _.
  1: destruct (Hconv None e) as (resp' & err' & Hr & Herr).
  2: destruct (Hconv resp e) as (resp' & err' & Hr & Herr).
  3: destruct (Hconv None (Stack (S b) (Code b (MkCodeError ServerInternalError "panic error" why))))
       as (resp' & err' & Hr & Herr).
  all: exists resp', err'; split; [exact Hr |].
  all: intros Hg; rewrite (Herr Hg).
  1, 2: split; [apply Hget | apply codeErrorToGrpcError_client].
  split; [by left |]. exact (codeErrorToGrpcError_client a b target (MkCodeError ServerInternalError "panic error" why)).
Qed.
End errors.

(** * An instance: metadata as maps, keys folded in ASCII *)

#[export] Instance map_metadata : Metadata := {|
  MD := gmap string (list string);
  md_empty := ∅;
  Set_ k vs md := match vs with [] => md | _ => <[ToLower k := vs]> md end;
  Get k md := default [] (md !! ToLower k);
  lower := ToLower
|}.

#[export] Instance map_metadata_laws : MetadataLaws.
Proof.
  split; [done |]. intros k k' [|v vs] md Hvs; [done |]. simpl. case_decide as Hk.
  - by rewrite Hk, lookup_insert_eq.
  - by rewrite lookup_insert_ne.
Qed.

#[export] Instance simple_grpc : Grpc := {|
  status_New c m := MkStatus c m [];
  status_Err a s := if StatusCode s =? 0 then None else Some (Errs.Grpc a s);
  status_text s := "rpc error: code = " +:+ Itoa (StatusCode s) +:+ " desc = " +:+ Message s;
  WithDetails s i := if StatusCode s =? 0 then inr (Other 0 "no error details for status with code OK")
                     else inl (MkStatus (StatusCode s) (Message s) (Details s ++ [Some i]));
  utf8 s := negb (has_byte "255" s);
  deliver err := match err with
                 | Some (Errs.Grpc a s) => Some (Errs.Grpc (a + 100) s)
                 | Some _ => Some (Errs.Grpc 100 (MkStatus 2 "unknown" []))
                 | None => None
                 end
|}.

#[export] Instance simple_grpc_laws : GrpcLaws.
Proof.
  split; try done.
  - intros s i Hs _ _. simpl. by rewrite (proj2 (Z.eqb_neq _ _)).
  - intros s i Hs. simpl. rewrite Hs. by eexists.
  - intros a s _ _ _. by eexists.
Qed.

#[export] Instance demo_rpc_keys : RpcKeys := {| RpcCustomHeader := "customHeader" |}.

Definition demo_ctx : context :=
  WithValue "X-Tenant" (VStrs ["t1"; "t2"]) (WithValue RpcCustomHeader (VStrs ["X-Tenant"])
    (SetConnID (SetOperationID Background "op1") "c1")).

Definition demo_md : MD := match getRpcContext 0 demo_ctx with inl md => md | inr _ => md_empty end.

Lemma context_roundtrip_witness :
  ∃ ctx', enrichContextWithMetadata 0 (SetOpUserID Background "old") demo_md = Ret (inl ctx') ∧
    Value_string OperationID ctx' = Some "op1" ∧ Value_string OpUserID ctx' = Some "old" ∧
    Value "X-Tenant" ctx' = Some (VStrs ["t1"; "t2"]).
Proof.
  destruct (context_roundtrip 0 demo_ctx) as [_ Hround].
  destruct (Hround demo_md demo_md (SetOpUserID Background "old")) as (ctx' & _ & He & Ho & Hf & Hc & _).
  - vm_compute. reflexivity.
  - vm_compute. apply (bool_decide_unpack _). vm_compute. exact I.
  - reflexivity.
  - exists ctx'. split; [exact He |]. split; [exact Ho |]. split.
    + etrans; [apply (Hf OpUserID); left | vm_compute; reflexivity].
    + etrans; [apply (Hc "X-Tenant"); left | vm_compute; reflexivity].
Defined.

Definition demo_error : goerr := Stack 3 (Wrapper 2 (Stack 1 (Code 0 (MkCodeError 1004 "RecordNotFoundError" "user u1"))) "find user").
Definition demo_handler : @Handler unit unit := λ _ _, Ret (None, Some demo_error).

Definition demo_server_ctx : context :=
  match enrichContextWithMetadata 20 Background demo_md with Ret (inl ctx) => ctx | _ => Background end.

Lemma error_roundtrip_witness :
  let client := RpcClientInterceptor (λ _, None) 10 (Some demo_ctx) (λ _,
    let! (_, err) := RpcServerInterceptor (λ _, None) [] (λ _, None) 20 (Some demo_md) Background tt demo_handler in
    Ret (deliver err)) in
  client = Some (Stack 11 (Code 10 (MkCodeError 1004 "RecordNotFoundError" "user u1"))) ∧
  errors_Is [] ∅ client (Some (Code 5 (NewCodeError 1004 "RecordNotFoundError"))) = true.
Proof.
  destruct (error_roundtrip (R := unit) (λ _, None) [] (λ _ : unit, None) 10 20 demo_ctx (Some demo_md) Background
    demo_md demo_md demo_server_ctx tt demo_handler None demo_error) as (Hc & _ & _ & Hi); [vm_compute; reflexivity.. |].
  split; [exact Hc |]. etrans; [apply (Hi ∅ 5%nat); lia | vm_compute; reflexivity].
Defined.

(** A code of 2^32 is lost on the way. *)
Lemma chain_errors_witness :
  ∃ resp err,
    InterceptChain [GrpcServerErrorConvert (λ _, None) [] 20; GrpcServerPanicCapture 20;
      GrpcServerRequestValidate (λ _, None) (λ _ : unit, None) 20]
      (λ _ _, Ret (Some tt, Some (Code 0 (NewCodeError 4294967296 "lost")))) Background tt = Ret (resp, err) ∧
    GrpcClientErrorConvert (λ _, None) 10 "etcd:///user" (deliver err) = None.
Proof.
  destruct (chain_errors (λ _, None) [] (λ _ : unit, None) 10 20 "etcd:///user" Background tt
    (λ _ _, Ret (Some tt, Some (Code 0 (NewCodeError 4294967296 "lost"))))) as (resp & err & Hc & Hr).
  exists resp, err. split; [exact Hc |]. simpl in Hr. destruct (Hr eq_refl) as [_ Hl]. exact (Hl eq_refl eq_refl).
Defined.
