(* ===== verification/Http.v ===== *)
(** * The HTTP interface (a2r, apiresp, mw/gin.go) and its tokens (tokenverify)

    A gin handler gets the request with the keys set so far and goes on with the chain or
    aborts it with a response.  The functions that a call runs are arguments: what binds
    the body, the options, the client's method.  The jwt library is a class with the laws
    of its documentation; times are nanoseconds, those of claims seconds. *)

From S2P Require Import Prelude GoStrings Errs Mcontext Rpc.

Local Open Scope Z_scope.

Definition TokenExpiredError : Z := 1501.
Definition TokenMalformedError : Z := 1503.
Definition TokenNotValidYetError : Z := 1504.
Definition TokenUnknownError : Z := 1505.
Definition ErrTokenExpired : codeError := NewCodeError TokenExpiredError "TokenExpiredError".
Definition ErrTokenMalformed : codeError := NewCodeError TokenMalformedError "TokenMalformedError".
Definition ErrTokenNotValidYet : codeError := NewCodeError TokenNotValidYetError "TokenNotValidYetError".
Definition ErrTokenUnknown : codeError := NewCodeError TokenUnknownError "TokenUnknownError".

(** ** Responses (apiresp) *)

Record ApiResponse (D : Type) := MkResponse { ErrCode : Z; ErrMsg : string; ErrDlt : string; Data : option D }.
Arguments MkResponse {D}. Arguments ErrCode {D}. Arguments ErrMsg {D}. Arguments ErrDlt {D}. Arguments Data {D}.

(** The type of a value, as far as [isAllFieldsPrivate] looks: pointers, and the names of
    the fields of a struct. *)
Inductive kind := KPtr (k : kind) | KStruct (fields : list string) | KOther.

Fixpoint deref (k : kind) : kind := match k with KPtr k => deref k | _ => k end.

Definition exported (name : string) : bool :=
  match name with
  | String c _ => (65 <=? Z.of_nat (Ascii.nat_of_ascii c)) && (Z.of_nat (Ascii.nat_of_ascii c) <=? 90)
  | EmptyString => false
  end.

Definition isAllFieldsPrivate (k : kind) : bool :=
  match deref k with KStruct fields => forallb (λ f, negb (exported f)) fields | _ => false end.

Section http.
Context `{!Keys} `{!Grpc} (trace : nat → option string).

Definition ApiSuccess {D} (data : option D) : ApiResponse D := MkResponse 0 "" "" data.

Definition ParseError {D} (err : option goerr) : ApiResponse D :=
  match err with
  | None => ApiSuccess None
  | Some e =>
      let c := match as_codeError e with
               | Some c => c
               | None => WithDetail (match Errs.Unwrap err with Some r => err_Error trace r | None => "" end)
                           ErrInternalServer
               end in
      MkResponse (code c) (msg c) (detail c) None
  end.

(** What [MarshalJSON] encodes: data without an exported field is left out, and other
    data is encoded by itself first. *)
Definition MarshalJSON {D J} (kind_of : D → kind) (ApiFormat : D → D) (JsonMarshal : D → J + goerr)
    (r : ApiResponse D) : ApiResponse J + goerr :=
  match Data r with
  | None => inl (MkResponse (ErrCode r) (ErrMsg r) (ErrDlt r) None)
  | Some d =>
      let d := ApiFormat d in
      if isAllFieldsPrivate (kind_of d) then inl (MkResponse (ErrCode r) (ErrMsg r) (ErrDlt r) None)
      else match JsonMarshal d with
           | inr e => inr e
           | inl j => inl (MkResponse (ErrCode r) (ErrMsg r) (ErrDlt r) (Some j))
           end
  end.

(** ** From a request to a call (a2r) *)

Section call.
Context {A B : Type}.

(** The [Check] method of a request, when it has one. *)
Context (Check_ : A → option goerr).

(** The hooks may change what they are given. *)
Record Option_ := MkOption { BindAfter : option (A → A * option goerr); RespAfter : option (B → B * option goerr) }.

(** A request: its body, or why it cannot be read; the decoding; the validator, when there
    is one. *)
Record Body := MkBody {
  method : string;
  url : string;
  body : option (string + goerr);
  JsonUnmarshal : string → A + goerr;
  ValidateStruct : A → option goerr
}.

Definition BindBody (a : nat) (b : Body) (s : string) : A + goerr :=
  match JsonUnmarshal b s with
  | inr e => inr (Stack a e)
  | inl req => match ValidateStruct b req with Some e => inr (Stack a e) | None => inl req end
  end.

Definition Bind (a : nat) (b : Body) : A + goerr :=
  match body b with
  | None => inr (Stack (S a) (ErrString a "invalid request"))
  | Some (inr e) => inr (Stack (S a) (Wrapper a e (toString "read request body failed" ["method"; method b; "url"; url b])))
  | Some (inl s) => match BindBody a b s with inr e => inr (Stack (S a) e) | inl req => inl req end
  end.

Definition ParseRequestNotCheck (a : nat) (b : Body) : A + goerr :=
  match Bind a b with
  | inr e => inr (Code a (NewCodeError ArgsError (err_Error trace e)))
  | inl req => inl req
  end.

(** [ParseRequest] validates the pointer to its pointer, which has no methods. *)
Definition ParseRequest (a : nat) (b : Body) : A + goerr :=
  match ParseRequestNotCheck a b with
  | inr e => inr e
  | inl req => match Validate trace a None with Some e => inr e | None => inl req end
  end.

Fixpoint run_hooks {T} (hooks : list (option (T → T * option goerr))) (x : T) : T * option goerr :=
  match hooks with
  | [] => (x, None)
  | None :: hooks => run_hooks hooks x
  | Some h :: hooks => match h x with (x, Some e) => (x, Some e) | (x, None) => run_hooks hooks x end
  end.

(** The request that the method is called with, if it is, and the response. *)
Definition Call (a : nat) (b : Body) (rpc : A → B + goerr) (opts : list Option_) : option A * ApiResponse B :=
  match ParseRequestNotCheck a b with
  | inr e => (None, ParseError (Some e))
  | inl req =>
      match run_hooks (BindAfter <$> opts) req with
      | (_, Some e) => (None, ParseError (Some e))
      | (req, None) =>
          match Validate trace a (Check_ req) with
          | Some e => (None, ParseError (Some e))
          | None =>
              match rpc req with
              | inr e => (Some req, ParseError (Some e))
              | inl resp =>
                  match run_hooks (RespAfter <$> opts) resp with
                  | (_, Some e) => (Some req, ParseError (Some e))
                  | (resp, None) => (Some req, ApiSuccess (Some resp))
                  end
              end
          end
      end
  end.
End call.

(** ** Tokens (tokenverify) *)

Record Claims := MkClaims { UserID : string; PlatformID : Z; ExpiresAt : Z; IssuedAt : Z; NotBefore : option Z; ID : string }.

Definition HoursOneDay : Z := 24.
Definition secondBefore : Z := 5.
Definition Second : Z := 1000000000.
Definition Hour : Z := 3600 * Second.

(** [NewNumericDate] cuts a time to the second. *)
Definition NumericDate (t : Z) : Z := t / Second.

Definition BuildClaims (now : Z) (uuid uid : string) (platformID ttl : Z) : Claims :=
  MkClaims uid platformID (NumericDate (now + wrap64 (wrap64 (ttl * HoursOneDay) * Hour)))
    (NumericDate (now - secondBefore * Second)) None uuid.

(** The bits of a validation error. *)
Definition ValidationErrorMalformed : Z := 1.
Definition ValidationErrorExpired : Z := 16.
Definition ValidationErrorNotValidYet : Z := 128.

Inductive jwt_err := Validation (flags : Z) (text : string) | OtherJwt (e : goerr).

Definition has_flag (flags f : Z) : bool := negb (Z.land flags f =? 0).

Definition mapValidationError (a : nat) (flags : Z) (text : string) : goerr :=
  if has_flag flags ValidationErrorMalformed then Code a ErrTokenMalformed
  else if has_flag flags ValidationErrorExpired then Code a ErrTokenExpired
  else if has_flag flags ValidationErrorNotValidYet then Code a ErrTokenNotValidYet
  else Code a (NewCodeError TokenUnknownError text).

(** Signing with a secret, and parsing at a time with the function that gives the key:
    the claims and whether the token is valid, or an error. *)
Class Jwt := {
  Keyfunc : Type;
  key_of : string → Keyfunc;
  SignedString : string → Claims → option string;
  ParseWithClaims : Z → Keyfunc → string → (Claims * bool) + jwt_err
}.

(** Claims are refused from their expiration on and before they are issued; the flag of
    an expired token is then set, and not that of a malformed one. *)
Class JwtLaws `{!Jwt} := {
  signed_valid now secret c t : SignedString secret c = Some t → NotBefore c = None →
    IssuedAt c * Second ≤ now → now < ExpiresAt c * Second →
    ParseWithClaims now (key_of secret) t = inl (c, true);
  signed_expired now secret c t : SignedString secret c = Some t →
    ExpiresAt c * Second ≤ now →
    ∃ flags text, ParseWithClaims now (key_of secret) t = inr (Validation flags text) ∧
      has_flag flags ValidationErrorMalformed = false ∧ has_flag flags ValidationErrorExpired = true
}.

Context `{!Jwt}.

Definition GetClaimFromToken (a : nat) (now : Z) (token : string) (secretFunc : Keyfunc) : Claims + goerr :=
  match ParseWithClaims now secretFunc token with
  | inl (claims, true) => inl claims
  | inl (_, false) => inr (Stack (S a) (Wrapper a (Code a ErrTokenUnknown) (toString "claims unknown" ["token"; token])))
  | inr (Validation flags text) => inr (Stack (S a) (Wrapper a (mapValidationError a flags text) (toString "jwt parse error" ["token"; token])))
  | inr (OtherJwt e) => inr (Stack (S a) (Wrapper a e (toString "jwt parse error" ["token"; token])))
  end.

Definition CreateToken (now : Z) (uuid userID accessSecret : string) (accessExpire platformID : Z) : option string :=
  SignedString accessSecret (BuildClaims now uuid userID platformID accessExpire).

(** ** Handlers (mw/gin.go) *)

Definition MethodPost : string := "POST".
Definition MethodOptions : string := "OPTIONS".

(** The name of the header that carries the token, and the names of platforms. *)
Context (Token : string) (PlatformIDToName : Z → string).

Record gin := MkGin { Method : string; Path : string; Header : gmap string string; keys : context }.

Definition header (c : gin) (k : string) : string := default "" (Header c !! k).
Definition Set_key (k v : string) (c : gin) : gin := MkGin (Method c) (Path c) (Header c) (WithValue k (VStr v) (keys c)).

(** An answer ends the chain: the response of an error, or the answer to OPTIONS. *)
Inductive answer := ErrorAnswer (r : ApiResponse unit) | OptionsAnswer.

Definition Handler : Type := gin → gin + answer.

Definition args_error (a : nat) (m : string) : answer :=
  ErrorAnswer (ParseError (Some (codeError_WrapMsg a (S a) m [] ErrArgs))).

Definition CorsHandler : Handler := λ c,
  if String.eqb (Method c) MethodOptions then inr OptionsAnswer else inl c.

Definition GinParseOperationID (a : nat) : Handler := λ c,
  if String.eqb (Method c) MethodPost then
    let operationID := header c OperationID in
    if String.eqb operationID "" then inr (args_error a "header must have operationID")
    else inl (Set_key OperationID operationID c)
  else inl c.

Definition HasPrefix (s prefix : string) : bool := bool_decide (is_Some (CutPrefix prefix s)).

Definition GinParseToken (a : nat) (now : Z) (secretKey : Keyfunc) (whitelist : list string) : Handler := λ c,
  if String.eqb (Method c) MethodPost then
    if existsb (HasPrefix (Path c)) whitelist then inl c
    else
      let token := header c Token in
      if String.eqb token "" then inr (args_error a "header must have token")
      else match GetClaimFromToken a now token secretKey with
           | inr _ => inr (args_error a "header must have token")
           | inl claims =>
               inl (Set_key OpUserID (UserID claims) (Set_key OpUserPlatform (PlatformIDToName (PlatformID claims)) c))
           end
  else inl c.

(** The chain, up to the endpoint. *)
Fixpoint run_chain (hs : list Handler) (c : gin) : gin + answer :=
  match hs with
  | [] => inl c
  | h :: hs => match h c with inl c => run_chain hs c | inr r => inr r end
  end.

Definition api_chain (a : nat) (now : Z) (secretKey : Keyfunc) (whitelist : list string) : list Handler :=
  [CorsHandler; GinParseOperationID a; GinParseToken a now secretKey whitelist].
End http.

(** * Theorems *)

Section http_theorems.
Context `{!Keys} `{!Grpc} (trace : nat → option string).

(** The code of an answer: that of the error, or of a server error. *)
Definition error_code (e : goerr) : Z := match as_codeError e with Some c => code c | None => ServerInternalError end.

Lemma ParseError_code {D} e : ErrCode (@ParseError _ trace D (Some e)) = error_code e ∧ Data (@ParseError _ trace D (Some e)) = None.
Proof. unfold ParseError, error_code. simpl. by destruct (as_codeError e). Qed.

(** A request that fails its [Check] is answered with the code of that error, when it
    is, inside, a code error, or with that of a bad argument. *)
Lemma Validate_code a e e' :
  Validate trace a (Some e) = Some e' →
  error_code e' = match Unwrap (Some e) with Some (Code _ c) => code c | _ => ArgsError end.
Proof.
  unfold Validate. rewrite Unwrap_root. intros He. unfold error_code.
  assert (∀ a c, root e = Code a c → as_codeError e = Some c) as Hroot.
  { intros a0 c. clear. induction e; simpl; try done; [by intros [= _ ->] | auto..]. }
  destruct (root e) as [| a0 c | | | | |] eqn:Hr; injection He as <-;
    try (simpl; by rewrite WrapMsg_code). by erewrite Hroot.
Qed.

(** A branch of [Call]: what the case says, with the errors' codes. *)
Ltac call_case B :=
  try (match goal with |- context [ParseError trace (Some ?e)] =>
         destruct (ParseError_code (D := B) e) as [Hc Hd]; rewrite ?Hd, ?Hc end);
  split_and!; try (intros; split); intros;
  repeat match goal with H : ∃ _, _ |- _ => destruct H | H : _ ∧ _ |- _ => destruct H end;
  simplify_eq;
  repeat match goal with H1 : run_hooks ?h ?x = _, H2 : run_hooks ?h ?x = _ |- _ =>
    rewrite H1 in H2; simplify_eq end;
  try solve [eauto 10 | congruence].

Section call_theorem.
Context {A B : Type} (Check_ : A → option goerr).

(** C17. A call of the API answers exactly once, and the method is called only with a
    request that was bound, that every hook before it has let through, in their order,
    and that passes its check: the method gets what the hooks made of the request.  The
    answer carries data only if the method and every hook after it succeed, with code 0;
    otherwise it carries the code of the first failure: that of a bad argument when the
    request cannot be bound, that of its error for a check, a hook or the method, or that
    of a server error when it has none. *)
Theorem a2r_call a b rpc (opts : list (@Option_ A B)) :
  let '(invoked, r) := Call trace Check_ a b rpc opts in
  (∀ req, invoked = Some req ↔ ∃ req0, ParseRequestNotCheck trace a b = inl req0 ∧
     run_hooks (BindAfter <$> opts) req0 = (req, None) ∧ Validate trace a (Check_ req) = None) ∧
  (∀ resp, Data r = Some resp ↔ ∃ req resp0, invoked = Some req ∧ rpc req = inl resp0 ∧
     run_hooks (RespAfter <$> opts) resp0 = (resp, None)) ∧
  (Data r ≠ None → ErrCode r = 0 ∧ ErrMsg r = "" ∧ ErrDlt r = "") ∧
  (∀ e, ParseRequestNotCheck trace a b = inr e → ErrCode r = ArgsError) ∧
  (∀ req0 req e, ParseRequestNotCheck trace a b = inl req0 →
     run_hooks (BindAfter <$> opts) req0 = (req, Some e) → ErrCode r = error_code e) ∧
  (∀ req0 req e, ParseRequestNotCheck trace a b = inl req0 →
     run_hooks (BindAfter <$> opts) req0 = (req, None) → Check_ req = Some e →
     ErrCode r = match Unwrap (Some e) with Some (Code _ c) => code c | _ => ArgsError end) ∧
  (∀ req e, invoked = Some req → rpc req = inr e → ErrCode r = error_code e) ∧
  (∀ req resp0 resp e, invoked = Some req → rpc req = inl resp0 →
     run_hooks (RespAfter <$> opts) resp0 = (resp, Some e) → ErrCode r = error_code e).
Proof.
  unfold Call. destruct (ParseRequestNotCheck trace a b) as [req0 | e] eqn:Hp.
  2: { call_case B. unfold ParseRequestNotCheck in Hp. destruct (Bind a b); [done |].
       by injection Hp as <-. }
  destruct (run_hooks (BindAfter <$> opts) req0) as [req [e|]] eqn:Hb; [call_case B |].
  destruct (Validate trace a (Check_ req)) as [e|] eqn:Hv.
  { call_case B. match goal with H : Check_ _ = _ |- _ => rewrite H in Hv end. by eapply Validate_code. }
  assert (∀ e, Check_ req ≠ Some e) as Hne.
  { intros e' He. rewrite He in Hv. unfold Validate in Hv. by destruct (Unwrap (Some e')) as [[]|]. }
  destruct (rpc req) as [resp0 | e] eqn:Hr; [| call_case B].
  destruct (run_hooks (RespAfter <$> opts) resp0) as [resp [e|]] eqn:Ha; cbn [ApiSuccess Data ErrCode ErrMsg ErrDlt];
    call_case B.
Qed.
End call_theorem.

(** ** The chain *)

Context `{!Jwt} (Token : string) (PlatformIDToName : Z → string).

(** Whose call it is: what the token of the header says. *)
Definition token_claims (a : nat) (now : Z) (secretKey : Keyfunc) (c : gin) : option Claims :=
  if String.eqb (header c Token) "" then None
  else match GetClaimFromToken a now (header c Token) secretKey with inl cl => Some cl | inr _ => None end.

Lemma keys_neq : OpUserID ≠ OpUserPlatform ∧ OpUserID ≠ OperationID ∧ OpUserPlatform ≠ OperationID.
Proof. pose proof keys_distinct as Hd. rewrite !NoDup_cons in Hd. set_solver. Qed.

Lemma is_post c : Method c = MethodPost → String.eqb (Method c) MethodPost = true.
Proof. intros ->. reflexivity. Qed.

Lemma CorsHandler_post c : Method c = MethodPost → CorsHandler c = inl c.
Proof. intros Hm. unfold CorsHandler. by rewrite Hm. Qed.

(** C16. Who reaches an endpoint.  A POST request reaches it exactly when it carries an
    operation id and either its path begins like one of the white list or its token is
    one that the jwt library finds valid under the key; the endpoint then sees this
    operation id and, when the token was looked at, the user and the platform of its
    claims, whatever the request had set before.  An OPTIONS request never does.  Any
    other request reaches it with nothing looked at and nothing set. *)
Theorem gin_chain a now secretKey whitelist c :
  let chain := run_chain (api_chain trace Token PlatformIDToName a now secretKey whitelist) c in
  let listed := existsb (HasPrefix (Path c)) whitelist in
  (Method c = MethodPost →
   ((∃ c', chain = inl c') ↔
    header c OperationID ≠ "" ∧ (listed = true ∨ token_claims a now secretKey c ≠ None)) ∧
   ∀ c', chain = inl c' →
     Value OperationID (keys c') = Some (VStr (header c OperationID)) ∧
     if listed then ∀ k, k ≠ OperationID → Value k (keys c') = Value k (keys c)
     else ∃ cl, token_claims a now secretKey c = Some cl ∧
            Value OpUserID (keys c') = Some (VStr (UserID cl)) ∧
            Value OpUserPlatform (keys c') = Some (VStr (PlatformIDToName (PlatformID cl)))) ∧
  (Method c = MethodOptions → chain = inr OptionsAnswer) ∧
  (Method c ≠ MethodPost → Method c ≠ MethodOptions → chain = inl c).
Proof.
  destruct keys_neq as (Hk1 & Hk2 & Hk3). cbv zeta. unfold api_chain. split_and!.
  - intros Hm. cbn [run_chain]. rewrite (CorsHandler_post c Hm). cbv iota beta.
    unfold GinParseOperationID at 1 2. rewrite (is_post c Hm). cbv zeta.
    destruct (String.eqb_spec (header c OperationID) "") as [He | He].
    { split; [split; [by intros [? ?] | by intros []] | by intros ? ?]. }
    unfold GinParseToken, token_claims. cbn [Method Path Set_key]. rewrite (is_post c Hm). cbv zeta.
    destruct (existsb (HasPrefix (Path c)) whitelist).
    { split; [split; [by eauto | by eauto] |]. intros c' [= <-]. cbn [keys Set_key Value WithValue].
      split; [by rewrite decide_True |]. intros k Hk. by rewrite decide_False. }
    change (header _ Token) with (header c Token).
    destruct (String.eqb (header c Token) ""); [split; [split; [by intros [? ?] | by intros [? []]] | by intros ? ?] |].
    destruct (GetClaimFromToken a now (header c Token) secretKey) as [cl|];
      [| split; [split; [by intros [? ?] | by intros [? []]] | by intros ? ?]].
    split; [split; [intros _; split; [done | by right] | by eauto] |].
    intros c' [= <-]. cbn [keys Set_key Value WithValue].
    split; [by rewrite !decide_False, decide_True by done |]. exists cl. split; [done |].
    split; [by rewrite decide_True | by rewrite decide_False, decide_True].
  - intros Hm. cbn [run_chain]. unfold CorsHandler. by rewrite Hm.
  - intros Hp Ho. cbn [run_chain]. unfold CorsHandler, GinParseOperationID, GinParseToken.
    apply String.eqb_neq in Hp as Hp', Ho as Ho'. by rewrite Ho', !Hp'.
Qed.
End http_theorems.

(** ** The life of a token *)

Section token.
Context `{!Jwt} `{!JwtLaws}.

(** A time to live in days that the code multiplies without overflow. *)
Definition Day : Z := HoursOneDay * Hour.
Definition max_ttl : Z := 106751.

Lemma ttl_duration ttl : 0 ≤ ttl ≤ max_ttl → wrap64 (wrap64 (ttl * HoursOneDay) * Hour) = ttl * Day.
Proof.
  unfold max_ttl, Day, Hour, HoursOneDay, Second. intros Ht.
  rewrite (wrap64_id (ttl * 24)) by (unfold in_int64, two63; lia).
  rewrite wrap64_id by (unfold in_int64, two63; lia). lia.
Qed.

Lemma ttl_overflow ttl : max_ttl < ttl ≤ 2 * max_ttl → wrap64 (wrap64 (ttl * HoursOneDay) * Hour) < 0.
Proof.
  unfold max_ttl, Hour, HoursOneDay, Second. intros Ht.
  rewrite (wrap64_id (ttl * 24)) by (unfold in_int64, two63; lia).
  unfold wrap64, two63, two64.
  rewrite <- (Z.mod_unique (ttl * 24 * (3600 * 1000000000) + 9223372036854775808) 18446744073709551616 1
    (ttl * 24 * (3600 * 1000000000) + 9223372036854775808 - 18446744073709551616)); lia.
Qed.

(** A token is good for as long as it was made for: for a number of days up to
    106751, it gives its user and platform back until the second in which the last day
    ends, and is refused as expired from then on.  From 106752 days, up to twice as many,
    the duration overflows and the token is refused as expired at once. *)
Theorem token_lifetime a now later uuid uid secret platformID ttl t :
  CreateToken now uuid uid secret ttl platformID = Some t → now ≤ later →
  let expired := ∃ e, GetClaimFromToken a later t (key_of secret) = inr e ∧ as_codeError e = Some ErrTokenExpired in
  (0 ≤ ttl ≤ max_ttl →
   let expires := (now + ttl * Day) / Second * Second in
   (later < expires → ∃ cl, GetClaimFromToken a later t (key_of secret) = inl cl ∧
      UserID cl = uid ∧ PlatformID cl = platformID) ∧
   (expires ≤ later → expired) ∧
   now + ttl * Day - Second < expires ≤ now + ttl * Day) ∧
  (max_ttl < ttl ≤ 2 * max_ttl → expired).
Proof.
  intros Ht Hl. cbv zeta. set (c := BuildClaims now uuid uid platformID ttl) in *.
  assert (ExpiresAt c * Second ≤ later →
    ∃ e, GetClaimFromToken a later t (key_of secret) = inr e ∧ as_codeError e = Some ErrTokenExpired) as Hex.
  { intros He. destruct (signed_expired later secret c t Ht He) as (flags & text & Hp & Hm & Hx).
    unfold GetClaimFromToken. rewrite Hp. eexists. split; [done |]. simpl.
    unfold mapValidationError. by rewrite Hm, Hx. }
  assert (ExpiresAt c = (now + wrap64 (wrap64 (ttl * HoursOneDay) * Hour)) / Second) as Hexp by done.
  assert (IssuedAt c * Second ≤ later) as Hiat.
  { unfold c, BuildClaims, NumericDate, secondBefore, Second in *. cbn [IssuedAt].
    pose proof (Z.mul_div_le (now - 5 * 1000000000) 1000000000). lia. }
  split.
  - intros Httl. rewrite ttl_duration in Hexp by done. rewrite Hexp in *. split_and!.
    + intros Hlt. exists c. split; [| done]. unfold GetClaimFromToken.
      rewrite (signed_valid later secret c t); [done | done | done | done | by rewrite Hexp].
    + done.
    + unfold Second. pose proof (Z.mod_pos_bound (now + ttl * Day) 1000000000).
      pose proof (Z.div_mod (now + ttl * Day) 1000000000). lia.
    + unfold Second. pose proof (Z.mul_div_le (now + ttl * Day) 1000000000). lia.
  - intros Hov%ttl_overflow. apply Hex. rewrite Hexp. unfold Second in *.
    pose proof (Z.mul_div_le (now + wrap64 (wrap64 (ttl * HoursOneDay) * Hour)) 1000000000). lia.
Qed.
End token.

(** A library that signs one token. *)
Definition demo_claims : Claims := BuildClaims 1700000000500000000 "id" "u1" 1 7.

#[export] Instance claims_eq_dec : EqDecision Claims.
Proof. solve_decision. Defined.

#[export] Instance demo_jwt : Jwt := {|
  Keyfunc := string;
  key_of s := s;
  SignedString secret c := if decide (secret = "s" ∧ c = demo_claims) then Some "tok" else None;
  ParseWithClaims now k t :=
    if decide (k = "s" ∧ t = "tok") then
      if decide (now < ExpiresAt demo_claims * Second) then
        if decide (IssuedAt demo_claims * Second ≤ now) then inl (demo_claims, true) else inr (Validation 32 "early")
      else inr (Validation 16 "expired")
    else inr (Validation 1 "malformed")
|}.

#[export] Instance demo_jwt_laws : JwtLaws.
Proof.
  split; intros now secret c t; cbn [SignedString ParseWithClaims demo_jwt key_of];
    destruct (decide (secret = "s" ∧ c = demo_claims)) as [[-> ->] |]; intros [= <-].
  - intros _ Hi He. by rewrite !decide_True by done.
  - intros He. rewrite decide_True, decide_False by (done || lia). by eexists _, _.
Qed.

Lemma token_lifetime_witness :
  CreateToken 1700000000500000000 "id" "u1" "s" 7 1 = Some "tok" ∧
  GetClaimFromToken 0 1700604799999999999 "tok" "s" = inl demo_claims ∧
  ∃ e, GetClaimFromToken 0 1700604800000000000 "tok" "s" = inr e ∧ as_codeError e = Some ErrTokenExpired.
Proof.
  split; [vm_compute; reflexivity |]. split; [vm_compute; reflexivity |].
  destruct (token_lifetime 0 1700000000500000000 1700604800000000000 "id" "u1" "s" 1 7 "tok") as [Hlife _];
    [vm_compute; reflexivity | lia |].
  destruct Hlife as (_ & Hexp & _); [unfold max_ttl; lia |]. apply Hexp. vm_compute. discriminate.
Defined.
