(* ===== verification/Remote.v ===== *)
(** * Calls between instances and within one (discovery/inprocess: remote_conn.go,
    local_conn.go, the handlers of method_registry.go; discovery/standalone/conn.go)

    A call to another instance is a request of HTTP whose answer is an envelope with a
    code; a local one goes through the same codec and the handler that was registered.
    The JSON and protobuf libraries, net/url and the HTTP client are arguments. *)

From S2P Require Import Prelude GoStrings Errs Mcontext Rpc Http.

Local Open Scope Z_scope.

(** ** Addresses *)

Definition BroadcastPath : string := "/internal/api_invoke_rpc".

(** [strings.TrimRight(s, "/")]. *)
Fixpoint TrimRightSlash (s : string) : string :=
  match s with
  | EmptyString => ""
  | String c s =>
      let t := TrimRightSlash s in
      if String.eqb t "" && String.eqb (String c "") "/" then "" else String c t
  end.

(** [url_Parse]: the scheme and the host, when the address parses. *)
Definition parseRemoteAddress (url_Parse : string → option (string * string)) (addr : string) : string * string :=
  let addr := TrimSpace addr in
  match url_Parse addr with
  | Some (scheme, host) =>
      if negb (String.eqb scheme "") && negb (String.eqb host "")
      then (TrimRightSlash addr +:+ BroadcastPath, host)
      else ("http://" +:+ addr +:+ BroadcastPath, addr)
  | None => ("http://" +:+ addr +:+ BroadcastPath, addr)
  end.

Record remoteClientConn := MkRemote { endpoint : string; serviceName : string; secret : string; target : string }.

Definition newRemoteClientConn (url_Parse : string → option (string * string)) (addr service sec : string)
    : remoteClientConn :=
  let '(e, t) := parseRemoteAddress url_Parse addr in MkRemote e service sec t.

(** ** The envelope *)

Record InvokeRequest := MkInvokeRequest {
  Service : string;
  Method_ : string;
  Secret : string;
  ReqUserID : string;
  Admin : bool;
  Request : string
}.

Record InvokeResponse := MkInvokeResponse { RespCode : Z; RespMsg : string; RespDlt : string; RespData : string }.

(** What comes of making and sending a request: a failure of either, an answer whose body
    cannot be read, or one with its status. *)
Inductive http_result := NewFails (e : goerr) | DoFails (e : goerr) | ReadFails (e : goerr) | Answer (status : Z) (text body : string).

Definition StatusOK : Z := 200.

(** Package encoding/json: requests, bytes, responses read, and the struct of an envelope
    whose data, if any, is JSON already. *)
Class Json := {
  MarshalRequest : InvokeRequest → string + goerr;
  UnmarshalResponse : string → InvokeResponse + goerr;
  MarshalBytes : string → string + goerr;
  MarshalEnvelope : ApiResponse string → string
}.

(** Bytes can always be written.  An envelope that is read has the code and the data that
    were written, no data being left out and read as empty, and the message and the detail
    if they are valid UTF-8: other bytes are replaced. *)
Class JsonLaws `{!Json} : Prop := {
  bytes_written b : ∃ raw, MarshalBytes b = inl raw;
  envelope_read code message detail data raw :
    in_int64 code → (match data with Some b => MarshalBytes b | None => inl "" end) = inl raw →
    ∃ m d, UnmarshalResponse (MarshalEnvelope (MkResponse code message detail (if data then Some raw else None))) =
             inl (MkInvokeResponse code m d (default "" data)) ∧
           (ValidString message = true → m = message) ∧ (ValidString detail = true → d = detail)
}.

(** What [MarshalJSON] makes of a response whose data is bytes, which are no struct and
    have no [ApiFormat]. *)
Definition MarshalApi `{!Json} (r : ApiResponse string) : string + goerr :=
  match MarshalJSON (λ _, KOther) (λ b, b) MarshalBytes r with
  | inl env => inl (MarshalEnvelope env)
  | inr e => inr e
  end.

Section remote.
Context `{!Keys} `{!Json}.

(** The request of a call: where it goes, its operation id and its body. *)
Record http_request := MkHttpRequest { url_ : string; operationID : string; payload : string }.

Definition remote_request (c : remoteClientConn) (now : Z) (admin : bool) (ctx : context) (method reqData : string)
    : http_request + goerr :=
  match MarshalRequest (MkInvokeRequest (serviceName c) method (secret c) (GetOpUserID ctx) admin reqData) with
  | inr e => inr e
  | inl body =>
      let id := GetOperationID ctx in
      inl (MkHttpRequest (endpoint c)
             (if String.eqb id "" then "inprocess_remote_" +:+ Itoa now else id) body)
  end.

(** What [Invoke] makes of the answer: the data to decode, or an error. *)
Definition remote_answer (a : nat) (c : remoteClientConn) (method : string) (r : http_result) : string + goerr :=
  let wrap (e : goerr) (m : string) (kv : list string) := inr (Stack (S a) (Wrapper a e (toString m kv))) in
  match r with
  | NewFails e => wrap e "new remote invoke request" ["url"; endpoint c]
  | DoFails e => wrap e "do remote invoke request" ["url"; endpoint c; "method"; method]
  | ReadFails e => wrap e "read remote invoke response" ["url"; endpoint c; "method"; method]
  | Answer status text body =>
      if negb (status =? StatusOK) then
        inr (Stack (S a) (ErrString a (toString "remote invoke http status not ok"
                ["url"; endpoint c; "method"; method; "status"; text; "body"; body])))
      else
        match UnmarshalResponse body with
        | inr e => wrap e "unmarshal remote invoke response" ["url"; endpoint c; "method"; method; "body"; body]
        | inl resp =>
            if negb (RespCode resp =? 0) then
              let codeErr := NewCodeError (RespCode resp) (RespMsg resp) in
              let codeErr := if String.eqb (RespDlt resp) "" then codeErr else WithDetail (RespDlt resp) codeErr in
              inr (Stack (S a) (Code a codeErr))
            else inl (RespData resp)
        end
  end.

(** [Invoke]: the reply, for what sending a request comes to. *)
Definition remote_Invoke {B} (a : nat) (c : remoteClientConn) (now : Z) (admin : bool) (ctx : context) (method : string)
    (args : string + goerr) (Unmarshal : string → B + goerr) (Do : http_request → http_result) : B + goerr :=
  match args with
  | inr e => inr e
  | inl reqData =>
      match remote_request c now admin ctx method reqData with
      | inr e => inr (Stack (S a) (Wrapper a e "marshal remote invoke request"))
      | inl req =>
          match remote_answer a c method (Do req) with
          | inr e => inr e
          | inl data => Unmarshal data
          end
      end
  end.
End remote.

(** ** Local calls *)

(** The values that [protoCodec] is given: messages, bytes, a pointer to bytes, or others. *)
Inductive codec_value (M : Type) := Proto (m : M) | Bytes (b : string) | BytesPtr (b : string) | Unsupported (ty : string).

Arguments Proto {M} m.
Arguments Bytes {M} b.
Arguments BytesPtr {M} b.
Arguments Unsupported {M} ty.

Definition protoCodec_Marshal {M} (a : nat) (proto_Marshal : M → string + goerr) (v : codec_value M) : string + goerr :=
  match v with
  | Proto m => proto_Marshal m
  | Bytes b | BytesPtr b => inl b
  | Unsupported ty => inr (Other a ("inprocess message codec marshal unsupported type " +:+ ty))
  end.

(** What the value that [out] points to becomes. *)
Definition protoCodec_Unmarshal {M} (a : nat) (proto_Unmarshal : string → M + goerr) (b : string) (out : codec_value M)
    : codec_value M + goerr :=
  match out with
  | Proto _ => match proto_Unmarshal b with inl m => inl (Proto m) | inr e => inr e end
  | BytesPtr _ => inl (BytesPtr b)
  | Bytes _ => inr (Other a "inprocess message codec unmarshal unsupported type []uint8")
  | Unsupported ty => inr (Other a ("inprocess message codec unmarshal unsupported type " +:+ ty))
  end.

(** A relay: what a message is marshalled to goes through bytes unchanged, so a reader on
    the other side of them decodes what one on this side would. *)
Lemma protoCodec_relay {M} a proto_Marshal proto_Unmarshal (v : codec_value M) b old :
  protoCodec_Marshal a proto_Marshal v = inl b →
  ∃ raw, protoCodec_Unmarshal a proto_Unmarshal b (BytesPtr old) = inl raw ∧
    protoCodec_Marshal a proto_Marshal raw = inl b.
Proof. intros _. by exists (BytesPtr b). Qed.

Section local.
Context {A B : Type} (MarshalReq : A → string + goerr) (UnmarshalReq : string → A + goerr)
  (MarshalResp : B → string + goerr) (UnmarshalResp : string → B + goerr).

(** The handler that [RegisterService] stores: the generated [Handler] of the method is
    given the decoding of the request. *)
Definition stored_handler (Handler : A + goerr → B + goerr) (req : A) : B + goerr :=
  Handler (match MarshalReq req with inr e => inr e | inl tmp => UnmarshalReq tmp end).

(** [Invoke], from the handler that was found, or why none was. *)
Definition local_Invoke (handler : (A → B + goerr) + goerr) (args : A) : B + goerr :=
  match handler with
  | inr e => inr e
  | inl h =>
      match h args with
      | inr e => inr e
      | inl resp => match MarshalResp resp with inr e => inr e | inl tmp => UnmarshalResp tmp end
      end
  end.

(** A local call is a call of the method: with messages that the codec gives back, the
    reply is the response of the method to the request, and its error is its error. *)
Lemma local_invoke Handler impl args :
  (∀ e, Handler (inr e) = inr e) → (∀ req, Handler (inl req) = impl req) →
  (∃ b, MarshalReq args = inl b ∧ UnmarshalReq b = inl args) →
  (∀ resp, impl args = inl resp → ∃ b, MarshalResp resp = inl b ∧ UnmarshalResp b = inl resp) →
  local_Invoke (inl (stored_handler Handler)) args = impl args.
Proof.
  intros _ Hi (b & Hm & Hu) Hr. unfold local_Invoke, stored_handler. rewrite Hm, Hu, Hi.
  destruct (impl args) as [resp | e]; [| done]. by destruct (Hr resp eq_refl) as (b' & -> & ->).
Qed.
End local.

(** * From an instance to another *)

Section across.
Context `{!Keys} `{!Grpc} `{!Json} `{!JsonLaws} (trace : nat → option string).

(** An answer is always written, and read with its code and its data. *)
Lemma answer_read r :
  in_int64 (ErrCode r) →
  ∃ body m d, MarshalApi r = inl body ∧
    UnmarshalResponse body = inl (MkInvokeResponse (ErrCode r) m d (default "" (Data r))) ∧
    (ValidString (ErrMsg r) = true → m = ErrMsg r) ∧ (ValidString (ErrDlt r) = true → d = ErrDlt r).
Proof.
  intros Hc. destruct r as [co ms dt data]. simpl in *. unfold MarshalApi, MarshalJSON. simpl.
  destruct data as [b|]; simpl.
  - destruct (bytes_written b) as [raw Hraw]. rewrite Hraw.
    destruct (envelope_read co ms dt (Some b) raw Hc Hraw) as (m & d & ? & ? & ?). by eexists _, m, d.
  - destruct (envelope_read co ms dt None "" Hc eq_refl) as (m & d & ? & ? & ?). by eexists _, m, d.
Qed.

Lemma remote_code a c method text body co m d data :
  UnmarshalResponse body = inl (MkInvokeResponse co m d data) →
  remote_answer a c method (Answer StatusOK text body) =
  if negb (co =? 0) then inr (Stack (S a) (Code a (MkCodeError co m d))) else inl data.
Proof.
  intros Hb. unfold remote_answer. cbn [negb]. rewrite Z.eqb_refl, Hb. cbn [RespCode RespMsg RespDlt RespData negb].
  destruct (co =? 0); [done |]. simpl. by destruct (String.eqb_spec d "") as [-> | Hd].
Qed.

(** C20. What an instance answers is what the caller on another gets.  The answer can
    always be written, provided its code is an int.  The response of the method comes back
    as its data.  An error comes back as a code error with the code of the code error found
    in it, and with its message and its detail if these are valid UTF-8; when there is
    none, with the code of a server error and, if it is valid UTF-8, the text of the
    innermost error.  But an error with the code 0 comes back as a success: the caller
    decodes empty data.  An answer with another status is an error that is no code
    error. *)
Theorem remote_roundtrip {B} a c now admin ctx method reqData req (Unmarshal : string → B + goerr) text r :
  remote_request c now admin ctx method reqData = inl req →
  in_int64 (ErrCode r) →
  ∃ answer, MarshalApi r = inl answer ∧ ∀ Do,
  let reply := remote_Invoke a c now admin ctx method (inl reqData) Unmarshal Do in
  (Do req = Answer StatusOK text answer →
   (∀ data, r = ApiSuccess (Some data) → reply = Unmarshal data) ∧
   (∀ e found, r = ParseError trace (Some e) → as_codeError e = Some found → code found ≠ 0 →
      ∃ e' found', reply = inr e' ∧ as_codeError e' = Some found' ∧ code found' = code found ∧
        (ValidString (msg found) = true → msg found' = msg found) ∧
        (ValidString (detail found) = true → detail found' = detail found)) ∧
   (∀ e, r = ParseError trace (Some e) → as_codeError e = None →
      ∃ e' d t, reply = inr e' ∧ as_codeError e' = Some (MkCodeError ServerInternalError "ServerInternalError" d) ∧
        err_Error trace <$> Errs.Unwrap (Some e) = Some t ∧ (ValidString t = true → d = t)) ∧
   (∀ e found, r = ParseError trace (Some e) → as_codeError e = Some found → code found = 0 → reply = Unmarshal "")) ∧
  (∀ status body, Do req = Answer status text body → status ≠ StatusOK →
     ∃ e', reply = inr e' ∧ as_codeError e' = None).
Proof.
  intros Hreq Hint. destruct (answer_read r Hint) as (body & m & d & Hw & Hread & Hm & Hd).
  exists body. split; [done |]. intros Do. cbv zeta. unfold remote_Invoke. rewrite Hreq. split.
  - intros ->. rewrite (remote_code _ _ _ _ _ _ _ _ _ Hread). split_and!.
    + intros data ->. done.
    + intros e found -> He Hc. revert Hm Hd. unfold ParseError. rewrite He. simpl. intros Hm Hd.
      destruct (Z.eqb_spec (code found) 0); [done |]. by eexists _, (MkCodeError (code found) m d).
    + intros e -> He. revert Hm Hd. unfold ParseError. rewrite He, Unwrap_root. simpl. intros Hm Hd.
      rewrite (Hm eq_refl). by eexists _, d, (err_Error trace (root e)).
    + intros e found -> He Hc. unfold ParseError. rewrite He. simpl. by rewrite Hc.
  - intros status b -> Hs. unfold remote_answer. destruct (Z.eqb_spec status StatusOK); [done |]. simpl.
    eexists. split; done.
Qed.
End across.

(** ** An example *)

#[local] Instance demo_json : Json := {
  MarshalRequest r := inl (Service r +:+ Method_ r +:+ Request r);
  UnmarshalResponse s :=
    match decode (number s) with
    | Some (c, m, d, data) => inl (MkInvokeResponse c m d data)
    | None => inr (Other 0 "unexpected end of JSON input")
    end;
  MarshalBytes b := inl b;
  MarshalEnvelope r := digits (encode (ErrCode r, ErrMsg r, ErrDlt r, default "" (Data r)))
}.

#[local] Instance demo_json_laws : JsonLaws.
Proof.
  split; [by eexists |]. intros c m d data raw _ Hraw. simpl. rewrite number_digits, decode_encode.
  exists m, d. split; [| done]. by destruct data; simplify_eq/=.
Qed.

Definition demo_error : goerr := Stack 3 (Code 2 (MkCodeError 1001 "ArgsError" "userID is empty")).

Lemma remote_roundtrip_witness :
  let c := newRemoteClientConn (λ _, None) " 10.0.0.2:10002 " "user" "s" in
  c = MkRemote "http://10.0.0.2:10002/internal/api_invoke_rpc" "user" "s" "10.0.0.2:10002" ∧
  ∃ answer, MarshalApi (ParseError (λ _, None) (Some demo_error)) = inl answer ∧
  ∃ e' d, remote_Invoke (B := string) 7 c 1 false [] "/user/get" (inl "req") inl (λ _, Answer StatusOK "200 OK" answer) = inr e' ∧
    as_codeError e' = Some d ∧ code d = 1001 ∧ msg d = "ArgsError" ∧ detail d = "userID is empty".
Proof.
  cbv zeta. split; [vm_compute; reflexivity |].
  assert (remote_request (newRemoteClientConn (λ _, None) " 10.0.0.2:10002 " "user" "s") 1 false [] "/user/get" "req" =
    inl (MkHttpRequest "http://10.0.0.2:10002/internal/api_invoke_rpc" "inprocess_remote_1" "user/user/getreq")) as Hreq
    by (vm_compute; reflexivity).
  destruct (remote_roundtrip (B := string) (λ _, None) 7 _ 1 false [] "/user/get" "req" _ inl "200 OK"
    (ParseError (λ _, None) (Some demo_error)) Hreq ltac:(split; vm_compute; [discriminate | reflexivity]))
    as (answer & Hw & Hr).
  exists answer. split; [exact Hw |].
  destruct (Hr (λ _, Answer StatusOK "200 OK" answer)) as [Hok _]. destruct (Hok eq_refl) as (_ & Hcode & _).
  destruct (Hcode demo_error (MkCodeError 1001 "ArgsError" "userID is empty") eq_refl eq_refl)
    as (e' & d & He & Hd & Hc & Hm & Hdt); [discriminate |].
  exists e', d. repeat split; [exact He | exact Hd | exact Hc | exact (Hm eq_refl) | exact (Hdt eq_refl)].
Defined.
