(* ===== verification/ReplaceNil.v ===== *)
(** * Filling what is nil in a response (mw/replace_nil.go, a2r/option.go)

    The values that reflection walks over: pointers lead to a store, so that they may be
    shared or cyclic, and a value is reached either at a place of the store, where it may
    be set, or as a copy, where setting it panics.  Every value knows its type; the fields
    of a struct are those of its declaration. *)

From S2P Require Import Prelude.

(** ** Types and values *)

Inductive gtype :=
| TBasic (name : string)
| TPtr (t : gtype)
| TSlice (e : gtype)
| TMap (k e : gtype)
| TStruct (name : string)
| TIface (name : string).

#[export] Instance gtype_eq_dec : EqDecision gtype.
Proof. solve_decision. Defined.

(** A slice or a map that is not nil has a length, since its elements are not visited. *)
Inductive value :=
| VBasic (name : string) (n : Z)
| VPtr (t : gtype) (o : option nat)
| VSlice (e : gtype) (o : option nat)
| VMap (k e : gtype) (o : option nat)
| VStruct (name : string) (fs : list value)
| VIface (name : string) (o : option value).

Definition type_of (v : value) : gtype :=
  match v with
  | VBasic name _ => TBasic name
  | VPtr t _ => TPtr t
  | VSlice e _ => TSlice e
  | VMap k e _ => TMap k e
  | VStruct name _ => TStruct name
  | VIface name _ => TIface name
  end.

Abbreviation heap := (gmap nat value).

(** [struct{}]. *)
Definition empty_struct : string := "struct{}".

(** ** Places *)

Fixpoint get (p : list nat) (v : value) : option value :=
  match p, v with
  | [], _ => Some v
  | i :: p, VStruct _ fs => fs !! i ≫= get p
  | _ :: _, _ => None
  end.

Fixpoint put (p : list nat) (x v : value) : value :=
  match p, v with
  | [], _ => x
  | i :: p, VStruct n fs => VStruct n (alter (put p x) i fs)
  | _ :: _, _ => v
  end.

(** A [reflect.Value]. *)
Inductive rv := Addr (l : nat) (p : list nat) | Temp (v : value).

Definition read (h : heap) (r : rv) : option value :=
  match r with Addr l p => h !! l ≫= get p | Temp v => Some v end.

(** [Field]. *)
Definition field (r : rv) (i : nat) : option rv :=
  match r with
  | Addr l p => Some (Addr l (p ++ [i]))
  | Temp v => Temp <$> get [i] v
  end.

Definition set_rv (r : rv) (x : value) (h : heap) : outcome heap :=
  match r with
  | Addr l p => Ret (alter (put p x) l h)
  | Temp _ => Panic "reflect: call of reflect.Value.Set on unaddressable value"
  end.

Section replace.

(** The declared fields of a struct, each exported or not, and the types that implement
    an interface. *)
Context (fields : string → list (bool * gtype)) (implements : gtype → string → bool).

Definition set_iface (r : rv) (n : string) (x : value) (h : heap) : outcome heap :=
  if implements (type_of x) n then set_rv r (VIface n (Some x)) h
  else Panic "reflect.Set: value is not assignable to the type".

(** [getRealType] of a type: [Elem] panics on that of an interface. *)
Fixpoint getRealType (t : gtype) : outcome gtype :=
  match t with
  | TPtr t => getRealType t
  | TIface _ => Panic "reflect: Elem of invalid type"
  | t => Ret t
  end.

(** [shouldReplace] of a value, [None] being an invalid one; [None] out of fuel. *)
Fixpoint shouldReplace (fuel : nat) (h : heap) (v : option value) : option bool :=
  match fuel with
  | O => None
  | S fuel =>
      match v with
      | None | Some (VSlice _ None) | Some (VMap _ _ None) => Some true
      | Some (VPtr _ o) => shouldReplace fuel h (o ≫= (h !!.))
      | Some (VIface _ o) => shouldReplace fuel h o
      | Some _ => Some false
      end
  end.

(** The last branch of [replaceNil]: the interface gets what is empty for the type of its
    content. *)
Definition replace_iface (r : rv) (n : string) (o : option value) (h : heap) : outcome heap :=
  match o with
  | None => Ret h
  | Some v =>
      let! real := getRealType (type_of v) in
      match real with
      | TSlice e => set_iface r n (VSlice e (Some 0)) h
      | TMap k e => set_iface r n (VMap k e (Some 0)) h
      | TStruct _ =>
          let l := fresh (dom h) in
          set_iface r n (VPtr (TStruct empty_struct) (Some l)) (<[l := VStruct empty_struct []]> h)
      | _ => Ret h
      end
  end%go.

(** The loop over the exported fields, from the [i]-th. *)
Fixpoint field_loop (rec : heap → rv → option (outcome heap)) (r : rv) (fs : list (bool * gtype)) (i : nat) (h : heap)
    : option (outcome heap) :=
  match fs with
  | [] => Some (Ret h)
  | (false, _) :: fs => field_loop rec r fs (S i) h
  | (true, _) :: fs =>
      match field r i with
      | None => Some (Ret h)
      | Some f =>
          match rec h f with
          | Some (Ret h) => field_loop rec r fs (S i) h
          | o => o
          end
      end
  end.

(** [None] is running out of fuel. *)
Fixpoint replaceNil (fuel : nat) (h : heap) (r : rv) : option (outcome heap) :=
  match fuel with
  | O => None
  | S fuel =>
      match read h r with
      | Some (VPtr t (Some l)) => replaceNil fuel h (Addr l [])
      | Some (VPtr t None) =>
          match t with
          | TPtr t =>
              let l := fresh (dom h) in
              match set_rv r (VPtr (TPtr t) (Some l)) (<[l := VPtr t None]> h) with
              | Ret h => replaceNil fuel h (Addr l [])
              | Panic why => Some (Panic why)
              end
          | _ => Some (Ret h)
          end
      | Some (VSlice e None) => Some (set_rv r (VSlice e (Some 0)) h)
      | Some (VMap k e None) => Some (set_rv r (VMap k e (Some 0)) h)
      | Some (VStruct n fs) => field_loop (replaceNil fuel) r (fields n) 0 h
      | Some (VIface n o) =>
          match o with
          | None => Some (replace_iface r n o h)
          | Some v =>
              match shouldReplace fuel h (Some v) with
              | None => None
              | Some true => Some (replace_iface r n o h)
              | Some false => replaceNil fuel h (Temp v)
              end
          end
      | _ => Some (Ret h)
      end
  end.

(** [ReplaceNil] of an [any], and the option of a2r that applies it to a response. *)
Definition ReplaceNil (fuel : nat) (data : option value) (h : heap) : option (outcome heap) :=
  match data with None => Some (Ret h) | Some v => replaceNil fuel h (Temp v) end.

Definition respNilReplace (fuel : nat) (t : gtype) (data : option nat) (h : heap) : option (outcome heap) :=
  ReplaceNil fuel (Some (VPtr t data)) h.

(** ** What a store may become *)

(** Nil inside: a nil slice, map, pointer or interface, or a pointer or interface to such. *)
Inductive hollow (h : heap) : value → Prop :=
| hollow_slice e : hollow h (VSlice e None)
| hollow_map k e : hollow h (VMap k e None)
| hollow_nil t : hollow h (VPtr t None)
| hollow_ptr t l : (∀ v, h !! l = Some v → hollow h v) → hollow h (VPtr t (Some l))
| hollow_iface_nil n : hollow h (VIface n None)
| hollow_iface n v : hollow h v → hollow h (VIface n (Some v)).

(** What an interface gets for the type of its content. *)
Definition empty_of (h : heap) (t : gtype) (v : value) : Prop :=
  match getRealType t with
  | Ret (TSlice e) => v = VSlice e (Some 0)
  | Ret (TMap k e) => v = VMap k e (Some 0)
  | Ret (TStruct _) => ∃ l, v = VPtr (TStruct empty_struct) (Some l) ∧ h !! l = Some (VStruct empty_struct [])
  | _ => False
  end.

(** A value of [h] and what it is in [h']: nil slices and maps may be empty ones, nil
    pointers to pointers may point to new ones, and the content of an interface may be
    replaced when it is nil inside.  Everything else is as it was. *)
Inductive refines (h h' : heap) : value → value → Prop :=
| refines_same v : refines h h' v v
| refines_slice e : refines h h' (VSlice e None) (VSlice e (Some 0))
| refines_map k e : refines h h' (VMap k e None) (VMap k e (Some 0))
| refines_ptr t l v : h !! l = None → h' !! l = Some v → refines h h' (VPtr t None) v →
    refines h h' (VPtr (TPtr t) None) (VPtr (TPtr t) (Some l))
| refines_iface n v v' : hollow h v → implements (type_of v') n = true → empty_of h' (type_of v) v' →
    refines h h' (VIface n (Some v)) (VIface n (Some v'))
| refines_struct n fs fs' : length fs = length fs' →
    (∀ i x y, fs !! i = Some x → fs' !! i = Some y → refines h h' x y) →
    refines h h' (VStruct n fs) (VStruct n fs').

Definition hrefines (h h' : heap) : Prop :=
  ∀ l v, h !! l = Some v → ∃ v', h' !! l = Some v' ∧ refines h h' v v'.

(** Well-formed values: pointers lead to values of their type, structs have their declared
    fields, contents implement their interfaces. *)
Inductive ok (h : heap) : value → Prop :=
| ok_basic n k : ok h (VBasic n k)
| ok_slice e o : ok h (VSlice e o)
| ok_map k e o : ok h (VMap k e o)
| ok_nil t : ok h (VPtr t None)
| ok_ptr l v : h !! l = Some v → ok h (VPtr (type_of v) (Some l))
| ok_struct n fs : type_of <$> fs = (fields n).*2 → (∀ i x, fs !! i = Some x → ok h x) → ok h (VStruct n fs)
| ok_iface_nil n : ok h (VIface n None)
| ok_iface n v : implements (type_of v) n = true → ok h v → ok h (VIface n (Some v)).

Definition ok_heap (h : heap) : Prop := ∀ l v, h !! l = Some v → ok h v.

(** * Lemmas *)

(** ** Places *)

Lemma get_app p q v : get (p ++ q) v = get p v ≫= get q.
Proof. revert v. induction p as [|i p IH]; intros v; [done |]. destruct v; try done. simpl. destruct (fs !! i); [apply IH | done].
Qed.

Lemma get_put p x y v : get p v = Some y → get p (put p x v) = Some x.
Proof.
  revert v. induction p as [|i p IH]; intros v Hg; [done |]. destruct v as [| | | | n fs |]; try done. simpl in *.
  rewrite list_lookup_alter_eq. destruct (fs !! i) as [w|]; [simpl in * | done]. auto.
Qed.

Lemma read_field h r i f : field r i = Some f → read h f = read h r ≫= get [i].
Proof.
  destruct r as [l p | v]; intros Hf.
  - injection Hf as <-. simpl. destruct (h !! l) as [v|]; [simpl | done]. apply get_app.
  - unfold field in Hf. apply fmap_Some in Hf as (x & Hx & ->). symmetry. exact Hx.
Qed.

Lemma type_of_put p x y v : get p v = Some y → type_of x = type_of y → type_of (put p x v) = type_of v.
Proof. destruct p; [by intros [= ->] |]. by destruct v. Qed.

(** ** Refinement *)

Lemma refines_type h h' v v' : refines h h' v v' → type_of v = type_of v'.
Proof. by destruct 1. Qed.

Lemma refines_put h h' p x y v : get p v = Some y → refines h h' y x → refines h h' v (put p x v).
Proof.
  revert v. induction p as [|i p IH]; intros v Hg Hr; [by injection Hg as -> |].
  destruct v as [| | | | n fs |]; try done. simpl in *. constructor; [by rewrite length_alter |].
  intros j a b Ha Hb. destruct (decide (i = j)) as [<- | Hne].
  - rewrite list_lookup_alter_eq, Ha in Hb. injection Hb as <-. rewrite Ha in Hg. by apply IH.
  - rewrite list_lookup_alter_ne, Ha in Hb by done. injection Hb as <-. constructor.
Qed.

Lemma refines_get h h' p v v' y :
  refines h h' v v' → get p v = Some y → ∃ y', get p v' = Some y' ∧ refines h h' y y'.
Proof.
  revert v v' y. induction p as [|i p IH]; intros v v' y Hr Hg; [injection Hg as <-; by exists v' |].
  destruct Hr as [v | | | | | n fs fs' Hlen Hfs]; try done; [exists y; split; [done | constructor] |].
  simpl in *. destruct (fs !! i) as [a|] eqn:Ha; [simpl in Hg | done].
  destruct (lookup_lt_is_Some_2 fs' i) as [b Hb]; [rewrite <- Hlen; by eapply lookup_lt_Some |].
  rewrite Hb. by apply (IH a b); [eapply Hfs |].
Qed.

#[local] Hint Constructors refines hollow ok : core.

Lemma hollow_before h h1 v v1 : hrefines h h1 → hollow h1 v1 → refines h h1 v v1 → hollow h v.
Proof.
  intros Hh Hv. revert v. induction Hv as [| | | t l Hv IH | | n v1 Hv IH]; intros v Hr; inversion Hr; subst; auto.
  constructor. intros x Hx. destruct (Hh l x Hx) as (x1 & Hx1 & Hxr). by apply (IH x1).
Qed.

Lemma refines_before h h1 h2 v v' : hrefines h h1 → refines h1 h2 v v' → refines h h2 v v'.
Proof.
  intros Hh. induction 1 as [| | | t l v Hl Hl' _ IH | n v v' Hv Hi He | n fs fs' Hlen Hfs IH]; auto.
  - econstructor; [| done..]. destruct (h !! l) as [x|] eqn:Hx; [| done].
    destruct (Hh l x Hx) as (? & Hl1 & _). congruence.
  - constructor; [| done..]. by eapply hollow_before.
Qed.

Lemma refines_trans h h1 h2 v v1 v2 :
  hrefines h h1 → hrefines h1 h2 → refines h h1 v v1 → refines h1 h2 v1 v2 → refines h h2 v v2.
Proof.
  intros Hh Hh'. intros Hr. revert v2.
  induction Hr as [v | | | t l v Hl Hl' _ IH | n v v' Hv Hi He | n fs fs' Hlen Hfs IH]; intros v2 Hr2.
  - by eapply refines_before.
  - by inversion Hr2; subst.
  - by inversion Hr2; subst.
  - inversion Hr2; subst. destruct (Hh' l v Hl') as (x & Hx & Hxr). econstructor; [done.. |]. by apply IH.
  - inversion Hr2; subst.
    + constructor; [done.. |]. unfold empty_of in *. destruct (getRealType _) as [[]|]; try done.
      destruct He as (l & -> & Hl). exists l. split; [done |]. destruct (Hh' l _ Hl) as (x & Hx & Hxr).
      rewrite Hx. inversion Hxr as [| | | | | ? ? fs' Hlen]; subst; [done |]. by destruct fs'.
    + exfalso. unfold empty_of in He. match goal with H : hollow h1 v' |- _ => rename H into Hho end.
      destruct (getRealType (type_of v)) as [[]|]; try done; try (subst v'; by inversion Hho).
      destruct He as (l & -> & Hl). inversion Hho as [| | | ? ? Hn | |]; subst. specialize (Hn _ Hl). by inversion Hn.
  - inversion Hr2 as [| | | | | ? ? fs2 Hlen2 Hfs2]; subst.
    + constructor; [done |]. intros i x y Hx Hy. apply (IH i x y Hx Hy). constructor.
    + constructor; [congruence |]. intros i x y Hx Hy.
      destruct (lookup_lt_is_Some_2 fs' i) as [z Hz]; [rewrite <- Hlen; by eapply lookup_lt_Some |].
      eapply (IH i x z); [done.. |]. by eapply Hfs2.
Qed.

#[local] Instance hrefines_preorder : PreOrder hrefines.
Proof.
  split.
  - intros h l v Hl. exists v. split; [done | constructor].
  - intros h h1 h2 H1 H2 l v Hl. destruct (H1 l v Hl) as (v1 & Hl1 & Hr1). destruct (H2 l v1 Hl1) as (v2 & Hl2 & Hr2).
    exists v2. split; [done |]. by eapply refines_trans.
Qed.

Lemma read_refines h h' r y : hrefines h h' → read h r = Some y → ∃ y', read h' r = Some y' ∧ refines h h' y y'.
Proof.
  destruct r as [l p | v]; simpl; intros Hh Hg; [| injection Hg as ->; eauto].
  destruct (h !! l) as [v|] eqn:Hl; [simpl in Hg | done]. destruct (Hh l v Hl) as (v' & -> & Hr).
  simpl. by eapply refines_get.
Qed.

(** Setting a place to what its value may become, in the store or in one with new values. *)
Lemma set_refines h h0 r x y h' :
  read h r = Some y → h ⊆ h0 → set_rv r x h0 = Ret h' →
  refines h h' y x → hrefines h h' ∧ read h' r = Some x.
Proof.
  destruct r as [l p | v]; [| done]. intros Hg Hsub Hs Hr. injection Hs as <-.
  simpl in *. destruct (h !! l) as [v|] eqn:Hl; [simpl in Hg | done].
  assert (h0 !! l = Some v) as Hl0 by (by eapply lookup_weaken). split.
  - intros l' w Hw. destruct (decide (l = l')) as [<- | Hne].
    + rewrite lookup_alter_eq, Hl0. eexists. split; [done |]. simplify_eq. by eapply refines_put.
    + rewrite lookup_alter_ne by done. exists w. split; [by eapply lookup_weaken | constructor].
  - rewrite lookup_alter_eq, Hl0. simpl. by eapply get_put.
Qed.

(** ** Well-formed stores *)

Definition types_le (h h' : heap) : Prop :=
  ∀ l v, h !! l = Some v → ∃ v', h' !! l = Some v' ∧ type_of v' = type_of v.

Lemma ok_mono h h' v : types_le h h' → ok h v → ok h' v.
Proof.
  intros Ht. induction 1 as [| | | | l v Hl | | |]; auto.
  destruct (Ht l v Hl) as (v' & Hl' & <-). by constructor.
Qed.

Lemma ok_get h p v y : ok h v → get p v = Some y → ok h y.
Proof.
  revert v. induction p as [|i p IH]; intros v Hok Hg; [by injection Hg as <- |].
  destruct v as [| | | | n fs |]; try done. simpl in Hg. destruct (fs !! i) as [a|] eqn:Ha; [simpl in Hg | done].
  inversion Hok; subst. eauto.
Qed.

Lemma ok_put h p x y v : ok h v → get p v = Some y → ok h x → type_of x = type_of y → ok h (put p x v).
Proof.
  intros Hok Hg Hx Ht. revert v Hok Hg. induction p as [|i p IH]; intros v Hok Hg; [done |].
  destruct v as [| | | | n fs |]; try done. simpl in *. destruct (fs !! i) as [a|] eqn:Ha; [simpl in Hg | done].
  inversion Hok as [| | | | | ? ? Hfs Hall | |]; subst. constructor.
  - rewrite <- Hfs. apply list_eq. intros j. rewrite !list_lookup_fmap. destruct (decide (i = j)) as [<- | Hne].
    + rewrite list_lookup_alter_eq, Ha. simpl. f_equal. by eapply type_of_put.
    + by rewrite list_lookup_alter_ne.
  - intros j b Hb. destruct (decide (i = j)) as [<- | Hne].
    + rewrite list_lookup_alter_eq, Ha in Hb. injection Hb as <-. eauto.
    + rewrite list_lookup_alter_ne in Hb by done. eauto.
Qed.

Lemma ok_heap_insert h l v : h !! l = None → ok_heap h → ok h v → ok_heap (<[l := v]> h) ∧ types_le h (<[l := v]> h).
Proof.
  intros Hl Hh Hv. assert (types_le h (<[l := v]> h)) as Ht.
  { intros l' w Hw. exists w. split; [| done]. rewrite lookup_insert_ne; [done | congruence]. }
  split; [| done]. intros l' w. rewrite lookup_insert_Some. intros [[_ <-] | [_ Hw]]; apply (ok_mono h); eauto.
Qed.

Lemma set_ok h r x y h' :
  read h r = Some y → set_rv r x h = Ret h' → ok_heap h → ok h x → type_of x = type_of y → ok_heap h'.
Proof.
  destruct r as [l p | v]; [| done]. intros Hg Hs Hh Hx Ht. injection Hs as <-. simpl in Hg.
  destruct (h !! l) as [v|] eqn:Hl; [simpl in Hg | done].
  assert (types_le h (alter (put p x) l h)) as Hle.
  { intros l' w Hw. destruct (decide (l = l')) as [<- | Hne].
    - rewrite lookup_alter_eq, Hl. simplify_eq. eexists. split; [done |]. by eapply type_of_put.
    - rewrite lookup_alter_ne by done. by exists w. }
  intros l' w Hw. apply (ok_mono h _ _ Hle). destruct (decide (l = l')) as [<- | Hne].
  - rewrite lookup_alter_eq, Hl in Hw. injection Hw as <-. eapply ok_put; eauto.
  - rewrite lookup_alter_ne in Hw by done. eauto.
Qed.

(** ** What is left when it returns *)

(** Nothing exported is a nil slice, map or pointer to pointer; an interface may hold a nil
    pointer to something basic. *)
Inductive clean (h : heap) : value → Prop :=
| clean_basic n k : clean h (VBasic n k)
| clean_slice e k : clean h (VSlice e (Some k))
| clean_map k e n : clean h (VMap k e (Some n))
| clean_nil t : (∀ t', t ≠ TPtr t') → clean h (VPtr t None)
| clean_ptr t l v : h !! l = Some v → clean h v → clean h (VPtr t (Some l))
| clean_struct n fs : (∀ i t x, fields n !! i = Some (true, t) → fs !! i = Some x → clean h x) → clean h (VStruct n fs)
| clean_iface_nil n : clean h (VIface n None)
| clean_iface n v : clean h v → clean h (VIface n (Some v))
| clean_blank n v s : getRealType (type_of v) = Ret (TBasic s) → clean h (VIface n (Some v)).

#[local] Hint Constructors clean : core.

Lemma empty_clean h t v n : empty_of h t v → clean h (VIface n (Some v)).
Proof.
  unfold empty_of. destruct (getRealType t) as [[]|]; try done; try (intros ->; auto).
  intros (l & -> & Hl). apply clean_iface. econstructor; [done |]. by constructor.
Qed.

Lemma clean_refines h h' v v' : hrefines h h' → clean h v → refines h h' v v' → clean h' v'.
Proof.
  intros Hh Hc. revert v'. induction Hc as [| | | t Hne | t l v Hl _ IH | n fs _ IH | | n v _ IH | n v s Hs];
    intros v' Hr; inversion Hr as [| | | ? ? ? | ? ? ? Hho Hi He | ? ? fs' Hlen Hfs]; subst; auto.
  - by destruct (Hne t0).
  - destruct (Hh l v Hl) as (x & Hx & Hxr). eauto.
  - constructor. intros i t x Hi Hx. eapply IH; [done.. | constructor].
  - constructor. intros i t y Hi Hy. destruct (lookup_lt_is_Some_2 fs i) as [x Hx]; [rewrite Hlen; by eapply lookup_lt_Some |].
    eapply IH; [done.. |]. by eapply Hfs.
  - by eapply empty_clean.
  - by eapply clean_blank.
  - by eapply empty_clean.
Qed.

(** [struct{}] has no fields. *)
Context (no_fields : fields empty_struct = []).

Definition rv_ok (h : heap) (r : rv) : Prop := ∀ v, read h r = Some v → ok h v.

Record post (h : heap) (r : rv) (h' : heap) : Prop := {
  post_refines : hrefines h h';
  post_ok : ok_heap h';
  post_clean v : read h' r = Some v → clean h' v
}.

Lemma types_refines h h' : hrefines h h' → types_le h h'.
Proof.
  intros Hh l v Hl. destruct (Hh l v Hl) as (v' & Hl' & Hr). exists v'. split; [done |].
  symmetry. by eapply refines_type.
Qed.

Lemma addr_ok h l p : ok_heap h → rv_ok h (Addr l p).
Proof. intros Hh v. simpl. destruct (h !! l) as [w|] eqn:Hl; [simpl | done]. intros Hg.
  exact (ok_get h p w v (Hh l w Hl) Hg).
Qed.

Lemma rv_ok_refines h h' r : hrefines h h' → ok_heap h' → rv_ok h r → rv_ok h' r.
Proof.
  destruct r as [l p | v]; intros Hh Hok Hr; [by apply addr_ok |].
  intros w [= <-]. apply (ok_mono h); [by apply types_refines | by apply Hr].
Qed.

Lemma field_ok h r i f : field r i = Some f → rv_ok h r → rv_ok h f.
Proof.
  intros Hf Hr v. rewrite (read_field h r i f Hf). destruct (read h r) as [w|] eqn:Hw; [simpl | done].
  intros Hg. exact (ok_get h [i] w v (Hr w Hw) Hg).
Qed.

Lemma leaf_post h h0 r x y h' :
  read h r = Some y → h ⊆ h0 → set_rv r x h0 = Ret h' → refines h h' y x →
  ok_heap h0 → ok h0 x → type_of x = type_of y → clean h' x → post h r h'.
Proof.
  intros Hg Hsub Hs Hr Hok Hx Ht Hc. destruct (set_refines _ _ _ _ _ _ Hg Hsub Hs Hr) as [Hh Hread].
  assert (read h0 r = Some y) as Hg0.
  { destruct r as [l p | v]; [simpl in * | done]. destruct (h !! l) as [v|] eqn:Hl; [| done].
    by rewrite (lookup_weaken _ _ _ _ Hl Hsub). }
  split; [done | by eapply set_ok |]. intros v Hv. congruence.
Qed.

Lemma set_fresh h r x y l v h' :
  read h r = Some y → h !! l = None → set_rv r x (<[l := v]> h) = Ret h' → h' !! l = Some v.
Proof.
  destruct r as [l' p |]; [| done]. simpl. intros Hg Hl [= <-].
  rewrite lookup_alter_ne, lookup_insert_eq; [done |]. intros ->. by rewrite Hl in Hg.
Qed.

Lemma fresh_dom (h : heap) : h !! fresh (dom h) = None.
Proof. apply not_elem_of_dom, is_fresh. Qed.

Lemma replace_iface_post h r n v h' :
  read h r = Some (VIface n (Some v)) → hollow h v → ok_heap h →
  replace_iface r n (Some v) h = Ret h' → post h r h'.
Proof.
  intros Hg Hho Hh He. unfold replace_iface in He. destruct (getRealType (type_of v)) as [t|] eqn:Ht; [simpl in He | done].
  assert (∀ w, empty_of h' (type_of v) w → implements (type_of w) n = true →
    refines h h' (VIface n (Some v)) (VIface n (Some w))) as Hr by (intros; by constructor).
  unfold set_iface, empty_of in *. rewrite Ht in Hr. destruct t as [s | t | e | k e | s | s].
  - injection He as <-. split; [reflexivity | done |]. intros w Hw. rewrite Hg in Hw. injection Hw as <-. by eapply clean_blank.
  - exfalso. clear -Ht. induction (type_of v); simpl in *; try done; auto.
  - destruct (implements _ n) eqn:Hi; [| done]. eapply leaf_post; try done; eauto.
  - destruct (implements _ n) eqn:Hi; [| done]. eapply leaf_post; try done; eauto.
  - destruct (implements _ n) eqn:Hi; [| done]. pose proof (fresh_dom h) as Hl.
    pose proof (set_fresh _ _ _ _ _ _ _ Hg Hl He) as Hl'.
    assert (ok h (VStruct empty_struct [])) as Hes by (constructor; [by rewrite no_fields | done]).
    destruct (ok_heap_insert _ _ _ Hl Hh Hes) as [Hok' _].
    eapply leaf_post; [done | by apply insert_subseteq | done | | done | | done |]; eauto.
    + constructor; [done |]. apply (ok_ptr _ _ (VStruct empty_struct [])). by rewrite lookup_insert_eq.
    + constructor. econstructor; [done |]. by constructor.
  - exfalso. clear -Ht. induction (type_of v); simpl in *; try done; auto.
Qed.

Lemma shouldReplace_hollow fuel h v : shouldReplace fuel h (Some v) = Some true → hollow h v.
Proof.
  revert v. induction fuel as [|fuel IH]; intros v Hs; [done |]. simpl in Hs.
  destruct v as [| t [l|] | ? [] | ? ? [] | | n [v|]]; try done; eauto.
  constructor. simpl in Hs. intros v Hl. rewrite Hl in Hs. auto.
Qed.

Lemma struct_refines h h' r n fs :
  hrefines h h' → read h r = Some (VStruct n fs) → ∃ fs', read h' r = Some (VStruct n fs') ∧ length fs' = length fs.
Proof.
  intros Hh Hr. destruct (read_refines _ _ _ _ Hh Hr) as (v' & Hr' & Href).
  inversion Href; subst; eauto.
Qed.

Lemma field_read h r n fs i x : read h r = Some (VStruct n fs) → fs !! i = Some x →
  ∃ f, field r i = Some f ∧ read h f = Some x.
Proof.
  intros Hr Hi. assert (∃ f, field r i = Some f) as [f Hf].
  { destruct r as [l p | v]; [by eexists |]. injection Hr as ->. simpl. rewrite Hi. simpl. by eexists. }
  exists f. split; [done |]. rewrite (read_field h r i f Hf), Hr. simpl. by rewrite Hi.
Qed.

(** The exported fields before the [k]-th are clean. *)
Definition fields_clean (h : heap) (r : rv) (n : string) (k : nat) : Prop :=
  ∀ fs i t x, read h r = Some (VStruct n fs) → (i < k)%nat → fields n !! i = Some (true, t) → fs !! i = Some x → clean h x.

Lemma fields_clean_refines h h' r n k fs :
  hrefines h h' → read h r = Some (VStruct n fs) → fields_clean h r n k → fields_clean h' r n k.
Proof.
  intros Hh Hr Hc fs' i t y Hr' Hik Hi Hy. destruct (read_refines _ _ _ _ Hh Hr) as (v' & Hv' & Href).
  rewrite Hr' in Hv'. injection Hv' as <-.
  assert (length fs' = length fs) as Hlen by (inversion Href; subst; done).
  destruct (lookup_lt_is_Some_2 fs i) as [x Hx]; [rewrite <- Hlen; by eapply lookup_lt_Some |].
  apply (clean_refines h h' x); [done | by eapply Hc |].
  inversion Href; subst; [simplify_eq; constructor | eauto].
Qed.

Lemma field_loop_post rec r n fds i h h' vs :
  (∀ h r h', rec h r = Some (Ret h') → ok_heap h → rv_ok h r → post h r h') →
  fds = drop i (fields n) → read h r = Some (VStruct n vs) → ok_heap h → rv_ok h r → fields_clean h r n i →
  field_loop rec r fds i h = Some (Ret h') → hrefines h h' ∧ ok_heap h' ∧ fields_clean h' r n (length (fields n)).
Proof.
  intros Hrec. revert i h vs. induction fds as [|[e t] fds IH]; intros i h vs Hd Hr Hh Hrok Hc Hl.
  - injection Hl as <-. split_and!; [reflexivity | done |]. intros fs j t x Hfs Hj. apply Hc; [done |].
    apply (f_equal length) in Hd. rewrite length_drop in Hd. simpl in Hd. lia.
  - assert (fields n !! i = Some (e, t)) as Hi.
    { pose proof (lookup_drop (fields n) i 0) as Hli. rewrite <- Hd, Nat.add_0_r in Hli. done. }
    assert (fds = drop (S i) (fields n)) as Hd'.
    { by rewrite (drop_S _ _ _ Hi) in Hd; injection Hd. }
    pose proof (Hrok _ Hr) as Hok. inversion Hok as [| | | | | ? ? Hty Hall | |]; subst.
    assert (i < length vs)%nat as Hlt.
    { apply (f_equal length) in Hty. rewrite !length_fmap in Hty. rewrite Hty. by eapply lookup_lt_Some. }
    destruct (lookup_lt_is_Some_2 vs i Hlt) as [x Hx].
    destruct (field_read _ _ _ _ _ _ Hr Hx) as (f & Hf & Hfx). simpl in Hl. destruct e.
    + rewrite Hf in Hl. destruct (rec h f) as [[h1|]|] eqn:Hrf; try done.
      destruct (Hrec _ _ _ Hrf Hh (field_ok _ _ _ _ Hf Hrok)) as [H1 H2 H3].
      destruct (struct_refines _ _ _ _ _ H1 Hr) as (vs' & Hr' & Hlen).
      destruct (IH (S i) h1 vs') as (H4 & H5 & H6); try done.
      * by eapply rv_ok_refines.
      * intros fs j t' y Hfs Hj Hjt Hy. destruct (decide (j = i)) as [-> | Hne].
        -- apply H3. rewrite (read_field h1 r i f Hf), Hfs. simpl. by rewrite Hy.
        -- apply (fields_clean_refines h h1 r n i vs H1 Hr Hc fs j t' y); [done | lia | done | done].
      * split_and!; [by etrans | done | done].
    + apply (IH (S i) h vs); try done. intros fs j t' y Hfs Hj Hjt Hy.
      destruct (decide (j = i)) as [-> | Hne]; [congruence |]. apply (Hc fs j t' y); [done | lia | done | done].
Qed.

(** The new pointer for a nil pointer to a pointer. *)
Lemma new_pointer h r t h0 :
  read h r = Some (VPtr (TPtr t) None) →
  set_rv r (VPtr (TPtr t) (Some (fresh (dom h)))) (<[fresh (dom h) := VPtr t None]> h) = Ret h0 → ok_heap h →
  hrefines h h0 ∧ read h0 r = Some (VPtr (TPtr t) (Some (fresh (dom h)))) ∧
  h0 !! fresh (dom h) = Some (VPtr t None) ∧ ok_heap h0.
Proof.
  intros Hv Hs Hh. pose proof (fresh_dom h) as Hl. set (l := fresh (dom h)) in *.
  pose proof (set_fresh _ _ _ _ _ _ _ Hv Hl Hs) as Hl0.
  destruct (ok_heap_insert h l (VPtr t None) Hl Hh (ok_nil h t)) as [Hok1 _].
  assert (refines h h0 (VPtr (TPtr t) None) (VPtr (TPtr t) (Some l))) as Hrf by (econstructor; [done.. | constructor]).
  destruct (set_refines h _ r _ _ h0 Hv (insert_subseteq h l (VPtr t None) Hl) Hs Hrf) as [H0 Hr0].
  split_and!; [done.. |].
  assert (read (<[l := VPtr t None]> h) r = Some (VPtr (TPtr t) None)) as Hv1.
  { destruct r as [l' p | v]; [simpl in * | done]. destruct (h !! l') as [v|] eqn:Hl'; [| done].
    rewrite lookup_insert_ne by congruence. by rewrite Hl'. }
  eapply (set_ok _ r); [done | done | done | | done].
  apply (ok_ptr _ _ (VPtr t None)). by rewrite lookup_insert_eq.
Qed.

Lemma replaceNil_post fuel h r h' :
  replaceNil fuel h r = Some (Ret h') → ok_heap h → rv_ok h r → post h r h'.
Proof.
  revert h r h'. induction fuel as [|fuel IH]; intros h r h' He Hh Hr; [done |]. simpl in He.
  assert (∀ v, read h r = Some v → clean h v → Some (Ret h) = Some (Ret h') → post h r h') as Hdone.
  { intros v Hv Hc [= <-]. split; [reflexivity | done |]. intros w Hw. congruence. }
  destruct (read h r) as [[n k | t [l|] | e [k|] | k e [m|] | n fs | n [v|]]|] eqn:Hv; eauto.
  - destruct (IH _ _ _ He Hh (addr_ok h l [] Hh)) as [H1 H2 H3]. split; [done | done |].
    intros w Hw. destruct (read_refines _ _ _ _ H1 Hv) as (w' & Hw' & Href). rewrite Hw in Hw'. injection Hw' as <-.
    inversion Href; subst. pose proof (Hr _ Hv) as Hok. inversion Hok as [| | | | ? x Hl | | |]; subst.
    destruct (H1 l x Hl) as (x' & Hx' & _). apply (clean_ptr _ _ _ x' Hx'). apply H3. simpl. by rewrite Hx'.
  - destruct t as [| t | | | |]; try (eapply Hdone; [done | by constructor | done]).
    destruct (set_rv r _ _) as [h0|] eqn:Hs; [| done].
    destruct (new_pointer _ _ _ _ Hv Hs Hh) as (H0 & Hr0 & Hl0 & Hok0). set (l := fresh (dom h)) in *.
    destruct (IH _ _ _ He Hok0 (addr_ok h0 l [] Hok0)) as [H1 H2 H3].
    destruct (H1 l _ Hl0) as (x & Hx & _). split; [by etrans | done |].
    intros w Hw. destruct (read_refines _ _ _ _ H1 Hr0) as (w' & Hw' & Href). rewrite Hw in Hw'. injection Hw' as <-.
    inversion Href; subst. apply (clean_ptr _ _ _ x Hx). apply H3. simpl. by rewrite Hx.
  - injection He as He. eapply leaf_post; eauto.
  - injection He as He. eapply leaf_post; eauto.
  - destruct (field_loop_post _ r n _ 0 h h' fs IH eq_refl Hv Hh Hr) as (H1 & H2 & H3); [| done |].
    { intros ? ? ? ? ? Hj. lia. }
    split; [done | done |]. intros w Hw. destruct (struct_refines _ _ _ _ _ H1 Hv) as (fs' & Hw' & _).
    rewrite Hw in Hw'. injection Hw' as ->. constructor. intros i t x Hi Hx. eapply H3; try done. by eapply lookup_lt_Some.
  - destruct (shouldReplace fuel h (Some v)) as [[|]|] eqn:Hsr; [| | done].
    + injection He as He. eapply replace_iface_post; try done. by eapply shouldReplace_hollow.
    + assert (rv_ok h (Temp v)) as Hrv.
      { intros w [= <-]. pose proof (Hr _ Hv) as Hok. by inversion Hok. }
      destruct (IH _ _ _ He Hh Hrv) as [H1 H2 H3]. split; [done | done |]. intros w Hw.
      destruct (read_refines _ _ _ _ H1 Hv) as (w' & Hw' & Href). rewrite Hw in Hw'. injection Hw' as <-.
      inversion Href; subst; [apply clean_iface; by apply H3 | by eapply empty_clean].
  - injection He as <-. split; [reflexivity | done |]. intros w Hw. congruence.
Qed.

(** ** How deep the walk goes *)

Fixpoint depth (t : gtype) : nat := match t with TPtr t => S (depth t) | _ => 0 end.

(** The walk below a value, through pointers and contents, goes at most [k] deep. *)
Inductive height (h : heap) : nat → value → Prop :=
| height_basic k n i : height h k (VBasic n i)
| height_slice k e o : height h k (VSlice e o)
| height_map k t e o : height h k (VMap t e o)
| height_nil k t : (depth t ≤ k)%nat → height h k (VPtr t None)
| height_ptr k t l v : h !! l = Some v → height h k v → height h (S k) (VPtr t (Some l))
| height_struct k n fs : (∀ i x, fs !! i = Some x → height h k x) → height h (S k) (VStruct n fs)
| height_iface_nil k n : height h k (VIface n None)
| height_iface k n v : height h (S (S k)) v → height h (S (S (S k))) (VIface n (Some v)).

Lemma height_nil_refines h h' v v' k t :
  refines h h' v v' → v = VPtr t None → (depth t ≤ k)%nat → height h' k v'.
Proof.
  intros Hr. revert t k. induction Hr as [v | | | t l v Hl Hl' _ IH | |]; intros t0 m Hv Hk; try done.
  - subst. by constructor.
  - injection Hv as <-. destruct m as [|m]; simpl in Hk; [lia |].
    apply (height_ptr _ _ _ _ v Hl'). apply (IH t m eq_refl). lia.
Qed.

Lemma height_refines h h' k v v' : hrefines h h' → height h k v → refines h h' v v' → height h' k v'.
Proof.
  intros Hh Hv. revert v'. induction Hv as [| | | k t Hk | k t l v Hl _ IH | k n fs Hfs IH | | k n v Hv IH]; intros v' Hr.
  - inversion Hr; subst; constructor.
  - inversion Hr; subst; constructor.
  - inversion Hr; subst; constructor.
  - by eapply (height_nil_refines h).
  - inversion Hr; subst. destruct (Hh l v Hl) as (x & Hx & Hxr). apply (height_ptr _ _ _ _ x Hx). by apply IH.
  - inversion Hr as [| | | | | ? ? fs' Hlen Hall]; subst; constructor; intros i y Hy.
    + apply (IH i y); [done | constructor].
    + destruct (lookup_lt_is_Some_2 fs i) as [x Hx]; [rewrite Hlen; by eapply lookup_lt_Some |]. eauto.
  - inversion Hr; subst; constructor.
  - inversion Hr as [| | | | ? ? w Hho Hi He |]; subst; constructor; [apply IH; constructor |].
    unfold empty_of in He. destruct (getRealType _) as [[]|]; try done; try (subst w; constructor).
    destruct He as (l & -> & Hl). apply (height_ptr _ _ _ _ _ Hl). by constructor.
Qed.

Lemma shouldReplace_total fuel h k v : height h k v → (k + 2 ≤ fuel)%nat → is_Some (shouldReplace fuel h (Some v)).
Proof.
  intros Hv. revert fuel. induction Hv as [| | | | k t l v Hl _ IH | | | k n v _ IH]; intros fuel Hf;
    (destruct fuel as [|fuel]; [lia |]); cbn [shouldReplace]; try (case_match; by eauto); eauto.
  - simpl. destruct fuel; [lia | by eauto].
  - simpl. rewrite Hl. apply IH. lia.
  - destruct fuel; [lia | by eauto].
  - apply IH. lia.
Qed.

(** ** Where it does not panic *)

(** An interface is [any] and holds no struct itself, nor a pointer to an interface. *)
Inductive tame : value → Prop :=
| tame_basic n k : tame (VBasic n k)
| tame_slice e o : tame (VSlice e o)
| tame_map k e o : tame (VMap k e o)
| tame_ptr t o : tame (VPtr t o)
| tame_struct n fs : (∀ i x, fs !! i = Some x → tame x) → tame (VStruct n fs)
| tame_iface_nil n : tame (VIface n None)
| tame_iface n v : (∀ t, implements t n = true) → returns (getRealType (type_of v)) →
    match v with VStruct _ _ | VIface _ _ => False | _ => True end → tame (VIface n (Some v)).

#[local] Hint Constructors tame : core.

Definition tame_heap (h : heap) : Prop := ∀ l v, h !! l = Some v → tame v.

Lemma tame_put p x v : tame v → tame x → tame (put p x v).
Proof.
  revert v. induction p as [|i p IH]; intros v Hv Hx; [done |]. destruct v as [| | | | n fs |]; try done. simpl.
  inversion Hv as [| | | | ? ? Hfs | |]; subst. constructor. intros j a Ha.
  destruct (decide (i = j)) as [<- | Hne]; [| rewrite list_lookup_alter_ne in Ha by done; eauto].
  rewrite list_lookup_alter_eq in Ha. apply fmap_Some in Ha as (y & Hy & ->). eauto.
Qed.

Lemma tame_read h l p v : tame_heap h → read h (Addr l p) = Some v → tame v.
Proof.
  simpl. intros Hh. destruct (h !! l) as [w|] eqn:Hl; [simpl | done]. apply Hh in Hl. revert w Hl.
  clear -p. induction p as [|i p IH]; intros w Hw Hg; [by injection Hg as <- |].
  destruct w as [| | | | n fs |]; try done. simpl in Hg. destruct (fs !! i) as [a|] eqn:Ha; [| done].
  inversion Hw as [| | | | ? ? Hfs | |]; subst. exact (IH a (Hfs i a Ha) Hg).
Qed.

Lemma tame_set h l p x : tame_heap h → tame x → ∃ h', set_rv (Addr l p) x h = Ret h' ∧ tame_heap h'.
Proof.
  intros Hh Hx. eexists. split; [done |]. intros l' v Hv. destruct (decide (l = l')) as [<- | Hne].
  - rewrite lookup_alter_eq in Hv. apply fmap_Some in Hv as (y & Hy & ->). apply tame_put; eauto.
  - rewrite lookup_alter_ne in Hv by done. eauto.
Qed.

Lemma tame_insert h l v : tame_heap h → tame v → tame_heap (<[l := v]> h).
Proof. intros Hh Hv l' w. rewrite lookup_insert_Some. intros [[_ <-] | [_ ?]]; eauto. Qed.

Lemma replace_iface_returns h l p n v :
  tame_heap h → tame (VIface n (Some v)) → ∃ h', replace_iface (Addr l p) n (Some v) h = Ret h' ∧ tame_heap h'.
Proof.
  intros Hh Hv. inversion Hv as [| | | | | | ? ? Hi [t Ht] Hm]; subst. unfold replace_iface, set_iface. rewrite Ht. cbn [obind].
  destruct t; rewrite ?Hi; try (by eexists); apply tame_set; try (constructor; [done | by eexists | done]); [done.. |].
  apply tame_insert; [done | by constructor].
Qed.

(** A copy is only looked through. *)
Definition safe (r : rv) : Prop :=
  match r with
  | Addr _ _ => True
  | Temp (VSlice _ None | VMap _ _ None | VPtr (TPtr _) None | VStruct _ _ | VIface _ _) => False
  | Temp _ => True
  end.

Lemma field_loop_returns rec n l p k fds i h vs :
  (∀ h r h', rec h r = Some (Ret h') → ok_heap h → rv_ok h r → post h r h') →
  (∀ h p v, read h (Addr l p) = Some v → height h k v → ok_heap h → tame_heap h →
     ∃ h', rec h (Addr l p) = Some (Ret h') ∧ tame_heap h') →
  read h (Addr l p) = Some (VStruct n vs) → (∀ i x, vs !! i = Some x → height h k x) →
  fds = drop i (fields n) → ok_heap h → tame_heap h →
  ∃ h', field_loop rec (Addr l p) fds i h = Some (Ret h') ∧ tame_heap h'.
Proof.
  intros Hpost Hrec. revert i h vs. induction fds as [|[e t] fds IH]; intros i h vs Hr Hk Hd Hh Ht; [by exists h |].
  assert (fields n !! i = Some (e, t)) as Hi.
  { pose proof (lookup_drop (fields n) i 0) as Hli. rewrite <- Hd, Nat.add_0_r in Hli. done. }
  assert (fds = drop (S i) (fields n)) as Hd' by (by rewrite (drop_S _ _ _ Hi) in Hd; injection Hd).
  pose proof (addr_ok h l p Hh _ Hr) as Hok. inversion Hok as [| | | | | ? ? Hty _ | |]; subst.
  destruct (lookup_lt_is_Some_2 vs i) as [x Hx].
  { apply (f_equal length) in Hty. rewrite !length_fmap in Hty. rewrite Hty. by eapply lookup_lt_Some. }
  cbn [field_loop]. destruct e; [| by apply (IH (S i) h vs)]. cbn [field].
  destruct (field_read h (Addr l p) n vs i x Hr Hx) as (f & [= <-] & Hfx).
  destruct (Hrec h (p ++ [i]) x Hfx (Hk i x Hx) Hh Ht) as (h1 & Hr1 & Ht1). rewrite Hr1.
  destruct (Hpost _ _ _ Hr1 Hh (addr_ok h l _ Hh)) as [H1 H2 _].
  destruct (read_refines h h1 (Addr l p) _ H1 Hr) as (v' & Hr' & Href).
  inversion Href as [| | | | | ? ? vs' Hlen Hall]; subst.
  - apply (IH (S i) h1 vs); try done. intros j y Hy. apply (height_refines h h1 k y y); [done | eauto | constructor].
  - apply (IH (S i) h1 vs'); try done. intros j y Hy.
    destruct (lookup_lt_is_Some_2 vs j) as [w Hw]; [rewrite Hlen; by eapply lookup_lt_Some |].
    apply (height_refines h h1 k w y); [done | eauto..].
Qed.

Lemma replaceNil_returns fuel h r v k :
  read h r = Some v → height h k v → (k + 2 ≤ fuel)%nat → ok_heap h → rv_ok h r → tame_heap h → tame v → safe r →
  ∃ h', replaceNil fuel h r = Some (Ret h') ∧ tame_heap h'.
Proof.
  revert h r v k. induction fuel as [|fuel IH]; intros h r v k Hv Hk Hf Hh Hr Ht Htv Hs; [lia |].
  cbn [replaceNil]. rewrite Hv.
  assert (∃ h', Some (Ret h) = Some (Ret h') ∧ tame_heap h') as Hdone by eauto.
  assert (¬ safe (Temp v) → ∃ l p, r = Addr l p) as Hat.
  { intros Hn. destruct r as [l p | w]; [by eauto |]. by injection Hv as ->. }
  assert (∀ x, tame x → ¬ safe (Temp v) → ∃ h', Some (set_rv r x h) = Some (Ret h') ∧ tame_heap h') as Hset.
  { intros x Hx (l & p & ->)%Hat. destruct (tame_set h l p x Ht Hx) as (h' & -> & ?). eauto. }
  destruct v as [n i | t [l|] | e [m|] | e1 e2 [m|] | n fs | n [v|]]; try exact Hdone; try (apply Hset; by auto).
  - inversion Hk as [| | | | k' ? ? w Hl Hw | | |]; subst.
    apply (IH h (Addr l []) w k'); try done; [simpl; by rewrite Hl | lia | by apply addr_ok | eauto].
  - destruct t as [| t | | | |]; try exact Hdone. destruct Hat as (l & p & ->); [by intros [] |].
    destruct (tame_set (<[fresh (dom h) := VPtr t None]> h) l p (VPtr (TPtr t) (Some (fresh (dom h)))))
      as (h0 & Hset0 & Ht0); [by apply tame_insert | done |]. rewrite Hset0.
    destruct (new_pointer _ _ _ _ Hv Hset0 Hh) as (H0 & _ & Hl0 & Hok0).
    inversion Hk as [| | | ? ? Hd | | | |]; subst. simpl in Hd.
    apply (IH h0 (Addr _ []) (VPtr t None) (pred k)); try done; [simpl; by rewrite Hl0 | constructor; lia | lia | by apply addr_ok].
  - destruct Hat as (l & p & ->); [by intros [] |]. inversion Hk as [| | | | | k' ? ? Hfs | |]; subst.
    apply (field_loop_returns (replaceNil fuel) n l p k' _ 0 h fs); try done; [by apply replaceNil_post |].
    intros h1 p1 w Hw Hkw Hok1 Ht1. apply (IH h1 (Addr l p1) w k'); try done; [lia | by apply addr_ok |].
    by eapply tame_read.
  - destruct Hat as (l & p & ->); [by intros [] |]. inversion Hk as [| | | | | | | k' ? ? Hkv]; subst.
    inversion Htv as [| | | | | | ? ? Hi Hg Hm]; subst.
    destruct (shouldReplace_total fuel h _ v Hkv) as [[|] Hsr]; [lia | |]; rewrite Hsr.
    + destruct (replace_iface_returns h l p n v Ht Htv) as (h' & -> & ?). eauto.
    + destruct fuel as [|fuel]; [done |]. apply (IH h (Temp v) v (S (S k'))); try done; [lia | | |].
      * intros w [= <-]. pose proof (Hr _ Hv) as Hok. by inversion Hok.
      * destruct v as [| | | | |]; try done; by constructor.
      * destruct v as [| [] [] | ? [] | ? ? [] | |]; try done. simpl in Hsr. destruct fuel; done.
Qed.

(** ** The theorems *)

(** C28. Filling a store keeps its types: every value that was there is still there with
    its type, pointers still lead to values of theirs, structs have their declared fields,
    contents implement their interfaces.  And it only fills: nil slices and maps become
    empty ones, nil pointers to pointers lead to new nil ones, the content of an interface
    is replaced only when it is nil inside, by the empty slice or map of its type or by a
    pointer to an empty struct; all else is as it was. *)
Theorem replaceNil_types fuel h v h' :
  ok_heap h → ok h v → ReplaceNil fuel (Some v) h = Some (Ret h') →
  ok_heap h' ∧
  ∀ l x, h !! l = Some x → ∃ x', h' !! l = Some x' ∧ type_of x' = type_of x ∧ refines h h' x x'.
Proof.
  intros Hh Hv He. destruct (replaceNil_post fuel h (Temp v) h' He Hh) as [H1 H2 _]; [by intros w [= <-] |].
  split; [done |]. intros l x Hx. destruct (H1 l x Hx) as (x' & Hx' & Hr). exists x'. split_and!; [done | | done].
  symmetry. by eapply refines_type.
Qed.

(** C29. The response that a pointer leads to is filled, and the walk ends: when what is
    below it is of a finite depth and every interface of the store that is not nil is one
    that all types implement and holds neither a struct itself, nor an interface, nor a
    pointer that leads to an interface ([replaceNil_fails] gives responses that are not so
    and panic or are walked for ever), the option of a2r returns without a panic, with fuel
    for the depth.  What is then reached from the response, through pointers, exported
    fields and interfaces, has no nil slice or map and no nil pointer to a pointer, where
    the elements of slices and maps are not looked at, nil interfaces stay nil, and an
    interface may hold anything whose type is basic behind its pointers. *)
Theorem respNilReplace_fills fuel k h l v :
  ok_heap h → tame_heap h → h !! l = Some v → height h k v → (k + 3 ≤ fuel)%nat →
  ∃ h' v', respNilReplace fuel (type_of v) (Some l) h = Some (Ret h') ∧
    h' !! l = Some v' ∧ clean h' v'.
Proof.
  intros Hh Ht Hl Hk Hf.
  assert (rv_ok h (Temp (VPtr (type_of v) (Some l)))) as Hr by (intros w [= <-]; by constructor).
  destruct (replaceNil_returns fuel h (Temp (VPtr (type_of v) (Some l)))
    (VPtr (type_of v) (Some l)) (S k)) as (h' & He & _);
    try done; [by eapply height_ptr | lia | simpl; by destruct (type_of v) |].
  destruct (replaceNil_post fuel h _ h' He Hh Hr) as [H1 _ H3].
  destruct (H1 l v Hl) as (v' & Hl' & _). exists h', v'. split_and!; [exact He | done |].
  specialize (H3 _ eq_refl). inversion H3; subst. congruence.
Qed.
End replace.

(** ** Examples *)

(** [type Resp struct { Names []string; Any any; Next *Resp; pp **int }], and an item. *)
Definition demo_fields (s : string) : list (bool * gtype) :=
  if String.eqb s "Resp" then
    [(true, TSlice (TBasic "string")); (true, TIface ""); (true, TPtr (TStruct "Resp")); (false, TPtr (TPtr (TBasic "int")))]
  else if String.eqb s "Item" then [(true, TSlice (TBasic "string"))] else [].

Definition any_type (t : gtype) (n : string) : bool := true.

Definition resp (any : option value) (next : option nat) : value :=
  VStruct "Resp" [VSlice (TBasic "string") None; VIface "" any; VPtr (TStruct "Resp") next; VPtr (TPtr (TBasic "int")) None].

(** The first response holds a nil pointer to an item, the second nothing. *)
Definition demo_heap : heap := {[ 0%nat := resp (Some (VPtr (TStruct "Item") None)) (Some 1%nat); 1%nat := resp None None ]}.

Definition filled (any : option value) (next : option nat) : value :=
  VStruct "Resp" [VSlice (TBasic "string") (Some 0%nat); VIface "" any; VPtr (TStruct "Resp") next; VPtr (TPtr (TBasic "int")) None].

Definition demo_filled : heap :=
  {[ 0%nat := filled (Some (VPtr (TStruct empty_struct) (Some 2%nat))) (Some 1%nat); 1%nat := filled None None;
     2%nat := VStruct empty_struct [] ]}.

Ltac two_cells :=
  intros l v; unfold demo_heap; rewrite lookup_insert_Some, lookup_singleton_Some;
  intros [[<- <-] | [_ [<- <-]]].

Lemma demo_ok : ok_heap demo_fields any_type demo_heap.
Proof.
  two_cells; (constructor; [reflexivity |]); intros [|[|[|[|]]]] x [= <-];
    try apply (ok_ptr _ _ demo_heap 1%nat (resp None None) eq_refl); repeat constructor.
Qed.

Lemma replaceNil_types_witness :
  ReplaceNil demo_fields any_type 9 (Some (VPtr (TStruct "Resp") (Some 0%nat))) demo_heap = Some (Ret demo_filled) ∧
  ok_heap demo_fields any_type demo_filled ∧
  ∀ l x, demo_heap !! l = Some x →
    ∃ x', demo_filled !! l = Some x' ∧ type_of x' = type_of x ∧ refines any_type demo_heap demo_filled x x'.
Proof.
  assert (ReplaceNil demo_fields any_type 9 (Some (VPtr (TStruct "Resp") (Some 0%nat))) demo_heap = Some (Ret demo_filled))
    as He by (vm_compute; reflexivity).
  split; [exact He |]. apply (replaceNil_types demo_fields any_type eq_refl 9 demo_heap (VPtr (TStruct "Resp") (Some 0%nat))).
  - exact demo_ok.
  - apply (ok_ptr _ _ demo_heap 0%nat (resp (Some (VPtr (TStruct "Item") None)) (Some 1%nat)) eq_refl).
  - exact He.
Defined.

Lemma respNilReplace_fills_witness :
  ∃ h' v', respNilReplace demo_fields any_type 9 (TStruct "Resp") (Some 0%nat) demo_heap = Some (Ret h') ∧
    h' !! 0%nat = Some v' ∧ clean demo_fields h' v'.
Proof.
  apply (respNilReplace_fills demo_fields any_type eq_refl 9 6 demo_heap 0 (resp (Some (VPtr (TStruct "Item") None)) (Some 1%nat))).
  - exact demo_ok.
  - two_cells; constructor; intros [|[|[|[|]]]] x [= <-]; repeat constructor; by eexists.
  - reflexivity.
  - constructor. intros [|[|[|[|]]]] x [= <-]; try (repeat constructor; fail).
    apply (height_ptr demo_heap _ _ 1%nat (resp None None) eq_refl). constructor. intros [|[|[|[|]]]] x [= <-]; repeat constructor.
  - lia.
Defined.

(** Where it fails.  A response that leads back to itself is walked for ever; an interface
    that holds a struct with something nil makes it panic, since a content is a copy; so
    does a nil pointer to a pointer that is given itself; and a nil interface stays nil. *)
Theorem replaceNil_fails :
  (∀ fuel, ReplaceNil demo_fields any_type fuel (Some (VPtr (TStruct "Resp") (Some 0%nat)))
     {[ 0%nat := filled None (Some 0%nat) ]} = None) ∧
  (∃ why, ReplaceNil demo_fields any_type 9 (Some (VPtr (TStruct "Resp") (Some 0%nat)))
     {[ 0%nat := resp (Some (VStruct "Item" [VSlice (TBasic "string") None])) None ]} = Some (Panic why)) ∧
  (∃ why, ReplaceNil demo_fields any_type 9 (Some (VPtr (TPtr (TBasic "int")) None)) ∅ = Some (Panic why)) ∧
  ReplaceNil demo_fields any_type 9 (Some (VPtr (TStruct "Resp") (Some 0%nat))) {[ 0%nat := resp None None ]} =
    Some (Ret {[ 0%nat := filled None None ]}).
Proof.
  split_and!; [| eexists; vm_compute; reflexivity.. | vm_compute; reflexivity].
  intros fuel. unfold ReplaceNil. set (h := {[ 0%nat := _ ]}).
  enough (∀ fuel, replaceNil demo_fields any_type fuel h (Addr 0%nat []) = None) as Hall by (destruct fuel; [done | apply Hall]).
  clear fuel. induction fuel as [fuel IH] using lt_wf_ind. destruct fuel as [|[|fuel]]; [done | by vm_compute |].
  transitivity (match replaceNil demo_fields any_type fuel h (Addr 0%nat []) with
                | Some (Ret h') => Some (Ret h') | o => o end); [reflexivity |].
  rewrite IH by lia. done.
Qed.
