(* ===== verification/Mongo.v ===== *)
(** * MongoDB: pages, results, connections (db/mongoutil)

    A collection and a server are the answers that the driver gives, as arguments: the
    count of a filter, the documents after a number of others up to a limit, the outcome
    of each attempt to connect.  A document of a basic type is decoded as a map with one
    field. *)

From S2P Require Import Prelude GoStrings Errs.

Local Open Scope Z_scope.

(** Go's [int32]. *)
Definition wrap32 (z : Z) : Z := (z + 2147483648) mod 4294967296 - 2147483648.
Definition in_int32 (z : Z) : Prop := -2147483648 ≤ z < 2147483648.

(** ** Pages *)

Section pages.
Context {D : Type}.

(** [CountDocuments] and [Find] with a skip and a limit. *)
Context (CountDocuments : Z + goerr) (Find : Z → Z → list D + goerr).

Record Pagination := MkPagination { GetPageNumber : Z; GetShowNumber : Z }.

Definition Count (a : nat) : Z + goerr :=
  match CountDocuments with
  | inr e => inr (Stack (S a) (Wrapper a e "mongo count"))
  | inl n => inl n
  end.

Definition Find_ (a : nat) (skip limit : Z) : list D + goerr :=
  match Find skip limit with
  | inr e => inr (Stack (S a) (Wrapper a e "mongo find"))
  | inl l => inl l
  end.

Definition skip_of (p : Pagination) : Z := wrap64 (wrap32 (GetPageNumber p - 1) * GetShowNumber p).

Definition FindPage (a : nat) (pagination : option Pagination) : (Z * list D) + goerr :=
  match Count a with
  | inr e => inr (Stack (S (S (S a))) (Wrapper (S (S a)) e "mongo failed to count documents in collection"))
  | inl count =>
      match pagination with
      | None => inl (count, [])
      | Some p =>
          if count =? 0 then inl (count, [])
          else
            let skip := skip_of p in
            if (skip <? 0) || (count <=? skip) || (GetShowNumber p <=? 0) then inl (count, [])
            else match Find_ a skip (GetShowNumber p) with
                 | inr e => inr e
                 | inl res => inl (count, res)
                 end
      end
  end.

Definition FindPageOnly (a : nat) (p : Pagination) : list D + goerr :=
  let skip := skip_of p in
  if (skip <? 0) || (GetShowNumber p <=? 0) then inl [] else Find_ a skip (GetShowNumber p).

Definition Exist (a : nat) : bool + goerr :=
  match Count a with inr e => inr e | inl count => inl (0 <? count) end.
End pages.

(** ** Updates and results *)

Definition ErrNoDocuments : goerr := Other 0 "mongo: no documents in result".

(** [UpdateOne], from the number of documents that matched. *)
Definition UpdateOne (a : nat) (result : Z + goerr) (notMatchedErr : bool) : option goerr :=
  match result with
  | inr e => Some (Stack (S a) (Wrapper a e "mongo update one"))
  | inl matched =>
      if notMatchedErr && (matched =? 0)
      then Some (Stack (S a) (Wrapper a ErrNoDocuments "mongo update not matched")) else None
  end.

(** The only value of a map. *)
Definition single {V} (m : gmap string V) : option V :=
  match map_to_list m with [(_, v)] => Some v | _ => None end.

Definition one_field (a : nat) : goerr :=
  codeError_WrapMsg a (S a) "mongo find result len(m) != 1" [] ErrInternalServer.

(** [Decodes]: the documents, whole or, of a basic type, as maps. *)
Definition Decodes {V} (basic : bool) (a : nat) (All : list V + goerr) (All_maps : list (gmap string V) + goerr)
    : list V + goerr :=
  if basic then
    match All_maps with
    | inr e => inr (Stack (S a) (Wrapper a e "mongo decodes"))
    | inl temp => match mapM single temp with Some res => inl res | None => inr (one_field a) end
    end
  else match All with
       | inr e => inr (Stack (S a) (Wrapper a e "mongo all"))
       | inl res => inl res
       end.

Definition DecodeOne {V} (basic : bool) (a : nat) (decode : V + goerr) (decode_map : gmap string V + goerr) : V + goerr :=
  if basic then
    match decode_map with
    | inr e => inr (Stack (S a) (Wrapper a e "mongo decodes one"))
    | inl temp => match single temp with Some v => inl v | None => inr (one_field a) end
    end
  else match decode with
       | inr e => inr (Stack (S a) (Wrapper a e "mongo decoder"))
       | inl v => inl v
       end.

(** The functions are called in order up to the first error: how many, and that error. *)
Fixpoint IncrVersion (dbs : list (option goerr)) : nat * option goerr :=
  match dbs with
  | [] => (0%nat, None)
  | Some e :: _ => (1%nat, Some e)
  | None :: dbs => let '(n, e) := IncrVersion dbs in (S n, e)
  end.

(** ** Configuration *)

Record ReplicaSetConfig := MkReplicaSetConfig { Name : string; Hosts : list string; ReadConcern : string }.
Record ReadPrefConfig := MkReadPrefConfig { Mode : string; TagSets : list (gmap string string); MaxStaleness : Z }.

(** [W] is an [any] of which integers and strings are used. *)
Inductive w_value := WInt (n : Z) | WString (s : string) | WOther.
Record WriteConcernConfig := MkWriteConcernConfig { W : w_value; J : bool; WTimeout : Z }.

Record Config := MkConfig {
  Uri : string;
  Address : option (list string);
  Database : string;
  Username : string;
  Password : string;
  AuthSource : string;
  MaxPoolSize : Z;
  MaxRetry : Z;
  MongoMode : string;
  ReplicaSet : option ReplicaSetConfig;
  ReadPreference : option ReadPrefConfig;
  WriteConcern : option WriteConcernConfig
}.

Definition StandaloneMode : string := "standalone".
Definition ReplicaSetMode : string := "replicaSet".
Definition defaultMaxPoolSize : Z := 100.
Definition defaultMaxRetry : Z := 3.

Definition is_empty (s : string) : bool := String.eqb s "".

Definition buildMongoURI (c : Config) (authSource : string) : string :=
  let credentials := if negb (is_empty (Username c)) && negb (is_empty (Password c))
                     then Username c +:+ ":" +:+ Password c else "" in
  "mongodb://" +:+ credentials +:+ "@" +:+ Join "," (default [] (Address c)) +:+ "/" +:+ Database c +:+
  "?authSource=" +:+ authSource +:+ "&maxPoolSize=" +:+ Itoa (MaxPoolSize c).

Definition set_defaults (c : Config) : Config :=
  let c := MkConfig (Uri c) (Address c) (Database c) (Username c) (Password c) (AuthSource c)
             (if MaxPoolSize c <=? 0 then defaultMaxPoolSize else MaxPoolSize c)
             (if MaxRetry c <=? 0 then defaultMaxRetry else MaxRetry c) (MongoMode c)
             (ReplicaSet c) (ReadPreference c) (WriteConcern c) in
  if is_empty (Uri c) then
    MkConfig (buildMongoURI c (if is_empty (AuthSource c) then Database c else AuthSource c)) (Address c) (Database c)
      (Username c) (Password c) (AuthSource c) (MaxPoolSize c) (MaxRetry c) (MongoMode c) (ReplicaSet c)
      (ReadPreference c) (WriteConcern c)
  else c.

Inductive config_err :=
| NoReplicaSet | NoReplicaName | NoReplicaHosts | NoAddress | NoUriOrAddress | NoDatabase.

Definition ValidateAndSetDefaults (c : Config) : Config + config_err :=
  if is_empty (Uri c) && match default [] (Address c) with [] => true | _ => false end then inr NoUriOrAddress
  else if is_empty (Database c) then inr NoDatabase
  else inl (set_defaults c).

(** The driver's modes of reading and its levels. *)
Inductive mode := Primary | PrimaryPreferred | Secondary | SecondaryPreferred | Nearest.
Inductive level := Local_ | Available | Majority | Linearizable | Snapshot.

Definition read_mode (m : string) : mode :=
  if String.eqb m "primary" then Primary
  else if String.eqb m "primaryPreferred" then PrimaryPreferred
  else if String.eqb m "secondary" then Secondary
  else if String.eqb m "secondaryPreferred" then SecondaryPreferred
  else if String.eqb m "nearest" then Nearest
  else Primary.

(** What [readpref.New] is given: the mode, tags and staleness. *)
Definition buildReadPreference (c : ReadPrefConfig) : mode * option (list (gmap string string)) * option Z :=
  (read_mode (Mode c), match TagSets c with [] => None | tags => Some tags end,
   if 0 <? MaxStaleness c then Some (MaxStaleness c) else None).

Definition buildWriteConcern (c : WriteConcernConfig) : option w_value * option bool * Z :=
  (match W c with WInt n => Some (WInt n) | WString w => Some (WString w) | WOther => None end,
   if J c then Some true else None,
   if 0 <? WTimeout c then WTimeout c else 0).

Definition buildReadConcern (l : string) : level :=
  if String.eqb l "local" then Local_
  else if String.eqb l "available" then Available
  else if String.eqb l "majority" then Majority
  else if String.eqb l "linearizable" then Linearizable
  else if String.eqb l "snapshot" then Snapshot
  else Local_.

(** What a client is made from: a URI, or the hosts, the name and the credential of a
    replica set, with the size of its pool and how it reads and writes; nothing for a
    mode that is not known. *)
Inductive ClientOptions :=
| FromUri (uri : string) (maxPoolSize : Z)
| FromHosts (hosts : list string) (name : string) (auth : option (string * string * string)) (maxPoolSize : option Z)
    (readPref : option (mode * option (list (gmap string string)) * option Z))
    (writeConcern : option (option w_value * option bool * Z)) (readConcern : option level)
| NoOptions.

Definition buildReplicaSetOptions (c : Config) (rs : ReplicaSetConfig) : ClientOptions :=
  let hosts := match Hosts rs with [] => default [] (Address c) | hosts => hosts end in
  FromHosts hosts (Name rs)
    (if negb (is_empty (Username c)) && negb (is_empty (Password c))
     then Some (Username c, Password c, if is_empty (AuthSource c) then Database c else AuthSource c) else None)
    (if 0 <? MaxPoolSize c then Some (MaxPoolSize c) else None)
    (buildReadPreference <$> ReadPreference c)
    (buildWriteConcern <$> WriteConcern c)
    (if negb (is_empty (ReadConcern rs)) then Some (buildReadConcern (ReadConcern rs)) else None).

(** The checks of [NewMongoDB], its configuration with the defaults, and its options. *)
Definition prepare (c : Config) : (Config * ClientOptions) + config_err :=
  let standalone (c : Config) :=
    if is_empty (Uri c) && bool_decide (Address c = None) then inr NoAddress
    else if is_empty (MongoMode c) || String.eqb (MongoMode c) StandaloneMode then
      match ValidateAndSetDefaults c with
      | inr e => inr e
      | inl c => inl (c, FromUri (Uri c) (MaxPoolSize c))
      end
    else inl (c, NoOptions) in
  if String.eqb (MongoMode c) ReplicaSetMode then
    match ReplicaSet c with
    | None => inr NoReplicaSet
    | Some rs =>
        if is_empty (Name rs) then inr NoReplicaName
        else match Hosts rs, default [] (Address c) with
             | [], [] => inr NoReplicaHosts
             | _, _ => inl (c, buildReplicaSetOptions c rs)
             end
    end
  else standalone c.

(** ** Connecting *)

(** An error of the driver, with its code when the server has sent it. *)
Record mongo_err := MkMongoErr { cmd_code : option Z; text : string }.

(** An attempt: its client or error, and whether the context is done after it. *)
Record attempt := MkAttempt { result : nat + mongo_err; ctx_done : bool }.

Definition shouldRetry (done : bool) (e : mongo_err) : bool :=
  if done then false
  else match cmd_code e with Some c => negb (c =? 13) && negb (c =? 18) | None => true end.

(** The loop from attempt [i], with the client and error so far. *)
Fixpoint connect_loop (rounds : nat) (attempts : nat → attempt) (i : nat) (last : option (nat + mongo_err))
    : option (nat + mongo_err) :=
  match rounds with
  | O => last
  | S rounds =>
      let t := attempts i in
      match result t with
      | inr e => if shouldRetry (ctx_done t) e then connect_loop rounds attempts (S i) (Some (inr e)) else Some (inr e)
      | inl cli => Some (inl cli)
      end
  end.

Inductive mongo_result := Connected (cli : nat) (allowTx : bool) | BadConfig (e : config_err) | ConnectErr (e : mongo_err) | TxErr.

(** [mongoTx.init] asks the server whether it is in a replica set, [None] being a failure;
    without a client it dereferences nil. *)
Definition NewMongoDB (c : Config) (attempts : nat → attempt) (setName : nat → option bool) : outcome mongo_result :=
  match prepare c with
  | inr e => Ret (BadConfig e)
  | inl (c, opts) =>
      match connect_loop (Z.to_nat (MaxRetry c)) attempts 0 None with
      | Some (inr e) => Ret (ConnectErr e)
      | Some (inl cli) => Ret match setName cli with Some allow => Connected cli allow | None => TxErr end
      | None => Panic "invalid memory address or nil pointer dereference"
      end
  end.

(** [Transaction]: with a replica set the function runs in a session, which must start,
    under the driver's [WithTransaction]; else it is called once. *)
Definition Transaction (a : nat) (allowTx : bool) (session WithTransaction fn : option goerr) : option goerr :=
  if allowTx then
    match session with
    | Some e => Some (Stack (S a) (Wrapper a e "mongodb start session failed"))
    | None => WrapMsg a (S a) WithTransaction "mongodb transaction failed" []
    end
  else fn.

(** * Lemmas *)

Lemma wrap32_id z : in_int32 z → wrap32 z = z.
Proof. unfold in_int32, wrap32. intros Hz. rewrite Z.mod_small by lia. lia. Qed.

Lemma skip_of_eq p : 1 ≤ GetPageNumber p < 2147483648 → in_int32 (GetShowNumber p) →
  skip_of p = (GetPageNumber p - 1) * GetShowNumber p.
Proof.
  unfold in_int32. intros Hp Hs. unfold skip_of. rewrite wrap32_id by (unfold in_int32; lia).
  apply wrap64_id. unfold in_int64, two63. nia.
Qed.

Lemma skip_of_neg p : -2147483648 < GetPageNumber p < 1 → 0 < GetShowNumber p < 2147483648 → skip_of p < 0.
Proof.
  intros Hp Hs. unfold skip_of. rewrite wrap32_id by (unfold in_int32; lia).
  rewrite wrap64_id by (unfold in_int64, two63; nia). nia.
Qed.

(** The pages of [n], one after the other. *)
Lemma pages_concat {D} (l : list D) (n k : nat) :
  mjoin ((λ i, take n (drop (i * n) l)) <$> seq 0 k) = take (k * n) l.
Proof.
  induction k as [|k IH]; [done |].
  rewrite seq_S, fmap_app, join_app, IH. simpl. rewrite app_nil_r.
  rewrite take_take_drop. f_equal. lia.
Qed.

Section page_theorem.
Context {D : Type} (l : list D) (CountDocuments : Z + goerr) (Find : Z → Z → list D + goerr).

(** What the documentation says of a collection that does not change meanwhile. *)
Context (count_all : CountDocuments = inl (Z.of_nat (length l))).
Context (find_some : ∀ skip limit, 0 ≤ skip → 0 < limit →
  Find skip limit = inl (take (Z.to_nat limit) (drop (Z.to_nat skip) l))).

Lemma FindPage_eq a number show :
  1 ≤ number < 2147483648 → 0 < show < 2147483648 →
  FindPage CountDocuments Find a (Some (MkPagination number show)) =
  inl (Z.of_nat (length l), take (Z.to_nat show) (drop (Z.to_nat ((number - 1) * show)) l)).
Proof.
  intros Hn Hs. unfold FindPage, Count. rewrite count_all, skip_of_eq by (unfold in_int32; simpl; lia).
  cbn [GetPageNumber GetShowNumber]. destruct (Z.eqb_spec (Z.of_nat (length l)) 0) as [H0 |].
  { destruct l; [| simpl in H0; lia]. by rewrite drop_nil, take_nil. }
  destruct (Z.ltb_spec ((number - 1) * show) 0); [nia |].
  destruct (Z.leb_spec (Z.of_nat (length l)) ((number - 1) * show)); simpl.
  { rewrite drop_ge by lia. by rewrite take_nil. }
  destruct (Z.leb_spec show 0); [lia |]. unfold Find_. by rewrite find_some by lia.
Qed.

(** The pages of a query are its result in slices: page [p] of [n] documents holds
    those from number [(p-1)*n] on, [n] of them or what is left, with the whole count;
    the pages from the first on, put together, are the first documents of the result, and
    all of it when there are enough pages; a page number or a size that is not positive
    gives the count alone; and [FindPageOnly] gives the same documents.  Nothing overflows
    for any numbers of 32 bits, but for the least page number of all. *)
Theorem find_pages a show :
  0 < show < 2147483648 →
  (∀ number, 1 ≤ number < 2147483648 →
     let page := take (Z.to_nat show) (drop (Z.to_nat ((number - 1) * show)) l) in
     FindPage CountDocuments Find a (Some (MkPagination number show)) = inl (Z.of_nat (length l), page) ∧
     FindPageOnly Find a (MkPagination number show) = inl page) ∧
  (∀ k : nat, Z.of_nat k < 2147483648 → ∃ pages,
     mapM (λ i, match FindPage CountDocuments Find a (Some (MkPagination (Z.of_nat i + 1) show)) with
                | inl (_, page) => Some page | inr _ => None end) (seq 0 k) = Some pages ∧
     mjoin pages = take (k * Z.to_nat show) l ∧
     (Z.of_nat (length l) ≤ Z.of_nat k * show → mjoin pages = l)) ∧
  (∀ number, -2147483648 < number < 1 →
     FindPage CountDocuments Find a (Some (MkPagination number show)) = inl (Z.of_nat (length l), []) ∧
     FindPageOnly Find a (MkPagination number show) = inl []) ∧
  (∀ number size, size ≤ 0 →
     FindPage CountDocuments Find a (Some (MkPagination number size)) = inl (Z.of_nat (length l), []) ∧
     FindPageOnly Find a (MkPagination number size) = inl []).
Proof.
  intros Hs. split_and!.
  - intros number Hn. cbv zeta. split; [by apply FindPage_eq |]. unfold FindPageOnly.
    rewrite skip_of_eq by (unfold in_int32; simpl; lia). cbn [GetPageNumber GetShowNumber].
    destruct (Z.ltb_spec ((number - 1) * show) 0); [nia |]. destruct (Z.leb_spec show 0); [lia |].
    unfold Find_. by rewrite find_some by lia.
  - intros k Hk. exists ((λ i, take (Z.to_nat show) (drop (i * Z.to_nat show) l)) <$> seq 0 k).
    rewrite pages_concat. split_and!; [| done | intros Hl; apply take_ge, Nat2Z.inj_le; rewrite Nat2Z.inj_mul, Z2Nat.id; lia].
    apply mapM_Some. apply Forall2_fmap_r, Forall2_same_length_lookup_2; [done |].
    intros i x y Hx Hy. rewrite Hx in Hy. injection Hy as <-. apply lookup_seq in Hx as [-> Hi].
    simpl in Hi. rewrite FindPage_eq by lia. do 3 f_equal.
    rewrite Z.add_simpl_r, Z2Nat.inj_mul, Nat2Z.id by lia. done.
  - intros number Hn. unfold FindPage, FindPageOnly, Count. rewrite count_all.
    pose proof (skip_of_neg (MkPagination number show) Hn Hs).
    destruct (Z.ltb_spec (skip_of (MkPagination number show)) 0); [| lia]. by case_match.
  - intros number size Hz. unfold FindPage, FindPageOnly, Count. rewrite count_all. cbn [GetShowNumber].
    destruct (Z.leb_spec size 0); [| lia]. rewrite !orb_true_r. by case_match.
Qed.
End page_theorem.

Lemma find_pages_witness :
  mapM (λ i, match FindPage (inl 5) (λ s n, inl (take (Z.to_nat n) (drop (Z.to_nat s) [1; 2; 3; 4; 5])))
                    0 (Some (MkPagination (Z.of_nat i + 1) 2)) with
             | inl (_, page) => Some page | inr _ => None end) (seq 0 3) = Some [[1; 2]; [3; 4]; [5]] ∧
  ∃ pages, mapM (λ i, match FindPage (inl 5) (λ s n, inl (take (Z.to_nat n) (drop (Z.to_nat s) [1; 2; 3; 4; 5])))
                    0 (Some (MkPagination (Z.of_nat i + 1) 2)) with
             | inl (_, page) => Some page | inr _ => None end) (seq 0 3) = Some pages ∧
    mjoin pages = [1; 2; 3; 4; 5].
Proof.
  split; [vm_compute; reflexivity |].
  destruct (find_pages [1; 2; 3; 4; 5] (inl 5)
    (λ s n, inl (take (Z.to_nat n) (drop (Z.to_nat s) [1; 2; 3; 4; 5]))) eq_refl (λ _ _ _ _, eq_refl) 0 2)
    as (_ & Hall & _); [lia |].
  destruct (Hall 3%nat ltac:(lia)) as (pages & Hm & _ & Hj). exists pages. split; [done |].
  apply Hj. simpl. lia.
Defined.

(** ** Connecting *)

Lemma connect_loop_spec n attempts i last :
  connect_loop (S n) attempts i last = connect_loop (S n) attempts i None ∧
  ∃ k, (k ≤ n)%nat ∧
    (∀ j, (j < k)%nat → ∃ e, result (attempts (i + j)%nat) = inr e ∧ shouldRetry (ctx_done (attempts (i + j)%nat)) e = true) ∧
    connect_loop (S n) attempts i last = Some (result (attempts (i + k)%nat)) ∧
    ∀ e, result (attempts (i + k)%nat) = inr e → shouldRetry (ctx_done (attempts (i + k)%nat)) e = false ∨ k = n.
Proof.
  revert i last. induction n as [|n IH]; intros i last; (split; [done |]).
  - exists 0%nat. rewrite Nat.add_0_r. split_and!; [done | intros; lia | | by auto]. simpl.
    destruct (result (attempts i)); [done |]. by case_match.
  - destruct (result (attempts i)) as [cli | e] eqn:Hr.
    { exists 0%nat. rewrite Nat.add_0_r, Hr. split_and!; [lia | intros; lia | | done]. simpl. by rewrite Hr. }
    destruct (shouldRetry (ctx_done (attempts i)) e) eqn:Hs.
    + destruct (IH (S i) (Some (inr e))) as (_ & k & Hk & Hall & Hlast & Hend).
      exists (S k). rewrite Nat.add_succ_r. split_and!; [lia | | | ].
      * intros [|j] Hj; [exists e; by rewrite Nat.add_0_r |]. rewrite Nat.add_succ_r. apply (Hall j). lia.
      * change (connect_loop (S (S n)) attempts i last) with
          (match result (attempts i) with
           | inr e => if shouldRetry (ctx_done (attempts i)) e then connect_loop (S n) attempts (S i) (Some (inr e)) else Some (inr e)
           | inl cli => Some (inl cli) end). by rewrite Hr, Hs.
      * intros e' He'. destruct (Hend e' He'); [by left | right; lia].
    + exists 0%nat. rewrite Nat.add_0_r, Hr. split_and!; [lia | intros; lia | | intros e' [= <-]; by left].
      simpl. by rewrite Hr, Hs.
Qed.

Lemma prepare_standalone c c' opts :
  prepare c = inl (c', opts) → MongoMode c = "" ∨ MongoMode c = StandaloneMode →
  0 < MaxRetry c' ∧ 0 < MaxPoolSize c' ∧ is_empty (Uri c') = false.
Proof.
  intros Hp Hm. unfold prepare in Hp.
  assert (String.eqb (MongoMode c) ReplicaSetMode = false) as Hrs by (destruct Hm as [-> | ->]; done).
  assert (is_empty (MongoMode c) || String.eqb (MongoMode c) StandaloneMode = true) as Hst
    by (destruct Hm as [-> | ->]; done).
  rewrite Hrs, Hst in Hp. destruct (is_empty (Uri c) && _); [done |].
  unfold ValidateAndSetDefaults in Hp. destruct (is_empty (Uri c) && _); [done |].
  destruct (is_empty (Database c)); [done |]. injection Hp as <- _. unfold set_defaults. cbn [Uri].
  assert (∀ m d, 0 < d → 0 < (if m <=? 0 then d else m)) as Hpos.
  { intros m d Hd. destruct (Z.leb_spec m 0); lia. }
  destruct (is_empty (Uri c)) eqn:Hu; cbn [MaxRetry MaxPoolSize Uri]; (split_and!; [by apply Hpos.. |]); done.
Qed.

(** A client of MongoDB is that of the first attempt that succeeds, all before it
    having failed in a way that may be tried again; the error is that of the first that
    may not, or of the last one; an error of authorization or authentication is not tried
    again, nor anything once the context is done.  The configuration of a single server
    always allows an attempt, since its number has a default.  That of a replica set has
    none: with no number given no attempt is made and a nil client is dereferenced. *)
Theorem mongo_connect c c' opts attempts setName :
  prepare c = inl (c', opts) →
  (0 < MaxRetry c' → ∃ k, (k < Z.to_nat (MaxRetry c'))%nat ∧
    (∀ j, (j < k)%nat → ∃ e, result (attempts j) = inr e ∧ shouldRetry (ctx_done (attempts j)) e = true) ∧
    match result (attempts k) with
    | inl cli => NewMongoDB c attempts setName =
        Ret match setName cli with Some allow => Connected cli allow | None => TxErr end
    | inr e => NewMongoDB c attempts setName = Ret (ConnectErr e) ∧
        (shouldRetry (ctx_done (attempts k)) e = false ∨ S k = Z.to_nat (MaxRetry c'))
    end) ∧
  (MongoMode c = "" ∨ MongoMode c = StandaloneMode → 0 < MaxRetry c') ∧
  (MaxRetry c' ≤ 0 → MongoMode c ≠ "" ∧ MongoMode c ≠ StandaloneMode ∧ ¬ returns (NewMongoDB c attempts setName)).
Proof.
  intros Hp. pose proof (prepare_standalone c c' opts Hp) as Hst. unfold NewMongoDB. rewrite Hp. split_and!.
  - intros Hm. destruct (Z.to_nat (MaxRetry c')) as [|n] eqn:Hn; [lia |].
    destruct (connect_loop_spec n attempts 0 None) as (_ & k & Hk & Hall & -> & Hend). simpl in *.
    exists k. split_and!; [lia | done |]. destruct (result (attempts k)) as [cli | e]; [done |].
    split; [done |]. destruct (Hend e eq_refl) as [? | ->]; auto.
  - intros Hm. by destruct (Hst Hm).
  - intros Hm. split_and!; [intros He; destruct Hst; [by left | lia] | intros He; destruct Hst; [by right | lia] |].
    rewrite Z2Nat.nonpos by done. simpl. by intros [? ?].
Qed.

Definition demo_replicas (retries : Z) : Config :=
  MkConfig "" None "im" "u" "p" "" 10 retries ReplicaSetMode 
    (Some (MkReplicaSetConfig "rs0" ["h1:27017"; "h2:27017"] "majority")) None None.

Definition demo_attempts (i : nat) : attempt :=
  match i with
  | O => MkAttempt (inr (MkMongoErr None "no reachable servers")) false
  | _ => MkAttempt (inr (MkMongoErr (Some 18) "Authentication failed")) false
  end.

Lemma mongo_connect_witness :
  NewMongoDB (demo_replicas 5) demo_attempts (λ _, None) = Ret (ConnectErr (MkMongoErr (Some 18) "Authentication failed")) ∧
  ¬ returns (NewMongoDB (demo_replicas 0) demo_attempts (λ _, None)).
Proof.
  split; [vm_compute; reflexivity |].
  destruct (mongo_connect (demo_replicas 0) (demo_replicas 0)
    (FromHosts ["h1:27017"; "h2:27017"] "rs0" (Some ("u", "p", "im")) (Some 10) None None (Some Majority))
    demo_attempts (λ _, None))
    as (_ & _ & Hp); [vm_compute; reflexivity |].
  by destruct Hp as (_ & _ & Hn); [vm_compute |].
Defined.
