(* ===== verification/Kafka.v ===== *)
(** * The queue on Kafka (mq/kafka: mq_consumer_group.go, config.go)

    The goroutines of a consumer group: the loop that consumes, a goroutine for every claim
    of a partition, and the calls of [Subscribe], over one channel of messages.  The client
    library starts sessions and ends them; the headers of messages are those of Mcontext. *)

From S2P Require Import Prelude Chan Errs Rpc Mongo.

Local Open Scope nat_scope.

(** ** The consumer group *)

(** What [Consume] returns, and what [ConsumeClaim] does. *)
Inductive consume_result := ConsumeNil | ConsumeCanceled | ConsumeClosedGroup | ConsumeOther.
Inductive claim_result := ClaimNil | ClaimCanceled | ClaimRecovered.

(** A message is a claim and an offset in it. *)
Definition message : Type := nat * nat.

(** [loopConsume]: before a call of [Consume], in it, and the two steps of
    [closeMsgChan]. *)
Inductive loop_pc := LoopTop | LoopConsume | LoopCancel | LoopClose | LoopExited.

(** [ConsumeClaim]: in the outer select, in the inner one with a message, or returned;
    [offset] counts the messages it received. *)
Inductive claim_pc := ClaimWait | ClaimSend (m : message) | ClaimRet (r : claim_result).
Record claim := MkClaim { cpc : claim_pc; offset : nat }.

(** [Subscribe]: in the select, in the handler, or returned. *)
Inductive sub_result := SubCause | SubClosedGroup | SubHandler (failed : bool).
Inductive sub_pc := SubWait | SubIn (m : message) | SubRet (r : sub_result).

Record mqConsumerGroup := MkGroup {
  ctxDone : bool;
  msg : chan message;
  loop : loop_pc;
  claims : list claim;
  subs : list sub_pc;
  taken : list message;
  panics : list string
}.

Definition msg_size : nat := 64.

Definition NewMConsumerGroupV2 : mqConsumerGroup := MkGroup false (make_chan msg_size) LoopTop [] [] [] [].

Definition set_claim (i : nat) (c : claim) (x : mqConsumerGroup) : mqConsumerGroup :=
  MkGroup (ctxDone x) (msg x) (loop x) (<[i := c]> (claims x)) (subs x) (taken x) (panics x).
Definition set_loop (l : loop_pc) (x : mqConsumerGroup) : mqConsumerGroup :=
  MkGroup (ctxDone x) (msg x) l (claims x) (subs x) (taken x) (panics x).
Definition set_msg (ch : chan message) (x : mqConsumerGroup) : mqConsumerGroup :=
  MkGroup (ctxDone x) ch (loop x) (claims x) (subs x) (taken x) (panics x).
Definition set_sub (j : nat) (p : sub_pc) (x : mqConsumerGroup) : mqConsumerGroup :=
  MkGroup (ctxDone x) (msg x) (loop x) (claims x) (<[j := p]> (subs x)) (taken x) (panics x).
Definition cancel (x : mqConsumerGroup) : mqConsumerGroup :=
  MkGroup true (msg x) (loop x) (claims x) (subs x) (taken x) (panics x).
Definition panicked (why : string) (x : mqConsumerGroup) : mqConsumerGroup :=
  MkGroup (ctxDone x) (msg x) (loop x) (claims x) (subs x) (taken x) (why :: panics x).

(** Which case of a select is taken. *)
Inductive select := ByContext | ByMessages | ByEnd | BySend.

(** One step of [ConsumeClaim]: a panic of the send is recovered, and nil is returned. *)
Definition claim_step (k : select) (i : nat) (c : claim) (x : mqConsumerGroup) : option mqConsumerGroup :=
  match cpc c with
  | ClaimWait =>
      match k with
      | ByContext => if ctxDone x then Some (set_claim i (MkClaim (ClaimRet ClaimCanceled) (offset c)) x) else None
      | ByMessages => Some (set_claim i (MkClaim (ClaimSend (i, offset c)) (S (offset c))) x)
      | ByEnd => Some (set_claim i (MkClaim (ClaimRet ClaimNil) (offset c)) x)
      | BySend => None
      end
  | ClaimSend m =>
      match k with
      | ByContext => if ctxDone x then Some (set_claim i (MkClaim (ClaimRet ClaimCanceled) (offset c)) x) else None
      | BySend =>
          match chan_send m (msg x) with
          | Some (Ret ch) => Some (set_msg ch (set_claim i (MkClaim ClaimWait (offset c)) x))
          | Some (Panic _) => Some (set_claim i (MkClaim (ClaimRet ClaimRecovered) (offset c)) x)
          | None => None
          end
      | ByMessages | ByEnd => None
      end
  | ClaimRet _ => None
  end.

#[local] Instance loop_pc_eq_dec : EqDecision loop_pc.
Proof. solve_decision. Defined.

(** One step of [loopConsume], after [Consume] returned [r] where it was called. *)
Definition loop_step (r : consume_result) (x : mqConsumerGroup) : option mqConsumerGroup :=
  match loop x with
  | LoopTop => Some (set_loop LoopConsume x)
  | LoopConsume =>
      Some (set_loop (match r with
        | ConsumeCanceled | ConsumeClosedGroup => LoopCancel
        | ConsumeNil | ConsumeOther => LoopTop
        end) x)
  | LoopCancel => Some (set_loop LoopClose (cancel x))
  | LoopClose =>
      match chan_close (msg x) with
      | Ret ch => Some (set_loop LoopExited (set_msg ch x))
      | Panic why => Some (panicked why (set_loop LoopExited x))
      end
  | LoopExited => None
  end.

(** One step of [Subscribe]; in the handler, [failed] is whether it returns an error. *)
Definition sub_step (by_ctx failed : bool) (j : nat) (p : sub_pc) (x : mqConsumerGroup) : option mqConsumerGroup :=
  match p with
  | SubWait =>
      if by_ctx then Some (set_sub j (SubRet SubCause) x)
      else
        match chan_recv (msg x) with
        | None => None
        | Some (None, _) => Some (set_sub j (SubRet SubClosedGroup) x)
        | Some (Some m, ch) =>
            let x := set_sub j (SubIn m) (set_msg ch x) in
            Some (MkGroup (ctxDone x) (msg x) (loop x) (claims x) (subs x) (taken x ++ [m]) (panics x))
        end
  | SubIn _ => Some (set_sub j (SubRet (SubHandler failed)) x)
  | SubRet _ => None
  end.

Definition is_returned (c : claim) : bool := match cpc c with ClaimRet _ => true | _ => false end.

(** A session of the library starts [n] claims within [Consume]; [Close] is called; and
    the steps of the goroutines.  [waits]: the library lets [Consume] return, and starts a
    session, only when the claims have returned. *)
Inductive op :=
| Session (n : nat)
| Close
| Loop (r : consume_result)
| Claim (i : nat) (k : select)
| Subscribe
| Sub (j : nat) (by_ctx failed : bool).

Definition exec (waits : bool) (o : op) (x : mqConsumerGroup) : option mqConsumerGroup :=
  let free := negb waits || forallb is_returned (claims x) in
  match o with
  | Session n =>
      match loop x with
      | LoopConsume =>
          if free then Some (MkGroup (ctxDone x) (msg x) (loop x) (claims x ++ replicate n (MkClaim ClaimWait 0)) (subs x) (taken x) (panics x))
          else None
      | _ => None
      end
  | Close => Some (cancel x)
  | Loop r =>
      match loop x with
      | LoopConsume => if free then loop_step r x else None
      | _ => loop_step r x
      end
  | Claim i k => match claims x !! i with Some c => claim_step k i c x | None => None end
  | Subscribe => Some (MkGroup (ctxDone x) (msg x) (loop x) (claims x) (subs x ++ [SubWait]) (taken x) (panics x))
  | Sub j by_ctx failed => match subs x !! j with Some p => sub_step by_ctx failed j p x | None => None end
  end.

Definition run (waits : bool) (os : list op) (x : mqConsumerGroup) : option mqConsumerGroup :=
  fold_left (λ s o, s ≫= exec waits o) os (Some x).

(** * Invariant *)

(** The messages given to handlers and those in the channel. *)
Definition seen (x : mqConsumerGroup) : list message := taken x ++ buf (msg x).

Definition of_claim (i : nat) (l : list message) : list message := filter (λ m, m.1 = i) l.

(** How many messages of a claim were sent. *)
Definition claim_ok (i : nat) (c : claim) (l : list message) : Prop :=
  ∃ k, of_claim i l = (λ o, (i, o)) <$> seq 0 k ∧
  match cpc c with
  | ClaimWait => k = offset c
  | ClaimSend m => m = (i, k) ∧ offset c = S k
  | ClaimRet ClaimNil => k = offset c
  | ClaimRet ClaimRecovered => offset c = S k
  | ClaimRet ClaimCanceled => offset c = k ∨ offset c = S k
  end.

Record inv (waits : bool) (x : mqConsumerGroup) : Prop := {
  gi_claims i c : claims x !! i = Some c → claim_ok i c (seen x);
  gi_known m : m ∈ seen x → m.1 < length (claims x);
  gi_chan : csize (msg x) = msg_size ∧ length (buf (msg x)) ≤ msg_size;
  gi_closed : cclosed (msg x) = bool_decide (loop x = LoopExited);
  gi_panics : panics x = [];
  gi_cancel : loop x = LoopClose ∨ loop x = LoopExited → ctxDone x = true;
  gi_waits : waits = true → loop x ≠ LoopConsume → Forall (λ c, is_returned c = true) (claims x);
  gi_recovered : waits = true → Forall (λ c, cpc c ≠ ClaimRet ClaimRecovered) (claims x);
  gi_subs j : subs x !! j = Some (SubRet SubClosedGroup) → cclosed (msg x) = true ∧ buf (msg x) = []
}.

Lemma of_claim_app i l k : of_claim i (l ++ k) = of_claim i l ++ of_claim i k.
Proof. apply filter_app. Qed.

Lemma of_claim_one i m : of_claim i [m] = if decide (m.1 = i) then [m] else [].
Proof. unfold of_claim. rewrite filter_cons, filter_nil. by destruct (decide _). Qed.

Lemma of_claim_nil i l : (∀ m, m ∈ l → m.1 ≠ i) → of_claim i l = [].
Proof.
  induction l as [|m l IH]; intros Hl; [done |]. unfold of_claim. rewrite filter_cons_False by (apply Hl; by left).
  apply IH. intros m' Hm'. apply Hl. by right.
Qed.

(** The goroutine of a claim that has not returned belongs to a running session. *)
Lemma running_consumes waits x i c :
  inv waits x → claims x !! i = Some c → is_returned c = false → waits = true → loop x = LoopConsume.
Proof.
  intros Hi Hc Hr Hw. destruct (decide (loop x = LoopConsume)) as [| Hl]; [done |].
  pose proof (Forall_lookup_1 _ _ _ _ (gi_waits _ _ Hi Hw Hl) Hc) as Ht. simpl in Ht. congruence.
Qed.

Lemma set_claim_inv waits x i c c' :
  inv waits x → claims x !! i = Some c → is_returned c = false → claim_ok i c' (seen x) →
  (waits = true → cpc c' ≠ ClaimRet ClaimRecovered) → inv waits (set_claim i c' x).
Proof.
  intros Hi Hc Hr Hok Hrec. pose proof (running_consumes _ _ _ _ Hi Hc Hr) as Hrun. destruct Hi as [G1 G2 G3 G4 G5 G6 G7 G8 G9].
  split; simpl; try done.
  - intros j d. rewrite list_lookup_insert_Some. intros [(<- & <- & _) | [_ Hd]]; [done | by apply G1].
  - intros m. rewrite length_insert. apply G2.
  - intros Hw Hl. by specialize (Hrun Hw).
  - intros Hw. apply Forall_insert; auto.
Qed.

(** A send that succeeds is of the next offset of its claim. *)
Lemma claim_send_inv waits x i c m ch :
  inv waits x → claims x !! i = Some c → cpc c = ClaimSend m → chan_send m (msg x) = Some (Ret ch) →
  inv waits (set_msg ch (set_claim i (MkClaim ClaimWait (offset c)) x)).
Proof.
  intros Hi Hc Hp Hs. pose proof (running_consumes waits x i c Hi Hc ltac:(unfold is_returned; by rewrite Hp)) as Hrun.
  pose proof (gi_claims _ _ Hi _ _ Hc) as Hok. destruct Hi as [G1 G2 G3 G4 G5 G6 G7 G8 G9].
  unfold claim_ok in Hok. rewrite Hp in Hok. destruct Hok as (k & Hk & -> & Hoff).
  assert (cclosed (msg x) = false) as Hopen by (unfold chan_send in Hs; by destruct (cclosed (msg x))).
  destruct (chan_send_open _ _ _ Hopen Hs) as (ch' & [= <-] & Hbuf & Hsize & Hcl & Hlen).
  assert (seen (set_msg ch (set_claim i (MkClaim ClaimWait (offset c)) x)) = seen x ++ [(i, k)]) as Hseen
    by (unfold seen; simpl; by rewrite Hbuf, app_assoc).
  split; rewrite ?Hseen; simpl; try done.
  - intros j d. rewrite list_lookup_insert_Some. intros [(<- & <- & _) | [Hne Hd]].
    + exists (S k). split; [| by rewrite <- Hoff].
      by rewrite of_claim_app, of_claim_one, decide_True, Hk, seq_S, fmap_app by done.
    + destruct (G1 _ _ Hd) as (k' & Hk' & Hcase). exists k'. split; [| done].
      rewrite of_claim_app, of_claim_one, decide_False by done. by rewrite app_nil_r.
  - intros m. rewrite length_insert, elem_of_app. intros [Hm | ->%list_elem_of_singleton]; [by apply G2 |].
    by eapply lookup_lt_Some.
  - rewrite Hsize, Hbuf, length_app. simpl. destruct G3 as [G3 _]. split; [done | lia].
  - by rewrite Hcl, <- G4.
  - intros Hw Hl. by specialize (Hrun Hw).
  - intros Hw. apply Forall_insert; [by apply G8 | done].
  - intros j Hj. apply G9 in Hj as [Hj _]. by rewrite Hopen in Hj.
Qed.

Lemma claim_step_inv waits k i c x x' :
  inv waits x → claims x !! i = Some c → claim_step k i c x = Some x' → inv waits x'.
Proof.
  intros Hi Hc Hs. pose proof (gi_claims _ _ Hi _ _ Hc) as Hok. unfold claim_step in Hs.
  pose proof Hok as (q & Hq & Hcase).
  destruct (cpc c) as [| m | r] eqn:Hp; [| | done];
    assert (is_returned c = false) as Hr by (unfold is_returned; by rewrite Hp).
  - destruct k; [| | | done].
    + destruct (ctxDone x); [| done]. injection Hs as <-. eapply set_claim_inv; try done. exists q. split; [exact Hq | simpl; lia].
    + injection Hs as <-. eapply set_claim_inv; try done. exists q. split; [exact Hq | simpl; by rewrite Hcase].
    + injection Hs as <-. eapply set_claim_inv; try done. by exists q.
  - destruct k; try done.
    + destruct (ctxDone x); [| done]. injection Hs as <-. eapply set_claim_inv; try done. exists q. split; [exact Hq | simpl; destruct Hcase; lia].
    + destruct (chan_send m (msg x)) as [[ch | why]|] eqn:Hsend; [| | done]; injection Hs as <-.
      * by eapply claim_send_inv.
      * eapply set_claim_inv; try done; [exists q; split; [done |]; by destruct Hcase |].
        intros Hw. pose proof (running_consumes _ _ _ _ Hi Hc Hr Hw) as Hl. pose proof (gi_closed _ _ Hi) as Hcl.
        rewrite Hl in Hcl. unfold chan_send in Hsend. by rewrite Hcl in Hsend; case_decide.
Qed.

Lemma loop_step_inv waits r x x' :
  inv waits x → (loop x = LoopConsume → negb waits || forallb is_returned (claims x) = true) →
  loop_step r x = Some x' → inv waits x'.
Proof.
  intros [G1 G2 G3 G4 G5 G6 G7 G8 G9] Hfree Hs. unfold loop_step in Hs.
  assert (waits = true → loop x ≠ LoopConsume ∨ loop x = LoopConsume → Forall (λ c, is_returned c = true) (claims x)) as Hret.
  { intros Hw [Hl | Hl]; [by apply G7 |]. specialize (Hfree Hl). rewrite Hw in Hfree. simpl in Hfree.
    apply Forall_forall. intros c Hc. rewrite forallb_forall in Hfree. apply Hfree. by apply list_elem_of_In. }
  destruct (loop x) eqn:Hl; try done.
  - injection Hs as <-. split; simpl; try done. by intros [[=] | [=]].
  - injection Hs as <-. split; simpl; try done.
    + rewrite G4. by destruct r.
    + by destruct r; intros [[=] | [=]].
    + intros Hw _. apply Hret; [done | by right].
  - injection Hs as <-. split; simpl; try done. intros Hw _. by apply G7.
  - unfold chan_close in Hs. rewrite G4 in Hs. simpl in Hs. injection Hs as <-. split; simpl; try done.
    + intros _. apply G6. by left.
    + intros Hw _. by apply G7.
    + intros j Hj. apply G9 in Hj as [Hj _]. by rewrite G4 in Hj.
Qed.

Lemma group_sub_step_inv waits by_ctx failed j p x x' :
  inv waits x → subs x !! j = Some p → sub_step by_ctx failed j p x = Some x' → inv waits x'.
Proof.
  intros Hi Hp Hs. destruct Hi as [G1 G2 G3 G4 G5 G6 G7 G8 G9].
  assert (∀ p', (p' = SubRet SubClosedGroup → cclosed (msg x) = true ∧ buf (msg x) = []) → inv waits (set_sub j p' x)) as Hset.
  { intros p' Hp'. split; simpl; try done. intros j'. rewrite list_lookup_insert_Some.
    intros [(_ & Heq & _) | [_ Hj]]; [by apply Hp' | by apply (G9 j')]. }
  unfold sub_step in Hs. destruct p as [| m | r]; [| injection Hs as <-; by apply Hset | done].
  destruct by_ctx; [injection Hs as <-; by apply Hset |].
  destruct (chan_recv (msg x)) as [[[m|] ch]|] eqn:Hr; [| | done]; injection Hs as <-.
  - destruct (chan_recv_cases _ _ _ Hr) as (Hsize & Hcl & Hbuf).
    assert (∀ P : list message → Prop, P (seen x) → P ((taken x ++ [m]) ++ buf ch)) as Hseen
      by (intros P HP; unfold seen in HP; rewrite Hbuf in HP; by rewrite <- app_assoc).
    split; simpl; try done; unfold seen; simpl.
    + intros i c Hc. apply (Hseen (claim_ok i c)). by apply G1.
    + intros m' Hm'. apply G2. unfold seen. rewrite Hbuf. by rewrite <- app_assoc in Hm'.
    + rewrite Hsize. destruct G3 as [G3 G3']. rewrite Hbuf in G3'. simpl in G3'. split; [done | lia].
    + by rewrite Hcl.
    + intros j'. rewrite list_lookup_insert_Some. intros [(_ & [=] & _) | [_ Hj]]. apply G9 in Hj as [_ Hj]. by rewrite Hbuf in Hj.
  - destruct (chan_recv_cases _ _ _ Hr) as (_ & _ & Hbuf & Hcl & _). by apply Hset.
Qed.

Lemma kafka_exec_inv waits o x x' : exec waits o x = Some x' → inv waits x → inv waits x'.
Proof.
  intros He Hi. destruct o as [n | | r | i k | | j by_ctx failed]; simpl in He.
  - destruct (loop x) eqn:Hl; try done. destruct (_ || _); [| done]. injection He as <-.
    destruct Hi as [G1 G2 G3 G4 G5 G6 G7 G8 G9]. split; simpl; try done.
    + intros i c [Hc | [Hge Hc]]%lookup_app_Some; [by apply G1 |]. apply lookup_replicate in Hc as [-> _]. exists 0. split; [| done].
      apply of_claim_nil. intros m Hm%G2. lia.
    + intros m Hm. rewrite length_app. apply G2 in Hm. lia.
    + by rewrite G4, Hl.
    + by intros [[=] | [=]].
    + intros Hw. apply Forall_app. split; [by apply G8 |]. by apply Forall_replicate.
  - injection He as <-. by destruct Hi; split.
  - assert (loop_step r x = Some x' ∧ (loop x = LoopConsume → negb waits || forallb is_returned (claims x) = true)) as [Hs Hf].
    { destruct (loop x) eqn:Hl; try done. destruct (_ || _); done. }
    by eapply loop_step_inv.
  - destruct (claims x !! i) as [c|] eqn:Hc; [| done]. by eapply claim_step_inv.
  - injection He as <-. destruct Hi as [G1 G2 G3 G4 G5 G6 G7 G8 G9]. split; simpl; try done.
    intros j [Hj | [_ Hj]]%lookup_app_Some; [by apply (G9 j) |]. by apply list_lookup_singleton_Some in Hj as [_ [=]].
  - destruct (subs x !! j) as [p|] eqn:Hp; [| done]. by eapply group_sub_step_inv.
Qed.

Lemma kafka_run_inv waits os x : run waits os NewMConsumerGroupV2 = Some x → inv waits x.
Proof.
  intros Hr. eapply (run_Some (exec waits) (inv waits)); [intros; by eapply kafka_exec_inv | exact Hr |].
  split; simpl; try done.
  - intros m Hm. by apply elem_of_nil in Hm.
  - split; [done | lia].
  - by intros [[=] | [=]].
Qed.

(** ** Stopping *)

Lemma kafka_run_app waits os os' x x' : run waits os x = Some x' → run waits (os ++ os') x = run waits os' x'.
Proof. unfold run. rewrite fold_left_app. by intros ->. Qed.

(** What a goroutine of a claim leaves when it returns because of the context. *)
Record stopping (n : nat) (x x' : mqConsumerGroup) : Prop := {
  st_returned i c : i < n → claims x' !! i = Some c → is_returned c = true;
  st_length : length (claims x') = length (claims x);
  st_done : ctxDone x' = true;
  st_loop : loop x' = loop x;
  st_taken : taken x' = taken x;
  st_msg : msg x' = msg x
}.

Lemma stop_claims waits x n : ctxDone x = true → n ≤ length (claims x) →
  ∃ os x', run waits os x = Some x' ∧ stopping n x x'.
Proof.
  intros Hd. induction n as [|n IH]; intros Hn; [by exists [], x; split; [| split; try done; lia] |].
  destruct IH as (os & x' & Hr & [S1 S2 S3 S4 S5 S6]); [lia |].
  destruct (lookup_lt_is_Some_2 (claims x') n) as [c Hc]; [lia |].
  destruct (is_returned c) eqn:Hret.
  - exists os, x'. split; [done |]. split; try done. intros i d Hi Hd'. destruct (decide (i = n)) as [-> |]; [congruence |].
    eapply S1; [| exact Hd']. lia.
  - exists (os ++ [Claim n ByContext]). eexists. split.
    + rewrite (kafka_run_app _ _ _ _ _ Hr). unfold run. simpl. rewrite Hc. unfold claim_step. rewrite S3.
      unfold is_returned in Hret. destruct (cpc c); [reflexivity | reflexivity | done].
    + split; simpl; try done; [| by rewrite length_insert].
      intros i d Hi. rewrite list_lookup_insert_Some. intros [(<- & <- & _) | [Hne Hd']]; [done |]. eapply S1; [| exact Hd']. lia.
Qed.

Lemma stop_loop waits x : inv waits x → ctxDone x = true → Forall (λ c, is_returned c = true) (claims x) →
  ∃ os x', run waits os x = Some x' ∧ loop x' = LoopExited ∧ taken x' = taken x.
Proof.
  intros Hi Hd Hall. pose proof (gi_closed _ _ Hi) as Hcl.
  assert (forallb is_returned (claims x) = true) as Hf
    by (apply forallb_forall; intros c Hc%list_elem_of_In; by eapply Forall_forall in Hall).
  destruct (loop x) eqn:Hl; [| | | | by exists [], x];
    [exists [Loop ConsumeNil; Loop ConsumeCanceled; Loop ConsumeNil; Loop ConsumeNil]
    |exists [Loop ConsumeCanceled; Loop ConsumeNil; Loop ConsumeNil]
    |exists [Loop ConsumeNil; Loop ConsumeNil]
    |exists [Loop ConsumeNil]];
    eexists; (split; [unfold run; simpl; rewrite Hl; simpl; unfold loop_step; rewrite Hl; simpl; rewrite ?Hf, ?orb_true_r; simpl;
      unfold loop_step, chan_close; simpl; rewrite Hcl; reflexivity | by split]).
Qed.

(** * Properties *)

(** C33. Whatever the sessions of the library, the goroutines of the claims, the calls of
    [Subscribe] and [Close] do in any order: the messages of a claim that handlers were
    given, with those that wait in the channel, are its first ones, each once and in their
    order, and at most the last one received is missing, which the goroutine held when it
    returned.  The channel is closed at most once.  As long as the library lets [Consume]
    return only after the goroutines of its claims, none of them sends to the closed
    channel, so that nothing is left to recover from.  [Subscribe] reports a closed group
    only when every message sent has been taken.  Once the context is done the claims can
    return, and then the loop ends and closes the channel, without a handler being given
    anything meanwhile. *)
Theorem kafka_group waits os x : run waits os NewMConsumerGroupV2 = Some x →
  panics x = [] ∧
  (∀ i c, claims x !! i = Some c →
     ∃ k, of_claim i (taken x ++ buf (msg x)) = (λ o, (i, o)) <$> seq 0 k ∧ k ≤ offset c ≤ S k ∧
       (cpc c = ClaimWait ∨ cpc c = ClaimRet ClaimNil → k = offset c)) ∧
  length (buf (msg x)) ≤ msg_size ∧
  (waits = true → ∀ i c, claims x !! i = Some c → cpc c ≠ ClaimRet ClaimRecovered) ∧
  (∀ j, subs x !! j = Some (SubRet SubClosedGroup) → loop x = LoopExited ∧ ctxDone x = true ∧ buf (msg x) = []) ∧
  (ctxDone x = true → ∃ os' x', run waits os' x = Some x' ∧ loop x' = LoopExited ∧ taken x' = taken x).
Proof.
  intros Hi%kafka_run_inv. split_and!.
  - apply (gi_panics _ _ Hi).
  - intros i c Hc. destruct (gi_claims _ _ Hi _ _ Hc) as (k & Hk & Hcase). exists k. split; [exact Hk |].
    destruct (cpc c) as [| m | []]; (split; [lia |]); intros [[=] | [=]]; done.
  - apply (gi_chan _ _ Hi).
  - intros Hw i c Hc. by apply (Forall_lookup_1 _ _ _ _ (gi_recovered _ _ Hi Hw) Hc).
  - intros j Hj. destruct (gi_subs _ _ Hi _ Hj) as [Hcl Hb]. rewrite (gi_closed _ _ Hi) in Hcl.
    apply bool_decide_eq_true in Hcl. split_and!; [done | apply (gi_cancel _ _ Hi); by right | done].
  - intros Hd. destruct (stop_claims waits x (length (claims x)) Hd ltac:(lia)) as (os1 & x1 & Hr1 & Hst).
    assert (inv waits x1) as Hi1
      by (eapply (run_Some (exec waits) (inv waits)); [intros; by eapply kafka_exec_inv | exact Hr1 | done]).
    destruct (stop_loop waits x1 Hi1 (st_done _ _ _ Hst)) as (os2 & x2 & Hr2 & Hl & Ht).
    + apply Forall_lookup. intros i c Hc. eapply (st_returned _ _ _ Hst); [| exact Hc].
      rewrite <- (st_length _ _ _ Hst). by eapply lookup_lt_Some.
    + exists (os1 ++ os2), x2. rewrite (kafka_run_app _ _ _ _ _ Hr1). split_and!; [done.. |].
      by rewrite Ht, (st_taken _ _ _ Hst).
Qed.

(** Two claims; a message is taken, one waits in the channel, and the group is closed. *)
Definition demo_run : list op :=
  [Loop ConsumeNil; Session 2; Claim 0 ByMessages; Claim 0 BySend; Claim 1 ByMessages; Subscribe; Sub 0 false false;
   Claim 1 BySend; Claim 1 ByMessages; Close].

Lemma kafka_group_witness :
  ∃ x, run true demo_run NewMConsumerGroupV2 = Some x ∧ taken x = [(0, 0)] ∧ buf (msg x) = [(1, 0)] ∧
    of_claim 1 (taken x ++ buf (msg x)) = [(1, 0)] ∧
    ∃ os' x', run true os' x = Some x' ∧ loop x' = LoopExited.
Proof.
  eexists. split; [vm_compute; reflexivity |]. split; [reflexivity |]. split; [reflexivity |]. split; [reflexivity |].
  destruct (kafka_group true demo_run _ eq_refl) as (_ & _ & _ & _ & _ & Hstop).
  destruct (Hstop eq_refl) as (os' & x' & Hr & Hl & _). by exists os', x'.
Defined.
