(* ===== verification/KafkaConf.v ===== *)
(** * Configuration of Kafka (mq/kafka: config.go, tls.go, verify.go)

    What the options of the code become in the configuration of the client library, the
    certificates, and the checks.  Files, keys and the library are arguments. *)

From S2P Require Import Prelude GoStrings Errs Rpc Mongo.

Local Open Scope Z_scope.

Record TLSConfig := MkTLS {
  EnableTLS : bool; CACrt : string; ClientCrt : string; ClientKey : string; ClientKeyPwd : string; InsecureSkipVerify : bool
}.

Record Config := MkConfig {
  Username : string; Password : string; ProducerAck : string; CompressType : string; MaxMessageBytes : Z;
  ConsumerFetchDefaultBytes : Z; ConsumerFetchMaxBytes : Z; Addr : list string; TLS : TLSConfig
}.

(** ** Certificates *)

(** The part of [tls.Config] that is set: a certificate and its key, the authorities. *)
Record tls_config := MkTLSConf { Certificates : option (string * string); RootCAs : option string; Insecure : bool }.

(** Reading files; decoding a block of PEM into its type and content, and back; the
    decryption of a block; the checks of a pair of keys and of authorities. *)
Class Certs := {
  ReadFile : string → string + goerr;
  pem_Decode : string → option (string * string);
  EncodeToMemory : string * string → string;
  DecryptPEMBlock : string * string → string → string + goerr;
  X509KeyPair : string → string → option goerr;
  AppendCertsFromPEM : string → bool
}.

Section certs.
Context `{!Certs} (a : nat).

Definition wrapped {A} (e : goerr) (m : string) (kv : list string) : outcome (A + goerr) :=
  Ret (inr (Stack (S a) (Wrapper a e (toString m kv)))).

(** A key that is no block of PEM is dereferenced when there is a password. *)
Definition decryptPEM (data passphrase : string) : outcome (string + goerr) :=
  if String.eqb passphrase "" then Ret (inl data)
  else
    match pem_Decode data with
    | None => Panic "nil pointer dereference"
    | Some (ty, body) =>
        match DecryptPEMBlock (ty, body) passphrase with
        | inr e => wrapped e "DecryptPEMBlock failed" []
        | inl d => Ret (inl (EncodeToMemory (ty, d)))
        end
    end.

Definition readEncryptablePEMBlock (path pwd : string) : outcome (string + goerr) :=
  match ReadFile path with
  | inr e => wrapped e "ReadFile failed" ["path"; path]
  | inl data => decryptPEM data pwd
  end.

(** The certificate of the client, when both its files are named. *)
Definition client_certificate (crt key pwd : string) : outcome (option (string * string) + goerr) :=
  if negb (String.eqb crt "") && negb (String.eqb key "") then
    match ReadFile crt with
    | inr e => wrapped e "ReadFile failed" ["clientCertFile"; crt]
    | inl cert =>
        match readEncryptablePEMBlock key pwd with
        | Panic why => Panic why
        | Ret (inr e) => Ret (inr e)
        | Ret (inl k) =>
            match X509KeyPair cert k with
            | Some e => wrapped e "X509KeyPair failed" []
            | None => Ret (inl (Some (cert, k)))
            end
        end
    end
  else Ret (inl None).

Definition newTLSConfig (crt key ca pwd : string) (insecure : bool) : outcome (tls_config + goerr) :=
  match client_certificate crt key pwd with
  | Panic why => Panic why
  | Ret (inr e) => Ret (inr e)
  | Ret (inl cert) =>
      if String.eqb ca "" then Ret (inl (MkTLSConf cert None insecure))
      else
        match ReadFile ca with
        | inr e => wrapped e "ReadFile failed" ["caCertFile"; ca]
        | inl pem =>
            if AppendCertsFromPEM pem then Ret (inl (MkTLSConf cert (Some pem) insecure))
            else Ret (inr (ErrString a "AppendCertsFromPEM failed"))
        end
  end.

(** ** The configuration of the library *)

Inductive acks := NoResponse | WaitForLocal | WaitForAll.

(** The fields that the code sets; the compression is a codec of the library. *)
Record sarama_config := MkSarama {
  Offsets_Initial : Z; AutoCommit : bool; Fetch_Default : Z; Fetch_Max : Z;
  SASL : option (string * string); NetTLS : option tls_config;
  RequiredAcks : acks; Compression : Z; Max_MessageBytes : Z; ReturnErrors : bool
}.

(** [sarama.NewConfig] and the reading of a codec. *)
Context (NewConfig : sarama_config) (UnmarshalText : string → Z + goerr).

Definition sasl_of (conf : Config) : option (string * string) :=
  if negb (String.eqb (Username conf) "") || negb (String.eqb (Password conf) "") then Some (Username conf, Password conf)
  else SASL NewConfig.

(** What follows when the certificates are read, if they are to be. *)
Definition with_tls (conf : Config) (k : option tls_config → sarama_config) : outcome (sarama_config + goerr) :=
  let t := TLS conf in
  if EnableTLS t then
    match newTLSConfig (ClientCrt t) (ClientKey t) (CACrt t) (ClientKeyPwd t) (InsecureSkipVerify t) with
    | Panic why => Panic why
    | Ret (inr e) => Ret (inr e)
    | Ret (inl c) => Ret (inl (k (Some c)))
    end
  else Ret (inl (k (NetTLS NewConfig))).

(** Sizes are cut to 32 bits. *)
Definition BuildConsumerGroupConfig (conf : Config) (initial : Z) (autoCommitEnable : bool) : outcome (sarama_config + goerr) :=
  with_tls conf (λ tls, MkSarama initial autoCommitEnable
    (if 0 <? ConsumerFetchDefaultBytes conf then wrap32 (ConsumerFetchDefaultBytes conf) else Fetch_Default NewConfig)
    (if 0 <? ConsumerFetchMaxBytes conf then wrap32 (ConsumerFetchMaxBytes conf) else Fetch_Max NewConfig)
    (sasl_of conf) tls (RequiredAcks NewConfig) (Compression NewConfig) (Max_MessageBytes NewConfig) false).

Definition acks_of (s : string) : acks :=
  let s := ToLower s in
  if String.eqb s "no_response" then NoResponse
  else if String.eqb s "wait_for_local" then WaitForLocal
  else WaitForAll.

Definition CompressionNone : Z := 0.

Definition BuildProducerConfig (conf : Config) : outcome (sarama_config + goerr) :=
  let compression :=
    if String.eqb (CompressType conf) "" then inl CompressionNone else UnmarshalText (ToLower (CompressType conf)) in
  match compression with
  | inr e => wrapped e "UnmarshalText failed" ["compressType"; CompressType conf]
  | inl c =>
      with_tls conf (λ tls, MkSarama (Offsets_Initial NewConfig) (AutoCommit NewConfig) (Fetch_Default NewConfig)
        (Fetch_Max NewConfig) (sasl_of conf) tls (acks_of (ProducerAck conf)) c
        (if 0 <? MaxMessageBytes conf then MaxMessageBytes conf else Max_MessageBytes NewConfig) true)
  end.

(** ** Checks *)

(** [CheckTopics], of the topics that the cluster has. *)
Fixpoint check_topics (existing : list string) (topics : list string) : option goerr :=
  match topics with
  | [] => None
  | t :: topics =>
      if bool_decide (t ∈ existing) then check_topics existing topics
      else Some (Stack (S a) (ErrString a (toString "topic not exist" ["topic"; t])))
  end.

Lemma check_topics_spec existing topics : check_topics existing topics = None ↔ ∀ t, t ∈ topics → t ∈ existing.
Proof.
  induction topics as [|t topics IH]; simpl; [split; [intros _ t Ht; by apply elem_of_nil in Ht | done] |].
  case_bool_decide as Ht.
  - rewrite IH. split; [intros Hall t' [-> | Ht']%elem_of_cons; [done | by apply Hall] | intros Hall t' Ht'; apply Hall; by right].
  - split; [done |]. intros Hall. exfalso. apply Ht, Hall. by left.
Qed.

(** A producer of a configuration without certificates: the acknowledgements asked for,
    and all of them when the text is unknown; an error exactly for an unknown codec. *)
Lemma BuildProducerConfig_plain conf : EnableTLS (TLS conf) = false →
  match BuildProducerConfig conf with
  | Ret (inl k) => RequiredAcks k = acks_of (ProducerAck conf) ∧ SASL k = sasl_of conf ∧ ReturnErrors k = true ∧
      (CompressType conf = "" → Compression k = CompressionNone)
  | Ret (inr _) => CompressType conf ≠ "" ∧ ∃ e, UnmarshalText (ToLower (CompressType conf)) = inr e
  | Panic _ => False
  end.
Proof.
  intros Ht. unfold BuildProducerConfig, with_tls. rewrite Ht.
  destruct (String.eqb_spec (CompressType conf) "") as [Hc | Hc]; [done |].
  destruct (UnmarshalText _) as [c | e] eqn:Hu; simpl; [done |]. split; [done | by exists e].
Qed.

(** No certificate makes a configuration panic without a password for the key. *)
Lemma newTLSConfig_no_panic crt key ca insecure why : newTLSConfig crt key ca "" insecure ≠ Panic why.
Proof.
  unfold newTLSConfig, client_certificate, readEncryptablePEMBlock, decryptPEM, wrapped. simpl. repeat case_match; congruence.
Qed.
End certs.
