(* ===== verification/WatchKey.v ===== *)
(** * Watching keys (discovery/etcd/watch_key.go)

    The subscribers of a key share an entry and its goroutine.  etcd is the sequence of
    the changes it has committed, and a watch delivers, in order, those committed since
    it was made.  Sections under a lock, single channel operations and cancellations are
    the steps; a push is one step, as the test of the context before it does not matter.
    [log] and [joined] are history: the events whose broadcast has begun, and their
    number when the subscriber was added.  The replacement of the underlying watcher when
    a token has expired is left out, as it only changes which stream delivers. *)

From S2P Require Import Prelude GoStrings.

Inductive event := Put (k v : string) | Delete (k : string).

Definition event_key (ev : event) : string := match ev with Put k _ | Delete k => k end.

Notation watched key := (λ ev, String.prefix key (event_key ev) = true).

(** [removeWatchKeySubscriber], step by step. *)
Inductive rem_pc := RemCancel | RemSubs | RemMap | RemEntry.

(** The goroutine [run]: about to watch, watching from a position, broadcasting an event
    to the subscribers left with the rest of the update, removing one whose push failed,
    waiting to reconnect, closing the subscribers left, about to remove the entry, gone. *)
Inductive run_pc :=
| Top
| Watching (pos : nat)
| Broadcasting (ev : event) (todo : list nat) (evs : list event) (pos : nat)
| Removing (r : rem_pc) (i : nat) (ev : event) (todo : list nat) (evs : list event) (pos : nat)
| Sleeping
| Closing (todo : list nat)
| Unlisting
| Gone.

Record watchKeyEntry := MkEntry { key : string; ecancelled : bool; subs : gset nat; run : run_pc; log : list event }.

(** What a call of [WatchKey] returns. *)
Inductive result := CtxErr | NilErr | FnErr.

(** A call of [WatchKey]: it has its entry, loops, runs its handler, is removing its
    subscriber, has returned. *)
Inductive sub_pc := Joining | Looping | Handling | Leaving (r : rem_pc) (res : result) | Returned (res : result).

Record watchKeySubscriber := MkSub {
  entry : nat; ctxDone : bool; scancelled : bool; events : list event; given : list event; spc : sub_pc; joined : nat
}.

Definition chan_size : nat := 16.

Record kvWatches := MkWatches {
  hist : list event;
  watchEntries : gmap string nat;
  entries : list watchKeyEntry;
  calls : list watchKeySubscriber
}.

Definition watches_init : kvWatches := MkWatches [] ∅ [] [].

(** [sub.ctx] is derived from the caller's context. *)
Definition done (s : watchKeySubscriber) : bool := ctxDone s || scancelled s.

(** ** Updates of one object *)

Definition at_run (pc : run_pc) (e : watchKeyEntry) : watchKeyEntry := MkEntry (key e) (ecancelled e) (subs e) pc (log e).
Definition at_spc (pc : sub_pc) (s : watchKeySubscriber) : watchKeySubscriber :=
  MkSub (entry s) (ctxDone s) (scancelled s) (events s) (given s) pc (joined s).
Definition cancel_sub (s : watchKeySubscriber) : watchKeySubscriber :=
  MkSub (entry s) (ctxDone s) true (events s) (given s) (spc s) (joined s).
Definition cancel_entry (e : watchKeyEntry) : watchKeyEntry := MkEntry (key e) true (subs e) (run e) (log e).

Definition on_entry (j : nat) (f : watchKeyEntry → watchKeyEntry) (st : kvWatches) : kvWatches :=
  MkWatches (hist st) (watchEntries st) (alter f j (entries st)) (calls st).
Definition on_call (i : nat) (f : watchKeySubscriber → watchKeySubscriber) (st : kvWatches) : kvWatches :=
  MkWatches (hist st) (watchEntries st) (entries st) (alter f i (calls st)).

(** ** The operations of the hub *)

(** [getOrCreateWatchKeyEntry]; the client is there as long as the hub is. *)
Definition getOrCreateWatchKeyEntry (k : string) (st : kvWatches) : kvWatches * nat :=
  match watchEntries st !! k with
  | Some j => (st, j)
  | None => let j := length (entries st) in
            (MkWatches (hist st) (<[k := j]> (watchEntries st)) (entries st ++ [MkEntry k false ∅ Top []]) (calls st), j)
  end.

(** The entry is removed from the map if it is still there. *)
Definition removeWatchKeyEntry (j : nat) (st : kvWatches) : kvWatches :=
  match entries st !! j with
  | Some e => if bool_decide (watchEntries st !! key e = Some j)
              then MkWatches (hist st) (delete (key e) (watchEntries st)) (entries st) (calls st) else st
  | None => st
  end.

(** One step of [removeWatchKeySubscriber] for the call [i] of the entry [j]; [None] is
    its return. *)
Definition remove_step (r : rem_pc) (j i : nat) (st : kvWatches) : option rem_pc * kvWatches :=
  match r with
  | RemCancel => (Some RemSubs, on_call i cancel_sub st)
  | RemSubs =>
      let st := on_entry j (λ e, MkEntry (key e) (ecancelled e) (subs e ∖ {[i]}) (run e) (log e)) st in
      (match entries st !! j with
       | Some e => if bool_decide (subs e = ∅) then Some RemMap else None
       | None => None
       end, st)
  | RemMap => (Some RemEntry, removeWatchKeyEntry j st)
  | RemEntry => (None, on_entry j cancel_entry st)
  end.

Definition stopKeyWatches (st : kvWatches) : kvWatches :=
  MkWatches (hist st) ∅
    (imap (λ j e, if bool_decide (watchEntries st !! key e = Some j) then cancel_entry e else e) (entries st)) (calls st).

(** [WatchKey] until it has its entry. *)
Definition WatchKey (k : string) (st : kvWatches) : kvWatches :=
  let '(st, j) := getOrCreateWatchKeyEntry k st in
  MkWatches (hist st) (watchEntries st) (entries st) (calls st ++ [MkSub j false false [] [] Joining 0]).

Definition addSubscriber (i j : nat) (st : kvWatches) : kvWatches :=
  let n := match entries st !! j with Some e => length (log e) | None => 0 end in
  on_call i (λ s, MkSub (entry s) (ctxDone s) (scancelled s) (events s) (given s) Looping n)
    (on_entry j (λ e, MkEntry (key e) (ecancelled e) ({[i]} ∪ subs e) (run e) (log e)) st).

(** ** The steps of a call *)

Inductive call_op := DoJoin | DoRecv | DoFnOk | DoFnErr | DoSeeCtx | DoSeeSub | DoLeave | DoCtx.

Definition call_step (o : call_op) (i : nat) (s : watchKeySubscriber) (st : kvWatches) : option kvWatches :=
  match o, spc s with
  | DoCtx, _ => Some (on_call i (λ s, MkSub (entry s) true (scancelled s) (events s) (given s) (spc s) (joined s)) st)
  | DoJoin, Joining => Some (addSubscriber i (entry s) st)
  | DoRecv, Looping =>
      match events s with
      | ev :: evs => Some (on_call i (λ s, MkSub (entry s) (ctxDone s) (scancelled s) evs (given s ++ [ev]) Handling (joined s)) st)
      | [] => None
      end
  | DoFnOk, Handling => Some (on_call i (at_spc Looping) st)
  | DoFnErr, Handling => Some (on_call i (at_spc (Leaving RemCancel FnErr)) st)
  | DoSeeCtx, Looping => if ctxDone s then Some (on_call i (at_spc (Leaving RemCancel CtxErr)) st) else None
  | DoSeeSub, Looping => if done s then Some (on_call i (at_spc (Leaving RemCancel NilErr)) st) else None
  | DoLeave, Leaving r res =>
      let '(r', st) := remove_step r (entry s) i st in
      Some (on_call i (at_spc match r' with Some r' => Leaving r' res | None => Returned res end) st)
  | _, _ => None
  end.

(** ** The steps of the goroutine *)

Inductive run_op := DoStop | DoWatch | DoErr | DoUpdate (n : nat) | DoNext | DoPush | DoDrop | DoWake | DoClose.

(** The next event of an update, for the subscribers there are now. *)
Definition next_event `{MR : !MapRange} (evs : list event) (pos : nat) (e : watchKeyEntry) : watchKeyEntry :=
  match evs with
  | [] => at_run (Watching pos) e
  | ev :: evs => MkEntry (key e) (ecancelled e) (subs e)
                   (Broadcasting ev (range_map (gset_to_gmap tt (subs e))).*1 evs pos) (log e ++ [ev])
  end.

Definition closeSubscribers `{MR : !MapRange} (e : watchKeyEntry) : run_pc :=
  Closing (range_map (gset_to_gmap tt (subs e))).*1.

Definition run_step `{MR : !MapRange} (o : run_op) (j : nat) (e : watchKeyEntry) (st : kvWatches) : option kvWatches :=
  match o, run e with
  | DoStop, Top | DoStop, Watching _ | DoStop, Sleeping =>
      if ecancelled e then Some (on_entry j (at_run (closeSubscribers e)) st) else None
  | DoWatch, Top => Some (on_entry j (at_run (Watching (length (hist st)))) st)
  | DoErr, Top | DoErr, Watching _ => Some (on_entry j (at_run Sleeping) st)
  | DoUpdate n, Watching pos =>
      if decide (pos + n ≤ length (hist st))
      then Some (on_entry j (next_event (filter (watched (key e)) (take n (drop pos (hist st)))) (pos + n)) st)
      else None
  | DoNext, Broadcasting _ [] evs pos => Some (on_entry j (next_event evs pos) st)
  | DoPush, Broadcasting ev (i :: todo) evs pos =>
      match calls st !! i with
      | None => None
      | Some s =>
          if done s then Some (on_entry j (at_run (Removing RemCancel i ev todo evs pos)) st)
          else if decide (length (events s) < chan_size)
          then Some (on_entry j (at_run (Broadcasting ev todo evs pos))
                 (on_call i (λ s, MkSub (entry s) (ctxDone s) (scancelled s) (events s ++ [ev]) (given s) (spc s) (joined s)) st))
          else None
      end
  | DoDrop, Removing r i ev todo evs pos =>
      let '(r', st) := remove_step r j i st in
      Some (on_entry j (at_run match r' with
                               | Some r' => Removing r' i ev todo evs pos
                               | None => Broadcasting ev todo evs pos
                               end) st)
  | DoWake, Sleeping => Some (on_entry j (at_run Top) st)
  | DoClose, Closing (i :: todo) => Some (on_entry j (at_run (Closing todo)) (on_call i cancel_sub st))
  | DoClose, Closing [] => Some (on_entry j (at_run Unlisting) st)
  | DoClose, Unlisting => Some (on_entry j (at_run Gone) (removeWatchKeyEntry j st))
  | _, _ => None
  end.

Inductive watches_op :=
| OpCommit (ev : event)
| OpWatch (k : string)
| OpCall (i : nat) (o : call_op)
| OpRun (j : nat) (o : run_op)
| OpStop.

Definition watches_exec `{MR : !MapRange} (o : watches_op) (st : kvWatches) : option kvWatches :=
  match o with
  | OpCommit ev => Some (MkWatches (hist st ++ [ev]) (watchEntries st) (entries st) (calls st))
  | OpWatch k => Some (WatchKey k st)
  | OpCall i o => s ← calls st !! i; call_step o i s st
  | OpRun j o => e ← entries st !! j; run_step o j e st
  | OpStop => Some (stopKeyWatches st)
  end.

Definition watches_run `{MR : !MapRange} (os : list watches_op) (st : kvWatches) : option kvWatches :=
  fold_left (λ st o, st ≫= watches_exec o) os (Some st).

(** * Lemmas *)

(** ** The invariant *)

(** The broadcast under way, and the subscribers left for it. *)
Definition pending (pc : run_pc) : option (event * list nat) :=
  match pc with
  | Broadcasting ev todo _ _ | Removing _ _ ev todo _ _ => Some (ev, todo)
  | _ => None
  end.

Definition todo_of (e : watchKeyEntry) : list nat := match pending (run e) with Some (_, todo) => todo | None => [] end.

(** What a subscriber is still owed of it. *)
Definition owed (e : watchKeyEntry) (i : nat) : list event :=
  match pending (run e) with Some (ev, todo) => if decide (i ∈ todo) then [ev] else [] | None => [] end.

(** The events of the update under way, and the position that it leads to. *)
Definition progress (n : nat) (pc : run_pc) : list event * nat :=
  match pc with
  | Watching pos => ([], pos)
  | Broadcasting _ _ evs pos | Removing _ _ _ _ evs pos => (evs, pos)
  | _ => ([], n)
  end.

Definition received (s : watchKeySubscriber) : list event := given s ++ events s.

Record call_ok (i : nat) (s : watchKeySubscriber) (e : watchKeyEntry) : Prop := {
  ok_prefix : spc s ≠ Joining → joined s ≤ length (log e) ∧ received s `prefix_of` drop (joined s) (log e);
  ok_all : spc s ≠ Joining → done s = false →
    i ∈ subs e ∧ received s ++ owed e i = drop (joined s) (log e) ∧
    (spc s = Looping ∨ spc s = Handling ∨ ∃ res, spc s = Leaving RemCancel res);
  ok_joining : spc s = Joining → received s = []
}.

Record entry_ok (cs : list watchKeySubscriber) (h : list event) (j : nat) (e : watchKeyEntry) : Prop := {
  ok_subs : ∀ i, i ∈ subs e ∨ i ∈ todo_of e → ∃ s, cs !! i = Some s ∧ entry s = j ∧ spc s ≠ Joining;
  ok_nodup : NoDup (todo_of e);
  ok_removing : ∀ r i ev todo evs pos, run e = Removing r i ev todo evs pos →
    ∃ s, cs !! i = Some s ∧ entry s = j ∧ done s = true;
  ok_closing : ∀ i todo, run e = Closing todo → i ∈ todo → ∃ s, cs !! i = Some s ∧ entry s = j;
  ok_log : let '(evs, pos) := progress (length h) (run e) in
    pos ≤ length h ∧ log e ++ evs `sublist_of` filter (watched (key e)) (take pos h)
}.

Record watches_inv (st : kvWatches) : Prop := {
  inv_calls : ∀ i s, calls st !! i = Some s → ∃ e, entries st !! entry s = Some e ∧ call_ok i s e;
  inv_entries : ∀ j e, entries st !! j = Some e → entry_ok (calls st) (hist st) j e;
  inv_map : ∀ k j, watchEntries st !! k = Some j → ∃ e, entries st !! j = Some e ∧ key e = k
}.

(** A call goes on: it keeps its entry, it has joined for good, it is done for good. *)
Record goes_on (s s' : watchKeySubscriber) : Prop := {
  on_entry_same : entry s' = entry s;
  on_joined : spc s ≠ Joining → spc s' ≠ Joining;
  on_done : done s = true → done s' = true
}.

Lemma goes_on_refl s : goes_on s s.
Proof. by split. Qed.

Lemma entry_ok_goes_on cs h j e i f s :
  cs !! i = Some s → goes_on s (f s) → entry_ok cs h j e → entry_ok (alter f i cs) h j e.
Proof.
  intros Hi [He Hj Hd] [Hs Hn Hr Hcl Hl].
  assert (Halter : ∀ i' s', cs !! i' = Some s' → ∃ s'', alter f i cs !! i' = Some s'' ∧ goes_on s' s'').
  { intros i' s' Hi'. destruct (decide (i = i')) as [<- | Hne].
    - rewrite Hi in Hi'. injection Hi' as <-. exists (f s). rewrite list_lookup_alter_eq, Hi. by split; [| split].
    - exists s'. rewrite list_lookup_alter_ne by done. split; [done | apply goes_on_refl]. }
  split; [| done | | | done].
  3: { intros i' todo Hrun Hin. destruct (Hcl i' todo Hrun Hin) as (s' & Hi1 & <-).
       destruct (Halter i' s' Hi1) as (s'' & ? & [? _ _]). by exists s''. }
  - intros i' Hi'. destruct (Hs i' Hi') as (s' & Hi1 & <- & Hj'). destruct (Halter i' s' Hi1) as (s'' & ? & [? ? ?]).
    exists s''. split_and!; auto.
  - intros r i' ev todo evs pos Hrun. destruct (Hr _ _ _ _ _ _ Hrun) as (s' & Hi1 & <- & Hd').
    destruct (Halter i' s' Hi1) as (s'' & ? & [? ? ?]). exists s''. split_and!; auto.
Qed.

(** One call changes. *)
Lemma inv_on_call i f st :
  watches_inv st →
  (∀ s e, calls st !! i = Some s → entries st !! entry s = Some e → call_ok i s e → goes_on s (f s) ∧ call_ok i (f s) e) →
  watches_inv (on_call i f st).
Proof.
  intros [Hc He Hm] Hf. destruct (calls st !! i) as [s|] eqn:Hi.
  2: { assert (alter f i (calls st) = calls st) as Heq.
       { apply list_eq. intros k. destruct (decide (i = k)) as [<- | Hne];
           [by rewrite list_lookup_alter_eq, Hi | by rewrite list_lookup_alter_ne]. }
       split; simpl; rewrite ?Heq; done. }
  destruct (Hc i s Hi) as (e & Hj & Hok). destruct (Hf s e eq_refl Hj Hok) as [Hg Hok'].
  split; simpl; [| | done].
  - intros i' s'. destruct (decide (i = i')) as [<- | Hne].
    + rewrite list_lookup_alter_eq, Hi. intros [= <-]. exists e. by rewrite (on_entry_same _ _ Hg).
    + rewrite list_lookup_alter_ne by done. apply Hc.
  - intros j e' Hj'. apply (entry_ok_goes_on _ _ _ _ _ _ s); auto.
Qed.

Lemma alter_key j g (es : list watchKeyEntry) j' e k :
  es !! j' = Some e → key e = k → (∀ e, es !! j = Some e → key (g e) = key e) →
  ∃ e', alter g j es !! j' = Some e' ∧ key e' = k.
Proof.
  intros Hj He Hg. destruct (decide (j = j')) as [<- | Hne].
  - exists (g e). rewrite list_lookup_alter_eq, Hj. split; [done |]. by rewrite Hg.
  - exists e. by rewrite list_lookup_alter_ne.
Qed.

(** One entry changes, and possibly one of its calls. *)
Lemma inv_on_entry j g st :
  watches_inv st →
  (∀ e, entries st !! j = Some e → entry_ok (calls st) (hist st) j e →
     key (g e) = key e ∧ entry_ok (calls st) (hist st) j (g e) ∧ ∀ i s, calls st !! i = Some s → entry s = j → call_ok i s e → call_ok i s (g e)) →
  watches_inv (on_entry j g st).
Proof.
  intros [Hc He Hm] Hg. split; simpl; [| | intros k j' Hk; destruct (Hm k j' Hk) as (e & Hj & He'); apply (alter_key j g _ j' e k Hj He'); intros e0 Hj0; by apply Hg; auto].
  - intros i s Hi. destruct (Hc i s Hi) as (e & Hj & Hok). destruct (decide (j = entry s)) as [-> | Hne].
    + exists (g e). rewrite list_lookup_alter_eq, Hj. split; [done |]. by apply (Hg e Hj (He _ _ Hj)).
    + exists e. by rewrite list_lookup_alter_ne.
  - intros j' e'. destruct (decide (j = j')) as [<- | Hne].
    + rewrite list_lookup_alter_eq. intros (e & Hj & ->)%fmap_Some. by apply (Hg e Hj (He _ _ Hj)).
    + rewrite list_lookup_alter_ne by done. apply He.
Qed.

Lemma inv_on_both i j f g st s e :
  watches_inv st → calls st !! i = Some s → entries st !! j = Some e → entry s = j → goes_on s (f s) → key (g e) = key e →
  call_ok i (f s) (g e) → entry_ok (alter f i (calls st)) (hist st) j (g e) →
  (∀ i' s', i' ≠ i → calls st !! i' = Some s' → entry s' = j → call_ok i' s' e → call_ok i' s' (g e)) →
  watches_inv (on_call i f (on_entry j g st)).
Proof.
  intros [Hc He Hm] Hi Hj Hs Hg Hkey Hok Hent Hother.
  split; simpl; [| | intros k j' Hk; destruct (Hm k j' Hk) as (e' & Hj' & He'); apply (alter_key j g _ j' e' k Hj' He'); intros e0 Hj0; congruence].
  - intros i' s'. destruct (decide (i = i')) as [<- | Hne].
    + rewrite list_lookup_alter_eq, Hi. intros [= <-]. exists (g e).
      by rewrite (on_entry_same _ _ Hg), Hs, list_lookup_alter_eq, Hj.
    + rewrite list_lookup_alter_ne by done. intros Hi'. destruct (Hc i' s' Hi') as (e' & Hj' & Hok').
      destruct (decide (j = entry s')) as [-> | Hne'].
      * exists (g e'). rewrite list_lookup_alter_eq, Hj'. split; [done |]. simplify_eq. by apply Hother.
      * exists e'. by rewrite list_lookup_alter_ne.
  - intros j' e'. destruct (decide (j = j')) as [<- | Hne].
    + rewrite list_lookup_alter_eq, Hj. by intros [= <-].
    + rewrite list_lookup_alter_ne by done. intros Hj'. apply (entry_ok_goes_on _ _ _ _ _ _ s); auto.
Qed.

(** ** The steps of a call *)

(** A step that leaves alone what has been received. *)
Lemma inv_call_step i f st :
  watches_inv st →
  (∀ s, calls st !! i = Some s → goes_on s (f s) ∧ joined (f s) = joined s ∧ received (f s) = received s ∧
     (spc (f s) = Joining ↔ spc s = Joining) ∧
     (done (f s) = false → spc (f s) = Joining ∨ spc (f s) = Looping ∨ spc (f s) = Handling ∨
        ∃ res, spc (f s) = Leaving RemCancel res)) →
  watches_inv (on_call i f st).
Proof.
  intros Hinv Hf. apply inv_on_call; [done |]. intros s e Hi Hj [Hp Ha Hjo].
  destruct (Hf s Hi) as (Hg & Hjoined & Hrec & Hiff & Hpc). split; [done |].
  split; rewrite ?Hjoined, ?Hrec; rewrite ?Hiff; [done | | done].
  intros Hnj Hd. assert (Hds : done s = false).
  { destruct (done s) eqn:Hds; [| done]. by rewrite (on_done _ _ Hg Hds) in Hd. }
  destruct (Ha Hnj Hds) as (? & ? & _). split_and!; [done | done |].
  destruct (Hpc Hd) as [Hj'%Hiff | ?]; done.
Qed.

Lemma inv_cancel_sub i st : watches_inv st → watches_inv (on_call i cancel_sub st).
Proof.
  intros Hinv. apply inv_call_step; [done |]. intros s Hi. unfold done. simpl. rewrite orb_true_r.
  split_and!; try done. split; [done | done |]. intros _. apply orb_true_r.
Qed.

Lemma inv_unsub i j st :
  watches_inv st → (∀ s, calls st !! i = Some s → done s = true) →
  watches_inv (on_entry j (λ e, MkEntry (key e) (ecancelled e) (subs e ∖ {[i]}) (run e) (log e)) st).
Proof.
  intros Hinv Hd. apply inv_on_entry; [done |]. intros e Hj [Hs Hn Hr Hcl Hl]. split; [done |]. split.
  - split; [| done..]. simpl. intros i' Hi'. apply Hs. unfold todo_of in *. simpl in Hi'. set_solver.
  - intros i' s Hi' _ [Hp Ha Hjo]. split; [done | | done]. intros Hnj Hds. destruct (Ha Hnj Hds) as (Hin & ? & ?).
    split_and!; [| done | done]. simpl. apply elem_of_difference. split; [done |].
    intros ->%elem_of_singleton. by rewrite (Hd s Hi') in Hds.
Qed.

Lemma inv_cancel_entry j st : watches_inv st → watches_inv (on_entry j cancel_entry st).
Proof.
  intros Hinv. apply inv_on_entry; [done |]. intros e Hj [? ? ? ? ?]. split; [done |]. split; [by split |].
  intros i s _ _ [? ? ?]. by split.
Qed.

Lemma inv_set_map m st :
  watches_inv st → (∀ k j, m !! k = Some j → watchEntries st !! k = Some j) →
  watches_inv (MkWatches (hist st) m (entries st) (calls st)).
Proof. intros [Hc He Hm] Hsub. split; simpl; [done.. |]. intros k j Hk. apply Hm. by apply Hsub. Qed.

Lemma inv_removeWatchKeyEntry j st : watches_inv st → watches_inv (removeWatchKeyEntry j st).
Proof.
  intros Hinv. unfold removeWatchKeyEntry. repeat case_match; try done. apply inv_set_map; [done |].
  by intros k j' [_ ?]%lookup_delete_Some.
Qed.

(** A step of the removal of a subscriber keeps the invariant, and what the goroutine of
    the entry is doing. *)
Lemma remove_step_inv r j i st s e r' st' :
  watches_inv st → calls st !! i = Some s → entries st !! j = Some e → (r ≠ RemCancel → done s = true) →
  remove_step r j i st = (r', st') →
  watches_inv st' ∧ (∃ s', calls st' !! i = Some s' ∧ entry s' = entry s ∧ spc s' = spc s ∧ done s' = true) ∧
  (∃ e', entries st' !! j = Some e' ∧ run e' = run e ∧ key e' = key e ∧ log e' = log e) ∧ hist st' = hist st.
Proof.
  intros Hinv Hi Hj Hd. destruct r; simpl; intros [= <- <-].
  - split_and!; [by apply inv_cancel_sub | | by exists e | done]. exists (cancel_sub s).
    simpl. rewrite list_lookup_alter_eq, Hi. split_and!; [done..|]. unfold done. simpl. apply orb_true_r.
  - split_and!; [| exists s; split_and!; auto | | done].
    + apply inv_unsub; [done |]. intros s' Hs'. simplify_eq. by apply Hd.
    + simpl. rewrite list_lookup_alter_eq, Hj. by eexists.
  - assert (calls (removeWatchKeyEntry j st) = calls st ∧ entries (removeWatchKeyEntry j st) = entries st ∧
      hist (removeWatchKeyEntry j st) = hist st) as (-> & -> & ->) by (unfold removeWatchKeyEntry; by repeat case_match).
    split_and!; [by apply inv_removeWatchKeyEntry | exists s; split_and!; auto | by exists e | done].
  - split_and!; [by apply inv_cancel_entry | exists s; split_and!; auto | | done].
    simpl. rewrite list_lookup_alter_eq, Hj. by eexists.
Qed.

Lemma inv_addSubscriber i s st :
  watches_inv st → calls st !! i = Some s → spc s = Joining → watches_inv (addSubscriber i (entry s) st).
Proof.
  intros Hinv Hi Hpc. pose proof Hinv as [Hc He _]. destruct (Hc i s Hi) as (e & Hj & [_ _ Hrec]).
  specialize (Hrec Hpc). unfold addSubscriber. rewrite Hj.
  set (f := λ s, MkSub (entry s) (ctxDone s) (scancelled s) (events s) (given s) Looping (length (log e))).
  assert (Hg : goes_on s (f s)) by by split.
  pose proof (He _ _ Hj) as Hent. apply (inv_on_both i (entry s) f _ st s e); try done.
  - assert (Hout : i ∉ todo_of e).
    { intros Hin. destruct (ok_subs _ _ _ _ Hent i) as (s' & Hs' & _ & Hne); [by right |]. congruence. }
    assert (Hnil : received (f s) = []) by done.
    split; rewrite ?Hnil; simpl; [| | done].
    + intros _. split; [done |]. apply prefix_nil.
    + intros _ _. split_and!; [set_solver | | by left]. rewrite drop_ge by done.
      unfold owed, todo_of in *. simpl. destruct (pending (run e)) as [[ev todo]|]; [| done]. by rewrite decide_False.
  - destruct (entry_ok_goes_on _ _ _ _ i f s Hi Hg Hent) as [Hs Hn Hr Hcl Hl]. split; [| done..].
    simpl. intros i' [[->%elem_of_singleton | Hin]%elem_of_union | Hin]; [| apply Hs; auto..].
    exists (f s). by rewrite list_lookup_alter_eq, Hi.
  - intros i' s' _ _ _ [Hp Ha Hjo]. split; [done | | done]. intros Hnj Hd. destruct (Ha Hnj Hd) as (? & ? & ?).
    split_and!; [simpl; set_solver | done | done].
Qed.

Lemma inv_at_spc i pc st :
  watches_inv st → pc ≠ Joining →
  (∀ s, calls st !! i = Some s → spc s ≠ Joining ∧
     (done s = false → pc = Looping ∨ pc = Handling ∨ ∃ res, pc = Leaving RemCancel res)) →
  watches_inv (on_call i (at_spc pc) st).
Proof.
  intros Hinv Hpc Hs. apply inv_call_step; [done |]. intros s Hi. destruct (Hs s Hi) as [Hnj Hd].
  split_and!; [by split | done | done | by simpl; split | by intros ?%Hd; right].
Qed.

Lemma call_step_inv o i s st st' :
  watches_inv st → calls st !! i = Some s → call_step o i s st = Some st' → watches_inv st'.
Proof.
  intros Hinv Hi Hstep. destruct (inv_calls _ Hinv i s Hi) as (e & Hj & Hok).
  destruct o; unfold call_step in Hstep.
  8: { injection Hstep as <-. apply inv_call_step; [done |]. intros s0 Hs0. simplify_eq.
       assert (Hnd : done s = false → spc s = Joining ∨ spc s = Looping ∨ spc s = Handling ∨ ∃ res, spc s = Leaving RemCancel res).
       { intros Hd. destruct (spc s) eqn:Hpc; [by left | ..]; right;
           destruct (ok_all _ _ _ Hok ltac:(congruence) Hd) as (_ & _ & Hpc'); rewrite Hpc in Hpc'; auto. }
       split_and!; [| done | done | done | done]. split; [done | done |]. done. }
  all: destruct (spc s) eqn:Hpc; try discriminate.
  - injection Hstep as <-. by apply inv_addSubscriber.
  - destruct (events s) as [|ev evs] eqn:Hev; [done |]. injection Hstep as <-.
    apply inv_call_step; [done |]. intros s0 Hs0. simplify_eq. split_and!; [by split | done | | by simpl; rewrite Hpc | by simpl; auto].
    unfold received. simpl. rewrite Hev, <- (assoc_L (++)). done.
  - injection Hstep as <-. apply inv_at_spc; [done..|]. intros s0 Hs0. simplify_eq. rewrite Hpc. auto.
  - injection Hstep as <-. apply inv_at_spc; [done..|]. intros s0 Hs0. simplify_eq. rewrite Hpc. eauto.
  - destruct (ctxDone s); [| done]. injection Hstep as <-. apply inv_at_spc; [done..|]. intros s0 Hs0. simplify_eq. rewrite Hpc. eauto.
  - destruct (done s); [| done]. injection Hstep as <-. apply inv_at_spc; [done..|]. intros s0 Hs0. simplify_eq. rewrite Hpc. eauto.
  - destruct (remove_step r (entry s) i st) as [r' st1] eqn:Hr. injection Hstep as <-.
    assert (Hd : r ≠ RemCancel → done s = true).
    { intros Hne. destruct (done s) eqn:Hd; [done |].
      destruct (ok_all _ _ _ Hok ltac:(congruence) Hd) as (_ & _ & Hpc'). rewrite Hpc in Hpc'. naive_solver. }
    destruct (remove_step_inv _ _ _ _ _ _ _ _ Hinv Hi Hj Hd Hr) as (Hinv' & (s' & Hs' & _ & Hpc' & Hd') & _).
    apply inv_at_spc; [done | by destruct r' |]. intros s0 Hs0. simplify_eq. rewrite Hpc', Hpc, Hd'. done.
Qed.

(** ** The steps of the goroutine *)

Lemma inv_at_run j pc e st :
  watches_inv st → entries st !! j = Some e →
  (∀ i, i ∈ todo_of (at_run pc e) → i ∈ todo_of e) → NoDup (todo_of (at_run pc e)) →
  (∀ i s, calls st !! i = Some s → done s = false → owed (at_run pc e) i = owed e i) →
  (∀ r i ev todo evs pos, pc = Removing r i ev todo evs pos → ∃ s, calls st !! i = Some s ∧ entry s = j ∧ done s = true) →
  (∀ i todo, pc = Closing todo → i ∈ todo → ∃ s, calls st !! i = Some s ∧ entry s = j) →
  (let '(evs, pos) := progress (length (hist st)) pc in
   pos ≤ length (hist st) ∧ log e ++ evs `sublist_of` filter (watched (key e)) (take pos (hist st))) →
  watches_inv (on_entry j (at_run pc) st).
Proof.
  intros Hinv Hj Htodo Hnd Howed Hr Hcl Hl. apply inv_on_entry; [done |]. intros e0 Hj0 [Hs _ _ _ _].
  simplify_eq. split; [done |]. split.
  - split; [| done..]. simpl. intros i [Hi | Hi]; apply Hs; auto.
  - intros i s Hi _ [Hp Ha Hjo]. split; [done | | done]. intros Hnj Hd. destruct (Ha Hnj Hd) as (? & ? & ?).
    split_and!; [done | by rewrite (Howed i s) | done].
Qed.

(** What has been broadcast is of the history. *)
Lemma entry_log cs h j e :
  entry_ok cs h j e → log e `sublist_of` filter (watched (key e)) h.
Proof.
  intros [_ _ _ _ Hl]. destruct (progress _ _) as [evs pos]. destruct Hl as [_ Hl].
  trans (log e ++ evs); [by apply sublist_inserts_r |]. etrans; [exact Hl |].
  rewrite <- (take_drop pos h) at 2. rewrite filter_app. by apply sublist_inserts_r.
Qed.

(** Between updates the goroutine may go to any place where it broadcasts nothing. *)
Lemma inv_idle j pc e st :
  watches_inv st → entries st !! j = Some e → pending (run e) = None → pending pc = None →
  progress (length (hist st)) pc = ([], length (hist st)) →
  (∀ i todo, pc = Closing todo → i ∈ todo → ∃ s, calls st !! i = Some s ∧ entry s = j) →
  watches_inv (on_entry j (at_run pc) st).
Proof.
  intros Hinv Hj Hpe Hpc Hpr Hcl. pose proof (inv_entries _ Hinv j e Hj) as Hent.
  assert (Ht : todo_of (at_run pc e) = []) by (unfold todo_of; simpl; by rewrite Hpc).
  apply (inv_at_run j pc e); [done | done | rewrite Ht; by intros ? ?%elem_of_nil | rewrite Ht; constructor | | | done |].
  - intros i s _ _. unfold owed. simpl. by rewrite Hpe, Hpc.
  - intros r i ev todo evs pos ->. done.
  - rewrite Hpr. split; [done |]. rewrite app_nil_r, firstn_all. by eapply entry_log.
Qed.

Lemma elem_of_subs_range `{MR : !MapRange} (X : gset nat) i : i ∈ (range_map (gset_to_gmap tt X)).*1 ↔ i ∈ X.
Proof.
  rewrite (range_map_perm (gset_to_gmap tt X)), list_elem_of_fmap. split.
  - intros ([i' []] & -> & [? _]%elem_of_map_to_list%lookup_gset_to_gmap_Some). done.
  - intros Hi. exists (i, ()). split; [done |]. by apply elem_of_map_to_list, lookup_gset_to_gmap_Some.
Qed.

Lemma inv_next_event `{MR : !MapRange} j evs pos e st :
  watches_inv st → entries st !! j = Some e → todo_of e = [] →
  pos ≤ length (hist st) → log e ++ evs `sublist_of` filter (watched (key e)) (take pos (hist st)) →
  watches_inv (on_entry j (next_event evs pos) st).
Proof.
  intros Hinv Hj Ht Hpos Hl.
  assert (Ho : ∀ i, owed e i = []).
  { intros i. unfold owed, todo_of in *. destruct (pending (run e)) as [[ev todo]|]; [| done]. subst. done. }
  destruct evs as [|ev evs].
  { apply (inv_at_run j (Watching pos) e); try done.
    - by intros i ?%elem_of_nil.
    - constructor. }
  apply inv_on_entry; [done |]. intros e0 Hj0 [Hs _ _ _ _]. simplify_eq. split; [done |].
  set (l := (range_map (gset_to_gmap tt (subs e))).*1).
  assert (Hperm : l ≡ₚ (map_to_list (gset_to_gmap tt (subs e))).*1) by (unfold l; by rewrite (range_map_perm _)).
  assert (Hin : ∀ i, i ∈ l ↔ i ∈ subs e) by apply elem_of_subs_range.
  split.
  - split; simpl; [| | done | done |].
    + intros i Hi. apply Hs. left. unfold todo_of in Hi. simpl in Hi. fold l in Hi. rewrite Hin in Hi. tauto.
    + unfold todo_of. simpl. fold l. rewrite Hperm. apply NoDup_fst_map_to_list.
    + split; [done |]. by rewrite <- (assoc_L (++)).
  - intros i s Hi _ [Hp Ha Hjo]. split; [| | done]; simpl.
    + intros Hnj. destruct (Hp Hnj) as [Hlen Hpre]. rewrite length_app. split; [simpl; lia |].
      rewrite drop_app_le by done. by apply prefix_app_r.
    + intros Hnj Hd. destruct (Hp Hnj) as [Hlen _]. destruct (Ha Hnj Hd) as (Hsub & Hrec & ?).
      split_and!; [done | | done]. rewrite drop_app_le by done. rewrite <- Hrec, Ho, app_nil_r.
      unfold owed. simpl. fold l. rewrite decide_True; [done |]. by apply Hin.
Qed.

Lemma owed_cons ev (i i' : nat) todo :
  i ≠ i' → (if decide (i' ∈ i :: todo) then [ev] else []) = (if decide (i' ∈ todo) then [ev : event] else []).
Proof. intros Hne. do 2 case_decide; set_solver. Qed.

(** A push that succeeds. *)
Lemma inv_push_event i j ev todo evs pos e s st :
  watches_inv st → entries st !! j = Some e → run e = Broadcasting ev (i :: todo) evs pos →
  calls st !! i = Some s → done s = false →
  watches_inv (on_entry j (at_run (Broadcasting ev todo evs pos))
    (on_call i (λ s, MkSub (entry s) (ctxDone s) (scancelled s) (events s ++ [ev]) (given s) (spc s) (joined s)) st)).
Proof.
  intros Hinv Hj Hrun Hi Hd. set (f := λ s, MkSub _ _ _ _ _ _ _).
  pose proof (inv_entries _ Hinv j e Hj) as Hent. pose proof Hent as [Hs Hn Hr Hcl Hl].
  unfold todo_of in Hs, Hn. rewrite Hrun in Hs, Hn, Hl. simpl in Hs, Hn, Hl. apply NoDup_cons in Hn as [Hni Hn].
  destruct (Hs i) as (s' & Hi' & Hej & Hnj); [right; left |]. simplify_eq.
  destruct (inv_calls _ Hinv i s Hi) as (e' & Hj' & [Hp Ha Hjo]). simplify_eq.
  destruct (Ha Hnj Hd) as (Hsub & Hrec & Hpc). destruct (Hp Hnj) as [Hlen _].
  unfold owed in Hrec. rewrite Hrun in Hrec. simpl in Hrec. rewrite decide_True in Hrec by left.
  assert (Hrec' : received (f s) = drop (joined s) (log e)).
  { rewrite <- Hrec. unfold received, f. simpl. by rewrite (assoc_L (++)). }
  assert (Hg : goes_on s (f s)) by by split.
  apply (inv_on_both i (entry s) f _ st s e); try done.
  - split; simpl; [by rewrite Hrec' | | done]. intros _ _.
    split_and!; [done | | done]. rewrite Hrec'. unfold owed. simpl. by rewrite decide_False, app_nil_r.
  - apply (entry_ok_goes_on _ _ _ _ i f s Hi Hg). split; simpl; [| done | done | done | done].
    intros i' [Hi' | Hi']; apply Hs; [by left | right; by right].
  - intros i' s' Hne _ _ [Hp' Ha' Hjo']. split; [done | | done]. intros Hnj' Hd'.
    destruct (Ha' Hnj' Hd') as (? & Hrec1 & ?). split_and!; [done | | done]. etrans; [| exact Hrec1].
    unfold owed. rewrite Hrun. simpl. by rewrite owed_cons.
Qed.

(** A subscriber whose push failed leaves the broadcast. *)
Lemma inv_broadcast_drop j e pc ev i todo evs pos st :
  watches_inv st → entries st !! j = Some e →
  (run e = Broadcasting ev (i :: todo) evs pos ∨ ∃ r, run e = Removing r i ev todo evs pos) →
  (pc = Broadcasting ev todo evs pos ∨ ∃ r, pc = Removing r i ev todo evs pos) →
  (∃ s, calls st !! i = Some s ∧ entry s = j ∧ done s = true) →
  watches_inv (on_entry j (at_run pc) st).
Proof.
  intros Hinv Hj Hrun Hpc Hdone. pose proof (inv_entries _ Hinv j e Hj) as [Hs Hn Hr _ Hl].
  assert (Hpend : pending pc = Some (ev, todo)) by (destruct Hpc as [-> | [r ->]]; done).
  assert (Hprog : progress (length (hist st)) pc = progress (length (hist st)) (run e)).
  { by destruct Hpc as [-> | [r ->]], Hrun as [-> | [r' ->]]. }
  assert (Hpend' : pending (run e) = Some (ev, i :: todo) ∨ pending (run e) = Some (ev, todo)).
  { destruct Hrun as [-> | [r ->]]; auto. }
  apply (inv_at_run j pc e); unfold todo_of, owed in *; simpl; rewrite ?Hpend, ?Hprog; try done.
  - intros i'. destruct Hpend' as [-> | ->]; [by right | done].
  - destruct Hpend' as [Hp | Hp]; rewrite Hp in Hn; [by apply NoDup_cons in Hn as [_ ?] | done].
  - intros i' s' Hi' Hd. destruct Hpend' as [-> | ->]; [| done]. symmetry. apply owed_cons. intros ->.
    destruct Hdone as (s & ? & _ & ?). congruence.
  - intros r i' ev' todo' evs' pos' ->. destruct Hpc as [? | [r' ?]]; [done | by simplify_eq].
  - intros i' todo' ->. by destruct Hpc as [? | [r' ?]].
Qed.

Lemma run_step_inv `{MR : !MapRange} o j e st st' :
  watches_inv st → entries st !! j = Some e → run_step o j e st = Some st' → watches_inv st'.
Proof.
  intros Hinv Hj Hstep. pose proof (inv_entries _ Hinv j e Hj) as Hent. pose proof Hent as [Hs Hn Hr Hcl Hl].
  destruct o; unfold run_step in Hstep; destruct (run e) eqn:Hrun; try discriminate.
  1-3: destruct (ecancelled e); [| done].
  1-3: injection Hstep as <-; apply (inv_idle j _ e); [done | done | by rewrite Hrun | done | done |];
    intros i todo [= <-] Hin%elem_of_subs_range; destruct (Hs i) as (s & ? & ? & _); [by left | by exists s].
  all: try (injection Hstep as <-; by (apply (inv_idle j _ e); [done | done | by rewrite Hrun | done..])).
  - case_decide as Hpos; [| done]. injection Hstep as <-. simpl in Hl. destruct Hl as [_ Hl].
    apply (inv_next_event j _ _ e); [done | done | unfold todo_of; by rewrite Hrun | done |].
    rewrite app_nil_r in Hl. rewrite <- take_take_drop, filter_app. by apply sublist_app.
  - destruct todo; [| done]. injection Hstep as <-. simpl in Hl. destruct Hl as [Hpos Hl].
    by apply (inv_next_event j _ _ e); [done | done | unfold todo_of; by rewrite Hrun | ..].
  - destruct todo as [|i todo]; [done |]. destruct (calls st !! i) as [s|] eqn:Hi; [| done].
    destruct (done s) eqn:Hd.
    + injection Hstep as <-. apply (inv_broadcast_drop j e _ ev i todo evs pos); [done | done | by left | by right; eexists |].
      destruct (Hs i) as (s' & ? & ? & _); [right; unfold todo_of; rewrite Hrun; by left |]. exists s. by simplify_eq.
    + case_decide; [| done]. injection Hstep as <-. by apply (inv_push_event i j ev todo evs pos e s).
  - destruct (remove_step r j i st) as [r' st1] eqn:Hrm. injection Hstep as <-.
    destruct (Hr _ _ _ _ _ _ eq_refl) as (s & Hi & He & Hd).
    destruct (remove_step_inv _ _ _ _ _ _ _ _ Hinv Hi Hj (λ _, Hd) Hrm)
      as (Hinv' & (s' & Hi' & He' & _ & Hd') & (e' & Hj' & Hrun' & _) & _).
    apply (inv_broadcast_drop j e' _ ev i todo evs pos); [done | done | right; exists r; congruence | |].
    + destruct r'; [by right; eexists | by left].
    + exists s'. split_and!; congruence.
  - destruct todo as [|i todo]; injection Hstep as <-.
    + by (apply (inv_idle j _ e); [done | done | by rewrite Hrun | done..]).
    + apply (inv_idle j _ e); [by apply inv_cancel_sub | done | by rewrite Hrun | done | done |].
      intros i' todo' [= <-] Hin. destruct (Hcl i' (i :: todo) eq_refl) as (s & Hs' & He'); [by right |].
      simpl. destruct (decide (i = i')) as [<- | Hne].
      * exists (cancel_sub s). by rewrite list_lookup_alter_eq, Hs'.
      * exists s. by rewrite list_lookup_alter_ne.
  - injection Hstep as <-.
    assert (entries (removeWatchKeyEntry j st) = entries st ∧ hist (removeWatchKeyEntry j st) = hist st) as [Hes Hhs]
      by (unfold removeWatchKeyEntry; by repeat case_match).
    apply (inv_idle j _ e); [by apply inv_removeWatchKeyEntry | by rewrite Hes | by rewrite Hrun | done..].
Qed.

(** ** The hub *)

Lemma inv_new_call j e st :
  watches_inv st → entries st !! j = Some e →
  watches_inv (MkWatches (hist st) (watchEntries st) (entries st) (calls st ++ [MkSub j false false [] [] Joining 0])).
Proof.
  intros [Hc He Hm] Hj. split; simpl; [| | done].
  - intros i s [Hi | [_ Hi]]%lookup_app_Some; [by apply Hc |].
    apply list_lookup_singleton_Some in Hi as [_ <-]. exists e. split; [done |]. by split.
  - intros j' e' Hj'. destruct (He j' e' Hj') as [Hs Hn Hr Hcl Hl]. split; [| done | | | done].
    3: { intros i todo Hrun Hin. destruct (Hcl i todo Hrun Hin) as (s & ? & ?). exists s. split; [by apply lookup_app_l_Some | done]. }
    + intros i Hi. destruct (Hs i Hi) as (s & ? & ? & ?). exists s. split_and!; [by apply lookup_app_l_Some | done..].
    + intros r i ev todo evs pos Hrun. destruct (Hr _ _ _ _ _ _ Hrun) as (s & ? & ? & ?).
      exists s. split_and!; [by apply lookup_app_l_Some | done..].
Qed.

Lemma inv_new_entry k st :
  watches_inv st →
  watches_inv (MkWatches (hist st) (<[k := length (entries st)]> (watchEntries st))
                 (entries st ++ [MkEntry k false ∅ Top []]) (calls st)).
Proof.
  intros [Hc He Hm]. split; simpl.
  - intros i s Hi. destruct (Hc i s Hi) as (e & Hj & Hok). exists e. split; [by apply lookup_app_l_Some | done].
  - intros j e [Hj | [_ Hj]]%lookup_app_Some; [by apply He |]. apply list_lookup_singleton_Some in Hj as [_ <-].
    split; simpl; [| constructor | done | done |].
    + intros i [? | ?%elem_of_nil]; set_solver.
    + split; [done |]. apply sublist_nil_l.
  - intros k' j [[<- <-] | [_ Hk]]%lookup_insert_Some.
    + eexists. rewrite lookup_app_r, Nat.sub_diag by done. by split.
    + destruct (Hm k' j Hk) as (e & Hj & ?). exists e. split; [by apply lookup_app_l_Some | done].
Qed.

Lemma getOrCreateWatchKeyEntry_inv k st st' j :
  watches_inv st → getOrCreateWatchKeyEntry k st = (st', j) →
  watches_inv st' ∧ ∃ e, entries st' !! j = Some e ∧ key e = k.
Proof.
  intros Hinv. unfold getOrCreateWatchKeyEntry. destruct (watchEntries st !! k) as [j'|] eqn:Hk; intros [= <- <-].
  - split; [done |]. by apply (inv_map _ Hinv).
  - split; [by apply inv_new_entry |]. eexists. simpl. rewrite lookup_app_r, Nat.sub_diag by done. by split.
Qed.

Lemma stopKeyWatches_inv st : watches_inv st → watches_inv (stopKeyWatches st).
Proof.
  intros [Hc He Hm].
  assert (Hsame : ∀ j e, entries st !! j = Some e → ∃ e', entries (stopKeyWatches st) !! j = Some e' ∧ (e' = e ∨ e' = cancel_entry e)).
  { intros j e Hj. unfold stopKeyWatches. simpl. rewrite list_lookup_imap, Hj. simpl. case_bool_decide; eauto. }
  split; [| | by intros k j].
  - intros i s Hi. destruct (Hc i s Hi) as (e & Hj & Hok). destruct (Hsame _ _ Hj) as (e' & Hj' & [-> | ->]); [by eauto |].
    eexists. split; [done |]. destruct Hok. by split.
  - intros j e' Hj'. unfold stopKeyWatches in Hj'. simpl in Hj'. rewrite list_lookup_imap in Hj'.
    apply fmap_Some in Hj' as (e & Hj & ->). destruct (He j e Hj). case_bool_decide; by split.
Qed.

Lemma watches_exec_inv `{MR : !MapRange} o st st' : watches_exec o st = Some st' → watches_inv st → watches_inv st'.
Proof.
  intros Hex Hinv. pose proof Hinv as [Hc He Hm]. destruct o as [ev | k | i o | j o |]; cbn [watches_exec] in Hex.
  - injection Hex as <-. split; simpl; [done | | done]. intros j e Hj.
    destruct (He j e Hj) as [Hs Hn Hr Hcl Hl]. split; [done.. |]. rewrite length_app. simpl.
    pose proof (entry_log _ _ _ _ (He j e Hj)) as Hall.
    destruct (run e); simpl in *;
      first [ split; [lia |]; rewrite firstn_all2 by (rewrite length_app; simpl; lia);
              rewrite app_nil_r, filter_app; by apply sublist_inserts_r
            | destruct Hl as [Hpos Hl]; split; [lia |]; by rewrite take_app_le ].
  - injection Hex as <-. unfold WatchKey. destruct (getOrCreateWatchKeyEntry k st) as [st1 j] eqn:Hg.
    destruct (getOrCreateWatchKeyEntry_inv _ _ _ _ Hinv Hg) as (Hinv1 & e & Hj & _). by apply (inv_new_call j e).
  - destruct (calls st !! i) as [s|] eqn:Hi; [| done]. by eapply call_step_inv.
  - destruct (entries st !! j) as [e|] eqn:Hj; [| done]. by eapply run_step_inv.
  - injection Hex as <-. by apply stopKeyWatches_inv.
Qed.

Lemma watches_run_inv `{MR : !MapRange} os st : watches_run os watches_init = Some st → watches_inv st.
Proof.
  intros Hr. apply (run_Some watches_exec watches_inv os watches_init st watches_exec_inv Hr).
  split; simpl; [by intros i s | by intros j e | by intros k j; rewrite lookup_empty].
Qed.

(** * Theorems *)

(** C13. What a subscriber of a key is given, however commits, calls, cancellations, lost
    streams and closings interleave: the events handed to its function, followed by those
    waiting in its channel, are the first of those broadcast since it was added, in order
    and each once; and as long as neither its context nor its subscription is cancelled,
    they are all of them, but for the last one while its broadcast has not come to it.
    What is broadcast for a key are changes of keys with that prefix, in the order of
    their commits, each once. *)
Theorem watch_key_delivers `{MR : !MapRange} os st i s :
  watches_run os watches_init = Some st → calls st !! i = Some s → spc s ≠ Joining →
  ∃ e, entries st !! entry s = Some e ∧
    given s ++ events s `prefix_of` drop (joined s) (log e) ∧
    (done s = false → given s ++ events s ++ owed e i = drop (joined s) (log e)) ∧
    log e `sublist_of` filter (watched (key e)) (hist st).
Proof.
  intros Hr Hi Hnj. pose proof (watches_run_inv os st Hr) as Hinv.
  destruct (inv_calls _ Hinv i s Hi) as (e & Hj & [Hp Ha _]). exists e. split_and!; [done | by apply Hp | |].
  - intros Hd. destruct (Ha Hnj Hd) as (_ & Hrec & _). by rewrite (assoc_L (++)).
  - by apply (entry_log (calls st) _ (entry s)), (inv_entries _ Hinv).
Qed.

(** ** A watcher that nothing reaches *)

(** What a removal and a goroutine leave alone. *)
Lemma remove_step_frame r j i' st r' st' :
  remove_step r j i' st = (r', st') →
  (∀ i, i ≠ i' → calls st' !! i = calls st !! i) ∧
  (∀ j', j' ≠ j → entries st' !! j' = entries st !! j') ∧
  (∀ e, entries st !! j = Some e → ∃ e', entries st' !! j = Some e' ∧ run e' = run e).
Proof.
  destruct r; simpl; intros [= _ <-]; simpl.
  - split_and!; [| done | by eauto]. intros i Hi. by rewrite list_lookup_alter_ne.
  - split_and!; [done | by intros; rewrite list_lookup_alter_ne |]. intros e Hj. rewrite list_lookup_alter_eq, Hj. eexists. by split.
  - unfold removeWatchKeyEntry. repeat case_match; split_and!; naive_solver.
  - split_and!; [done | by intros; rewrite list_lookup_alter_ne |]. intros e Hj. rewrite list_lookup_alter_eq, Hj. eexists. by split.
Qed.

Lemma run_step_frame `{MR : !MapRange} o j e st st' i s :
  watches_inv st → entries st !! j = Some e → run_step o j e st = Some st' → calls st !! i = Some s → entry s ≠ j →
  calls st' !! i = Some s ∧ entries st' !! entry s = entries st !! entry s.
Proof.
  intros Hinv Hj Hex Hi Hne. destruct (inv_entries _ Hinv j e Hj) as [Hs _ Hr Hcl _].
  assert (Hother : ∀ i', (∃ s', calls st !! i' = Some s' ∧ entry s' = j) → i' ≠ i) by (intros i' (s' & ? & <-) ->; congruence).
  unfold run_step in Hex. destruct o, (run e) eqn:Hrun; try discriminate.
  all: try (repeat case_match; simplify_eq; by (simpl; rewrite ?list_lookup_alter_ne by done)).
  - destruct todo as [|i' todo]; [done |]. assert (i' ≠ i).
    { apply Hother. destruct (Hs i') as (s' & ? & ? & _); [right; unfold todo_of; rewrite Hrun; by left | by eauto]. }
    repeat case_match; simplify_eq; simpl; by rewrite ?list_lookup_alter_ne by done.
  - destruct (remove_step r j i0 st) as [r' st1] eqn:Hrm. injection Hex as <-. simpl.
    destruct (remove_step_frame _ _ _ _ _ _ Hrm) as (Hc & He & _).
    assert (i0 ≠ i) by (destruct (Hr _ _ _ _ _ _ eq_refl) as (s' & ? & ? & _); apply Hother; by eauto).
    by rewrite list_lookup_alter_ne, Hc, He by done.
  - destruct todo as [|i' todo]; simplify_eq; simpl; [by rewrite list_lookup_alter_ne |].
    assert (i' ≠ i) by (apply Hother, (Hcl i' (i' :: todo)); [done | by left]). by rewrite !list_lookup_alter_ne by done.
  - simplify_eq. simpl. rewrite list_lookup_alter_ne by done. unfold removeWatchKeyEntry. by repeat case_match.
Qed.

Definition deaf (i : nat) (s : watchKeySubscriber) (st : kvWatches) : Prop :=
  calls st !! i = Some s ∧ spc s = Looping ∧ done s = false ∧ events s = [] ∧
  ∃ e, entries st !! entry s = Some e ∧ run e = Gone.

Lemma deaf_step `{MR : !MapRange} o st st' i s :
  watches_inv st → deaf i s st → o ≠ OpCall i DoCtx → watches_exec o st = Some st' → deaf i s st'.
Proof.
  intros Hinv (Hi & Hpc & Hd & Hev & e & Hj & Hgone) Ho Hex.
  cut (calls st' !! i = Some s ∧ ∃ e', entries st' !! entry s = Some e' ∧ run e' = Gone).
  { intros [? ?]. by split_and!. }
  destruct o as [ev | k | i' o | j o |]; cbn [watches_exec] in Hex.
  - injection Hex as <-. by eauto.
  - injection Hex as <-. unfold WatchKey, getOrCreateWatchKeyEntry. destruct (watchEntries st !! k); simpl;
      (split; [by apply lookup_app_l_Some | exists e; split; [try done; by apply lookup_app_l_Some | done]]).
  - destruct (decide (i' = i)) as [-> | Hne].
    + rewrite Hi in Hex. simpl in Hex. unfold call_step in Hex. unfold done in *. rewrite Hpc, Hev in Hex.
      apply orb_false_iff in Hd as [Hd1 Hd2]. rewrite Hd1, Hd2 in Hex. by destruct o.
    + destruct (calls st !! i') as [s'|] eqn:Hi'; [| done]. simpl in Hex. unfold call_step in Hex.
      destruct o, (spc s') eqn:Hpc'; simplify_eq.
      all: try (repeat case_match; simplify_eq; simpl; rewrite ?list_lookup_alter_ne by done; by eauto).
      * unfold addSubscriber. simpl. rewrite list_lookup_alter_ne by done. split; [done |].
        destruct (decide (entry s' = entry s)) as [Heq | Hne'].
        -- rewrite Heq, list_lookup_alter_eq, Hj. eexists. by split.
        -- rewrite list_lookup_alter_ne by done. by eauto.
      * destruct (remove_step r (entry s') i' st) as [r' st1] eqn:Hrm. injection Hex as <-. simpl.
        destruct (remove_step_frame _ _ _ _ _ _ Hrm) as (Hc & He & Hrun).
        rewrite list_lookup_alter_ne, Hc by done. split; [done |].
        destruct (decide (entry s = entry s')) as [Heq | Hne']; [rewrite Heq in *; destruct (Hrun e Hj) as (e' & ? & ?) |].
        -- exists e'. split; congruence.
        -- rewrite He by done. by eauto.
  - destruct (entries st !! j) as [e0|] eqn:Hj0; [| done]. simpl in Hex.
    destruct (decide (entry s = j)) as [<- | Hne].
    { simplify_eq. unfold run_step in Hex. rewrite Hgone in Hex. by destruct o. }
    destruct (run_step_frame _ _ _ _ _ _ _ Hinv Hj0 Hex Hi Hne) as [? ->]. by eauto.
  - injection Hex as <-. unfold stopKeyWatches. simpl. split; [done |]. rewrite list_lookup_imap, Hj. simpl.
    eexists. split; [done |]. by case_bool_decide.
Qed.

(** A watcher that nothing reaches.  A call of [WatchKey] that got its entry just
    before the last subscriber left, and was added just after the goroutine of the entry
    had closed its subscribers, is deaf: it is in its loop, its contexts are not
    cancelled, its goroutine is gone.  Whatever is committed and whoever steps from then
    on, the closing of the hub included, its function is not called and it does not
    return, until its caller's context is cancelled. *)
Theorem watch_key_deaf `{MR : !MapRange} os st i s :
  watches_run os watches_init = Some st → deaf i s st →
  ∀ os' st', watches_run os' st = Some st' → OpCall i DoCtx ∉ os' → deaf i s st'.
Proof.
  intros Hr Hdeaf os' st' Hr' Hno. pose proof (watches_run_inv os st Hr) as Hinv. clear Hr os.
  revert st Hinv Hdeaf Hr' Hno. induction os' as [|o os' IH]; intros st Hinv Hdeaf Hr' Hno.
  { by injection Hr' as <-. }
  unfold watches_run in Hr'. cbn [fold_left] in Hr'. simpl in Hr'.
  apply not_elem_of_cons in Hno as [Ho Hno]. destruct (watches_exec o st) as [st1|] eqn:Hex.
  - apply (IH st1); [by eapply watches_exec_inv | | exact Hr' | done].
    eapply deaf_step; [exact Hinv | done | | exact Hex]. congruence.
  - exfalso. clear -Hr'. induction os' as [|o' os' IH]; [done | by apply IH].
Qed.

(** Two calls watch [a]; the second joins when the goroutine has closed the first's. *)
Definition demo_watch_ops : list watches_op :=
  [OpWatch "a"; OpCall 0 DoJoin; OpRun 0 DoWatch; OpCommit (Put "a/x" "1"); OpCommit (Put "b" "2");
   OpRun 0 (DoUpdate 2); OpRun 0 DoPush; OpRun 0 DoNext; OpCall 0 DoRecv; OpCall 0 DoFnOk].

Definition demo_deaf_ops : list watches_op :=
  demo_watch_ops ++
  [OpWatch "a"; OpCall 0 DoCtx; OpCall 0 DoSeeCtx; OpCall 0 DoLeave; OpCall 0 DoLeave; OpCall 0 DoLeave; OpCall 0 DoLeave;
   OpRun 0 DoStop; OpRun 0 DoClose; OpRun 0 DoClose; OpCall 1 DoJoin].

Definition demo_later : list watches_op :=
  [OpCommit (Put "a/x" "3"); OpWatch "a"; OpCall 2 DoJoin; OpRun 1 DoWatch; OpCommit (Delete "a/x"); OpRun 1 (DoUpdate 1);
   OpRun 1 DoPush; OpStop].

Definition demo_watches (os : list watches_op) : kvWatches := default watches_init (watches_run os watches_init).
Definition demo_call (i : nat) (st : kvWatches) : watchKeySubscriber :=
  default (MkSub 0 false false [] [] Joining 0) (calls st !! i).

Lemma watch_key_delivers_witness :
  let st := demo_watches demo_watch_ops in
  ∃ e, entries st !! 0 = Some e ∧ given (demo_call 0 st) = [Put "a/x" "1"] ∧ [Put "a/x" "1"] = drop 0 (log e).
Proof.
  destruct (watch_key_delivers demo_watch_ops (demo_watches demo_watch_ops) 0 (demo_call 0 (demo_watches demo_watch_ops)))
    as (e & He & _ & Hd & _); [vm_compute; reflexivity | vm_compute; reflexivity | vm_compute; discriminate |].
  exists e. split; [exact He |]. split; [vm_compute; reflexivity |].
  etrans; [| exact (Hd eq_refl)]. vm_compute in He. injection He as <-. vm_compute. reflexivity.
Defined.

Lemma watch_key_deaf_witness :
  let st := demo_watches demo_deaf_ops in
  let st' := demo_watches (demo_deaf_ops ++ demo_later) in
  deaf 1 (demo_call 1 st) st' ∧ given (demo_call 1 st) = [] ∧ events (demo_call 2 st') = [Delete "a/x"].
Proof.
  split; [| split; vm_compute; reflexivity].
  apply (watch_key_deaf demo_deaf_ops (demo_watches demo_deaf_ops) 1 (demo_call 1 (demo_watches demo_deaf_ops)))
    with (os' := demo_later).
  - vm_compute. reflexivity.
  - split; [vm_compute; reflexivity |]. repeat (split; [vm_compute; reflexivity |]).
    eexists. split; vm_compute; reflexivity.
  - vm_compute. reflexivity.
  - unfold demo_later. intros Hin.
    repeat (apply elem_of_cons in Hin as [Hin | Hin]; [discriminate |]). by apply elem_of_nil in Hin.
Defined.
