(* ===== verification/Reconnect.v ===== *)
(** * The watcher that renews its stream (discovery/etcd/reconnecting_watcher.go)

    Calls of [Watch], each with its goroutine, the closing of the wrapper, and what the
    watchers of the client library do: they are numbered in the order in which they are
    made, each stream of a watcher gives what the environment gives it, and ends when the
    environment ends it.  The section under the mutex is one step, the closing of a
    watcher another. *)

From S2P Require Import Prelude.

(** ** State *)

(** A response, with an error or without. *)
Inductive response := Update (n : nat) | Failed (n : nat).

Definition Err (r : response) : bool := match r with Failed _ => true | Update _ => false end.

(** The wrapper, and the watchers of the library: how many were made, which are open. *)
Record reconnectingWatcher := MkWatcher { watcher : option nat; closed : bool }.

(** A goroutine of [Watch]: before [current], receiving, about to take the lock of
    [replace] or past it with the old watcher still to close (with the response that it
    then passes on, if any), passing a response on, or returned. *)
Inductive watch_pc :=
| Start
| Receive
| Replace (after : option response)
| CloseOld (after : option response)
| Pass (r : response)
| Returned.

(** [stream]: the watcher it uses; [updates], and whether that channel is closed; [out],
    and whether [ctx] is done. *)
Record call := MkCall {
  wpc : watch_pc;
  stream : option nat;
  updates : list response;
  ended : bool;
  out : list response;
  done : bool
}.

(** The closing of the wrapper: not called, about to close the watcher, over. *)
Inductive close_pc := Open_ | Closing (w : nat) | Closed_.

Record sys := MkSys {
  self : reconnectingWatcher;
  next : nat;
  opened : gset nat;
  calls : list call;
  closing : close_pc
}.

Inductive op :=
| Watch
| Step (i : nat)
| Give (i : nat) (r : response)
| End_ (i : nat)
| Cancel (i : nat)
| Leave (i : nat)
| Close
| CloseWatcher.

Definition newReconnectingWatcher (w : nat) : sys :=
  MkSys (MkWatcher (Some w) false) (S w) {[w]} [] Open_.

Definition current (s : reconnectingWatcher) : option nat := if closed s then None else watcher s.

Definition set_pc (pc : watch_pc) (c : call) : call := MkCall pc (stream c) (updates c) (ended c) (out c) (done c).

Definition set_calls (cs : list call) (s : sys) : sys := MkSys (self s) (next s) (opened s) cs (closing s).

Definition after_replace (after : option response) : watch_pc :=
  match after with Some r => Pass r | None => Returned end.

(** One step of a goroutine; [None] when it has to wait. *)
Definition watch_step (c : call) (s : sys) : option (call * sys) :=
  match wpc c with
  | Start =>
      match current (self s) with
      | None => Some (set_pc Returned c, s)
      | Some w => Some (MkCall Receive (Some w) (updates c) (ended c) (out c) (done c), s)
      end
  | Receive =>
      match updates c with
      | r :: us =>
          Some (MkCall (if Err r then Replace (Some r) else Pass r) (stream c) us (ended c) (out c) (done c), s)
      | [] => if ended c then Some (set_pc (Replace None) c, s) else None
      end
  | Replace after =>
      match stream c with
      | None => None
      | Some old =>
          if closed (self s) || negb (bool_decide (watcher (self s) = Some old))
          then Some (set_pc (after_replace after) c, s)
          else Some (set_pc (CloseOld after) c,
                     MkSys (MkWatcher (Some (next s)) false) (S (next s)) ({[next s]} ∪ opened s) (calls s) (closing s))
      end
  | CloseOld after =>
      match stream c with
      | None => None
      | Some old =>
          Some (set_pc (after_replace after) c,
                MkSys (self s) (next s) (opened s ∖ {[old]}) (calls s) (closing s))
      end
  | Pass r =>
      Some (MkCall (if Err r then Returned else Receive) (stream c) (updates c) (ended c) (out c ++ [r]) (done c), s)
  | Returned => None
  end.

Definition exec (o : op) (s : sys) : option sys :=
  match o with
  | Watch => Some (set_calls (calls s ++ [MkCall Start None [] false [] false]) s)
  | Step i =>
      match calls s !! i with
      | Some c => (λ '(c, s), set_calls (<[i := c]> (calls s)) s) <$> watch_step c s
      | None => None
      end
  | Give i r =>
      match calls s !! i with
      | Some c =>
          if ended c || bool_decide (stream c = None) then None
          else Some (set_calls (<[i := MkCall (wpc c) (stream c) (updates c ++ [r]) false (out c) (done c)]> (calls s)) s)
      | None => None
      end
  | End_ i =>
      match calls s !! i with
      | Some c =>
          if bool_decide (stream c = None) then None
          else Some (set_calls (<[i := MkCall (wpc c) (stream c) (updates c) true (out c) (done c)]> (calls s)) s)
      | None => None
      end
  | Cancel i =>
      match calls s !! i with
      | Some c => Some (set_calls (<[i := MkCall (wpc c) (stream c) (updates c) (ended c) (out c) true]> (calls s)) s)
      | None => None
      end
  | Leave i =>
      match calls s !! i with
      | Some c =>
          match wpc c with
          | Receive | Pass _ => if done c then Some (set_calls (<[i := set_pc Returned c]> (calls s)) s) else None
          | _ => None
          end
      | None => None
      end
  | Close =>
      if closed (self s) then Some s
      else Some (MkSys (MkWatcher None true) (next s) (opened s) (calls s)
                   match watcher (self s) with Some w => Closing w | None => Closed_ end)
  | CloseWatcher =>
      match closing s with
      | Closing w => Some (MkSys (self s) (next s) (opened s ∖ {[w]}) (calls s) Closed_)
      | _ => None
      end
  end.

Definition run (os : list op) (s : sys) : option sys := fold_left (λ s o, s ≫= exec o) os (Some s).

(** * Lemmas *)

(** ** Who has to close what *)

Definition to_close (c : call) : list nat := match wpc c with CloseOld _ => option_list (stream c) | _ => [] end.

(** The watchers that something is responsible for. *)
Definition holders (s : sys) : list nat :=
  option_list (watcher (self s)) ++ (calls s ≫= to_close) ++
  match closing s with Closing w => [w] | _ => [] end.

(** The watcher of this stream is one that a new call does not get. *)
Definition renewed (c : call) (s : sys) : Prop :=
  ∀ w, stream c = Some w → watcher (self s) ≠ Some w.

Definition call_ok (c : call) (s : sys) : Prop :=
  (∀ w, stream c = Some w → (w < next s)%nat) ∧
  match wpc c with
  | Start => stream c = None
  | Receive => stream c ≠ None
  | Replace after => stream c ≠ None ∧ match after with Some r => Err r = true | None => True end
  | CloseOld after => stream c ≠ None ∧ renewed c s ∧ match after with Some r => Err r = true | None => True end
  | Pass r => stream c ≠ None ∧ (Err r = true → renewed c s)
  | Returned => done c = true ∨ renewed c s
  end.

Record inv (s : sys) : Prop := {
  inv_nodup : NoDup (holders s);
  inv_opened : opened s = list_to_set (holders s);
  inv_made w : w ∈ holders s → (w < next s)%nat;
  inv_closed : closed (self s) = true ↔ watcher (self s) = None;
  inv_open : closed (self s) = false → closing s = Open_;
  inv_call i c : calls s !! i = Some c → call_ok c s
}.

(** A call keeps its invariant when the wrapper gets a new watcher, or none. *)
Lemma call_ok_mono c s s' :
  (next s ≤ next s')%nat → (∀ w, watcher (self s') = Some w → watcher (self s) = Some w ∨ (next s ≤ w)%nat) →
  call_ok c s → call_ok c s'.
Proof.
  intros Hn Hw [Hs Hp]. assert (renewed c s → renewed c s') as Hr.
  { intros Hr w Hc Hw'. destruct (Hw w Hw') as [? | Hle]; [by apply (Hr w) |]. specialize (Hs w Hc). lia. }
  split; [intros w Hc; specialize (Hs w Hc); lia |]. destruct (wpc c); naive_solver.
Qed.

(** Replacing a call by one that closes the same watchers, with the rest as it is. *)
Lemma inv_set_call s i c c' :
  inv s → calls s !! i = Some c → to_close c' = to_close c → call_ok c' s → inv (set_calls (<[i := c']> (calls s)) s).
Proof.
  intros [H1 H2 H3 H4 H5 H6] Hi Hc Hok.
  assert (holders (set_calls (<[i := c']> (calls s)) s) ≡ₚ holders s) as Hp.
  { unfold holders. simpl. destruct (bind_insert_perm to_close _ i c c' Hi) as (rest & Hr1 & Hr2).
    by rewrite Hr1, Hr2, Hc. }
  split; simpl; try done.
  - by rewrite Hp.
  - rewrite H2. apply leibniz_equiv. by rewrite Hp.
  - intros w. rewrite Hp. apply H3.
  - intros j d. rewrite list_lookup_insert_Some. intros [(<- & <- & _) | [_ Hd]]; [done | by apply (H6 j)].
Qed.

(** The stream of a call, before another takes its place as the current one. *)
Lemma inv_replace s i c after old :
  inv s → calls s !! i = Some c → wpc c = Replace after → stream c = Some old → watcher (self s) = Some old →
  inv (MkSys (MkWatcher (Some (next s)) false) (S (next s)) ({[next s]} ∪ opened s)
         (<[i := set_pc (CloseOld after) c]> (calls s)) (closing s)).
Proof.
  intros [H1 H2 H3 H4 H5 H6] Hi Hpc Hst Hw.
  set (s' := MkSys _ _ _ _ _).
  assert (to_close c = []) as Hc by (unfold to_close; by rewrite Hpc).
  assert (holders s' ≡ₚ next s :: holders s) as Hp.
  { unfold holders. simpl. destruct (bind_insert_perm to_close _ i c (set_pc (CloseOld after) c) Hi) as (rest & Hr1 & Hr2).
    rewrite Hr1, Hr2, Hc, Hw. unfold to_close. simpl. rewrite Hst. done. }
  assert (next s ∉ holders s) as Hnew by (intros Hin%H3; lia).
  assert (closed (self s) = false) as Hcl.
  { destruct (closed (self s)) eqn:Hcl; [| done]. by rewrite (proj1 H4 eq_refl) in Hw. }
  split.
  - rewrite Hp. by constructor.
  - change (opened s') with ({[next s]} ∪ opened s). rewrite H2. apply leibniz_equiv. by rewrite Hp.
  - intros w. rewrite Hp, elem_of_cons. intros [-> | Hin%H3]; simpl; lia.
  - done.
  - intros _. by apply H5.
  - intros j d. simpl. rewrite list_lookup_insert_Some. intros [(<- & <- & _) | [_ Hd]].
    + destruct (H6 i c Hi) as [Hs Hp']. rewrite Hpc in Hp'. destruct Hp' as [Hne Ha].
      split; [intros w Hsw; specialize (Hs w Hsw); simpl; lia |]. simpl. split_and!; [done | | done].
      intros w Hsw [= <-]. specialize (Hs _ Hsw). lia.
    + apply (call_ok_mono d s); simpl; [lia | | by eapply H6]. intros w [= <-]. by right.
Qed.

(** A watcher that is to be closed is, by a call or by the closing of the wrapper. *)
Lemma inv_closed_one s cs cl old :
  inv s → holders s ≡ₚ old :: holders (MkSys (self s) (next s) (opened s) cs cl) →
  (closed (self s) = false → cl = Open_) → (∀ i c, cs !! i = Some c → call_ok c s) →
  inv (MkSys (self s) (next s) (opened s ∖ {[old]}) cs cl).
Proof.
  intros [H1 H2 H3 H4 H5 H6] Hp Hcl Hcs. change (holders (MkSys (self s) (next s) (opened s) cs cl))
    with (holders (MkSys (self s) (next s) (opened s ∖ {[old]}) cs cl)) in Hp. set (s' := MkSys _ _ _ _ _) in *.
  pose proof H1 as Hnd. rewrite Hp in Hnd. apply NoDup_cons in Hnd as [Hnin Hnd].
  split; try done.
  - change (opened s') with (opened s ∖ {[old]}). rewrite H2. apply leibniz_equiv. rewrite Hp. intros w. set_solver.
  - intros w Hin. apply H3. rewrite Hp. by right.
Qed.

Lemma exec_inv o s s' : exec o s = Some s' → inv s → inv s'.
Proof.
  intros He Hi. destruct o as [| i | i r | i | i | i | |]; cbn [exec] in He.
  - injection He as <-. destruct Hi as [H1 H2 H3 H4 H5 H6].
    assert (holders (set_calls (calls s ++ [MkCall Start None [] false [] false]) s) = holders s) as Hh.
    { unfold holders. simpl. by rewrite bind_app, app_nil_r. }
    split; try done; rewrite ?Hh; try done. intros i c [Hc | [_ Hc]]%lookup_app_Some; [by apply (H6 i) |].
    apply list_lookup_singleton_Some in Hc as [_ <-]. by split.
  - destruct (calls s !! i) as [c|] eqn:Hc; [| done]. pose proof (inv_call _ Hi i c Hc) as [Hs Hp].
    unfold watch_step in He. destruct (wpc c) as [| | after | after | r |] eqn:Hpc.
    + unfold current in He. destruct (if closed _ then _ else _) as [w|] eqn:Hw; injection He as <-.
      * apply (inv_set_call s i c); try done; [unfold to_close; by rewrite Hpc |]. split; [| done]. simpl.
        intros w' [= <-]. apply (inv_made _ Hi). unfold holders. destruct (closed (self s)); [done |]. rewrite Hw. simpl. by left.
      * apply (inv_set_call s i c); try done; [unfold to_close; by rewrite Hpc |]. split; simpl; [done |].
        right. intros w Hsw. simpl in Hsw. congruence.
    + destruct (updates c) as [|r us].
      * destruct (ended c); [| done]. injection He as <-.
        apply (inv_set_call s i c); try done; unfold to_close; by rewrite Hpc.
      * injection He as <-. apply (inv_set_call s i c); try done; [unfold to_close; rewrite Hpc; by destruct (Err r) |].
        split; [done |]. simpl. destruct (Err r) eqn:Hr; (split; [done |]); [done | congruence].
    + destruct (stream c) as [old|] eqn:Hst; [| done].
      destruct (closed (self s) || _) eqn:Hcw; injection He as <-.
      * apply (inv_set_call s i c); try done; [unfold to_close; rewrite Hpc; by destruct after |].
        assert (renewed c s) as Hr.
        { intros w Hsw Hw. rewrite Hst in Hsw. injection Hsw as <-. apply orb_true_iff in Hcw as [Hcl | Hne].
          - apply (inv_closed _ Hi) in Hcl. congruence.
          - apply negb_true_iff, bool_decide_eq_false in Hne. done. }
        split; [by rewrite <- Hst in Hs |]. destruct after; simpl; [split; [by rewrite Hst | by intros _] | by right].
      * apply orb_false_iff in Hcw as [Hcl Hne]. apply negb_false_iff, bool_decide_eq_true in Hne.
        exact (inv_replace s i c after old Hi Hc Hpc Hst Hne).
    + destruct (stream c) as [old|] eqn:Hst; [| done]. injection He as <-. destruct Hp as (Hsn & Hr & Ha).
      apply (inv_closed_one s (<[i := set_pc (after_replace after) c]> (calls s)) (closing s)); [done | | by apply (inv_open _ Hi) |].
      * unfold holders. simpl.
        destruct (bind_insert_perm to_close _ i c (set_pc (after_replace after) c) Hc) as (rest & Hr1 & Hr2).
        rewrite Hr1, Hr2. unfold to_close. rewrite Hpc, Hst. destruct after; simpl; solve_Permutation.
      * intros j d. rewrite list_lookup_insert_Some. intros [(<- & <- & _) | [_ Hd]]; [| by eapply (inv_call _ Hi)].
        split; [by rewrite <- Hst in Hs |]. destruct after; simpl; [by split; [rewrite Hst |] | by right].
    + injection He as <-. apply (inv_set_call s i c); try done; [unfold to_close; rewrite Hpc; by destruct (Err r) |].
      destruct Hp as [Hsn Hr]. split; [done |]. simpl. destruct (Err r); [right; by apply Hr | done].
    + done.
  - destruct (calls s !! i) as [c|] eqn:Hc; [| done]. destruct (_ || _); [done |]. injection He as <-.
    pose proof (inv_call _ Hi i c Hc). by apply (inv_set_call s i c).
  - destruct (calls s !! i) as [c|] eqn:Hc; [| done]. destruct (bool_decide _); [done |]. injection He as <-.
    pose proof (inv_call _ Hi i c Hc). by apply (inv_set_call s i c).
  - destruct (calls s !! i) as [c|] eqn:Hc; [| done]. injection He as <-.
    pose proof (inv_call _ Hi i c Hc) as [Hs Hp]. apply (inv_set_call s i c); try done. split; [done |].
    simpl. destruct (wpc c); try done. by left.
  - destruct (calls s !! i) as [c|] eqn:Hc; [| done]. pose proof (inv_call _ Hi i c Hc) as [Hs Hp].
    assert (done c = true → to_close c = [] → inv (set_calls (<[i := set_pc Returned c]> (calls s)) s)) as Hret.
    { intros Hd Htc. apply (inv_set_call s i c); try done. split; [done |]. by left. }
    unfold to_close in Hret. destruct (wpc c); try done; destruct (done c); try done; injection He as <-; by apply Hret.
  - destruct (closed (self s)) eqn:Hcl; injection He as <-; [done |].
    destruct Hi as [H1 H2 H3 H4 H5 H6]. set (s' := MkSys _ _ _ _ _). specialize (H5 Hcl).
    assert (holders s' ≡ₚ holders s) as Hp.
    { unfold holders. simpl. rewrite H5. destruct (watcher (self s)); simpl; solve_Permutation. }
    split; try done.
    + by rewrite Hp.
    + change (opened s') with (opened s). rewrite H2. apply leibniz_equiv. by rewrite Hp.
    + intros w. rewrite Hp. apply H3.
    + intros i c Hc. simpl in Hc. apply (call_ok_mono c s); [done | done | by apply (H6 i)].
  - destruct (closing s) as [| w |] eqn:Hcl; try done. injection He as <-.
    apply (inv_closed_one s (calls s) Closed_); [done | | | by eapply (inv_call _ Hi)].
    + unfold holders. simpl. rewrite Hcl. solve_Permutation.
    + intros Ho. apply (inv_open _ Hi) in Ho. congruence.
Qed.

Lemma run_inv os w s : run os (newReconnectingWatcher w) = Some s → inv s.
Proof.
  intros Hr. apply (run_Some exec inv os (newReconnectingWatcher w)); [by apply exec_inv | done |].
  split; simpl; try done.
  - apply NoDup_singleton.
  - set_solver.
  - intros x Hx. apply list_elem_of_singleton in Hx as ->. lia.
Qed.

(** ** What a call passes on *)

(** What the stream of the [i]-th call was given. *)
Definition given (i : nat) (os : list op) : list response :=
  omap (λ o, match o with Give j r => if decide (j = i) then Some r else None | _ => None end) os.

Definition no_error (l : list response) : Prop := Forall (λ r, Err r = false) l.

Definition fails_last (l : list response) : Prop := ∃ pre r, l = pre ++ [r] ∧ no_error pre ∧ Err r = true.

(** The response that the goroutine has taken and not passed on. *)
Definition hand (pc : watch_pc) : list response :=
  match pc with Replace (Some r) | CloseOld (Some r) | Pass r => [r] | _ => [] end.

Definition passes (g : list response) (c : call) : Prop :=
  ∃ rest, g = out c ++ rest ∧
    match wpc c with
    | Returned =>
        (no_error (out c) ∨ fails_last (out c)) ∧
        (done c = true ∨ stream c = None ∨ ended c = true ∧ rest = [] ∨ fails_last (out c))
    | Replace None | CloseOld None => rest = [] ∧ updates c = [] ∧ ended c = true ∧ no_error (out c)
    | pc => rest = hand pc ++ updates c ∧ no_error (out c)
    end.

Lemma given_app i os o : given i (os ++ [o]) = given i os ++ given i [o].
Proof. unfold given. apply omap_app. Qed.

Lemma watch_step_passes g c s c' s' :
  watch_step c s = Some (c', s') → call_ok c s → passes g c → passes g c'.
Proof.
  unfold watch_step. intros He [_ Hok] (rest & -> & Hp).
  assert (∀ c1, out c1 = out c → match wpc c1 with Returned => False | _ => True end →
    match wpc c1 with
    | Replace None | CloseOld None => rest = [] ∧ updates c1 = [] ∧ ended c1 = true ∧ no_error (out c)
    | pc => rest = hand pc ++ updates c1 ∧ no_error (out c)
    end → passes (out c ++ rest) c1) as Hgo.
  { intros c1 Ho Hne H1. exists rest. rewrite Ho. split; [done |]. by destruct (wpc c1) as [| | [|] | [|] | |]. }
  destruct (wpc c) as [| | after | after | r |] eqn:Hpc.
  - destruct (current (self s)); injection He as <- _; [by apply Hgo |].
    exists rest. split; [done |]. destruct Hp as [_ Hn]. simpl. auto.
  - destruct Hp as [-> Hn]. destruct (updates c) as [|r us] eqn:Hu.
    + destruct (ended c) eqn:Hd; [| done]. injection He as <- _. by apply Hgo.
    + injection He as <- _. apply Hgo; simpl; by destruct (Err r).
  - assert (passes (out c ++ rest) (set_pc (after_replace after) c)) as Hret.
    { destruct after as [r|]; [by apply Hgo |]. exists rest. destruct Hp as (-> & Hu & Hd & Hn). simpl. auto 7. }
    destruct (stream c); [| done]. destruct (_ || _); injection He as <- _; [done |]. by apply Hgo.
  - assert (passes (out c ++ rest) (set_pc (after_replace after) c)) as Hret.
    { destruct after as [r|]; [by apply Hgo |]. exists rest. destruct Hp as (-> & Hu & Hd & Hn). simpl. auto 7. }
    destruct (stream c); [| done]. by injection He as <- _.
  - destruct Hp as [-> Hn]. injection He as <- _. exists (updates c). simpl. rewrite <- app_assoc. split; [done |].
    destruct (Err r) eqn:Hr.
    + assert (fails_last (out c ++ [r])) as Hf by (exists (out c), r; done). auto 6.
    + split; [done |]. apply Forall_app. split; [done | by constructor].
  - done.
Qed.

(** What was given to the call that exists, and to those that do not yet. *)
Definition all_pass (os : list op) (s : sys) : Prop :=
  (∀ i c, calls s !! i = Some c → passes (given i os) c) ∧
  (∀ i, calls s !! i = None → given i os = []).

Lemma all_pass_keep os o s s' :
  (∀ i, given i [o] = []) → (∀ i, calls s' !! i = calls s !! i) → all_pass os s → all_pass (os ++ [o]) s'.
Proof.
  intros Hg Hc [H1 H2]. split; intros i; rewrite Hc, given_app, Hg, app_nil_r; auto.
Qed.

Lemma all_pass_set os o s i c c' :
  calls s !! i = Some c → (∀ j, j ≠ i → given j [o] = []) → passes (given i os ++ given i [o]) c' →
  all_pass os s → all_pass (os ++ [o]) (set_calls (<[i := c']> (calls s)) s).
Proof.
  intros Hc Hg Hp [H1 H2]. split; simpl.
  - intros j d. rewrite given_app, list_lookup_insert_Some. intros [(<- & <- & _) | [Hne Hd]]; [done |].
    rewrite Hg, app_nil_r by done. by apply H1.
  - intros j Hj. rewrite list_lookup_insert_None in Hj. rewrite given_app, H2 by done.
    destruct (decide (j = i)) as [-> | Hne]; [congruence | by rewrite Hg].
Qed.

Lemma exec_passes os o s s' : exec o s = Some s' → inv s → all_pass os s → all_pass (os ++ [o]) s'.
Proof.
  intros He Hi Hall. pose proof Hall as [H1 H2].
  destruct o as [| i | i r | i | i | i | |]; cbn [exec] in He;
    try (destruct (calls s !! i) as [c|] eqn:Hc; [pose proof (H1 i c Hc) as Hp | done]).
  - injection He as <-. split; simpl; intros i; rewrite given_app; simpl.
    + intros c. rewrite app_nil_r, lookup_app_Some. intros [Hc | [Hge Hc]]; [by apply H1 |].
      apply list_lookup_singleton_Some in Hc as [Hi0 <-]. rewrite H2 by (apply lookup_ge_None; lia).
      exists []. simpl. split; [done |]. split; [done | constructor].
    + intros Hn%lookup_ge_None. rewrite length_app in Hn. rewrite app_nil_r. apply H2, lookup_ge_None. lia.
  - destruct (watch_step c s) as [[c' s1]|] eqn:Hw; [| done]. injection He as <-.
    assert (calls s1 = calls s) as Hcs.
    { unfold watch_step in Hw. repeat case_match; by simplify_eq. }
    pose proof (watch_step_passes _ _ _ _ _ Hw (inv_call _ Hi i c Hc) Hp) as Hp'.
    assert (all_pass (os ++ [Step i]) (set_calls (<[i := c']> (calls s)) s)) as Hs.
    { apply (all_pass_set os _ s i c); try done. by rewrite app_nil_r. }
    destruct Hs as [Ha Hb]. split; simpl in *; by rewrite Hcs.
  - destruct (ended c) eqn:He'; [done |]. destruct (bool_decide _) eqn:Hst; [done |]. injection He as <-.
    apply bool_decide_eq_false in Hst.
    apply (all_pass_set os _ s i c); try done; [intros j Hj; unfold given; simpl; by rewrite decide_False |].
    unfold given at 2. simpl. rewrite decide_True by done. destruct Hp as (rest & -> & Hp). exists (rest ++ [r]).
    rewrite <- app_assoc. split; [done |]. simpl.
    destruct (wpc c) as [| | [|] | [|] | |]; rewrite ?He' in Hp; simpl in *; try naive_solver.
    all: try (destruct Hp as [-> Hn]; by rewrite ?app_assoc).
  - destruct (bool_decide _) eqn:Hst; [done |]. injection He as <-.
    apply (all_pass_set os _ s i c); try done. rewrite app_nil_r. destruct Hp as (rest & -> & Hp). exists rest.
    split; [done |]. simpl. destruct (wpc c) as [| | [|] | [|] | |]; simpl in *; try naive_solver.
  - injection He as <-. apply (all_pass_set os _ s i c); try done. rewrite app_nil_r.
    destruct Hp as (rest & -> & Hp). exists rest. split; [done |]. simpl.
    destruct (wpc c) as [| | [|] | [|] | |]; simpl in *; naive_solver.
  - assert (passes (given i os) (set_pc Returned c) ∨ done c = false ∨ ¬ (wpc c = Receive ∨ ∃ r, wpc c = Pass r)) as Hl.
    { destruct (done c) eqn:Hd; [| auto]. destruct Hp as (rest & Hg & Hp).
      destruct (wpc c) eqn:Hpc; try (right; right; naive_solver); left; exists rest; split; try done; simpl;
        destruct Hp as [_ Hn]; auto. }
    assert (wpc c = Receive ∨ (∃ r, wpc c = Pass r) → done c = true →
      all_pass (os ++ [Leave i]) (set_calls (<[i := set_pc Returned c]> (calls s)) s)) as Hret.
    { intros Hpc Hd. apply (all_pass_set os _ s i c); try done. rewrite app_nil_r. naive_solver congruence. }
    destruct (wpc c); try done; destruct (done c); try done; injection He as <-; apply Hret; eauto.
  - apply (all_pass_keep os _ s); try done; destruct (closed (self s)); by injection He as <-.
  - apply (all_pass_keep os _ s); try done; destruct (closing s); try done; by injection He as <-.
Qed.

Lemma run_snoc os o s : run (os ++ [o]) s = run os s ≫= exec o.
Proof. unfold run. by rewrite fold_left_app. Qed.

Lemma run_passes os w s : run os (newReconnectingWatcher w) = Some s → all_pass os s.
Proof.
  revert s. induction os as [|o os IH] using rev_ind; intros s Hr.
  - injection Hr as <-. split; [by intros i c Hc; destruct i | done].
  - rewrite run_snoc in Hr. destruct (run os _) as [s1|] eqn:Hr1; [| done].
    eapply exec_passes; [done | by eapply run_inv | by apply IH].
Qed.

(** * The theorems *)

(** C14. However the calls of [Watch], the renewals and the closing interleave: the open
    watchers of the client library are the current one, while the wrapper is not closed,
    and those that a goroutine or the closing is about to close, each by one only; so none
    is closed twice, none is left open, and when nothing is under way there is one, or none
    after the closing.  What a call passes on is what its stream gives, in order, and
    nothing after the first error.  And a call that has returned, other than because its
    context was done or the wrapper closed, has passed on everything up to the error or to
    the end of the stream, and its stream's watcher is no longer the one that new calls
    get. *)
Theorem reconnecting_watch os w0 s :
  run os (newReconnectingWatcher w0) = Some s →
  (NoDup (holders s) ∧ ∀ w, w ∈ opened s ↔ w ∈ holders s) ∧
  ((∀ i c, calls s !! i = Some c → to_close c = []) → (∀ w, closing s ≠ Closing w) →
     opened s = list_to_set (option_list (watcher (self s))) ∧ (closed (self s) = false ↔ size (opened s) = 1%nat)) ∧
  ∀ i c, calls s !! i = Some c →
    (∃ rest, given i os = out c ++ rest) ∧
    (no_error (out c) ∨ fails_last (out c)) ∧
    (wpc c = Returned → done c = false → ∀ w, stream c = Some w →
       (out c = given i os ∨ fails_last (out c)) ∧ watcher (self s) ≠ Some w).
Proof.
  intros Hr. pose proof (run_inv _ _ _ Hr) as Hi. destruct (run_passes _ _ _ Hr) as [Hp _]. split_and!.
  - apply Hi.
  - intros w. rewrite (inv_opened _ Hi). by rewrite elem_of_list_to_set.
  - intros Hc Hcl. assert (holders s = option_list (watcher (self s))) as Hh.
    { unfold holders. assert (calls s ≫= to_close = []) as ->.
      { clear -Hc. induction (calls s) as [|c cs IH]; [done |]. simpl. rewrite (Hc 0%nat c eq_refl). apply IH.
        intros i d Hd. by apply (Hc (S i)). }
      destruct (closing s); [by rewrite app_nil_r | by destruct (Hcl w) | by rewrite app_nil_r]. }
    rewrite (inv_opened _ Hi), Hh. split; [done |]. pose proof (inv_closed _ Hi) as Hw.
    destruct (watcher (self s)) as [w|].
    + assert (list_to_set (option_list (Some w)) = ({[w]} : gset nat)) as -> by set_solver.
      rewrite size_singleton. split; [done |]. intros _. destruct (closed (self s)); [| done].
      discriminate (proj1 Hw eq_refl).
    + rewrite (proj2 Hw eq_refl). split; [done |]. intros Hx. by vm_compute in Hx.
  - intros i c Hc. destruct (Hp i c Hc) as (rest & Hg & Hpc). destruct (inv_call _ Hi i c Hc) as [_ Hok].
    split_and!; [by exists rest | |].
    + destruct (wpc c) as [| | [|] | [|] | |]; naive_solver.
    + intros Hret Hd w Hw. rewrite Hret in *. destruct Hok as [? | Hr']; [congruence |]. split; [| by apply Hr'].
      destruct Hpc as [_ [? | [? | [[_ ->] | ?]]]]; [congruence.. | | by right]. left. by rewrite Hg, app_nil_r.
Qed.

(** Two calls on one watcher: it fails for the first, which renews it, and so ends for the
    second; a third call gets the new one. *)
Definition demo_ops : list op :=
  [Watch; Step 0; Watch; Step 1; Give 0 (Update 1); Step 0; Step 0; Give 0 (Failed 2); Step 0; Step 0; Step 0; Step 0;
   End_ 1; Step 1; Step 1; Watch; Step 2; Close; CloseWatcher].

Lemma reconnecting_watch_witness :
  ∃ s, run demo_ops (newReconnectingWatcher 0) = Some s ∧
    (out <$> calls s) = [[Update 1; Failed 2]; []; []] ∧ (stream <$> calls s) = [Some 0%nat; Some 0%nat; Some 1%nat] ∧
    (NoDup (holders s) ∧ ∀ w, w ∈ opened s ↔ w ∈ holders s).
Proof.
  eexists. split; [vm_compute; reflexivity |]. split; [vm_compute; reflexivity |]. split; [vm_compute; reflexivity |].
  eapply (reconnecting_watch demo_ops 0). vm_compute. reflexivity.
Defined.
