(* ===== verification/Standalone.v ===== *)
(** * Discovery within one process (discovery/standalone: registry.go, kv.go, conn.go,
    discovery.go, global.go)

    The registry of methods with the calls that wait for one, each section under its lock
    a step; and the map of keys, whose values are slices in a store of arrays that the
    callers can write to.  Calls go through the local invocation of Remote. *)

From S2P Require Import Prelude.

(** ** The registry *)

(** [wait]: the channel of a method that is waited for; [shut]: the channels that are
    closed; channels are numbered as they are made. *)
Record registry := MkRegistry {
  methods : gmap string nat;
  wait : gmap string nat;
  shut : gset nat;
  next : nat
}.

Definition newRegistry : registry := MkRegistry ∅ ∅ ∅ 0.

(** The loop over the methods of a service, which stops at one that is there. *)
Fixpoint RegisterService (descs : list (string * nat)) (x : registry) : registry * outcome unit :=
  match descs with
  | [] => (x, Ret tt)
  | (name, h) :: descs =>
      match methods x !! name with
      | Some _ => (x, Panic "service already registered")
      | None =>
          match wait x !! name with
          | None => RegisterService descs (MkRegistry (<[name := h]> (methods x)) (wait x) (shut x) (next x))
          | Some w =>
              if decide (w ∈ shut x) then
                (MkRegistry (<[name := h]> (methods x)) (delete name (wait x)) (shut x) (next x), Panic "close of closed channel")
              else RegisterService descs
                     (MkRegistry (<[name := h]> (methods x)) (delete name (wait x)) ({[w]} ∪ shut x) (next x))
          end
      end
  end.

Inductive get_err := CtxErr | Timeout | InternalError.

(** [getMethod]: before its first section, waiting, before its second one, or returned. *)
Inductive get_pc := Enter | Waiting (w : nat) | Again | Got (h : nat) | Failed (e : get_err).

Definition get_enter (name : string) (x : registry) : registry * get_pc :=
  match methods x !! name with
  | Some h => (x, Got h)
  | None =>
      match wait x !! name with
      | Some w => (x, Waiting w)
      | None => (MkRegistry (methods x) (<[name := next x]> (wait x)) (shut x) (S (next x)), Waiting (next x))
      end
  end.

(** What ends the waiting. *)
Inductive wake := ByContext | ByTimer | ByChannel.

Definition get_step (k : wake) (name : string) (pc : get_pc) (x : registry) : option (registry * get_pc) :=
  match pc with
  | Enter => Some (get_enter name x)
  | Waiting w =>
      match k with
      | ByContext => Some (x, Failed CtxErr)
      | ByTimer => Some (x, Failed Timeout)
      | ByChannel => if decide (w ∈ shut x) then Some (x, Again) else None
      end
  | Again => Some (x, match methods x !! name with Some h => Got h | None => Failed InternalError end)
  | Got _ | Failed _ => None
  end.

Record sys := MkSys { reg : registry; calls : list (string * get_pc); panics : list string }.

Inductive op := Register (descs : list (string * nat)) | Call (name : string) | Step (i : nat) (k : wake).

Definition exec (o : op) (s : sys) : option sys :=
  match o with
  | Register descs =>
      let '(x, r) := RegisterService descs (reg s) in
      Some (MkSys x (calls s) (match r with Ret _ => panics s | Panic why => why :: panics s end))
  | Call name => Some (MkSys (reg s) (calls s ++ [(name, Enter)]) (panics s))
  | Step i k =>
      match calls s !! i with
      | Some (name, pc) =>
          match get_step k name pc (reg s) with
          | Some (x, pc) => Some (MkSys x (<[i := (name, pc)]> (calls s)) (panics s))
          | None => None
          end
      | None => None
      end
  end.

Definition run (os : list op) (s : sys) : option sys := fold_left (λ s o, s ≫= exec o) os (Some s).
Definition init : sys := MkSys newRegistry [] [].

(** ** Keys *)

(** The arrays, and the slices stored, which are whole arrays. *)
Record keyValue := MkKV { arrays : gmap nat (list nat); kv : gmap string nat }.

(** A slice of the caller is copied in, [None] when it has no such slice; [GetKey] copies
    out, and gives nil for a key that is not there. *)
Definition SetKey (key : string) (data : nat) (x : keyValue) : option keyValue :=
  match arrays x !! data with
  | None => None
  | Some bytes =>
      let tmp := fresh (dom (arrays x)) in
      Some (MkKV (<[tmp := bytes]> (arrays x)) (<[key := tmp]> (kv x)))
  end.

Definition GetKey (key : string) (x : keyValue) : keyValue * option nat :=
  match kv x !! key ≫= (arrays x !!.) with
  | None => (x, None)
  | Some bytes =>
      let tmp := fresh (dom (arrays x)) in (MkKV (<[tmp := bytes]> (arrays x)) (kv x), Some tmp)
  end.

Definition DelData (key : string) (x : keyValue) : keyValue := MkKV (arrays x) (delete key (kv x)).

(** What callers do: besides the operations they make slices and write to theirs. *)
Inductive kv_op :=
| New (bytes : list nat)
| Write (a : nat) (bytes : list nat)
| Set_ (key : string) (a : nat)
| Get (key : string)
| Del (key : string).

(** The map, the slices that callers have, and what the last [Get] gave. *)
Record kv_sys := MkKVSys { kvs : keyValue; held : gset nat; got : option nat }.

Definition kv_exec (o : kv_op) (s : kv_sys) : option kv_sys :=
  let x := kvs s in
  match o with
  | New bytes =>
      let a := fresh (dom (arrays x)) in
      Some (MkKVSys (MkKV (<[a := bytes]> (arrays x)) (kv x)) ({[a]} ∪ held s) None)
  | Write a bytes =>
      if decide (a ∈ held s) then Some (MkKVSys (MkKV (<[a := bytes]> (arrays x)) (kv x)) (held s) None) else None
  | Set_ key a =>
      if decide (a ∈ held s) then (λ x, MkKVSys x (held s) None) <$> SetKey key a x else None
  | Get key =>
      let '(x, a) := GetKey key x in
      Some (MkKVSys x (match a with Some a => {[a]} ∪ held s | None => held s end) a)
  | Del key => Some (MkKVSys (DelData key x) (held s) None)
  end.

Definition kv_run (os : list kv_op) (s : kv_sys) : option kv_sys := fold_left (λ s o, s ≫= kv_exec o) os (Some s).
Definition kv_init : kv_sys := MkKVSys (MkKV ∅ ∅) ∅ None.

(** * Lemmas *)

Definition call_ok (x : registry) (c : string * get_pc) : Prop :=
  match c.2 with
  | Enter => True
  | Waiting w => wait x !! c.1 = Some w ∨ w ∈ shut x ∧ is_Some (methods x !! c.1)
  | Again => is_Some (methods x !! c.1)
  | Got h => methods x !! c.1 = Some h
  | Failed e => e ≠ InternalError
  end.

Record reg_inv (x : registry) : Prop := {
  ri_wait name w : wait x !! name = Some w → w ∉ shut x ∧ methods x !! name = None ∧ (w < next x)%nat;
  ri_inj n1 n2 w : wait x !! n1 = Some w → wait x !! n2 = Some w → n1 = n2;
  ri_shut w : w ∈ shut x → (w < next x)%nat
}.

(** What a step of another may do to the registry. *)
Record later (x x' : registry) : Prop := {
  la_methods : methods x ⊆ methods x';
  la_shut : shut x ⊆ shut x';
  la_wait name w : wait x !! name = Some w → wait x' !! name = Some w ∨ w ∈ shut x' ∧ is_Some (methods x' !! name)
}.

#[local] Instance later_preorder : PreOrder later.
Proof.
  split.
  - intros x. split; auto.
  - intros x y z [M1 S1 W1] [M2 S2 W2]. split; [by etrans | set_solver |].
    intros name w [Hw | [Hw [h Hm]]]%W1; [by apply W2 |]. right. split; [set_solver |].
    exists h. by eapply lookup_weaken.
Qed.

Lemma call_ok_later x x' c : later x x' → call_ok x c → call_ok x' c.
Proof.
  intros [Hm Hs Hw]. destruct c as [name pc]. unfold call_ok. simpl. destruct pc as [| w | | h | e]; try done.
  - intros [? | [? [h ?]]]; [by apply Hw |]. right. split; [set_solver |]. exists h. by eapply lookup_weaken.
  - intros [h ?]. exists h. by eapply lookup_weaken.
  - intros ?. by eapply lookup_weaken.
Qed.

Lemma register_reg_inv descs x : reg_inv x →
  let '(x', r) := RegisterService descs x in
  reg_inv x' ∧ later x x' ∧ (r = Ret tt ∨ r = Panic "service already registered").
Proof.
  revert x. induction descs as [|[name h] descs IH]; intros x Hi; simpl; [by split_and!; [| reflexivity | left] |].
  destruct (methods x !! name) as [h'|] eqn:Hm; [by split_and!; [| reflexivity | right] |].
  destruct Hi as [I1 I2 I3].
  assert (methods x ⊆ <[name := h]> (methods x)) as Hsub by (by apply insert_subseteq).
  destruct (wait x !! name) as [w|] eqn:Hw.
  - destruct (I1 _ _ Hw) as (Hns & _ & Hlt). rewrite decide_False by done. set (x1 := MkRegistry _ _ _ _).
    assert (reg_inv x1) as Hx1.
    { split; simpl.
      - intros n v [Hne Hv]%lookup_delete_Some. destruct (I1 _ _ Hv) as (? & ? & ?). split_and!; [| by rewrite lookup_insert_ne | done].
        apply not_elem_of_union. split; [| done]. intros ->%elem_of_singleton. apply Hne. by eapply I2.
      - intros n1 n2 v [_ H1]%lookup_delete_Some [_ H2]%lookup_delete_Some. by eapply I2.
      - intros v [->%elem_of_singleton | ?]%elem_of_union; [done | by apply I3]. }
    specialize (IH x1 Hx1). destruct (RegisterService descs x1) as [x' r]. destruct IH as (H1 & H2 & H3).
    split_and!; [done | | done]. etrans; [| exact H2]. split; simpl; [done | set_solver |].
    intros n v Hv. destruct (decide (name = n)) as [<- | Hne].
    + right. rewrite Hw in Hv. injection Hv as <-. rewrite lookup_insert_eq. split; [set_solver | by eexists].
    + left. by rewrite lookup_delete_ne.
  - set (x1 := MkRegistry _ _ _ _).
    assert (reg_inv x1) as Hx1.
    { split; simpl; [| done | done]. intros n v Hv. destruct (I1 _ _ Hv) as (? & ? & ?).
      split_and!; [done | rewrite lookup_insert_ne; [done | congruence] | done]. }
    specialize (IH x1 Hx1). destruct (RegisterService descs x1) as [x' r]. destruct IH as (H1 & H2 & H3).
    split_and!; [done | | done]. etrans; [| exact H2]. split; simpl; [done | done | by left].
Qed.

Lemma get_enter_inv name x : reg_inv x →
  reg_inv (get_enter name x).1 ∧ later x (get_enter name x).1 ∧ call_ok (get_enter name x).1 (name, (get_enter name x).2).
Proof.
  intros [I1 I2 I3]. unfold get_enter. destruct (methods x !! name) as [h|] eqn:Hm; [by split_and!; [split | reflexivity |] |].
  destruct (wait x !! name) as [w|] eqn:Hw; [by split_and!; [split | reflexivity | left] |].
  split_and!.
  - split; simpl.
    + intros n v. rewrite lookup_insert_Some. intros [[<- <-] | [_ Hv]].
      * split_and!; [| done | lia]. intros Hs%I3. lia.
      * destruct (I1 _ _ Hv) as (? & ? & ?). split_and!; [done.. | lia].
    + intros n1 n2 v. rewrite !lookup_insert_Some. intros [[<- <-] | [_ H1]] [[<- Hv] | [_ H2]]; try done.
      * destruct (I1 _ _ H2) as (_ & _ & ?). lia.
      * subst v. destruct (I1 _ _ H1) as (_ & _ & ?). lia.
      * by eapply I2.
    + intros v Hs%I3. lia.
  - split; simpl; [done | done |]. intros n v Hv. left. rewrite lookup_insert_ne; [done |]. congruence.
  - left. simpl. by rewrite lookup_insert_eq.
Qed.

Definition inv (s : sys) : Prop :=
  reg_inv (reg s) ∧ (∀ i c, calls s !! i = Some c → call_ok (reg s) c) ∧
  Forall (λ why, why = "service already registered") (panics s).

Lemma reg_exec_inv o s s' : exec o s = Some s' → inv s → inv s'.
Proof.
  intros He (Hr & Hc & Hp). destruct o as [descs | name | i k]; simpl in He.
  - pose proof (register_reg_inv descs (reg s) Hr) as Hreg.
    destruct (RegisterService descs (reg s)) as [x r]. injection He as <-. destruct Hreg as (H1 & H2 & H3).
    split_and!; simpl; [done | intros i c Hi; by eapply call_ok_later, Hc |].
    destruct H3 as [-> | ->]; [done | by constructor].
  - injection He as <-. split_and!; simpl; [done | | done].
    intros i c [Hi | [_ Hi]]%lookup_app_Some; [by eapply Hc |].
    apply list_lookup_singleton_Some in Hi as [_ <-]. done.
  - destruct (calls s !! i) as [[name pc]|] eqn:Hi; [| done].
    destruct (get_step k name pc (reg s)) as [[x pc']|] eqn:Hg; [| done]. injection He as <-.
    pose proof (Hc _ _ Hi) as Hok.
    assert (reg_inv x ∧ later (reg s) x ∧ call_ok x (name, pc')) as (H1 & H2 & H3).
    { unfold get_step in Hg. destruct pc as [| w | | |]; try done.
      - pose proof (get_enter_inv name (reg s) Hr) as Hent. injection Hg as Hg. by rewrite Hg in Hent.
      - unfold call_ok in *. simpl in *. destruct k; try (injection Hg as <- <-; by split_and!; [| reflexivity |]).
        destruct (decide _) as [Hs |]; [| done]. injection Hg as <- <-. split_and!; [done | reflexivity |].
        simpl. destruct Hok as [Hw | [_ ?]]; [| done]. by destruct (ri_wait _ Hr _ _ Hw) as [Hns _].
      - injection Hg as <- <-. split_and!; [done | reflexivity |]. unfold call_ok in *. simpl in *.
        by destruct Hok as [h ->]. }
    split_and!; simpl; [done | | done]. intros j c. rewrite list_lookup_insert_Some.
    intros [(<- & <- & _) | [_ Hj]]; [done | by eapply call_ok_later, Hc].
Qed.

Lemma reg_run_inv os s : run os init = Some s → inv s.
Proof.
  intros Hr. eapply (run_Some exec inv); [intros; by eapply reg_exec_inv | exact Hr |].
  split_and!; [split; set_solver | | by constructor]. intros i c Hi. by destruct i.
Qed.

(** A stored value is an array that no caller has. *)
Definition kv_inv (s : kv_sys) : Prop :=
  held s ⊆ dom (arrays (kvs s)) ∧
  ∀ key a, kv (kvs s) !! key = Some a → a ∈ dom (arrays (kvs s)) ∧ a ∉ held s.

(** The map that the store stands for. *)
Definition content (x : keyValue) : gmap string (list nat) := omap (arrays x !!.) (kv x).

(** Writing to an array that is not stored leaves it. *)
Lemma content_write x a bytes :
  (∀ key, kv x !! key ≠ Some a) → content (MkKV (<[a := bytes]> (arrays x)) (kv x)) = content x.
Proof.
  intros Ha. apply map_eq. intros key. unfold content. rewrite !lookup_omap. simpl.
  destruct (kv x !! key) as [b|] eqn:Hb; [| done]. simpl. rewrite lookup_insert_ne; [done |].
  intros ->. by eapply Ha.
Qed.

Lemma fresh_not_stored s : kv_inv s → ∀ key, kv (kvs s) !! key ≠ Some (fresh (dom (arrays (kvs s)))).
Proof. intros [_ Hk] key [Hd _]%Hk. by apply (is_fresh (dom (arrays (kvs s)))). Qed.

Lemma fresh_not_held s : kv_inv s → fresh (dom (arrays (kvs s))) ∉ held s.
Proof. intros [Hh _] Hin. apply (is_fresh (dom (arrays (kvs s)))). by apply Hh. Qed.

Lemma kv_exec_inv o s s' : kv_exec o s = Some s' → kv_inv s → kv_inv s'.
Proof.
  intros He Hi. pose proof (fresh_not_stored s Hi) as Hfs. pose proof (fresh_not_held s Hi) as Hfh.
  destruct Hi as [Hh Hk]. destruct o as [bytes | a bytes | key a | key | key]; simpl in He.
  - injection He as <-. split; simpl; [set_solver |]. intros key a Hka. destruct (Hk _ _ Hka).
    split; [set_solver |]. apply not_elem_of_union. split; [| done]. intros ->%elem_of_singleton. by eapply Hfs.
  - destruct (decide _) as [Ha |]; [| done]. injection He as <-. split; simpl; [set_solver |].
    intros key b Hb. destruct (Hk _ _ Hb). set_solver.
  - destruct (decide _) as [Ha |]; [| done]. unfold SetKey in He. destruct (arrays (kvs s) !! a) as [bytes|]; [| done].
    injection He as <-. split; simpl; [set_solver |]. intros k b. rewrite lookup_insert_Some.
    intros [[_ <-] | [_ Hb]]; [set_solver |]. destruct (Hk _ _ Hb). set_solver.
  - unfold GetKey in He. destruct (_ ≫= _) as [bytes|]; injection He as <-; [| done]. split; simpl; [set_solver |].
    intros k b Hb. destruct (Hk _ _ Hb). split; [set_solver |]. apply not_elem_of_union. split; [| done].
    intros ->%elem_of_singleton. by eapply Hfs.
  - injection He as <-. split; simpl; [done |]. intros k b [_ Hb]%lookup_delete_Some. by apply (Hk k).
Qed.

Lemma kv_run_inv os s : kv_run os kv_init = Some s → kv_inv s.
Proof.
  intros Hr. eapply (run_Some kv_exec kv_inv); [intros; by eapply kv_exec_inv | exact Hr |].
  split; set_solver.
Qed.

(** * Properties *)

(** Whatever services are registered and whatever calls wait, in any order of the
    sections of their code: no channel is closed twice, so the only panic is that of a
    service registered again; a call that waits for a method that is not there is on the
    registered, open channel of the method, and one whose method is there is on a closed
    channel, and gets the method with its next two steps: no wake-up is lost.  No call
    fails with an internal error, and one that got a method got the one registered. *)
Theorem standalone_registry os s : run os init = Some s →
  Forall (λ why, why = "service already registered") (panics s) ∧
  (∀ i name w, calls s !! i = Some (name, Waiting w) → methods (reg s) !! name = None →
     wait (reg s) !! name = Some w ∧ w ∉ shut (reg s)) ∧
  (∀ i name w h, calls s !! i = Some (name, Waiting w) → methods (reg s) !! name = Some h →
     ∃ s', run [Step i ByChannel; Step i ByChannel] s = Some s' ∧ calls s' !! i = Some (name, Got h) ∧ reg s' = reg s) ∧
  (∀ i name, calls s !! i ≠ Some (name, Failed InternalError)) ∧
  (∀ i name h, calls s !! i = Some (name, Got h) → methods (reg s) !! name = Some h).
Proof.
  intros (Hr & Hc & Hp)%reg_run_inv. split_and!; [done | ..].
  - intros i name w Hi Hm. destruct (Hc _ _ Hi) as [Hw | [_ [h Hh]]]; simpl in *; [| by rewrite Hm in Hh].
    split; [done |]. by destruct (ri_wait _ Hr _ _ Hw).
  - intros i name w h Hi Hm.
    assert (w ∈ shut (reg s)) as Hs.
    { destruct (Hc _ _ Hi) as [Hw | [? _]]; [| done]. simpl in Hw.
      destruct (ri_wait _ Hr _ _ Hw) as (_ & Hn & _). by rewrite Hm in Hn. }
    assert (i < length (calls s))%nat by (by eapply lookup_lt_Some).
    eexists. split; [unfold run; simpl; rewrite Hi; simpl; rewrite decide_True by done; simpl;
      rewrite list_lookup_insert_eq by done; simpl; rewrite Hm; reflexivity |]. simpl.
    split; [| done]. by rewrite list_lookup_insert_eq by (by rewrite length_insert).
  - intros i name Hi. by apply (Hc _ _ Hi).
  - intros i name h Hi. by apply (Hc _ _ Hi).
Qed.

(** Two calls wait for a method, one of them gives up, the service comes, the other gets it. *)
Lemma standalone_registry_witness :
  ∃ s, run [Call "/user/get"; Call "/user/get"; Step 0 ByTimer; Step 1 ByTimer; Step 0 ByTimer;
            Register [("/user/get", 7%nat); ("/user/set", 8%nat)]] init = Some s ∧
    calls s !! 0%nat = Some ("/user/get", Failed Timeout) ∧ calls s !! 1%nat = Some ("/user/get", Waiting 0) ∧
    ∃ s', run [Step 1 ByChannel; Step 1 ByChannel] s = Some s' ∧ calls s' !! 1%nat = Some ("/user/get", Got 7).
Proof.
  eexists. split; [vm_compute; reflexivity |]. split; [reflexivity |]. split; [reflexivity |].
  destruct (standalone_registry
    [Call "/user/get"; Call "/user/get"; Step 0 ByTimer; Step 1 ByTimer; Step 0 ByTimer;
     Register [("/user/get", 7%nat); ("/user/set", 8%nat)]] _ eq_refl) as (_ & _ & Hgo & _).
  destruct (Hgo 1%nat "/user/get" 0%nat 7%nat eq_refl eq_refl) as (s' & ? & ? & _). by exists s'.
Defined.

(** C21. The keys refine a map of values, although they hold slices that are mutable: after
    any operations, with callers writing to every slice they made or were given, an
    operation changes the map as its name says, with the bytes that the slice has when it
    is stored.  [GetKey] gives a slice that nobody else has, with the bytes that were
    stored, and nil exactly when the key is not there. *)
Theorem standalone_kv os s o s' : kv_run os kv_init = Some s → kv_exec o s = Some s' →
  content (kvs s') =
    match o with
    | Set_ key a => partial_alter (λ _, arrays (kvs s) !! a) key (content (kvs s))
    | Del key => delete key (content (kvs s))
    | New _ | Write _ _ | Get _ => content (kvs s)
    end ∧
  (∀ key, o = Get key →
     (got s' ≫= (arrays (kvs s') !!.)) = content (kvs s) !! key ∧
     ∀ a, got s' = Some a → a ∉ held s ∧ is_Some (content (kvs s) !! key)).
Proof.
  intros Hi%kv_run_inv He. pose proof (fresh_not_stored s Hi) as Hfs. pose proof (fresh_not_held s Hi) as Hfh.
  destruct Hi as [Hh Hk]. destruct o as [bytes | a bytes | key a | key | key]; simpl in He.
  - injection He as <-. split; [| done]. by apply content_write.
  - destruct (decide _) as [Ha |]; [| done]. injection He as <-. split; [| done]. apply content_write.
    intros key [_ Hn]%Hk. done.
  - destruct (decide _) as [Ha |]; [| done]. unfold SetKey in He.
    destruct (arrays (kvs s) !! a) as [bytes|] eqn:Hb; [| done]. injection He as <-. split; [| done].
    rewrite <- (content_write (kvs s) (fresh (dom (arrays (kvs s)))) bytes Hfs).
    apply map_eq. intros k. unfold content. simpl. rewrite lookup_omap. destruct (decide (key = k)) as [<- | Hne].
    + rewrite lookup_insert_eq, lookup_partial_alter_eq. simpl. by rewrite lookup_insert_eq.
    + rewrite lookup_insert_ne, lookup_partial_alter_ne by done. symmetry. apply lookup_omap.
  - unfold GetKey in He. 
    assert (∀ k, content (kvs s) !! k = kv (kvs s) !! k ≫= (arrays (kvs s) !!.)) as Hl by (intros k; apply lookup_omap).
    destruct (kv (kvs s) !! key ≫= _) as [bytes|] eqn:Hb; injection He as <-; simpl.
    + split; [by apply content_write |]. intros k [= <-]. rewrite Hl, Hb. split; [by rewrite lookup_insert_eq |].
      intros a [= <-]. split; [done | by eexists].
    + split; [done |]. intros k [= <-]. rewrite Hl, Hb. by split.
  - injection He as <-. split; [| done]. unfold content. simpl. apply omap_delete.
Qed.

(** A caller overwrites the slice it stored: the value stays. *)
Definition demo_kv : list kv_op := [New [1; 2]; Set_ "k" 0; Write 0 [9; 9]; Get "k"; Write 2 [5]].

Lemma standalone_kv_witness :
  ∃ s s', kv_run demo_kv kv_init = Some s ∧ kv_exec (Get "k") s = Some s' ∧
    content (kvs s') = content (kvs s) ∧ (got s' ≫= (arrays (kvs s') !!.)) = content (kvs s) !! "k" ∧
    content (kvs s) !! "k" = Some [1; 2].
Proof.
  destruct (kv_run demo_kv kv_init) as [s|] eqn:Hs; [| vm_compute in Hs; discriminate].
  destruct (kv_exec (Get "k") s) as [s'|] eqn:Hs'; [| vm_compute in Hs; injection Hs as <-; vm_compute in Hs'; discriminate].
  destruct (standalone_kv demo_kv s (Get "k") s' Hs Hs') as [Hc Hg]. exists s, s'.
  split; [done |]. split; [done |]. split; [exact Hc |]. split; [apply (Hg "k" eq_refl) |].
  vm_compute in Hs. injection Hs as <-. vm_compute. reflexivity.
Defined.
