(* ===== verification/S3Part.v ===== *)
(** * Part sizes of the object stores (s3/minio, s3/oss, s3/aws, s3/cos, s3/kodo)

    The limits of each store and the size it gives the parts of an upload. *)

From S2P Require Import Prelude S3Cont.

Local Open Scope Z_scope.

Record PartLimit := MkPartLimit { MinPartSize : Z; MaxPartSize : Z; MaxNumSize : Z }.

Definition MB : Z := 1024 * 1024.
Definition GB : Z := 1024 * 1024 * 1024.

Definition Minio_PartLimit : PartLimit := MkPartLimit (MB * 5) (GB * 5) 10000.
Definition OSS_PartLimit : PartLimit := MkPartLimit (MB * 1) (GB * 5) 10000.
Definition Aws_PartLimit : PartLimit := MkPartLimit (MB * 5) (GB * 5) 10000.
Definition Cos_PartLimit : PartLimit := MkPartLimit (MB * 1) (GB * 5) 1000.
Definition Kodo_PartLimit : PartLimit := MkPartLimit (MB * 1) (GB * 5) 10000.

Inductive size_err := NotPositive | TooLarge.

Section part_size.
Local Open Scope go_scope.

(** The end of the five functions. *)
Definition spread (l : PartLimit) (size : Z) : Z :=
  let partSize := Z.quot size (MaxNumSize l) in
  if Z.rem size (MaxNumSize l) =? 0 then partSize else partSize +i 1.

(** [PartSize] of minio, oss, aws and cos, which differ in the texts of the errors. *)
Definition store_PartSize (l : PartLimit) (size : Z) : Z + size_err :=
  if size <=? 0 then inr NotPositive
  else if MaxPartSize l *i MaxNumSize l <? size then inr TooLarge
  else if size <=? MinPartSize l *i MaxNumSize l then inl (MinPartSize l)
  else inl (spread l size).

(** [PartSize] of kodo. *)
Definition Kodo_PartSize (size : Z) : Z + size_err :=
  let l := Kodo_PartLimit in
  if size <=? 0 then inr NotPositive
  else if MaxPartSize l *i MaxNumSize l <? size then inr TooLarge
  else if size <=? MaxPartSize l *i MaxNumSize l then inl (MinPartSize l)
  else inl (spread l size).
End part_size.

(** * Lemmas *)

Definition stores : list PartLimit := [Minio_PartLimit; OSS_PartLimit; Aws_PartLimit; Cos_PartLimit].

Lemma stores_limits l : l ∈ Kodo_PartLimit :: stores →
  0 < MinPartSize l ≤ MaxPartSize l ∧ 0 < MaxNumSize l ∧
  wrap64 (MaxPartSize l * MaxNumSize l) = MaxPartSize l * MaxNumSize l ∧
  wrap64 (MinPartSize l * MaxNumSize l) = MinPartSize l * MaxNumSize l ∧ MaxPartSize l < two63 - 1.
Proof.
  unfold stores. rewrite !elem_of_cons, elem_of_nil.
  intros [-> | [-> | [-> | [-> | [-> | []]]]]]; vm_compute; done.
Qed.

(** The parts of [spread]: the least size with which they are not too many. *)
Lemma spread_least l size :
  0 < size → 0 < MaxNumSize l → MaxPartSize l < two63 - 1 → size ≤ MaxPartSize l * MaxNumSize l →
  size ≤ spread l size * MaxNumSize l ∧ spread l size ≤ MaxPartSize l ∧
  ∀ p, size ≤ p * MaxNumSize l → spread l size ≤ p.
Proof.
  intros Hs Hn Hmax Hle. unfold spread.
  pose proof (Z.quot_rem' size (MaxNumSize l)) as Hq. pose proof (Z.rem_bound_pos size (MaxNumSize l) ltac:(lia) Hn) as Hr.
  pose proof (Z.quot_pos size (MaxNumSize l) ltac:(lia) Hn) as Hqp.
  set (q := Z.quot size (MaxNumSize l)) in *. set (r := Z.rem size (MaxNumSize l)) in *. set (n := MaxNumSize l) in *.
  assert (Hqm : q ≤ MaxPartSize l) by nia.
  destruct (Z.eqb_spec r 0).
  - split_and!; [nia | nia |]. intros p Hp. nia.
  - rewrite wrap64_id by (unfold in_int64, two63 in *; lia). split_and!; [nia | nia |]. intros p Hp. nia.
Qed.

(** * Theorem *)

(** For minio, oss, aws and cos an upload of any positive size up to the largest part
    times the number of parts is given a part size within the limits with which the
    number of parts that the controller computes is within the limit, and it is the least
    such size; any other size is refused, and nothing overflows.  Kodo always gives its
    smallest part size, so that every upload of more than ten thousand times that has too
    many parts. *)
Theorem part_size_spec l size :
  l ∈ stores →
  (store_PartSize l size = inr NotPositive ↔ size ≤ 0) ∧
  (store_PartSize l size = inr TooLarge ↔ MaxPartSize l * MaxNumSize l < size) ∧
  (0 < size ≤ MaxPartSize l * MaxNumSize l →
   ∃ partSize, store_PartSize l size = inl partSize ∧
     MinPartSize l ≤ partSize ≤ MaxPartSize l ∧ partNumber_of size partSize ≤ MaxNumSize l ∧
     ∀ p, MinPartSize l ≤ p → partNumber_of size p ≤ MaxNumSize l → partSize ≤ p) ∧
  (MinPartSize Kodo_PartLimit * MaxNumSize Kodo_PartLimit < size ≤ MaxPartSize Kodo_PartLimit * MaxNumSize Kodo_PartLimit →
   ∃ partSize, Kodo_PartSize size = inl partSize ∧ MaxNumSize Kodo_PartLimit < partNumber_of size partSize).
Proof.
  intros Hl. destruct (stores_limits l) as (Hmin & Hn & Hw1 & Hw2 & Hmax); [by right |].
  destruct (stores_limits Kodo_PartLimit) as (_ & _ & Hk1 & _ & _); [by left |].
  assert (Hceil : ∀ p, 0 < size → 0 < p → partNumber_of size p ≤ MaxNumSize l ↔ size ≤ p * MaxNumSize l).
  { intros p Hs Hp. pose proof (partNumber_ceil size p ltac:(lia) Hp) as (? & Hc & ?).
    destruct (Z.eqb_spec size 0); [lia |]. split; nia. }
  unfold store_PartSize. rewrite Hw1, Hw2. split_and!.
  - destruct (Z.leb_spec size 0); [done |]. split; [| lia]. by repeat case_match.
  - destruct (Z.leb_spec size 0); [split; [done | nia] |]. destruct (Z.ltb_spec (MaxPartSize l * MaxNumSize l) size); [done |].
    split; [| lia]. by repeat case_match.
  - intros [Hs Hle]. destruct (Z.leb_spec size 0); [lia |].
    destruct (Z.ltb_spec (MaxPartSize l * MaxNumSize l) size); [lia |].
    destruct (Z.leb_spec size (MinPartSize l * MaxNumSize l)).
    + exists (MinPartSize l). split_and!; [done | lia | lia | by apply Hceil; lia |]. intros p Hp _. lia.
    + destruct (spread_least l size Hs Hn Hmax Hle) as (Hf & Hm & Hleast). exists (spread l size).
      assert (MinPartSize l ≤ spread l size) by nia.
      split_and!; [done | lia | lia | apply Hceil; [lia | lia | done] |].
      intros p Hp Hpn. apply Hleast. apply Hceil; [lia | lia | done].
  - intros Hs. unfold Kodo_PartSize. rewrite Hk1. unfold Kodo_PartLimit, MinPartSize, MaxPartSize, MaxNumSize, MB, GB in *.
    destruct (Z.leb_spec size 0); [lia |]. destruct (Z.ltb_spec (1024 * 1024 * 1024 * 5 * 10000) size); [lia |].
    destruct (Z.leb_spec size (1024 * 1024 * 1024 * 5 * 10000)); [| lia].
    eexists. split; [done |]. pose proof (partNumber_ceil size (1024 * 1024 * 1) ltac:(lia) ltac:(lia)). lia.
Qed.

Lemma part_size_spec_witness :
  Minio_PartLimit ∈ stores ∧
  ∃ partSize, store_PartSize Minio_PartLimit (GB * 60) = inl partSize ∧ partSize = 6442451 ∧
    partNumber_of (GB * 60) partSize ≤ 10000.
Proof.
  assert (Hin : Minio_PartLimit ∈ stores) by left. split; [exact Hin |].
  destruct (part_size_spec Minio_PartLimit (GB * 60) Hin) as (_ & _ & Hp & _).
  destruct Hp as (partSize & Hp & _ & Hn & _); [vm_compute; split; congruence |].
  exists partSize. split; [exact Hp |]. split; [| exact Hn]. vm_compute in Hp. congruence.
Defined.
