(* ===== verification/Thumb.v ===== *)
(** * Images of the object store (s3/minio: minio.go, thumbnail.go, image.go, cache.go)

    Access to objects, the thumbnails that are made of images and kept in the bucket, the
    caches of what is known of them, and their removal with the object.  The bucket, the
    cache, the decoders and encoders and the signing of addresses are interfaces. *)

From Stdlib Require Import Ascii.
From S2P Require Import Prelude GoStrings Errs Float64 Network Rpc.

Local Open Scope Z_scope.

(** ** Names of files *)

(** [path.Base] and [path.Ext]. *)
Definition after_slash (p : string) : string :=
  match LastIndexByte "/" p with Some i => sdrop (S i) p | None => p end.

Definition path_Base (p : string) : string :=
  if String.eqb p "" then "."
  else
    let b := after_slash (TrimByteRight "/" p) in
    if String.eqb b "" then "/" else b.

Definition path_Ext (p : string) : string :=
  let b := after_slash p in
  match LastIndexByte "." b with Some i => sdrop i b | None => "" end.

(** [strings.TrimSuffix] and [strings.TrimPrefix]. *)
Definition TrimSuffix (s suffix : string) : string :=
  let n := (String.length s - String.length suffix)%nat in
  if (String.length suffix <=? String.length s)%nat && String.eqb (sdrop n s) suffix then stake n s else s.

Definition TrimPrefix (s prefix : string) : string := default s (CutPrefix prefix s).

(** [strings.Split(s, sep)] for a separator that is not empty; no more rounds are needed
    than there are characters. *)
Fixpoint IndexStr (sep s : string) : option nat :=
  match CutPrefix sep s with
  | Some _ => Some 0%nat
  | None => match s with EmptyString => None | String _ s => S <$> IndexStr sep s end
  end.

Fixpoint SplitStr_loop (n : nat) (sep s : string) : list string :=
  match n with
  | O => [s]
  | S n =>
      match IndexStr sep s with
      | None => [s]
      | Some i => stake i s :: SplitStr_loop n sep (sdrop (i + String.length sep) s)
      end
  end.

Definition SplitStr (sep s : string) : list string := SplitStr_loop (String.length s) sep s.

(** ** Images *)

(** Sizes ([Bounds().Max]) and colours; [At] is total, as in Go. *)
Record image := MkImage { Wd : Z; Ht : Z; At : Z → Z → nat }.

Definition ImageWidthHeight (img : image) : Z * Z := (Wd img, Ht img).

(** [image.NewRGBA] filled by the two loops: the pixel [(x, y)] is that at
    [(x / scale, y / scale)], which [Set] converts. *)
Definition resample (RGBA : nat → nat) (img : image) (scale : float64) (w h : Z) : image :=
  MkImage w h (λ x y,
    if (0 <=? x) && (x <? w) && (0 <=? y) && (y <? h) then
      RGBA (At img (int64_of_float (f64_div (float64_of_int x) scale))
                   (int64_of_float (f64_div (float64_of_int y) scale)))
    else RGBA 0%nat).

Definition resizeImage (RGBA : nat → nat) (img : image) (maxWidth maxHeight : Z) : image :=
  let imgWidth := Wd img in
  let imgHeight := Ht img in
  let scaleWidth := f64_div (float64_of_int maxWidth) (float64_of_int imgWidth) in
  let scaleHeight := f64_div (float64_of_int maxHeight) (float64_of_int imgHeight) in
  let scaled n scale := int64_of_float (f64_mul (float64_of_int n) scale) in
  if (maxWidth =? 0) && (maxHeight =? 0) then img
  else if (0 <? maxWidth) && (0 <? maxHeight) then
    let scale := if f64_ltb scaleHeight scaleWidth then scaleHeight else scaleWidth in
    resample RGBA img scale (scaled imgWidth scale) (scaled imgHeight scale)
  else if 0 <? maxWidth then resample RGBA img scaleWidth maxWidth (scaled imgHeight scaleWidth)
  else if 0 <? maxHeight then resample RGBA img scaleHeight (scaled imgWidth scaleHeight) maxHeight
  else img.

Definition getThumbnailSize (img : image) : Z * Z :=
  (if Wd img <? 640 then Wd img else 640, if Ht img <? 640 then Ht img else 640).

(** ** What the client is given *)

Record ImageInfo := MkImageInfo { IsImg : bool; Width : Z; Height : Z; Format : string; Etag : string }.
Record Image := MkOpt { ImgFormat : string; ImgWidth : Z; ImgHeight : Z }.
Record AccessURLOption := MkAccess { ContentType : string; Filename : string; Image_ : option Image }.

Definition maxImageWidth : Z := 1024.
Definition maxImageHeight : Z := 1024.
Definition maxImageSize : Z := 1024 * 1024 * 50.
Definition imageThumbnailPath : string := "openim/thumbnail".

(** The bucket: what there is, with the entity tag and the size of an object, its data,
    and the two operations that change it. *)
Class Bucket (B : Type) := {
  view : B → gmap string string;
  etag_of : string → string;
  Stat : string → B → (string * Z) + goerr;
  GetData : string → B → string + goerr;
  PutObject : string → string → B → B * option goerr;
  RemoveObject : string → B → B * option goerr;
  ListObjects : string → B → list (string + goerr)
}.

(** The cache: what it holds for a key, if anything; deletions can fail. *)
Class Cache (C : Type) := {
  info_hit : string → C → option ImageInfo;
  info_put : string → ImageInfo → C → C;
  DelObjectImageInfoKey : string → C → C * option goerr;
  thumb_hit : string → string → Z → Z → C → option string;
  thumb_put : string → string → Z → Z → string → C → C;
  DelImageThumbnailKey : string → string → Z → Z → C → C * option goerr
}.

(** A signed address. *)
Record url := MkURL { url_Path : string; url_rest : string }.

(** The decoders and encoders of images, the conversion of colours, the signing of
    addresses and the escaping of names. *)
Class Codecs := {
  RGBA : nat → nat;
  Decode : string → option (image * string);
  Encode : string → image → option string;
  MakeTargetURL : string → list (string * string) → url + goerr;
  Presigned : string → Z → list (string * string) → url + goerr;
  PathEscape : string → string;
  IsNotFoundErr : goerr → bool;
  url_String : url → string
}.

Section minio.
Context {B C : Type} `{!Bucket B} `{!Cache C} `{!Codecs} (publicRead : bool) (prefix : string).

(** [PresignedGetObject]. *)
Definition hours99years : Z := 3600 * 1000000000 * 24 * 365 * 99.

Definition PresignedGetObject (name : string) (expire : Z) (query : list (string * string)) : url + goerr :=
  let expire := if expire <=? 0 then hours99years else if expire <? 1000000000 then 1000000000 else expire in
  match (if publicRead then MakeTargetURL name query else Presigned name expire query) with
  | inr e => inr e
  | inl u => inl (if String.eqb prefix "" then u else MkURL (path_Join [prefix; url_Path u]) (url_rest u))
  end.

(** What the object is as an image, from its data. *)
Definition info_of (d : string) : ImageInfo :=
  match Decode d with
  | Some (img, format) => MkImageInfo true (Wd img) (Ht img) format (ToLower (etag_of d))
  | None => MkImageInfo false 0 0 "" (ToLower (etag_of d))
  end.

Definition getObjectImageInfo (a : nat) (name : string) (b : B) : (ImageInfo * option image) + goerr :=
  match Stat name b with
  | inr e => inr e
  | inl (etag, size) =>
      if maxImageSize <? size then inr (Stack (S a) (ErrString a "file size too large"))
      else
        match GetData name b with
        | inr e => inr e
        | inl data =>
            let data := stake (Z.to_nat size) data in
            match Decode data with
            | Some (img, format) => inl (MkImageInfo true (Wd img) (Ht img) format (ToLower etag), Some img)
            | None => inl (MkImageInfo false 0 0 "" (ToLower etag), None)
            end
        end
  end.

(** The read-through of the first cache. *)
Definition GetImageObjectKeyInfo (a : nat) (name : string) (b : B) (c : C) : C * ((ImageInfo * option image) + goerr) :=
  match info_hit name c with
  | Some i => (c, inl (i, None))
  | None =>
      match getObjectImageInfo a name b with
      | inr e => (c, inr e)
      | inl (i, img) => (info_put name i c, inl (i, img))
      end
  end.

(** The key of a thumbnail. *)
Definition thumb_file (format : string) (w h : Z) : string :=
  "image_w" +:+ Itoa w +:+ "_h" +:+ Itoa h +:+ "." +:+ format.

Definition thumb_key (etag format : string) (w h : Z) : string :=
  path_Join [imageThumbnailPath; etag; thumb_file format w h].

(** The thumbnail is made and put in the bucket. *)
Definition make_thumbnail (a : nat) (name : string) (info : ImageInfo) (img : option image) (format : string) (w h : Z)
    (b : B) : B * (string + goerr) :=
  let img :=
    match img with
    | Some img => inl img
    | None =>
        match GetData name b with
        | inr e => inr e
        | inl d => match Decode d with Some (img, _) => inl img | None => inr (Other a "image: unknown format") end
        end
    end in
  match img with
  | inr e => (b, inr e)
  | inl img =>
      match Encode format (resizeImage RGBA img w h) with
      | None => (b, inr (Stack (S a) (Wrapper a (Other a "encode") (toString "encode failed" ["type"; format]))))
      | Some buf =>
          let key := thumb_key (Etag info) format w h in
          match PutObject key buf b with
          | (b, Some e) => (b, inr e)
          | (b, None) => (b, inl key)
          end
      end
  end.

(** The format that is made for one that is asked for. *)
Definition thumb_format (format : string) : string :=
  let format := ToLower format in
  let format := if String.eqb format "jpg" then "jpeg" else format in
  if bool_decide (format ∈ ["png"; "jpeg"; "gif"]) then format else "png".

(** The options as [getImageThumbnailURL] leaves them for the caller. *)
Definition adjust (info : ImageInfo) (opt : Image) : Image :=
  MkOpt (thumb_format (ImgFormat opt))
    (if (Width info <? ImgWidth opt) || (ImgWidth opt <=? 0) then Width info else ImgWidth opt)
    (if (Height info <? ImgHeight opt) || (ImgHeight opt <=? 0) then Height info else ImgHeight opt).

(** Which object is served, with which content type. *)
Definition thumbnail_target (a : nat) (name : string) (opt : Image) (b : B) (c : C)
    : B * C * Image * ((string * string) + goerr) :=
  let '(c, r) := GetImageObjectKeyInfo a name b c in
  match r with
  | inr e => (b, c, opt, inr e)
  | inl (info, img) =>
      if negb (IsImg info) then (b, c, opt, inr (Stack (S a) (ErrString a "object not image")))
      else
        let opt := adjust info opt in
        if (ImgWidth opt =? Width info) && (ImgHeight opt =? Height info) &&
           (String.eqb (ImgFormat opt) (Format info) || String.eqb (ImgFormat opt) "")
        then (b, c, opt, inl (name, "image/" +:+ Format info))
        else
          match thumb_hit name (ImgFormat opt) (ImgWidth opt) (ImgHeight opt) c with
          | Some key => (b, c, opt, inl (key, "image/" +:+ ImgFormat opt))
          | None =>
              match make_thumbnail a name info img (ImgFormat opt) (ImgWidth opt) (ImgHeight opt) b with
              | (b, inr e) => (b, c, opt, inr e)
              | (b, inl key) =>
                  (b, thumb_put name (ImgFormat opt) (ImgWidth opt) (ImgHeight opt) key c, opt,
                   inl (key, "image/" +:+ ImgFormat opt))
              end
          end
  end.

Definition getImageThumbnailURL (a : nat) (name : string) (expire : Z) (opt : Image) (b : B) (c : C)
    : B * C * Image * (string + goerr) :=
  match thumbnail_target a name opt b c with
  | (b, c, opt, inr e) => (b, c, opt, inr e)
  | (b, c, opt, inl (key, ty)) =>
      (b, c, opt,
       match PresignedGetObject key expire [("response-content-type", ty)] with
       | inr e => inr e
       | inl u => inl (url_String u)
       end)
  end.

(** [AccessURL]; a nil option is dereferenced.  The options of the caller are changed. *)
Definition clear_option (opt : AccessURLOption) : AccessURLOption :=
  match Image_ opt with Some _ => MkAccess "" "" (Image_ opt) | None => opt end.

Definition access_query (opt : AccessURLOption) : list (string * string) :=
  (if String.eqb (ContentType opt) "" then [] else [("response-content-type", ContentType opt)]) ++
  (if String.eqb (Filename opt) "" then []
   else [("response-content-disposition", "attachment; filename*=UTF-8''" +:+ PathEscape (Filename opt))]).

Definition AccessURL (a : nat) (name : string) (expire : Z) (opt : option AccessURLOption) (b : B) (c : C)
    : outcome (B * C * AccessURLOption * (string + goerr)) :=
  match clear_option <$> opt with
  | None => Panic "nil pointer dereference"
  | Some opt =>
      let direct :=
        match PresignedGetObject name expire (access_query opt) with
        | inr e => inr e
        | inl u => inl (url_String u)
        end in
      match Image_ opt with
      | None => Ret (b, c, opt, direct)
      | Some i =>
          if (ImgWidth i <? 0) && (ImgHeight i <? 0) && String.eqb (ImgFormat i) "" ||
             ((maxImageWidth <? ImgWidth i) || (maxImageHeight <? ImgHeight i))
          then Ret (b, c, opt, direct)
          else
            let '(b, c, i, r) := getImageThumbnailURL a name expire i b c in
            Ret (b, c, MkAccess (ContentType opt) (Filename opt) (Some i), r)
      end
  end.

Definition GetImageThumbnailKey (a : nat) (name : string) (b : B) : string + goerr :=
  match getObjectImageInfo a name b with
  | inr e => inr (Stack (S (S a)) e)
  | inl (info, img) =>
      if negb (IsImg info) then inr (Stack (S a) (ErrString a "object not image"))
      else
        match img with
        | None => inr (Other a "unreachable")
        | Some img => let '(w, h) := getThumbnailSize img in inl (thumb_key (Etag info) (Format info) w h)
        end
  end.

(** ** Removal *)

(** What [deleteThumbnailCache] reads in a key: format, width and height. *)
Definition parse_thumb (key : string) : string * Z * Z :=
  let filename := path_Base key in
  let ext := path_Ext filename in
  let filename := TrimPrefix (TrimSuffix filename ext) "image_w" in
  let '(w, h) := match SplitStr "_h" filename with [w; h] => ((ParseInt64 w).1, (ParseInt64 h).1) | _ => (0, 0) end in
  (TrimByteLeft "." (TrimByteRight "." ext), w, h).

Definition deleteThumbnailCache (name key : string) (c : C) : C * option goerr :=
  let '(format, w, h) := parse_thumb key in DelImageThumbnailKey name format w h c.

(** The loop over the listing, as it comes; [first] is the flag of the first key. *)
Fixpoint clear_loop (name etag : string) (first : bool) (keys : list (string + goerr)) (b : B) (c : C)
    : B * C * option goerr :=
  match keys with
  | [] => (b, c, None)
  | inr e :: _ => (b, c, Some e)
  | inl key :: keys =>
      let '(c, e) := if first then (c, None) else DelObjectImageInfoKey etag c in
      match e with
      | Some e => (b, c, Some e)
      | None =>
          match deleteThumbnailCache name key c with
          | (c, Some e) => (b, c, Some e)
          | (c, None) =>
              match RemoveObject key b with
              | (b, Some e) => (b, c, Some e)
              | (b, None) => clear_loop name etag true keys b c
              end
          end
      end
  end.

(** A context that ends stops the loop after [n] keys. *)
Definition clearObjectImageInfoKey (stop : option (nat * goerr)) (name etag : string) (b : B) (c : C) : B * C * option goerr :=
  let p := path_Join [imageThumbnailPath; etag] in
  let p := if String.eqb (TrimSuffix p "/") p then p +:+ "/" else p in
  let keys := ListObjects p b in
  clear_loop name etag false (match stop with Some (n, e) => take n keys ++ [inr e] | None => keys end) b c.

(** What [CompleteMultipartUpload] ends with; a failure is logged. *)
Definition delObjectImageInfoKey (key : string) (size : Z) (c : C) : C :=
  if (0 <? size) && (maxImageSize <? size) then c else (DelObjectImageInfoKey key c).1.

Definition DeleteObject (stop : option (nat * goerr)) (name : string) (b : B) (c : C) : B * C * option goerr :=
  match Stat name b with
  | inr e => (b, c, if IsNotFoundErr e then None else Some e)
  | inl (etag, _) =>
      match clearObjectImageInfoKey stop name etag b c with
      | (b, c, Some e) => (b, c, Some e)
      | (b, c, None) => let '(b, e) := RemoveObject name b in (b, c, e)
      end
  end.
End minio.

(** * Lemmas: the names of thumbnails *)

Lemma SplitN_more sep s n : (String.length s < n)%nat → SplitN sep s n = SplitN sep s (S n).
Proof.
  revert n. induction s as [|c s IH]; intros n Hn; [destruct n; simpl in Hn; [lia | done] |]. simpl in Hn.
  destruct n as [|[|n]]; [lia.. |]. rewrite !SplitN_cons, (IH (S n)), (IH (S (S n))) by lia. done.
Qed.

Lemma SplitN_enough sep s n : (String.length s < n)%nat → SplitN sep s n = Split sep s.
Proof. intros Hn. induction Hn as [|n Hn IH]; [done |]. by rewrite <- SplitN_more. Qed.

Lemma is_byte_ne c x : is_byte c x = false → x ≠ c.
Proof. intros Hc ->. unfold is_byte in Hc. by destruct (ascii_dec c c). Qed.

Lemma Split_cons sep a b : has_byte sep a = false → Split sep (a +:+ String sep b) = a :: Split sep b.
Proof.
  intros Ha. rewrite <- (SplitN_enough sep b (S (String.length (a +:+ b)))) by (rewrite string_length_app; lia).
  rewrite <- (SplitN_enough sep _ (S (S (String.length (a +:+ b))))) by (rewrite !string_length_app; simpl; lia).
  generalize (String.length (a +:+ b)). intros n. induction a as [|x a IH].
  - change ("" +:+ ?z) with z. rewrite SplitN_cons. by destruct (ascii_dec sep sep).
  - cbn [has_byte] in Ha. apply orb_false_iff in Ha as [Hx Ha]. change (String x a +:+ ?z) with (String x (a +:+ z)).
    rewrite SplitN_cons, IH by done. apply is_byte_ne in Hx. by destruct (ascii_dec x sep).
Qed.

Lemma Split_single sep a : has_byte sep a = false → Split sep a = [a].
Proof.
  intros Ha. rewrite <- (SplitN_enough sep a (S (S (String.length a)))) by lia. generalize (String.length a). intros n.
  induction a as [|x a IH]; [done |]. cbn [has_byte] in Ha. apply orb_false_iff in Ha as [Hx Ha].
  rewrite SplitN_cons, IH by done. apply is_byte_ne in Hx. by destruct (ascii_dec x sep).
Qed.

(** Entity tags as stores give them. *)
Definition tag_text (e : string) : Prop := e ≠ "" ∧ has_byte "/" e = false ∧ has_byte "." e = false ∧ ToLower e = e.

Definition formats : list string := ["png"; "jpeg"; "gif"].
Definition size_ok (w h : Z) : Prop := 0 ≤ w < two63 ∧ 0 ≤ h < two63.

Definition thumb_stem (w h : Z) : string := "image_w" +:+ (Itoa w +:+ String "_" (String "h" (Itoa h))).

Lemma thumb_file_stem f w h : thumb_file f w h = thumb_stem w h +:+ String "." f.
Proof.
  unfold thumb_file, thumb_stem. rewrite <- string_app_assoc. f_equal. rewrite <- string_app_assoc. f_equal.
Qed.

Lemma thumb_file_slash f w h : f ∈ formats → size_ok w h → has_byte "/" (thumb_file f w h) = false.
Proof.
  intros Hf [Hw Hh]. rewrite thumb_file_stem. unfold thumb_stem. rewrite !has_byte_app. simpl.
  rewrite !Itoa_digits by done. simpl. unfold formats in Hf.
  by repeat (apply elem_of_cons in Hf as [-> | Hf]); [.. | apply elem_of_nil in Hf].
Qed.

Lemma Clean_relative c s : c ≠ "/"%char →
  let body := Join "/" (clean_elems false (Split "/" (String c s)) []) in
  Clean (String c s) = if bool_decide (body = "") then "." else body.
Proof. intros Hc. unfold Clean. by destruct (ascii_dec c "/"). Qed.

(** An element that stays. *)
Lemma clean_elems_keep e elems acc : e ≠ "" → e ≠ "." → e ≠ ".." →
  clean_elems false (e :: elems) acc = clean_elems false elems (e :: acc).
Proof. intros. simpl. by rewrite !bool_decide_false. Qed.

Lemma thumb_key_text e f w h : tag_text e → f ∈ formats → size_ok w h →
  thumb_key e f w h = "openim/thumbnail/" +:+ (e +:+ String "/" (thumb_file f w h)).
Proof.
  intros (He & Hs & Hd & _) Hf Hok. pose proof (thumb_file_slash f w h Hf Hok) as Hfs. unfold thumb_key, path_Join.
  rewrite (filter_cons_True _ imageThumbnailPath) by discriminate. rewrite (filter_cons_True _ e) by done.
  rewrite (filter_cons_True _ (thumb_file f w h)) by discriminate. rewrite filter_nil.
  change (Join "/" [imageThumbnailPath; e; thumb_file f w h])
    with ("openim" +:+ String "/" ("thumbnail" +:+ String "/" (e +:+ String "/" (thumb_file f w h)))).
  change ("openim" +:+ ?s) with (String "o" ("penim" +:+ s)). rewrite Clean_relative by discriminate.
  change (String "o" ("penim" +:+ ?s)) with ("openim" +:+ s).
  rewrite !Split_cons, Split_single by done. rewrite !clean_elems_keep by (done || (intros ->; by vm_compute in Hd)).
  cbv zeta. rewrite bool_decide_false by discriminate. reflexivity.
Qed.

(** ** Reading them back *)

Lemma after_slash_app a b : has_byte "/" b = false → after_slash (a +:+ String "/" b) = b.
Proof.
  intros Hb. unfold after_slash. rewrite LastIndexByte_app by done.
  change (a +:+ String "/" b) with (a +:+ ("/" +:+ b)). rewrite string_app_assoc.
  replace (S (String.length a)) with (String.length (a +:+ "/")) by (rewrite string_length_app; simpl; lia).
  apply sdrop_app.
Qed.

Lemma after_slash_none b : has_byte "/" b = false → after_slash b = b.
Proof. intros Hb. unfold after_slash. by rewrite LastIndexByte_None. Qed.

Lemma TrimByteRight_app c s t : TrimByteRight c t = t → t ≠ "" → TrimByteRight c (s +:+ t) = s +:+ t.
Proof.
  intros Ht Hne. induction s as [|x s IH]; [done |]. change (String x s +:+ t) with (String x (s +:+ t)).
  cbn [TrimByteRight]. rewrite IH. destruct (String.eqb_spec (s +:+ t) "") as [He |]; [| done]. by destruct s.
Qed.

Lemma TrimSuffix_app a b : TrimSuffix (a +:+ b) b = a.
Proof.
  unfold TrimSuffix. rewrite string_length_app.
  replace (_ + _ - _)%nat with (String.length a) by lia. rewrite sdrop_app, String.eqb_refl, stake_app.
  by rewrite (proj2 (Nat.leb_le _ _)) by lia.
Qed.

Lemma IndexStr_none a s sep : has_byte a s = false → IndexStr (String a sep) s = None.
Proof.
  induction s as [|x s IH]; simpl; [done |]. intros [Hx%is_byte_ne Hs]%orb_false_iff.
  destruct (ascii_dec a x); [congruence |]. by rewrite IH.
Qed.

Lemma IndexStr_app a sep s t : has_byte a s = false →
  IndexStr (String a sep) (s +:+ (String a sep +:+ t)) = Some (String.length s).
Proof.
  induction s as [|x s IH]; intros Hs.
  - change ("" +:+ ?z) with z. pose proof (CutPrefix_app (String a sep) t) as Hc.
    unfold IndexStr. by destruct (String a sep +:+ t) eqn:He; rewrite Hc.
  - change (String x s +:+ ?t) with (String x (s +:+ t)). cbn [has_byte] in Hs. apply orb_false_iff in Hs as [Hx Hs].
    apply is_byte_ne in Hx. cbn [IndexStr CutPrefix]. destruct (ascii_dec a x); [congruence |]. by rewrite IH.
Qed.

Lemma SplitStr_two a sep s t : has_byte a s = false → has_byte a t = false →
  SplitStr (String a sep) (s +:+ (String a sep +:+ t)) = [s; t].
Proof.
  intros Hs Ht. unfold SplitStr. rewrite !string_length_app.
  replace (_ + _)%nat with (S (String.length s + String.length sep + String.length t)) by (simpl; lia).
  cbn [SplitStr_loop]. rewrite IndexStr_app by done. f_equal; [apply stake_app |].
  rewrite string_app_assoc, <- (string_length_app s (String a sep)), sdrop_app.
  destruct (_ + _)%nat; [done |]. cbn [SplitStr_loop]. by rewrite IndexStr_none.
Qed.

(** The removal of a thumbnail reads in its name what its making wrote. *)
Lemma parse_thumb_key e f w h : tag_text e → f ∈ formats → size_ok w h → parse_thumb (thumb_key e f w h) = (f, w, h).
Proof.
  intros He Hf Hok. pose proof (thumb_file_slash f w h Hf Hok) as Hfs. pose proof Hok as [Hw Hh].
  assert (has_byte "." f = false ∧ TrimByteLeft "." (TrimByteRight "." (String "." f)) = f) as [Hfd Hft].
  { unfold formats in Hf. by repeat (apply elem_of_cons in Hf as [-> | Hf]); [.. | apply elem_of_nil in Hf]. }
  assert (path_Base (thumb_key e f w h) = thumb_file f w h) as Hb.
  { rewrite thumb_key_text by done. unfold path_Base. change (String.eqb ("openim/thumbnail/" +:+ ?s) "") with false.
    cbv beta match. rewrite string_app_assoc. change (String "/" ?s) with ("/" +:+ s). rewrite string_app_assoc.
    rewrite TrimByteRight_app by first [by apply TrimByteRight_none | discriminate].
    rewrite <- string_app_assoc. change ("/" +:+ ?s) with (String "/" s). by rewrite after_slash_app. }
  unfold parse_thumb. rewrite Hb. unfold path_Ext. rewrite after_slash_none by done.
  rewrite thumb_file_stem, LastIndexByte_app by done. rewrite sdrop_app, TrimSuffix_app. unfold thumb_stem, TrimPrefix.
  rewrite CutPrefix_app. simpl default. change (String "_" (String "h" (Itoa h))) with (String "_" "h" +:+ Itoa h).
  rewrite (SplitStr_two "_" "h" (Itoa w) (Itoa h)) by (by apply Itoa_digits). by rewrite Hft, !ParseInt64_Itoa.
Qed.

Lemma string_app_inj_r a b c : a +:+ c = b +:+ c → a = b.
Proof.
  intros Heq. rewrite <- (stake_app a c), <- (stake_app b c).
  assert (String.length a = String.length b) as ->; [| by rewrite Heq].
  apply (f_equal String.length) in Heq. rewrite !string_length_app in Heq. lia.
Qed.

(** A name is of one thumbnail. *)
Lemma thumb_key_inj e1 e2 f1 f2 w1 w2 h1 h2 :
  tag_text e1 → tag_text e2 → f1 ∈ formats → f2 ∈ formats → size_ok w1 h1 → size_ok w2 h2 →
  thumb_key e1 f1 w1 h1 = thumb_key e2 f2 w2 h2 → e1 = e2 ∧ f1 = f2 ∧ w1 = w2 ∧ h1 = h2.
Proof.
  intros He1 He2 Hf1 Hf2 H1 H2 Hk. pose proof (parse_thumb_key e1 f1 w1 h1 He1 Hf1 H1) as Hp.
  rewrite Hk, parse_thumb_key in Hp by done. injection Hp as -> -> ->. split; [| done].
  rewrite !thumb_key_text in Hk by done. by apply (inj _), string_app_inj_r in Hk.
Qed.

(** * What is relied on *)

(** The bucket is a map of objects; an operation that fails has had its effect or not. *)
Class BucketLaws (B : Type) `{!Bucket B} : Prop := {
  stat_view n b e sz : Stat n b = inl (e, sz) →
    ∃ d, view b !! n = Some d ∧ e = etag_of d ∧ sz = Z.of_nat (String.length d);
  data_view n b d : GetData n b = inl d → view b !! n = Some d;
  put_view n d b : (PutObject n d b).2 = None → view (PutObject n d b).1 = <[n := d]> (view b);
  put_fails n d b : view (PutObject n d b).1 = view b ∨ view (PutObject n d b).1 = <[n := d]> (view b);
  remove_view n b : (RemoveObject n b).2 = None → view (RemoveObject n b).1 = delete n (view b);
  remove_fails n b : view (RemoveObject n b).1 = view b ∨ view (RemoveObject n b).1 = delete n (view b);
  list_view p b n s : n = p +:+ s → has_byte "/" s = false → is_Some (view b !! n) →
    inl n ∈ ListObjects p b ∨ ∃ e, inr e ∈ ListObjects p b;
  list_prefix p b n : inl n ∈ ListObjects p b → ∃ s, n = p +:+ s;
  etag_text d : tag_text (etag_of d)
}.

(** The cache holds what was put for a key and not deleted, or less. *)
Class CacheLaws (C : Type) `{!Cache C} : Prop := {
  info_put_hit n n' i j c : info_hit n (info_put n' i c) = Some j → n = n' ∧ j = i ∨ info_hit n c = Some j;
  info_put_thumb n f w h n' i c k : thumb_hit n f w h (info_put n' i c) = Some k → thumb_hit n f w h c = Some k;
  thumb_put_hit n f w h n' f' w' h' k k' c : thumb_hit n f w h (thumb_put n' f' w' h' k' c) = Some k →
    (n = n' ∧ f = f' ∧ w = w' ∧ h = h') ∧ k = k' ∨ thumb_hit n f w h c = Some k;
  thumb_put_info n n' f w h k i c : info_hit n (thumb_put n' f w h k c) = Some i → info_hit n c = Some i;
  info_del_hit n n' c i : info_hit n (DelObjectImageInfoKey n' c).1 = Some i → info_hit n c = Some i;
  info_del_thumb n f w h n' c k : thumb_hit n f w h (DelObjectImageInfoKey n' c).1 = Some k → thumb_hit n f w h c = Some k;
  thumb_del_hit n f w h n' f' w' h' c k :
    thumb_hit n f w h (DelImageThumbnailKey n' f' w' h' c).1 = Some k → thumb_hit n f w h c = Some k;
  thumb_del_gone n f w h c : (DelImageThumbnailKey n f w h c).2 = None →
    thumb_hit n f w h (DelImageThumbnailKey n f w h c).1 = None;
  thumb_del_info n n' f w h c i : info_hit n (DelImageThumbnailKey n' f w h c).1 = Some i → info_hit n c = Some i
}.

(** Decoded images have sizes of [int]. *)
Class CodecsLaws `{!Codecs} : Prop :=
  decode_size d img f : Decode d = Some (img, f) → size_ok (Wd img) (Ht img).

Section laws.
Context {B C : Type} `{!Bucket B} `{!BucketLaws B} `{!Cache C} `{!CacheLaws C} `{!Codecs} `{!CodecsLaws}
  (publicRead : bool) (prefix : string).

(** The objects of users: those outside the directory of thumbnails. *)
Definition user (n : string) : Prop := CutPrefix "openim/thumbnail/" n = None.

Lemma thumb_key_not_user e f w h : tag_text e → f ∈ formats → size_ok w h → ¬ user (thumb_key e f w h).
Proof. intros ????. rewrite thumb_key_text in * by done. unfold user in *. by rewrite CutPrefix_app in *. Qed.

(** Names stand for contents, as those that are hashes do. *)
Context (content : string → string).

Definition made (d f : string) (w h : Z) (t : string) : Prop :=
  ∃ img f0, Decode d = Some (img, f0) ∧ Encode f (resizeImage RGBA img w h) = Some t.

Record images_inv (b : B) (c : C) : Prop := {
  ii_content n d : user n → view b !! n = Some d → d = content n;
  ii_info n i : user n → info_hit n c = Some i → i = info_of (B := B) (content n);
  ii_thumb n f w h k : user n → thumb_hit n f w h c = Some k →
    f ∈ formats ∧ size_ok w h ∧ k = thumb_key (etag_of (content n)) f w h ∧
    ∃ t, view b !! k = Some t ∧ made (content n) f w h t
}.

(** The image is what its object decodes to. *)
Lemma getObjectImageInfo_spec a n b i img : getObjectImageInfo a n b = inl (i, img) →
  ∃ d, view b !! n = Some d ∧ i = info_of (B := B) d ∧ img = (fst <$> Decode d).
Proof.
  unfold getObjectImageInfo. destruct (Stat n b) as [[e sz]|] eqn:Hs; [| done].
  destruct (stat_view _ _ _ _ Hs) as (d & Hd & -> & ->). destruct (_ <? _); [done |].
  destruct (GetData n b) as [d'|] eqn:Hg; [| done]. apply data_view in Hg. rewrite Hd in Hg. injection Hg as <-.
  rewrite Nat2Z.id. assert (stake (String.length d) d = d) as ->.
  { clear. induction d as [|x d IH]; [done |]. simpl. by rewrite IH. }
  intros Hr. exists d. split; [done |]. unfold info_of. by destruct (Decode d) as [[im f]|]; injection Hr as <- <-.
Qed.

Lemma info_of_tag d : Etag (info_of (B := B) d) = etag_of d.
Proof. unfold info_of. destruct (etag_text d) as (_ & _ & _ & Hl). by destruct (Decode d) as [[]|]. Qed.

(** The options that a thumbnail is made for. *)
Lemma adjust_ok d opt : IsImg (info_of (B := B) d) = true →
  let o := adjust (info_of (B := B) d) opt in
  ImgFormat o ∈ formats ∧ size_ok (ImgWidth o) (ImgHeight o) ∧
  ImgWidth o ≤ Width (info_of (B := B) d) ∧ ImgHeight o ≤ Height (info_of (B := B) d).
Proof.
  unfold info_of, adjust. destruct (Decode d) as [[img f]|] eqn:Hd; [intros _ | done]. simpl.
  destruct (decode_size _ _ _ Hd) as [Hw Hh]. split.
  - unfold thumb_format. case_bool_decide; [done |]. by left.
  - unfold size_ok in *. repeat case_match; simpl in *; lia.
Qed.

(** What an insertion into the bucket keeps. *)
Lemma images_inv_put b b' c k t : images_inv b c → ¬ user k →
  (∀ n f w h, user n → thumb_hit n f w h c = Some k → made (content n) f w h t) →
  view b' = view b ∨ view b' = <[k := t]> (view b) → images_inv b' c.
Proof.
  intros [H1 H2 H3] Hk Hm [Hv | Hv]; [split; [by rewrite Hv | done | by rewrite Hv] |]. split; [| done |].
  - intros n d Hn. rewrite Hv, lookup_insert_ne by (by intros ->). by apply H1.
  - intros n f w h k' Hn Ht. destruct (H3 _ _ _ _ _ Hn Ht) as (? & ? & Hke & t' & ? & ?).
    rewrite Hv. split_and!; [done.. |]. destruct (decide (k = k')) as [<- | Hne].
    + exists t. rewrite lookup_insert_eq. split; [done |]. by apply Hm.
    + exists t'. by rewrite lookup_insert_ne.
Qed.

Lemma images_inv_cache b c c' : images_inv b c →
  (∀ n i, info_hit n c' = Some i → info_hit n c = Some i) →
  (∀ n f w h k, thumb_hit n f w h c' = Some k → thumb_hit n f w h c = Some k) → images_inv b c'.
Proof. intros [H1 H2 H3] Hi Ht. split; [done | eauto..]. Qed.

(** The object that is served for an image. *)
Definition served (n d : string) (opt : Image) (b' : B) (key ty : string) : Prop :=
  ∃ img f, Decode d = Some (img, f) ∧ let o := adjust (info_of (B := B) d) opt in
    0 ≤ ImgWidth o ≤ Wd img ∧ 0 ≤ ImgHeight o ≤ Ht img ∧
    (key = n ∧ ty = "image/" +:+ f ∧ ImgWidth o = Wd img ∧ ImgHeight o = Ht img ∧ ImgFormat o = f ∨
     ty = "image/" +:+ ImgFormat o ∧ ∃ t, view b' !! key = Some t ∧
       Encode (ImgFormat o) (resizeImage RGBA img (ImgWidth o) (ImgHeight o)) = Some t).

Hypothesis tags : ∀ n1 n2, user n1 → user n2 → etag_of (content n1) = etag_of (content n2) → n1 = n2.

Lemma GetImageObjectKeyInfo_spec a n b c : user n → images_inv b c →
  let '(c', r) := GetImageObjectKeyInfo a n b c in
  images_inv b c' ∧
  (∀ i img, r = inl (i, img) → i = info_of (B := B) (content n) ∧ ∀ im, img = Some im → fst <$> Decode (content n) = Some im).
Proof.
  intros Hn Hi. unfold GetImageObjectKeyInfo. destruct (info_hit n c) as [i|] eqn:Hh.
  - split; [done |]. intros i' img [= <- <-]. split; [by eapply ii_info | done].
  - destruct (getObjectImageInfo a n b) as [[i img]|e] eqn:Hg; [| done].
    apply getObjectImageInfo_spec in Hg as (d & Hd & -> & ->).
    pose proof (ii_content _ _ Hi _ _ Hn Hd) as ->. split.
    + destruct Hi as [H1 H2 H3]. split; [done | |].
      * intros n' j Hn' [[-> ->] | Hj]%info_put_hit; [done | by apply H2].
      * intros n' f w h k Hn' Hk%info_put_thumb. by apply H3.
    + intros i' img' [= <- <-]. done.
Qed.

Lemma make_thumbnail_spec a n img f w h b c : user n → images_inv b c → f ∈ formats → size_ok w h →
  (∀ im, img = Some im → fst <$> Decode (content n) = Some im) →
  let '(b', r) := make_thumbnail a n (info_of (B := B) (content n)) img f w h b in
  images_inv b' c ∧
  (∀ k, r = inl k → k = thumb_key (etag_of (content n)) f w h ∧ ∃ t, view b' !! k = Some t ∧ made (content n) f w h t).
Proof.
  intros Hn Hi Hf Hok Himg. unfold make_thumbnail. rewrite info_of_tag.
  set (src := match img with Some im => inl im | None => _ end).
  assert (∀ im, src = inl im → ∃ f0, Decode (content n) = Some (im, f0)) as Hsrc.
  { intros im Hs. subst src. destruct img as [im'|].
    - injection Hs as ->. specialize (Himg im eq_refl). apply fmap_Some in Himg as ([im' f0] & Hd & ->). by exists f0.
    - destruct (GetData n b) as [d|] eqn:Hg; [| done]. apply data_view in Hg.
      rewrite (ii_content _ _ Hi _ _ Hn Hg) in Hs. destruct (Decode (content n)) as [[im' f0]|]; [| done].
      injection Hs as ->. by exists f0. }
  destruct src as [im|e]; [| done]. destruct (Hsrc im eq_refl) as [f0 Hd].
  destruct (Encode f _) as [buf|] eqn:He; [| done]. set (k := thumb_key _ _ _ _).
  pose proof (put_view k buf b) as Hput. pose proof (put_fails k buf b) as Hfails.
  assert (images_inv (PutObject k buf b).1 c) as Hi'.
  { apply (images_inv_put b _ c k buf); [done | by apply thumb_key_not_user; [apply etag_text |..] | | done].
    intros n' f' w' h' Hn' Hh'. destruct (ii_thumb _ _ Hi _ _ _ _ _ Hn' Hh') as (Hf' & Hok' & Hk & _).
    apply thumb_key_inj in Hk as (Ht & <- & <- & <-); [| apply etag_text | apply etag_text | done..].
    apply tags in Ht as <-; [by exists im, f0 | done..]. }
  destruct (PutObject k buf b) as [b' [e|]]; simpl in *; [done |].
  split; [done |]. intros k' [= <-]. split; [done |]. exists buf. rewrite Hput by done. rewrite lookup_insert_eq.
  split; [done |]. by exists im, f0.
Qed.

Lemma thumbnail_target_spec a n opt b c : user n → images_inv b c →
  let '(b', c', _, r) := thumbnail_target a n opt b c in
  images_inv b' c' ∧ (∀ key ty, r = inl (key, ty) → served n (content n) opt b' key ty).
Proof.
  intros Hn Hi. unfold thumbnail_target. pose proof (GetImageObjectKeyInfo_spec a n b c Hn Hi) as Hg.
  destruct (GetImageObjectKeyInfo a n b c) as [c1 [[i img]|e]]; [| by destruct Hg].
  destruct Hg as [Hi1 Hg]. destruct (Hg i img eq_refl) as [-> Himg]. clear Hg.
  destruct (IsImg (info_of (content n))) eqn:Hisimg; [| done]. cbn [negb].
  destruct (adjust_ok (content n) opt Hisimg) as (Hf & Hok & Hw & Hh).
  assert (∃ img f, Decode (content n) = Some (img, f) ∧ info_of (B := B) (content n) = MkImageInfo true (Wd img) (Ht img) f (etag_of (content n)))
    as (im & f0 & Hd & Hinfo).
  { pose proof (info_of_tag (content n)) as Htag. revert Hisimg Htag. unfold info_of.
    destruct (Decode (content n)) as [[im f0]|]; [| done]. simpl. intros _ ->. by exists im, f0. }
  assert (∀ b' key ty,
    (key = n ∧ ty = "image/" +:+ f0 ∧ ImgWidth (adjust (info_of (B := B) (content n)) opt) = Wd im ∧
      ImgHeight (adjust (info_of (B := B) (content n)) opt) = Ht im ∧ ImgFormat (adjust (info_of (B := B) (content n)) opt) = f0 ∨
     ty = "image/" +:+ ImgFormat (adjust (info_of (B := B) (content n)) opt) ∧ ∃ t, view b' !! key = Some t ∧
       Encode (ImgFormat (adjust (info_of (B := B) (content n)) opt)) (resizeImage RGBA im
         (ImgWidth (adjust (info_of (B := B) (content n)) opt)) (ImgHeight (adjust (info_of (B := B) (content n)) opt))) = Some t) →
    served n (content n) opt b' key ty) as Hserved.
  { intros b' key ty Hcase. exists im, f0. split; [done |]. cbv zeta. destruct Hok.
    assert (Width (info_of (B := B) (content n)) = Wd im ∧ Height (info_of (B := B) (content n)) = Ht im) as [HW HH] by (by rewrite Hinfo).
    rewrite <- HW, <- HH. split; [lia |]. split; [lia |]. by rewrite HW, HH. }
  revert Hf Hok Hserved. set (o := adjust (info_of (B := B) (content n)) opt). intros Hf Hok Hserved.
  destruct (_ && _ && _) eqn:Hsame.
  - split; [done |]. intros key ty [= <- <-]. apply Hserved. left. rewrite Hinfo in *. simpl in *.
    apply andb_true_iff in Hsame as [[->%Z.eqb_eq ->%Z.eqb_eq]%andb_true_iff [->%String.eqb_eq | Hempty%String.eqb_eq]%orb_true_iff]; [done |].
    exfalso. rewrite Hempty in Hf. unfold formats in Hf. set_solver.
  - destruct (thumb_hit n _ _ _ c1) as [key|] eqn:Hhit.
    + split; [done |]. intros key' ty [= <- <-]. apply Hserved. right. split; [done |].
      destruct (ii_thumb _ _ Hi1 _ _ _ _ _ Hn Hhit) as (_ & _ & -> & t & Ht & im' & f' & Hd' & He).
      rewrite Hd in Hd'. injection Hd' as <- <-. by exists t.
    + pose proof (make_thumbnail_spec a n img (ImgFormat o) (ImgWidth o) (ImgHeight o) b c1 Hn Hi1 Hf Hok Himg) as Hm.
      destruct (make_thumbnail _ _ _ _ _ _ _ _) as [b' [key|e]]; [| by destruct Hm]. destruct Hm as [Hi' Hm].
      destruct (Hm key eq_refl) as (-> & t & Ht & Hmade). split.
      * destruct Hi' as [H1 H2 H3]. split; [done | by intros n' i Hn' Hi'%thumb_put_info; apply H2 |].
        intros n' f w h k Hn' [[(-> & -> & -> & ->) ->] | Hk]%thumb_put_hit; [| by apply H3]. split_and!; [done.. |]. by exists t.
      * intros key ty [= <- <-]. apply Hserved. right. split; [done |]. exists t. split; [done |].
        destruct Hmade as (im' & f' & Hd' & He). rewrite Hd in Hd'. by injection Hd' as <- <-.
Qed.

(** ** Removal *)

Lemma images_inv_remove b b' c k : images_inv b c →
  (∀ n f w h, user n → thumb_hit n f w h c ≠ Some k) → view b' = view b ∨ view b' = delete k (view b) → images_inv b' c.
Proof.
  intros [H1 H2 H3] Hk [Hv | Hv]; [split; [by rewrite Hv | done | by rewrite Hv] |]. split; [| done |].
  - intros n d Hn. rewrite Hv. intros [_ Hd]%lookup_delete_Some. by apply H1.
  - intros n f w h k' Hn Hh. rewrite Hv. destruct (H3 _ _ _ _ _ Hn Hh) as (? & ? & ? & t & ? & ?).
    split_and!; [done.. |]. exists t. rewrite lookup_delete_ne; [done |]. intros ->. by eapply Hk.
Qed.

(** The directory of the thumbnails of an object. *)
Definition thumb_dir (e : string) : string := "openim/thumbnail/" +:+ (e +:+ "/").

Lemma thumb_dir_listed e : tag_text e →
  (let p := path_Join [imageThumbnailPath; e] in if String.eqb (TrimSuffix p "/") p then p +:+ "/" else p) = thumb_dir e.
Proof.
  intros (He & Hs & Hd & _).
  assert (path_Join [imageThumbnailPath; e] = "openim/thumbnail/" +:+ e) as ->.
  { unfold path_Join. rewrite (filter_cons_True _ imageThumbnailPath) by discriminate.
    rewrite (filter_cons_True _ e) by done. rewrite filter_nil.
    change (Join "/" [imageThumbnailPath; e]) with ("openim" +:+ String "/" ("thumbnail" +:+ String "/" e)).
    change ("openim" +:+ ?s) with (String "o" ("penim" +:+ s)). rewrite Clean_relative by discriminate.
    change (String "o" ("penim" +:+ ?s)) with ("openim" +:+ s).
    rewrite !Split_cons, Split_single by done. rewrite !clean_elems_keep by (done || (intros ->; by vm_compute in Hd)).
    cbv zeta. rewrite bool_decide_false by discriminate. reflexivity. }
  cbv zeta. assert (TrimSuffix ("openim/thumbnail/" +:+ e) "/" = "openim/thumbnail/" +:+ e) as ->.
  { unfold TrimSuffix. destruct (String.eqb_spec (sdrop (String.length ("openim/thumbnail/" +:+ e) - String.length "/") ("openim/thumbnail/" +:+ e)) "/") as [Hslash |];
      [| by rewrite andb_false_r].
    exfalso. rewrite string_length_app in Hslash.
    replace (_ - _)%nat with (String.length "openim/thumbnail/" + (String.length e - 1))%nat in Hslash
      by (destruct e; [done | simpl; lia]).
    rewrite sdrop_add, sdrop_app in Hslash. clear -Hs Hslash.
    assert (∀ m s, has_byte "/" s = false → sdrop m s ≠ "/") as Hno; [| by eapply Hno].
    clear. intros m. induction m as [|m IH]; intros s Hs; simpl; [by intros -> |]. destruct s as [|x s]; [done |].
    simpl in Hs. apply orb_false_iff in Hs as [_ Hs]. by apply IH. }
  by rewrite String.eqb_refl, <- string_app_assoc.
Qed.

(** A thumbnail in the directory of a tag is of this tag. *)
Lemma thumb_dir_inj e e' s f w h : tag_text e → tag_text e' → f ∈ formats → size_ok w h →
  thumb_dir e +:+ s = thumb_key e' f w h → e = e'.
Proof.
  intros (_ & He & _) He' Hf Hok. rewrite thumb_key_text by done. unfold thumb_dir. rewrite <- string_app_assoc.
  intros Heq%(inj _). destruct He' as (_ & He' & _). rewrite <- string_app_assoc in Heq.
  change ("/" +:+ s) with (String "/" s) in Heq.
  pose proof (IndexByte_app "/" e s He) as H1. rewrite Heq, IndexByte_app in H1 by done. injection H1 as H1.
  rewrite <- (stake_app e (String "/" s)), Heq, <- H1. apply stake_app.
Qed.

Lemma clear_loop_spec n first keys b c : user n → images_inv b c →
  (∀ k, inl k ∈ keys → ∃ s, k = thumb_dir (etag_of (content n)) +:+ s) →
  let '(b', c', r) := clear_loop n (etag_of (content n)) first keys b c in
  images_inv b' c' ∧
  (∀ k, inl k ∉ keys → view b' !! k = view b !! k) ∧
  (∀ k, view b' !! k = None ∨ view b' !! k = view b !! k) ∧
  (r = None → (∀ e, inr e ∉ keys) ∧ ∀ k, inl k ∈ keys → view b' !! k = None).
Proof.
  intros Hn. revert first b c. induction keys as [|[k|e] keys IH]; intros first b c Hi Hkeys; cbn [clear_loop].
  - split_and!; [done | done | by right |]. intros _. split; set_solver.
  - destruct (Hkeys k ltac:(by left)) as [s Hk]. set (ci := if first then _ else _).
    assert (images_inv b ci.1) as Hi1.
    { subst ci. destruct first; [done |]. apply (images_inv_cache b c); [done | by intros ?? ?%info_del_hit | by intros ????? ?%info_del_thumb]. }
    destruct ci as [c1 [e|]]; simpl in Hi1; [split_and!; [done | done | by right | done] |].
    unfold deleteThumbnailCache. destruct (parse_thumb k) as [[f w] h] eqn:Hp.
    pose proof (thumb_del_gone n f w h c1) as Hgone.
    assert (images_inv b (DelImageThumbnailKey n f w h c1).1) as Hi2
      by (apply (images_inv_cache b c1); [done | by intros ?? ?%thumb_del_info | by intros ????? ?%thumb_del_hit]).
    destruct (DelImageThumbnailKey n f w h c1) as [c2 [e|]]; simpl in Hgone, Hi2; [split_and!; [done | done | by right | done] |].
    assert (∀ n' f' w' h', user n' → thumb_hit n' f' w' h' c2 ≠ Some k) as Hno.
    { intros n' f' w' h' Hn' Hh'. destruct (ii_thumb _ _ Hi2 _ _ _ _ _ Hn' Hh') as (Hf' & Hok' & Hk' & _).
      assert (n' = n) as ->.
      { apply tags; [done | done |]. symmetry. eapply thumb_dir_inj; [apply etag_text | apply etag_text | exact Hf' | exact Hok' |].
        by rewrite <- Hk, <- Hk'. }
      rewrite Hk', parse_thumb_key in Hp by (done || apply etag_text). injection Hp as -> -> ->. by rewrite Hgone in Hh'. }
    pose proof (remove_view k b) as Hrm. pose proof (remove_fails k b) as Hrf.
    pose proof (images_inv_remove b (RemoveObject k b).1 c2 k Hi2 Hno Hrf) as Hi3.
    destruct (RemoveObject k b) as [b1 [e|]]; simpl in *.
    + split_and!; [done | | | done].
      * intros k' Hk'. destruct Hrf as [-> | ->]; [done |]. rewrite lookup_delete_ne; [done |]. set_solver.
      * intros k'. destruct Hrf as [-> | ->]; [by right |]. destruct (decide (k = k')) as [<- |];
          [left; by rewrite lookup_delete_eq | right; by rewrite lookup_delete_ne].
    + specialize (IH true b1 c2 Hi3 ltac:(intros k' Hk'; apply Hkeys; by right)).
      destruct (clear_loop n _ true keys b1 c2) as [[b' c'] r]. destruct IH as (I1 & I2 & I3 & I4).
      rewrite (Hrm eq_refl) in I2, I3. split_and!; [done | | |].
      * intros k' Hk'. rewrite I2 by set_solver. rewrite lookup_delete_ne; [done |]. set_solver.
      * intros k'. destruct (I3 k') as [? | ->]; [by left |]. destruct (decide (k = k')) as [<- |];
          [left; by rewrite lookup_delete_eq | right; by rewrite lookup_delete_ne].
      * intros Hr. destruct (I4 Hr) as [I5 I6]. split; [set_solver |].
        intros k' [[= ->] | Hk']%elem_of_cons; [| by apply I6].
        destruct (I3 k) as [? | ->]; [done | by rewrite lookup_delete_eq].
  - split_and!; [done | done | by right | done].
Qed.

Lemma DeleteObject_spec stop n b c : user n → images_inv b c →
  let '(b', c', r) := DeleteObject stop n b c in
  images_inv b' c' ∧
  (∀ k, k ≠ n → (∀ s, k ≠ thumb_dir (etag_of (content n)) +:+ s) → view b' !! k = view b !! k) ∧
  (r = None → is_Some (view b !! n) → (∃ x, Stat n b = inl x) →
     view b' !! n = None ∧
     ∀ f w h, f ∈ formats → size_ok w h → view b' !! thumb_key (etag_of (content n)) f w h = None).
Proof.
  intros Hn Hi. unfold DeleteObject. destruct (Stat n b) as [[e sz]|e] eqn:Hs;
    [| split_and!; [done | done | intros _ _ [x [=]]]].
  destruct (stat_view _ _ _ _ Hs) as (d & Hd & -> & _). pose proof (ii_content _ _ Hi _ _ Hn Hd) as ->.
  unfold clearObjectImageInfoKey. pose proof (thumb_dir_listed (etag_of (content n)) (etag_text _)) as Hdir.
  cbv zeta in Hdir. rewrite Hdir. set (dir := thumb_dir _).
  set (keys := match stop with Some _ => _ | None => _ end).
  assert (∀ k, inl k ∈ keys → ∃ s, k = dir +:+ s) as Hkeys.
  { intros k Hk. apply (list_prefix _ b). subst keys. destruct stop as [[m e]|]; [| done].
    apply elem_of_app in Hk as [Hk | Hk]; [by eapply elem_of_take in Hk as (? & ? & _); apply list_elem_of_lookup; eexists | set_solver]. }
  pose proof (clear_loop_spec n false keys b c Hn Hi Hkeys) as Hc.
  destruct (clear_loop n _ false keys b c) as [[b1 c1] r]. destruct Hc as (C1 & C2 & C3 & C4).
  destruct r as [e|].
  - split_and!; [done | | done]. intros k _ Hk. apply C2. intros Hin. destruct (Hkeys _ Hin) as [s ->]. by eapply Hk.
  - destruct (C4 eq_refl) as [C5 C6]. pose proof (remove_view n b1) as Hrm. pose proof (remove_fails n b1) as Hrf.
    assert (images_inv (RemoveObject n b1).1 c1) as Hi2.
    { apply (images_inv_remove b1 _ c1 n); [done | | done]. intros n' f w h Hn' Hh.
      destruct (ii_thumb _ _ C1 _ _ _ _ _ Hn' Hh) as (Hf & Hok & Hk & _).
      apply (thumb_key_not_user (etag_of (content n')) f w h); [apply etag_text | done | done | by rewrite <- Hk]. }
    destruct (RemoveObject n b1) as [b2 r]. simpl in *. split_and!; [done | |].
    + intros k Hkn Hk. assert (view b1 !! k = view b !! k) as <-.
      { apply C2. intros Hin. destruct (Hkeys _ Hin) as [s ->]. by eapply Hk. }
      destruct Hrf as [-> | ->]; [done | by rewrite lookup_delete_ne].
    + intros -> _ _. rewrite (Hrm eq_refl). split; [by rewrite lookup_delete_eq |]. intros f w h Hf Hok.
      apply lookup_delete_None. right. set (k := thumb_key _ _ _ _).
      destruct (view b !! k) as [t|] eqn:Ht; [| by destruct (C3 k) as [? | ->]].
      assert (k = dir +:+ thumb_file f w h) as Htext.
      { subst k. rewrite thumb_key_text by (done || apply etag_text). unfold dir, thumb_dir. by rewrite <- !string_app_assoc. }
      destruct (list_view dir b _ _ Htext (thumb_file_slash f w h Hf Hok) ltac:(by eexists)) as [Hin | [e He]].
      * apply C6. subst keys. destruct stop as [[m e]|]; [exfalso; apply (C5 e); set_solver | done].
      * exfalso. subst keys. destruct stop as [[m e']|]; [apply (C5 e'); set_solver | by apply (C5 e)].
Qed.

(** ** Whatever is done with the images *)

Inductive image_op :=
| Upload (n : string)
| Complete (n : string) (size : Z)
| Access (a : nat) (n : string) (expire : Z) (opt : option AccessURLOption)
| Remove (stop : option (nat * goerr)) (n : string).

Definition op_name (o : image_op) : string :=
  match o with Upload n | Complete n _ | Access _ n _ _ | Remove _ n => n end.

Definition image_exec (s : B * C) (o : image_op) : B * C :=
  let '(b, c) := s in
  match o with
  | Upload n => ((PutObject n (content n) b).1, c)
  | Complete n size => ((PutObject n (content n) b).1, delObjectImageInfoKey n size c)
  | Access a n expire opt =>
      match AccessURL publicRead prefix a n expire opt b c with Ret (b, c, _, _) => (b, c) | Panic _ => (b, c) end
  | Remove stop n => let '(b, c, _) := DeleteObject stop n b c in (b, c)
  end.

Lemma upload_inv n b c : user n → images_inv b c → images_inv (PutObject n (content n) b).1 c.
Proof.
  intros Hn Hi. destruct (put_fails n (content n) b) as [Hv | Hv]; destruct Hi as [H1 H2 H3].
  - split; [by rewrite Hv | done | by rewrite Hv].
  - split; [| done |].
    + intros n' d Hn'. rewrite Hv, lookup_insert_Some. intros [[<- <-] | [_ Hd]]; [done | by apply H1].
    + intros n' f w h k Hn' Hh. rewrite Hv. destruct (H3 _ _ _ _ _ Hn' Hh) as (Hf & Hok & -> & t & Ht & Hm).
      split_and!; [done.. |]. exists t. rewrite lookup_insert_ne; [done |]. intros ->.
      by eapply thumb_key_not_user; [apply etag_text | exact Hf | exact Hok |].
Qed.

Lemma image_exec_inv o s : user (op_name o) → images_inv s.1 s.2 → images_inv (image_exec s o).1 (image_exec s o).2.
Proof.
  destruct s as [b c]. intros Hn Hi. destruct o as [n | n size | a n expire opt | stop n]; simpl in *.
  - by apply upload_inv.
  - apply (images_inv_cache _ c); [by apply upload_inv | |]; unfold delObjectImageInfoKey; intros *; case_match; try done.
    + apply info_del_hit.
    + apply info_del_thumb.
  - unfold AccessURL. destruct opt as [opt|]; [| done]. simpl.
    destruct (Image_ (clear_option opt)) as [i|]; [| done].
    match goal with |- context [if ?x then _ else _] => destruct x end; [done |].
    unfold getImageThumbnailURL. pose proof (thumbnail_target_spec a n i b c Hn Hi) as Ht.
    destruct (thumbnail_target a n i b c) as [[[b' c'] o'] [[key ty]|e]]; by destruct Ht.
  - pose proof (DeleteObject_spec stop n b c Hn Hi) as Hd. destruct (DeleteObject stop n b c) as [[b' c'] r]. by destruct Hd.
Qed.

Lemma image_run_inv os s : Forall (λ o, user (op_name o)) os → images_inv s.1 s.2 →
  images_inv (fold_left image_exec os s).1 (fold_left image_exec os s).2.
Proof.
  intros Hos. revert s. induction Hos as [|o os Ho _ IH]; intros s Hi; [done |]. simpl. apply IH. by apply image_exec_inv.
Qed.

(** * Properties *)

(** C10. Thumbnails are of their images.  Objects are uploaded under names that stand for
    their content, no two of the names for content with the same entity tag (with such
    names a cached thumbnail can be gone, [thumbnails_dangle]), images are accessed with any options, and objects are removed, with
    failures of the bucket and the cache and contexts that end anywhere in between, and a
    cache that may forget.  Then what is served for an object that is an image is the
    object itself, when it has the size and the format asked for, or a thumbnail that is
    in the bucket and that encodes, in this format, the content of the object resized;
    sizes are at most those of the image.  A removal that reports success removes the
    object and every thumbnail of it, no entry of the cache names one any more, and no
    other object is touched. *)
Theorem thumbnails_sound os b0 c0 b c :
  (∀ n d, user n → view b0 !! n = Some d → d = content n) →
  (∀ n, info_hit n c0 = None) → (∀ n f w h, thumb_hit n f w h c0 = None) →
  Forall (λ o, user (op_name o)) os →
  fold_left image_exec os (b0, c0) = (b, c) →
  (∀ a n opt b' c' o key ty, user n →
     thumbnail_target a n opt b c = (b', c', o, inl (key, ty)) → served n (content n) opt b' key ty) ∧
  (∀ stop n x b' c', user n → Stat n b = inl x → DeleteObject stop n b c = (b', c', None) →
     view b' !! n = None ∧
     (∀ f w h, f ∈ formats → size_ok w h → view b' !! thumb_key (etag_of (content n)) f w h = None) ∧
     (∀ f w h, thumb_hit n f w h c' = None) ∧
     (∀ k, k ≠ n → (∀ s, k ≠ thumb_dir (etag_of (content n)) +:+ s) → view b' !! k = view b !! k)).
Proof.
  intros Hb0 Hc1 Hc2 Hos Hrun.
  assert (images_inv b c) as Hi.
  { pose proof (image_run_inv os (b0, c0) Hos) as Hr. rewrite Hrun in Hr. apply Hr. split; simpl; [done | |].
    - intros n i _. by rewrite Hc1.
    - intros n f w h k _. by rewrite Hc2. }
  split.
  - intros a n opt b' c' o key ty Hn Ht. pose proof (thumbnail_target_spec a n opt b c Hn Hi) as Hs.
    rewrite Ht in Hs. by apply Hs.
  - intros stop n x b' c' Hn Hx Hd. pose proof (DeleteObject_spec stop n b c Hn Hi) as Hs. rewrite Hd in Hs.
    destruct Hs as (Hi' & Hframe & Hs). destruct x as [e sz].
    destruct (stat_view _ _ _ _ Hx) as (d & Hv & _ & _).
    destruct (Hs eq_refl ltac:(by eexists) ltac:(by eexists)) as [Hgone Hthumbs]. split_and!; [done | done | | done].
    intros f w h. destruct (thumb_hit n f w h c') as [k|] eqn:Hk; [exfalso | done].
    destruct (ii_thumb _ _ Hi' _ _ _ _ _ Hn Hk) as (Hf & Hok & -> & t & Ht & _). by rewrite Hthumbs in Ht.
Qed.
End laws.

(** ** An example *)

Record demo_cache := MkDemo { demo_infos : gmap string ImageInfo; demo_thumbs : gmap (string * string * Z * Z) string }.

#[local] Instance demo_Bucket : Bucket (gmap string string) := {
  view b := b;
  etag_of d := "e" +:+ digits (encode d);
  Stat n b := match b !! n with
              | Some d => inl ("e" +:+ digits (encode d), Z.of_nat (String.length d))
              | None => inr (Other 0 "NoSuchKey")
              end;
  GetData n b := match b !! n with Some d => inl d | None => inr (Other 0 "NoSuchKey") end;
  PutObject n d b := (<[n := d]> b, None);
  RemoveObject n b := (delete n b, None);
  ListObjects p b := inl <$> filter (λ k, is_Some (CutPrefix p k)) (map_to_list b).*1
}.

#[local] Instance demo_Cache : Cache demo_cache := {
  info_hit n c := demo_infos c !! n;
  info_put n i c := MkDemo (<[n := i]> (demo_infos c)) (demo_thumbs c);
  DelObjectImageInfoKey n c := (MkDemo (delete n (demo_infos c)) (demo_thumbs c), None);
  thumb_hit n f w h c := demo_thumbs c !! (n, f, w, h);
  thumb_put n f w h k c := MkDemo (demo_infos c) (<[(n, f, w, h) := k]> (demo_thumbs c));
  DelImageThumbnailKey n f w h c := (MkDemo (demo_infos c) (delete (n, f, w, h) (demo_thumbs c)), None)
}.

(** An image is a [P] and a square as wide as the rest is long. *)
#[local] Instance demo_Codecs : Codecs := {
  RGBA c := c;
  Decode d := match d with
              | String c s => if ascii_dec c "P" then
                  let n := Z.min (Z.of_nat (String.length s)) 4096 in Some (MkImage n n (λ _ _, 0%nat), "png") else None
              | EmptyString => None
              end;
  Encode f img := Some (f +:+ ":" +:+ Itoa (Wd img) +:+ "x" +:+ Itoa (Ht img));
  MakeTargetURL n _ := inl (MkURL ("/" +:+ n) "");
  Presigned n _ _ := inl (MkURL ("/" +:+ n) "?signed");
  PathEscape s := s;
  IsNotFoundErr _ := true;
  url_String u := url_Path u +:+ url_rest u
}.

Lemma CutPrefix_Some p s : is_Some (CutPrefix p s) → ∃ t, s = p +:+ t.
Proof.
  revert s. induction p as [|a p IH]; intros s [t Ht]; [by exists s |]. destruct s as [|x s]; [done |]. simpl in Ht.
  destruct (ascii_dec a x) as [<- |]; [| done]. destruct (IH s) as [t' ->]; [by eexists |]. by exists t'.
Qed.

Lemma digits_text p : has_byte "/" (digits p) = false ∧ has_byte "." (digits p) = false ∧ ToLower (digits p) = digits p.
Proof.
  induction p as [p (H1 & H2 & H3) | p (H1 & H2 & H3) |]; [| | done].
  - change (digits (xI p)) with (String "1" (digits p)). cbn [has_byte ToLower]. by rewrite H1, H2, H3.
  - change (digits (xO p)) with (String "0" (digits p)). cbn [has_byte ToLower]. by rewrite H1, H2, H3.
Qed.

#[local] Instance demo_BucketLaws : BucketLaws (gmap string string).
Proof.
  split; simpl; try done; [| | by right | by right | | |].
  - intros n b e sz Hs. destruct (b !! n) as [d|]; [| done]. injection Hs as <- <-. by exists d.
  - intros n b d Hg. destruct (b !! n); [by injection Hg as -> | done].
  - intros p b n s -> _ [d Hd]. left. apply list_elem_of_fmap. eexists. split; [done |]. apply list_elem_of_filter.
    split; [rewrite CutPrefix_app; by eexists |]. apply list_elem_of_fmap. exists (p +:+ s, d). by rewrite elem_of_map_to_list.
  - intros p b n Hn. apply list_elem_of_fmap in Hn as (k & [= <-] & Hk). apply list_elem_of_filter in Hk as [Hk _].
    by apply CutPrefix_Some.
  - intros d. destruct (digits_text (encode d)) as (H1 & H2 & H3). unfold tag_text.
    change ("e" +:+ ?s) with (String "e" s). cbn [has_byte ToLower]. by rewrite H1, H2, H3.
Qed.

#[local] Instance demo_CacheLaws : CacheLaws demo_cache.
Proof.
  split; simpl; try done; intros *.
  - rewrite lookup_insert_Some. intros [[-> ->] | [_ ?]]; [by left | by right].
  - rewrite lookup_insert_Some. intros [[[= -> -> -> ->] ->] | [_ ?]]; [by left | by right].
  - by intros [_ ?]%lookup_delete_Some.
  - by intros [_ ?]%lookup_delete_Some.
  - intros _. by rewrite lookup_delete_eq.
Qed.

#[local] Instance demo_CodecsLaws : CodecsLaws.
Proof.
  intros [|c s] img f; simpl; [done |]. destruct (ascii_dec c "P"); [| done]. intros [= <- <-]. simpl.
  unfold size_ok, two63. lia.
Qed.

Definition demo_content (n : string) : string := String "P" n.

Lemma demo_tags n1 n2 : user n1 → user n2 →
  etag_of (B := gmap string string) (demo_content n1) = etag_of (B := gmap string string) (demo_content n2) → n1 = n2.
Proof.
  intros _ _ Heq.
  change ("e" +:+ digits (encode (demo_content n1)) = "e" +:+ digits (encode (demo_content n2))) in Heq.
  apply (inj _) in Heq. apply (f_equal number) in Heq. rewrite !number_digits in Heq.
  apply (inj encode) in Heq. by injection Heq.
Qed.

Definition demo_ops : list image_op :=
  [Upload "face"; Access 0 "face" 60 (Some (MkAccess "text" "f" (Some (MkOpt "JPG" 2 2)))); Upload "note"].

Definition demo_state : gmap string string * demo_cache :=
  fold_left (image_exec false "" demo_content) demo_ops (∅, MkDemo ∅ ∅).

(** An image of 4 by 4 in 2 by 2: its thumbnail is there, and is gone with it. *)
Lemma thumbnails_sound_witness :
  ∃ key, thumbnail_target 0 "face" (MkOpt "jpg" 2 2) demo_state.1 demo_state.2 =
      (demo_state.1, demo_state.2, MkOpt "jpeg" 2 2, inl (key, "image/jpeg")) ∧
    demo_state.1 !! key = Some "jpeg:2x2" ∧
    served "face" "Pface" (MkOpt "jpg" 2 2) demo_state.1 key "image/jpeg" ∧
    view (DeleteObject None "face" demo_state.1 demo_state.2).1.1 !! key = None.
Proof.
  set (key := thumb_key (etag_of (B := gmap string string) (demo_content "face")) "jpeg" 2 2). exists key.
  assert (thumbnail_target 0 "face" (MkOpt "jpg" 2 2) demo_state.1 demo_state.2 =
      (demo_state.1, demo_state.2, MkOpt "jpeg" 2 2, inl (key, "image/jpeg"))) as Ht by (vm_compute; reflexivity).
  assert ("jpeg" ∈ formats) as Hjpeg by (clear; unfold formats; set_solver).
  assert (size_ok 2 2) as Hsize by (clear; unfold size_ok, two63; lia).
  assert (user "face") as Hface by (vm_compute; reflexivity).
  assert (Forall (λ o, user (op_name o)) demo_ops) as Hops.
  { unfold demo_ops. rewrite !Forall_cons, Forall_nil. split; [exact Hface | split; [exact Hface | split; [reflexivity | exact I]]]. }
  assert (∀ n d, user n → view (∅ : gmap string string) !! n = Some d → d = demo_content n) as Hempty
    by (intros n d _ Hd; change ((∅ : gmap string string) !! n = Some d) in Hd; by rewrite lookup_empty in Hd).
  assert (fold_left (image_exec false "" demo_content) demo_ops (∅, MkDemo ∅ ∅) = (demo_state.1, demo_state.2)) as Hrun
    by apply surjective_pairing.
  destruct (thumbnails_sound false "" demo_content demo_tags demo_ops ∅ (MkDemo ∅ ∅) demo_state.1 demo_state.2
    Hempty (λ n, lookup_empty n) (λ n f w h, lookup_empty (n, f, w, h)) Hops Hrun) as [Hserved Hgone].
  split; [exact Ht |]. split; [vm_compute; reflexivity |]. split; [exact (Hserved _ _ _ _ _ _ _ _ Hface Ht) |].
  assert (Stat "face" demo_state.1 = inl ("e" +:+ digits (encode "Pface"), 5)) as Hstat by (vm_compute; reflexivity).
  assert (snd (DeleteObject None "face" demo_state.1 demo_state.2) = None) as Hr by (vm_compute; reflexivity).
  revert Hr. destruct (DeleteObject None "face" demo_state.1 demo_state.2) as [[b' c'] r] eqn:Hd. cbn [snd fst]. intros ->.
  destruct (Hgone None "face" _ b' c' Hface Hstat Hd) as (_ & Hthumb & _ & _).
  exact (Hthumb "jpeg" 2 2 Hjpeg Hsize).
Defined.

(** Two objects with the same content share their thumbnails, but the cache is by name:
    once one of them is removed the other is served the key of an object that is gone. *)
Lemma thumbnails_dangle :
  let ops (n : string) := [Access 0 n 60 (Some (MkAccess "" "" (Some (MkOpt "png" 2 2))))] in
  let '(b, c) := fold_left (image_exec false "" (λ _, "Pface")) ([Upload "a"; Upload "b"] ++ ops "a" ++ ops "b" ++ [Remove None "a"])
    (∅ : gmap string string, MkDemo ∅ ∅) in
  ∃ key ty, (thumbnail_target 0 "b" (MkOpt "png" 2 2) b c).2 = inl (key, ty) ∧ is_Some (b !! "b") ∧ b !! key = None.
Proof. vm_compute. eexists _, _. split; [reflexivity |]. split; [by eexists | reflexivity]. Qed.

(** The scale is rounded before it is multiplied: a thumbnail can be a pixel smaller than
    asked for, and so be empty. *)
Lemma resize_to_nothing :
  let t := resizeImage id (MkImage 49 49 (λ _ _, 0%nat)) 1 1 in Wd t = 0 ∧ Ht t = 0.
Proof. vm_compute. done. Qed.
