(* ===== verification/Stores.v ===== *)
(** * The five object stores (s3/minio, s3/cos, s3/oss, s3/kodo, s3/aws; s3/s3.go)

    What each store makes of the requests of the interface and of the replies of its
    client library, which are arguments: tags, sizes, parts and signed addresses. *)

From Stdlib Require Import Ascii.
From S2P Require Import Prelude GoStrings Errs Network Rpc Mongo Thumb.

Local Open Scope Z_scope.

(** ** Data *)

Definition quote : ascii := "034".
Definition apostrophe : ascii := "039".

Definition upper_ascii (c : ascii) : ascii :=
  let n := nat_of_ascii c in if Nat.leb 97 n && Nat.leb n 122 then ascii_of_nat (n - 32) else c.

Fixpoint ToUpper (s : string) : string :=
  match s with EmptyString => "" | String c s => String (upper_ascii c) (ToUpper s) end.

(** [strings.Trim(s, cutset)]. *)
Fixpoint TrimLeftFunc (f : ascii → bool) (s : string) : string :=
  match s with EmptyString => "" | String a s' => if f a then TrimLeftFunc f s' else s end.

Fixpoint TrimRightFunc (f : ascii → bool) (s : string) : string :=
  match s with
  | EmptyString => ""
  | String a s => let t := TrimRightFunc f s in if String.eqb t "" && f a then "" else String a t
  end.

Definition TrimFunc (f : ascii → bool) (s : string) : string := TrimRightFunc f (TrimLeftFunc f s).

Definition TrimByte (c : ascii) (s : string) : string := TrimFunc (is_byte c) s.

(** A time of [None] is the zero time. *)
Record ObjectInfo := MkInfo { ETag : string; Key : string; Size : Z; LastModified : option Z }.
Record CopyObjectInfo := MkCopy { CKey : string; CETag : string }.
Record Part := MkPart { PartNumber : Z; PETag : string }.
Record UploadedPart := MkUploaded { UNumber : Z; UModified : option Z; UETag : string; USize : Z }.
Record ListUploadedPartsResult := MkList {
  LKey : string; LUploadID : string; NextPartNumberMarker : Z; MaxParts : Z; UploadedParts : list UploadedPart
}.
Record InitiateMultipartUploadResult := MkInit { IBucket : string; IKey : string; IUploadID : string }.
Record CompleteMultipartUploadResult := MkComplete { Location : string; OBucket : string; OKey : string; OETag : string }.

Definition values := list (string * string).
Record SignPart := MkSign { SNumber : Z; SURL : string; SQuery : values; SHeader : values }.
Record AuthSignResult := MkAuth { AURL : string; AQuery : values; AHeader : values; AParts : list SignPart }.

(** Errors of the client library, and those of the code by their texts. *)
Inductive store_err := Sdk (e : goerr) | Text (s : string).

(** ** Objects *)

Section objects.
Context (ParseTime : string → option Z).

(** The three headers that cos and oss read. *)
Definition header_info (name : string) (Get : string → string) : ObjectInfo + store_err :=
  let etag := ToLower (strip_byte quote (Get "ETag")) in
  if String.eqb etag "" then inr (Text "StatObject etag not found")
  else if String.eqb (Get "Content-Length") "" then inr (Text "StatObject content-length not found")
  else
    let '(n, ok) := ParseInt64 (Get "Content-Length") in
    if negb ok then inr (Text "StatObject content-length parse error")
    else if n <? 0 then inr (Text "StatObject content-length must be greater than 0")
    else if String.eqb (Get "Last-Modified") "" then inr (Text "StatObject last-modified not found")
    else
      match ParseTime (Get "Last-Modified") with
      | None => inr (Text "StatObject last-modified parse error")
      | Some t => inl (MkInfo etag name n (Some t))
      end.

Definition cos_name (name : string) : string :=
  match name with String c s => if ascii_dec c "/" then s else name | EmptyString => name end.

Definition Cos_StatObject (Head : string → (string → string) + goerr) (name : string) : ObjectInfo + store_err :=
  match Head (cos_name name) with inr e => inr (Sdk e) | inl Get => header_info (cos_name name) Get end.

Definition OSS_StatObject (GetObjectMeta : string → (string → string) + goerr) (name : string) : ObjectInfo + store_err :=
  match GetObjectMeta name with inr e => inr (Sdk e) | inl Get => header_info name Get end.
End objects.

(** The library of minio gives the tag without quotes. *)
Definition Minio_StatObject (Stat : string → ObjectInfo + goerr) (name : string) : ObjectInfo + store_err :=
  match Stat name with
  | inr e => inr (Sdk e)
  | inl i => inl (MkInfo (ToLower (ETag i)) (Key i) (Size i) (LastModified i))
  end.

(** Tag, length and time, each of which can be missing. *)
Definition head_output : Type := option string * option Z * option Z.

Definition Kodo_StatObject (HeadObject : string → head_output + goerr) (name : string) : ObjectInfo + store_err :=
  match HeadObject name with
  | inr e => inr (Sdk e)
  | inl (etag, len, _) => inl (MkInfo (ToLower (strip_byte quote (default "" etag))) name (default 0 len) None)
  end.

Definition formatETag (etag : string) : string := TrimByte quote etag.

Definition Aws_StatObject (HeadObject : string → head_output + goerr) (name : string) : ObjectInfo + store_err :=
  match HeadObject name with
  | inr e => inr (Sdk e)
  | inl (etag, len, lm) =>
      if String.eqb (default "" etag) "" then inr (Text "GetObjectAttributes etag is nil")
      else
        match len with
        | None => inr (Text "GetObjectAttributes object size is nil")
        | Some n => inl (MkInfo (formatETag (default "" etag)) name n (Some (default 0 lm)))
        end
  end.

(** ** Copies *)

(** The header of the reply, or its body when the header has none. *)
Definition Minio_CopyObject (copy : string → string → (string * string) + goerr) (src dst : string)
    : CopyObjectInfo + store_err :=
  match copy dst src with
  | inr e => inr (Sdk e)
  | inl (header, body) =>
      let etag := TrimByte quote header in
      let etag := if String.eqb etag "" then TrimFunc (λ a, is_byte quote a || is_byte apostrophe a) body else etag in
      inl (MkCopy dst (ToLower etag))
  end.

Definition Cos_CopyObject (copyURL : string) (Copy : string → string → string + goerr) (src dst : string)
    : CopyObjectInfo + store_err :=
  match Copy dst (copyURL +:+ src) with
  | inr e => inr (Sdk e)
  | inl etag => inl (MkCopy dst (strip_byte quote etag))
  end.

Definition OSS_CopyObject (Copy : string → string → string + goerr) (src dst : string) : CopyObjectInfo + store_err :=
  match Copy src dst with
  | inr e => inr (Sdk e)
  | inl etag => inl (MkCopy dst (ToLower (strip_byte quote etag)))
  end.

(** The result, and the tag in it, can be missing; kodo does not look. *)
Definition Kodo_CopyObject (bucket : string) (Copy : string → string → option (option string) + goerr) (src dst : string)
    : outcome (CopyObjectInfo + store_err) :=
  match Copy (bucket +:+ "/" +:+ src) dst with
  | inr e => Ret (inr (Sdk e))
  | inl None => Panic "nil pointer dereference"
  | inl (Some etag) => Ret (inl (MkCopy dst (ToLower (strip_byte quote (default "" etag)))))
  end.

Definition Aws_CopyObject (bucket : string) (Copy : string → string → option (option string) + goerr) (src dst : string)
    : CopyObjectInfo + store_err :=
  match Copy (bucket +:+ "/" +:+ src) dst with
  | inr e => inr (Sdk e)
  | inl res =>
      let etag := default "" (default None res) in
      if String.eqb etag "" then inr (Text "CopyObject etag is nil") else inl (MkCopy dst (formatETag etag))
  end.

(** ** Errors *)

Definition StatusNotFound : Z := 404.

(** [as_response]: the status and the code, when the error is one of the client library. *)
Definition response_IsNotFound (as_response : goerr → option (Z * string)) (err : option goerr) : bool :=
  match Errs.Unwrap err with
  | None => false
  | Some e =>
      match as_response e with
      | Some (status, code) => (status =? StatusNotFound) || String.eqb code "NoSuchKey"
      | None => false
      end
  end.

(** [errors.As] of kodo, for an error that is a [NotFound], and of aws, for the first
    error with a response, which can be nil. *)
Definition Kodo_IsNotFound (is_notfound : goerr → bool) (err : option goerr) : bool :=
  match err with None => false | Some e => existsb is_notfound (chain e) end.

Definition Aws_IsNotFound (as_response : goerr → option (option Z)) (err : option goerr) : bool :=
  match err with
  | None => false
  | Some e =>
      match list_find (λ e, is_Some (as_response e)) (chain e) with
      | Some (_, e) => match as_response e with Some (Some status) => status =? StatusNotFound | _ => false end
      | None => false
      end
  end.

(** ** Multipart uploads *)

Definition Minio_parts (parts : list Part) : list Part :=
  (λ p, MkPart (PartNumber p) (ToLower (PETag p))) <$> parts.
Definition Cos_parts (parts : list Part) : list Part :=
  (λ p, MkPart (PartNumber p) (strip_byte quote (PETag p))) <$> parts.
Definition OSS_parts (parts : list Part) : list Part :=
  (λ p, MkPart (PartNumber p) (ToUpper (PETag p))) <$> parts.
Definition Aws_parts (parts : list Part) : list Part :=
  (λ p, MkPart (wrap32 (PartNumber p)) (PETag p)) <$> parts.

(** The results, from what the library gives for the parts; [Complete] has the upload id,
    the name and the parts. *)
Definition complete_lib : Type := string → string → list Part → CompleteMultipartUploadResult + goerr.

Definition Minio_CompleteMultipartUpload (Complete : complete_lib) (uploadID name : string) (parts : list Part)
    : CompleteMultipartUploadResult + store_err :=
  match Complete uploadID name (Minio_parts parts) with
  | inr e => inr (Sdk e)
  | inl r => inl (MkComplete (Location r) (OBucket r) (OKey r) (ToLower (OETag r)))
  end.

Definition Cos_CompleteMultipartUpload (Complete : complete_lib) (uploadID name : string) (parts : list Part)
    : CompleteMultipartUploadResult + store_err :=
  match Complete uploadID name (Cos_parts parts) with
  | inr e => inr (Sdk e)
  | inl r => inl (MkComplete (Location r) (OBucket r) (OKey r) (OETag r))
  end.

Definition OSS_CompleteMultipartUpload (Complete : complete_lib) (uploadID name : string) (parts : list Part)
    : CompleteMultipartUploadResult + store_err :=
  match Complete uploadID name (OSS_parts parts) with
  | inr e => inr (Sdk e)
  | inl r => inl (MkComplete (Location r) (OBucket r) (OKey r) (ToLower (strip_byte quote (OETag r))))
  end.

Definition Kodo_CompleteMultipartUpload (Complete : complete_lib) (uploadID name : string) (parts : list Part)
    : CompleteMultipartUploadResult + store_err :=
  match Complete uploadID name (Aws_parts parts) with
  | inr e => inr (Sdk e)
  | inl r => inl (MkComplete (Location r) (OBucket r) (OKey r) (ToLower (strip_byte quote (OETag r))))
  end.

Definition Aws_CompleteMultipartUpload (bucket : string) (Complete : complete_lib) (uploadID name : string)
    (parts : list Part) : CompleteMultipartUploadResult + store_err :=
  match Complete uploadID name (Aws_parts parts) with
  | inr e => inr (Sdk e)
  | inl r =>
      if String.eqb (OETag r) "" then inr (Text "CompleteMultipartUpload etag is nil")
      else inl (MkComplete (Location r) bucket name (formatETag (OETag r)))
  end.

(** The start of an upload: aws gives the name for the bucket. *)
Definition Aws_InitiateMultipartUpload (Create : string → option string + goerr) (name : string)
    : InitiateMultipartUploadResult + store_err :=
  match Create name with
  | inr e => inr (Sdk e)
  | inl id =>
      if String.eqb (default "" id) "" then inr (Text "CreateMultipartUpload upload id is nil")
      else inl (MkInit name name (default "" id))
  end.

Definition Minio_InitiateMultipartUpload (bucket : string) (Create : string → string + goerr) (name : string)
    : InitiateMultipartUploadResult + store_err :=
  match Create name with inr e => inr (Sdk e) | inl id => inl (MkInit bucket name id) end.

(** The parts that are there.  Each library has its own reply: those of minio and oss have
    the fields of the result, cos has numbers and times as text, and kodo and aws have
    fields that can be missing. *)
Definition Minio_ListUploadedParts (List_ : string → string → Z → Z → ListUploadedPartsResult + goerr)
    (uploadID name : string) (marker maxParts : Z) : ListUploadedPartsResult + store_err :=
  match List_ uploadID name marker maxParts with
  | inr e => inr (Sdk e)
  | inl r => inl (MkList (LKey r) (LUploadID r) (NextPartNumberMarker r) (MaxParts r)
      ((λ p, MkUploaded (UNumber p) (UModified p) (UETag p) (USize p)) <$> UploadedParts r))
  end.

(** oss has the marker as text. *)
Definition OSS_ListUploadedParts (List_ : string → string → Z → Z → (ListUploadedPartsResult * string) + goerr)
    (uploadID name : string) (marker maxParts : Z) : ListUploadedPartsResult + store_err :=
  match List_ uploadID name maxParts marker with
  | inr e => inr (Sdk e)
  | inl (r, next) => inl (MkList (LKey r) (LUploadID r) (ParseInt64 next).1 (MaxParts r)
      ((λ p, MkUploaded (UNumber p) (UModified p) (UETag p) (USize p)) <$> UploadedParts r))
  end.

Record cos_part := MkCosPart { cNumber : Z; cModified : string; cETag : string; cSize : Z }.
Record cos_list := MkCosList { cKey : string; cUploadID : string; cNext : string; cMax : string; cParts : list cos_part }.

Definition Cos_ListUploadedParts (ParseTime : string → option Z) (List_ : string → string → string → string → cos_list + goerr)
    (uploadID name : string) (marker maxParts : Z) : ListUploadedPartsResult + store_err :=
  match List_ name uploadID (Itoa maxParts) (Itoa marker) with
  | inr e => inr (Sdk e)
  | inl r => inl (MkList (cKey r) (cUploadID r) (ParseInt64 (cNext r)).1 (ParseInt64 (cMax r)).1
      ((λ p, MkUploaded (cNumber p) (ParseTime (cModified p)) (cETag p) (cSize p)) <$> cParts r))
  end.

Record aws_part := MkAwsPart { aNumber : option Z; aModified : option Z; aETag : option string; aSize : option Z }.
Record aws_list := MkAwsList {
  aKey : option string; aUploadID : option string; aNext : option string; aMax : option Z; aParts : list aws_part
}.

Definition Kodo_ListUploadedParts (List_ : string → string → string → Z → aws_list + goerr) (uploadID name : string)
    (marker maxParts : Z) : ListUploadedPartsResult + store_err :=
  match List_ name uploadID (Itoa marker) (wrap32 maxParts) with
  | inr e => inr (Sdk e)
  | inl r =>
      let '(next, ok) := ParseInt64 (default "" (aNext r)) in
      if negb ok then inr (Text "invalid syntax")
      else inl (MkList (default "" (aKey r)) (default "" (aUploadID r)) next (default 0 (aMax r))
        ((λ p, MkUploaded (default 0 (aNumber p)) (aModified p) (default "" (aETag p)) (default 0 (aSize p))) <$> aParts r))
  end.

Definition Aws_ListUploadedParts (List_ : string → string → string → Z → aws_list + goerr) (uploadID name : string)
    (marker maxParts : Z) : ListUploadedPartsResult + store_err :=
  match List_ name uploadID (Itoa marker) (wrap32 maxParts) with
  | inr e => inr (Sdk e)
  | inl r =>
      inl (MkList name uploadID (match aNext r with Some n => (ParseInt64 n).1 | None => 0 end) (default 0 (aMax r))
        ((λ p, MkUploaded (default 0 (aNumber p)) (aModified p) "" (default 0 (aSize p))) <$> aParts r))
  end.

(** ** Signed addresses of parts *)

(** A loop that stops at an error. *)
Fixpoint sign_loop (f : Z → SignPart + goerr) (numbers : list Z) : list SignPart + goerr :=
  match numbers with
  | [] => inl []
  | n :: numbers =>
      match f n with
      | inr e => inr e
      | inl p => match sign_loop f numbers with inl ps => inl (p :: ps) | inr e => inr e end
      end
  end.

(** [sign]: the header of the request for an address, or that no request can be made. *)
Definition Minio_AuthSign (signEndpoint bucket prefix : string) (creds : option goerr) (sign : string → values + goerr)
    (uploadID name : string) (numbers : list Z) : AuthSignResult + store_err :=
  match creds with
  | Some e => inr (Sdk e)
  | None =>
      let url := signEndpoint +:+ "/" +:+ bucket +:+ "/" +:+ name in
      match sign_loop (λ n, match sign (url +:+ "?partNumber=" +:+ Itoa n +:+ "&uploadId=" +:+ uploadID) with
                            | inr e => inr e
                            | inl h => inl (MkSign n "" [("partNumber", Itoa n)] h)
                            end) numbers with
      | inr e => inr (Sdk e)
      | inl ps =>
          inl (MkAuth (if String.eqb prefix "" then url else signEndpoint +:+ prefix +:+ "/" +:+ bucket +:+ "/" +:+ name)
                 [("uploadId", uploadID)] [] ps)
      end
  end.

(** [replaceURL]: the address of the bucket, when the text starts with it, is replaced. *)
Definition replaceURL (cdn : option (string * string)) (urlText : string) : string :=
  match cdn with
  | None => urlText
  | Some (old, new) => match CutPrefix old urlText with Some rest => new +:+ rest | None => urlText end
  end.

Definition Cos_AuthSign (base : string) (EncodeURIComponent : string → string) (cdn : option (string * string))
    (sign : string → values + goerr) (uploadID name : string) (numbers : list Z) : AuthSignResult + store_err :=
  let url := base +:+ "/" +:+ EncodeURIComponent name in
  match sign url with
  | inr e => inr (Sdk e)
  | inl h => inl (MkAuth (replaceURL cdn url) [("uploadId", uploadID)] h
                    ((λ n, MkSign n "" [("partNumber", Itoa n)] []) <$> numbers))
  end.

(** [sign]: the address and the header of the request for an address and a resource. *)
Definition OSS_AuthSign (bucketURL bucket : string) (sign : string → string → (string * values) + goerr)
    (uploadID name : string) (numbers : list Z) : AuthSignResult + store_err :=
  match sign_loop (λ n,
      let q := "?partNumber=" +:+ Itoa n +:+ "&uploadId=" +:+ uploadID in
      match sign (bucketURL +:+ name +:+ q) ("/" +:+ bucket +:+ "/" +:+ name +:+ q) with
      | inr e => inr e
      | inl (u, h) => inl (MkSign n u [("partNumber", Itoa n)] h)
      end) numbers with
  | inr e => inr (Sdk e)
  | inl ps => inl (MkAuth (bucketURL +:+ name) [("uploadId", uploadID)] [] ps)
  end.

(** kodo ignores the error of the library, whose result is nil then. *)
Fixpoint kodo_sign_loop (presign : Z → (string * values) + goerr) (numbers : list Z) : outcome (list SignPart) :=
  match numbers with
  | [] => Ret []
  | n :: numbers =>
      match presign (wrap32 n) with
      | inr _ => Panic "nil pointer dereference"
      | inl (u, h) =>
          match kodo_sign_loop presign numbers with
          | Ret ps => Ret (MkSign n u [] h :: ps)
          | Panic why => Panic why
          end
      end
  end.

Definition Kodo_AuthSign (bucketURL : string) (presign : Z → (string * values) + goerr) (uploadID name : string)
    (numbers : list Z) : outcome AuthSignResult :=
  match kodo_sign_loop presign numbers with
  | Ret ps => Ret (MkAuth (bucketURL +:+ "/" +:+ name) [("uploadId", uploadID)] [] ps)
  | Panic why => Panic why
  end.

(** aws takes the address of the first part out of the parts.  [Parse]: the address
    without its query, and the query. *)
Fixpoint aws_sign_loop (presign : Z → (string * values) + goerr) (Parse : string → (string * values) + goerr)
    (numbers : list Z) (res : AuthSignResult) : AuthSignResult + store_err :=
  match numbers with
  | [] => inl res
  | n :: numbers =>
      match presign (wrap32 n) with
      | inr e => inr (Sdk e)
      | inl (u, h) =>
          match Parse u with
          | inr e => inr (Sdk e)
          | inl (urlstr, query) =>
              let url := if String.eqb (AURL res) "" then urlstr else AURL res in
              let urlstr := if String.eqb url urlstr then "" else urlstr in
              aws_sign_loop presign Parse numbers
                (MkAuth url (AQuery res) (AHeader res) (AParts res ++ [MkSign n urlstr query h]))
          end
      end
  end.

Definition Aws_AuthSign (presign : Z → (string * values) + goerr) (Parse : string → (string * values) + goerr)
    (numbers : list Z) : AuthSignResult + store_err := aws_sign_loop presign Parse numbers (MkAuth "" [] [] []).

(** ** Addresses of objects *)

Definition image_formats : list string := ["png"; "jpg"; "jpeg"; "gif"; "webp"].

(** The expiration as minio, cos and oss bound it, in nanoseconds. *)
Definition bounded_expire (expire : Z) : Z :=
  if expire <=? 0 then hours99years else if expire <? 1000000000 then 1000000000 else expire.

Definition imageMogr (i : Image) : string :=
  let w := if 0 <? ImgWidth i then Itoa (ImgWidth i) else "" in
  let h := if 0 <? ImgHeight i then Itoa (ImgHeight i) else "" in
  let style :=
    (if (0 <? ImgWidth i) || (0 <? ImgHeight i) then [Join "x" [w; h]] else []) ++
    (if bool_decide (ImgFormat i ∈ image_formats) then ["format/" +:+ ImgFormat i] else []) in
  match style with [] => "" | _ => "imageMogr2/thumbnail/" +:+ Join "/" style +:+ "/ignore-error/1" end.

Definition disposition (PathEscape : string → string) (filename : string) : string :=
  "attachment; filename*=UTF-8''" +:+ PathEscape filename.

(** The address: what comes before the query, and the query.  The options come back as
    the caller finds them. *)
Definition Cos_AccessURL (PathEscape : string → string) (cdn : option (string * string)) (publicRead : bool)
    (GetObjectURL : string → string * string) (Presigned : string → Z → values → (string * string) + goerr)
    (name : string) (expire : Z) (opt : option AccessURLOption) : option AccessURLOption * (string + goerr) :=
  let opt := clear_option <$> opt in
  let mogr := match opt ≫= Image_ with Some i => imageMogr i | None => "" end in
  let query :=
    match opt with
    | None => []
    | Some o =>
        (if String.eqb (ContentType o) "" then [] else [("response-content-type", ContentType o)]) ++
        (if String.eqb (Filename o) "" then [] else [("response-content-disposition", disposition PathEscape (Filename o))])
    end in
  let rawURL := if publicRead then inl (GetObjectURL name) else Presigned name (bounded_expire expire) query in
  (opt,
   match rawURL with
   | inr e => inr e
   | inl (base, rawQuery) =>
       let q := if String.eqb mogr "" then rawQuery else if String.eqb rawQuery "" then mogr else rawQuery +:+ "&" +:+ mogr in
       inl (replaceURL cdn (if String.eqb q "" then base else base +:+ "?" +:+ q))
   end).

(** The process that oss is asked for, and the format that is left in the options. *)
Definition oss_process (i : Image) : string * Image :=
  let known := bool_decide (ImgFormat i ∈ image_formats) in
  let format := if known then ImgFormat i else "" in
  ("image/resize,m_lfit" +:+ (if 0 <? ImgWidth i then ",w_" +:+ Itoa (ImgWidth i) else "") +:+
   (if 0 <? ImgHeight i then ",h_" +:+ Itoa (ImgHeight i) else "") +:+ ",format," +:+ format,
   if known then i else MkOpt "jpg" (ImgWidth i) (ImgHeight i)).

Definition OSS_AccessURL (PathEscape : string → string) (publicRead : bool)
    (SignURL : string → Z → values → string + goerr) (getURL : string → values → string + goerr)
    (name : string) (expire : Z) (opt : option AccessURLOption) : option AccessURLOption * (string + goerr) :=
  let opt := (λ o, MkAccess "" (Filename o) (Image_ o)) ∘ clear_option <$> opt in
  let process := match opt ≫= Image_ with Some i => Some (oss_process i) | None => None end in
  let opts :=
    match process with Some (p, _) => [("x-oss-process", p)] | None => [] end ++
    match opt with
    | Some o => if negb publicRead && negb (String.eqb (Filename o) "")
                then [("response-content-disposition", disposition PathEscape (Filename o))] else []
    | None => []
    end in
  ((λ o, MkAccess (ContentType o) (Filename o) (match process with Some (_, i) => Some i | None => Image_ o end)) <$> opt,
   if publicRead then getURL name opts else SignURL name (Z.quot (bounded_expire expire) 1000000000) opts).

(** The query that kodo and aws sign. *)
Definition setOption (PathEscape : string → string) (opt : option AccessURLOption) (query : gmap string (list string))
    : gmap string (list string) :=
  match opt with
  | None => query
  | Some o =>
      let query := if String.eqb (ContentType o) "" then query else <["response-content-type" := [ContentType o]]> query in
      if String.eqb (Filename o) "" then query
      else <["response-content-disposition" := [disposition PathEscape (Filename o)]]> query
  end.

(** ** Forms *)

Record FormData := MkForm {
  FURL : string; FFile : string; FForm : gmap string string; FExpires : Z; FSuccessCodes : list Z
}.

Definition successCode : Z := 200.

(** Times are in nanoseconds; [Unix] is in seconds. *)
Definition Unix (t : Z) : Z := t / 1000000000.

Section forms.
Context (hmac_sha1 : string → string → string) (sha1 : string → string) (hex base64 : string → string)
  (FormatTime : Z → string).

Definition hmacSha1val (key msg : string) : string := hex (hmac_sha1 key msg).
Definition sha1val (msg : string) : string := hex (sha1 msg).

(** [Marshal]: the JSON of a policy, an expiration and conditions. *)
Definition Cos_FormData (Marshal : string → list (string * string) → string + goerr) (base : string)
    (cdn : option (string * string)) (secretID secretKey token : string)
    (now duration : Z) (name contentType : string) : FormData + store_err :=
  let expiration := wrap64 (now + duration) in
  let keyTime := Itoa (Unix now) +:+ ";" +:+ Itoa (Unix expiration) in
  let conditions :=
    [("q-sign-algorithm", "sha1"); ("q-ak", secretID); ("q-sign-time", keyTime); ("key", name)] ++
    (if String.eqb contentType "" then [] else [("Content-Type", contentType)]) in
  match Marshal (FormatTime expiration) conditions with
  | inr e => inr (Sdk e)
  | inl policyJson =>
      let signKey := hmacSha1val secretKey keyTime in
      let signature := hmacSha1val signKey (sha1val policyJson) in
      let form : gmap string string :=
        <["policy" := base64 policyJson]> (<["q-sign-algorithm" := "sha1"]> (<["q-ak" := secretID]>
        (<["q-key-time" := keyTime]> (<["q-signature" := signature]> (<["key" := name]>
        {["success_action_status" := Itoa successCode]}))))) in
      let form := if String.eqb contentType "" then form else <["Content-Type" := contentType]> form in
      let form := if String.eqb token "" then form else <["x-cos-security-token" := token]> form in
      inl (MkForm (replaceURL cdn base) "file" form expiration [successCode])
  end.

(** The conditions of oss: bucket, key and the range of the length. *)
Definition OSS_FormData (Marshal : string → list (string * string) → option (Z * Z) → string + goerr)
    (bucketURL bucket keyID secret : string) (now duration : Z) (name : string) (size : Z) (contentType : string)
    : FormData + store_err :=
  let expires := wrap64 (now + duration) in
  match Marshal (FormatTime expires) [("bucket", bucket); ("key", name)] (if 0 <? size then Some (0, size) else None) with
  | inr e => inr (Sdk e)
  | inl policyJson =>
      let policyStr := base64 policyJson in
      let form : gmap string string :=
        <["key" := name]> (<["policy" := policyStr]> (<["OSSAccessKeyId" := keyID]>
        (<["success_action_status" := Itoa successCode]> {["signature" := base64 (hmac_sha1 secret policyStr)]}))) in
      inl (MkForm bucketURL "file" (if String.eqb contentType "" then form else <["x-oss-content-type" := contentType]> form)
             expires [successCode])
  end.

(** The policy of kodo is a scope and a deadline; the hash of the secret is not used. *)
Definition Kodo_FormData (Marshal : string → Z → string + goerr) (bucketURL bucket accessKey secret : string)
    (now duration : Z) (name contentType : string) : FormData + store_err :=
  let resourceKey := bucket +:+ ":" +:+ name in
  match Marshal resourceKey (Unix now + 3600) with
  | inr e => inr (Sdk e)
  | inl putPolicyJson =>
      let encodedPutPolicy := base64 putPolicyJson in
      let sign := encodedPutPolicy in
      let h := hmac_sha1 secret sign in
      let encodedSign := base64 sign in
      let uploadToken := accessKey +:+ ":" +:+ encodedSign +:+ ":" +:+ encodedPutPolicy in
      let form : gmap string string := <["key" := resourceKey]> {["token" := uploadToken]} in
      inl (MkForm bucketURL "file" (if String.eqb contentType "" then form else <["accept" := contentType]> form)
             (wrap64 (now + duration)) [successCode])
  end.
End forms.

(** * Lemmas *)

(** The tags of the protocol are quoted digits. *)
Definition quoted (tag : string) : string := String quote (tag +:+ String quote "").
Definition plain_tag (tag : string) : Prop :=
  tag ≠ "" ∧ has_byte quote tag = false ∧ has_byte apostrophe tag = false ∧ ToLower tag = tag.

Lemma is_byte_refl c : is_byte c c = true.
Proof. unfold is_byte. by destruct (ascii_dec c c). Qed.

Lemma strip_byte_app c a b : strip_byte c (a +:+ b) = strip_byte c a +:+ strip_byte c b.
Proof.
  induction a as [|x a IH]; [done |]. change (String x a +:+ b) with (String x (a +:+ b)). cbn [strip_byte].
  rewrite IH. by destruct (is_byte c x).
Qed.

Lemma strip_quoted tag : has_byte quote tag = false → strip_byte quote (quoted tag) = tag.
Proof.
  intros Hq. unfold quoted. cbn [strip_byte]. rewrite is_byte_refl, strip_byte_app, strip_byte_none by done.
  cbn [strip_byte]. rewrite is_byte_refl. apply string_app_nil_r.
Qed.

Fixpoint none (f : ascii → bool) (s : string) : bool :=
  match s with EmptyString => true | String a s => negb (f a) && none f s end.

Lemma TrimRightFunc_app f s t : TrimRightFunc f t = "" → TrimRightFunc f (s +:+ t) = TrimRightFunc f s.
Proof.
  intros Ht. induction s as [|a s IH]; [done |]. change (String a s +:+ t) with (String a (s +:+ t)).
  cbn [TrimRightFunc]. by rewrite IH.
Qed.

Lemma TrimRightFunc_none f s : none f s = true → TrimRightFunc f s = s.
Proof.
  induction s as [|a s IH]; [done |]. cbn [none TrimRightFunc]. intros [Ha%negb_true_iff Hs]%andb_true_iff.
  by rewrite IH, Ha, andb_false_r.
Qed.

Lemma TrimFunc_quoted f tag : tag ≠ "" → none f tag = true → f quote = true → TrimFunc f (quoted tag) = tag.
Proof.
  intros Ht Hn Hq. unfold TrimFunc, quoted. cbn [TrimLeftFunc]. rewrite Hq. destruct tag as [|a tag]; [done |].
  change (String a tag +:+ ?t) with (String a (tag +:+ t)). pose proof Hn as Hn'. cbn [none] in Hn.
  apply andb_true_iff in Hn as [Ha%negb_true_iff _]. cbn [TrimLeftFunc]. rewrite Ha.
  change (String a (tag +:+ ?t)) with (String a tag +:+ t). rewrite TrimRightFunc_app; [by apply TrimRightFunc_none |].
  cbn [TrimRightFunc]. by rewrite Hq.
Qed.

Lemma none_byte c s : has_byte c s = false → none (is_byte c) s = true.
Proof. induction s as [|a s IH]; [done |]. cbn [has_byte none]. by intros [-> ?%IH]%orb_false_iff. Qed.

Lemma none_bytes c d s : has_byte c s = false → has_byte d s = false → none (λ a, is_byte c a || is_byte d a) s = true.
Proof.
  induction s as [|a s IH]; [done |]. cbn [has_byte none]. intros [-> ?]%orb_false_iff [-> ?]%orb_false_iff. by rewrite IH.
Qed.

Lemma TrimByte_quoted tag : plain_tag tag → TrimByte quote (quoted tag) = tag.
Proof. intros (H1 & H2 & _). apply TrimFunc_quoted; [done | by apply none_byte | apply is_byte_refl]. Qed.

(** ** Parts *)

Lemma sign_loop_Forall2 f numbers ps : sign_loop f numbers = inl ps → Forall2 (λ n p, f n = inl p) numbers ps.
Proof.
  revert ps. induction numbers as [|n numbers IH]; intros ps; simpl; [by intros [= <-] |].
  destruct (f n) as [p|] eqn:Hp; [| done]. destruct (sign_loop f numbers) as [ps'|]; [| done].
  intros [= <-]. constructor; [done | by apply IH].
Qed.

(** The address of a part, as one who has the result puts it together. *)
Definition part_address (r : AuthSignResult) (p : SignPart) : string := if String.eqb (SURL p) "" then AURL r else SURL p.

Lemma aws_sign_loop_spec presign Parse numbers res r :
  (∀ u v q, Parse u = inl (v, q) → v ≠ "") →
  (AURL res = "" → AParts res = []) →
  aws_sign_loop presign Parse numbers res = inl r →
  (AURL res ≠ "" → AURL r = AURL res) ∧
  ∃ ps, AParts r = AParts res ++ ps ∧
    Forall2 (λ n p, ∃ u h v q, presign (wrap32 n) = inl (u, h) ∧ Parse u = inl (v, q) ∧
      SNumber p = n ∧ part_address r p = v ∧ SQuery p = q ∧ SHeader p = h) numbers ps.
Proof.
  intros Hne. revert res. induction numbers as [|n numbers IH]; intros res Hres; simpl.
  - intros [= <-]. split; [done |]. exists []. by rewrite app_nil_r.
  - destruct (presign (wrap32 n)) as [[u h]|] eqn:Hp; [| done]. destruct (Parse u) as [[v q]|] eqn:Hv; [| done].
    set (url := if String.eqb (AURL res) "" then v else AURL res). intros Hr.
    assert (url ≠ "") as Hurl.
    { subst url. destruct (String.eqb_spec (AURL res) ""); [by eapply Hne | done]. }
    apply IH in Hr as (Hu & ps & Hps & Hall); [| done]. specialize (Hu Hurl). simpl in *.
    split; [intros Hres'; rewrite Hu; subst url; by destruct (String.eqb_spec (AURL res) "") |].
    eexists. split; [by rewrite Hps, <- app_assoc |]. simpl. constructor; [| exact Hall].
    exists u, h, v, q. split_and!; try done. unfold part_address. simpl.
    destruct (String.eqb_spec url v) as [He | Hd]; [by rewrite Hu, He |].
    destruct (String.eqb_spec v "") as [-> |]; [| done]. by eapply Hne in Hv.
Qed.

(** * Properties *)

(** The five stores agree.  Given the reply of the protocol for one and the same
    object, with its tag in quotes, in headers or in fields as the library of each store
    has it, they give the same object and the same tag of a copy, which is compared with
    it: the tag without quotes, the size and the time, except that cos takes a leading
    slash off the name and kodo leaves the time out.  So do they for a completed upload,
    except that cos leaves the quotes, and for the parts that are there, except that the
    tags are as the library gives them, with or without quotes, and aws gives none. *)
Theorem stores_agree ParseTime FormatTime tag name size t bucket dst src loc number :
  (∀ t, ParseTime (FormatTime t) = Some t ∧ FormatTime t ≠ "") → plain_tag tag → 0 ≤ size < two63 →
  let headers (k : string) :=
    if String.eqb k "ETag" then quoted tag else if String.eqb k "Content-Length" then Itoa size
    else if String.eqb k "Last-Modified" then FormatTime t else "" in
  let object n lm := inl (MkInfo tag n size lm) in
  let completed o := inl (MkComplete loc bucket name o) in
  (Minio_StatObject (λ n, inl (MkInfo tag n size (Some t))) name = object name (Some t) ∧
   Cos_StatObject ParseTime (λ _, inl headers) name = object (cos_name name) (Some t) ∧
   OSS_StatObject ParseTime (λ _, inl headers) name = object name (Some t) ∧
   Aws_StatObject (λ _, inl (Some (quoted tag), Some size, Some t)) name = object name (Some t) ∧
   Kodo_StatObject (λ _, inl (Some (quoted tag), Some size, Some t)) name = object name None) ∧
  (Minio_CopyObject (λ _ _, inl (quoted tag, "")) src dst = inl (MkCopy dst tag) ∧
   Minio_CopyObject (λ _ _, inl ("", quoted tag)) src dst = inl (MkCopy dst tag) ∧
   Cos_CopyObject bucket (λ _ _, inl (quoted tag)) src dst = inl (MkCopy dst tag) ∧
   OSS_CopyObject (λ _ _, inl (quoted tag)) src dst = inl (MkCopy dst tag) ∧
   Aws_CopyObject bucket (λ _ _, inl (Some (Some (quoted tag)))) src dst = inl (MkCopy dst tag) ∧
   Kodo_CopyObject bucket (λ _ _, inl (Some (Some (quoted tag)))) src dst = Ret (inl (MkCopy dst tag))) ∧
  (let lib o : complete_lib := λ _ _ _, inl (MkComplete loc bucket name o) in
   Minio_CompleteMultipartUpload (lib tag) "id" name [] = completed tag ∧
   OSS_CompleteMultipartUpload (lib (quoted tag)) "id" name [] = completed tag ∧
   Kodo_CompleteMultipartUpload (lib (quoted tag)) "id" name [] = completed tag ∧
   Aws_CompleteMultipartUpload bucket (lib (quoted tag)) "id" name [] = completed tag ∧
   Cos_CompleteMultipartUpload (lib (quoted tag)) "id" name [] = completed (quoted tag)) ∧
  (let listed o := MkList name "id" number 1000 [MkUploaded 1 (Some t) o size] in
   let aws_lib (_ _ _ : string) (_ : Z) : aws_list + goerr :=
     inl (MkAwsList (Some name) (Some "id") (Some (Itoa number)) (Some 1000) [MkAwsPart (Some 1) (Some t) (Some (quoted tag)) (Some size)]) in
   0 ≤ number < two63 →
   Minio_ListUploadedParts (λ _ _ _ _, inl (listed tag)) "id" name 0 1000 = inl (listed tag) ∧
   OSS_ListUploadedParts (λ _ _ _ _, inl (listed (quoted tag), Itoa number)) "id" name 0 1000 = inl (listed (quoted tag)) ∧
   Cos_ListUploadedParts ParseTime (λ _ _ _ _, inl (MkCosList name "id" (Itoa number) "1000" [MkCosPart 1 (FormatTime t) (quoted tag) size])) "id" name 0 1000
     = inl (listed (quoted tag)) ∧
   Kodo_ListUploadedParts aws_lib "id" name 0 1000 = inl (listed (quoted tag)) ∧
   Aws_ListUploadedParts aws_lib "id" name 0 1000 = inl (listed "")).
Proof.
  intros Htime Htag Hsize. pose proof Htag as (Hne & Hq & Ha & Hl). cbv zeta.
  assert (∀ s, String.eqb s "" = false ↔ s ≠ "") as Heq by (intros s; apply String.eqb_neq).
  assert (quoted tag ≠ "") as Hqne by done.
  assert (String.eqb tag "" = false) as Htne by by apply Heq.
  assert (String.eqb (quoted tag) "" = false) as Hqn by done.
  destruct (Htime t) as [Hparse Hfmt]. apply Heq in Hfmt.
  assert (String.eqb (Itoa size) "" = false) as Hi.
  { apply Heq. intros Hi. pose proof (ParseInt64_Itoa size Hsize) as Hp. rewrite Hi in Hp. done. }
  assert (∀ n, header_info ParseTime n (λ k, if String.eqb k "ETag" then quoted tag else if String.eqb k "Content-Length" then Itoa size
    else if String.eqb k "Last-Modified" then FormatTime t else "") = inl (MkInfo tag n size (Some t))) as Hheader.
  { intros n. unfold header_info. cbn [String.eqb Ascii.eqb Bool.eqb].
    change (String.eqb "ETag" "ETag") with true. change (String.eqb "Content-Length" "ETag") with false.
    change (String.eqb "Content-Length" "Content-Length") with true. change (String.eqb "Last-Modified" "ETag") with false.
    change (String.eqb "Last-Modified" "Content-Length") with false. change (String.eqb "Last-Modified" "Last-Modified") with true.
    cbv match. rewrite strip_quoted, Hl, Htne, Hi, ParseInt64_Itoa, Hfmt, Hparse by done. simpl.
    destruct (Z.ltb_spec size 0); [lia | done]. }
  split_and!.
  - unfold Minio_StatObject. simpl. by rewrite Hl.
  - apply Hheader.
  - apply Hheader.
  - unfold Aws_StatObject. cbn [from_option id]. unfold formatETag. by rewrite Hqn, TrimByte_quoted.
  - unfold Kodo_StatObject. cbn [from_option id]. by rewrite strip_quoted, Hl.
  - unfold Minio_CopyObject. by rewrite TrimByte_quoted, Htne, Hl.
  - unfold Minio_CopyObject. change (String.eqb (TrimByte quote "") "") with true. cbv match.
    rewrite TrimFunc_quoted, Hl; [done | done | by apply none_bytes | by rewrite is_byte_refl].
  - unfold Cos_CopyObject. by rewrite strip_quoted.
  - unfold OSS_CopyObject. by rewrite strip_quoted, Hl.
  - unfold Aws_CopyObject. cbn [from_option id]. unfold formatETag. by rewrite Hqn, TrimByte_quoted.
  - unfold Kodo_CopyObject. cbn [from_option id]. by rewrite strip_quoted, Hl.
  - unfold Minio_CompleteMultipartUpload. cbn [OETag Location OBucket OKey]. by rewrite Hl.
  - unfold OSS_CompleteMultipartUpload. cbn [OETag Location OBucket OKey]. by rewrite strip_quoted, Hl.
  - unfold Kodo_CompleteMultipartUpload. cbn [OETag Location OBucket OKey]. by rewrite strip_quoted, Hl.
  - unfold Aws_CompleteMultipartUpload. cbn [OETag Location OBucket OKey]. unfold formatETag. by rewrite Hqn, TrimByte_quoted.
  - done.
  - intros Hnum. split_and!.
    + done.
    + unfold OSS_ListUploadedParts. by rewrite ParseInt64_Itoa.
    + unfold Cos_ListUploadedParts. cbn. by rewrite ParseInt64_Itoa, Hparse.
    + unfold Kodo_ListUploadedParts. cbn [aNext from_option id]. by rewrite ParseInt64_Itoa.
    + unfold Aws_ListUploadedParts. cbn [aNext]. by rewrite ParseInt64_Itoa.
Qed.

(** A code for times. *)
Definition demo_time (s : string) : option Z :=
  match s with String _ s => decode (number s) | EmptyString => None end.

Lemma demo_times t : demo_time ("t" +:+ digits (encode t)) = Some t ∧ "t" +:+ digits (encode t) ≠ "".
Proof.
  change ("t" +:+ ?s) with (String "t" s). split; [| done]. unfold demo_time. by rewrite number_digits, decode_encode.
Qed.

Lemma stores_agree_witness :
  let tag := "0cc175b9c0f1b6a831c399e269772661" in
  let headers (k : string) :=
    if String.eqb k "ETag" then quoted tag else if String.eqb k "Content-Length" then Itoa 42
    else if String.eqb k "Last-Modified" then "t" +:+ digits (encode 7) else "" in
  OSS_StatObject demo_time (λ _, inl headers) "a" = inl (MkInfo tag "a" 42 (Some 7)) ∧
  OSS_CopyObject (λ _ _, inl (quoted tag)) "a" "b" = inl (MkCopy "b" tag).
Proof.
  assert (plain_tag "0cc175b9c0f1b6a831c399e269772661") as Htag by (split_and!; done).
  destruct (stores_agree demo_time (λ t, "t" +:+ digits (encode t)) _ "a" 42 7 "bucket" "b" "a" "" 0 demo_times Htag
    ltac:(unfold two63; lia)) as ((_ & _ & Hs & _) & (_ & _ & _ & Hc & _) & _).
  split; [exact Hs | exact Hc].
Defined.

Lemma kodo_sign_loop_spec presign numbers :
  match kodo_sign_loop presign numbers with
  | Ret ps => Forall2 (λ n p, presign (wrap32 n) = inl (SURL p, SHeader p) ∧ SNumber p = n) numbers ps
  | Panic _ => Exists (λ n, ∃ e, presign (wrap32 n) = inr e) numbers
  end.
Proof.
  induction numbers as [|n numbers IH]; simpl; [constructor |].
  destruct (presign (wrap32 n)) as [[u h]|e] eqn:Hp; [| left; by exists e].
  destruct (kodo_sign_loop presign numbers); [by constructor | by right].
Qed.

(** Every part that is asked for is signed, once and in the order asked.  minio signs
    the address of each part with its number and the upload; cos signs one address for
    all of them; oss signs an address of its own for each; aws takes the address of the
    first part out as the address of the result, and with the rest of each part the
    address and the query that the library signed come back for every part.  kodo panics
    exactly when the library fails for a part. *)
Theorem authsign_parts endpoint bucket prefix base Encode cdn id name numbers :
  (∀ sign r, Minio_AuthSign endpoint bucket prefix None sign id name numbers = inl r →
     Forall2 (λ n p, SNumber p = n ∧ SQuery p = [("partNumber", Itoa n)] ∧
       sign (endpoint +:+ "/" +:+ bucket +:+ "/" +:+ name +:+ "?partNumber=" +:+ Itoa n +:+ "&uploadId=" +:+ id) = inl (SHeader p))
       numbers (AParts r)) ∧
  (∀ sign r, Cos_AuthSign base Encode cdn sign id name numbers = inl r →
     sign (base +:+ "/" +:+ Encode name) = inl (AHeader r) ∧ (SNumber <$> AParts r) = numbers) ∧
  (∀ sign r, OSS_AuthSign base bucket sign id name numbers = inl r →
     Forall2 (λ n p, SNumber p = n ∧ let q := "?partNumber=" +:+ Itoa n +:+ "&uploadId=" +:+ id in
       sign (base +:+ name +:+ q) ("/" +:+ bucket +:+ "/" +:+ name +:+ q) = inl (SURL p, SHeader p)) numbers (AParts r)) ∧
  (∀ presign Parse r, (∀ u v q, Parse u = inl (v, q) → v ≠ "") → Aws_AuthSign presign Parse numbers = inl r →
     Forall2 (λ n p, ∃ u h v q, presign (wrap32 n) = inl (u, h) ∧ Parse u = inl (v, q) ∧
       SNumber p = n ∧ part_address r p = v ∧ SQuery p = q ∧ SHeader p = h) numbers (AParts r)) ∧
  (∀ presign, match Kodo_AuthSign base presign id name numbers with
     | Ret r => Forall2 (λ n p, presign (wrap32 n) = inl (SURL p, SHeader p) ∧ SNumber p = n) numbers (AParts r)
     | Panic _ => Exists (λ n, ∃ e, presign (wrap32 n) = inr e) numbers
     end).
Proof.
  split_and!.
  - intros sign r. unfold Minio_AuthSign. destruct (sign_loop _ _) as [ps|] eqn:Hl; [| done]. intros [= <-].
    apply sign_loop_Forall2 in Hl. eapply Forall2_impl; [exact Hl |]. intros n p. simpl.
    rewrite <- !string_app_assoc. destruct (sign _); [| done]. by intros [= <-].
  - intros sign r. unfold Cos_AuthSign. destruct (sign _); [| done]. intros [= <-]. split; [done |]. simpl.
    rewrite <- list_fmap_compose. apply list_fmap_id.
  - intros sign r. unfold OSS_AuthSign. destruct (sign_loop _ _) as [ps|] eqn:Hl; [| done]. intros [= <-].
    apply sign_loop_Forall2 in Hl. eapply Forall2_impl; [exact Hl |]. intros n p. simpl.
    destruct (sign _ _) as [[u h]|]; [| done]. by intros [= <-].
  - intros presign Parse r Hne Hr. apply aws_sign_loop_spec in Hr as (_ & ps & Hps & Hall); [| done..].
    by rewrite Hps.
  - intros presign. unfold Kodo_AuthSign. pose proof (kodo_sign_loop_spec presign numbers) as Hk.
    by destruct (kodo_sign_loop presign numbers).
Qed.

Lemma authsign_parts_witness :
  ∃ r, Aws_AuthSign (λ n, inl ("http://h/" +:+ Itoa n, [])) (λ u, inl ("http://h", [("u", u)])) [1; 2] = inl r ∧
    AURL r = "http://h" ∧ (SURL <$> AParts r) = [""; ""] ∧
    Forall2 (λ n p, SNumber p = n ∧ part_address r p = "http://h") [1; 2] (AParts r).
Proof.
  eexists. split; [vm_compute; reflexivity |]. split; [reflexivity |]. split; [reflexivity |].
  destruct (authsign_parts "" "" "" "" id None "id" "a" [1; 2]) as (_ & _ & _ & Ha & _).
  eapply Forall2_impl;
    [apply (Ha (λ n, inl ("http://h/" +:+ Itoa n, [])) (λ u, inl ("http://h", [("u", u)])) _
       ltac:(intros u v q [= <- <-]; discriminate) eq_refl) |].
  intros n p (u & h & v & q & _ & [= <- <-] & ? & ? & _). done.
Defined.
