(* ===== verification/Encrypt.v ===== *)
(** * AES encryption of byte strings (utils/encrypt)

    A byte is an integer from 0 to 255.  The cipher of one block is a class with the law
    of its documentation; the chaining of blocks and the padding are written out.  Slices
    are their contents: that the padding may be appended in the spare capacity of the
    caller's slice, where the caller's slice does not reach, is not modelled. *)

From S2P Require Import Prelude.

Local Open Scope Z_scope.
Local Open Scope go_scope.

Notation bytes := (list Z).

Definition is_bytes (l : bytes) : Prop := Forall (λ b, 0 ≤ b < 256) l.
Definition byte (z : Z) : Z := z mod 256.

Definition BlockSize : nat := 16.

(** Package aes: [None] is the error of a key of a wrong size. *)
Class Aes := {
  block : Type;
  NewCipher : bytes → option block;
  Encrypt : block → bytes → bytes;
  Decrypt : block → bytes → bytes
}.

Class AesLaws `{!Aes} := {
  key_size k b : NewCipher k = Some b → (BlockSize ≤ length k)%nat;
  Encrypt_block b x : length x = BlockSize → is_bytes x → length (Encrypt b x) = BlockSize ∧ is_bytes (Encrypt b x);
  Decrypt_Encrypt b x : length x = BlockSize → is_bytes x → Decrypt b (Encrypt b x) = x
}.

Section encrypt.
Context `{!Aes}.

(** ** Chaining (cipher.NewCBCEncrypter and NewCBCDecrypter), for a number of blocks *)

Definition xor (x y : bytes) : bytes := zip_with Z.lxor x y.

Fixpoint cbc_encrypt (n : nat) (b : block) (iv src : bytes) : bytes :=
  match n with
  | O => []
  | S n => let c := Encrypt b (xor (take BlockSize src) iv) in c ++ cbc_encrypt n b c (drop BlockSize src)
  end.

Fixpoint cbc_decrypt (n : nat) (b : block) (iv src : bytes) : bytes :=
  match n with
  | O => []
  | S n => let c := take BlockSize src in xor (Decrypt b c) iv ++ cbc_decrypt n b c (drop BlockSize src)
  end.

(** [CryptBlocks] panics on a length that is not a number of blocks. *)
Definition CryptBlocks (f : nat → block → bytes → bytes → bytes) (b : block) (iv src : bytes) : outcome bytes :=
  if Nat.eqb (length src mod BlockSize) 0 then Ret (f (length src / BlockSize)%nat b iv src)
  else Panic "crypto/cipher: input not full blocks".

(** ** Padding *)

Definition pkcs7Padding (data : bytes) (blockSize : Z) : bytes :=
  let padding := blockSize - Z.rem (Z.of_nat (length data)) blockSize in
  data ++ replicate (Z.to_nat padding) (byte padding).

Inductive aes_err := NewCipherFailed | DataIsNil.

(** The slice expression panics on a negative bound. *)
Definition pkcs7UnPadding (data : bytes) : outcome (bytes + aes_err) :=
  match last data with
  | None => Ret (inr DataIsNil)
  | Some unPadding =>
      let n := Z.of_nat (length data) - unPadding in
      if n <? 0 then Panic "slice bounds out of range" else Ret (inl (take (Z.to_nat n) data))
  end.

Definition AesEncrypt (data key : bytes) : outcome (bytes + aes_err) :=
  match NewCipher key with
  | None => Ret (inr NewCipherFailed)
  | Some b =>
      let encryptBytes := pkcs7Padding data (Z.of_nat BlockSize) in
      let! crypted := CryptBlocks cbc_encrypt b (take BlockSize key) encryptBytes in
      Ret (inl crypted)
  end.

Definition AesDecrypt (data key : bytes) : outcome (bytes + aes_err) :=
  match NewCipher key with
  | None => Ret (inr NewCipherFailed)
  | Some b =>
      let! crypted := CryptBlocks cbc_decrypt b (take BlockSize key) data in
      pkcs7UnPadding crypted
  end.

(** * Lemmas *)

Lemma is_bytes_xor x y : is_bytes x → is_bytes y → is_bytes (xor x y).
Proof.
  intros Hx Hy. unfold xor, is_bytes in *. revert y Hy. induction Hx as [|a x Ha Hx IH]; intros [|b y] Hy; simpl; try constructor.
  - inversion_clear Hy as [|? ? Hb _]. split; [apply Z.lxor_nonneg; lia |].
    destruct (Z.eq_dec (Z.lxor a b) 0) as [-> | Hne]; [lia |].
    assert (0 < Z.lxor a b) by (pose proof (proj2 (Z.lxor_nonneg a b)); lia).
    apply (Z.log2_lt_pow2 _ 8); [done |].
    pose proof (Z.log2_lxor a b ltac:(lia) ltac:(lia)) as Hl.
    assert (∀ c, 0 ≤ c < 256 → Z.log2 c < 8) as Hlog.
    { intros c Hc. destruct (Z.eq_dec c 0) as [-> | ?]; [done |]. apply Z.log2_lt_pow2; lia. }
    pose proof (Hlog a Ha). pose proof (Hlog b Hb). lia.
  - apply IH. by inversion_clear Hy.
Qed.

Lemma xor_xor x y : (length x ≤ length y)%nat → xor (xor x y) y = x.
Proof.
  unfold xor. revert y. induction x as [|a x IH]; intros [|b y] Hl; simpl in *; [done.. | lia |].
  f_equal; [| apply IH; lia]. by rewrite Z.lxor_assoc, Z.lxor_nilpotent, Z.lxor_0_r.
Qed.

Lemma length_xor x y : length x = length y → length (xor x y) = length x.
Proof. intros Hl. unfold xor. rewrite length_zip_with. lia. Qed.

Context `{!AesLaws}.

Lemma cbc_roundtrip n b iv src :
  length iv = BlockSize → is_bytes iv → length src = (n * BlockSize)%nat → is_bytes src →
  length (cbc_encrypt n b iv src) = length src ∧ is_bytes (cbc_encrypt n b iv src) ∧
  cbc_decrypt n b iv (cbc_encrypt n b iv src) = src.
Proof.
  revert iv src. induction n as [|n IH]; intros iv src Hiv Hbiv Hlen Hsrc; cbn [cbc_encrypt cbc_decrypt].
  { destruct src; [| done]. split_and!; [done | constructor | done]. }
  assert (Htake : length (take BlockSize src) = BlockSize) by (rewrite length_take; unfold BlockSize in *; lia).
  assert (Hdrop : length (drop BlockSize src) = (n * BlockSize)%nat) by (rewrite length_drop; unfold BlockSize in *; lia).
  assert (Hbt : is_bytes (take BlockSize src)) by by apply Forall_take.
  assert (Hbd : is_bytes (drop BlockSize src)) by by apply Forall_drop.
  set (x := xor (take BlockSize src) iv).
  assert (Hlx : length x = BlockSize) by (unfold x; rewrite length_xor; congruence).
  assert (Hbx : is_bytes x) by by apply is_bytes_xor.
  destruct (Encrypt_block b x Hlx Hbx) as [Hc Hbc]. set (c := Encrypt b x) in *. cbv zeta.
  destruct (IH c (drop BlockSize src) Hc Hbc Hdrop Hbd) as (Hl & Hb & Hd).
  rewrite take_app_length' by done. rewrite drop_app_length' by done. split_and!.
  - rewrite length_app, Hl, Hc, Hdrop. lia.
  - by apply Forall_app.
  - rewrite Hd. unfold c. rewrite Decrypt_Encrypt by done. unfold x. rewrite xor_xor by lia. by apply take_drop.
Qed.

(** The padding fills the last block, with at least one byte. *)
Lemma pkcs7Padding_spec data :
  is_bytes data →
  ∃ k, (0 < k ≤ BlockSize)%nat ∧ pkcs7Padding data (Z.of_nat BlockSize) = data ++ replicate k (Z.of_nat k) ∧
    (length data + k = (length data / BlockSize + 1) * BlockSize)%nat ∧ is_bytes (replicate k (Z.of_nat k)).
Proof.
  intros Hd. pose proof (Nat.div_mod_eq (length data) BlockSize) as Hdm.
  pose proof (Nat.mod_upper_bound (length data) BlockSize ltac:(done)) as Hm.
  exists (BlockSize - length data mod BlockSize)%nat. unfold pkcs7Padding, byte.
  assert (Hr : Z.rem (Z.of_nat (length data)) (Z.of_nat BlockSize) = Z.of_nat (length data mod BlockSize)).
  { rewrite Z.rem_mod_nonneg by (unfold BlockSize; lia). by rewrite Nat2Z.inj_mod. }
  rewrite Hr. replace (Z.of_nat BlockSize - _) with (Z.of_nat (BlockSize - length data mod BlockSize)) by lia.
  rewrite Nat2Z.id, Z.mod_small by (unfold BlockSize in *; lia). split_and!; [lia | lia | done | lia |].
  apply Forall_replicate. unfold BlockSize in *. lia.
Qed.

Lemma pkcs7UnPadding_replicate data k :
  (0 < k)%nat → pkcs7UnPadding (data ++ replicate k (Z.of_nat k)) = Ret (inl data).
Proof.
  intros Hk. unfold pkcs7UnPadding.
  assert (last (data ++ replicate k (Z.of_nat k)) = Some (Z.of_nat k)) as ->.
  { destruct k as [|k]; [lia |]. rewrite replicate_S_end. rewrite (assoc_L (++)). apply last_snoc. }
  rewrite length_app, length_replicate. replace (Z.of_nat (length data + k) - Z.of_nat k) with (Z.of_nat (length data)) by lia.
  destruct (Z.ltb_spec (Z.of_nat (length data)) 0); [lia |]. by rewrite Nat2Z.id, take_app_length.
Qed.

(** * Theorem *)

(** C38. Decryption undoes encryption, for every byte string and every key that the cipher
    takes, and the encrypted string is longer by one to sixteen bytes, up to the next
    number of blocks.  A string that was not encrypted so is not rejected: if it is empty
    there is an error, if it is not a number of blocks the call panics, and it panics also
    when its last byte decrypts to more than its length; anything else is cut by that
    last byte, the padding being never looked at. *)
Theorem aes_roundtrip data key b :
  NewCipher key = Some b → is_bytes key → is_bytes data →
  (∃ crypted, AesEncrypt data key = Ret (inl crypted) ∧ AesDecrypt crypted key = Ret (inl data) ∧
     length crypted = ((length data / BlockSize + 1) * BlockSize)%nat) ∧
  AesDecrypt [] key = Ret (inr DataIsNil) ∧
  ((length data mod BlockSize)%nat ≠ 0%nat → ∃ why, AesDecrypt data key = Panic why) ∧
  (∀ plain c, (length data mod BlockSize)%nat = 0%nat →
     cbc_decrypt (length data / BlockSize)%nat b (take BlockSize key) data = plain ++ [c] →
     if decide (c ≤ Z.of_nat (S (length plain)))
     then AesDecrypt data key = Ret (inl (take (Z.to_nat (Z.of_nat (S (length plain)) - c)) (plain ++ [c])))
     else ∃ why, AesDecrypt data key = Panic why).
Proof.
  intros Hk Hbk Hbd. pose proof (key_size key b Hk) as Hks.
  assert (Hiv : length (take BlockSize key) = BlockSize) by (rewrite length_take; lia).
  assert (Hbiv : is_bytes (take BlockSize key)) by by apply Forall_take.
  unfold AesEncrypt, AesDecrypt. rewrite Hk. split_and!.
  - destruct (pkcs7Padding_spec data Hbd) as (k & Hkb & -> & Hlen & Hbr).
    set (padded := data ++ replicate k (Z.of_nat k)).
    assert (Hpl : length padded = ((length data / BlockSize + 1) * BlockSize)%nat).
    { unfold padded. by rewrite length_app, length_replicate. }
    unfold CryptBlocks. rewrite Hpl, Nat.Div0.mod_mul, Nat.div_mul by done. cbn [Nat.eqb obind].
    destruct (cbc_roundtrip (length data / BlockSize + 1)%nat b (take BlockSize key) padded Hiv Hbiv Hpl) as (Hl & Hb & Hd);
      [by apply Forall_app |].
    eexists. split; [done |]. rewrite Hl, Hpl, Nat.Div0.mod_mul, Nat.div_mul by done. cbn [Nat.eqb obind].
    rewrite Hd. split; [apply pkcs7UnPadding_replicate; lia | done].
  - done.
  - intros Hm. unfold CryptBlocks. rewrite (proj2 (Nat.eqb_neq _ _)) by done. by eexists.
  - intros plain c Hm Hp. unfold CryptBlocks. rewrite (proj2 (Nat.eqb_eq _ _)) by done. cbn [obind]. rewrite Hp.
    unfold pkcs7UnPadding. rewrite last_snoc, length_app. simpl.
    replace (Z.of_nat (length plain + 1)) with (Z.of_nat (S (length plain))) by lia.
    case_decide.
    + destruct (Z.ltb_spec (Z.of_nat (S (length plain)) - c) 0); [lia | done].
    + destruct (Z.ltb_spec (Z.of_nat (S (length plain)) - c) 0); [by eexists | lia].
Qed.
End encrypt.

(** A cipher that rotates the block: enough for the laws. *)
#[export] Instance demo_aes : Aes := {|
  block := bytes;
  NewCipher k := if bool_decide (length k = 16%nat ∨ length k = 24%nat ∨ length k = 32%nat) then Some k else None;
  Encrypt k x := drop 5 x ++ take 5 x;
  Decrypt k x := drop 11 x ++ take 11 x
|}.

#[export] Instance demo_aes_laws : AesLaws.
Proof.
  split; simpl.
  - intros k b. case_bool_decide; [| done]. unfold BlockSize. intros _. lia.
  - intros b x Hl Hx. split; [rewrite length_app, length_drop, length_take; unfold BlockSize in *; lia |].
    apply Forall_app. split; [by apply Forall_drop | by apply Forall_take].
  - intros b x Hl Hx. unfold BlockSize in Hl.
    rewrite drop_app_length', take_app_length' by (rewrite length_drop; lia). apply take_drop.
Qed.

Definition demo_key : bytes := (λ i, Z.of_nat i) <$> seq 0 16.

Lemma aes_roundtrip_witness :
  ∃ crypted, AesEncrypt [104; 105] demo_key = Ret (inl crypted) ∧ length crypted = 16%nat ∧
    AesDecrypt crypted demo_key = Ret (inl [104; 105]).
Proof.
  destruct (@aes_roundtrip demo_aes demo_aes_laws [104; 105] demo_key demo_key) as [(crypted & He & Hd & Hl) _].
  - vm_compute. reflexivity.
  - vm_compute. repeat constructor; discriminate.
  - vm_compute. repeat constructor; discriminate.
  - exists crypted. split; [exact He |]. split; [exact Hl | exact Hd].
Defined.
