(* ===== verification/StringUtil.v ===== *)
(** * Helpers on strings (utils/stringutil, utils/splitter)

    Sets as slices, conversions, padding, names and addresses; the splitting of a slice.
    Characters are those of ASCII where the code asks for letters and digits. *)

From Stdlib Require Import Ascii.
From S2P Require Import Prelude GoStrings Mongo Rpc.

Local Open Scope Z_scope.

(** ** Conversions; an error leaves what [ParseInt] gave *)

Definition IntToString (i : Z) : string := Itoa i.
Definition StringToInt (i : string) : Z := (ParseInt64 i).1.
Definition StringToInt64 (i : string) : Z := (ParseInt64 i).1.
Definition StringToInt32 (i : string) : Z := wrap32 (ParseInt64 i).1.
Definition Int32ToString (i : Z) : string := Itoa i.
Definition Uint32ToString (i : Z) : string := Itoa i.
Definition Int64ToString (i : Z) : string := Itoa i.

(** ** Slices as sets *)

Section sets.
Context {T : Type} `{Countable T}.

Fixpoint IsContain (target : T) (l : list T) : bool :=
  match l with [] => false | x :: l => bool_decide (target = x) || IsContain target l end.

Fixpoint dedup_loop (temp : gset T) (arr : list T) : list T :=
  match arr with
  | [] => []
  | item :: arr => if decide (item ∈ temp) then dedup_loop temp arr else item :: dedup_loop ({[item]} ∪ temp) arr
  end.

Definition RemoveDuplicate (arr : list T) : list T := dedup_loop ∅ arr.

Fixpoint duplicate_slice_loop (t : gset T) (arr : list T) : bool :=
  match arr with
  | [] => false
  | s :: arr => if decide (s ∈ t) then true else duplicate_slice_loop ({[s]} ∪ t) arr
  end.

Definition IsDuplicateStringSlice (arr : list T) : bool := duplicate_slice_loop ∅ arr.

(** The map of a slice, and the two functions on slices. *)
Definition marks (l : list T) : gmap T bool := fold_left (λ m v, <[v := true]> m) l ∅.

Definition Intersect (slice1 slice2 : list T) : list T :=
  filter (λ v, default false (marks slice1 !! v) = true) slice2.

Definition Difference (slice1 slice2 : list T) : list T :=
  let m := marks (Intersect slice1 slice2) in
  filter (λ v, default false (m !! v) = false) slice1 ++ filter (λ v, default false (m !! v) = false) slice2.
End sets.

(** ** Names *)

Definition cleanUpFuncName (funcName : string) : string :=
  match LastIndexByte "." funcName with None => "" | Some e => sdrop (S e) funcName end.

Definition is_upper (c : ascii) : bool := let n := nat_of_ascii c in Nat.leb 65 n && Nat.leb n 90.
Definition is_lower (c : ascii) : bool := let n := nat_of_ascii c in Nat.leb 97 n && Nat.leb n 122.
Definition is_digit (c : ascii) : bool := let n := nat_of_ascii c in Nat.leb 48 n && Nat.leb n 57.
Definition is_letter (c : ascii) : bool := is_upper c || is_lower c.

Definition upper_ascii (c : ascii) : ascii := if is_lower c then ascii_of_nat (nat_of_ascii c - 32) else c.

Fixpoint camel_loop (first : bool) (s : string) : string :=
  match s with
  | EmptyString => ""
  | String c s =>
      (if is_upper c && negb first then String " " else id) (String (lower_ascii c) (camel_loop false s))
  end.

Definition CamelCaseToSpaceSeparated (input : string) : string := camel_loop true input.

Definition UpperFirst (input : string) : string :=
  match input with EmptyString => input | String c s => String (upper_ascii c) s end.
Definition LowerFirst (input : string) : string :=
  match input with EmptyString => input | String c s => String (lower_ascii c) s end.

Fixpoint all_chars (f : ascii → bool) (s : string) : bool :=
  match s with EmptyString => true | String c s => f c && all_chars f s end.

Definition IsAlphanumeric (s : string) : bool := all_chars (λ c, is_letter c || is_digit c) s.

(** The regular expression of [IsValidEmail]: no character of the first two classes is an
    [@], and the letters at the end have no dot, so the parts are those at the only [@]
    and at the last dot. *)
Definition local_char (c : ascii) : bool :=
  is_letter c || is_digit c || existsb (Ascii.eqb c) ["."; "_"; "%"; "+"; "-"]%char.
Definition domain_char (c : ascii) : bool := is_letter c || is_digit c || existsb (Ascii.eqb c) ["."; "-"]%char.

Definition IsValidEmail (email : string) : bool :=
  match IndexByte "@" email with
  | None => false
  | Some i =>
      let local := stake i email in
      let rest := sdrop (S i) email in
      match LastIndexByte "." rest with
      | None => false
      | Some j =>
          let domain := stake j rest in
          let top := sdrop (S j) rest in
          negb (String.eqb local "") && all_chars local_char local &&
          negb (String.eqb domain "") && all_chars domain_char domain &&
          (2 <=? String.length top)%nat && all_chars is_letter top
      end
  end.

(** [fmt.Sprintf] with a width counts characters, not bytes. *)
Fixpoint spaces (n : nat) : string := match n with O => "" | S n => String " " (spaces n) end.

Definition FormatString (RuneCount : string → nat) (text : string) (length : Z) (alignLeft : bool) : outcome string :=
  if length <? Z.of_nat (String.length text) then
    if length <? 0 then Panic "slice bounds out of range" else Ret (stake (Z.to_nat length) text)
  else
    let pad := spaces (Z.to_nat length - RuneCount text) in
    Ret (if alignLeft then text +:+ pad else pad +:+ text).

(** ** Splitting *)

(** The slices [[i * n, (i + 1) * n)] of the loop, and the rest. *)
Definition GetSplitResult {A} (splitCount : Z) (data : list A) : outcome (list (list A)) :=
  let len := Z.of_nat (length data) in
  if splitCount =? 0 then Panic "integer divide by zero"
  else
    let remain := Z.rem len splitCount in
    let integer := Z.quot len splitCount in
    let result := (λ i, take (Z.to_nat splitCount) (drop (i * Z.to_nat splitCount) data)) <$> seq 0 (Z.to_nat integer) in
    Ret (if 0 <? remain then result ++ [drop (Z.to_nat (integer * splitCount)) data] else result).

(** * Lemmas *)

Section sets_lemmas.
Context {T : Type} `{Countable T}.
Implicit Types (a b l arr : list T).

Lemma IsContain_spec (t : T) l : IsContain t l = true ↔ t ∈ l.
Proof.
  induction l as [|x l IH]; simpl; [split; [done | by intros Hx%elem_of_nil] |].
  rewrite orb_true_iff, IH, bool_decide_eq_true, elem_of_cons. done.
Qed.

Lemma dedup_loop_spec temp arr :
  NoDup (dedup_loop temp arr) ∧ sublist (dedup_loop temp arr) arr ∧
  ∀ x, x ∈ dedup_loop temp arr ↔ x ∈ arr ∧ x ∉ temp.
Proof.
  revert temp. induction arr as [|y arr IH]; intros temp; cbn [dedup_loop]; [split_and!; [constructor | done | set_solver] |].
  destruct (decide (y ∈ temp)) as [Hy | Hy].
  - destruct (IH temp) as (I1 & I2 & I3). split_and!; [done | by constructor |]. intros x. rewrite I3. set_solver.
  - destruct (IH ({[y]} ∪ temp)) as (I1 & I2 & I3). split_and!.
    + constructor; [rewrite I3; set_solver | done].
    + by constructor.
    + intros x. rewrite !elem_of_cons, I3. destruct (decide (x = y)); set_solver.
Qed.

Lemma dedup_loop_id temp arr : NoDup arr → (∀ x, x ∈ arr → x ∉ temp) → dedup_loop temp arr = arr.
Proof.
  revert temp. induction arr as [|y arr IH]; intros temp Hn Ht; [done |]. apply NoDup_cons in Hn as [Hy Hn].
  cbn [dedup_loop]. rewrite decide_False by (apply Ht; by left). rewrite IH; [done.. | set_solver].
Qed.

Lemma duplicate_slice_loop_spec t arr : duplicate_slice_loop t arr = false ↔ NoDup arr ∧ ∀ x, x ∈ arr → x ∉ t.
Proof.
  revert t. induction arr as [|y arr IH]; intros t; cbn [duplicate_slice_loop]; [split; [intros _; split; [constructor | set_solver] | done] |].
  destruct (decide (y ∈ t)) as [Hy | Hy]; [split; [done | set_solver] |]. rewrite IH, NoDup_cons. set_solver.
Qed.

Lemma marks_lookup l v : default false (marks l !! v) = bool_decide (v ∈ l).
Proof.
  unfold marks. assert (∀ m : gmap T bool, default false (fold_left (λ m v, <[v := true]> m) l m !! v) = bool_decide (v ∈ l) || default false (m !! v)) as Hm.
  { induction l as [|x l IH]; intros m; simpl; [done |]. rewrite IH. destruct (decide (x = v)) as [-> | Hne].
    - rewrite lookup_insert_eq. simpl. rewrite orb_true_r, bool_decide_true by by left. done.
    - rewrite lookup_insert_ne by done. f_equal. apply bool_decide_ext. set_solver. }
  rewrite Hm, lookup_empty. apply orb_false_r.
Qed.

Lemma filter_iff_in (P Q : T → Prop) `{∀ x, Decision (P x)} `{∀ x, Decision (Q x)} l :
  (∀ x, x ∈ l → P x ↔ Q x) → filter P l = filter Q l.
Proof.
  induction l as [|x l IH]; intros Heq; [done |]. rewrite !filter_cons, IH by (intros y Hy; apply Heq; by right).
  pose proof (Heq x ltac:(by left)). do 2 destruct (decide _); tauto.
Qed.

Lemma Intersect_filter a b : Intersect a b = filter (λ x, x ∈ a) b.
Proof. unfold Intersect. apply list_filter_iff. intros x. by rewrite marks_lookup, bool_decide_eq_true. Qed.

Lemma Difference_filter a b : Difference a b = filter (λ x, x ∉ b) a ++ filter (λ x, x ∉ a) b.
Proof.
  unfold Difference. cbv zeta. rewrite Intersect_filter.
  f_equal; apply filter_iff_in; intros x Hx; rewrite marks_lookup, bool_decide_eq_false, list_elem_of_filter; tauto.
Qed.
End sets_lemmas.

Lemma all_chars_app f a b : all_chars f (a +:+ b) = all_chars f a && all_chars f b.
Proof. induction a as [|c a IH]; [done |]. simpl. by rewrite IH, andb_assoc. Qed.

Lemma all_chars_has f c s : f c = false → all_chars f s = true → has_byte c s = false.
Proof.
  intros Hc. induction s as [|x s IH]; [done |]. cbn [all_chars has_byte]. intros [Hx Hs]%andb_true_iff.
  rewrite (IH Hs), orb_false_r. unfold is_byte. destruct (ascii_dec _ _) as [-> |]; [congruence | done].
Qed.

(** What a string is made of around a byte. *)
Lemma IndexByte_split c s i : IndexByte c s = Some i → s = stake i s +:+ String c (sdrop (S i) s).
Proof.
  revert i. induction s as [|a s IH]; intros i; simpl; [done |]. unfold is_byte. destruct (ascii_dec a c) as [-> |].
  - by intros [= <-].
  - destruct (IndexByte c s) as [j|]; [| done]. intros [= <-]. by rewrite (IH j eq_refl) at 1.
Qed.

Lemma LastIndexByte_split c s i : LastIndexByte c s = Some i → s = stake i s +:+ String c (sdrop (S i) s).
Proof.
  revert i. induction s as [|a s IH]; intros i; simpl; [done |]. destruct (LastIndexByte c s) as [j|].
  - intros [= <-]. by rewrite (IH j eq_refl) at 1.
  - unfold is_byte. destruct (ascii_dec a c) as [-> |]; [by intros [= <-] | done].
Qed.

Lemma sdrop_app_S a c b : sdrop (S (String.length a)) (a +:+ String c b) = b.
Proof. induction a as [|x a IH]; [done | apply IH]. Qed.

Lemma spaces_length n : String.length (spaces n) = n.
Proof. induction n; simpl; congruence. Qed.

Lemma concat_chunks {A} n k (l : list A) :
  concat ((λ i, take n (drop (i * n) l)) <$> seq 0 k) = take (k * n) l.
Proof.
  induction k as [|k IH]; [done |]. rewrite seq_S, fmap_app, concat_app, IH. simpl. rewrite app_nil_r.
  rewrite take_take_drop. f_equal. lia.
Qed.

(** * Properties *)

(** The set operations on slices.  [RemoveDuplicate] keeps the elements of its slice,
    each once, in an order of it; [IsDuplicateStringSlice] tells whether it would drop
    one.  [Intersect] is the second slice without what the first does not have, and
    [Difference] what only one of the two has, the first before the second: both keep
    repetitions.  On slices without repetitions they are the intersection and the
    symmetric difference. *)
Theorem string_sets {T} `{Countable T} (a b : list T) :
  (NoDup (RemoveDuplicate a) ∧ sublist (RemoveDuplicate a) a ∧ (∀ x, x ∈ RemoveDuplicate a ↔ x ∈ a)) ∧
  (IsDuplicateStringSlice a = false ↔ RemoveDuplicate a = a) ∧
  Intersect a b = filter (λ x, x ∈ a) b ∧
  Difference a b = filter (λ x, x ∉ b) a ++ filter (λ x, x ∉ a) b ∧
  (NoDup a → NoDup b → NoDup (Intersect a b) ∧ NoDup (Difference a b)) ∧
  list_to_set (C := gset T) (Difference a b) =
    (list_to_set a ∖ list_to_set b) ∪ (list_to_set b ∖ list_to_set a).
Proof.
  destruct (dedup_loop_spec ∅ a) as (D1 & D2 & D3). rewrite Intersect_filter, Difference_filter. split_and!; try done.
  - intros x. rewrite D3. set_solver.
  - unfold IsDuplicateStringSlice. rewrite duplicate_slice_loop_spec. split.
    + intros [Hn _]. apply dedup_loop_id; [done | set_solver].
    + intros Heq. split; [by rewrite <- Heq | set_solver].
  - intros Ha Hb. split; [by apply NoDup_filter |]. apply NoDup_app. split_and!; [by apply NoDup_filter | | by apply NoDup_filter].
    intros x. rewrite !list_elem_of_filter. tauto.
  - apply set_eq. intros x. rewrite elem_of_union, !elem_of_difference, !elem_of_list_to_set, elem_of_app, !list_elem_of_filter. tauto.
Qed.

(** [IsValidEmail] accepts what its regular expression describes, and only that:
    characters of the first class, an [@], characters of the second one, a dot and at
    least two letters. *)
Theorem email_regexp s :
  IsValidEmail s = true ↔
  ∃ l d t, s = l +:+ String "@" (d +:+ String "." t) ∧ l ≠ "" ∧ all_chars local_char l = true ∧
    d ≠ "" ∧ all_chars domain_char d = true ∧ (2 ≤ String.length t)%nat ∧ all_chars is_letter t = true.
Proof.
  unfold IsValidEmail. split.
  - destruct (IndexByte "@" s) as [i|] eqn:Hi; [| done]. apply IndexByte_split in Hi.
    destruct (LastIndexByte "." (sdrop (S i) s)) as [j|] eqn:Hj; [| done]. apply LastIndexByte_split in Hj.
    rewrite !andb_true_iff, !negb_true_iff, !String.eqb_neq. intros (((((Hl & Hla) & Hd) & Hda) & Ht) & Hta).
    apply Nat.leb_le in Ht. eexists _, _, _. split; [by rewrite <- Hj |]. done.
  - intros (l & d & t & -> & Hl & Hla & Hd & Hda & Ht & Hta).
    assert (has_byte "@" l = false) as Hat by (by apply (all_chars_has local_char)).
    assert (has_byte "." t = false) as Hdot by (by apply (all_chars_has is_letter)).
    rewrite IndexByte_app, stake_app, sdrop_app_S, LastIndexByte_app, stake_app, sdrop_app_S by done.
    apply String.eqb_neq in Hl, Hd. apply Nat.leb_le in Ht. by rewrite Hl, Hla, Hd, Hda, Ht, Hta.
Qed.

(** A slice is split without loss exactly for a positive count: the parts have that
    length, the last one possibly less, and put together they are the slice.  A count of
    zero panics, and a negative one keeps only the elements of the remainder. *)
Theorem split_result {A} (n : Z) (data : list A) :
  match GetSplitResult n data with
  | Panic _ => n = 0
  | Ret parts =>
      (0 < n → concat parts = data ∧ ∀ i p, parts !! i = Some p →
         (0 < length p)%nat ∧ Z.of_nat (length p) ≤ n ∧ ((S i < length parts)%nat → Z.of_nat (length p) = n)) ∧
      (n < 0 → concat parts = drop (length data - Z.to_nat (Z.of_nat (length data) `mod` (- n))) data)
  end.
Proof.
  unfold GetSplitResult. destruct (Z.eqb_spec n 0) as [| Hn]; [done |].
  set (len := Z.of_nat (length data)). split.
  - intros Hpos. pose proof (Z.quot_rem' len n) as Hqr. pose proof (Z.rem_bound_pos len n ltac:(lia) Hpos) as Hr.
    assert (0 ≤ len ÷ n) as Hq by (apply Z.quot_pos; lia). set (q := len ÷ n) in *. set (r := Z.rem len n) in *.
    set (full := _ <$> seq 0 (Z.to_nat q)).
    assert (concat full = take (Z.to_nat q * Z.to_nat n) data) as Hfull by apply concat_chunks.
    assert (∀ i p, full !! i = Some p → (0 < length p)%nat ∧ Z.of_nat (length p) = n) as Hlen.
    { intros i p Hp. subst full. apply list_lookup_fmap_Some in Hp as (k & -> & Hk). apply lookup_seq in Hk as [-> Hk].
      rewrite length_take, length_drop. unfold len in *. nia. }
    assert (length full = Z.to_nat q) as Hfl by (unfold full; by rewrite length_fmap, length_seq).
    destruct (Z.ltb_spec 0 r) as [Hr0 | Hr0].
    + split.
      * rewrite concat_app, Hfull. simpl. rewrite app_nil_r. rewrite <- (take_drop (Z.to_nat q * Z.to_nat n) data) at 3.
        do 2 f_equal. lia.
      * intros i p [Hp | [Hi Hp]]%lookup_app_Some; [by destruct (Hlen _ _ Hp); split_and!; [| lia |] |].
        apply list_lookup_singleton_Some in Hp as [Hi0 <-]. rewrite length_drop, length_app. simpl. unfold len in *. nia.
    + split.
      * rewrite Hfull. apply take_ge. unfold len in *. nia.
      * intros i p Hp. destruct (Hlen _ _ Hp). split_and!; [done | lia | done].
  - intros Hneg. pose proof (Z.quot_rem' len n) as Hqr.
    assert (len ÷ n ≤ 0) as Hq.
    { rewrite <- (Z.opp_involutive n), Z.quot_opp_r by lia. pose proof (Z.quot_pos len (- n) ltac:(lia) ltac:(lia)). lia. }
    assert (Z.rem len n = len `mod` (- n)) as Hr.
    { rewrite <- (Z.opp_involutive n) at 1. rewrite Z.rem_opp_r by lia. apply Z.rem_mod_nonneg; lia. }
    replace (Z.to_nat (len ÷ n)) with 0%nat by lia. rewrite Hr in *. pose proof (Z.mod_pos_bound len (- n) ltac:(lia)) as Hb.
    replace (len ÷ n * n) with (len - len `mod` (- n)) by lia. subst len.
    destruct (Z.ltb_spec 0 (Z.of_nat (length data) `mod` (- n))) as [H0 | H0]; simpl.
    + rewrite app_nil_r. f_equal. lia.
    + symmetry. apply drop_ge. lia.
Qed.

(** A padded text: its length is the one asked for, when its characters are bytes. *)
Lemma FormatString_length RuneCount text n left : 0 ≤ n → (∀ s, RuneCount s = String.length s) →
  ∃ s, FormatString RuneCount text n left = Ret s ∧ String.length s = Z.to_nat n.
Proof.
  intros Hn Hr. unfold FormatString. destruct (Z.ltb_spec n (Z.of_nat (String.length text))) as [Hlt | Hge].
  - rewrite (proj2 (Z.ltb_ge n 0)) by lia. eexists. split; [done |]. clear Hr.
    assert (∀ k s, (k ≤ String.length s)%nat → String.length (stake k s) = k) as Hk; [| apply Hk; lia].
    induction k as [|k IH]; intros [|c s]; simpl; intros; [done | done | lia |]. rewrite IH; lia.
  - eexists. split; [done |]. destruct left; rewrite string_length_app, spaces_length, Hr; lia.
Qed.
