(* ===== verification/TimeUtil.v ===== *)
(** * Dates and cycles of days (utils/timeutil/time_format.go)

    An instant is its nanoseconds since 1970 UTC, within what Go's [Time] holds.  The
    standard library's part: the Gregorian calendar, the layouts "2006-01-02" and
    "2006-01-02 15:04:05" for printing and parsing, durations and their hours as a
    [float64].  The offsets of the local zone and the zones by name come from the time
    zone database of the system and are arguments. *)

From S2P Require Import Prelude GoStrings Float64.
From Stdlib Require Import Ascii.

Local Open Scope Z_scope.

(** ** The calendar *)

Definition day_seconds : Z := 86400.
Definition billion : Z := 1000000000.

Definition is_leap (y : Z) : bool := (y mod 4 =? 0) && (negb (y mod 100 =? 0) || (y mod 400 =? 0)).

Definition days_in (m y : Z) : Z :=
  if m =? 2 then (if is_leap y then 29 else 28)
  else if (m =? 4) || (m =? 6) || (m =? 9) || (m =? 11) then 30 else 31.

(** Days since 1970-01-01.  Years begin in March; eras have 400 of them. *)
Definition days_of (y m d : Z) : Z :=
  let y' := if m <=? 2 then y - 1 else y in
  let yoe := y' mod 400 in
  let mp := if m <=? 2 then m + 9 else m - 3 in
  (y' / 400) * 146097 + (yoe * 365 + yoe / 4 - yoe / 100) + ((153 * mp + 2) / 5 + d - 1) - 719468.

(** The centuries, the groups of four years and the years are cut off in turn; the last
    century of an era and the last year of a group are a day longer. *)
Definition date_of (day : Z) : Z * Z * Z :=
  let z := day + 719468 in
  let doe := z mod 146097 in
  let c := Z.min 3 (doe / 36524) in
  let doc := doe - 36524 * c in
  let b := doc / 1461 in
  let dob := doc - 1461 * b in
  let a := Z.min 3 (dob / 365) in
  let doy := dob - 365 * a in
  let mp := (5 * doy + 2) / 153 in
  let m := if mp <? 10 then mp + 3 else mp - 9 in
  (400 * (z / 146097) + 100 * c + 4 * b + a + (if m <=? 2 then 1 else 0), m, doy - (153 * mp + 2) / 5 + 1).

(** Sunday is 0. *)
Definition weekday_of (day : Z) : Z := (day + 4) mod 7.

(** ** Instants in a zone *)

Definition Location := Z → Z.
Definition UTC : Location := λ _, 0.

Definition Unix (t : Z) : Z := t / billion.

(** The seconds that the clocks of the zone show. *)
Definition local_seconds (l : Location) (t : Z) : Z := Unix t + l (Unix t).
Definition local_day (l : Location) (t : Z) : Z := local_seconds l t / day_seconds.

Definition Date (l : Location) (t : Z) : Z * Z * Z := date_of (local_day l t).
Definition Year (l : Location) (t : Z) : Z := (Date l t).1.1.
Definition Month (l : Location) (t : Z) : Z := (Date l t).1.2.
Definition Day (l : Location) (t : Z) : Z := (Date l t).2.
Definition Weekday (l : Location) (t : Z) : Z := weekday_of (local_day l t).

(** ** Printing *)

(** At least [width] digits. *)
Definition appendInt (width : nat) (z : Z) : string :=
  let s := Itoa (Z.abs z) in
  (if z <? 0 then "-" else "") +:+ String.concat "" (replicate (width - String.length s) "0") +:+ s.

Definition format_date (d : Z * Z * Z) : string :=
  appendInt 4 d.1.1 +:+ "-" +:+ appendInt 2 d.1.2 +:+ "-" +:+ appendInt 2 d.2.

Definition format_clock (sep : string) (secs : Z) : string :=
  appendInt 2 (secs / 3600) +:+ sep +:+ appendInt 2 (secs / 60 mod 60) +:+ sep +:+ appendInt 2 (secs mod 60).

Definition format_time (between sep : string) (l : Location) (t : Z) : string :=
  format_date (Date l t) +:+ between +:+ format_clock sep (local_seconds l t mod day_seconds).

(** ** Parsing *)

(** [getnum]: one or two digits, two when [fixed]. *)
Definition getnum (fixed : bool) (s : string) : option (Z * string) :=
  match s with
  | String a s1 =>
      x ← digit a;
      match s1 with
      | String b s2 => match digit b with
                       | Some y => Some (10 * x + y, s2)
                       | None => if fixed : bool then None else Some (x, s1)
                       end
      | EmptyString => if fixed : bool then None else Some (x, s1)
      end
  | EmptyString => None
  end.

(** Four digits. *)
Definition get_year (s : string) : option (Z * string) :=
  '(a, s) ← getnum true s; '(b, s) ← getnum true s; Some (100 * a + b, s).

Definition in_range (lo hi : Z) (r : option (Z * string)) : option (Z * string) :=
  '(z, s) ← r; if (lo <=? z) && (z <=? hi) then Some (z, s) else None.

Definition parse_date (s : string) : option (Z * Z * Z * string) :=
  '(y, s) ← get_year s; s ← CutPrefix "-" s;
  '(m, s) ← in_range 1 12 (getnum true s); s ← CutPrefix "-" s;
  '(d, s) ← in_range 1 (days_in m y) (getnum true s);
  Some (y, m, d, s).

(** [time.Parse("2006-01-02", s)], as seconds. *)
Definition Parse_date (s : string) : option Z :=
  '(y, m, d, rest) ← parse_date s; if bool_decide (rest = "") then Some (days_of y m d * day_seconds) else None.

Fixpoint cut_digits (s : string) : string :=
  match s with String a s' => if digit a then cut_digits s' else s | EmptyString => s end.

(** A fraction of a second is accepted although the layout has none. *)
Definition cut_fraction (s : string) : string :=
  match s with
  | String a s' => if (is_byte "."%char a || is_byte ","%char a) && negb (bool_decide (cut_digits s' = s')) then cut_digits s' else s
  | EmptyString => s
  end.

Definition parse_clock (s : string) : option (Z * string) :=
  '(h, s) ← in_range 0 23 (getnum false s); s ← CutPrefix ":" s;
  '(m, s) ← in_range 0 59 (getnum true s); s ← CutPrefix ":" s;
  '(c, s) ← in_range 0 59 (getnum true s);
  Some (h * 3600 + m * 60 + c, cut_fraction s).

(** [Date] in a zone: the offset is looked up as if the seconds were UTC, then at the
    instant that this gives. *)
Definition in_location (l : Location) (secs : Z) : Z :=
  if l secs =? 0 then secs else secs - l (secs - l secs).

(** [time.ParseInLocation("2006-01-02 15:04:05", s, l)]. *)
Definition ParseInLocation (l : Location) (s : string) : option Z :=
  '(y, m, d, s) ← parse_date s; s ← CutPrefix " " s;
  '(c, rest) ← parse_clock (TrimByteLeft " "%char s);
  if bool_decide (rest = "") then Some (in_location l (days_of y m d * day_seconds + c)) else None.

(** [Time{}.Unix()], the result beside an error. *)
Definition zero_time : Z := -62135596800.

(** ** Durations *)

(** [Sub] saturates. *)
Definition Sub (t u : Z) : Z := Z.max (- two63) (Z.min (two63 - 1) (t - u)).

Definition Hour : Z := 3600 * billion.

Definition Hours (d : Z) : float64 :=
  f64_add (float64_of_int (Z.quot d Hour)) (f64_div (float64_of_int (Z.rem d Hour)) (float64_of_int Hour)).

(** [int(d.Hours() / 24)]. *)
Definition whole_days (d : Z) : Z := int64_of_float (f64_div (Hours d) (float64_of_int 24)).

(** [a % n] of Go. *)
Definition rem (a n : Z) : outcome Z :=
  if n =? 0 then Panic "integer divide by zero" else Ret (Z.rem a n).

(** ** The functions *)

Definition TimeOffset : Z := 8 * 3600.
Definition HalfOffset : Z := 12 * 3600.

Definition GetCurrentTimestampBySecond (now : Z) : Z := Unix now.
Definition UnixSecondToTime (second : Z) : Z := second * billion.
Definition UnixNanoSecondToTime (nanoSecond : Z) : Z := nanoSecond.
Definition UnixMillSecondToTime (millSecond : Z) : Z := wrap64 (millSecond * 1000000).
(** [UnixNano] overflows outside the years that an int64 of nanoseconds covers. *)
Definition GetCurrentTimestampByNano (now : Z) : Z := wrap64 now.
Definition GetCurrentTimestampByMill (now : Z) : Z := Z.quot (wrap64 now) 1000000.

Definition TimeStringToTime (timeString : string) : option Z := Parse_date timeString.

(** A time carries its zone. *)
Definition TimeToString (l : Location) (t : Z) : string := format_date (Date l t).

Inductive time_err := ErrLocation.

Section zones.
Context (Local : Location) (LoadLocation : string → option Location) (now : Z).

Definition GetCurDayZeroTimestamp : Z :=
  let timeStr := format_date (Date Local now) in
  default zero_time (Parse_date timeStr) - TimeOffset.

Definition GetCurDayHalfTimestamp : Z := GetCurDayZeroTimestamp + HalfOffset.

Definition GetCurDayZeroTimeFormat : string := format_time "_" "-" Local (GetCurDayZeroTimestamp * billion).
Definition GetCurDayHalfTimeFormat : string :=
  format_time "_" "-" Local ((GetCurDayZeroTimestamp + HalfOffset) * billion).

Definition GetTimeStampByFormat (datetime : string) : string :=
  Itoa (default zero_time (ParseInLocation Local datetime)).

Definition GetCurrentTimeFormatted : string := format_time " " ":" Local now.

Definition GetTimestampByTimezone (timezone : string) : Z * option time_err :=
  match LoadLocation timezone with Some _ => (Unix now, None) | None => (0, Some ErrLocation) end.

Definition DaysBetweenTimestamps (timezone : string) (timestamp : Z) : Z * option time_err :=
  match LoadLocation timezone with
  | Some _ => (whole_days (Sub now (UnixSecondToTime timestamp)), None)
  | None => (0, Some ErrLocation)
  end.

(** The current day is taken in the zone asked for, the given one in the local zone. *)
Definition IsSameWeekday (timezone : string) (timestamp : Z) : bool * option time_err :=
  match LoadLocation timezone with
  | Some location => (Weekday location now =? Weekday Local (UnixSecondToTime timestamp), None)
  | None => (false, Some ErrLocation)
  end.

Definition IsSameDayOfMonth (timezone : string) (timestamp : Z) : bool * option time_err :=
  match LoadLocation timezone with
  | Some location => (Day location now =? Day Local (UnixSecondToTime timestamp), None)
  | None => (false, Some ErrLocation)
  end.

Definition IsWeekday (timestamp : Z) : bool :=
  let weekday := Weekday Local (UnixSecondToTime timestamp) in (1 <=? weekday) && (weekday <=? 5).

Local Open Scope go_scope.

Definition IsNthDayCycle (timezone : string) (startTimestamp n : Z) : outcome (bool * option time_err) :=
  match LoadLocation timezone with
  | Some _ =>
      let! r := rem (whole_days (Sub now (UnixSecondToTime startTimestamp))) n in Ret (r =? 0, None)
  | None => Ret (false, Some ErrLocation)
  end.

Definition IsNthWeekCycle (timezone : string) (startTimestamp n : Z) : outcome (bool * option time_err) :=
  match LoadLocation timezone with
  | Some _ =>
      let weeks := Z.quot (whole_days (Sub now (UnixSecondToTime startTimestamp))) 7 in
      let! r := rem weeks n in Ret (r =? 0, None)
  | None => Ret (false, Some ErrLocation)
  end.

Definition IsNthMonthCycle (timezone : string) (startTimestamp n : Z) : outcome (bool * option time_err) :=
  match LoadLocation timezone with
  | Some location =>
      let startTime := UnixSecondToTime startTimestamp in
      let yearsDiff := Year location now - Year Local startTime in
      let monthsDiff := Month location now - Month Local startTime in
      let totalMonths := yearsDiff * 12 + monthsDiff in
      let! r := rem totalMonths n in Ret (r =? 0, None)
  | None => Ret (false, Some ErrLocation)
  end.
End zones.

(** * Lemmas *)

(** ** The calendar *)

Definition valid_date (y m d : Z) : Prop := 1 ≤ m ≤ 12 ∧ 1 ≤ d ≤ days_in m y.

(** A year of an era, in groups of four and centuries. *)
Lemma year_of_era c b a : 0 ≤ c ≤ 3 → 0 ≤ b ≤ 24 → 0 ≤ a ≤ 3 →
  let yoe := 100 * c + 4 * b + a in
  0 ≤ yoe < 400 ∧ yoe * 365 + yoe / 4 - yoe / 100 = 36524 * c + 1461 * b + 365 * a.
Proof. intros ? ? ? yoe. subst yoe. Z.div_mod_to_equations. lia. Qed.

Lemma days_of_date_of day : let '(y, m, d) := date_of day in days_of y m d = day.
Proof.
  unfold date_of. set (z := day + 719468).
  pose proof (Z.mod_pos_bound z 146097 ltac:(lia)) as Hdoe. pose proof (Z.div_mod z 146097 ltac:(lia)) as Hz.
  set (era := z / 146097) in *. set (doe := z mod 146097) in *.
  set (c := Z.min 3 (doe / 36524)). assert (0 ≤ c ≤ 3 ∧ 0 ≤ doe - 36524 * c ≤ 36524) as [Hc Hdoc] by (subst c; Z.div_mod_to_equations; lia).
  set (doc := doe - 36524 * c) in *.
  set (b := doc / 1461). assert (0 ≤ b ≤ 24 ∧ 0 ≤ doc - 1461 * b ≤ 1460) as [Hb Hdob] by (subst b; Z.div_mod_to_equations; lia).
  set (dob := doc - 1461 * b) in *.
  set (a := Z.min 3 (dob / 365)). assert (0 ≤ a ≤ 3 ∧ 0 ≤ dob - 365 * a ≤ 365) as [Ha Hdoy] by (subst a; Z.div_mod_to_equations; lia).
  set (doy := dob - 365 * a) in *. set (mp := (5 * doy + 2) / 153).
  assert (0 ≤ mp ≤ 11) as Hmp by (subst mp; Z.div_mod_to_equations; lia).
  destruct (year_of_era c b a Hc Hb Ha) as [Hy Hyd]. set (yoe := 100 * c + 4 * b + a) in *.
  assert (∀ k, k = 400 * era + yoe → k mod 400 = yoe ∧ k / 400 = era) as Hera by (intros k ->; Z.div_mod_to_equations; lia).
  unfold days_of. destruct (Z.ltb_spec mp 10).
  - destruct (Z.leb_spec (mp + 3) 2); [lia |].
    destruct (Hera (400 * era + 100 * c + 4 * b + a + 0)) as [-> ->]; [lia |]. rewrite Hyd.
    replace (mp + 3 - 3) with mp by lia. lia.
  - destruct (Z.leb_spec (mp - 9) 2); [|lia].
    destruct (Hera (400 * era + 100 * c + 4 * b + a + 1 - 1)) as [-> ->]; [lia |]. rewrite Hyd.
    replace (mp - 9 + 9) with mp by lia. lia.
Qed.

Lemma leap_of_era e c b a : 0 ≤ c ≤ 3 → 0 ≤ b ≤ 24 → 0 ≤ a ≤ 3 →
  is_leap (400 * e + 100 * c + 4 * b + a + 1) = (a =? 3) && (negb (b =? 24) || (c =? 3)).
Proof.
  intros Hc Hb Ha. unfold is_leap. set (y := 400 * e + 100 * c + 4 * b + a + 1).
  assert ((y mod 4 =? 0) = (a =? 3)) as ->.
  { destruct (Z.eqb_spec (y mod 4) 0), (Z.eqb_spec a 3); try done; subst y; Z.div_mod_to_equations; lia. }
  destruct (Z.eqb_spec a 3) as [-> |]; [|done]. simpl.
  assert ((y mod 100 =? 0) = (b =? 24)) as ->.
  { replace y with (4 * b + 4 + (4 * e + c) * 100) by (subst y; lia). rewrite Z.mod_add by lia.
    destruct (Z.eqb_spec ((4 * b + 4) mod 100) 0), (Z.eqb_spec b 24); try done; Z.div_mod_to_equations; lia. }
  destruct (Z.eqb_spec b 24) as [-> |]; [|done]. simpl.
  replace y with (100 * c + 100 + e * 400) by (subst y; lia). rewrite Z.mod_add by lia.
  destruct (Z.eqb_spec ((100 * c + 100) mod 400) 0), (Z.eqb_spec c 3); try done; Z.div_mod_to_equations; lia.
Qed.

(** The day of the year that begins in March, from the month and the day. *)
Definition march (m : Z) : Z := if m <=? 2 then m + 9 else m - 3.

Lemma month_of_day m d : 1 ≤ m ≤ 12 → 1 ≤ d ≤ 31 → (m = 4 ∨ m = 6 ∨ m = 9 ∨ m = 11 → d ≤ 30) → (m = 2 → d ≤ 29) →
  let doy := (153 * march m + 2) / 5 + d - 1 in
  0 ≤ doy ≤ 365 ∧ (doy = 365 ↔ m = 2 ∧ d = 29) ∧ (5 * doy + 2) / 153 = march m.
Proof.
  intros Hm Hd H30 H29. unfold march.
  assert (m = 1 ∨ m = 2 ∨ m = 3 ∨ m = 4 ∨ m = 5 ∨ m = 6 ∨ m = 7 ∨ m = 8 ∨ m = 9 ∨ m = 10 ∨ m = 11 ∨ m = 12) as Hc by lia.
  repeat destruct Hc as [-> | Hc]; [..| subst m]; cbn -[Z.div Z.mul]; Z.div_mod_to_equations; lia.
Qed.

Lemma valid_days y m d : valid_date y m d →
  1 ≤ d ≤ 31 ∧ (m = 4 ∨ m = 6 ∨ m = 9 ∨ m = 11 → d ≤ 30) ∧ (m = 2 → d ≤ 29 ∧ (is_leap y = false → d ≤ 28)).
Proof.
  unfold valid_date, days_in. intros [Hm Hd].
  assert (m = 1 ∨ m = 2 ∨ m = 3 ∨ m = 4 ∨ m = 5 ∨ m = 6 ∨ m = 7 ∨ m = 8 ∨ m = 9 ∨ m = 10 ∨ m = 11 ∨ m = 12) as Hc by lia.
  repeat destruct Hc as [-> | Hc]; [..| subst m]; simpl in Hd; destruct (is_leap y); repeat split; try done; lia.
Qed.

Lemma date_of_days_of y m d : valid_date y m d → date_of (days_of y m d) = (y, m, d).
Proof.
  intros Hv. destruct (valid_days y m d Hv) as (Hd & H30 & H29). destruct Hv as [Hm _].
  destruct (month_of_day m d Hm Hd H30 ltac:(intros Hf; by apply H29)) as (Hdoy & Hlast & Hmp).
  unfold days_of. cbv zeta. fold (march m). set (doy := (153 * march m + 2) / 5 + d - 1) in *.
  set (y' := if m <=? 2 then y - 1 else y) in *.
  set (era := y' / 400). set (yoe := y' mod 400).
  assert (y' = 400 * era + yoe ∧ 0 ≤ yoe < 400) as [Hy' Hyoe] by (subst era yoe; Z.div_mod_to_equations; lia).
  set (c := yoe / 100). set (b := yoe mod 100 / 4). set (a := yoe mod 4).
  assert (yoe = 100 * c + 4 * b + a ∧ 0 ≤ c ≤ 3 ∧ 0 ≤ b ≤ 24 ∧ 0 ≤ a ≤ 3) as (Hyc & Hc & Hb & Ha)
    by (subst c b a; Z.div_mod_to_equations; lia).
  destruct (year_of_era c b a Hc Hb Ha) as [_ Hyd]. rewrite <- Hyc in Hyd. fold c in Hyd. rewrite Hyd.
  assert (doy = 365 → a = 3 ∧ (b = 24 → c = 3)) as Hleap.
  { intros [-> ->]%Hlast. destruct H29 as [_ Hl]; [done |]. destruct (is_leap y) eqn:Hy; [|specialize (Hl eq_refl); lia].
    subst y'. simpl in Hy'. replace y with (400 * era + 100 * c + 4 * b + a + 1) in Hy by lia.
    rewrite (leap_of_era era c b a Hc Hb Ha) in Hy. apply andb_true_iff in Hy as [? Hy]. split; [lia |].
    intros ->. simpl in Hy. lia. }
  set (doe := 36524 * c + 1461 * b + 365 * a + doy).
  assert (0 ≤ doe < 146097) as Hdoe by lia.
  unfold date_of. set (z := era * 146097 + _ + doy - 719468 + 719468).
  assert (z = 146097 * era + doe) as Hz by (subst z doe; lia).
  assert (z mod 146097 = doe ∧ z / 146097 = era) as [-> ->] by (rewrite Hz; Z.div_mod_to_equations; lia).
  assert (Z.min 3 (doe / 36524) = c) as -> by (subst doe; Z.div_mod_to_equations; lia).
  assert ((doe - 36524 * c) / 1461 = b) as -> by (subst doe; Z.div_mod_to_equations; lia).
  assert (Z.min 3 ((doe - 36524 * c - 1461 * b) / 365) = a) as -> by (subst doe; Z.div_mod_to_equations; lia).
  replace (doe - 36524 * c - 1461 * b - 365 * a) with doy by (subst doe; lia). rewrite Hmp.
  replace (doy - (153 * march m + 2) / 5 + 1) with d by (subst doy; lia).
  assert ((if march m <? 10 then march m + 3 else march m - 9) = m) as ->.
  { unfold march. destruct (Z.leb_spec m 2); [destruct (Z.ltb_spec (m + 9) 10) | destruct (Z.ltb_spec (m - 3) 10)]; lia. }
  f_equal. f_equal. subst y'. destruct (m <=? 2); lia.
Qed.

Lemma date_of_valid day : let '(y, m, d) := date_of day in valid_date y m d.
Proof.
  unfold date_of. set (z := day + 719468).
  pose proof (Z.mod_pos_bound z 146097 ltac:(lia)) as Hdoe.
  set (doe := z mod 146097) in *. set (era := z / 146097).
  set (c := Z.min 3 (doe / 36524)). assert (0 ≤ c ≤ 3 ∧ 0 ≤ doe - 36524 * c ≤ 36524 ∧ (doe - 36524 * c = 36524 → c = 3)) as (Hc & Hdoc & Hc3)
    by (subst c; Z.div_mod_to_equations; lia).
  set (doc := doe - 36524 * c) in *.
  set (b := doc / 1461). assert (0 ≤ b ≤ 24 ∧ 0 ≤ doc - 1461 * b ≤ 1460 ∧ (b = 24 → doc - 1461 * b = 1460 → c = 3)) as (Hb & Hdob & Hb3)
    by (subst b; Z.div_mod_to_equations; lia).
  set (dob := doc - 1461 * b) in *.
  set (a := Z.min 3 (dob / 365)). assert (0 ≤ a ≤ 3 ∧ 0 ≤ dob - 365 * a ≤ 365 ∧ (dob - 365 * a = 365 → a = 3 ∧ (b = 24 → c = 3))) as (Ha & Hdoy & Ha3)
    by (subst a; Z.div_mod_to_equations; lia).
  set (doy := dob - 365 * a) in *. pose proof (leap_of_era era c b a Hc Hb Ha) as Hl. clearbody doy a dob b doc c era doe.
  assert ((5 * doy + 2) / 153 = 11 → doy <= 364 ∨ is_leap (400 * era + 100 * c + 4 * b + a + 1) = true) as Hfeb.
  { intros _. destruct (decide (doy = 365)) as [He |]; [right | left; lia]. rewrite Hl. destruct (Ha3 He) as [-> Hb24].
    destruct (Z.eqb_spec b 24); [|done]. by rewrite Hb24. }
  clear Hl Ha3 Hb3 Hc3. set (mp := (5 * doy + 2) / 153) in *.
  assert (0 ≤ mp ≤ 11 ∧ 153 * mp ≤ 5 * doy + 2 < 153 * mp + 153) as [Hmp Hin] by (subst mp; Z.div_mod_to_equations; lia).
  clearbody mp. unfold valid_date, days_in.
  assert (mp = 0 ∨ mp = 1 ∨ mp = 2 ∨ mp = 3 ∨ mp = 4 ∨ mp = 5 ∨ mp = 6 ∨ mp = 7 ∨ mp = 8 ∨ mp = 9 ∨ mp = 10 ∨ mp = 11) as Hcase by lia.
  repeat destruct Hcase as [-> | Hcase]; [.. | subst mp]; simpl; try (Z.div_mod_to_equations; lia).
  split; [lia |]. specialize (Hfeb eq_refl).
  destruct Hfeb as [? | ->]; [destruct (is_leap _) |]; Z.div_mod_to_equations; lia.
Qed.

(** ** Printing and parsing *)

Fixpoint all_from (f : Z → bool) (lo : Z) (n : nat) : bool :=
  match n with O => true | S n => f lo && all_from f (lo + 1) n end.

Lemma all_from_spec f lo n z : all_from f lo n = true → lo ≤ z < lo + Z.of_nat n → f z = true.
Proof.
  revert lo. induction n as [|n IH]; intros lo; simpl; [lia |].
  intros [Hf Hr]%andb_true_iff Hz. destruct (decide (z = lo)) as [-> |]; [done |]. apply (IH (lo + 1)); [done | lia].
Qed.

Definition char_of (x : Z) : ascii := ascii_of_N (Z.to_N (48 + x)).

Lemma digit_char x : 0 ≤ x ≤ 9 → digit (char_of x) = Some x.
Proof.
  intros Hx. assert (all_from (λ x, bool_decide (digit (char_of x) = Some x)) 0 10 = true) as Hall by done.
  by apply (all_from_spec _ 0 10 x) in Hall; [apply bool_decide_eq_true in Hall | lia].
Qed.

Lemma digit_inv a x : digit a = Some x → 0 ≤ x ≤ 9 ∧ a = char_of x.
Proof.
  unfold digit, char_of. destruct ((48 <=? _) && _) eqn:Hr; [|done]. reflect_tests. intros [= <-]. split; [lia |].
  replace (48 + (Z.of_N (N_of_ascii a) - 48)) with (Z.of_N (N_of_ascii a)) by lia. by rewrite N2Z.id, ascii_N_embedding.
Qed.

Lemma append2 x y : 0 ≤ x ≤ 9 → 0 ≤ y ≤ 9 → appendInt 2 (10 * x + y) = String (char_of x) (String (char_of y) "").
Proof.
  intros Hx Hy.
  assert (all_from (λ z, bool_decide (appendInt 2 z = String (char_of (z / 10)) (String (char_of (z mod 10)) ""))) 0 100 = true) as Hall
    by (vm_compute; reflexivity).
  apply (all_from_spec _ 0 100 (10 * x + y)) in Hall; [|lia]. apply bool_decide_eq_true in Hall. rewrite Hall.
  by replace ((10 * x + y) / 10) with x by (Z.div_mod_to_equations; lia);
    replace ((10 * x + y) mod 10) with y by (Z.div_mod_to_equations; lia).
Qed.

Lemma append4 a b : 0 ≤ a ≤ 99 → 0 ≤ b ≤ 99 → appendInt 4 (100 * a + b) = appendInt 2 a +:+ appendInt 2 b.
Proof.
  intros Ha Hb.
  assert (all_from (λ a, all_from (λ b, String.eqb (appendInt 4 (100 * a + b)) (appendInt 2 a +:+ appendInt 2 b)) 0 100) 0 100 = true) as Hall
    by (vm_compute; reflexivity).
  apply (all_from_spec _ 0 100 a) in Hall; [|lia]. apply (all_from_spec _ 0 100 b) in Hall; [|lia].
  by apply String.eqb_eq.
Qed.

Lemma getnum_append z s : 0 ≤ z ≤ 99 → getnum true (appendInt 2 z +:+ s) = Some (z, s).
Proof.
  intros Hz. replace z with (10 * (z / 10) + z mod 10) at 1 by (Z.div_mod_to_equations; lia).
  rewrite append2 by (Z.div_mod_to_equations; lia). simpl.
  rewrite !digit_char by (Z.div_mod_to_equations; lia). simpl. do 2 f_equal. Z.div_mod_to_equations. lia.
Qed.

Lemma getnum_inv s z r : getnum true s = Some (z, r) → 0 ≤ z ≤ 99 ∧ s = appendInt 2 z +:+ r.
Proof.
  destruct s as [|a [|b s]]; simpl; try done; destruct (digit a) as [x|] eqn:Ha; try done; simpl.
  destruct (digit b) as [y|] eqn:Hb; [|done]. apply digit_inv in Ha as [Hx ->], Hb as [Hy ->].
  intros Hs. simplify_eq. split; [lia |]. by rewrite append2.
Qed.

Lemma CutPrefix_inv p s r : CutPrefix p s = Some r → s = p +:+ r.
Proof.
  revert s. induction p as [|a p IH]; intros s; simpl; [by intros [= ->] |].
  destruct s as [|b s]; [done |]. destruct (ascii_dec a b) as [<- |]; [|done]. by intros ->%IH.
Qed.

Lemma in_range_Some lo hi z s : lo ≤ z ≤ hi → in_range lo hi (Some (z, s)) = Some (z, s).
Proof. intros Hz. unfold in_range. simpl. destruct (Z.leb_spec lo z), (Z.leb_spec z hi); try lia. done. Qed.

Lemma in_range_inv lo hi r z s : in_range lo hi r = Some (z, s) → r = Some (z, s) ∧ lo ≤ z ≤ hi.
Proof.
  unfold in_range. destruct r as [[z' s']|]; [|done]. simpl.
  destruct (Z.leb_spec lo z'), (Z.leb_spec z' hi); simpl; try done. intros [= -> ->]. done.
Qed.

Lemma get_year_append y s : 0 ≤ y ≤ 9999 → get_year (appendInt 4 y +:+ s) = Some (y, s).
Proof.
  intros Hy. replace y with (100 * (y / 100) + y mod 100) at 1 by (Z.div_mod_to_equations; lia).
  rewrite append4, <- string_app_assoc by (Z.div_mod_to_equations; lia). unfold get_year.
  rewrite getnum_append by (Z.div_mod_to_equations; lia). simpl.
  rewrite getnum_append by (Z.div_mod_to_equations; lia). simpl. do 2 f_equal. Z.div_mod_to_equations. lia.
Qed.

Lemma parse_format_date y m d rest :
  valid_date y m d → 0 ≤ y ≤ 9999 → parse_date (format_date (y, m, d) +:+ rest) = Some (y, m, d, rest).
Proof.
  intros Hv Hy. pose proof (valid_days y m d Hv) as [Hd _]. destruct Hv as [Hm Hdi]. unfold format_date, parse_date. cbn [fst snd].
  rewrite <- !string_app_assoc, get_year_append by done. cbn [mbind option_bind].
  rewrite CutPrefix_app. cbn [mbind option_bind]. rewrite getnum_append, in_range_Some by lia. cbn [mbind option_bind].
  rewrite CutPrefix_app. cbn [mbind option_bind]. by rewrite getnum_append, in_range_Some by lia.
Qed.

Lemma parse_date_inv s y m d rest :
  parse_date s = Some (y, m, d, rest) → valid_date y m d ∧ 0 ≤ y ≤ 9999 ∧ s = format_date (y, m, d) +:+ rest.
Proof.
  unfold parse_date, get_year. intros H.
  apply bind_Some in H as ([y0 s0] & Hy & H).
  apply bind_Some in Hy as ([a s1] & Ha & Hy). apply bind_Some in Hy as ([b s2] & Hb & [= <- <-]).
  apply bind_Some in H as (s3 & Hc1 & H). apply bind_Some in H as ([m' s4] & Hm & H).
  apply bind_Some in H as (s5 & Hc2 & H). apply bind_Some in H as ([d' s6] & Hd & [= <- -> -> ->]).
  apply getnum_inv in Ha as [Ha ->], Hb as [Hb ->].
  apply in_range_inv in Hm as [[Hm0 ->]%getnum_inv Hm], Hd as [[Hd0 ->]%getnum_inv Hd].
  apply CutPrefix_inv in Hc1 as ->, Hc2 as ->.
  split; [done |]. split; [lia |]. unfold format_date. cbn [fst snd]. rewrite append4 by done. by rewrite <- !string_app_assoc.
Qed.

Lemma Parse_format day : 0 ≤ (date_of day).1.1 ≤ 9999 → Parse_date (format_date (date_of day)) = Some (day * day_seconds).
Proof.
  pose proof (date_of_valid day) as Hv. pose proof (days_of_date_of day) as Hd. destruct (date_of day) as [[y m] d]. cbn [fst].
  intros Hy. unfold Parse_date. rewrite <- (string_app_nil_r (format_date (y, m, d))), (parse_format_date y m d "" Hv Hy).
  cbn [mbind option_bind]. by rewrite bool_decide_eq_true_2, Hd.
Qed.

Lemma Unix_seconds s : Unix (s * billion) = s.
Proof. unfold Unix, billion. apply Z.div_mul. lia. Qed.

Lemma Date_midnight l day z : z + l z = day * day_seconds → Date l (z * billion) = date_of day.
Proof.
  intros Hz. unfold Date, local_day, local_seconds. rewrite Unix_seconds, Hz, Z.div_mul; [done | unfold day_seconds; lia].
Qed.

(** Whole days are counted exactly: every number on the way is an integer below 2^53. *)
Lemma whole_days_exact k : Z.abs k ≤ 106751 → whole_days (Sub (k * day_seconds * billion) 0) = k.
Proof.
  intros Hk. assert (Sub (k * day_seconds * billion) 0 = 24 * k * Hour) as ->.
  { unfold Sub, day_seconds, billion, Hour, two63, billion. lia. }
  unfold whole_days, Hours.
  assert (Z.quot (24 * k * Hour) Hour = 24 * k) as -> by (apply Z.quot_mul; done).
  assert (Z.rem (24 * k * Hour) Hour = 0) as -> by (apply Z.rem_mul; done).
  rewrite (float64_of_int_exact (24 * k)), (float64_of_int_exact 24) by lia.
  assert (f64_div (float64_of_int 0) (float64_of_int Hour) = exact 0) as -> by (by vm_compute).
  rewrite f64_add_exact by lia. rewrite Z.add_0_r, Z.mul_comm, f64_div_exact by lia. apply int64_of_exact. lia.
Qed.

Lemma Sub_shift t u d : Sub (t + d) (u + d) = Sub t u.
Proof. unfold Sub. f_equal. f_equal. lia. Qed.

(** * The theorems *)

(** C39. Dates: a day of the years 0 to 9999 is printed and parsed back to its midnight in
    UTC, and every text that parses is what the day it denotes is printed as, so no two
    texts denote the same day; the calendar behind them is a bijection between days and
    valid dates. *)
Theorem date_roundtrip :
  (∀ l t, 0 ≤ Year l t ≤ 9999 → TimeStringToTime (TimeToString l t) = Some (local_day l t * day_seconds)) ∧
  (∀ s sec, TimeStringToTime s = Some sec → TimeToString UTC (UnixSecondToTime sec) = s) ∧
  (∀ y m d, valid_date y m d → date_of (days_of y m d) = (y, m, d)) ∧
  (∀ day, let '(y, m, d) := date_of day in valid_date y m d ∧ days_of y m d = day).
Proof.
  split; [intros l t Hy; by apply Parse_format |]. split; [|split; [apply date_of_days_of |]].
  - intros s sec. unfold TimeStringToTime, Parse_date. intros H.
    apply bind_Some in H as ([[[y m] d] rest] & Hp & H). case_bool_decide as Hr; [|done]. injection H as <-.
    apply parse_date_inv in Hp as (Hv & Hy & ->). subst rest. rewrite string_app_nil_r.
    unfold TimeToString, UnixSecondToTime. rewrite (Date_midnight UTC (days_of y m d)) by (unfold UTC; lia).
    by rewrite date_of_days_of.
  - intros day. pose proof (date_of_valid day). pose proof (days_of_date_of day). by destruct (date_of day) as [[y m] d].
Qed.

(** The current day: the timestamp given for 0 o'clock is that of the local date at an
    offset of 8 hours, whatever the zone, so it is the local midnight exactly where the
    offset at that instant is 8 hours; there the texts for 0 and 12 o'clock are those of the
    current date. *)
Theorem current_day Local now :
  0 ≤ Year Local now ≤ 9999 →
  let z := GetCurDayZeroTimestamp Local now in
  let h := GetCurDayHalfTimestamp Local now in
  z = local_day Local now * day_seconds - 28800 ∧ h = z + 43200 ∧
  (z + Local z = local_day Local now * day_seconds ↔ Local z = 28800) ∧
  (Local z = 28800 → GetCurDayZeroTimeFormat Local now = format_date (Date Local now) +:+ "_00-00-00") ∧
  (Local h = 28800 → GetCurDayHalfTimeFormat Local now = format_date (Date Local now) +:+ "_12-00-00").
Proof.
  intros Hy z h. assert (z = local_day Local now * day_seconds - 28800) as Hz.
  { unfold z, GetCurDayZeroTimestamp. unfold Date. rewrite Parse_format by done. done. }
  assert (h = z + 43200) as Hh by done. split; [done |]. split; [done |]. split; [lia |].
  set (day := local_day Local now) in *. split; intros Hl.
  - unfold GetCurDayZeroTimeFormat. fold z. unfold format_time. rewrite (Date_midnight Local day) by lia.
    unfold local_seconds. rewrite Unix_seconds, Hl. replace (z + 28800) with (day * day_seconds) by lia.
    rewrite Z.mod_mul by (unfold day_seconds; lia). done.
  - unfold GetCurDayHalfTimeFormat. change (GetCurDayZeroTimestamp Local now + HalfOffset) with h. unfold format_time.
    unfold Date at 1, local_day, local_seconds. rewrite Unix_seconds, Hl.
    replace (h + 28800) with (43200 + day * day_seconds) by lia.
    rewrite Z.div_add, Z.mod_add by (unfold day_seconds; lia). done.
Qed.

(** Cycles: in a known zone, with whole days between the start and now, the day cycle
    asks whether [n] divides the number of days, the week cycle whether it divides the
    number of whole weeks, and the month cycle compares the months of the calendar; a cycle
    of zero panics, an unknown zone is an error.  A start that is not yet a day away,
    before or after now, is in every cycle; and when the local zone is the one asked for,
    two instants are of the same weekday exactly when whole weeks are between their days. *)
Theorem cycles_of_days Local LoadLocation tz location n0 k n :
  LoadLocation tz = Some location → Z.abs k ≤ 106751 →
  let now := n0 * billion in
  let start := n0 - k * day_seconds in
  DaysBetweenTimestamps LoadLocation now tz start = (k, None) ∧
  IsNthDayCycle LoadLocation now tz start n =
    (if n =? 0 then Panic "integer divide by zero" else Ret (Z.rem k n =? 0, None)) ∧
  IsNthWeekCycle LoadLocation now tz start n =
    (if n =? 0 then Panic "integer divide by zero" else Ret (Z.rem (Z.quot k 7) n =? 0, None)) ∧
  IsNthMonthCycle Local LoadLocation now tz start n =
    (if n =? 0 then Panic "integer divide by zero"
     else Ret (Z.rem (12 * (Year location now - Year Local (start * billion)) +
                      (Month location now - Month Local (start * billion))) n =? 0, None)) ∧
  (location = Local → ∀ ts, IsSameWeekday Local LoadLocation now tz ts =
    (bool_decide ((local_day Local now - local_day Local (ts * billion)) mod 7 = 0), None)).
Proof.
  intros Hl Hk now start.
  assert (whole_days (Sub now (UnixSecondToTime start)) = k) as Hd.
  { transitivity (whole_days (Sub (k * day_seconds * billion) 0)); [|by apply whole_days_exact]. f_equal. unfold now, start, UnixSecondToTime.
    rewrite <- (Sub_shift (k * day_seconds * billion) 0 ((n0 - k * day_seconds) * billion)). f_equal; unfold day_seconds, billion; lia. }
  unfold DaysBetweenTimestamps, IsNthDayCycle, IsNthWeekCycle, IsNthMonthCycle, IsSameWeekday, rem.
  rewrite Hl, Hd. split; [done |]. split; [by destruct (n =? 0) |]. split; [by destruct (n =? 0) |].
  split; [destruct (n =? 0); [done |]; simpl; do 4 f_equal; unfold UnixSecondToTime; lia |].
  intros -> ts. f_equal. unfold Weekday, weekday_of, UnixSecondToTime.
  generalize (local_day Local now) as a, (local_day Local (ts * billion)) as b. intros a b.
  destruct (Z.eqb_spec ((a + 4) mod 7) ((b + 4) mod 7)), (bool_decide_reflect ((a - b) mod 7 = 0)); try done;
    Z.div_mod_to_equations; lia.
Qed.

(** The given time is taken in the local zone: with a server in UTC and a zone 8 hours
    ahead an instant may not have its own weekday or day of the month. *)
Theorem same_instant_differs :
  let LoadLocation := λ _ : string, Some (λ _, 28800) in
  let t := 1700000000 in
  IsSameWeekday UTC LoadLocation (t * billion) "Asia/Shanghai" t = (false, None) ∧
  IsSameDayOfMonth UTC LoadLocation (t * billion) "Asia/Shanghai" t = (false, None).
Proof. split; vm_compute; reflexivity. Qed.

(** Rounding: a nanosecond short of a thousand days counts as a thousand. *)
Theorem days_rounded_up : whole_days (1000 * day_seconds * billion - 1) = 1000.
Proof. vm_compute. reflexivity. Qed.

(** Milliseconds are converted exactly while their nanoseconds fit 64 bits, and come back. *)
Theorem milliseconds_exact ms :
  in_int64 (ms * 1000000) → UnixMillSecondToTime ms = ms * 1000000 ∧
  GetCurrentTimestampByMill (UnixMillSecondToTime ms) = ms.
Proof.
  intros Hm. unfold GetCurrentTimestampByMill, UnixMillSecondToTime. rewrite !(wrap64_id (ms * 1000000)) by done.
  split; [done |]. apply Z.quot_mul. lia.
Qed.

(** Past the year 2262 they are not: this one is read as an instant of 1677. *)
Theorem milliseconds_overflow : UnixMillSecondToTime 9223372036855 = -9223372036854551616.
Proof. reflexivity. Qed.

Lemma current_day_witness :
  let z := GetCurDayZeroTimestamp (λ _, 28800) (1700000000 * billion) in
  z = 1699977600 ∧ GetCurDayZeroTimeFormat (λ _, 28800) (1700000000 * billion) = "2023-11-15_00-00-00" ∧
  (z + 28800 = 19676 * day_seconds ↔ 28800 = 28800).
Proof.
  split; [vm_compute; reflexivity |]. split; [vm_compute; reflexivity |].
  refine (proj1 (proj2 (proj2 (current_day (λ _, 28800) (1700000000 * billion) _)))). vm_compute; split; discriminate.
Defined.

Lemma cycles_of_days_witness :
  DaysBetweenTimestamps (λ _, Some UTC) (1700000000 * billion) "UTC" (1700000000 - 21 * day_seconds) = (21, None) ∧
  IsNthWeekCycle (λ _, Some UTC) (1700000000 * billion) "UTC" (1700000000 - 21 * day_seconds) 3 = Ret (true, None).
Proof.
  split.
  - refine (proj1 (cycles_of_days UTC (λ _, Some UTC) "UTC" UTC 1700000000 21 3 _ _)); [reflexivity | lia].
  - vm_compute. reflexivity.
Defined.
