(* ===== verification/StructFields.v ===== *)
(** * Replacing the fields of a struct by those that are set
    (utils/datautil/datautil.go: StructFieldNotNilReplace)

    What reflection sees of the two structs: fields with a type, exported or not, that
    hold a value which is zero or not, a slice, or a slice of pointers to structs.  The
    function builds new elements and only sets fields of the destination, so structs are
    their values; [None] is a nil pointer or a nil slice. *)

From S2P Require Import Prelude.

(** ** Values *)

Inductive ftype := TScalar (t : string) | TSlice (t : string) | TPtrs (t : string).

#[export] Instance ftype_eq_dec : EqDecision ftype.
Proof. solve_decision. Defined.

Inductive fval :=
| Scalar (t : string) (z : Z)
| Slice (t : string) (o : option (list Z))
| Ptrs (t : string) (o : option (list (option (list fval)))).

Abbreviation struct := (list fval).

Definition type_of (v : fval) : ftype :=
  match v with Scalar t _ => TScalar t | Slice t _ => TSlice t | Ptrs t _ => TPtrs t end.

Definition zero_of (t : ftype) : fval :=
  match t with TScalar t => Scalar t 0 | TSlice t => Slice t None | TPtrs t => Ptrs t None end.

(** [IsZero]. *)
Definition IsZero (v : fval) : bool :=
  match v with
  | Scalar _ z => bool_decide (z = 0%Z)
  | Slice _ o => bool_decide (o = None)
  | Ptrs _ o => match o with None => true | Some _ => false end
  end.

Section replace.
(** The declared fields of a struct: exported or not, and their types. *)
Context (fields : string → list (bool * ftype)).

Local Open Scope go_scope.

(** [reflect.New(t).Elem()]. *)
Definition New (t : string) : struct := zero_of <$> (fields t).*2.

(** [v.Set(x)]: an exported field and the same type. *)
Definition Set_ (exported : bool) (v x : fval) : outcome fval :=
  if exported then
    if bool_decide (type_of v = type_of x) then Ret x else Panic "reflect.Set: value is not assignable to the type"
  else Panic "reflect.Set: using value obtained using unexported field".

(** [v.Index(j).Elem().Field(k)] of a slice of pointers. *)
Definition index_field (d : option (list (option struct))) (j k : nat) : outcome fval :=
  match d ≫= lookup j with
  | None => Panic "reflect: slice index out of range"
  | Some None => Panic "reflect: call of reflect.Value.Field on zero Value"
  | Some (Some fs) => of_nil_check (fs !! k)
  end.

(** The fields of a new element that are zero are taken from the element of the
    destination. *)
Fixpoint keep_loop (fs : list (bool * ftype)) (d : option (list (option struct))) (j k : nat) (elem : struct)
    : outcome struct :=
  match fs, elem with
  | (exported, _) :: fs, v :: elem =>
      let! v := (if IsZero v then let! x := index_field d j k in Set_ exported v x else Ret v) in
      let! elem := keep_loop fs d j (S k) elem in
      Ret (v :: elem)
  | _, _ => Ret elem
  end.

(** The loop over the elements of the source. *)
Fixpoint elem_loop (rec : struct → option struct → outcome struct) (t : string) (d : option (list (option struct)))
    (j : nat) (src : list (option struct)) : outcome (list (option struct)) :=
  match src with
  | [] => Ret []
  | s :: src =>
      let! newElem := rec (New t) s in
      let! newElem := keep_loop (fields t) d j 0 newElem in
      let! newSlice := elem_loop rec t d (S j) src in
      Ret (Some newElem :: newSlice)
  end.

(** One field; [t] is the type of the elements of the destination. *)
Definition replace_field (rec : string → struct → option struct → outcome struct) (exported : bool) (d s : fval)
    : outcome fval :=
  if exported then
    match d, s with
    | Ptrs t od, Ptrs t' os =>
        let! newSlice := elem_loop (rec t) t od 0 (default [] os) in
        Ret (Ptrs t (Some newSlice))
    | Slice _ _, Slice _ _ => Set_ exported d s
    | Ptrs t od, Slice _ o =>
        match o with
        | Some (_ :: _) => Panic "reflect: call of reflect.Value.Elem on a value that is not a pointer"
        | _ => Ret (Ptrs t (Some []))
        end
    | Slice _ _, Ptrs _ _ => Set_ exported d s
    | _, _ => if negb (IsZero s) then Set_ exported d s else Ret d
    end
  else Ret d.

Fixpoint field_loop (rec : string → struct → option struct → outcome struct) (fs : list (bool * ftype)) (i : nat)
    (dest : struct) (src : option struct) : outcome struct :=
  match fs, dest with
  | (exported, _) :: fs, d :: dest =>
      match src with
      | None => Panic "reflect: call of reflect.Value.Field on zero Value"
      | Some src =>
          match src !! i with
          | None => Panic "reflect: Field index out of range"
          | Some s =>
              let! d := replace_field rec exported d s in
              let! dest := field_loop rec fs (S i) dest (Some src) in
              Ret (d :: dest)
          end
      end
  | _, _ => Ret dest
  end.

(** The recursion goes down the nesting of slices of the source: fuel for its depth. *)
Fixpoint StructFieldNotNilReplace (fuel : nat) (t : string) (dest : struct) (src : option struct) : outcome struct :=
  match fuel with
  | O => Panic "out of fuel"
  | S fuel => field_loop (StructFieldNotNilReplace fuel) (fields t) 0 dest src
  end.
End replace.

(** * The reference

    What the function computes when the structs have the declared types, every field is
    exported and the elements of their slices hold scalars and slices of scalars. *)

Definition pick (d s : fval) : fval := if IsZero s then d else s.

(** An element: zero fields from the element of the destination at the same place, which
    has to exist if there are any. *)
Definition kept (d : option (option struct)) (s : option struct) : option struct :=
  s ← s;
  if forallb (λ v, negb (IsZero v)) s then Some s
  else match d with Some (Some d) => Some (zip_with pick d s) | _ => None end.

Fixpoint kept_from (od : option (list (option struct))) (j : nat) (src : list (option struct)) : option (list (option struct)) :=
  match src with
  | [] => Some []
  | s :: src => x ← kept (od ≫= lookup j) s; l ← kept_from od (S j) src; Some (Some x :: l)
  end.

(** A field: slices are taken over, nil or not; elements are merged; the rest is replaced
    unless zero. *)
Definition merged (d s : fval) : option fval :=
  match d, s with
  | Ptrs t od, Ptrs _ os => l ← kept_from od 0 (default [] os); Some (Ptrs t (Some l))
  | _, Slice _ _ => Some s
  | _, _ => Some (pick d s)
  end.

Fixpoint merge (dest src : struct) : option struct :=
  match dest, src with
  | d :: dest, s :: src => x ← merged d s; r ← merge dest src; Some (x :: r)
  | _, _ => Some []
  end.

(** The outcome is the value of the reference, and a panic where it has none. *)
Definition agrees {A} (m : outcome A) (o : option A) : Prop :=
  match m, o with Ret a, Some b => a = b | Panic _, None => True | _, _ => False end.

Section reference.
Context (fields : string → list (bool * ftype)).

Definition typed (t : string) (s : struct) : Prop := type_of <$> s = (fields t).*2.

Definition flat_type (t : ftype) : Prop := match t with TPtrs _ => False | _ => True end.
Definition flat (t : string) : Prop := fields t ≠ [] ∧ Forall (λ f, f.1 = true ∧ flat_type f.2) (fields t).

(** The elements of a slice have its type, and the type is flat. *)
Definition elems_typed (v : fval) : Prop :=
  match v with
  | Ptrs t o => flat t ∧ Forall (λ e, ∀ s, e = Some s → typed t s) (default [] o)
  | _ => True
  end.

Lemma agrees_bind {A B} (m : outcome A) (o : option A) (k : A → outcome B) (k' : A → option B) :
  agrees m o → (∀ a, agrees (k a) (k' a)) → agrees (obind m k) (o ≫= k').
Proof. destruct m as [a|], o as [b|]; simpl; try done. intros -> H. apply H. Qed.

(** ** New elements *)

Lemma new_field_loop rec fs i pre s :
  Forall (λ f : bool * ftype, f.1 = true ∧ flat_type f.2) fs → type_of <$> s = fs.*2 → length pre = i →
  field_loop fields rec fs i (zero_of <$> fs.*2) (Some (pre ++ s)) = Ret s.
Proof.
  revert i pre s. induction fs as [|[e t] fs IH]; intros i pre s Hf Hs Hi.
  { by destruct s. }
  destruct s as [|v s]; [done |]. simpl in Hs. injection Hs as Ht Hs. apply Forall_cons in Hf as [[He Hft] Hf].
  simpl in He, Hft. subst e. cbn [fmap list_fmap snd field_loop].
  rewrite lookup_app_r, Hi, Nat.sub_diag by lia. cbn [lookup list_lookup].
  assert (replace_field fields rec true (zero_of t) v = Ret v) as ->.
  { destruct t, v as [t0 z | t0 o | t0 o]; simplify_eq/=; try done; unfold Set_; simpl;
      [case_bool_decide; [by subst |] |]; simpl; by rewrite bool_decide_eq_true_2. }
  cbn [obind]. replace (pre ++ v :: s) with ((pre ++ [v]) ++ s) by (by rewrite <- app_assoc).
  rewrite (IH (S i) (pre ++ [v]) s Hf Hs); [done |]. rewrite length_app. simpl. lia.
Qed.

Lemma new_elem fuel t s : flat t → typed t s → StructFieldNotNilReplace fields (S fuel) t (New fields t) (Some s) = Ret s.
Proof. intros [_ Hf] Hs. exact (new_field_loop _ (fields t) 0 [] s Hf Hs eq_refl). Qed.

Lemma new_nil fuel t : flat t → ∃ why, StructFieldNotNilReplace fields (S fuel) t (New fields t) None = Panic why.
Proof. intros [Hne _]. simpl. unfold New. destruct (fields t) as [|[e f] fs]; [done |]. simpl. by eexists. Qed.

(** ** Elements kept *)

Lemma keep_present fs od j k pre ds elem :
  od ≫= lookup j = Some (Some (pre ++ ds)) → length pre = k →
  Forall (λ f : bool * ftype, f.1 = true ∧ flat_type f.2) fs → type_of <$> elem = fs.*2 → type_of <$> ds = fs.*2 →
  keep_loop fs od j k elem = Ret (zip_with pick ds elem).
Proof.
  intros Hd. revert k pre ds elem Hd. induction fs as [|[e t] fs IH]; intros k pre ds elem Hd Hk Hf He Hds.
  { destruct elem; [|done]. by destruct ds. }
  destruct elem as [|v elem]; [done |]. destruct ds as [|d ds]; [done |].
  simpl in He, Hds. injection He as Hv He. injection Hds as Hdt Hds. apply Forall_cons in Hf as [[Hx _] Hf]. simpl in Hx. subst e.
  cbn [keep_loop zip_with]. unfold index_field. rewrite Hd, lookup_app_r, Hk, Nat.sub_diag by lia. cbn [lookup list_lookup of_nil_check obind].
  assert ((if IsZero v then Set_ true v d else Ret v) = Ret (pick d v)) as ->.
  { unfold pick, Set_. destruct (IsZero v); [|done]. rewrite bool_decide_eq_true_2; [done | congruence]. }
  cbn [obind]. rewrite (IH (S k) (pre ++ [d]) ds elem); [done | | | done..].
  - by rewrite <- app_assoc.
  - rewrite length_app. simpl. lia.
Qed.

Lemma keep_nonzero fs od j k elem : forallb (λ v, negb (IsZero v)) elem = true → keep_loop fs od j k elem = Ret elem.
Proof.
  revert k elem. induction fs as [|[e t] fs IH]; intros k elem; [done |]. destruct elem as [|v elem]; [done |].
  simpl. intros [Hv He]%andb_true_iff. apply negb_true_iff in Hv. rewrite Hv. simpl. by rewrite IH.
Qed.

Lemma keep_absent fs od j k elem :
  (∀ ds, od ≫= lookup j ≠ Some (Some ds)) → length elem = length fs → forallb (λ v, negb (IsZero v)) elem = false →
  ∃ why, keep_loop fs od j k elem = Panic why.
Proof.
  intros Hd. revert k elem. induction fs as [|[e t] fs IH]; intros k elem Hl; (destruct elem as [|v elem]; [done |]); [done |].
  simpl. destruct (IsZero v); simpl.
  - intros _. unfold index_field. destruct (od ≫= lookup j) as [[ds|]|]; simpl; eauto. by destruct (Hd ds).
  - intros Hf. injection Hl as Hl. destruct (IH (S k) elem Hl Hf) as [why ->]. by exists why.
Qed.

Lemma elem_loop_agrees fuel t od j src :
  flat t → (∀ ds, Some ds ∈ default [] od → typed t ds) → Forall (λ e, ∀ s, e = Some s → typed t s) src →
  agrees (elem_loop fields (StructFieldNotNilReplace fields (S fuel) t) t od j src) (kept_from od j src).
Proof.
  intros Hf Hod. revert j. induction src as [|s src IH]; intros j Hsrc; [done |].
  apply Forall_cons in Hsrc as [Hs Hsrc]. cbn [elem_loop kept_from].
  destruct s as [s|].
  2: { destruct (new_nil fuel t Hf) as [why Hw]. by rewrite Hw. }
  specialize (Hs s eq_refl). rewrite (new_elem fuel t s Hf Hs). cbn [obind].
  assert (agrees (keep_loop (fields t) od j 0 s) (kept (od ≫= lookup j) (Some s))) as Hk.
  { unfold kept. cbn [mbind option_bind]. destruct (forallb _ s) eqn:Hz; [by rewrite keep_nonzero |].
    destruct (od ≫= lookup j) as [[ds|]|] eqn:Hl.
    - rewrite (keep_present (fields t) od j 0 [] ds s); try done; [apply Hf |].
      apply Hod. destruct od as [l|]; [|done]. simpl in *. by eapply list_elem_of_lookup_2.
    - destruct (keep_absent (fields t) od j 0 s) as [why ->]; [intros ds; by rewrite Hl | | done | done].
      apply (f_equal length) in Hs. by rewrite !length_fmap in Hs.
    - destruct (keep_absent (fields t) od j 0 s) as [why ->]; [intros ds; by rewrite Hl | | done | done].
      apply (f_equal length) in Hs. by rewrite !length_fmap in Hs. }
  apply (agrees_bind _ _ _ _ Hk). intros x. apply agrees_bind; [by apply IH | done].
Qed.

Lemma field_loop_agrees fuel fs i pre dest src :
  Forall (λ f : bool * ftype, f.1 = true) fs → type_of <$> dest = fs.*2 → type_of <$> src = fs.*2 →
  Forall elems_typed dest → Forall elems_typed src → length pre = i →
  agrees (field_loop fields (StructFieldNotNilReplace fields (S fuel)) fs i dest (Some (pre ++ src))) (merge dest src).
Proof.
  revert i pre dest src. induction fs as [|[e t] fs IH]; intros i pre dest src Hf Hd Hs Hde Hse Hi.
  { destruct dest; [|done]. done. }
  destruct dest as [|d dest]; [done |]. destruct src as [|s src]; [done |].
  simpl in Hd, Hs. injection Hd as Hdt Hd. injection Hs as Hst Hs.
  apply Forall_cons in Hf as [He Hf], Hde as [Hde1 Hde], Hse as [Hse1 Hse]. simpl in He. subst e.
  cbn [field_loop merge]. rewrite lookup_app_r, Hi, Nat.sub_diag by lia. cbn [lookup list_lookup].
  apply agrees_bind; [|intros x; apply agrees_bind; [|done]].
  - unfold replace_field, merged. destruct d as [td zd | td od | td od], s as [ts zs | ts os | ts os]; simplify_eq/=; try done.
    + unfold Set_, pick. simpl. case_bool_decide; simpl; [done |]. by rewrite bool_decide_eq_true_2.
    + unfold Set_. simpl. by rewrite bool_decide_eq_true_2.
    + destruct Hde1 as [Hfl Hde1], Hse1 as [_ Hse1]. apply agrees_bind; [|done].
      apply elem_loop_agrees; [done | | done]. intros ds Hin. rewrite Forall_forall in Hde1. by apply (Hde1 _ Hin).
  - replace (pre ++ s :: src) with ((pre ++ [s]) ++ src) by (by rewrite <- app_assoc).
    apply IH; try done. rewrite length_app. simpl. lia.
Qed.

End reference.

(** C30. Replacing the fields of a struct by those of another of its type.  All fields are
    exported, and in the slices of pointers to structs, of both, what is not nil is of the
    declared type, one that has fields, all exported and none such a slice itself.  Then the
    function computes the reference, two rounds of the recursion being enough: a field that
    is no slice replaces unless it is zero; a slice of other elements replaces, nil or not;
    a slice of pointers is replaced by one as long as the source's, in which a zero field of
    an element is that of the destination's element at the same place.  It panics exactly
    where the reference has no value: at a nil element of the source, and at one with a zero
    field for which the destination has no element, or a nil one. *)
Theorem replace_reference fields fuel t dest src :
  Forall (λ f, f.1 = true) (fields t) → typed fields t dest → typed fields t src →
  Forall (elems_typed fields) dest → Forall (elems_typed fields) src →
  agrees (StructFieldNotNilReplace fields (S (S fuel)) t dest (Some src)) (merge dest src).
Proof. intros Hf Hd Hs Hde Hse. by apply (field_loop_agrees fields fuel (fields t) 0 []). Qed.

(** ** Where it does not do what its name says *)

Definition example_fields (t : string) : list (bool * ftype) :=
  if decide (t = "group") then [(true, TScalar "string"); (true, TSlice "int"); (true, TPtrs "member")]
  else if decide (t = "member") then [(true, TScalar "int"); (true, TSlice "int")]
  else [(true, TScalar "int"); (false, TScalar "int")].

Definition member (a : Z) (l : option (list Z)) : option struct := Some [Scalar "int" a; Slice "int" l].
Definition old_group : struct :=
  [Scalar "string" 1; Slice "int" (Some [7%Z]); Ptrs "member" (Some [member 1 (Some [4%Z]); member 2 None])].

(** A slice of the source that is nil empties that of the destination, while the same slice
    in an element is kept; an element more than the destination has, with a zero field,
    panics; and so does an element whose struct has an unexported field. *)
Theorem replace_with_nil :
  StructFieldNotNilReplace example_fields 2 "group" old_group
    (Some [Scalar "string" 0; Slice "int" None; Ptrs "member" (Some [member 9 None])]) =
    Ret [Scalar "string" 1; Slice "int" None; Ptrs "member" (Some [member 9 (Some [4%Z])])] ∧
  ¬ returns (StructFieldNotNilReplace example_fields 2 "group" old_group
    (Some [Scalar "string" 0; Slice "int" None; Ptrs "member" (Some [member 1 None; member 2 None; member 0 None])])) ∧
  (∀ od v, ¬ returns (elem_loop example_fields (StructFieldNotNilReplace example_fields 2 "hidden") "hidden" od 0
    [Some [Scalar "int" v; Scalar "int" 0]])).
Proof.
  split; [by vm_compute |]. split; [intros [r Hr]; by vm_compute in Hr |].
  intros od v [r Hr]. simpl in Hr. destruct (bool_decide (v = 0%Z)) eqn:Hv; simpl in Hr.
  - unfold index_field in Hr. destruct od as [[|[[|a [|b l]]|] ds]|]; simpl in Hr; try done.
    + unfold Set_ in Hr. case_bool_decide; simpl in Hr; [|done]. done.
    + unfold Set_ in Hr. case_bool_decide; simpl in Hr; done.
  - rewrite bool_decide_eq_false_2 in Hr by (by apply bool_decide_eq_false in Hv). simpl in Hr.
    unfold index_field in Hr. destruct od as [[|[[|a [|b l]]|] ds]|]; simpl in Hr; done.
Qed.

Lemma replace_reference_witness :
  let src := [Scalar "string" 5; Slice "int" None; Ptrs "member" (Some [member 0 None])] in
  merge old_group src = Some [Scalar "string" 5; Slice "int" None; Ptrs "member" (Some [member 1 (Some [4%Z])])] ∧
  agrees (StructFieldNotNilReplace example_fields 2 "group" old_group (Some src)) (merge old_group src).
Proof.
  split; [by vm_compute |]. apply (replace_reference example_fields 0 "group").
  all: try reflexivity.
  all: repeat constructor; try discriminate; intros s [= <-]; reflexivity.
Defined.
