(* ===== verification/Mage.v ===== *)
(** * Building, starting and stopping the services (utils/mageutil)

    The tools that a developer runs.  What they see and do of the machine are numbered
    system calls: the list of processes, signals, starts and waits; what each call answers
    is an argument, so processes may come and go between any two calls.  Their output and
    their calls are logged in order.  Paths and names are in ASCII, with the separator of
    Unix. *)

From S2P Require Import Prelude GoStrings.
From Stdlib Require Import Ascii.

(** ** Text *)

(** [strings.EqualFold] of ASCII strings. *)
Definition EqualFold (a b : string) : bool := String.eqb (ToLower a) (ToLower b).

(** [strings.ReplaceAll] of what is not empty; [skip] bytes of an occurrence are left. *)
Fixpoint replace_from (old new : string) (skip : nat) (s : string) : string :=
  match s with
  | EmptyString => EmptyString
  | String a s' =>
      match skip with
      | S k => replace_from old new k s'
      | O => match CutPrefix old s with
             | Some _ => new +:+ replace_from old new (String.length old - 1) s'
             | None => String a (replace_from old new 0 s')
             end
      end
  end.
Definition ReplaceAll (s old new : string) : string := replace_from old new 0 s.

Definition newline : ascii := "010"%char.
Definition carriage : ascii := "013"%char.

(** The line that a [bufio.Scanner] gives loses a last carriage return. *)
Fixpoint drop_cr (s : string) : string :=
  match s with
  | EmptyString => EmptyString
  | String a EmptyString => if is_byte carriage a then EmptyString else s
  | String a s' => String a (drop_cr s')
  end.

(** The lines of a file; a last one that is empty is not given. *)
Fixpoint raw_lines (acc : string) (s : string) : list string :=
  match s with
  | EmptyString => if bool_decide (acc = "") then [] else [acc]
  | String a s' => if is_byte newline a then acc :: raw_lines "" s' else raw_lines (acc +:+ String a "") s'
  end.

Definition MaxScanTokenSize : Z := 65536.
Definition fits (l : string) : bool := (Z.of_nat (String.length l) <? MaxScanTokenSize)%Z.

(** [None]: a line does not fit the buffer. *)
Definition Scan_lines (s : string) : option (list string) :=
  let ls := raw_lines "" s in
  if forallb fits ls then Some (drop_cr <$> ls) else None.

Definition Println (l : string) : string := l +:+ String newline "".

(** ** Generated files (gen_protocol.go) *)

Inductive gen_err := ErrOpen | ErrRead | ErrNoModule | ErrCompile.

(** [RemoveOmitemptyFromFile] and [writeLines]: what the file holds afterwards. *)
Definition omitempty : string := ",omitempty".
Definition writeLines (lines : list string) : string := String.concat "" (Println <$> lines).
Definition RemoveOmitemptyFromFile (file : option string) : option string * option gen_err :=
  match file with
  | None => (None, Some ErrOpen)
  | Some content =>
      match Scan_lines content with
      | None => (Some content, Some ErrRead)
      | Some lines => (Some (writeLines ((λ l, ReplaceAll l omitempty "") <$> lines)), None)
      end
  end.

(** [getModuleNameFromGoMod]: a line that does not fit ends the scan with an error unless
    the module was named before it. *)
Fixpoint find_module (ls : list string) : string + gen_err :=
  match ls with
  | [] => inr ErrNoModule
  | l :: ls =>
      if fits l then
        let line := drop_cr l in
        match CutPrefix "module " line with
        | Some _ => inl (TrimSpace (default line (CutPrefix "module" line)))
        | None => find_module ls
        end
      else inr ErrRead
  end.
Definition getModuleNameFromGoMod (file : option string) : string + gen_err :=
  match file with None => inr ErrOpen | Some content => find_module (raw_lines "" content) end.

Definition archMap : list (string * string) := [("amd64", "x86_64"); ("386", "x86"); ("arm64", "aarch64")].
Definition getProtocArch (goArch : string) : string :=
  default goArch (snd <$> list_find (λ e, e.1 = goArch) archMap ≫= λ e, Some e.2).

(** The address that [installProtoc] downloads. *)
Definition protoc_url (goos goarch : string) : string :=
  let osArch := if String.eqb goos "windows" then "win64" else goos +:+ "-" +:+ getProtocArch goarch in
  "https://github.com/protocolbuffers/protobuf/releases/download/v26.1/protoc-26.1-" +:+ osArch +:+ ".zip".

(** [unzip]: the directories made and the files written, in order, and whether it went to
    the end.  An entry of a file tells whether it opens, what is copied of it, and whether
    that is all; its target has been emptied before. *)
Inductive zip_entry := ZipDir | ZipFile (opens : bool) (content : string) (complete : bool).
Inductive unzip_act := MkdirAll (p : string) | WriteFile (p : string) (content : string).

Fixpoint unzip (OpenFile : string → bool) (dest : string) (entries : list (string * zip_entry)) : list unzip_act * bool :=
  match entries with
  | [] => ([], true)
  | (name, f) :: entries =>
      let fpath := path_Join [dest; name] in
      match f with
      | ZipDir => let '(l, ok) := unzip OpenFile dest entries in (MkdirAll fpath :: l, ok)
      | ZipFile opens content complete =>
          if negb (OpenFile fpath) then ([], false)
          else if negb opens then ([WriteFile fpath ""], false)
          else if complete then let '(l, ok) := unzip OpenFile dest entries in (WriteFile fpath content :: l, ok)
          else ([WriteFile fpath content], false)
      end
  end.

(** The arguments of the compiler for one directory. *)
Definition compile_args (basePath dirName moduleName : string) : list string :=
  let protoFile := path_Join [basePath; dirName; dirName +:+ ".proto"] in
  let outputDir := path_Join [basePath; dirName] in
  let module := moduleName +:+ "/pkg/protocol/" +:+ dirName in
  ["--go_out=plugins=grpc:" +:+ outputDir; "--go_opt=module=" +:+ module; protoFile].

(** The files of a directory that [filepath.Glob] gives for "*.pb.go", in their order. *)
Definition generated (dir p : string) : bool :=
  match CutPrefix (dir +:+ "/") p with Some n => HasSuffix n ".pb.go" && negb (has_byte "/"%char n) | None => false end.
Definition Glob (dir : string) (fs : gmap string string) : list string :=
  sort_strings (filter (λ p, generated dir p = true) (map_to_list fs).*1).

Definition fix_file (fs : gmap string string) (p : string) : gmap string string * option gen_err :=
  let '(content, err) := RemoveOmitemptyFromFile (fs !! p) in
  (match content with Some c => <[p := c]> fs | None => fs end, err).

Fixpoint fix_files (files : list string) (fs : gmap string string) : gmap string string * option gen_err :=
  match files with
  | [] => (fs, None)
  | p :: files => match fix_file fs p with
                  | (fs, None) => fix_files files fs
                  | (fs, Some e) => (fs, Some e)
                  end
  end.

Definition fixOmitemptyInDirectory (dir : string) (fs : gmap string string) : gmap string string * option gen_err :=
  fix_files (Glob dir fs) fs.

(** [protoc] is the run of the compiler: the files after it, and whether it went well. *)
Definition compileProtoFiles (protoc : list string → gmap string string → gmap string string * bool)
    (basePath dirName moduleName : string) (fs : gmap string string) : gmap string string * option gen_err :=
  let '(fs, ok) := protoc (compile_args basePath dirName moduleName) fs in
  if ok : bool then fixOmitemptyInDirectory (path_Join [basePath; dirName]) fs else (fs, Some ErrCompile).

(** The loop of [Protocol], over the directories; an error ends the program. *)
Fixpoint compile_all (protoc : list string → gmap string string → gmap string string * bool)
    (moduleName : string) (dirs : list (string * bool)) (fs : gmap string string) : gmap string string * option gen_err :=
  match dirs with
  | [] => (fs, None)
  | (name, is_dir) :: dirs =>
      if is_dir : bool then
        match compileProtoFiles protoc "./pkg/protocol" name moduleName fs with
        | (fs, None) => compile_all protoc moduleName dirs fs
        | (fs, Some e) => (fs, Some e)
        end
      else compile_all protoc moduleName dirs fs
  end.

(** [Protocol], after the tools are installed: [dirs] is [None] when they cannot be read. *)
Definition Protocol (protoc : list string → gmap string string → gmap string string * bool)
    (dirs : option (list (string * bool))) (fs : gmap string string) : gmap string string * option gen_err :=
  match getModuleNameFromGoMod (fs !! "go.mod") with
  | inr e => (fs, Some e)
  | inl moduleName => match dirs with
                      | None => (fs, Some ErrOpen)
                      | Some dirs => compile_all protoc moduleName dirs fs
                      end
  end.

(** [compileDir]: the builds run side by side and end in any order [mains]; one that fails
    ends the program.  The name of a platform without "_" is an index out of range. *)
Definition Base (p : string) : string := default p ((λ i, sdrop (S i) p) <$> LastIndexByte "/"%char p).
Definition dir_of (p : string) : string := default "." ((λ i, stake i p) <$> LastIndexByte "/"%char p).

Definition build_args (targetOS outputDir path : string) : list string :=
  let dir := dir_of path in
  let outputFileName := if String.eqb targetOS "windows" then Base dir +:+ ".exe" else Base dir in
  ["build"; "-o"; path_Join [outputDir; outputFileName]; path_Join [dir; "main.go"]].

Fixpoint build_all (go : list string → bool) (targetOS outputDir : string) (mains : list string) : option (list string) :=
  match mains with
  | [] => Some []
  | path :: mains =>
      if go (build_args targetOS outputDir path) then
        rest ← build_all go targetOS outputDir mains; Some (Base (dir_of path) :: rest)
      else None
  end.

Definition compileDir (go : list string → bool) (outputBase platform : string) (mains : list string) :
    outcome (option (list string)) :=
  match Split "_"%char platform with
  | targetOS :: targetArch :: _ =>
      let outputDir := path_Join [outputBase; targetOS; targetArch] in
      Ret (build_all go targetOS outputDir (filter (λ p, Base p = "main.go") mains))
  | _ => Panic "index out of range"
  end.

(** [createStartConfigYML]: [None] when the file is there. *)
Definition createStartConfigYML (exists_ : bool) (cmdDirs toolsDirs : list string) : option string :=
  if exists_ then None
  else Some ("serviceBinaries:" +:+ String newline "" +:+
             String.concat "" ((λ d, "  " +:+ d +:+ ": 1" +:+ String newline "") <$> cmdDirs) +:+
             "toolBinaries:" +:+ String newline "" +:+
             String.concat "" ((λ d, "  - " +:+ d +:+ String newline "") <$> toolsDirs) +:+
             "maxFileDescriptors: 10000" +:+ String newline "").

(** ** The machine *)

Record proc := MkProc { Pid : Z; Exe : option string; Cmdline : option string }.

Inductive color := Plain | Blue | Green | Red.

Inductive event :=
| Print (c : color) (msg : string)
| Listed
| Inspected (pid : Z)
| Terminate (pid : Z)
| Kill (pid : Z)
| Start (path : string) (args : list string) (dir : string)
| Wait (path : string).

(** A call is logged with its number. *)
Record machine := MkMachine { calls : nat; log : list (nat * event) }.

Class Machine := {
  goos : string;
  goarch : string;
  Processes : nat → option (list proc);
  CmdlineOf : nat → Z → option string;
  ConnectionsPid : nat → Z → option (list (string * Z));
  succeeds : nat → bool;
  root : string
}.

Definition M (A : Type) : Type := machine → A * machine.
#[export] Instance M_ret : MRet M := λ A a s, (a, s).
#[export] Instance M_bind : MBind M := λ A B k m s, let '(a, s) := m s in k a s.

Definition Say (c : color) (msg : string) : M () := λ s, (tt, MkMachine (calls s) (log s ++ [(calls s, Print c msg)])).

Section tools.
Context `{Machine, MapRange}.

Definition call (e : event) : M bool :=
  λ s, (succeeds (calls s), MkMachine (S (calls s)) (log s ++ [(calls s, e)])).
Definition processes : M (option (list proc)) :=
  λ s, (Processes (calls s), MkMachine (S (calls s)) (log s ++ [(calls s, Listed)])).

Definition inspect {A} (f : nat → Z → option A) (pid : Z) : M (option A) :=
  λ s, (f (calls s) pid, MkMachine (S (calls s)) (log s ++ [(calls s, Inspected pid)])).

Fixpoint for_each {A} (l : list A) (f : A → M ()) : M () :=
  match l with [] => mret tt | x :: l => _ ← f x; for_each l f end.

(** ** Paths (path.go, sys.go) *)

Definition OsArch : string := if String.eqb goos "windows" then goos +:+ "\" +:+ goarch else goos +:+ "/" +:+ goarch.
Definition Dir (elems : list string) : string := path_Join elems +:+ "/".
Definition OpenIMOutputConfig : string := Dir [root; "config"].
Definition OpenIMOutput : string := Dir [root; "_output"].
Definition OpenIMOutputBin : string := Dir [OpenIMOutput; "bin"].
Definition OpenIMOutputHostBin : string := Dir [Dir [OpenIMOutputBin; "platforms"]; OsArch].
Definition OpenIMOutputHostBinTools : string := Dir [Dir [OpenIMOutputBin; "tools"]; OsArch].

Definition GetBinFullPath (binName : string) : string := path_Join [OpenIMOutputHostBin; binName].
Definition GetToolFullPath (toolName : string) : string := path_Join [OpenIMOutputHostBinTools; toolName].

(** Other architectures end the program. *)
Definition DetectPlatform : option string :=
  if String.eqb goarch "amd64" || String.eqb goarch "arm64" then Some (goos +:+ "_" +:+ goarch) else None.

(** ** Processes (sys.go) *)

Inductive proc_err := ErrProcesses | ErrCount (path : string) (expected running : Z).

Definition running (same : string → bool) (ps : list proc) : list proc :=
  filter (λ p, default false (same <$> Exe p) = true) ps.

Definition CheckProcessNames (processPath : string) (expectedCount : Z) : M (option proc_err) :=
  ps ← processes;
  match ps with
  | None => mret (Some ErrProcesses)
  | Some ps =>
      let runningCount := Z.of_nat (length (running (λ e, EqualFold e processPath) ps)) in
      mret (if (runningCount =? expectedCount)%Z then None else Some (ErrCount processPath expectedCount runningCount))
  end.

Definition CheckProcessNamesExist (processPath : string) : M bool :=
  ps ← processes;
  match ps with
  | None => _ ← Say Plain "Failed to get processes"; mret false
  | Some ps => mret (negb (bool_decide (running (λ e, String.eqb e processPath) ps = [])))
  end.

Definition FindPIDsByBinaryPath (binaryPath : string) : M (option (list Z)) :=
  ps ← processes; mret ((λ ps, Pid <$> running (λ e, EqualFold e binaryPath) ps) <$> ps).

(** The loop of [KillExistBinary]: a process that does not terminate is killed. *)
Definition kill_process (binaryPath : string) (p : proc) : M () :=
  match Exe p with
  | None => mret tt
  | Some exePath =>
      if Contains (ToLower exePath) (ToLower binaryPath) then
        match Cmdline p with
        | None => Say Plain "Failed to get command line"
        | Some cmdline =>
            ok ← call (Terminate (Pid p));
            if ok : bool then Say Plain ("Terminated process cmdline: " +:+ cmdline)
            else
              ok ← call (Kill (Pid p));
              Say Plain ((if ok : bool then "Killed process cmdline: " else "Failed to kill process cmdline: ") +:+ cmdline)
        end
      else mret tt
  end.

Definition KillExistBinary (binaryPath : string) : M () :=
  ps ← processes;
  match ps with
  | None => Say Plain "Failed to get processes"
  | Some ps => for_each ps (kill_process binaryPath)
  end.

(** The ports that a process listens on, each once. *)
Definition listening (connections : list (string * Z)) : gmap string unit :=
  fold_left (λ m c, if String.eqb c.1 "LISTEN" then <[Itoa c.2 := tt]> m else m) connections ∅.

Definition print_ports (pid : Z) : M () :=
  ok ← inspect (λ n _, if succeeds n then Some tt else None) pid;
  match ok with
  | None => Say Plain "Failed to create process object"
  | Some _ =>
      cmdline ← inspect CmdlineOf pid;
      match cmdline with
      | None => Say Plain "Failed to get command line"
      | Some cmdline =>
          connections ← inspect ConnectionsPid pid;
          match connections with
          | None => Say Plain "Error getting connections"
          | Some connections =>
              let portsMap := listening connections in
              let head := "Cmdline: " +:+ cmdline +:+ ", PID: " +:+ Itoa pid in
              Say Green (head +:+ if bool_decide (portsMap = ∅) then " is not listening on any ports."
                                  else " is listening on ports: " +:+ Join ", " (range_map portsMap).*1)
          end
      end
  end.

Definition PrintBinaryPorts (binaryPath : string) : M () :=
  pids ← FindPIDsByBinaryPath binaryPath;
  match pids with
  | None => Say Plain "Error finding PIDs"
  | Some [] => Say Plain ("No running processes found for binary: " +:+ binaryPath)
  | Some pids => for_each pids print_ports
  end.

(** ** Services (bricks.go) *)

Definition serviceBinaries_of (config : gmap string Z) : gmap string Z :=
  if String.eqb goos "windows" then fold_left (λ m e, <[e.1 +:+ ".exe" := e.2]> m) (range_map config) ∅
  else fold_left (λ m e, <[e.1 := e.2]> m) (range_map config) ∅.

Context (serviceBinaries : gmap string Z) (toolBinaries : list string).

Definition KillExistBinaries : M () := for_each (range_map serviceBinaries) (λ e, KillExistBinary (GetBinFullPath e.1)).
Definition StopBinaries : M () := for_each (range_map serviceBinaries) (λ e, KillExistBinary (GetBinFullPath e.1)).

(** The instances [i], [i + 1], ... of one binary. *)
Fixpoint start_count (path : string) (i n : nat) : M bool :=
  match n with
  | O => mret true
  | S n =>
      ok ← call (Start path ["-i"; Itoa (Z.of_nat i); "-c"; OpenIMOutputConfig] OpenIMOutputHostBin);
      if ok : bool then start_count path (S i) n else mret false
  end.

Fixpoint start_all (l : list (string * Z)) : M bool :=
  match l with
  | [] => mret true
  | (binary, count) :: l =>
      ok ← start_count (path_Join [OpenIMOutputHostBin; binary]) 0 (Z.to_nat count);
      if ok : bool then start_all l else mret false
  end.

(** [false] stands for the error. *)
Definition StartBinaries : M bool := start_all (range_map serviceBinaries).

Fixpoint start_tools (l : list string) : M bool :=
  match l with
  | [] => mret true
  | tool :: l =>
      let path := GetToolFullPath tool in
      ok ← call (Start path ["-c"; OpenIMOutputConfig] OpenIMOutputHostBinTools);
      if ok : bool then
        ok ← call (Wait path);
        if ok : bool then start_tools l else mret false
      else mret false
  end.
Definition StartTools : M bool := start_tools toolBinaries.

Fixpoint still_running (l : list (string * Z)) : M (list string) :=
  match l with
  | [] => mret []
  | (binary, _) :: l =>
      b ← CheckProcessNamesExist (GetBinFullPath binary);
      r ← still_running l;
      mret (if b : bool then binary :: r else r)
  end.

(** The binaries of the error; none when there is no error. *)
Definition CheckBinariesStop : M (list string) := still_running (range_map serviceBinaries).

Fixpoint not_as_expected (l : list (string * Z)) : M (list (string * proc_err)) :=
  match l with
  | [] => mret []
  | (binary, expectedCount) :: l =>
      e ← CheckProcessNames (GetBinFullPath binary) expectedCount;
      r ← not_as_expected l;
      mret (match e with Some e => (binary, e) :: r | None => r end)
  end.
Definition CheckBinariesRunning : M (list (string * proc_err)) := not_as_expected (range_map serviceBinaries).

(** ** The targets (bssc.go) *)

Definition PrintListenedPortsByBinaries : M () :=
  for_each (range_map serviceBinaries) (λ e, PrintBinaryPorts (GetBinFullPath e.1)).

Definition all_normal : string := "All services are running normally.".
Definition all_stopped : string := "All services have been stopped".

Definition CheckAndReportBinariesStatus : M () :=
  err ← CheckBinariesRunning;
  match err with
  | [] => _ ← Say Green all_normal;
          _ ← Say Blue "Display details of the ports listened to by the service:";
          PrintListenedPortsByBinaries
  | _ => Say Red "Some programs are not running properly:"
  end.

Definition StopAndCheckBinaries : M () :=
  _ ← KillExistBinaries;
  err ← CheckBinariesStop;
  match err with
  | [] => Say Green all_stopped
  | _ => Say Red ("Some services have not been stopped, details are as follows:" +:+ Join ", " err)
  end.

Definition StartToolsAndServices : M () :=
  _ ← Say Blue "Starting tools primarily involves component verification and other preparatory tasks.";
  ok ← StartTools;
  if negb ok then Say Red "Some tools failed to start, details are as follows, abort start"
  else
    _ ← Say Green "All tools executed successfully";
    _ ← KillExistBinaries;
    err ← CheckBinariesStop;
    match err with
    | _ :: _ => Say Red ("Some services running, details are as follows, abort start " +:+ Join ", " err)
    | [] =>
        _ ← Say Blue "Starting services involves multiple RPCs and APIs and may take some time. Please be patient";
        ok ← StartBinaries;
        if ok : bool then CheckAndReportBinariesStatus else Say Red "Failed to start all binaries"
    end.
End tools.

(** * Lemmas *)

(** ** What a computation logs *)

Definition does {A} (m : M A) (P : A → list (nat * event) → Prop) : Prop :=
  ∀ s a s', m s = (a, s') → ∃ l, log s' = log s ++ l ∧ P a l.

Lemma does_ret {A} (a : A) (P : A → list (nat * event) → Prop) : P a [] → does (mret a) P.
Proof. intros HP s b s' [= <- <-]. exists []. by rewrite app_nil_r. Qed.

Lemma does_weaken {A} (m : M A) (P Q : A → list (nat * event) → Prop) :
  does m P → (∀ a l, P a l → Q a l) → does m Q.
Proof. intros Hm HPQ s a s' (l & Hl & HP)%Hm. eauto. Qed.

Lemma does_bind {A B} (m : M A) (k : A → M B) P (Q : B → list (nat * event) → Prop) :
  does m P → (∀ a l1, P a l1 → does (k a) (λ b l2, Q b (l1 ++ l2))) → does (m ≫= k) Q.
Proof.
  intros Hm Hk s b s' Hs. unfold mbind, M_bind in Hs. destruct (m s) as [a s1] eqn:Ha.
  destruct (Hm s a s1 Ha) as (l1 & Hl1 & HP). destruct (Hk a l1 HP s1 b s' Hs) as (l2 & Hl2 & HQ).
  exists (l1 ++ l2). by rewrite Hl2, Hl1, app_assoc.
Qed.

Lemma does_say c msg (P : () → list (nat * event) → Prop) : (∀ n, P tt [(n, Print c msg)]) → does (Say c msg) P.
Proof. intros HP s [] s' [= <-]. eexists. by split. Qed.

(** The starts of a log, and events that neither start anything nor are reported in green. *)
Definition start_of (e : nat * event) : option (string * list string * string) :=
  match e.2 with Start p a d => Some (p, a, d) | _ => None end.
Definition starts (l : list (nat * event)) : list (string * list string * string) := omap start_of l.

Definition green (e : nat * event) : bool := match e.2 with Print Green _ => true | _ => false end.
Definition quiet (l : list (nat * event)) : Prop := Forall (λ e, green e = false) l.
Definition harmless (l : list (nat * event)) : Prop := quiet l ∧ starts l = [].

Lemma starts_app l1 l2 : starts (l1 ++ l2) = starts l1 ++ starts l2.
Proof. apply omap_app. Qed.

Lemma starts_cons k p a d l : starts ((k, Start p a d) :: l) = (p, a, d) :: starts l.
Proof. done. Qed.

Lemma harmless_app l1 l2 : harmless l1 → harmless l2 → harmless (l1 ++ l2).
Proof. intros [H1 H2] [H3 H4]. split; [by apply Forall_app | by rewrite starts_app, H2, H4]. Qed.

Lemma harmless_nil : harmless [].
Proof. by split; [constructor |]. Qed.

Lemma harmless_cons e l : green e = false → start_of e = None → harmless l → harmless (e :: l).
Proof. intros Hg Hs [Hq Hl]. split; [by constructor |]. unfold starts in *. simpl. by rewrite Hs. Qed.

#[export] Hint Resolve harmless_app harmless_nil harmless_cons : go_db.

Section facts.
Context `{Machine, MapRange}.

Lemma does_call e (P : bool → list (nat * event) → Prop) : (∀ n, P (succeeds n) [(n, e)]) → does (call e) P.
Proof. intros HP s b s' [= <- <-]. eexists. by split. Qed.

Lemma does_processes (P : option (list proc) → list (nat * event) → Prop) : (∀ n, P (Processes n) [(n, Listed)]) → does processes P.
Proof. intros HP s b s' [= <- <-]. eexists. by split. Qed.

Lemma does_inspect {A} (f : nat → Z → option A) pid (P : option A → list (nat * event) → Prop) :
  (∀ n, P (f n pid) [(n, Inspected pid)]) → does (inspect f pid) P.
Proof. intros HP s b s' [= <- <-]. eexists. by split. Qed.

Lemma does_for_each {A} (l : list A) (f : A → M ()) (P : list (nat * event) → Prop) :
  P [] → (∀ l1 l2, P l1 → P l2 → P (l1 ++ l2)) → (∀ x, x ∈ l → does (f x) (λ _, P)) → does (for_each l f) (λ _, P).
Proof.
  intros Hn Ha. induction l as [|x l IH]; intros Hf; simpl; [by apply does_ret |].
  eapply does_bind; [apply Hf; by left |]. intros [] l1 H1. eapply does_weaken; [apply IH; intros; apply Hf; by right |].
  auto.
Qed.

(** ** Signals *)

(** The processes that [KillExistBinary] signals. *)
Definition hit (path : string) (p : proc) : bool :=
  default false ((λ e, Contains (ToLower e) (ToLower path)) <$> Exe p) && bool_decide (is_Some (Cmdline p)).

Definition terminated (l : list (nat * event)) : list Z := omap (λ e, match e.2 with Terminate pid => Some pid | _ => None end) l.
Definition killed (l : list (nat * event)) : list Z := omap (λ e, match e.2 with Kill pid => Some pid | _ => None end) l.

Lemma kill_process_does path p :
  does (kill_process path p) (λ _ l, harmless l ∧ terminated l = (if hit path p then [Pid p] else []) ∧
    killed l = (if existsb (λ e, match e.2 with Terminate _ => negb (succeeds e.1) | _ => false end) l then [Pid p] else [])).
Proof.
  unfold kill_process, hit. destruct (Exe p) as [e|]; [|by apply does_ret; auto using harmless_nil]. simpl.
  destruct (Contains (ToLower e) (ToLower path)); [|by apply does_ret; auto using harmless_nil]. simpl.
  destruct (Cmdline p) as [c|]; [|by apply does_say; intros; split; auto with go_db].
  eapply does_bind; [by apply (does_call _ (λ b l, ∃ n, b = succeeds n ∧ l = [(n, Terminate (Pid p))])); eauto |].
  intros b l1 (n & -> & ->). destruct (succeeds n) eqn:Hn.
  - apply does_say. intros m. split; [auto with go_db |]. simpl. by rewrite Hn.
  - eapply does_bind; [by apply (does_call _ (λ b l, ∃ n, l = [(n, Kill (Pid p))])); eauto |].
    intros b l2 (m & ->). apply does_say. intros k. split; [auto 10 with go_db |]. simpl. by rewrite Hn.
Qed.

Lemma KillExistBinary_does path : does (KillExistBinary path) (λ _ l, harmless l).
Proof.
  eapply does_bind; [by apply (does_processes (λ _ l, harmless l)); auto with go_db |]. intros [ps|] l1 Hl1.
  - eapply does_weaken; [apply (does_for_each _ _ harmless); auto with go_db |]; [|eauto with go_db].
    intros p _. eapply does_weaken; [apply kill_process_does |]. by intros _ l [? _].
  - apply does_say. intros. auto with go_db.
Qed.

Lemma kill_all_does (path : string) ps :
  does (for_each ps (kill_process path)) (λ _ l, terminated l = Pid <$> filter (λ p, hit path p = true) ps ∧
    ∀ pid, pid ∈ killed l → ∃ n, (n, Terminate pid) ∈ l ∧ succeeds n = false).
Proof.
  induction ps as [|p ps IH]; simpl; [apply does_ret; split; [done |]; by intros pid ?%elem_of_nil |].
  eapply does_bind; [apply kill_process_does |]. intros [] l1 (_ & Ht & Hk).
  eapply does_weaken; [apply IH |]. intros [] l2 [Ht2 Hk2]. split.
  - unfold terminated in *. rewrite omap_app, Ht, Ht2, filter_cons. by destruct (hit path p).
  - intros pid. unfold killed in *. rewrite omap_app, elem_of_app. intros [Hin | Hin].
    + rewrite Hk in Hin. destruct (existsb _ l1) eqn:He; [|by apply elem_of_nil in Hin].
      apply list_elem_of_singleton in Hin as ->. apply existsb_exists in He as ([n e] & He & Hs).
      destruct e as [| | | pid | | | ]; try done. simpl in Hs. apply negb_true_iff in Hs. exists n. split; [|done].
      assert (pid ∈ terminated l1) as Hpid by (apply list_elem_of_omap; exists (n, Terminate pid); by rewrite list_elem_of_In).
      rewrite Ht in Hpid. destruct (hit path p); [|by apply elem_of_nil in Hpid].
      apply list_elem_of_singleton in Hpid as <-. rewrite elem_of_app. left. by apply list_elem_of_In.
    + destruct (Hk2 pid Hin) as (n & Hn & Hs). exists n. rewrite elem_of_app. auto.
Qed.

(** ** Starting *)

Definition instance_start (binary : string) (i : nat) : string * list string * string :=
  (path_Join [OpenIMOutputHostBin; binary], ["-i"; Itoa (Z.of_nat i); "-c"; OpenIMOutputConfig], OpenIMOutputHostBin).
Definition tool_start (tool : string) : string * list string * string :=
  (GetToolFullPath tool, ["-c"; OpenIMOutputConfig], OpenIMOutputHostBinTools).
Definition service_starts (l : list (string * Z)) : list (string * list string * string) :=
  l ≫= λ e, instance_start e.1 <$> seq 0 (Z.to_nat e.2).

Lemma start_count_does binary i n :
  does (start_count (path_Join [OpenIMOutputHostBin; binary]) i n) (λ b l,
    quiet l ∧ (b = true → starts l = instance_start binary <$> seq i n)).
Proof.
  revert i. induction n as [|n IH]; intros i; simpl; [apply does_ret; split; [constructor | done] |].
  eapply does_bind; [by apply (does_call _ (λ b l, ∃ k p a d, l = [(k, Start p a d)] ∧ (p, a, d) = instance_start binary i)); intros; repeat eexists |].
  intros b l1 (k & p & a & d & -> & He). destruct b.
  - eapply does_weaken; [apply (IH (S i)) |]. intros b l [Hq Hs]. split; [by constructor |].
    intros Hb. cbn [app]. by rewrite starts_cons, He, (Hs Hb).
  - apply does_ret. split; [by repeat constructor | done].
Qed.

Lemma start_all_does l0 : does (start_all l0) (λ b l, quiet l ∧ (b = true → starts l = service_starts l0)).
Proof.
  induction l0 as [|[binary count] l0 IH]; simpl; [apply does_ret; split; [constructor | done] |].
  eapply does_bind; [apply start_count_does |]. intros b l1 [Hq Hs]. destruct b.
  - eapply does_weaken; [apply IH |]. intros b l2 [Hq2 Hs2]. split; [by apply Forall_app |].
    intros Hb. by rewrite starts_app, (Hs eq_refl), (Hs2 Hb).
  - apply does_ret. rewrite app_nil_r. done.
Qed.

(** A tool that was waited for had ended without an error. *)
Lemma start_tools_does l0 :
  does (start_tools l0) (λ b l, quiet l ∧ (b = true → starts l = tool_start <$> l0 ∧
    ∀ tool, tool ∈ l0 → ∃ n, (n, Wait (GetToolFullPath tool)) ∈ l ∧ succeeds n = true)).
Proof.
  induction l0 as [|tool l0 IH]; simpl.
  { apply does_ret. split; [constructor |]. intros _. split; [done |]. by intros ? ?%elem_of_nil. }
  eapply does_bind; [by apply (does_call _ (λ b l, ∃ k p a d, l = [(k, Start p a d)] ∧ (p, a, d) = tool_start tool)); intros; repeat eexists |].
  intros b l1 (k & p & a & d & -> & He). destruct b; [|apply does_ret; split; [by repeat constructor | done]].
  eapply does_bind; [by apply (does_call _ (λ b l, ∃ n, l = [(n, Wait (GetToolFullPath tool))] ∧ b = succeeds n)); eauto |].
  intros b l2 (n & -> & ->). destruct (succeeds n) eqn:Hn; [|apply does_ret; split; [by repeat constructor | done]].
  eapply does_weaken; [apply IH |]. intros b l [Hq Hs]. split; [by repeat constructor |]. intros Hb.
  destruct (Hs Hb) as [Hs1 Hs2]. split; [cbn [app]; rewrite starts_cons, He; f_equal; exact Hs1 |].
  intros x [-> | Hx]%elem_of_cons; [exists n; set_solver |]. destruct (Hs2 x Hx) as (m & Hm & Ho). exists m. set_solver.
Qed.

(** ** Checks *)

Definition seen_none (path : string) (l : list (nat * event)) : Prop :=
  ∃ n, (n, Listed) ∈ l ∧ ∀ ps, Processes n = Some ps → running (λ e, String.eqb e path) ps = [].
Definition seen_count (path : string) (count : Z) (l : list (nat * event)) : Prop :=
  ∃ n ps, (n, Listed) ∈ l ∧ Processes n = Some ps ∧ Z.of_nat (length (running (λ e, EqualFold e path) ps)) = count.

Lemma still_running_does l0 :
  does (still_running l0) (λ err l, harmless l ∧ (err = [] → ∀ e, e ∈ l0 → seen_none (GetBinFullPath e.1) l)).
Proof.
  induction l0 as [|[binary count] l0 IH]; simpl.
  { apply does_ret. split; [apply harmless_nil |]. by intros _ ? ?%elem_of_nil. }
  eapply does_bind with (P := λ b l, harmless l ∧ (b = false → seen_none (GetBinFullPath binary) l)).
  { eapply does_bind; [by apply (does_processes (λ o l, ∃ n, l = [(n, Listed)] ∧ o = Processes n)); eauto |].
    intros o l1 (n & -> & ->). destruct (Processes n) as [ps|] eqn:Hp.
    - apply does_ret. split; [auto with go_db |]. intros Hb%negb_false_iff%bool_decide_eq_true. exists n.
      split; [set_solver |]. intros ps'. rewrite Hp. by intros [= <-].
    - eapply does_bind; [by apply (does_say _ _ (λ _ l, ∃ k, l = [(k, Print Plain "Failed to get processes")])); eauto |].
      intros [] l2 (k & ->). apply does_ret. split; [auto with go_db |]. intros _. exists n. split; [set_solver |].
      intros ps'. by rewrite Hp. }
  intros b l1 [Hh Hb]. eapply does_bind; [apply IH |]. intros r l2 [Hh2 Hr]. apply does_ret. rewrite app_nil_r.
  split; [auto with go_db |]. destruct b; [done |]. intros -> e [-> | He]%elem_of_cons.
  - destruct (Hb eq_refl) as (n & Hn & Hx). exists n. split; [set_solver | done].
  - destruct (Hr eq_refl e He) as (n & Hn & Hx). exists n. split; [set_solver | done].
Qed.

Lemma not_as_expected_does l0 :
  does (not_as_expected l0) (λ err l, harmless l ∧ (err = [] → ∀ e, e ∈ l0 → seen_count (GetBinFullPath e.1) e.2 l)).
Proof.
  induction l0 as [|[binary count] l0 IH]; simpl.
  { apply does_ret. split; [apply harmless_nil |]. by intros _ ? ?%elem_of_nil. }
  eapply does_bind with (P := λ b l, harmless l ∧ (b = None → seen_count (GetBinFullPath binary) count l)).
  { eapply does_bind; [by apply (does_processes (λ o l, ∃ n, l = [(n, Listed)] ∧ o = Processes n)); eauto |].
    intros o l1 (n & -> & ->). destruct (Processes n) as [ps|] eqn:Hp.
    - apply does_ret. split; [auto with go_db |].
      destruct (Z.eqb_spec (Z.of_nat (length (running (λ e, EqualFold e (GetBinFullPath binary)) ps))) count); [|done].
      intros _. exists n, ps. split; [set_solver | done].
    - apply does_ret. split; [auto with go_db | done]. }
  intros b l1 [Hh Hb]. eapply does_bind; [apply IH |]. intros r l2 [Hh2 Hr]. apply does_ret. rewrite app_nil_r.
  split; [auto with go_db |]. destruct b; [done |]. intros -> e [-> | He]%elem_of_cons.
  - destruct (Hb eq_refl) as (n & ps & Hn & Hx). exists n, ps. split; [set_solver | done].
  - destruct (Hr eq_refl e He) as (n & ps & Hn & Hx). exists n, ps. split; [set_solver | done].
Qed.

Lemma print_ports_does pid : does (print_ports pid) (λ _ l, starts l = []).
Proof.
  eapply does_bind; [by apply (does_inspect _ _ (λ _ l, starts l = [])) |]. intros [[]|] l1 H1.
  2: { apply does_say. intros. by rewrite starts_app, H1. }
  eapply does_bind; [by apply (does_inspect _ _ (λ _ l, starts l = [])) |]. intros [c|] l2 H2.
  2: { apply does_say. intros. by rewrite !starts_app, H1, H2. }
  eapply does_bind; [by apply (does_inspect _ _ (λ _ l, starts l = [])) |]. intros [cs|] l3 H3;
    apply does_say; intros; by rewrite !starts_app, H1, H2, H3.
Qed.

Lemma PrintBinaryPorts_does path : does (PrintBinaryPorts path) (λ _ l, starts l = []).
Proof.
  eapply does_bind with (P := λ _ l, starts l = []).
  - eapply does_bind; [by apply (does_processes (λ _ l, starts l = [])) |]. intros o l1 H1. apply does_ret. by rewrite app_nil_r.
  - intros [[|pid pids]|] l1 H1; [apply does_say; intros; by rewrite starts_app, H1 | | apply does_say; intros; by rewrite starts_app, H1].
    eapply does_weaken; [apply (does_for_each _ _ (λ l, starts l = [])); [done | | intros; apply print_ports_does] |].
    + intros l2 l3 H2 H3. by rewrite starts_app, H2, H3.
    + intros [] l2 H2. by rewrite starts_app, H1, H2.
Qed.

(** ** Contained in itself *)

Lemma CutPrefix_refl s : CutPrefix s s = Some "".
Proof. induction s as [|a s IH]; simpl; [done |]. by destruct (ascii_dec a a). Qed.

Lemma EqualFold_hit path p e c : Exe p = Some e → Cmdline p = Some c → EqualFold e path = true → hit path p = true.
Proof.
  intros He Hc Hf%String.eqb_eq. unfold hit. rewrite He, Hc. simpl. rewrite Hf.
  assert (Contains (ToLower path) (ToLower path) = true) as ->; [|done].
  destruct (ToLower path) as [|a s] eqn:Hl; [done |]. unfold Contains. fold Contains. by rewrite <- Hl, CutPrefix_refl.
Qed.
End facts.

(** * The theorems *)

Section claims.
Context `{Machine, MapRange} (serviceBinaries : gmap string Z) (toolBinaries : list string).

Definition reports (msg : string) (l : list (nat * event)) : Prop := ∃ n, (n, Print Green msg) ∈ l.

Lemma quiet_reports msg l : quiet l → ¬ reports msg l.
Proof. intros Hq [n Hn]. unfold quiet in Hq. rewrite Forall_forall in Hq. by specialize (Hq _ Hn). Qed.

Lemma reports_app msg l1 l2 : reports msg (l1 ++ l2) → reports msg l1 ∨ reports msg l2.
Proof. intros [n [Hn | Hn]%elem_of_app]; [left | right]; by exists n. Qed.

Lemma reports_say c m msg n : reports msg [(n, Print c m)] → c = Green ∧ m = msg.
Proof. intros [k Hk%list_elem_of_singleton]. by injection Hk as _ -> ->. Qed.

Lemma KillExistBinaries_does : does (KillExistBinaries serviceBinaries) (λ _ l, harmless l).
Proof. apply does_for_each; auto with go_db. intros. apply KillExistBinary_does. Qed.

(** The report of [CheckAndReportBinariesStatus] in the part of the log it adds. *)
Lemma report_does :
  does (CheckAndReportBinariesStatus serviceBinaries) (λ _ l, starts l = [] ∧
    (reports all_normal l → ∀ binary count, serviceBinaries !! binary = Some count →
       seen_count (GetBinFullPath binary) count l)).
Proof.
  eapply does_bind; [apply not_as_expected_does |]. intros err l1 [[Hq Hs] Hc]. destruct err as [|e err].
  - eapply does_bind; [by apply (does_say _ _ (λ _ l, ∃ n, l = [(n, Print Green all_normal)])); eauto |]. intros [] l2 (n & ->).
    eapply does_bind; [by apply (does_say _ _ (λ _ l, ∃ n, l = [(n, Print Blue "Display details of the ports listened to by the service:")])); eauto |].
    intros [] l3 (m & ->). eapply does_weaken.
    + apply (does_for_each _ _ (λ l, starts l = [])); [done | | intros; apply PrintBinaryPorts_does].
      intros l4 l5 H4 H5. by rewrite starts_app, H4, H5.
    + intros [] l4 H4. split; [by rewrite !starts_app, Hs, H4 |]. intros _ binary count Hb.
      assert ((binary, count) ∈ range_map serviceBinaries) as Hin by (rewrite range_map_perm; by apply elem_of_map_to_list).
      destruct (Hc eq_refl _ Hin) as (k & ps & Hk & Hx). exists k, ps. split; [|done]. rewrite elem_of_app. by left.
  - apply does_say. intros n. split; [by rewrite starts_app, Hs |].
    intros [Hr | Hr]%reports_app; [by apply quiet_reports in Hr | by apply reports_say in Hr as [? _]].
Qed.

(** Starting: when the services are reported to run normally, every tool was started
    with the configuration, in its order, and ended without an error before any service was
    started; at that time a listing showed no process with the path of a service, unless
    the listing failed; then exactly the configured number of instances of every service
    was started, numbered from 0; and a later listing showed that number of processes of
    each. *)
Theorem start_services s' :
  StartToolsAndServices serviceBinaries toolBinaries (MkMachine 0 []) = (tt, s') → reports all_normal (log s') →
  ∃ l1 l2, log s' = l1 ++ l2 ∧
    starts l1 = tool_start <$> toolBinaries ∧
    (∀ tool, tool ∈ toolBinaries → ∃ n, (n, Wait (GetToolFullPath tool)) ∈ l1 ∧ succeeds n = true) ∧
    (∀ binary count, serviceBinaries !! binary = Some count → seen_none (GetBinFullPath binary) l1) ∧
    starts l2 = service_starts (range_map serviceBinaries) ∧
    (∀ binary count, serviceBinaries !! binary = Some count → seen_count (GetBinFullPath binary) count l2).
Proof.
  set (Q := λ l : list (nat * event), reports all_normal l → ∃ l1 l2, l = l1 ++ l2 ∧
    starts l1 = tool_start <$> toolBinaries ∧
    (∀ tool, tool ∈ toolBinaries → ∃ n, (n, Wait (GetToolFullPath tool)) ∈ l1 ∧ succeeds n = true) ∧
    (∀ binary count, serviceBinaries !! binary = Some count → seen_none (GetBinFullPath binary) l1) ∧
    starts l2 = service_starts (range_map serviceBinaries) ∧
    (∀ binary count, serviceBinaries !! binary = Some count → seen_count (GetBinFullPath binary) count l2)).
  intros Hrun. revert s' Hrun.
  assert (does (StartToolsAndServices serviceBinaries toolBinaries) (λ _ l, Q l)) as Hd.
  2: { intros s' Hrun. destruct (Hd _ _ _ Hrun) as (l & Hl & HQ). simpl in Hl. rewrite Hl. exact HQ. }
  eapply does_bind; [by apply (does_say _ _ (λ _ l, harmless l)); auto with go_db |]. intros [] l1 [Hq1 Hs1].
  eapply does_bind; [apply start_tools_does |]. intros ok l2 [Hq2 Ht]. destruct ok; cbn [negb].
  2: { apply does_say. intros n Hr. apply reports_app in Hr as [Hr | [Hr | Hr]%reports_app];
       [by apply quiet_reports in Hr | by apply quiet_reports in Hr | by apply reports_say in Hr as [? _]]. }
  destruct (Ht eq_refl) as [Hst Hw].
  eapply does_bind; [by apply (does_say _ _ (λ _ l, ∃ n, l = [(n, Print Green "All tools executed successfully")])); eauto |].
  intros [] l3 (n3 & ->). eapply does_bind; [apply KillExistBinaries_does |]. intros [] l4 [Hq4 Hs4].
  assert (¬ reports all_normal [(n3, Print Green "All tools executed successfully")]) as Hn3 by (by intros [_ ?]%reports_say).
  eapply does_bind; [apply still_running_does |]. intros err l5 [[Hq5 Hs5] Hnone]. destruct err as [|b err].
  2: { apply does_say. intros n Hr. repeat (apply reports_app in Hr as [Hr | Hr]; [by first [apply quiet_reports in Hr | apply Hn3 in Hr] |]).
       by apply reports_say in Hr as [? _]. }
  eapply does_bind; [by apply (does_say _ _ (λ _ l, harmless l)); auto with go_db |]. intros [] l6 [Hq6 Hs6].
  eapply does_bind; [apply start_all_does |]. intros ok l7 [Hq7 Hs7]. destruct ok; cbn [negb].
  2: { apply does_say. intros n Hr. repeat (apply reports_app in Hr as [Hr | Hr]; [by first [apply quiet_reports in Hr | apply Hn3 in Hr] |]).
       by apply reports_say in Hr as [? _]. }
  eapply does_weaken; [apply report_does |]. intros [] l8 [Hs8 Hc8] Hr.
  repeat (apply reports_app in Hr as [Hr | Hr]; [by first [apply quiet_reports in Hr | apply Hn3 in Hr] |]).
  exists (l1 ++ l2 ++ [(n3, Print Green "All tools executed successfully")] ++ l4 ++ l5 ++ l6), (l7 ++ l8).
  split; [by rewrite <- !app_assoc |]. split; [by rewrite !starts_app, Hs1, Hst, Hs4, Hs5, Hs6, !app_nil_r |].
  split; [intros tool Htool; destruct (Hw tool Htool) as (n & Hn & Ho); exists n; rewrite !elem_of_app; tauto |].
  split; [|split].
  - intros binary count Hb. destruct (Hnone eq_refl (binary, count)) as (n & Hn & Hx);
      [rewrite range_map_perm; by apply elem_of_map_to_list |]. exists n. rewrite !elem_of_app. tauto.
  - rewrite starts_app, (Hs7 eq_refl), Hs8. by rewrite app_nil_r.
  - intros binary count Hb. destruct (Hc8 Hr binary count Hb) as (n & ps & Hn & Hx). exists n, ps. rewrite elem_of_app. tauto.
Qed.
End claims.

(** Stopping: [KillExistBinary] asks exactly those processes of its listing to end, in
    their order, whose path contains that of the binary without regard to case and whose
    command line can be read, and kills only ones that refused; so every process that the
    checks count as running the binary is asked, unless its command line cannot be read. *)
Theorem kill_signals `{Machine, MapRange} path s s' ps :
  Processes (calls s) = Some ps → KillExistBinary path s = (tt, s') →
  ∃ l, log s' = log s ++ (calls s, Listed) :: l ∧
    terminated l = Pid <$> filter (λ p, hit path p = true) ps ∧
    (∀ pid, pid ∈ killed l → ∃ n, (n, Terminate pid) ∈ l ∧ succeeds n = false) ∧
    (∀ p e c, p ∈ ps → Exe p = Some e → Cmdline p = Some c → EqualFold e path = true → Pid p ∈ terminated l).
Proof.
  intros Hps Hrun. unfold KillExistBinary, mbind, M_bind, processes in Hrun. rewrite Hps in Hrun.
  destruct (kill_all_does path ps _ _ _ Hrun) as (l & Hl & Ht & Hk). exists l. simpl in Hl.
  split; [by rewrite Hl, <- app_assoc |]. split; [done |]. split; [done |].
  intros p e c Hp He Hc Hf. rewrite Ht. apply list_elem_of_fmap. exists p. split; [done |].
  apply list_elem_of_filter. split; [by eapply EqualFold_hit | done].
Qed.

(** Another program whose path only begins with that of the service is asked to end as
    well, although no check would count it; and after a listing that failed a service is
    taken to have stopped. *)
Theorem kill_bystander :
  let p := MkProc 7 (Some "/srv/_output/bin/platforms/linux/amd64/openim-rpc-msggateway") (Some "openim-rpc-msggateway") in
  let path := "/srv/_output/bin/platforms/linux/amd64/openim-rpc-msg" in
  hit path p = true ∧ EqualFold (default "" (Exe p)) path = false.
Proof. by vm_compute. Qed.

(** ** Files *)

Definition line_of_file (l : string) : Prop :=
  has_byte newline l = false ∧ drop_cr l = l ∧ fits l = true.

Lemma raw_lines_line acc l rest :
  has_byte newline l = false → raw_lines acc (l +:+ String newline rest) = (acc +:+ l) :: raw_lines "" rest.
Proof.
  revert acc. induction l as [|a l IH]; intros acc; simpl.
  - intros _. by rewrite string_app_nil_r.
  - intros [Ha Hl]%orb_false_iff. rewrite Ha, IH by done. by rewrite <- string_app_assoc.
Qed.

Lemma raw_lines_write ls : Forall line_of_file ls → raw_lines "" (writeLines ls) = ls.
Proof.
  unfold writeLines. induction 1 as [|l ls (Hn & _) _ IH]; [done |].
  assert (String.concat "" (Println <$> l :: ls) = l +:+ String newline (String.concat "" (Println <$> ls))) as ->.
  { unfold Println. simpl. destruct ls; simpl; rewrite <- ?string_app_assoc; done. }
  by rewrite raw_lines_line, IH.
Qed.

(** What does not occur is not replaced. *)
Lemma ReplaceAll_none s old new : old ≠ "" → Contains s old = false → ReplaceAll s old new = s.
Proof.
  intros Hne. unfold ReplaceAll. induction s as [|a s IH]; [done |]. cbn [Contains replace_from].
  destruct (CutPrefix old (String a s)); [done |]. intros Hs. by rewrite IH.
Qed.

(** Rewriting a generated file: its lines are those the scanner gives, each without
    ",omitempty"; a file in which nothing is to be removed is written back as it was, and a
    file with a line too long for the scanner is left alone, with an error. *)
Theorem omitempty_rewrite ls :
  Forall line_of_file ls →
  RemoveOmitemptyFromFile (Some (writeLines ls)) = (Some (writeLines ((λ l, ReplaceAll l omitempty "") <$> ls)), None) ∧
  (Forall (λ l, Contains l omitempty = false) ls → RemoveOmitemptyFromFile (Some (writeLines ls)) = (Some (writeLines ls), None)) ∧
  (∀ content, (∃ l, l ∈ raw_lines "" content ∧ fits l = false) →
    RemoveOmitemptyFromFile (Some content) = (Some content, Some ErrRead)).
Proof.
  intros Hls.
  assert (Scan_lines (writeLines ls) = Some ls) as Hscan.
  { unfold Scan_lines. rewrite raw_lines_write by done.
    assert (forallb fits ls = true) as ->.
    { apply forallb_forall. intros l Hl%list_elem_of_In. rewrite Forall_forall in Hls. by apply (Hls l Hl). }
    f_equal. rewrite <- (list_fmap_id ls) at 2. apply list_fmap_ext. intros i l Hl.
    rewrite Forall_forall in Hls. by destruct (Hls l (list_elem_of_lookup_2 _ _ _ Hl)) as (_ & ? & _). }
  unfold RemoveOmitemptyFromFile. split; [by rewrite Hscan |]. split.
  - intros Hno. rewrite Hscan. do 3 f_equal. rewrite <- (list_fmap_id ls) at 2. apply list_fmap_ext. intros i l Hl.
    apply ReplaceAll_none; [done |]. rewrite Forall_forall in Hno. apply Hno. by eapply list_elem_of_lookup_2.
  - intros content (l & Hl & Hlen). unfold Scan_lines.
    assert (forallb fits (raw_lines "" content) = false) as ->; [|done].
    apply not_true_iff_false. intros Hf. rewrite forallb_forall in Hf.
    apply list_elem_of_In, Hf in Hl. congruence.
Qed.

(** Names of entries are not checked: one with ".." is written outside the directory. *)
Theorem unzip_slip :
  unzip (λ _, true) "/usr/local/bin" [("../../../etc/passwd", ZipFile true "x" true)] = ([WriteFile "/etc/passwd" "x"], true).
Proof. by vm_compute. Qed.

(** What a file holds after it is rewritten. *)
Definition rewritten (content : string) : string :=
  default content (RemoveOmitemptyFromFile (Some content)).1.

Lemma fix_files_spec files fs fs' :
  NoDup files → fix_files files fs = (fs', None) →
  ∀ p, fs' !! p = if decide (p ∈ files) then rewritten <$> fs !! p else fs !! p.
Proof.
  revert fs. induction files as [|q files IH]; intros fs Hnd Hfix p.
  - by simplify_eq/=.
  - apply NoDup_cons in Hnd as [Hq Hnd]. simpl in Hfix. unfold fix_file in Hfix.
    destruct (fs !! q) as [c|] eqn:Hc; [|done].
    destruct (RemoveOmitemptyFromFile (Some c)) as [oc err] eqn:Hr.
    assert (∃ c', oc = Some c') as [c' ->].
    { unfold RemoveOmitemptyFromFile in Hr. simpl in Hr. destruct (Scan_lines c); simplify_eq; eauto. }
    destruct err as [e|]; [done|]. rewrite (IH _ Hnd Hfix). destruct (decide (p = q)) as [->|Hp].
    + rewrite (decide_False (P := q ∈ files)), (decide_True (P := q ∈ q :: files)) by set_solver.
      rewrite lookup_insert_eq, Hc. simpl. unfold rewritten. by rewrite Hr.
    + rewrite lookup_insert_ne by done. destruct (decide (p ∈ files)).
      * by rewrite decide_True by set_solver.
      * by rewrite decide_False by set_solver.
Qed.

(** Fixing a directory without an error rewrites exactly its generated files. *)
Lemma Glob_nodup dir fs : NoDup (Glob dir fs).
Proof. unfold Glob. rewrite sort_strings_perm. apply NoDup_filter, NoDup_fst_map_to_list. Qed.

Theorem fix_directory dir fs fs' :
  fixOmitemptyInDirectory dir fs = (fs', None) →
  ∀ p, fs' !! p = if generated dir p then rewritten <$> fs !! p else fs !! p.
Proof.
  intros Hfix p. unfold fixOmitemptyInDirectory in Hfix. rewrite (fix_files_spec _ _ _ (Glob_nodup dir fs) Hfix).
  destruct (fs !! p) as [c|] eqn:Hp; [|by case_decide; case_match].
  assert (p ∈ Glob dir fs ↔ generated dir p = true) as Hg.
  { unfold Glob. rewrite elem_of_sort_strings, list_elem_of_filter. split; [by intros []|].
    intros Hg. split; [done|]. apply list_elem_of_fmap. exists (p, c). split; [done|]. by apply elem_of_map_to_list. }
  destruct (generated dir p); case_decide; naive_solver.
Qed.

(** Two programs of the same name are built into one file, and listed twice. *)
Theorem build_collision go :
  build_args "linux" "/o" "cmd/a/tool/main.go" !! 2 = build_args "linux" "/o" "cmd/b/tool/main.go" !! 2 ∧
  ((∀ args, go args = true) →
   compileDir go "/o" "linux_amd64" ["cmd/a/tool/main.go"; "cmd/b/tool/main.go"] = Ret (Some ["tool"; "tool"])).
Proof. split; [by vm_compute|]. intros Hgo. unfold compileDir. simpl. by rewrite !Hgo. Qed.

(** ** Runs *)

Definition services : gmap string Z := <["openim-api" := 2%Z]> ∅.
Definition api (pid : Z) : proc :=
  MkProc pid (Some "/srv/_output/bin/platforms/linux/amd64/openim-api") (Some "openim-api").

(** One old instance runs until it is asked to end; the two new ones are seen at the last
    listings. *)
Definition dev_machine : Machine := {|
  goos := "linux"; goarch := "amd64"; root := "/srv";
  Processes n := Some (if Nat.leb n 2 then [api 1] else if Nat.leb n 5 then [] else [api 2; api 3]);
  CmdlineOf _ _ := Some "openim-api";
  ConnectionsPid _ _ := Some [("LISTEN", 10002%Z)];
  succeeds _ := true
|}.

Definition dev_log : list (nat * event) :=
  log (@StartToolsAndServices dev_machine map_range_stdpp services ["check"] (MkMachine 0 [])).2.

Lemma start_services_witness :
  @reports all_normal dev_log ∧
  ∃ l1 l2, dev_log = l1 ++ l2 ∧ @starts l1 = [@tool_start dev_machine "check"] ∧
    @starts l2 = @service_starts dev_machine (range_map services).
Proof.
  assert (Hr : reports all_normal dev_log) by (exists 8%nat; apply (list_elem_of_lookup_2 _ 12); vm_compute; reflexivity).
  split; [exact Hr |].
  destruct (@start_services dev_machine map_range_stdpp services ["check"]
    (@StartToolsAndServices dev_machine map_range_stdpp services ["check"] (MkMachine 0 [])).2 ltac:(vm_compute; reflexivity) Hr)
    as (l1 & l2 & Hl & H1 & _ & _ & H2 & _). exists l1, l2. exact (conj Hl (conj H1 H2)).
Defined.

Lemma kill_signals_witness :
  ∃ l, log (@KillExistBinary dev_machine "/srv/_output/bin/platforms/linux/amd64/openim-api" (MkMachine 0 [])).2 = (0%nat, Listed) :: l ∧
    terminated l = [1%Z].
Proof.
  destruct (@kill_signals dev_machine map_range_stdpp "/srv/_output/bin/platforms/linux/amd64/openim-api" (MkMachine 0 [])
    (@KillExistBinary dev_machine "/srv/_output/bin/platforms/linux/amd64/openim-api" (MkMachine 0 [])).2 [api 1]
    ltac:(reflexivity) ltac:(vm_compute; reflexivity)) as (l & Hl & Ht & _).
  exists l. split; [exact Hl |]. rewrite Ht. by vm_compute.
Defined.

Lemma omitempty_rewrite_witness :
  RemoveOmitemptyFromFile (Some (writeLines ["type A struct {"; "x int `json:\x,omitempty\`"; "}"])) =
  (Some (writeLines ["type A struct {"; "x int `json:\x\`"; "}"]), None).
Proof.
  refine (proj1 (omitempty_rewrite ["type A struct {"; "x int `json:\x,omitempty\`"; "}"] _)).
  repeat constructor.
Defined.
