(* ===== verification/Conf.v ===== *)
(** * Configuration and environment (config, env, field, xtls, db/redisutil,
    db/cacheutil, utils/httputil, utils/formatutil, system/program)

    How settings are looked up, checked and turned into clients.  Files, the environment
    and the network answer through arguments; errors of other code are values [E], which
    [Wrapped] gives back, with a message or without. *)

From Stdlib Require Import Ascii.
From S2P Require Import Prelude GoStrings Float64.

(** ** The environment (env/env.go) *)

Section env.
Context (LookupEnv : string → option string).

Definition GetString (key defaultValue : string) : string := default defaultValue (LookupEnv key).

(** A value that does not parse is reported, beside the default. *)
Definition get_parsed {A} (parse : string → option A) (key : string) (defaultValue : A) : A * bool :=
  match LookupEnv key with
  | None => (defaultValue, false)
  | Some v => match parse v with Some value => (value, false) | None => (defaultValue, true) end
  end.

Definition Atoi (s : string) : option Z := let '(z, ok) := ParseInt64 s in if ok : bool then Some z else None.
Definition ParseBool (s : string) : option bool :=
  if bool_decide (s ∈ ["1"; "t"; "T"; "true"; "TRUE"; "True"]) then Some true
  else if bool_decide (s ∈ ["0"; "f"; "F"; "false"; "FALSE"; "False"]) then Some false
  else None.

(** [ParseFloat] is an argument. *)
Definition GetFloat64 (ParseFloat : string → option float64) : string → float64 → float64 * bool := get_parsed ParseFloat.
Definition GetInt : string → Z → Z * bool := get_parsed Atoi.
Definition GetBool : string → bool → bool * bool := get_parsed ParseBool.
End env.

(** ** Files (field) *)

(** What [os.Stat] tells of a path, or how it fails. *)
Inductive stat := IsFile | IsDirectory.
Inductive stat_err (E : Type) := NotExist (e : E) | StatErr (e : E).
Arguments NotExist {E} e.
Arguments StatErr {E} e.

Inductive conf_err (E : Type) := Wrapped (e : E) | Msg (m : string).
Arguments Wrapped {E} e.
Arguments Msg {E} m.

Section files.
Context {E : Type} (Stat Lstat : string → stat + stat_err E) (Abs : string → string + E).

Definition OutDir (path : string) : string + conf_err E :=
  match Abs path with
  | inr e => inr (Wrapped e)
  | inl outDir =>
      match Stat outDir with
      | inr (NotExist e) | inr (StatErr e) => inr (Wrapped e)
      | inl IsFile => inr (Msg "specified path is not a directory")
      | inl IsDirectory => inl (outDir +:+ "/")
      end
  end.

(** [LinkTreatment] is an int. *)
Definition CheckFollowSymlink : Z := 0.
Definition CheckSymlinkOnly : Z := 1.

Definition Exists_ (linkBehavior : Z) (filename : string) : bool + conf_err E :=
  match (if (linkBehavior =? CheckFollowSymlink)%Z then Some (Stat filename)
         else if (linkBehavior =? CheckSymlinkOnly)%Z then Some (Lstat filename) else None) with
  | None => inr (Msg "unknown link behavior")
  | Some (inr (NotExist _)) => inl false
  | Some (inr (StatErr e)) => inr (Wrapped e)
  | Some (inl _) => inl true
  end.

(** ** The loader (config/config.go, config/path.go) *)

(** [filepath.Dir] of a clean absolute path. *)
Definition parent (p : string) : string :=
  match LastIndexByte "/"%char p with
  | None => "."
  | Some O => "/"
  | Some i => stake i p
  end.

Definition GetDefaultConfigPath (Executable : string + E) (relativePath : string) : string + conf_err E :=
  match Executable with inr e => inr (Wrapped e) | inl p => inl (path_Join [parent p; relativePath]) end.

Definition GetProjectRoot (Executable : string + E) (depth : Z) : string + conf_err E :=
  match Executable with inr e => inr (Wrapped e) | inl p => inl (Nat.iter (Z.to_nat depth) parent p) end.

Class PathResolver := {
  DefaultConfigPath : string + conf_err E;
  ProjectRoot : string + conf_err E
}.

Context `{PathResolver}.

(** Only a file that does not exist is looked for under the root of the project; the file
    found there is not looked at. *)
Definition resolveConfigPath (configName configFolderPath : string) : string + conf_err E :=
  let resolved := if String.eqb configFolderPath "" then DefaultConfigPath else inl configFolderPath in
  match resolved with
  | inr e => inr e
  | inl configFolderPath =>
      let configFilePath := path_Join [configFolderPath; configName] in
      match Stat configFilePath with
      | inr (NotExist _) =>
          match ProjectRoot with
          | inr e => inr e
          | inl projectRoot => inl (path_Join [projectRoot; "config"; configName])
          end
      | _ => inl configFilePath
      end
  end.

Context {C : Type} (ReadFile : string → string + E) (Unmarshal : string → C → C + E).

(** The configuration as it is afterwards, and the error. *)
Definition InitConfig (config : C) (configName configFolderPath : string) : C * option (conf_err E) :=
  match resolveConfigPath configName configFolderPath with
  | inr e => (config, Some e)
  | inl path =>
      match ReadFile path with
      | inr e => (config, Some (Wrapped e))
      | inl data => match Unmarshal data config with
                    | inl config => (config, None)
                    | inr e => (config, Some (Wrapped e))
                    end
      end
  end.

(** ** Sources in order (config/config_source.go, config/manager.go) *)

Inductive ConfigSource := EnvVarSource (VarName : string) | FileSystemSource (FilePath : string).

Definition Read (LookupEnv : string → option string) (s : ConfigSource) : string + conf_err E :=
  match s with
  | EnvVarSource v => match LookupEnv v with Some value => inl value | None => inr (Msg "environment variable not set") end
  | FileSystemSource p => match ReadFile p with inl r => inl r | inr e => inr (Wrapped e) end
  end.

(** [Load]: the first source that can be read is parsed, and no other. *)
Fixpoint Load (LookupEnv : string → option string) (sources : list ConfigSource) (config : C) : C * option (conf_err E) :=
  match sources with
  | [] => (config, None)
  | source :: sources =>
      match Read LookupEnv source with
      | inl data => match Unmarshal data config with
                    | inl config => (config, None)
                    | inr e => (config, Some (Wrapped e))
                    end
      | inr _ => Load LookupEnv sources config
      end
  end.
End files.

(** ** Validation (config/validation) *)

(** A field as [Interface] and [==] see it: an unexported one, a nil interface, a value of
    a type that cannot be compared (a slice, a map, or a struct that holds one), or a value
    that is zero or not. *)
Inductive field_val := Unexported | NilInterface | NotComparable | Comparable (zero : bool).

#[global] Instance field_val_eq : EqDecision field_val.
Proof. solve_decision. Defined.

Inductive config_val := Struct (fields : list (string * field_val)) | Pointer (o : option config_val) | Other.

Definition isZeroOfUnderlyingType (v : field_val) : outcome bool :=
  match v with
  | Unexported => Panic "reflect.Value.Interface: cannot return value obtained from unexported field or method"
  | NilInterface => Panic "reflect: Zero(nil)"
  | NotComparable => Panic "runtime error: comparing uncomparable type"
  | Comparable zero => Ret zero
  end.

Fixpoint validate_fields (fs : list (string * field_val)) : outcome (option string) :=
  match fs with
  | [] => Ret None
  | (name, v) :: fs =>
      (let! zero := isZeroOfUnderlyingType v in
       if zero : bool then Ret (Some ("validation failed: field " +:+ name +:+ " is zero value")) else validate_fields fs)%go
  end.

Definition Validate (config : config_val) : outcome (option string) :=
  let val := match config with Pointer (Some v) => v | Pointer None => Other | v => v end in
  match val with
  | Struct fs => validate_fields fs
  | _ => Ret (Some "validation failed: config must be a struct or a pointer to struct")
  end.

(** ** Clients of TLS and Redis (xtls/tls.go, db/redisutil) *)

Record ClientConfig := MkClientConfig {
  Insecure : bool; ServerName : string; CACertFile : string; ClientCertFile : string; ClientKeyFile : string
}.
Record tls_conf (Cert Pool : Type) := MkTls {
  Certificates : option Cert; InsecureSkipVerify : bool; TlsServerName : string; RootCAs : option Pool
}.
Arguments MkTls {Cert Pool}.

Section clients.
Context {E Cert Pool : Type} (LoadX509KeyPair : string → string → Cert + E) (ReadFile : string → string + E)
  (AppendCertsFromPEM : string → option Pool).
Local Notation tls := (tls_conf Cert Pool).

Definition ClientTLSConfig (c : ClientConfig) : tls + conf_err E :=
  match (if String.eqb (ClientCertFile c) "" then inl None
         else match LoadX509KeyPair (ClientCertFile c) (ClientKeyFile c) with
              | inl cert => inl (Some cert)
              | inr e => inr e
              end) with
  | inr e => inr (Wrapped e)
  | inl cert =>
      if String.eqb (CACertFile c) "" then inl (MkTls cert (Insecure c) (ServerName c) None)
      else match ReadFile (CACertFile c) with
           | inr e => inr (Wrapped e)
           | inl ca => match AppendCertsFromPEM ca with
                       | None => inr (Msg "failed to load CACertificate")
                       | Some pool => inl (MkTls cert (Insecure c) (ServerName c) (Some pool))
                       end
           end
  end.

Record Sentinel := MkSentinel {
  MasterName : string; SentinelAddrs : list string; RouteByLatency : bool; RouteRandomly : bool
}.
Record RedisConfig := MkRedisConfig {
  RedisMode : string; Address : list string; Username : string; Password : string;
  MaxRetry : Z; DB : Z; PoolSize : Z; TLS : option ClientConfig; RSentinel : option Sentinel
}.

(** The clients of the driver and the options they are made with. *)
Inductive client :=
| FailoverClient (s : Sentinel) (c : RedisConfig) (db : Z) (t : option tls)
| FailoverClusterClient (s : Sentinel) (c : RedisConfig) (db : Z) (t : option tls)
| ClusterClient (addrs : list string) (c : RedisConfig) (t : option tls)
| SingleClient (addr : string) (c : RedisConfig) (db : Z) (t : option tls).

Definition sentinel_err (config : RedisConfig) : option string :=
  match RSentinel config with
  | Some s =>
      if String.eqb (RedisMode config) "sentinel" then
        if String.eqb (MasterName s) "" then Some "sentinel master name is required"
        else match SentinelAddrs s with [] => Some "sentinel addresses are required" | _ => None end
      else None
  | None => None
  end.

Definition make_client (config : RedisConfig) (addr : string) (t : option tls) : client :=
  match RSentinel config, String.eqb (RedisMode config) "sentinel" with
  | Some s, true => if RouteByLatency s || RouteRandomly s then FailoverClusterClient s config (DB config) t
                    else FailoverClient s config (DB config) t
  | _, _ => if String.eqb (RedisMode config) "cluster" then ClusterClient (Address config) config t
            else SingleClient addr config (DB config) t
  end.

(** The client, or the error, and the clients that the call leaves open. *)
Definition NewRedisClient (Ping : client → option E) (config : RedisConfig) : (client + conf_err E) * list client :=
  match Address config with
  | [] => (inr (Msg "redis address is empty"), [])
  | addr :: _ =>
      match sentinel_err config with
      | Some m => (inr (Msg m), [])
      | None =>
          match (match TLS config with
                 | None => inl None
                 | Some c => match ClientTLSConfig c with inl t => inl (Some t) | inr e => inr e end
                 end) with
          | inr e => (inr e, [])
          | inl t =>
              let cli := make_client config addr t in
              match Ping cli with Some e => (inr (Wrapped e), [cli]) | None => (inl cli, [cli]) end
          end
      end
  end.

(** [Check] pings again, with what the server then answers, and closes the client. *)
Definition Check_ (Ping Ping' : client → option E) (config : RedisConfig) : option (conf_err E) * list client :=
  match NewRedisClient Ping config with
  | (inr e, opened) => (Some e, opened)
  | (inl cli, _) => (Wrapped <$> Ping' cli, [])
  end.
End clients.

(** ** A map of any values (db/cacheutil)

    A [sync.Map] holds values of the empty interface: reading one back asserts its type, and
    the assertion of an interface type fails on nil. *)

Section cache.
Context {K V : Type} `{Countable K} (nil_interface : V → bool).
Local Notation cache := (gmap K V).

Definition assert_ (rawValue : V) : outcome V :=
  if nil_interface rawValue then Panic "interface conversion: interface is nil" else Ret rawValue.

Definition Cache_Load (key : K) (c : cache) : outcome (option V) :=
  match c !! key with None => Ret None | Some v => (let! v := assert_ v in Ret (Some v))%go end.
Definition Store (key : K) (value : V) (c : cache) : cache := <[key := value]> c.
Definition StoreAll (f : V → K) (values : list V) (c : cache) : cache := foldl (λ c v, <[f v := v]> c) c values.

Definition LoadOrStore (key : K) (value : V) (c : cache) : outcome (V * bool) * cache :=
  match c !! key with
  | Some v => ((let! v := assert_ v in Ret (v, true))%go, c)
  | None => ((let! v := assert_ value in Ret (v, false))%go, <[key := value]> c)
  end.

Definition Delete (key : K) (c : cache) : cache := delete key c.

(** Without other goroutines, a range meets every entry once, in any order. *)
Context `{!MapRange}.

Definition DeleteAll (c : cache) : cache := foldl (λ c kv, delete kv.1 c) c (range_map c).

Fixpoint range_con (f : K → V → bool) (es : list (K * V)) : outcome (list V) :=
  match es with
  | [] => Ret []
  | (k, v) :: es =>
      (let! v := assert_ v in
       let! values := range_con f es in
       Ret (if f k v then v :: values else values))%go
  end.

Definition RangeCon (f : K → V → bool) (c : cache) : outcome (list V) := range_con f (range_map c).
Definition RangeAll (c : cache) : outcome (list V) := range_con (λ _ _, true) (range_map c).
End cache.

(** ** Requests (utils/httputil) *)

Section post.
Context {E Req T : Type} (Encode : Req → string + E)
  (Do : string → gmap string string → string → option Z → string + E)
  (Unmarshal : string → T → T + E).

(** [Do] stands for the request, the response and the reading of its body; the time it may
    take is in nanoseconds.  The names of headers are brought to one form, and two that
    become the same are set in the order of the map. *)
Context `{!MapRange} (CanonicalHeaderKey : string → string).

Definition post_headers (headers : gmap string string) : gmap string string :=
  <["Content-Type" := "application/json; charset=utf-8"]>
    (foldl (λ h kv, <[CanonicalHeaderKey kv.1 := kv.2]> h) ∅ (range_map headers)).

Definition Post (url : string) (headers : gmap string string) (data : option Req) (timeout : Z) : string + conf_err E :=
  let deadline := if (0 <? timeout)%Z then Some (1000000000 *i timeout)%go else None in
  match (match data with None => inl "" | Some d => Encode d end) with
  | inr e => inr (Wrapped e)
  | inl body => match Do url (post_headers headers) body deadline with
                | inl result => inl result
                | inr e => inr (Wrapped e)
                end
  end.

Definition PostReturn (url : string) (headers : gmap string string) (input : option Req) (output : T) (timeout : Z) :
    T * option (conf_err E) :=
  match Post url headers input timeout with
  | inr e => (output, Some e)
  | inl bytes => match Unmarshal bytes output with inl o => (o, None) | inr e => (output, Some (Wrapped e)) end
  end.
End post.

(** ** A bar of progress (utils/formatutil) *)

Definition Repeat (s : string) (count : Z) : outcome string :=
  if (count <? 0)%Z then Panic "strings: negative Repeat count" else Ret (Nat.iter (Z.to_nat count) (String.append s) "").

Definition progress_of (progress total : Z) : float64 * Z :=
  if (total =? 0)%Z then (f64_zero, 0%Z)
  else let percentage := f64_mul (f64_div (float64_of_int progress) (float64_of_int total)) (float64_of_int 100) in
       (percentage, int64_of_float (f64_mul (f64_div percentage (float64_of_int 100)) (float64_of_int 50))).

(** [percent] formats with ["%3.0f"]. *)
Definition ProgressBar (percent : float64 → string) (name : string) (progress total : Z) : outcome string :=
  let barLength := 50%Z in
  let '(percentage, progressLength) := progress_of progress total in
  let progressLength := Z.min progressLength barLength in
  (let! full := Repeat "█" progressLength in
   let! rest := Repeat " " (barLength - progressLength) in
   Ret (String "013" (name +:+ ": [" +:+ full +:+ rest +:+ "] " +:+ percent percentage +:+ "% (" +:+
     Itoa progress +:+ "/" +:+ Itoa total +:+ ")")))%go.

(** ** The process (system/program, utils/runtimeenv, version) *)

Definition GetProcessName (args : list string) : string :=
  match args with
  | [] => ""
  | arg :: _ => default "" (last (Split "/" arg))
  end.

Definition runtimeEnvironment {E} (Stat ReadFile : string → string + E) : string :=
  match Stat "/var/run/secrets/kubernetes.io/serviceaccount" with
  | inl _ => "kubernetes"
  | inr _ => match ReadFile "/proc/1/cgroup" with
             | inl data => if Contains data "docker" then "docker" else "source"
             | inr _ => "source"
             end
  end.

Section version.
Context {E Repo : Type} (PlainClone : option Repo → string → (Repo + E) * option Repo) (Head : Repo → string + E).

(** The clone is made in one directory, whose content is the state. *)
Definition getClientVersion (repoURL : string) (tempDir : option Repo) : (string + conf_err E) * option Repo :=
  let '(r, tempDir) := PlainClone tempDir repoURL in
  match r with
  | inr e => (inr (Wrapped e), tempDir)
  | inl repo => match Head repo with
                | inr e => (inr (Wrapped e), tempDir)
                | inl hash => (inl hash, tempDir)
                end
  end.

Definition GetClientVersion (repoURL : string) (tempDir : option Repo) : (string + conf_err E) * option Repo :=
  match getClientVersion repoURL tempDir with
  | (inl v, d) => (inl v, d)
  | (inr (Wrapped e), d) => (inr (Wrapped e), d)
  | (inr e, d) => (inr e, d)
  end.
End version.

(** ** Theorems *)

Section env_theorems.
Context (LookupEnv : string → option string).

(** A variable that is not set gives the default; one that is set gives its value, or the
    default and an error. *)
Theorem env_lookup {A} (parse : string → option A) key (d : A) :
  (LookupEnv key = None → get_parsed LookupEnv parse key d = (d, false)) ∧
  (∀ v, LookupEnv key = Some v →
    get_parsed LookupEnv parse key d = match parse v with Some x => (x, false) | None => (d, true) end).
Proof. unfold get_parsed. split; [by intros -> | by intros v ->]. Qed.

(** A count of 64 bits comes back as it was written. *)
Theorem env_int_roundtrip key d z :
  (0 ≤ z < two63)%Z → LookupEnv key = Some (Itoa z) → GetInt LookupEnv key d = (z, false).
Proof. intros Hz Hl. unfold GetInt, get_parsed, Atoi. rewrite Hl. by rewrite ParseInt64_Itoa. Qed.
End env_theorems.

Lemma parent_file dir name : dir ≠ "" → has_byte "/" name = false → parent (dir +:+ String "/" name) = dir.
Proof.
  intros Hd Hn. unfold parent. rewrite LastIndexByte_app by done.
  destruct dir as [|a dir]; [done|]. by rewrite stake_app.
Qed.

Definition path_of (dir : string) (names : list string) : string := foldl (λ p n, p +:+ String "/" n) dir names.

(** The root found from a program is as many directories above it as is asked for. *)
Theorem project_root {E} dir (names : list string) :
  dir ≠ "" → Forall (λ n, has_byte "/" n = false) names →
  GetProjectRoot (inl (path_of dir names) : string + E) (Z.of_nat (length names)) = inl dir.
Proof.
  intros Hd Hn. unfold GetProjectRoot. rewrite Nat2Z.id. f_equal.
  induction names as [|n names IH] using rev_ind; [done|].
  apply Forall_app in Hn as [Hns Hn]. unfold path_of. rewrite foldl_app, length_app. simpl.
  rewrite Nat.add_comm. cbn [Nat.add]. rewrite Nat.iter_succ_r.
  rewrite parent_file; [by apply IH| |by inversion Hn].
  clear -Hd. destruct names as [|m names _] using rev_ind; [done|]. rewrite foldl_app. simpl.
  by destruct (foldl _ dir names).
Qed.

Section load_theorems.
Context {E C : Type} (LookupEnv : string → option string) (ReadFile : string → string + E)
  (Unmarshal : string → C → C + E).

(** The first source that can be read decides; when none can, nothing is loaded and
    nothing is reported. *)
Theorem load_first (sources : list ConfigSource) config :
  (Forall (λ s, ∃ e, Read ReadFile LookupEnv s = inr e) sources ∧
     Load ReadFile Unmarshal LookupEnv sources config = (config, None)) ∨
  (∃ pre s post data, sources = pre ++ s :: post ∧
     Forall (λ s, ∃ e, Read ReadFile LookupEnv s = inr e) pre ∧ Read ReadFile LookupEnv s = inl data ∧
     Load ReadFile Unmarshal LookupEnv sources config =
       match Unmarshal data config with inl c => (c, None) | inr e => (config, Some (Wrapped e)) end).
Proof.
  induction sources as [|s sources IH]; [by left|]. simpl. destruct (Read ReadFile LookupEnv s) as [data|e] eqn:Hr.
  - right. by exists [], s, sources, data.
  - destruct IH as [[Hf ->]|(pre & s' & post & data & -> & Hp & Hs & ->)].
    + left. split; [|done]. constructor; [by exists e|done].
    + right. exists (s :: pre), s', post, data. split_and!; [done| |done|done]. constructor; [by exists e|done].
Qed.

(** A file that is missing is looked for below the root of the project; any other answer of
    the system, errors included, keeps the path. *)
Theorem resolve_path `{!PathResolver (E := E)} Stat name folder dir root :
  (if String.eqb folder "" then DefaultConfigPath else inl folder) = inl dir → ProjectRoot = inl root →
  resolveConfigPath Stat name folder =
    inl (match Stat (path_Join [dir; name]) with
         | inr (NotExist _) => path_Join [root; "config"; name]
         | _ => path_Join [dir; name]
         end).
Proof. intros Hd Hr. unfold resolveConfigPath. rewrite Hd, Hr. by repeat case_match. Qed.
End load_theorems.

(** ** What is validated *)

Definition nonzero (f : string * field_val) : Prop := f.2 = Comparable false.

Lemma validate_fields_split fs :
  (Forall nonzero fs ∧ validate_fields fs = Ret None) ∨
  (∃ pre name v post, fs = pre ++ (name, v) :: post ∧ Forall nonzero pre ∧ v ≠ Comparable false ∧
     validate_fields fs = (let! _ := isZeroOfUnderlyingType v in
                           Ret (Some ("validation failed: field " +:+ name +:+ " is zero value")))%go).
Proof.
  induction fs as [|[name v] fs IH]; [by left|]. destruct (decide (v = Comparable false)) as [->|Hv].
  - destruct IH as [[Hf He]|(pre & n & v & post & -> & Hp & Hv & He)].
    + left. split; [by constructor|done].
    + right. exists ((name, Comparable false) :: pre), n, v, post. split_and!; [done|by constructor|done|done].
  - right. exists [], name, v, fs. split_and!; [done|done|done|]. by destruct v as [| | |[]].
Qed.

Lemma first_failure_unique pre n v post pre' n' v' post' :
  pre ++ (n, v) :: post = pre' ++ (n', v') :: post' → Forall nonzero pre → Forall nonzero pre' →
  v ≠ Comparable false → v' ≠ Comparable false → n = n' ∧ v = v'.
Proof.
  revert pre'. induction pre as [|f pre IH]; intros [|f' pre'] He Hp Hp' Hv Hv'; simplify_eq/=.
  - done.
  - by inversion Hp'.
  - by inversion Hp.
  - inversion Hp; inversion Hp'; eauto.
Qed.

(** Which of the three outcomes is had: [P] holds of the first field that is not [nonzero]. *)
Lemma validate_outcome fs (P : string → field_val → Prop) :
  (Forall nonzero fs → ¬ ∃ pre n v post, fs = pre ++ (n, v) :: post ∧ Forall nonzero pre ∧ v ≠ Comparable false ∧ P n v) ∧
  (∀ pre n v post, fs = pre ++ (n, v) :: post → Forall nonzero pre → v ≠ Comparable false →
     (P n v ↔ ∃ pre n v post, fs = pre ++ (n, v) :: post ∧ Forall nonzero pre ∧ v ≠ Comparable false ∧ P n v)).
Proof.
  split.
  - intros Hf (pre & n & v & post & -> & _ & Hv & _). apply Forall_app in Hf as [_ Hf]. by inversion Hf.
  - intros pre n v post He Hp Hv. split; [by exists pre, n, v, post|].
    intros (pre' & n' & v' & post' & He' & Hp' & Hv' & HP). rewrite He in He'.
    by destruct (first_failure_unique _ _ _ _ _ _ _ _ He' Hp Hp' Hv Hv') as [-> ->].
Qed.

(** A structure is valid exactly when all its fields are comparable and not zero: the first
    that is not decides between an error, when it is zero, and a panic, when it cannot be
    read or compared.  Anything but a structure or one pointer to it is an error. *)
Theorem validate_spec config :
  match config with
  | Struct fs | Pointer (Some (Struct fs)) =>
      (Validate config = Ret None ↔ Forall nonzero fs) ∧
      (∀ m, Validate config = Ret (Some m) ↔
         ∃ pre name v post, fs = pre ++ (name, v) :: post ∧ Forall nonzero pre ∧ v ≠ Comparable false ∧
           (v = Comparable true ∧ m = "validation failed: field " +:+ name +:+ " is zero value")) ∧
      ((∃ w, Validate config = Panic w) ↔
         ∃ pre name v post, fs = pre ++ (name, v) :: post ∧ Forall nonzero pre ∧ v ≠ Comparable false ∧
           ∀ z, v ≠ Comparable z)
  | _ => ∃ m, Validate config = Ret (Some m)
  end.
Proof.
  assert (∀ fs, (validate_fields fs = Ret None ↔ Forall nonzero fs) ∧
      (∀ m, validate_fields fs = Ret (Some m) ↔
         ∃ pre name v post, fs = pre ++ (name, v) :: post ∧ Forall nonzero pre ∧ v ≠ Comparable false ∧
           (v = Comparable true ∧ m = "validation failed: field " +:+ name +:+ " is zero value")) ∧
      ((∃ w, validate_fields fs = Panic w) ↔
         ∃ pre name v post, fs = pre ++ (name, v) :: post ∧ Forall nonzero pre ∧ v ≠ Comparable false ∧
           ∀ z, v ≠ Comparable z)) as Hfs.
  { intros fs. destruct (validate_fields_split fs) as [[Hf ->]|(pre & n & v & post & He & Hp & Hv & ->)].
    - split_and!; [done|..].
      + intros m. split; [done|]. by intros [] %(proj1 (validate_outcome fs (λ name v, v = Comparable true ∧ _))).
      + split; [by intros [??]|]. by intros [] %(proj1 (validate_outcome fs (λ _ v, ∀ z, v ≠ Comparable z))).
    - pose proof (λ P, proj2 (validate_outcome fs P) _ _ _ _ He Hp Hv) as Hu. split_and!.
      + split; [by destruct v|]. intros Hf. rewrite He in Hf. apply Forall_app in Hf as [_ Hf]. by inversion Hf.
      + intros m. rewrite <- (Hu (λ name v, v = Comparable true ∧ m = _)). destruct v as [| | |[]]; naive_solver.
      + rewrite <- (Hu (λ _ v, ∀ z, v ≠ Comparable z)). destruct v as [| | |[]]; naive_solver. }
  destruct config as [fs|[[fs|o|]|]|]; simpl; try apply Hfs; eauto.
Qed.

(** ** Which client of Redis is made *)

Section client_theorems.
Context {E Cert Pool : Type} (LoadX509KeyPair : string → string → Cert + E) (ReadFile : string → string + E)
  (AppendCertsFromPEM : string → option Pool).
Local Notation NewRedisClient := (NewRedisClient LoadX509KeyPair ReadFile AppendCertsFromPEM).
Local Notation client := (client (Cert := Cert) (Pool := Pool)).

(** The kind of a client follows the mode. *)
Definition kind_ok (config : RedisConfig) (cli : client) : Prop :=
  match cli with
  | FailoverClient s _ _ _ | FailoverClusterClient s _ _ _ =>
      RedisMode config = "sentinel" ∧ RSentinel config = Some s ∧ MasterName s ≠ "" ∧ SentinelAddrs s ≠ []
  | ClusterClient addrs _ _ => RedisMode config = "cluster" ∧ addrs = Address config ∧ addrs ≠ []
  | SingleClient addr _ _ _ =>
      head (Address config) = Some addr ∧ RedisMode config ≠ "cluster" ∧
      (RedisMode config = "sentinel" → RSentinel config = None)
  end.

Lemma sentinel_err_none config s :
  sentinel_err config = None → RSentinel config = Some s → RedisMode config = "sentinel" →
  MasterName s ≠ "" ∧ SentinelAddrs s ≠ [].
Proof.
  unfold sentinel_err. intros He Hs Hm. rewrite Hs, Hm in He. simpl in He.
  destruct (String.eqb_spec (MasterName s) ""); [done|]. by destruct (SentinelAddrs s).
Qed.

Lemma make_client_kind config addr t :
  head (Address config) = Some addr → sentinel_err config = None → kind_ok config (make_client config addr t).
Proof.
  intros Ha He. pose proof (sentinel_err_none config) as Hs. unfold make_client.
  destruct (String.eqb_spec (RedisMode config) "sentinel") as [Hm|Hm], (RSentinel config) as [s|] eqn:Hr.
  - destruct (Hs s He eq_refl Hm). by case_match.
  - rewrite Hm. simpl. rewrite Hm. done.
  - destruct (String.eqb_spec (RedisMode config) "cluster"); simpl; [|done]. by destruct (Address config).
  - destruct (String.eqb_spec (RedisMode config) "cluster"); simpl; [|done]. by destruct (Address config).
Qed.

(** A client that is returned has answered; it is made for the mode of the configuration: a
    failover client needs the name of a master and addresses, and every other mode than
    ["cluster"], the sentinel without its settings included, is one server, the first
    address.  A client is left open without being returned exactly when it does not answer,
    and [Check] leaves open only that one. *)
Theorem redis_client (Ping Ping' : client → option E) config :
  (∀ cli opened, NewRedisClient Ping config = (inl cli, opened) →
     opened = [cli] ∧ Ping cli = None ∧ kind_ok config cli) ∧
  (∀ e opened, NewRedisClient Ping config = (inr e, opened) →
     (∃ cli e', opened = [cli] ∧ Ping cli = Some e' ∧ e = Wrapped e') ∨ opened = []) ∧
  (∀ r opened, Check_ LoadX509KeyPair ReadFile AppendCertsFromPEM Ping Ping' config = (r, opened) →
     opened = [] ∨ ∃ cli, opened = [cli] ∧ Ping cli ≠ None).
Proof.
  assert (∀ r opened, NewRedisClient Ping config = (r, opened) →
    match r with
    | inl cli => opened = [cli] ∧ Ping cli = None ∧ kind_ok config cli
    | inr e => (∃ cli e', opened = [cli] ∧ Ping cli = Some e' ∧ e = Wrapped e') ∨ opened = []
    end) as Hn.
  { intros r opened. unfold Conf.NewRedisClient. destruct (Address config) as [|addr addrs] eqn:Ha; [by intros ?; simplify_eq; right|].
    destruct (sentinel_err config) eqn:He; [by intros ?; simplify_eq; right|].
    destruct (match TLS config with None => _ | Some _ => _ end) as [t|e]; [|by intros ?; simplify_eq; right].
    case_match eqn:Hp; intros ?; simplify_eq; [left; eauto|].
    split_and!; [done|done|]. apply make_client_kind; [by rewrite Ha|done]. }
  split_and!.
  - intros cli opened H. apply (Hn _ _ H).
  - intros e opened H. apply (Hn _ _ H).
  - intros r opened. unfold Check_. destruct (NewRedisClient Ping config) as [[cli|e] op]; intros ?; simplify_eq; [by left|].
    destruct (Hn _ _ eq_refl) as [(cli & e' & -> & Hp & _)| -> ]; [right; exists cli; by rewrite Hp|by left].
Qed.
End client_theorems.

(** ** The cache as a map *)

Section cache_theorems.
Context {K V : Type} `{Countable K} `{!MapRange} (nil_interface : V → bool).
Local Notation cache := (gmap K V).

Definition assertable (c : cache) : Prop := map_Forall (λ _ v, nil_interface v = false) c.

Lemma assert_ok v : nil_interface v = false → assert_ nil_interface v = Ret v.
Proof. unfold assert_. by intros ->. Qed.

Lemma range_con_ok f (es : list (K * V)) :
  Forall (λ kv, nil_interface kv.2 = false) es →
  range_con nil_interface f es = Ret ((filter (λ kv, f kv.1 kv.2 = true) es).*2).
Proof.
  induction 1 as [|[k v] es Hv _ IH]; [done|]. simpl in *. rewrite assert_ok by done. simpl. rewrite IH. simpl.
  rewrite filter_cons. simpl. by destruct (f k v).
Qed.

Lemma range_con_panics f (es : list (K * V)) k v :
  (k, v) ∈ es → nil_interface v = true → ∃ w, range_con nil_interface f es = Panic w.
Proof.
  induction es as [|[k' v'] es IH]; [by intros ?%elem_of_nil|]. intros [?|He] %elem_of_cons Hv; simplify_eq/=.
  - unfold assert_. rewrite Hv. by eexists.
  - unfold assert_. case_match; [by eexists|]. simpl. destruct (IH He Hv) as [w ->]. by exists w.
Qed.

Lemma assertable_range c : assertable c ↔ Forall (λ kv, nil_interface kv.2 = false) (range_map c).
Proof.
  rewrite range_map_perm, Forall_forall. unfold assertable, map_Forall. split.
  - intros Hc [k v] Hin%elem_of_map_to_list. by apply (Hc k).
  - intros Hc k v Hk. by apply (Hc (k, v)), elem_of_map_to_list.
Qed.

Lemma delete_keys (es : list (K * V)) (c : cache) k :
  foldl (λ c kv, delete kv.1 c) c es !! k = if decide (k ∈ es.*1) then None else c !! k.
Proof.
  revert c. induction es as [|[k' v'] es IH]; intros c; simpl; [done|].
  rewrite IH. destruct (decide (k = k')) as [->|Hk].
  - rewrite (decide_True (P := k' ∈ k' :: _)) by set_solver. case_decide; [done|]. by rewrite lookup_delete_eq.
  - rewrite lookup_delete_ne by done. repeat case_decide; set_solver.
Qed.

(** The operations are those of a map as long as no nil of an interface type is stored; such
    a value makes every read of it, and every range, panic. *)
Theorem cache_spec (c : cache) :
  DeleteAll c = ∅ ∧
  (∀ f vs k, StoreAll f vs c !! k = match last (filter (λ v, f v = k) vs) with Some v => Some v | None => c !! k end) ∧
  (assertable c →
     (∀ k, Cache_Load nil_interface k c = Ret (c !! k)) ∧
     (∀ k v, nil_interface v = false →
        LoadOrStore nil_interface k v c = (Ret (default v (c !! k), bool_decide (is_Some (c !! k))),
                                           <[k := default v (c !! k)]> c)) ∧
     (∃ vs, RangeAll nil_interface c = Ret vs ∧ vs ≡ₚ (map_to_list c).*2) ∧
     (∀ f, ∃ vs, RangeCon nil_interface f c = Ret vs ∧
        vs ≡ₚ (map_to_list (filter (λ kv, f kv.1 kv.2 = true) c)).*2)) ∧
  (∀ k v, c !! k = Some v → nil_interface v = true →
     (∃ w, Cache_Load nil_interface k c = Panic w) ∧ (∃ w, RangeAll nil_interface c = Panic w)).
Proof.
  split_and!.
  - apply map_eq. intros k. unfold DeleteAll. rewrite delete_keys, lookup_empty. case_decide as Hk; [done|].
    rewrite range_map_perm in Hk. destruct (c !! k) as [v|] eqn:Hc; [|done].
    destruct Hk. apply list_elem_of_fmap. exists (k, v). split; [done|]. by apply elem_of_map_to_list.
  - intros f vs k. unfold StoreAll. induction vs as [|v vs IH] using rev_ind; [done|].
    rewrite foldl_app, filter_app, filter_cons, filter_nil. simpl. destruct (decide (f v = k)) as [<-|Hv].
    + by rewrite lookup_insert_eq, last_snoc.
    + by rewrite lookup_insert_ne, app_nil_r.
  - intros Hc. split_and!.
    + intros k. unfold Cache_Load. destruct (c !! k) as [v|] eqn:Hk; [|done].
      by rewrite assert_ok by (by apply (Hc k)).
    + intros k v Hv. unfold LoadOrStore. destruct (c !! k) as [v'|] eqn:Hk; simpl.
      * rewrite assert_ok by (by apply (Hc k)). by rewrite insert_id.
      * by rewrite assert_ok.
    + apply assertable_range in Hc. eexists. split; [by apply range_con_ok|].
      rewrite range_map_perm. apply reflexive_eq. f_equal.
      clear Hc. by induction (map_to_list c) as [|e l IH]; [|rewrite filter_cons, decide_True, IH].
    + intros f. apply assertable_range in Hc. eexists. split; [by apply range_con_ok|].
      rewrite range_map_perm. apply fmap_Permutation, NoDup_Permutation.
      { apply NoDup_filter, NoDup_map_to_list. }
      { apply NoDup_map_to_list. }
      intros [k v]. by rewrite list_elem_of_filter, !elem_of_map_to_list, map_lookup_filter_Some, (comm and).
  - intros k v Hk Hv. split.
    + unfold Cache_Load, assert_. rewrite Hk, Hv. by eexists.
    + apply (range_con_panics _ _ k v); [|done]. rewrite range_map_perm. by apply elem_of_map_to_list.
Qed.
End cache_theorems.

(** ** The process *)

(** The name of the process is what follows the last separator. *)
Theorem process_name dir name args : has_byte "/" name = false → GetProcessName ((dir +:+ String "/" name) :: args) = name.
Proof.
  intros Hn. simpl. unfold Split. destruct (SplitN_last "/" dir name (S (String.length (dir +:+ String "/" name)))) as [_ ->]; [done| |done].
  rewrite string_length_app. simpl. lia.
Qed.

(** A progress below zero is a negative number of blocks, unless it rounds to none. *)
Lemma progress_negative :
  (∃ w, ProgressBar (λ _, "") "n" (-1) 50 = Panic w) ∧ returns (ProgressBar (λ _, "") "n" (-1) 100) ∧
  progress_of 25 50 = (float64_of_int 50, 25%Z).
Proof. split_and!; [by eexists; vm_compute|by eexists; vm_compute|by vm_compute]. Qed.

Section version_theorems.
Context {E Repo : Type} (PlainClone : option Repo → string → (Repo + E) * option Repo) (Head : Repo → string + E).
(** git does not clone into a directory that holds a repository, and leaves one behind when
    it clones. *)
Hypothesis clone_existing : ∀ r url, ∃ e, PlainClone (Some r) url = (inr e, Some r).
Hypothesis clone_fresh : ∀ url r d, PlainClone None url = (inl r, d) → d = Some r.

(** The version of the client can be had once: the directory of the clone stays. *)
Theorem second_clone_fails url url' v d :
  GetClientVersion PlainClone Head url None = (inl v, d) →
  ∃ e, GetClientVersion PlainClone Head url' d = (inr (Wrapped e), d).
Proof.
  unfold GetClientVersion, getClientVersion. destruct (PlainClone None url) as [[r|e] d'] eqn:Hc; [|done].
  apply clone_fresh in Hc as ->. intros H. assert (d = Some r) as -> by (destruct (Head r); by simplify_eq).
  destruct (clone_existing r url') as [e ->]. by exists e.
Qed.
End version_theorems.

(** The hypotheses hold of a tool that keeps what it cloned first. *)
Lemma second_clone_fails_witness :
  let clone (d : option string) (url : string) : (string + unit) * option string :=
    match d with Some r => (inr tt, Some r) | None => (inl url, Some url) end in
  ∃ e, GetClientVersion clone inl "b" (Some "a") = (inr (Wrapped e), Some "a").
Proof.
  intros clone. apply (second_clone_fails clone inl) with (url := "a") (v := "a"); [| |reflexivity].
  - intros r url. by exists tt.
  - intros url r d [= -> ->]. reflexivity.
Defined.
