(* ===== verification/Logs.v ===== *)
(** * Logs of calls (mw/api/logger.go, mw/grpc, discovery/etcd/rpc_diagnostics.go) and the
    layout of lines (log/color.go, log/encoder.go, log/zap.go)

    The loggers wrap a call: what they must not do is change it.  Lines are listed in their
    order with what the theorems speak about; clocks and identifiers are left out. *)

From Stdlib Require Import Ascii.
From S2P Require Import Prelude GoStrings StringUtil.

(** ** Requests of the API (GinLogger) *)

Record request := MkRequest { URLPath : string; ReqBody : body }.

(** What the rest of the chain does with the writer that it finds in the context: bytes go
    through [Write] or through [WriteString]. *)
Inductive write := Write (b : string) | WriteString (b : string).
Record response := MkResponse { Status : Z; Location : string; Writes : list write }.

Definition bytes_of (w : write) : string := match w with Write b | WriteString b => b end.

Inductive line :=
| Received
| ReadFailed
| BodyLine (reqBody : string)
| Processed (status : Z) (reqBody respBody : string) (location : option string).

Definition maxBody : Z := 1024 * 1024 * 16.

(** [httpResponse]: its [Write] keeps what it passes on; [WriteString] is that of the writer
    inside. *)
Definition recorded (ws : list write) : string :=
  String.concat "" ((λ w, match w with Write b => b | WriteString _ => "" end) <$> ws).
Definition sent (ws : list write) : string := String.concat "" (bytes_of <$> ws).

(** What is served: the request that the rest of the chain is called with, if it is; what
    the client receives; the error that is answered instead; the lines. *)
Record served := MkServed { seen : option request; answer : option response; args_error : bool; lines : list line }.

Definition GinLogger (skipPath : list string) (Next : request → response) (c : request) : served :=
  if bool_decide (skipPath ≠ []) && bool_decide (URLPath c ∈ skipPath) then
    MkServed (Some c) (Some (Next c)) false [Received]
  else
    match read_limited maxBody (ReqBody c) with
    | None => MkServed None None true [Received; ReadFailed]
    | Some reqBody =>
        let c := MkRequest (URLPath c) (MkBody reqBody false) in
        let response := Next c in
        let location := Location response in
        MkServed (Some c) (Some response) false
          [Received; BodyLine reqBody;
           Processed (Status response) reqBody (recorded (Writes response))
             (if bool_decide (location = "") then None else Some location)]
    end.

(** ** Calls of gRPC *)

Section rpc.
Context {Req Resp Err : Type}.

Inductive rpc_line :=
| RpcRequest (method : string) (req : Req)
| RpcSuccess (method : string) (req : Req) (resp : Resp)
| RpcError (method : string) (req : Req) (e : Err).

Definition GrpcLogger (invoker : string → Req → Resp + Err) (method : string) (req : Req) : (Resp + Err) * list rpc_line :=
  let r := invoker method req in
  (r, [RpcRequest method req; match r with inl resp => RpcSuccess method req resp | inr e => RpcError method req e end]).
End rpc.

(** ** Attempts of the etcd client (rpc_diagnostics.go) *)

Inductive level := DebugLevel | InfoLevel | WarnLevel | ErrorLevel | DPanicLevel | PanicLevel | FatalLevel | OtherLevel (z : Z).

(** The error of an attempt, by its code. *)
Inductive rpc_stat := OutHeader (RemoteAddr : option string) | End_ (Error : option Z) | OtherStat.
Record attempt := MkAttempt { method : string; remoteAddr : string }.
Record diag_line := MkDiag { dlevel : level; dmethod : string; daddr : string; code : option Z }.

Definition Canceled : Z := 1.

Definition TagRPC (FullMethodName : string) : attempt := MkAttempt FullMethodName "".

(** The state of the context: none when the context is another one. *)
Definition HandleRPC (s : rpc_stat) (state : option attempt) : option attempt * list diag_line :=
  match state with
  | None => (None, [])
  | Some a =>
      match s with
      | OutHeader (Some addr) => (Some (MkAttempt (method a) addr), [])
      | OutHeader None | OtherStat => (Some a, [])
      | End_ None => (Some a, [MkDiag DebugLevel (method a) (remoteAddr a) None])
      | End_ (Some c) =>
          (Some a, [if (c =? Canceled)%Z then MkDiag DebugLevel (method a) (remoteAddr a) None
                    else MkDiag WarnLevel (method a) (remoteAddr a) (Some c)])
      end
  end.

Fixpoint HandleRPCs (ss : list rpc_stat) (state : option attempt) : option attempt * list diag_line :=
  match ss with
  | [] => (state, [])
  | s :: ss => let '(state, l) := HandleRPC s state in
               let '(state, l') := HandleRPCs ss state in (state, l ++ l')
  end.

(** ** Colours and columns *)

Definition esc : ascii := "027"%char.
Definition Color_Add (c : Z) (s : string) : string :=
  String esc ("[" +:+ Itoa c +:+ "m" +:+ s +:+ String esc "[0m").

(** [_levelToColor]; the zero of a missing level is no colour. *)
Definition levelToColor (l : level) : option Z :=
  match l with
  | DebugLevel => Some 37 | InfoLevel => Some 34 | WarnLevel => Some 33
  | ErrorLevel | DPanicLevel | PanicLevel | FatalLevel => Some 31
  | OtherLevel _ => None
  end%Z.

Definition CapitalString (l : level) : string :=
  match l with
  | DebugLevel => "DEBUG" | InfoLevel => "INFO" | WarnLevel => "WARN" | ErrorLevel => "ERROR"
  | DPanicLevel => "DPANIC" | PanicLevel => "PANIC" | FatalLevel => "FATAL"
  | OtherLevel z => "LEVEL(" +:+ Itoa z +:+ ")"
  end.

Definition levelToCapitalColorString (l : level) : option string := (λ c, Color_Add c (CapitalString l)) <$> levelToColor l.

Section columns.
Context (RuneCount : string → nat) (pid : Z).

(** The strings of the columns; the map of unknown levels is never filled. *)
Definition capitalColorLevelEncoder (moduleName moduleVersion : string) (l : level) : outcome (list string) :=
  let s := default "" (levelToCapitalColorString l) in
  let color := default 0%Z (levelToColor l) in
  (let! pid := FormatString RuneCount ("[PID:" +:+ Itoa pid +:+ "]") 15 true in
   let! name := (if bool_decide (moduleName = "") then Ret []
                 else let! n := FormatString RuneCount moduleName 25 true in Ret [Color_Add color n]) in
   let! version := (if bool_decide (moduleVersion = "") then Ret []
                    else let! v := FormatString RuneCount ("[" +:+ moduleVersion +:+ "]") 30 true in Ret [v]) in
   Ret (s :: Color_Add color pid :: name ++ version))%go.

Definition customCallerEncoder (sdkType platformName trimmedPath : string) : outcome (list string) :=
  (let! path := FormatString RuneCount ("[" +:+ trimmedPath +:+ "]") 50 true in
   if negb (bool_decide (sdkType = "")) && negb (bool_decide (platformName = "")) then
     let! sdk := FormatString RuneCount ("[" +:+ sdkType +:+ "/" +:+ platformName +:+ "]") 50 true in
     Ret [sdk; path]
   else Ret [path])%go.

(** [fmt.Sprintf("%-50s", message)] counts characters. *)
Definition align (message : string) : string := message +:+ spaces (50 - RuneCount message).
End columns.

(** * Theorems *)

#[local] Opaque maxBody.

Definition recorded_ok (ws : list write) : Prop :=
  Forall (λ w, ∃ b, w = Write b) ws → recorded ws = sent ws.

Lemma recorded_sent ws : recorded_ok ws.
Proof. intros Hw. unfold recorded, sent. f_equal. induction Hw as [|w ws [b ->] _ IH]; [done|]. rewrite !fmap_cons. by rewrite IH. Qed.

Lemma processed_ok Next c loc status reqBody respBody location :
  (∀ ws, recorded_ok ws) →
  Processed status reqBody respBody location ∈
    [Received; BodyLine (Bytes (ReqBody c)); Processed (Status (Next c)) (Bytes (ReqBody c)) (recorded (Writes (Next c))) loc] →
  ∃ c', Some c = Some c' ∧ reqBody = Bytes (ReqBody c') ∧ status = Status (Next c') ∧
    (Forall (λ w, ∃ b, w = Write b) (Writes (Next c')) → respBody = sent (Writes (Next c'))).
Proof. intros Hr Hl. exists c. assert (respBody = recorded (Writes (Next c))) by set_solver. subst. split_and!; [done|set_solver..|apply Hr]. Qed.

(** The logger does not change a request whose body is read and is no longer than its
    limit, nor one that is skipped: the rest of the chain is called with it, once.  A longer
    body is cut without an error, whatever comes after; one that fails before is answered by
    an error and the chain is not called.  The line at the end has what was written by
    [Write]: it is what was sent if nothing was written by [WriteString]. *)
Theorem gin_logger skipPath Next c :
  let r := GinLogger skipPath Next c in
  let len := Z.of_nat (String.length (Bytes (ReqBody c))) in
  (URLPath c ∈ skipPath → seen r = Some c ∧ lines r = [Received]) ∧
  (URLPath c ∉ skipPath → (len < maxBody)%Z → fails (ReqBody c) = false → seen r = Some c) ∧
  (URLPath c ∉ skipPath → (maxBody <= len)%Z →
     seen r = Some (MkRequest (URLPath c) (MkBody (stake (Z.to_nat maxBody) (Bytes (ReqBody c))) false))) ∧
  (URLPath c ∉ skipPath → (len < maxBody)%Z → fails (ReqBody c) = true →
     seen r = None ∧ answer r = None ∧ args_error r = true) ∧
  (∀ c', seen r = Some c' → answer r = Some (Next c') ∧ args_error r = false) ∧
  (∀ status reqBody respBody location, Processed status reqBody respBody location ∈ lines r →
     ∃ c', seen r = Some c' ∧ reqBody = Bytes (ReqBody c') ∧ status = Status (Next c') ∧
       (Forall (λ w, ∃ b, w = Write b) (Writes (Next c')) → respBody = sent (Writes (Next c')))).
Proof.
  assert (∀ b, recorded_ok b) as Hrec by apply recorded_sent.
  intros r len. unfold r, GinLogger. destruct (decide (URLPath c ∈ skipPath)) as [Hs|Hs].
  - rewrite (bool_decide_eq_true_2 (skipPath ≠ [])), (bool_decide_eq_true_2 (URLPath c ∈ skipPath)) by (done || by intros ->; set_solver).
    simpl. split_and!; try done; [by intros c' [= ->]|]. intros ???? Hl. set_solver.
  - rewrite (bool_decide_eq_false_2 (URLPath c ∈ skipPath)), andb_false_r by done. unfold read_limited. fold len.
    destruct (Z.leb_spec maxBody len) as [Hl|Hl]; [|destruct (fails (ReqBody c)) eqn:Hf]; simpl.
    + split_and!; try done; [lia|by rewrite limited_stake|lia|by intros c' [= <-]|].
      intros ????. by apply (processed_ok Next (MkRequest (URLPath c) (MkBody (limited maxBody (Bytes (ReqBody c))) false))).
    + split_and!; try done; [lia|]. intros ???? Hp. set_solver.
    + split_and!; try done; [|lia|by intros c' [= <-]|].
      2: { intros ????. by apply (processed_ok Next (MkRequest (URLPath c) (MkBody (Bytes (ReqBody c)) false))). }
      intros _ _ _. destruct c as [p [b fl]]. simpl in *. by subst.
Qed.

(** A body that is longer reaches the handler cut, and a response that is written by
    [WriteString] is logged as empty. *)
Theorem write_string_unlogged Next c :
  seen (GinLogger [] Next c) = Some c → Writes (Next c) = [WriteString "hello"] →
  ∃ status reqBody location, last (lines (GinLogger [] Next c)) = Some (Processed status reqBody "" location).
Proof.
  unfold GinLogger. simpl. case_match; [|done]. simpl. intros [= Hc] Hw. rewrite Hc, Hw. by do 3 eexists.
Qed.

(** The loggers of gRPC give what the call gives, and a line before and one after it. *)
Theorem grpc_logger {Req Resp Err} (invoker : string → Req → Resp + Err) m req :
  (GrpcLogger invoker m req).1 = invoker m req ∧
  ∃ l, (GrpcLogger invoker m req).2 = [RpcRequest m req; l] ∧
    match invoker m req with inl resp => l = RpcSuccess m req resp | inr e => l = RpcError m req e end.
Proof. unfold GrpcLogger. simpl. destruct (invoker m req); eauto. Qed.

(** ** Attempts *)

Definition ends (s : rpc_stat) : bool := match s with End_ _ => true | _ => false end.
Definition address_of (s : rpc_stat) : option string := match s with OutHeader a => a | _ => None end.

Lemma HandleRPCs_quiet ss a :
  Forall (λ s, ends s = false) ss →
  HandleRPCs ss (Some a) = (Some (MkAttempt (method a) (default (remoteAddr a) (last (omap address_of ss)))), []).
Proof.
  intros Hs. revert a. induction Hs as [|s ss Hs _ IH]; intros a; [by destruct a|]. simpl.
  destruct s as [[addr|]| |]; simpl in *; try done; rewrite IH; simpl; try done.
  change (list_omap _ _ address_of ss) with (omap address_of ss). rewrite last_cons. by destruct (last (omap address_of ss)).
Qed.

Lemma HandleRPCs_app ss ss' a :
  HandleRPCs (ss ++ ss') a =
    (let '(a, l) := HandleRPCs ss a in let '(a, l') := HandleRPCs ss' a in (a, l ++ l')).
Proof.
  revert a. induction ss as [|s ss IH]; intros a; simpl; [by destruct (HandleRPCs ss' a)|].
  destruct (HandleRPC s a) as [a1 l1]. rewrite IH. destruct (HandleRPCs ss a1) as [a2 l2].
  destruct (HandleRPCs ss' a2). by rewrite app_assoc.
Qed.

(** An attempt that ends leaves one line, with its method and the last address that was
    known; it is a warning exactly when the attempt failed otherwise than by being
    canceled.  Without the state of an attempt nothing is logged. *)
Theorem attempt_logged m ss err :
  Forall (λ s, ends s = false) ss →
  ∃ l, (HandleRPCs (ss ++ [End_ err]) (Some (TagRPC m))).2 = [l] ∧ dmethod l = m ∧
    daddr l = default "" (last (omap address_of ss)) ∧
    (dlevel l = WarnLevel ↔ ∃ c, err = Some c ∧ c ≠ Canceled) ∧ (dlevel l ≠ WarnLevel → dlevel l = DebugLevel).
Proof.
  intros Hs. rewrite HandleRPCs_app, HandleRPCs_quiet by done. simpl.
  destruct err as [c|]; [|eexists; split_and!; try done; by split; [|intros (? & ? & _)]].
  destruct (Z.eqb_spec c Canceled) as [Hc|Hc]; eexists; split_and!; simpl; try done; split; naive_solver.
Qed.

(** ** Columns *)

(** The columns of a level that is known are coloured texts of fixed widths, when
    characters are bytes; a level that is not known is left out of its column. *)
Theorem level_columns RuneCount pid name version l :
  (∀ s, RuneCount s = String.length s) → name ≠ "" → version ≠ "" →
  ∃ p n v, capitalColorLevelEncoder RuneCount pid name version l =
      Ret [default "" (levelToCapitalColorString l); Color_Add (default 0%Z (levelToColor l)) p;
           Color_Add (default 0%Z (levelToColor l)) n; v] ∧
    String.length p = 15 ∧ String.length n = 25 ∧ String.length v = 30.
Proof.
  intros Hr Hn Hv. unfold capitalColorLevelEncoder. rewrite !bool_decide_eq_false_2 by done.
  destruct (FormatString_length RuneCount ("[PID:" +:+ Itoa pid +:+ "]") 15 true) as (p & -> & Hp); [lia|done|].
  destruct (FormatString_length RuneCount name 25 true) as (n & -> & Hn'); [lia|done|].
  destruct (FormatString_length RuneCount ("[" +:+ version +:+ "]") 30 true) as (v & -> & Hv'); [lia|done|].
  by exists p, n, v.
Qed.

(** The columns of the caller are of fifty bytes, the one of the platform first if there is
    one. *)
Theorem caller_columns RuneCount sdk platform path :
  (∀ s, RuneCount s = String.length s) →
  ∃ cs, customCallerEncoder RuneCount sdk platform path = Ret cs ∧ Forall (λ s, String.length s = 50) cs ∧
    (length cs = 2 ↔ sdk ≠ "" ∧ platform ≠ "") ∧ (length cs = 1 ∨ length cs = 2).
Proof.
  intros Hr. unfold customCallerEncoder.
  destruct (FormatString_length RuneCount ("[" +:+ path +:+ "]") 50 true) as (p & -> & Hp); [lia|done|]. simpl.
  destruct (decide (sdk = "")) as [->|Hs]; [|destruct (decide (platform = "")) as [->|Hf]].
  - eexists. simpl. split_and!; [done|by repeat constructor|split; [done|by intros []]|by left].
  - rewrite (bool_decide_eq_false_2 (sdk = "")) by done. eexists. simpl.
    split_and!; [done|by repeat constructor|split; [done|by intros []]|by left].
  - rewrite !bool_decide_eq_false_2 by done. simpl.
    destruct (FormatString_length RuneCount ("[" +:+ sdk +:+ "/" +:+ platform +:+ "]") 50 true) as (q & -> & Hq); [lia|done|].
    eexists. simpl. split_and!; [done|by repeat constructor|done|by right].
Qed.

(** A message is padded to fifty bytes, and never cut. *)
Theorem aligned RuneCount message :
  (∀ s, RuneCount s = String.length s) →
  CutPrefix message (align RuneCount message) = Some (spaces (50 - String.length message)) ∧
  String.length (align RuneCount message) = Nat.max 50 (String.length message).
Proof.
  intros Hr. unfold align. rewrite Hr. split; [apply CutPrefix_app|]. rewrite string_length_app, spaces_length. lia.
Qed.
