(* ===== verification/Minio.v ===== *)
(** * The client of MinIO (s3/minio/minio.go: NewMinio, initMinio, addresses, forms, copies)

    How the store is set up and which addresses it gives out.  The server keeps buckets and
    policies; each call to it is numbered, may fail, and may have had its effect although
    its reply was lost.  Addresses are parsed and printed by the standard library, requests
    are signed by the client library: both are arguments. *)

From Stdlib Require Import Ascii.
From S2P Require Import Prelude GoStrings Errs Stores.

Local Open Scope Z_scope.

(** ** The server *)

Record server := MkServer { calls : nat; buckets : gset string; policies : gmap string string }.

(** ** The client *)

Record Config := MkConfig {
  Bucket : string; Endpoint : string; AccessKeyID : string; SecretAccessKey : string;
  SessionToken : string; SignEndpoint : string; PublicRead : bool
}.

(** What the client needs of an address. *)
Record url := MkUrl { Scheme : string; Host : string; Path : string }.

(** A client of the library; [cached]: the location of the bucket that was put into it. *)
Record client := MkClient { chost : string; secure : bool; cached : option string }.

Record minio := MkMinio {
  conf : Config; bucket : string; signEndpoint : string; location : string;
  core : client; sign : client; init : bool; prefix : string
}.

Inductive minio_err (E : Type) := ErrParse | ErrClient | ErrExists | ErrMake | ErrPolicy | ErrLocation | ErrOther (e : E).
Arguments ErrParse {E}.
Arguments ErrClient {E}.
Arguments ErrExists {E}.
Arguments ErrMake {E}.
Arguments ErrPolicy {E}.
Arguments ErrLocation {E}.
Arguments ErrOther {E} e.

(** [answer]: whether a call had its effect, and whether it was answered without an error;
    [Parse] and [print] are [url.Parse] and [URL.String]; [accepts] tells whether the
    library makes a client for a host; [settable] whether the private cache of the library
    can be written to. *)
Class Library := {
  answer : nat → bool * bool;
  locate : string → string;
  Parse : string → option url;
  print : url → string;
  accepts : string → bool → bool;
  settable : bool
}.

Section minio.
Context {E : Type} `{!Library}.

Definition perform (f : server → server) (s : server) : server * bool :=
  let '(ran, ok) := answer (calls s) in
  let s' := if ran || ok then f s else s in
  (MkServer (S (calls s)) (buckets s') (policies s'), ok).

Definition same_endpoint (c : Config) : bool :=
  String.eqb (SignEndpoint c) "" || String.eqb (SignEndpoint c) (Endpoint c).

(** The text with its apostrophes written as quotes. *)
Fixpoint quotes (s : string) : string :=
  match s with EmptyString => "" | String a s => String (if is_byte apostrophe a then quote else a) (quotes s) end.

Definition read_policy (b : string) : string :=
  quotes "{'Version': '2012-10-17','Statement': [{'Action': ['s3:GetObject','s3:PutObject'],'Effect': 'Allow','Principal': {'AWS': ['*']},'Resource': ['arn:aws:s3:::"
  +:+ b +:+ quotes "/*'],'Sid': ''}]}".

(** The cache of the client that signs is written to; when it cannot be, the client for the
    requests signs. *)
Definition set_location (m : minio) (loc : string) : client :=
  if same_endpoint (conf m) then sign m
  else if settable then MkClient (chost (sign m)) (secure (sign m)) (Some loc) else core m.

Definition initMinio (m : minio) (s : server) : minio * server * option (minio_err E) :=
  if init m then (m, s, None)
  else
    let b := Bucket (conf m) in
    let '(s, ok) := perform id s in
    if negb ok then (m, s, Some ErrExists)
    else
      let '(s, ok) := (if bool_decide (b ∈ buckets s) then (s, true)
                       else perform (λ s, MkServer (calls s) ({[b]} ∪ buckets s) (policies s)) s) in
      if negb ok then (m, s, Some ErrMake)
      else
        let '(s, ok) := (if PublicRead (conf m)
                         then perform (λ s, MkServer (calls s) (buckets s) (<[b := read_policy b]> (policies s))) s
                         else (s, true)) in
        if negb ok then (m, s, Some ErrPolicy)
        else
          let '(s, ok) := perform id s in
          if negb ok then (m, s, Some ErrLocation)
          else
            let loc := locate b in
            (MkMinio (conf m) (bucket m) (signEndpoint m) loc (core m) (set_location m loc) true (prefix m), s, None).

(** The configuration that is kept is the one that was given: only a copy is changed. *)
Definition NewMinio (c : Config) (s : server) : server * (minio + minio_err E) :=
  match Parse (Endpoint c) with
  | None => (s, inr ErrParse)
  | Some u =>
      let secure := String.eqb (Scheme u) "https" in
      if negb (accepts (Host u) secure) then (s, inr ErrClient)
      else
        let core := MkClient (Host u) secure None in
        match (if same_endpoint c then inl (core, u)
               else match Parse (SignEndpoint c) with
                    | None => inr ErrParse
                    | Some su =>
                        let secure := String.eqb (Scheme su) "https" in
                        if accepts (Host su) secure then inl (MkClient (Host su) secure None, su) else inr ErrClient
                    end) with
        | inr e => (s, inr e)
        | inl (sign, u) =>
            match initMinio (MkMinio c (Bucket c) (print (MkUrl (Scheme u) (Host u) "")) "" core sign false (Path u)) s with
            | (m, s, None) => (s, inl m)
            | (_, s, Some e) => (s, inr e)
            end
        end
  end.

(** [Check]. *)
Definition Check_ (c : Config) (s : server) : server * option (minio_err E) :=
  match NewMinio c s with
  | (s, inr e) => (s, Some e)
  | (s, inl m) => let '(_, s, e) := initMinio m s in (s, e)
  end.

(** ** Addresses *)

Definition PresignedPutObject (presign : client → string → string → Z → url + E) (m : minio) (name : string) (expire : Z)
    (s : server) : server * (string + minio_err E) :=
  let '(m, s, e) := initMinio m s in
  match e with
  | Some e => (s, inr e)
  | None =>
      match presign (sign m) (bucket m) name expire with
      | inr e => (s, inr (ErrOther e))
      | inl rawURL =>
          (s, inl (print (if String.eqb (prefix m) "" then rawURL
                          else MkUrl (Scheme rawURL) (Host rawURL) (path_Join [prefix m; Path rawURL]))))
      end
  end.

(** ** Forms *)

Inductive condition :=
| CondKey (name : string)
| CondExpires (t : Z)
| CondLengthRange (min max : Z)
| CondSuccessStatus (code : string)
| CondContentType (t : string)
| CondBucket (b : string).

(** The conditions in the order in which they are set; the library may refuse each. *)
Definition conditions (b name : string) (size expires : Z) (contentType : string) : list condition :=
  [CondKey name; CondExpires expires] ++ (if 0 <? size then [CondLengthRange 0 size] else []) ++
  [CondSuccessStatus (Itoa successCode)] ++ (if String.eqb contentType "" then [] else [CondContentType contentType]) ++
  [CondBucket b].

Fixpoint set_conditions (refuses : condition → option E) (cs : list condition) : option E :=
  match cs with [] => None | c :: cs => match refuses c with Some e => Some e | None => set_conditions refuses cs end end.

Definition form_url (m : minio) : string :=
  let endpoint := SignEndpoint (conf m) in
  if HasSuffix endpoint "/" then endpoint +:+ Bucket (conf m) else endpoint +:+ "/" +:+ bucket m.

Definition FormData (refuses : condition → option E) (post : client → list condition → gmap string string + E)
    (now : Z) (m : minio) (name : string) (size : Z) (contentType : string) (duration : Z) (s : server) :
    server * (Stores.FormData + minio_err E) :=
  let '(m, s, e) := initMinio m s in
  match e with
  | Some e => (s, inr e)
  | None =>
      let expires := now + duration in
      let cs := conditions (bucket m) name size expires contentType in
      match set_conditions refuses cs with
      | Some e => (s, inr (ErrOther e))
      | None => match post (sign m) cs with
                | inr e => (s, inr (ErrOther e))
                | inl fd => (s, inl (MkForm (form_url m) "file" fd expires [successCode]))
                end
      end
  end.
End minio.

(** ** Contents and copies *)

(** A negative limit is none. *)
Definition getObjectData (limit : Z) (object : body) : option string :=
  if limit <? 0 then (if fails object then None else Some (Bytes object)) else read_limited limit object.

(** What the server replies to a copy; its body is XML, which may not decode. *)
Record copy_reply := MkReply { StatusCode : Z; HETag : string; HVersionId : string; HExpiration : string; BodyETag : option (string * Z) }.
Record UploadInfo := MkUpload {
  UBucket : string; UKey : string; UModified : Z; UETag : string; UVersionID : string; UExpiration : Z * string
}.

Inductive copy_err (E : Type) := CopyRefused (e : E) | CopyFailed (e : E) | CopyStatus (code : Z) | CopyDecode.
Arguments CopyRefused {E} e.
Arguments CopyFailed {E} e.
Arguments CopyStatus {E} code.
Arguments CopyDecode {E}.

Definition copyObject {E} (src_ok dst_ok : option E) (execute : copy_reply + E) (expiration : string → Z * string)
    (dstBucket dstObject : string) : UploadInfo + copy_err E :=
  match src_ok, dst_ok with
  | Some e, _ | None, Some e => inr (CopyRefused e)
  | None, None =>
      match execute with
      | inr e => inr (CopyFailed e)
      | inl resp =>
          if negb (StatusCode resp =? successCode) then inr (CopyStatus (StatusCode resp))
          else match BodyETag resp with
               | None => inr CopyDecode
               | Some (body, modified) =>
                   let etag := TrimFunc (λ a, is_byte quote a) (HETag resp) in
                   let etag := if String.eqb etag "" then TrimFunc (λ a, is_byte quote a || is_byte apostrophe a) body else etag in
                   inl (MkUpload dstBucket dstObject modified etag (HVersionId resp) (expiration (HExpiration resp)))
               end
      end
  end.

(** * Theorems *)

Section theorems.
Context {E : Type} `{!Library}.

Lemma perform_ok f s s' : perform f s = (s', true) → buckets s' = buckets (f s) ∧ policies s' = policies (f s).
Proof. unfold perform. destruct (answer (calls s)) as [ran []]; intros; simplify_eq/=. by rewrite orb_true_r. Qed.

Lemma perform_id s : let s' := (perform id s).1 in buckets s' = buckets s ∧ policies s' = policies s.
Proof. unfold perform. destruct (answer (calls s)) as [[] []]; done. Qed.

(** What is true of a client that is set up. *)
Record ready (m : minio) (s : server) : Prop := {
  ready_init : init m = true;
  ready_bucket : Bucket (conf m) ∈ buckets s;
  ready_policy : PublicRead (conf m) = true → policies s !! Bucket (conf m) = Some (read_policy (Bucket (conf m)));
  ready_location : location m = locate (Bucket (conf m));
  ready_sign : same_endpoint (conf m) = false → sign m = core m ∨ cached (sign m) = Some (location m)
}.

Lemma initMinio_ready (m m' : minio) s s' :
  init m = false → initMinio (E := E) m s = (m', s', None) →
  ready m' s' ∧ conf m' = conf m ∧ bucket m' = bucket m ∧ signEndpoint m' = signEndpoint m ∧ core m' = core m ∧
  prefix m' = prefix m ∧ (same_endpoint (conf m) = true → sign m' = sign m).
Proof.
  intros Hi. unfold initMinio. rewrite Hi.
  destruct (perform id s) as [s1 []] eqn:H1; [|done]. simpl. apply perform_ok in H1 as [Hb1 Hp1].
  destruct (if bool_decide _ then _ else _) as [s2 []] eqn:H2; [|done]. simpl.
  assert (Bucket (conf m) ∈ buckets s2) as Hb2.
  { case_bool_decide; simplify_eq; [done|]. apply perform_ok in H2 as [-> _]. simpl. set_solver. }
  destruct (if PublicRead _ then _ else _) as [s3 []] eqn:H3; [|done]. simpl.
  assert (Bucket (conf m) ∈ buckets s3 ∧
    (PublicRead (conf m) = true → policies s3 !! Bucket (conf m) = Some (read_policy (Bucket (conf m))))) as [Hb3 Hp3].
  { destruct (PublicRead (conf m)); simplify_eq; [|done]. apply perform_ok in H3 as [-> ->]. simpl.
    split; [done|]. by rewrite lookup_insert_eq. }
  destruct (perform id s3) as [s4 []] eqn:H4; [|done]. simpl. apply perform_ok in H4 as [Hb4 Hp4].
  intros ?; simplify_eq. split; [|split_and!; try done].
  - split; simpl; [done|by rewrite Hb4|by rewrite Hp4|done|].
    intros Hs. unfold set_location. rewrite Hs. destruct settable; auto.
  - simpl. unfold set_location. by intros ->.
Qed.

(** A client that is made is set up for good: its bucket exists, with the policy if the
    configuration asks for it; it knows its location, also where it signs; later calls do
    not set it up again, and [Check] of the same configuration only adds its calls. *)
Theorem minio_ready c s s' (m : minio) :
  NewMinio (E := E) c s = (s', inl m) →
  ready m s' ∧ conf m = c ∧ bucket m = Bucket c ∧
  (∃ u, Parse (Endpoint c) = Some u ∧ chost (core m) = Host u ∧ (secure (core m) = true ↔ Scheme u = "https")) ∧
  (∀ s, initMinio (E := E) m s = (m, s, None)) ∧
  (∀ su, Parse (if same_endpoint c then Endpoint c else SignEndpoint c) = Some su →
     signEndpoint m = print (MkUrl (Scheme su) (Host su) "") ∧ prefix m = Path su).
Proof.
  unfold NewMinio. destruct (Parse (Endpoint c)) as [u|] eqn:Hu; [|done].
  destruct (accepts _ _) eqn:Ha; [|done]. simpl.
  set (core0 := MkClient (Host u) (String.eqb (Scheme u) "https") None).
  destruct (if same_endpoint c then _ else _) as [[sg su]|e] eqn:Hs; [|done].
  destruct (initMinio _ s) as [[m1 s1] [e|]] eqn:Hi; [done|]. intros ?; simplify_eq.
  apply initMinio_ready in Hi as (Hr & Hc & Hb & He & Hco & Hp & _); [|done]. simpl in *.
  split_and!; [done|done|done| | |].
  - exists u. rewrite Hco. subst core0. simpl. split_and!; [done|done|]. apply String.eqb_eq.
  - intros s0. unfold initMinio. by rewrite (ready_init _ _ Hr).
  - intros su' Hsu'. rewrite He, Hp. destruct (same_endpoint c); simplify_eq; [done|].
    rewrite Hsu' in Hs. destruct (accepts (Host su') _) in Hs; [|done]. by injection Hs as <- <-.
Qed.

(** The form of a configuration without an address for signing has one without a host,
    although addresses that are signed get that of the server. *)
Theorem form_without_host c s s' (m : minio) :
  NewMinio (E := E) c s = (s', inl m) → SignEndpoint c = "" →
  form_url m = "/" +:+ Bucket c ∧
  (∀ u, Parse (Endpoint c) = Some u → signEndpoint m = print (MkUrl (Scheme u) (Host u) "")).
Proof.
  intros Hn Hs. destruct (minio_ready _ _ _ _ Hn) as (_ & Hc & Hb & _ & _ & Hp). unfold form_url.
  rewrite Hc, Hs, Hb. split; [done|]. intros u Hu. apply Hp. unfold same_endpoint. by rewrite Hs.
Qed.

Lemma set_conditions_none (refuses : condition → option E) cs :
  set_conditions refuses cs = None → Forall (λ c, refuses c = None) cs.
Proof.
  induction cs as [|c cs IH]; [constructor|]. simpl. destruct (refuses c) eqn:Hc; [done|]. auto.
Qed.

(** A form carries what was asked for: its key, its bucket, its time and, for a positive
    size, its length, each accepted by the library; without a size the length is free. *)
Theorem form_conditions refuses post now (m : minio) name size contentType duration s s' f :
  init m = true → FormData (E := E) refuses post now m name size contentType duration s = (s', inl f) →
  ∃ cs, post (sign m) cs = inl (FForm f) ∧ Forall (λ c, refuses c = None) cs ∧
    CondKey name ∈ cs ∧ CondBucket (bucket m) ∈ cs ∧ CondExpires (FExpires f) ∈ cs ∧ FExpires f = now + duration ∧
    (0 < size → CondLengthRange 0 size ∈ cs) ∧ (size ≤ 0 → ∀ a b, CondLengthRange a b ∉ cs) ∧ s' = s.
Proof.
  intros Hi. unfold FormData, initMinio. rewrite Hi. set (cs := conditions _ _ _ _ _).
  destruct (set_conditions refuses cs) eqn:Hset; [done|]. apply set_conditions_none in Hset. destruct (post (sign m) cs) as [fd|] eqn:Hp; [|done].
  intros ?; simplify_eq/=. exists cs.
  assert (CondKey name ∈ cs ∧ CondBucket (bucket m) ∈ cs ∧ CondExpires (now + duration) ∈ cs) as (H1 & H2 & H3)
    by (unfold cs, conditions; rewrite !elem_of_app, !elem_of_cons; tauto).
  split_and!; try done.
  - intros Hn. unfold cs, conditions. rewrite (proj2 (Z.ltb_lt 0 size)) by done. rewrite !elem_of_app, !elem_of_cons. tauto.
  - intros Hn a b. unfold cs, conditions. rewrite (proj2 (Z.ltb_ge 0 size)) by done. case_match; set_solver.
Qed.
End theorems.

(** "Public read" lets everybody write as well. *)
Theorem public_read_writes b : Contains (read_policy b) "s3:PutObject" = true.
Proof. reflexivity. Qed.

(** A limited read gives at most the limit, and does not meet an error after it. *)
Theorem object_data limit object :
  (0 ≤ limit → ∀ d, getObjectData limit object = Some d → d = stake (Z.to_nat limit) (Bytes object)) ∧
  (getObjectData limit object = None ↔ fails object = true ∧ (limit < 0 ∨ Z.of_nat (String.length (Bytes object)) < limit)).
Proof.
  unfold getObjectData, read_limited. split.
  - intros Hl d. rewrite (proj2 (Z.ltb_ge limit 0)) by done. destruct (Z.leb_spec limit (Z.of_nat (String.length (Bytes object)))).
    + intros [= <-]. apply limited_stake.
    + destruct (fails object); [done|]. intros [= <-]. symmetry. apply stake_all. lia.
  - destruct (Z.ltb_spec limit 0), (Z.leb_spec limit (Z.of_nat (String.length (Bytes object)))), (fails object);
      split; try done; (lia || naive_solver).
Qed.
