(* ===== verification/EtcdClient.v ===== *)
(** * The client of etcd (discovery/etcd: etcd.go, options.go, check.go, helpers.go,
    resolver.go)

    The configuration of the client, the check of a cluster, deadlines, and the resolver
    that gives the addresses of a watcher to gRPC.  Calls of the client library are numbered
    and may fail. *)

From S2P Require Import Prelude GoStrings EtcdWatcher EtcdConns.

Local Open Scope Z_scope.

Definition second : Z := 1000000000.

(** ** The configuration *)

(** [StatsHandlers]: how many handlers of statistics the dial options have. *)
Record config := MkConfig {
  Endpoints : list string; DialTimeout : Z; PermitWithoutStream : bool; MaxCallSendMsgSize : Z;
  Username : string; Password : string; StatsHandlers : nat
}.

Definition CfgOption : Type := config → config.

Definition WithDialTimeout (timeout : Z) : CfgOption := λ c,
  MkConfig (Endpoints c) timeout (PermitWithoutStream c) (MaxCallSendMsgSize c) (Username c) (Password c) (StatsHandlers c).
Definition WithMaxCallSendMsgSize (size : Z) : CfgOption := λ c,
  MkConfig (Endpoints c) (DialTimeout c) (PermitWithoutStream c) size (Username c) (Password c) (StatsHandlers c).
Definition WithUsernameAndPassword (username password : string) : CfgOption := λ c,
  MkConfig (Endpoints c) (DialTimeout c) (PermitWithoutStream c) (MaxCallSendMsgSize c) username password (StatsHandlers c).

Definition apply_options (options : list CfgOption) (c : config) : config := foldl (λ c option, option c) c options.

(** What [NewSvcDiscoveryRegistry] makes its client with. *)
Definition registry_config (endpoints : list string) (options : list CfgOption) : config :=
  let c := apply_options options (MkConfig endpoints (5 * second) true (10 * 1024 * 1024) "" "" 0) in
  MkConfig (Endpoints c) (DialTimeout c) (PermitWithoutStream c) (MaxCallSendMsgSize c) (Username c) (Password c)
    (S (StatsHandlers c)).

(** ** Closing the registry *)

Inductive part := ConnPool | KVHub | Registrar | EtcdLibrary.

(** The parts of a registry that there are, in the order in which they are closed. *)
Definition Close (present : part → bool) : list part :=
  filter (λ p, present p = true) [ConnPool; KVHub; Registrar; EtcdLibrary].

(** ** Deadlines *)

(** The deadline of a context; [None] is no context. *)
Definition withTimeout (now : Z) (ctx : option (option Z)) (d : Z) : option Z :=
  match ctx with
  | None | Some None => Some (now + d)
  | Some (Some deadline) => Some deadline
  end.

(** ** The check of a cluster *)

(** Keys with the lease that they are bound to. *)
Record cluster := MkCluster { kvs : gmap string (string * option Z); granted : list (Z * Z) }.

(** A lease that lapses takes its keys with it. *)
Definition lapse (lease : Z) (s : cluster) : cluster :=
  MkCluster (filter (λ kv, kv.2.2 ≠ Some lease) (kvs s)) (granted s).

Inductive check_err := ErrConnect | ErrUnreachable | ErrGrant | ErrWrite.

Section check.
(** [succeeds]: connecting, listing, granting and writing. *)
Context (succeeds : nat → bool) (fresh : cluster → Z).

Definition op_timeout (c : config) : Z := if 0 <? DialTimeout c then DialTimeout c else 5 * second.

Definition probe_key (etcdRoot : string) : string := if String.eqb etcdRoot "" then "/_probe_health" else etcdRoot.

Definition Check_ (etcdRoot : string) (createIfNotExist : bool) (s : cluster) : cluster * option check_err :=
  if negb (succeeds 0) then (s, Some ErrConnect)
  else if negb (succeeds 1) then (s, Some ErrUnreachable)
  else if createIfNotExist then
    if negb (succeeds 2) then (s, Some ErrGrant)
    else
      let lease := fresh s in
      let s := MkCluster (kvs s) ((lease, 5) :: granted s) in
      if negb (succeeds 3) then (s, Some ErrWrite)
      else (MkCluster (<[probe_key etcdRoot := ("ok", Some lease)]> (kvs s)) (granted s), None)
  else (s, None).
End check.

(** ** The resolver (resolver.go) *)

Section resolver.
Context {Meta : Type}.
Local Notation serviceWatcher := (@serviceWatcher Meta).

Inductive build_err := EmptyTarget | PoolClosed.

(** A resolver listens to the watcher of its target under the name [id]. *)
Definition Build (endpoint : string) (cp : connPool) (w : serviceWatcher) :
    build_err + (string * connPool * serviceWatcher * nat) :=
  if String.eqb endpoint "" then inl EmptyTarget
  else
    let prefix := if HasSuffix endpoint "/" then endpoint else endpoint +:+ "/" in
    match getOrCreateWatcher prefix cp with
    | (cp, true) => let '(w, id) := addListener w in inr (prefix, cp, w, id)
    | (_, false) => inl PoolClosed
    end.

(** What the connection is told; [accepts] is whether it takes a state. *)
Inductive told := UpdateState (addrs : list (@Address Meta)) | ReportError.

Definition resolver_consume (accepts : list (@Address Meta) → bool) (c : call) : list told :=
  match c with
  | Failed => [ReportError]
  | Given addrs => UpdateState addrs :: if accepts addrs then [] else [ReportError]
  end.

Definition resolver_Close (id : nat) (w : serviceWatcher) : serviceWatcher := removeListener id w.
End resolver.

(** * Theorems *)

(** Options are applied to the defaults in their order, and the handler of the diagnostics
    is there besides those of the caller. *)
Definition keeps_endpoints (o : CfgOption) : Prop :=
  ∀ c, Endpoints (o c) = Endpoints c ∧ StatsHandlers (o c) = StatsHandlers c.

Lemma apply_options_app l l' c : apply_options (l ++ l') c = apply_options l' (apply_options l c).
Proof. unfold apply_options. apply foldl_app. Qed.

Theorem registry_options endpoints options :
  Forall keeps_endpoints options →
  let c := registry_config endpoints options in
  Endpoints c = endpoints ∧ StatsHandlers c = 1%nat ∧
  (∀ os t, options = os ++ [WithDialTimeout t] → DialTimeout c = t) ∧
  (∀ os n, options = os ++ [WithMaxCallSendMsgSize n] → MaxCallSendMsgSize c = n) ∧
  (∀ os u p, options = os ++ [WithUsernameAndPassword u p] → Username c = u ∧ Password c = p).
Proof.
  intros Hk. assert (∀ d, Endpoints (apply_options options d) = Endpoints d ∧
    StatsHandlers (apply_options options d) = StatsHandlers d) as Hd.
  { unfold apply_options. induction Hk as [|o os Ho _ IH]; intros d; [done|]. simpl.
    destruct (IH (o d)) as [-> ->]. apply Ho. }
  unfold registry_config. split_and!; simpl; [apply Hd|by rewrite (proj2 (Hd _))|intros os ? ->|intros os ? ->|intros os ? ? ->];
    by rewrite apply_options_app.
Qed.

(** The check of a cluster leaves the keys alone unless it is asked to create.  Then it
    writes the root even when it is there, bound to a lease of five seconds: when that lapses
    the key is gone, whatever it held before, and no other key is changed. *)
Theorem check_root succeeds fresh root create s s' :
  (∀ k v l, kvs s !! k = Some (v, Some l) → l ≠ fresh s) →
  Check_ succeeds fresh root create s = (s', None) →
  (create = false → s' = s) ∧
  (create = true →
     kvs s' !! probe_key root = Some ("ok", Some (fresh s)) ∧
     kvs (lapse (fresh s) s') !! probe_key root = None ∧
     ∀ k, k ≠ probe_key root → kvs (lapse (fresh s) s') !! k = kvs s !! k).
Proof.
  intros Hf. unfold Check_. destruct (succeeds 0%nat), (succeeds 1%nat); try done. simpl. destruct create.
  2: { intros ?; simplify_eq. done. }
  destruct (succeeds 2%nat), (succeeds 3%nat); try done. simpl. intros ?; simplify_eq. split; [done|]. intros _. simpl.
  split_and!.
  - apply lookup_insert_eq.
  - apply map_lookup_filter_None_2. right. intros [v l]. rewrite lookup_insert_eq. intros [= <- <-]. by simpl; intros [].
  - intros k Hk. destruct (kvs s !! k) as [[v l]|] eqn:Hs.
    + apply map_lookup_filter_Some_2; [by rewrite lookup_insert_ne|]. simpl. intros ->. by apply (Hf k v (fresh s)).
    + apply map_lookup_filter_None_2. left. by rewrite lookup_insert_ne.
Qed.

(** A resolver is told at once what the watcher has published, afterwards all that it
    publishes, and nothing once it is closed. *)
Theorem resolver_listens {Meta} endpoint cp cp' (w w' : @serviceWatcher Meta) prefix id :
  listeners w !! S (nextID w) = None → closed cp = false → endpoint ≠ "" →
  Build endpoint cp w = inr (prefix, cp', w', id) →
  HasSuffix prefix "/" = true ∧ add_slash prefix ∈ watchers cp' ∧
  listeners w' !! id = Some (match published w with Some addrs => [Given addrs] | None => [] end) ∧
  (∀ c l, listeners w' !! id = Some l → consume c (listeners w') !! id = Some (l ++ [c])) ∧
  listeners (resolver_Close id w') = listeners w.
Proof.
  intros Hn Hc He. unfold Build. destruct (String.eqb_spec endpoint ""); [done|].
  unfold getOrCreateWatcher. rewrite Hc.
  set (p := if HasSuffix endpoint "/" then endpoint else endpoint +:+ "/").
  assert (HasSuffix p "/" = true) as Hp.
  { subst p. destruct (HasSuffix endpoint "/") eqn:Hs; [done|]. apply HasSuffix_app. }
  case_bool_decide as Hw; simpl; intros [= <- <- <- <-]; simpl; rewrite ?lookup_insert_eq.
  - split_and!; try done; [|by apply delete_insert_id]. intros c l [= <-]. unfold consume. by rewrite lookup_fmap, lookup_insert_eq.
  - split_and!; try done; [set_solver| |by apply delete_insert_id]. intros c l [= <-].
    unfold consume. by rewrite lookup_fmap, lookup_insert_eq.
Qed.
